(* ===== verification/_CoqProject ===== *)
-Q . S2P
Prelude.v
Containers.v
Floats.v
Json.v
Error.v
State.v
StateFacts.v
Graph.v
Record.v
SampleCodec.v
Journal.v
JournalFacts.v
Inbox.v
InboxFacts.v
Checkpoint.v
FileCheckpoint.v
CheckpointFacts.v
FileCheckpointFacts.v
Meter.v
Chat.v
Declaration.v
Replay.v
ReplayFacts.v
RecordReplay.v
Invariant.v
InvariantFacts.v
Effects.v
EffectsFacts.v
Branches.v
Durable.v
Tasks.v
TaskStore.v
TaskStoreFacts.v
TaskQueue.v
Executor.v
ExecutorFacts.v
SuperStep.v
Routing.v
RunLoop.v
ExecutorExamples.v
ReplayRun.v
ReplayRunFacts.v
ModelSeam.v
Text.v
Shaping.v
Middleware.v
SampleReader.v
ToolSelect.v
ToolSelectFacts.v
Tools.v
ArgumentCheck.v
ToolWrappers.v
Dispatch.v
DispatchFacts.v
ToolFacts.v
Progress.v
ProgressFacts.v
ToolsNode.v
ToolsNodeFacts.v
Order.v
Memory.v
MemoryPlans.v
MemoryStore.v
MemoryFacts.v
MemoryPlansFacts.v
MemoryReplayFacts.v
MemoryExamples.v
Context.v
ContextHistory.v
ContextAssembly.v
ContextHistoryFacts.v
ContextFacts.v
Learn.v
Registry.v
LearnFacts.v
LearnRoutes.v
LearnRoutesFacts.v
LearnExamples.v
