(* ===== verification/Prelude.v ===== *)
(** * Rusty: a verification development of the durable agent runtime

    Rusty runs agent graphs durably: an executor drives a compiled graph in
    super-steps over shared channel state, records every step in a
    hash-chained journal, takes messages and cancellations from an inbox, and
    commits a checkpoint per step; a server hands further work to workers
    through a leased task queue. This library models that core in Rocq and
    proves what makes it correct. Definitions are executable and keep the
    names of the source; theorems are stated over all inputs, all schedules of
    the nodes, all iteration orders of hash maps and all failures of the file
    system, where the code meets them.

    ** The parts, and where they are modelled

    - Errors and values: [Error] ([rusty-core/src/error.rs]), [Json]
      ([serde_json::Value] as used), [Containers] ([BTreeMap], stable sorting,
      saturating integers), [Floats] (binary64 rounding).
    - State: [State], [StateFacts] ([state.rs]): channels, reducers,
      copy-on-write merging, the super-step merge and its validation.
    - Graphs: [Graph] ([graph.rs]): builder, [compile], topology hash.
    - Evidence: [Record] ([record.rs], [rusty-api/src/lib.rs]), [Journal],
      [JournalFacts] ([journal.rs]): events, payload spilling, the hash chain,
      snapshots, artifact stores, receipts, clocks.
    - Messages: [Inbox], [InboxFacts] ([inbox.rs]): sends, settlement, drains,
      the cancellation latch, snapshots, replay of a recorded settlement.
    - Checkpoints: [Checkpoint], [CheckpointFacts], [FileCheckpoint],
      [FileCheckpointFacts] ([checkpoint.rs]): delta encoding and folding, the
      [Checkpointer] interface, the in-memory and the JSON-file backend.
    - Metering: [Meter] ([meter.rs], the prices of [llm.rs]).
    - Effects: [Effects], [EffectsFacts] ([effects.rs]): effect ids, admission,
      the approval ledger, compensation, the shadow boundary.
    - Retry and timeout policy: [Durable] ([durable.rs], the
      policies of [record.rs]).
    - Task queue: [Tasks] ([rusty-server/src/tasks.rs]), [TaskStore]
      ([server_store.rs], [outbox.rs], [agents.rs]), [TaskStoreFacts],
      [TaskQueue].
    - Executor: [Executor] ([executor.rs], [node.rs]), [ExecutorFacts],
      [SuperStep], [Routing], [RunLoop], [ExecutorExamples].
    - Replay: [Chat] (the messages of [llm.rs]), [Declaration] (the journaled
      configuration envelope), [Replay], [ReplayFacts], [RecordReplay]
      ([replay.rs], [tool/approval.rs]): integrity, the serving
      cursor, recording and replaying wrappers, verification; [ReplayRun],
      [ReplayRunFacts]: the replay over the executor and fixtures; [Branches]:
      journal diffs and the shadow's recorded world.
    - Model seam: [Invariant], [InvariantFacts] ([invariant.rs]): the window the
      journal derives for a model call and the checking decorator; [ModelSeam]:
      the window the agent assembles ([react.rs]), against
      the executor.
    - Tools: [Text] ([str] methods), [Shaping] (result shaping of [tool.rs]),
      [Middleware] ([middleware.rs], the tool onion), [ToolSelect],
      [ToolSelectFacts] (the shortlist of [tool_select.rs]), [Tools] (contract,
      registry, placement), [ArgumentCheck], [ToolWrappers] (argument
      validation, decorators and toolsets of [tool_select.rs], the recording
      decorator of [replay.rs]), [Dispatch], [DispatchFacts] (guards, sandbox
      seam, batches of [tool.rs]), [ToolFacts];
      [SampleReader] is a JSON reader that witnesses the codec interface.
    - Agent loop: [Progress], [ProgressFacts] (failure policy of [tool.rs],
      progress detection and thread repair of [react.rs]), [ToolsNode],
      [ToolsNodeFacts] (the tools node of [react.rs]).
    - Memory: [Order] (comparators), [Memory] (records, queries, recall,
      ranking and packing of [memory.rs]), [MemoryPlans] (forgetting, conflicts,
      corrections, consolidation, rewrites, credentials), [MemoryStore] (the
      store contract, journaled reads and writes, the replay source),
      [MemoryFacts], [MemoryPlansFacts], [MemoryReplayFacts], [MemoryExamples].
    - Context: [Context] (policies, renderings, short schemas, the frozen prefix
      of [context.rs]), [ContextHistory] (the pipeline, compaction, packing of
      the history), [ContextAssembly] (the sections, the manifest, absorption,
      the assembling model), [ContextHistoryFacts], [ContextFacts].
    - Learning: [Learn] (candidates, surfaces, the promotion envelope and gate,
      lifecycle records, version pointers, the overlay lens of [learn.rs]),
      [Registry] (artifact records, diffs, pins of [registry.rs]), [LearnRoutes]
      (the candidate handlers of [rusty-server/src/routes.rs] over the file
      store of [server_store.rs] and [rusty-server/src/learn.rs]), [LearnFacts],
      [LearnRoutesFacts], [LearnExamples].

    The executor calls the state merge, the graph's edges, the journal, the
    inbox, the spend guard and the checkpointer; the queue's failure path calls
    the retry policy and its claim path the timeout policy; a replay serves the
    journal's effects to the wrappers and re-runs the executor; the tools node
    asks the failure policy and the approval gate, then dispatches a batch
    through middleware, guards, placement and effect admission to tool bodies
    or a sandbox, recording the evidence in the journal; node code reads memory
    through a handle that journals what it was served; the context pipeline
    packs instructions, tools, recalled memory and history into each model call;
    a promotion moves the pointer that decides which candidate new runs bind.
    Components meet
    through classes: [Codec] and [CodecLaws] (serializer, digest, time library),
    [CheckpointCodec] (checkpoint files), [ArtifactStoreLaws], [Checkpointer],
    [PolicyFormat], [TimeParse], [Calendar], [HashOrder], [Unicode], [Comparator].

    ** How state and effects are modelled

    Shared handles that the source clones are explicit: clocks live in a table,
    the executor threads a [World] (clocks, journal, id counter, inbox, store,
    events), the file store pairs each index with the records on disk, a
    recording wrapper acts on clocks, journal and outside world ([Live]), a
    replaying one on cursor, clocks and journal ([Replaying]). Other
    tasks, node bodies and the scheduler are an environment that acts between
    the executor's steps. Fallible code returns [result]; a panic is an error
    of its own. Integers are [N] or [Z] with saturation and wrap-around written
    out; [f64] is the standard library's [spec_float] at binary64.

    ** What the theorems show

    - Executor: the evidence chain of every run ([run_evidence]), super-steps
      as transactions ([super_step_transaction]) whose merged state no schedule
      can change ([super_step_schedule_free]), termination within [max_steps]
      ([run_terminates]), suspension and resumption, budgets, routing.
    - State and graphs: writes merge all or nothing, each channel holds the fold
      of its reducer, typing is kept, [compile] accepts exactly the well-formed
      builders.
    - Journal and inbox: the append invariant, tamper evidence of the head hash
      under no collision among the digests involved, round trips of snapshots
      and payloads, exact settlement and its replay.
    - Checkpoints: the delta-encoding file backend refines the in-memory one;
      when a delta folds back, chain bounds, materialization.
    - Effects and policy: one approval admits one irreversible call, admission
      is fail-closed, effect ids bind run and call; backoff stays in its window
      to the last bit, no policy unlocks a retry.
    - Task queue: every store call is a sequence of lifecycle steps
      ([store_refines_lifecycle]) under every iteration order and write failure;
      memory and disk agree after every history ([queue_invariant]); settled
      work stays settled, live leases are not stolen, claims take the oldest
      eligible task, one turn per mailbox, growing fencing ordinals.
    - Replay: recorded node code replays to the very same result and journal
      ([record_replay]); the cursor answers the next recorded effect or nothing
      ([serve_exact]), verification accepts exactly reproductions
      ([verify_exact]), admission exactly intact journals; a replay re-declares
      the recorded envelope ([replay_redeclares]); diffs cut journals where they
      part, and a shadow is served its source run's history in order.
    - Model seam: a call reaches the model only with the messages the journal
      derives ([dispatched_is_logged]), and an honest agent always passes
      ([honest_requests_pass]).
    - Tools: one executed call reaches at most one body, guarded, placed and
      admitted ([execute_one_guarded]); a batch answers in order and spends each
      approval once ([batch_spends_once]); the middleware loops are the nested
      onion ([run_layers_onion]); allowlists confine, validation is exact, the
      shortlist is closed under prerequisites and independent of order.
    - Agent loop: the tools node runs only warranted calls
      ([tools_node_warranted]) and answers every one ([tools_node_answers]);
      what the failure policy admits, and that repair pairs every call.
    - Memory: an assembly packs a prefix of the ranked records within its budget
      whatever order the store returned them in ([assembly_exact]); a forgetting
      takes exactly the dependent summaries with it ([plan_forget_exact]);
      conflicts are flagged exactly ([conflicts_exact]); a consolidation hides
      its sources ([consolidation_supersedes]); recorded reads replay to the
      same journal ([memory_replays]).
    - Context: an assembly is accounted exactly and within its budgets
      ([assembly_composes]); packing keeps whole steps and the question
      ([history_pack_sound]); compaction fails only as it says and loses no
      question ([compaction_sound]); the default policies add up
      ([standard_composes]).
    - Learning: the gate admits exactly on its evidence bar or approval
      ([promotion_gate_exact]), without a human only on an improvement
      ([auto_promotes_improvements]); whatever requests overlap, writes fail or
      restarts happen, what a surface serves was gated ([served_was_gated]) and
      records only move forward ([lifecycle_forward]); calls that do not overlap
      make each surface a stack of promotions ([surfaces_are_stacks]); the
      prompt diff is a shortest edit script ([diff_lines_shortest]), structural
      diffs are exact ([diff_candidates_exact]), and the overlay only reads
      ([overlay_is_a_lens]).
    - Departures of the code from its documentation are theorems too: graphs
      that share a topology hash, a channel resurrected by a delta, a replayed
      inbox without snapshot, routing order that follows finish order, artifacts
      outside the hash chain, colliding effect ids, a publish that resets a
      finished task, a lapsed turn revived by a heartbeat, a re-driven task
      cancelled by its next claim, a fencing ordinal that restarts; gated calls,
      failed calls, captured streams, out-of-order batches and runs in a world
      that exact replay cannot reproduce, a failure served to a shadow as a value; a
      refusal report that panics, a resumed batch the log does not show and a
      continued one that is lost; tools that need each other selected twice or
      not at all, wrappers that escape the sandbox or keep the inner kind,
      sources that disagree on a name, toolsets that drop unknown names, a safe
      re-send uncounted, an opaque failure called a repeat, a notice of an
      earlier turn that ends a run; a rewrite that swaps every fact, a stale
      consolidation state, a read without a parent or one that failed that does
      not replay, a superseded record revived by forgetting its correction; a
      compaction that keeps nothing and panics, an absorption that gives up, memory
      and recall sections beyond their budgets, a question dropped unreported, a
      frozen prefix that is refused, uncounted or panics, a short schema without a
      required parameter; a scope bar that reads the declared scope only, an
      approval good for every tag, a canary that cannot graduate, overlapping
      requests that restore a rolled-back version or lose a promotion, a
      half-written transition no retry completes, addresses that see member order,
      listings that skip names with a slash.

    ** Bounds and fuel

    The run loop recurses on the remaining super-steps, so [max_steps] is its
    fuel and [run_terminates] shows it is enough; a schedule of the environment
    is a finite list per step, and the termination theorem asks that it ends
    every spawned task. Chain walks recurse on the number of checkpoints in the
    thread, more than any acyclic chain has; the loops of the store recurse on
    the ids they collected. The prerequisite walks have fuel for every edge of
    the manifests, which [shortlist_sound] shows is enough; repair recurses on
    the number of messages. The forgetting fixpoint has a pass more than there
    are records, which [plan_forget_exact] shows is enough; memory budgets are
    below [u32::MAX], where the sums saturate. The loops of the context pipeline
    have the source's own bounds (32 halvings, 16 absorptions, 8 manifest
    renderings); other [u32] sums wrap, as in a release build. The order in which the calls of a batch finish is
    an argument, and one dispatch is atomic. [f64] products are bounded for windows below [2^53]
    ms, which covers the one-hour policy envelope.

    ** Not modelled

    Code outside the repository is a parameter (the serializer, SHA-256, chrono,
    the random generator). JSON text of task and outbox files is not modelled:
    the disk holds the records. Node bodies enter the executor as environment,
    tool bodies, sandbox backends and live tool sources the dispatcher as
    arguments. Models, capsules, plugins and the server's memory stores are services or I/O; so are
    the Postgres backends, the HTTP routes other than the candidate lifecycle, the
    worker process and the exporters. Of the learning plane the distillers, the
    twin evaluator, drift detection, the gap ledger and the activation of executor
    policies after a promotion are not modelled; the journal's answer to a
    lifecycle event is an argument. The other indexes of the file store, the model-retry loop of the
    middleware and deferred tool loading are not modelled. *)

From Stdlib Require Import String Ascii.
From stdpp Require Export base list gmap strings pretty sorting.

(** ** Results

    [Result<T, E>] of the source, with the [?] operator as monadic bind. *)
Inductive result (E A : Type) : Type :=
| Ok (a : A)
| Err (e : E).
Arguments Ok {E A} a.
Arguments Err {E A} e.

#[export] Instance result_ret (E : Type) : MRet (result E) := fun A a => Ok a.

#[export] Instance result_bind (E : Type) : MBind (result E) :=
  fun A B f r => match r with Ok a => f a | Err e => Err e end.

(** [Option::ok_or]. *)
Definition ok_or {E A : Type} (o : option A) (e : E) : result E A :=
  match o with Some a => Ok a | None => Err e end.

(** [Result::is_ok]. *)
Definition is_ok {E A : Type} (r : result E A) : bool :=
  match r with Ok _ => true | Err _ => false end.

Lemma bind_Ok {E A B : Type} (r : result E A) (f : A -> result E B) (b : B) :
  r ≫= f = Ok b <-> exists a, r = Ok a /\ f a = Ok b.
Proof.
  destruct r as [a|e]; simpl; split; [eauto| |done|];
    intros (a' & Heq & Hf); by simplify_eq.
Qed.

Lemma bind_Err {E A B : Type} (r : result E A) (f : A -> result E B) (e : E) :
  r ≫= f = Err e <-> r = Err e \/ exists a, r = Ok a /\ f a = Err e.
Proof.
  destruct r as [a|e']; simpl; split; intros H.
  - right. eauto.
  - destruct H as [H|(a' & Ha & Hf)]; by simplify_eq.
  - left. congruence.
  - destruct H as [H|(a' & Ha & Hf)]; [congruence|discriminate Ha].
Qed.

(** ** Automation

    [simplify_result] splits every monadic bind of the context that is
    known to return. *)
Ltac simplify_result :=
  repeat match goal with
  | H : (_ ≫= _) = Ok _ |- _ => apply bind_Ok in H as (? & ? & ?)
  | H : Ok _ = Ok _ |- _ => injection H as H; try subst
  | H : Err _ = Err _ |- _ => injection H as H; try subst
  | H : Ok _ = Err _ |- _ => discriminate H
  | H : Err _ = Ok _ |- _ => discriminate H
  | H : mret _ = Ok _ |- _ => injection H as H; try subst
  end.

(** Case analysis on the scrutinee of a [match] or [if] of the goal. *)
Ltac case_goal :=
  match goal with
  | |- context [ match ?x with _ => _ end ] => destruct x eqn:?
  end.

Create HintDb rusty.
Create Rewrite HintDb rusty.

(** ** Strings in byte order

    [Ord for str] compares bytes lexicographically; [String.compare] does
    the same on the byte strings of the model. *)
Definition str_lt (a b : string) : Prop := String.compare a b = Lt.
Definition str_ltb (a b : string) : bool :=
  match String.compare a b with Lt => true | _ => false end.
Definition str_leb (a b : string) : bool :=
  match String.compare a b with Gt => false | _ => true end.

Lemma ascii_compare_N (a b : ascii) :
  Ascii.compare a b = N.compare (N_of_ascii a) (N_of_ascii b).
Proof. reflexivity. Qed.

Lemma str_compare_refl (s : string) : String.compare s s = Eq.
Proof.
  induction s as [|c s IH]; [done|]. simpl. rewrite ascii_compare_N.
  by rewrite N.compare_refl.
Qed.

Lemma str_compare_eq (a b : string) : String.compare a b = Eq <-> a = b.
Proof.
  split; [apply String.compare_eq_iff|]. intros ->. apply str_compare_refl.
Qed.

Lemma str_lt_trans (a b c : string) : str_lt a b -> str_lt b c -> str_lt a c.
Proof.
  unfold str_lt. revert b c. induction a as [|x a IH]; intros [|y b] [|z c] H1 H2;
    try discriminate; try done.
  simpl in *. rewrite !ascii_compare_N in *.
  destruct (N.compare_spec (N_of_ascii x) (N_of_ascii y)) as [E1|L1|G1]; try discriminate;
  destruct (N.compare_spec (N_of_ascii y) (N_of_ascii z)) as [E2|L2|G2]; try discriminate;
  destruct (N.compare_spec (N_of_ascii x) (N_of_ascii z)) as [E3|L3|G3];
    try reflexivity; try (exfalso; lia).
  eapply IH; eauto.
Qed.

Lemma str_lt_irrefl (a : string) : ~ str_lt a a.
Proof. unfold str_lt. by rewrite str_compare_refl. Qed.

Lemma str_lt_ne (a b : string) : str_lt a b -> a <> b.
Proof. intros H ->. by apply str_lt_irrefl in H. Qed.

Lemma str_compare_Gt (a b : string) : String.compare a b = Gt <-> str_lt b a.
Proof.
  unfold str_lt. rewrite String.compare_antisym.
  destruct (String.compare b a); simpl; naive_solver.
Qed.

Lemma str_trichotomy (a b : string) : str_lt a b \/ a = b \/ str_lt b a.
Proof.
  destruct (String.compare a b) eqn:E.
  - right; left. by apply str_compare_eq.
  - by left.
  - right; right. by apply str_compare_Gt.
Qed.

Lemma str_leb_total (a b : string) : str_leb a b = true \/ str_leb b a = true.
Proof.
  unfold str_leb. destruct (str_trichotomy a b) as [H|[->|H]].
  - left. by rewrite H.
  - left. by rewrite str_compare_refl.
  - right. by rewrite H.
Qed.

Lemma str_leb_spec (a b : string) : str_leb a b = true <-> str_lt a b \/ a = b.
Proof.
  unfold str_leb, str_lt. destruct (String.compare a b) eqn:E.
  - apply str_compare_eq in E. naive_solver.
  - naive_solver.
  - split; [discriminate|]. intros [H|H]; [congruence|].
    apply str_compare_eq in H. congruence.
Qed.

Lemma str_leb_trans (a b c : string) :
  str_leb a b = true -> str_leb b c = true -> str_leb a c = true.
Proof.
  rewrite !str_leb_spec. intros [H1| ->] [H2| ->]; eauto using str_lt_trans.
Qed.

Lemma str_leb_antisym (a b : string) :
  str_leb a b = true -> str_leb b a = true -> a = b.
Proof.
  rewrite !str_leb_spec. intros [H1| ->] [H2|H2]; try done.
  exfalso. eapply str_lt_irrefl, str_lt_trans; eauto.
Qed.
