(* ===== verification/Containers.v ===== *)
(** * Ordered maps, stable sorting and machine integers

    The standard-library containers the runtime uses: [BTreeMap<String, V>]
    as a strictly sorted association list (its iteration order is part of
    what the code relies on), [slice::sort_by] as a stable insertion sort,
    and the unsigned machine integers with their saturating operations. *)

From Stdlib Require Import String.
From S2P Require Import Prelude.

(** ** BTreeMap *)
Module BTree.

Section Ops.
Context {V : Type}.

(** [BTreeMap::get]. *)
Fixpoint get (k : string) (m : list (string * V)) : option V :=
  match m with
  | [] => None
  | (k', v) :: m' => if String.eqb k k' then Some v else get k m'
  end.

(** [BTreeMap::insert] (the previous value, if any, is dropped). *)
Fixpoint insert (k : string) (v : V) (m : list (string * V)) : list (string * V) :=
  match m with
  | [] => [(k, v)]
  | (k', v') :: m' =>
      match String.compare k k' with
      | Lt => (k, v) :: (k', v') :: m'
      | Eq => (k, v) :: m'
      | Gt => (k', v') :: insert k v m'
      end
  end.

(** [BTreeMap::remove]. *)
Fixpoint remove (k : string) (m : list (string * V)) : list (string * V) :=
  match m with
  | [] => []
  | (k', v') :: m' => if String.eqb k k' then remove k m' else (k', v') :: remove k m'
  end.

(** [BTreeMap::from_iter]: later entries win. *)
Definition from_list (l : list (string * V)) : list (string * V) :=
  fold_left (fun m kv => insert kv.1 kv.2 m) l [].

Definition contains_key (k : string) (m : list (string * V)) : bool :=
  match get k m with Some _ => true | None => false end.

(** The representation invariant: keys strictly increasing. *)
Fixpoint sorted (m : list (string * V)) : bool :=
  match m with
  | [] => true
  | (k, _) :: m' =>
      match m' with
      | [] => true
      | (k', _) :: _ => str_ltb k k' && sorted m'
      end
  end.
End Ops.

Section Laws.
Context {V : Type}.
Implicit Types m : list (string * V).

(** The invariant as a proposition: each key is below all later ones. *)
Definition Sorted m : Prop := StronglySorted (fun a b => str_lt a.1 b.1) m.

Lemma str_ltb_lt (a b : string) : str_ltb a b = true <-> str_lt a b.
Proof. unfold str_ltb, str_lt. destruct (String.compare a b); naive_solver. Qed.

Lemma sorted_Sorted m : sorted m = true <-> Sorted m.
Proof.
  split.
  - intros H. apply Sorted_StronglySorted; [intros x y z; apply str_lt_trans|].
    induction m as [|[k v] m IH]; [constructor|].
    destruct m as [|[k' v'] m']; [repeat constructor|].
    simpl in H. apply andb_true_iff in H as [H1 H2].
    constructor; [by apply IH|]. constructor. simpl. by apply str_ltb_lt.
  - intros H%StronglySorted_Sorted. induction m as [|[k v] m IH]; [done|].
    inv H. destruct m as [|[k' v'] m']; [done|].
    simpl. apply andb_true_iff. split; [|by apply IH].
    apply str_ltb_lt. by match goal with H : HdRel _ _ _ |- _ => inv H end.
Qed.

Lemma get_insert_eq k v m : get k (insert k v m) = Some v.
Proof.
  induction m as [|[k' v'] m IH]; simpl; [by rewrite String.eqb_refl|].
  destruct (String.compare k k') eqn:E; simpl; rewrite ?String.eqb_refl; [done..|].
  destruct (String.eqb_spec k k') as [->|]; [|done].
  by rewrite str_compare_refl in E.
Qed.

Lemma get_insert_ne k k' v m : k <> k' -> get k (insert k' v m) = get k m.
Proof.
  intros Hne. induction m as [|[k2 v2] m IH]; simpl.
  - by rewrite (proj2 (String.eqb_neq k k')).
  - destruct (String.compare k' k2) eqn:E; simpl.
    + apply str_compare_eq in E as ->.
      by rewrite (proj2 (String.eqb_neq k k2)).
    + by rewrite (proj2 (String.eqb_neq k k')).
    + by rewrite IH.
Qed.

Lemma get_insert k k' v m :
  get k (insert k' v m) = if String.eqb k k' then Some v else get k m.
Proof.
  destruct (String.eqb_spec k k') as [->|H];
    [apply get_insert_eq | by apply get_insert_ne].
Qed.

Lemma get_remove k k' m :
  get k (remove k' m) = if String.eqb k k' then None else get k m.
Proof.
  induction m as [|[k2 v2] m IH]; simpl; [by destruct (String.eqb k k')|].
  destruct (String.eqb_spec k' k2) as [->|]; simpl.
  - rewrite IH. by destruct (String.eqb_spec k k2).
  - destruct (String.eqb_spec k k2) as [->|]; [|done].
    by rewrite (proj2 (String.eqb_neq k2 k')).
Qed.

Lemma get_Some_In k v m : get k m = Some v -> (k, v) ∈ m.
Proof.
  induction m as [|[k' v'] m IH]; simpl; [done|].
  destruct (String.eqb_spec k k') as [->|]; [intros [= ->]; left|].
  intros H. right. by apply IH.
Qed.

Lemma get_None_notin k m : get k m = None <-> k ∉ m.*1.
Proof.
  induction m as [|[k' v'] m IH]; simpl; [split; [intros _ H; inv H|done]|].
  rewrite not_elem_of_cons.
  destruct (String.eqb_spec k k') as [->|]; naive_solver.
Qed.

Lemma elem_of_insert k v m x : x ∈ insert k v m -> x = (k, v) \/ x ∈ m.
Proof.
  induction m as [|[k' v'] m IH]; simpl; [rewrite list_elem_of_singleton; auto|].
  destruct (String.compare k k'); rewrite ?elem_of_cons; naive_solver.
Qed.

Lemma insert_Sorted k v m : Sorted m -> Sorted (insert k v m).
Proof.
  unfold Sorted. induction m as [|[k' v'] m IH]; simpl; intros H; [repeat constructor|].
  apply StronglySorted_cons in H as [Hall Hs].
  destruct (String.compare k k') eqn:E.
  - apply str_compare_eq in E as ->. by constructor.
  - constructor; [by constructor|]. constructor; [done|].
    eapply Forall_impl; [exact Hall|]. simpl. intros [k2 v2] ?; simpl in *.
    by eapply str_lt_trans.
  - apply str_compare_Gt in E. constructor; [by apply IH|].
    apply Forall_forall. intros x [->|Hx]%elem_of_insert; [done|].
    by eapply Forall_forall in Hall.
Qed.

Lemma remove_Sorted k m : Sorted m -> Sorted (remove k m).
Proof.
  unfold Sorted. induction m as [|[k' v'] m IH]; simpl; intros H; [constructor|].
  apply StronglySorted_cons in H as [Hall Hs].
  destruct (String.eqb k k'); [by apply IH|]. constructor; [by apply IH|].
  clear -Hall. induction m as [|[k2 v2] m IH]; simpl; [constructor|].
  apply Forall_cons in Hall as [H1 H2]. destruct (String.eqb k k2); [by apply IH|].
  constructor; [done|by apply IH].
Qed.

Lemma get_below k m : Forall (fun b => str_lt k b.1) m -> get k m = None.
Proof.
  induction 1 as [|[k' v'] m H _ IH]; simpl; [done|].
  rewrite (proj2 (String.eqb_neq k k')); [done|]. by apply str_lt_ne.
Qed.

(** A sorted map is determined by its lookups. *)
Lemma ext m1 m2 : Sorted m1 -> Sorted m2 -> (forall k, get k m1 = get k m2) -> m1 = m2.
Proof.
  intros H1. revert m2. induction H1 as [|[k1 v1] m1 Hs1 IH Hall1]; intros m2 H2 Heq.
  - destruct m2 as [|[k v] m2]; [done|].
    specialize (Heq k). simpl in Heq. by rewrite String.eqb_refl in Heq.
  - destruct m2 as [|[k2 v2] m2].
    { specialize (Heq k1). simpl in Heq. by rewrite String.eqb_refl in Heq. }
    apply StronglySorted_cons in H2 as [Hall2 Hs2].
    assert (k1 = k2) as <-.
    { destruct (str_trichotomy k1 k2) as [L|[E|L]]; [|done|].
      - specialize (Heq k1). simpl in Heq. rewrite String.eqb_refl in Heq.
        rewrite (proj2 (String.eqb_neq k1 k2)), get_below in Heq; try done.
        + eapply Forall_impl; [exact Hall2|]. intros; by eapply str_lt_trans.
        + by apply str_lt_ne.
      - specialize (Heq k2). simpl in Heq. rewrite String.eqb_refl in Heq.
        rewrite (proj2 (String.eqb_neq k2 k1)), get_below in Heq; try done.
        + eapply Forall_impl; [exact Hall1|]. intros; by eapply str_lt_trans.
        + by apply str_lt_ne. }
    pose proof (Heq k1) as Hv. simpl in Hv. rewrite !String.eqb_refl in Hv.
    injection Hv as ->. f_equal. apply IH; [done|]. intros k.
    specialize (Heq k). simpl in Heq. destruct (String.eqb_spec k k1) as [E|]; [|exact Heq].
    rewrite E. by rewrite !get_below.
Qed.

(** Lookup of a map built from an association list: the last binding wins. *)
Lemma get_fold_insert (l : list (string * V)) m k :
  get k (fold_left (fun m kv => insert kv.1 kv.2 m) l m)
  = match get k (reverse l) with Some v => Some v | None => get k m end.
Proof.
  revert m. induction l as [|[k' v'] l IH]; intros m; [done|].
  simpl. rewrite IH, get_insert, reverse_cons. clear IH.
  assert (Happ : forall l1 : list (string * V),
    get k (l1 ++ [(k', v')])
    = match get k l1 with Some v => Some v | None => if String.eqb k k' then Some v' else None end).
  { induction l1 as [|[k1 v1] l1 IHl]; simpl; [done|].
    by destruct (String.eqb k k1). }
  rewrite Happ. destruct (get k (reverse l)); [done|]. by destruct (String.eqb k k').
Qed.

Lemma fold_insert_Sorted (l : list (string * V)) m :
  Sorted m -> Sorted (fold_left (fun m kv => insert kv.1 kv.2 m) l m).
Proof. revert m. induction l as [|kv l IH]; intros m H; simpl; auto using insert_Sorted. Qed.

Lemma from_list_Sorted (l : list (string * V)) : Sorted (from_list l).
Proof. apply fold_insert_Sorted. constructor. Qed.

Lemma Sorted_NoDup m : Sorted m -> NoDup m.*1.
Proof.
  unfold Sorted. induction 1 as [|[k v] m Hs IH Hall]; simpl; constructor; [|done].
  rewrite list_elem_of_fmap. intros ([k' v'] & -> & Hin).
  eapply Forall_forall in Hall; [|exact Hin]. by apply str_lt_irrefl in Hall.
Qed.

Lemma get_In_NoDup k v m : NoDup m.*1 -> (k, v) ∈ m -> get k m = Some v.
Proof.
  induction m as [|[k' v'] m IH]; simpl; intros Hnd Hin; [inv Hin|].
  apply NoDup_cons in Hnd as [Hni Hnd]. apply elem_of_cons in Hin as [[= -> ->]|Hin].
  - by rewrite String.eqb_refl.
  - destruct (String.eqb_spec k k') as [->|]; [|by apply IH].
    exfalso. apply Hni. apply list_elem_of_fmap. by exists (k', v).
Qed.

Lemma get_Permutation m1 m2 k : NoDup m1.*1 -> m1 ≡ₚ m2 -> get k m1 = get k m2.
Proof.
  intros Hnd Hp. destruct (get k m1) as [v|] eqn:E.
  - symmetry. apply get_In_NoDup; [by rewrite <- Hp|].
    rewrite <- Hp. by apply get_Some_In.
  - symmetry. apply get_None_notin. rewrite <- Hp. by apply get_None_notin.
Qed.

Lemma from_list_id m : Sorted m -> from_list m = m.
Proof.
  intros H. apply ext; [apply from_list_Sorted|done|]. intros k.
  unfold from_list. rewrite get_fold_insert. simpl.
  rewrite <- (get_Permutation m (reverse m)); [by destruct (get k m)| |].
  - by apply Sorted_NoDup.
  - symmetry. apply reverse_Permutation.
Qed.
End Laws.
End BTree.

#[export] Hint Resolve BTree.insert_Sorted BTree.remove_Sorted BTree.from_list_Sorted : rusty.
#[export] Hint Rewrite @BTree.get_insert @BTree.get_remove : rusty.

(** ** Stable sorting

    [slice::sort_by] and [sort_by_key]: stable, so the result is that of any
    stable algorithm. *)
Section StableSort.
Context {A : Type} (leb : A -> A -> bool).

Fixpoint sort_insert (x : A) (l : list A) : list A :=
  match l with
  | [] => [x]
  | y :: l' => if leb x y then x :: y :: l' else y :: sort_insert x l'
  end.

Definition sort_by (l : list A) : list A := foldr sort_insert [] l.

Lemma sort_insert_perm x l : sort_insert x l ≡ₚ x :: l.
Proof.
  induction l as [|y l IH]; simpl; [done|]. destruct (leb x y); [done|].
  rewrite IH. constructor.
Qed.

Lemma sort_by_perm l : sort_by l ≡ₚ l.
Proof. induction l as [|x l IH]; simpl; [done|]. by rewrite sort_insert_perm, IH. Qed.

Lemma sort_by_elem x l : x ∈ sort_by l <-> x ∈ l.
Proof. by rewrite sort_by_perm. Qed.

Lemma sort_by_length l : length (sort_by l) = length l.
Proof. by rewrite sort_by_perm. Qed.

Definition LebSorted (l : list A) : Prop := StronglySorted (fun x y => leb x y = true) l.

(** A list already in order is left as it is. *)
Lemma sort_by_id l : LebSorted l -> sort_by l = l.
Proof.
  unfold LebSorted. induction 1 as [|x l Hs IH Hall]; simpl; [done|]. rewrite IH.
  destruct l as [|y l]; simpl; [done|]. apply Forall_cons in Hall as [-> _]. done.
Qed.

Context (leb_total : forall x y, leb x y = true \/ leb y x = true).
Context (leb_trans : forall x y z, leb x y = true -> leb y z = true -> leb x z = true).

Lemma sort_insert_sorted x l : LebSorted l -> LebSorted (sort_insert x l).
Proof.
  unfold LebSorted. induction 1 as [|y l Hs IH Hall]; simpl; [repeat constructor|].
  destruct (leb x y) eqn:E.
  - constructor; [by constructor|]. constructor; [done|].
    eapply Forall_impl; [exact Hall|]. simpl. eauto.
  - constructor; [done|]. apply Forall_forall. intros z.
    rewrite sort_insert_perm. intros [->|Hz]%elem_of_cons.
    + by destruct (leb_total x y); congruence.
    + by eapply Forall_forall in Hall.
Qed.

Lemma sort_by_sorted l : LebSorted (sort_by l).
Proof. induction l; simpl; [constructor|]. by apply sort_insert_sorted. Qed.

(** Stability: elements equivalent to [k] keep their input order. *)
Definition same_key (k x : A) : bool := leb k x && leb x k.

Lemma sort_insert_stable k x l :
  filter (fun y => same_key k y = true) (sort_insert x l)
  = filter (fun y => same_key k y = true) (x :: l).
Proof.
  induction l as [|y l IH]; [done|].
  simpl sort_insert. destruct (leb x y) eqn:E; [done|].
  rewrite (filter_cons _ y), IH, !filter_cons.
  destruct (decide (same_key k x = true)) as [Hx|], (decide (same_key k y = true)) as [Hy|];
    try done.
  exfalso. unfold same_key in Hx, Hy.
  apply andb_true_iff in Hx as [? ?]. apply andb_true_iff in Hy as [? ?].
  assert (leb x y = true) by eauto. congruence.
Qed.

Lemma sort_by_stable k l :
  filter (fun y => same_key k y = true) (sort_by l) = filter (fun y => same_key k y = true) l.
Proof.
  induction l as [|x l IH]; [done|]. simpl sort_by. rewrite sort_insert_stable.
  rewrite !filter_cons. by rewrite IH.
Qed.

(** Two orderings of the same elements, with distinct keys, sort alike. *)
Lemma sort_by_unique l1 l2 :
  l1 ≡ₚ l2 ->
  (forall x y, x ∈ l1 -> y ∈ l1 -> leb x y = true -> leb y x = true -> x = y) ->
  sort_by l1 = sort_by l2.
Proof.
  intros Hp Hanti. eapply StronglySorted_unique_strong; [|apply sort_by_sorted..|].
  - intros x y Hx Hy. apply Hanti; [by apply sort_by_elem|].
    rewrite Hp. by apply sort_by_elem.
  - by rewrite !sort_by_perm.
Qed.
End StableSort.

(** Sorting two lists of related elements compares them alike. *)
Lemma sort_by_Forall2 {A B : Type} (R : A -> B -> Prop) (lebA : A -> A -> bool)
    (lebB : B -> B -> bool) (l : list A) (k : list B) :
  (forall x y x' y', R x x' -> R y y' -> lebA x y = lebB x' y') ->
  Forall2 R l k -> Forall2 R (sort_by lebA l) (sort_by lebB k).
Proof.
  intros Hleb. induction 1 as [|x x' l k Hx Hlk IH]; simpl; [constructor|].
  induction IH as [|y y' l' k' Hy Hl' IH']; simpl; [by repeat constructor|].
  rewrite (Hleb x y x' y') by done. destruct (lebB x' y'); by repeat constructor.
Qed.

(** ** Machine integers

    [usize] and [u64] values are natural numbers below [2^64]; the operations
    that could leave the range are written out where the source has them. *)
Definition u64_max : N := 18446744073709551615%N.

(** [u64::saturating_add]. *)
Definition saturating_add (a b : N) : N := N.min (a + b) u64_max.

(** [usize::saturating_mul]. *)
Definition saturating_mul (a b : N) : N := N.min (a * b) u64_max.

Lemma saturating_add_ge (a b : N) : (a <= u64_max)%N -> (a <= saturating_add a b)%N.
Proof. unfold saturating_add. lia. Qed.

Lemma saturating_add_le (a b : N) : (saturating_add a b <= u64_max)%N.
Proof. unfold saturating_add. lia. Qed.
