(* ===== verification/Floats.v ===== *)
(** * Rounding of binary64

    What the arithmetic bounds of the runtime need of [f64]: conversion of an
    integer below [2^53] is exact, and a product below [2^53], rounded to
    nearest even and truncated, stays between the floor of the exact product
    and every integer above it. *)

From Stdlib Require Import ZArith SpecFloat.
From stdpp Require Import base numbers.
Local Open Scope Z_scope.

(** ** Shifting with a round and a sticky bit *)

Lemma iter_pos_steps {A} (f : A -> A) (P : Z -> A -> Prop) :
  (forall d x, 0 <= d -> P d x -> P (d + 1) (f x)) ->
  forall p d x, 0 <= d -> P d x -> P (d + Zpos p) (SpecFloat.iter_pos f p x).
Proof.
  intros Hf p. induction p as [p IH|p IH|]; intros d x Hd Hx; simpl.
  - replace (d + Z.pos p~1) with (d + 1 + Z.pos p + Z.pos p) by lia.
    apply IH; [lia|]. apply IH; [lia|]. by apply Hf.
  - replace (d + Z.pos p~0) with (d + Z.pos p + Z.pos p) by lia.
    apply IH; [lia|]. by apply IH.
  - by apply Hf.
Qed.

(** The record holds the quotient of [M] by [2^d]; clear bits mean the
    division was exact. *)
Definition quotient (M d : Z) (r : shr_record) : Prop :=
  shr_m r = M / 2 ^ d /\ (shr_r r || shr_s r = false <-> M = shr_m r * 2 ^ d).

Lemma shr_1_spec (m : Z) (b s : bool) :
  0 <= m -> shr_1 (Build_shr_record m b s) = Build_shr_record (m / 2) (Z.odd m) (b || s).
Proof.
  intros Hm. destruct m as [|[p|p|]|p]; try lia; try done; simpl; f_equal.
  - apply (Z.div_unique _ _ _ 1); lia.
  - apply (Z.div_unique _ _ _ 0); lia.
Qed.

Lemma shr_1_quotient (M d : Z) (r : shr_record) :
  0 <= M -> 0 <= d -> quotient M d r -> quotient M (d + 1) (shr_1 r).
Proof.
  intros HM Hd [Hm He]. destruct r as [m b s]. simpl in Hm, He.
  assert (Hpos : 0 < 2 ^ d) by (apply Z.pow_pos_nonneg; lia).
  assert (0 <= m) by (subst m; apply Z.div_pos; lia).
  rewrite shr_1_spec by done. unfold quotient. simpl.
  rewrite Z.pow_add_r, Z.pow_1_r by lia. split; [subst m; by rewrite Z.div_div by lia|].
  pose proof (Z.mul_div_le M (2 ^ d) Hpos) as Hle. rewrite <- Hm in Hle.
  pose proof (Z.div2_odd m) as Hodd. rewrite Z.div2_div in Hodd.
  rewrite orb_false_iff, He. clear Hm He. generalize dependent (2 ^ d). intros w Hpos Hle.
  destruct (Z.odd m); simpl in Hodd; (split; [intros [? ?]|intros Hx]); try done.
  - exfalso. nia.
  - nia.
  - split; [done|]. nia.
Qed.

Lemma shr_quotient (M e n : Z) :
  0 <= M -> quotient M (Z.max 0 n) (shr (Build_shr_record M false false) e n).1
            /\ (shr (Build_shr_record M false false) e n).2 = e + Z.max 0 n.
Proof.
  intros HM. assert (H0 : quotient M 0 (Build_shr_record M false false)).
  { split; simpl; rewrite ?Z.pow_0_r, ?Z.div_1_r; [done|]. split; [lia|done]. }
  destruct n as [|p|p]; simpl; [by rewrite Z.add_0_r| |by rewrite Z.add_0_r].
  split; [|done].
  apply (iter_pos_steps shr_1 (quotient M)) with (d := 0) (p := p); [|lia|done].
  intros; by apply shr_1_quotient.
Qed.

(** Rounding to nearest even moves up by at most one, and not at all when the
    quotient is exact. *)
Lemma round_quotient (M d b : Z) (r : shr_record) :
  0 <= M -> 0 <= d -> quotient M d r -> M <= b * 2 ^ d ->
  M / 2 ^ d <= round_nearest_even (shr_m r) (loc_of_shr_record r) <= b.
Proof.
  intros HM Hd [Hm He] Hb. destruct r as [m x s]. simpl in *. rewrite <- Hm.
  assert (Hpos : 0 < 2 ^ d) by (apply Z.pow_pos_nonneg; lia).
  assert (Hmb : m <= b) by (subst m; apply Z.div_le_upper_bound; lia).
  pose proof (Z.mul_div_le M (2 ^ d) Hpos) as Hle. rewrite <- Hm in Hle.
  destruct (decide (m = b)) as [->|Hne].
  - destruct He as [_ He]. specialize (He ltac:(lia)).
    apply orb_false_iff in He as [-> ->]. simpl. lia.
  - destruct x, s; simpl; try destruct (Z.even m); lia.
Qed.

(** ** Digits *)

Lemma digits2_lower (p : positive) : 2 ^ (Zpos (digits2_pos p) - 1) <= Zpos p.
Proof.
  induction p as [p IH|p IH|]; simpl; [| |done];
    rewrite Pos2Z.inj_succ, Z.sub_1_r, Z.pred_succ;
    rewrite Z.sub_1_r in IH;
    rewrite <- (Z.succ_pred (Z.pos (digits2_pos p))), Z.pow_succ_r by lia; lia.
Qed.

Lemma Zdigits2_le (m b : Z) : 0 <= m < 2 ^ b -> 0 <= b -> Zdigits2 m <= b.
Proof.
  intros [Hm Hlt] Hb. destruct m as [|p|p]; [done| |lia]. simpl.
  pose proof (digits2_lower p).
  assert (2 ^ (Zpos (digits2_pos p) - 1) < 2 ^ b) as Hpow by lia.
  apply Z.pow_lt_mono_r_iff in Hpow; lia.
Qed.

Lemma fexp_53 (e : Z) : fexp 53 1024 e = Z.max (e - 53) (-1074).
Proof. done. Qed.

(** ** A rounded product *)

(** [f64 as u64]: toward zero, saturating, NaN to zero. *)
Definition u64_of_f64 (x : spec_float) : N :=
  match x with
  | S754_zero _ | S754_nan | S754_infinity true | S754_finite true _ _ => 0%N
  | S754_infinity false => 18446744073709551615%N
  | S754_finite false m e => N.min (Z.to_N (Z.shiftl (Zpos m) e)) 18446744073709551615
  end.

Lemma shiftl_floor (m k : Z) : 0 <= k -> Z.shiftl m (- k) = m / 2 ^ k.
Proof. intros Hk. by rewrite Z.shiftl_opp_r, Z.shiftr_div_pow2. Qed.

(** One [shr_fexp] below [2^53]: the exponent stays non-positive. *)
Lemma shr_fexp_small (m k n : Z) :
  0 <= m <= n * 2 ^ k -> 0 <= k -> n < 2 ^ 53 ->
  exists r d, shr_fexp 53 1024 m (- k) loc_Exact = (r, - (k - d)) /\ quotient m d r /\ 0 <= d <= k.
Proof.
  intros [Hm Hle] Hk Hn. unfold shr_fexp. simpl.
  destruct (shr_quotient m (- k) (fexp 53 1024 (Zdigits2 m + - k) - - k) Hm) as [Hq He].
  destruct (shr _ _ _) as [r e]. simpl in *.
  eexists r, _. split; [|split; [exact Hq|]]; [f_equal; rewrite He; lia|].
  assert (Hdig : Zdigits2 m <= 53 + k).
  { apply Zdigits2_le; [|lia]. split; [done|]. rewrite Z.pow_add_r by lia.
    assert (0 < 2 ^ k) by (apply Z.pow_pos_nonneg; lia). nia. }
  rewrite fexp_53. lia.
Qed.

Lemma u64_of_round (m k n : Z) :
  0 <= m <= n * 2 ^ k -> 0 <= k -> n < 2 ^ 53 ->
  m / 2 ^ k <= Z.of_N (u64_of_f64 (binary_round_aux 53 1024 false m (- k) loc_Exact)) <= n.
Proof.
  intros Hm Hk Hn. unfold binary_round_aux.
  destruct (shr_fexp_small m k n Hm Hk Hn) as (r1 & d1 & -> & Hq1 & Hd1).
  assert (Hsplit : 2 ^ k = 2 ^ (k - d1) * 2 ^ d1) by (rewrite <- Z.pow_add_r by lia; f_equal; lia).
  destruct (round_quotient m d1 (n * 2 ^ (k - d1)) r1) as [Hlo Hhi]; [lia..|done|nia|].
  set (m2 := round_nearest_even _ _) in *.
  assert (H0 : 0 <= m / 2 ^ d1) by (apply Z.div_pos; [lia|apply Z.pow_pos_nonneg; lia]).
  destruct (shr_fexp_small m2 (k - d1) n ltac:(lia) ltac:(lia) Hn)
    as (r2 & d2 & -> & (Hq2 & _) & Hd2).
  set (j := k - d1) in *.
  assert (Hj : 0 < 2 ^ j) by (apply Z.pow_pos_nonneg; lia).
  assert (Hval : Z.of_N (u64_of_f64 (match shr_m r2 with
     | 0 => S754_zero false
     | Z.pos p => if Z.leb (- (j - d2)) (1024 - 53)
                  then S754_finite false p (- (j - d2)) else S754_infinity false
     | Z.neg _ => S754_nan end)) = m2 / 2 ^ j).
  { assert (Hm3 : shr_m r2 / 2 ^ (j - d2) = m2 / 2 ^ j).
    { assert (0 < 2 ^ d2) by (apply Z.pow_pos_nonneg; lia).
      assert (0 < 2 ^ (j - d2)) by (apply Z.pow_pos_nonneg; lia).
      rewrite Hq2, Z.div_div by lia.
      f_equal. rewrite <- Z.pow_add_r by lia. f_equal. lia. }
    assert (Hb : 0 <= m2 / 2 ^ j <= n).
    { split; [apply Z.div_pos; lia|apply Z.div_le_upper_bound; lia]. }
    rewrite <- Hm3 in *. destruct (shr_m r2) as [|p|p] eqn:E.
    - simpl. by rewrite Z.div_0_l by (apply Z.pow_nonzero; lia).
    - destruct (Z.leb_spec (- (j - d2)) (1024 - 53)); [|lia]. simpl.
      rewrite shiftl_floor by lia. lia.
    - exfalso. assert (0 <= m2 / 2 ^ d2) by (apply Z.div_pos; [lia|apply Z.pow_pos_nonneg; lia]).
      lia. }
  rewrite Hval. split; [|apply Z.div_le_upper_bound; lia].
  transitivity (m / 2 ^ d1 / 2 ^ j); [|by apply Z.div_le_mono].
  assert (0 < 2 ^ d1) by (apply Z.pow_pos_nonneg; lia).
  rewrite Z.div_div by lia. by rewrite Hsplit, Z.mul_comm.
Qed.

(** ** Exact conversion *)

Lemma digits2_upper (p : positive) : Zpos p < 2 ^ Zpos (digits2_pos p).
Proof.
  induction p as [p IH|p IH|]; simpl; [| |done];
    rewrite Pos2Z.inj_succ, Z.pow_succ_r by lia; lia.
Qed.

Lemma iter_xO (n d : positive) : Zpos (Pos.iter xO n d) = Zpos n * 2 ^ Zpos d.
Proof.
  induction d as [|d IH] using Pos.peano_ind; [simpl; lia|].
  rewrite Pos.iter_succ, Pos2Z.inj_succ, Z.pow_succ_r by lia.
  change (Z.pos (xO (Pos.iter xO n d))) with (2 * Zpos (Pos.iter xO n d)). lia.
Qed.

(** No shift where the mantissa already fits. *)
Lemma shr_fexp_fits (m e : Z) :
  fexp 53 1024 (Zdigits2 m + e) <= e ->
  shr_fexp 53 1024 m e loc_Exact = (Build_shr_record m false false, e).
Proof. intros He. unfold shr_fexp, shr. case_match; simpl; try done. lia. Qed.

Lemma f64_of_small (n : positive) :
  Zpos n < 2 ^ 53 ->
  exists m k, binary_normalize 53 1024 (Zpos n) 0 false = S754_finite false m (- k)
              /\ 0 <= k /\ Zpos m = Zpos n * 2 ^ k.
Proof.
  intros Hn. pose proof (Zdigits2_le (Zpos n) 53 ltac:(lia) ltac:(lia)) as Hd. simpl in Hd.
  pose proof (digits2_upper n) as Hu.
  assert (Halign : exists m k, shl_align n 0 (fexp 53 1024 (Zpos (digits2_pos n) + 0)) = (m, - k)
            /\ 0 <= k <= 52 /\ Zpos m = Zpos n * 2 ^ k /\ Zpos m < 2 ^ 53).
  { unfold shl_align. rewrite fexp_53, Z.sub_0_r.
    destruct (Z.max _ _) as [|d|d] eqn:E; [| lia|].
    - exists n, 0. split_and!; try done; lia.
    - exists (Pos.iter xO n d), (Zpos d). rewrite iter_xO. split_and!; try done; try lia.
      replace 53 with (Z.pos (digits2_pos n) + Zpos d) by lia.
      rewrite Z.pow_add_r by lia. apply Z.mul_lt_mono_pos_r; lia. }
  destruct Halign as (m & k & Ha & Hk & Hm & Hb).
  exists m, k. split; [|lia]. simpl. unfold binary_round. rewrite Ha.
  pose proof (Zdigits2_le (Zpos m) 53 ltac:(lia) ltac:(lia)) as Hdm.
  unfold binary_round_aux. rewrite shr_fexp_fits by (rewrite fexp_53; lia). simpl.
  rewrite shr_fexp_fits by (rewrite fexp_53; simpl in Hdm |- *; lia).
  simpl. destruct (Z.leb_spec (- k) (1024 - 53)); [done|lia].
Qed.

(** ** Products with a fraction *)

(** [f64::clamp(0.0, 1.0)]. *)
Definition f64_one : spec_float := S754_finite false 4503599627370496 (-52).
Definition f64_clamp01 (x : spec_float) : spec_float :=
  let x := if SFltb x (S754_zero false) then S754_zero false else x in
  if SFltb f64_one x then f64_one else x.

(** The exact product of a clamped fraction and an integer, rounded down. *)
Definition fraction_floor (x : spec_float) (n : Z) : Z :=
  match x with
  | S754_zero _ | S754_nan | S754_infinity true | S754_finite true _ _ => 0
  | S754_infinity false => n
  | S754_finite false m e => Z.min n (Z.shiftl (Zpos m * n) e)
  end.

Lemma scaled_bounds (m e n : Z) (p : positive) (k : Z) :
  0 < m -> e <= 0 -> m <= 2 ^ (- e) -> 0 < n < 2 ^ 53 -> 0 <= k -> Zpos p = n * 2 ^ k ->
  let d := Z.of_N (u64_of_f64 (binary_round_aux 53 1024 false (m * Zpos p) (e + - k) loc_Exact)) in
  Z.shiftl (m * n) e <= d <= n /\ d <= Z.shiftl (m * n) e + 1.
Proof.
  intros Hm He Hle Hn Hk Hp. simpl. replace (e + - k) with (- (- e + k)) by lia.
  assert (Hke : 0 < 2 ^ k) by (apply Z.pow_pos_nonneg; lia).
  assert (Hee : 0 < 2 ^ (- e)) by (apply Z.pow_pos_nonneg; lia).
  assert (Hs : Z.shiftl (m * n) e = m * n / 2 ^ (- e)).
  { replace e with (- - e) at 1 by lia. by apply shiftl_floor; lia. }
  rewrite Hs.
  assert (Hdiv : m * Z.pos p / 2 ^ (- e + k) = m * n / 2 ^ (- e)).
  { rewrite Z.pow_add_r, Hp, Z.mul_assoc by lia. by apply Z.div_mul_cancel_r; lia. }
  destruct (u64_of_round (m * Zpos p) (- e + k) n) as [H1 H2]; [|lia..|].
  { rewrite Z.pow_add_r, Hp by lia. nia. }
  destruct (decide (m * n / 2 ^ (- e) = n)) as [Heq|Hne]; [lia|].
  assert (Hlt : m * n / 2 ^ (- e) < n) by lia.
  destruct (u64_of_round (m * Zpos p) (- e + k) (m * n / 2 ^ (- e) + 1)) as [_ H3]; [|lia..].
  pose proof (Z.mul_succ_div_gt (m * n) (2 ^ (- e)) Hee).
  rewrite Z.pow_add_r, Hp by lia. nia.
Qed.

(** What a valid positive number is, against one. *)
Lemma valid_mantissa (m : positive) (e : Z) :
  bounded 53 1024 m e = true ->
  Zpos m < 2 ^ 53 /\ -1074 <= e /\ (e = -1074 \/ 2 ^ 52 <= Zpos m).
Proof.
  intros Hb. unfold bounded, canonical_mantissa in Hb. apply andb_true_iff in Hb as [Hc _].
  apply Z.eqb_eq in Hc. rewrite fexp_53 in Hc.
  pose proof (digits2_upper m). pose proof (digits2_lower m). split_and!.
  - eapply Z.lt_le_trans; [done|]. apply Z.pow_le_mono_r; lia.
  - lia.
  - destruct (decide (e = -1074)); [by left|right].
    replace (Zpos (digits2_pos m) - 1) with 52 in * by lia. done.
Qed.

Lemma one_lt_spec (m : positive) (e : Z) :
  bounded 53 1024 m e = true ->
  if SFltb f64_one (S754_finite false m e)
  then forall n, 0 <= n -> n <= Z.shiftl (Zpos m * n) e
  else e <= 0 /\ Zpos m <= 2 ^ (- e).
Proof.
  intros (Hu & Hlo & Hn)%valid_mantissa. unfold SFltb, SFcompare, f64_one.
  change (Pos.compare_cont Eq) with Pos.compare.
  destruct (Z.compare_spec (-52) e) as [He|He|He].
  - subst e. destruct (Pos.compare_spec 4503599627370496 m) as [Hm|Hm|Hm].
    + split; [done|]. by subst m.
    + intros n Hpos. change (-52) with (- (52)). rewrite shiftl_floor by lia.
      apply Z.div_le_lower_bound; [done|]. change (2 ^ 52) with (Zpos 4503599627370496).
      apply Z.mul_le_mono_nonneg_r; [done|]. by apply Pos2Z.pos_le_pos, Pos.lt_le_incl.
    + split; [done|]. change (2 ^ (- (-52))) with (Zpos 4503599627370496).
      by apply Pos2Z.pos_le_pos, Pos.lt_le_incl.
  - intros n Hpos. destruct Hn as [?|Hn]; [lia|]. destruct (decide (0 <= e)).
    + rewrite Z.shiftl_mul_pow2 by done. assert (0 < 2 ^ e) by (apply Z.pow_pos_nonneg; lia).
      generalize dependent (2 ^ e). intros w Hw. clear Hn.
      assert (1 <= Zpos m * w) by nia. nia.
    + replace e with (- - e) by lia. rewrite shiftl_floor by lia.
      assert (2 ^ (- e) <= 2 ^ 52) by (apply Z.pow_le_mono_r; lia).
      assert (0 < 2 ^ (- e)) by (apply Z.pow_pos_nonneg; lia).
      apply Z.div_le_lower_bound; [done|]. apply Z.mul_le_mono_nonneg_r; lia.
  - split; [lia|]. transitivity (2 ^ 53); [lia|]. apply Z.pow_le_mono_r; lia.
Qed.

Lemma SFmul_positive (m q : positive) (e k : Z) :
  SFmul 53 1024 (S754_finite false m e) (S754_finite false q k)
  = binary_round_aux 53 1024 false (Zpos m * Zpos q) (e + k) loc_Exact.
Proof. done. Qed.

(** The clamped product, truncated: at least the exact product rounded down,
    at most one more, and never past the integer. *)
Lemma clamped_product (x : spec_float) (n : N) :
  valid_binary 53 1024 x = true -> (n < 2 ^ 53)%N ->
  let d := Z.of_N (u64_of_f64 (SFmul 53 1024 (f64_clamp01 x)
                                 (binary_normalize 53 1024 (Z.of_N n) 0 false))) in
  fraction_floor x (Z.of_N n) <= d <= Z.of_N n /\ d <= fraction_floor x (Z.of_N n) + 1.
Proof.
  intros Hx Hn. destruct n as [|p].
  { destruct x as [s|[]| |[] m e]; simpl; try done. unfold f64_clamp01. simpl.
    destruct (SFltb f64_one _); simpl; rewrite Z.mul_0_r, Z.shiftl_0_l; done. }
  change (Z.of_N (N.pos p)) with (Zpos p).
  destruct (f64_of_small p ltac:(lia)) as (q & k & -> & Hk & Hq).
  pose proof (scaled_bounds 4503599627370496 (-52) (Zpos p) q k ltac:(lia) ltac:(lia)
                ltac:(done) ltac:(lia) Hk Hq) as Hone. cbv zeta in Hone.
  assert (Hfull : Z.shiftl (4503599627370496 * Z.pos p) (-52) = Zpos p).
  { change (-52) with (- (52)). rewrite shiftl_floor by lia.
    rewrite Z.mul_comm. by apply Z.div_mul. }
  rewrite Hfull in Hone.
  destruct x as [s|[]| |[] m e]; simpl in Hx; try (simpl; lia).
  - change (f64_clamp01 (S754_infinity false)) with f64_one.
    unfold f64_one. rewrite SFmul_positive. unfold fraction_floor. lia.
  - pose proof (one_lt_spec m e Hx) as Hlt. unfold f64_clamp01.
    change (SFltb (S754_finite false m e) (S754_zero false)) with false. cbv iota zeta.
    destruct (SFltb f64_one (S754_finite false m e)).
    + specialize (Hlt (Zpos p) ltac:(lia)). unfold fraction_floor.
      rewrite Z.min_l by done. unfold f64_one. rewrite SFmul_positive. lia.
    + destruct Hlt as [He Hm].
      pose proof (scaled_bounds (Zpos m) e (Zpos p) q k ltac:(lia) He Hm ltac:(lia) Hk Hq) as Hb.
      cbv zeta in Hb. unfold fraction_floor. rewrite SFmul_positive. lia.
Qed.
