(* ===== verification/Json.v ===== *)
(** * JSON values

    [serde_json::Value] as the runtime uses it: the six constructors, an
    object being a [BTreeMap<String, Value>] (the crate is built without
    [preserve_order]), the accessors [get], [as_str], [is_array], and value
    equality. Numbers keep serde_json's three representations; a float is
    finite by construction, and [PartialEq] identifies the two zeros. *)

From Stdlib Require Import String.
From S2P Require Import Prelude Containers.

(** A finite [f64]: a signed zero or [(-1)^sign * mantissa * 2^exponent]. *)
Inductive Float64 : Type :=
| FZero (sign : bool)
| FFinite (sign : bool) (mantissa : positive) (exponent : Z).

Inductive Number : Type :=
| PosInt (n : N)
| NegInt (z : Z)
| Float (f : Float64).

Unset Elimination Schemes.
Inductive Value : Type :=
| Null
| Bool (b : bool)
| Num (n : Number)
| Str (s : string)
| Array (items : list Value)
| Object (map : list (string * Value)).
Set Elimination Schemes.

(** Induction with the hypothesis on array items and object members. *)
Lemma Value_ind (P : Value -> Prop) :
  P Null -> (forall b, P (Bool b)) -> (forall n, P (Num n)) -> (forall s, P (Str s)) ->
  (forall l, Forall P l -> P (Array l)) ->
  (forall m, Forall (fun kv => P kv.2) m -> P (Object m)) ->
  forall v, P v.
Proof.
  intros H1 H2 H3 H4 Harr Hobj. fix IH 1. intros [|b|n|s|l|m];
    [exact H1|apply H2|apply H3|apply H4|apply Harr|apply Hobj].
  - revert l. fix IHl 1. intros [|x l]; constructor; [apply IH|apply IHl].
  - revert m. fix IHm 1. intros [|[k x] m]; constructor; [apply IH|apply IHm].
Qed.

#[export] Instance Float64_eq_dec : EqDecision Float64.
Proof. solve_decision. Defined.

#[export] Instance Number_eq_dec : EqDecision Number.
Proof. solve_decision. Defined.

#[export] Instance Value_eq_dec : EqDecision Value.
Proof.
  refine (fix go (v w : Value) {struct v} : Decision (v = w) :=
    match v, w with
    | Null, Null => left _
    | Bool a, Bool b => cast_if (decide (a = b))
    | Num a, Num b => cast_if (decide (a = b))
    | Str a, Str b => cast_if (decide (a = b))
    | Array a, Array b => cast_if (@list_eq_dec _ (fun x y => go x y) a b)
    | Object a, Object b =>
        cast_if (@list_eq_dec _ (fun x y =>
          match x, y with
          | (k1, v1), (k2, v2) => cast_if_and (decide (k1 = k2)) (go v1 v2)
          end) a b)
    | _, _ => right _
    end); clear go; abstract congruence.
Defined.

(** ** Equality

    [norm] forgets the sign of a zero; [PartialEq for Value] compares the
    rest structurally. *)
Fixpoint norm (v : Value) : Value :=
  match v with
  | Num (Float (FZero _)) => Num (Float (FZero false))
  | Array l => Array (map norm l)
  | Object m => Object (map (fun kv => (kv.1, norm kv.2)) m)
  | _ => v
  end.

#[export] Instance Value_equiv : Equiv Value := fun a b => norm a = norm b.

#[export] Instance Value_equivalence : Equivalence (≡@{Value}).
Proof. split; unfold equiv, Value_equiv; congruence. Qed.

(** [impl PartialEq for Value]. *)
Definition value_eqb (a b : Value) : bool := bool_decide (norm a = norm b).

Lemma value_eqb_spec (a b : Value) : value_eqb a b = true <-> a ≡ b.
Proof. unfold value_eqb. by rewrite bool_decide_eq_true. Qed.

Lemma value_eqb_refl (a : Value) : value_eqb a a = true.
Proof. by apply value_eqb_spec. Qed.

(** ** Accessors *)

(** [Value::get] with a string index. *)
Definition vget (k : string) (v : Value) : option Value :=
  match v with Object m => BTree.get k m | _ => None end.

(** [Value::as_str]. *)
Definition as_str (v : Value) : option string :=
  match v with Str s => Some s | _ => None end.

(** [Value::is_array]. *)
Definition is_array (v : Value) : bool :=
  match v with Array _ => true | _ => false end.

(** Well-formed values: every object is a sorted map. *)
Fixpoint wf_value (v : Value) : bool :=
  match v with
  | Array l => forallb wf_value l
  | Object m => BTree.sorted m && forallb (fun kv => wf_value kv.2) m
  | _ => true
  end.

Lemma wf_Object (m : list (string * Value)) :
  wf_value (Object m) = true <->
  BTree.Sorted m /\ (forall k v, BTree.get k m = Some v -> wf_value v = true).
Proof.
  simpl. rewrite andb_true_iff, BTree.sorted_Sorted, forallb_forall.
  split; intros [Hs Hf]; split; [done| |done|].
  - intros k v H%BTree.get_Some_In. apply (Hf (k, v)). by apply list_elem_of_In.
  - intros [k v] Hin. apply (Hf k). apply BTree.get_In_NoDup; [by apply BTree.Sorted_NoDup|].
    by apply list_elem_of_In.
Qed.

(** ** Building JSON: the [json!] macro and derived serializers *)

(** An object literal. *)
Definition jobj (fields : list (string * Value)) : Value := Object (BTree.from_list fields).

Definition jnat (n : nat) : Value := Num (PosInt (N.of_nat n)).

Definition jN (n : N) : Value := Num (PosInt n).

Definition jZ (z : Z) : Value := Num (if (0 <=? z)%Z then PosInt (Z.to_N z) else NegInt z).

Definition jstrs (l : list string) : Value := Array (map Str l).

(** A field under [skip_serializing_if = "Option::is_none"]. *)
Definition jopt (k : string) (o : option Value) : list (string * Value) :=
  match o with Some v => [(k, v)] | None => [] end.

(** A nullable field ([Option] serialized as its value or [null]). *)
Definition jnull (o : option Value) : Value :=
  match o with Some v => v | None => Null end.
