(* ===== verification/Error.v ===== *)
(** * Errors

    [RustyError] of [rusty-core/src/error.rs]: one constructor per variant,
    with the message the source formats. The variants that wrap another
    crate's or module's error carry its rendered text. *)

From Stdlib Require Import String Ascii.
From S2P Require Import Prelude Containers Json.
Local Open Scope string_scope.

(** [LlmErrorClass]. *)
Inductive LlmErrorClass : Type :=
| RateLimited | LlmTimeout | Server | Auth | InvalidRequest | Decode | LlmUnknown.

(** [Display for LlmErrorClass]. *)
Definition llm_class_text (c : LlmErrorClass) : string :=
  match c with
  | RateLimited => "rate_limited" | LlmTimeout => "timeout" | Server => "server"
  | Auth => "auth" | InvalidRequest => "invalid_request" | Decode => "decode"
  | LlmUnknown => "unknown"
  end.

(** [RustyError]. *)
Inductive RustyError : Type :=
| EGraph (msg : string)
| ENode (msg : string)
| EBudget (msg : string)
| ETransport (sent : bool) (detail : string)
| EInterrupt (value : Value)
| ECheckpoint (msg : string)
| ELlm (msg : string)
| ELlmFailure (class : LlmErrorClass) (msg : string)
| ETool (msg : string)
| EPlugin (msg : string)
| EDoctor (msg : string)
| ECatalog (msg : string)
| EReplay (msg : string)
| ESerialization (msg : string)
| EInvalidUpdate (msg : string)
| EFrozenTier (tier expected actual : string)
| ECancelled (msg : string)
| EGap (msg : string)
| EInvariant (msg : string)
| EChunkAssembly (expected actual : string).

(** The crate's [Result<T>]. *)
Abbreviation res := (result RustyError).

(** [RustyError::is_interrupt]. *)
Definition is_interrupt (e : RustyError) : bool :=
  match e with EInterrupt _ => true | _ => false end.

(** [RustyError::interrupt_value]. *)
Definition interrupt_value (e : RustyError) : option Value :=
  match e with EInterrupt v => Some v | _ => None end.

(** [RustyError::llm_class]. *)
Definition llm_class (e : RustyError) : LlmErrorClass :=
  match e with ELlmFailure c _ => c | _ => LlmUnknown end.

(** [Debug for str]: quoted, with the quote, the backslash and the common
    control characters escaped. *)
Definition quote : string := String "034"%char EmptyString.
Definition backslash : string := String "092"%char EmptyString.

Fixpoint debug_chars (s : string) : string :=
  match s with
  | EmptyString => EmptyString
  | String c s' =>
      let tail := debug_chars s' in
      if Ascii.eqb c "034"%char then backslash ++ quote ++ tail
      else if Ascii.eqb c "092"%char then backslash ++ backslash ++ tail
      else if Ascii.eqb c "010"%char then backslash ++ "n" ++ tail
      else if Ascii.eqb c "013"%char then backslash ++ "r" ++ tail
      else if Ascii.eqb c "009"%char then backslash ++ "t" ++ tail
      else String c tail
  end.

Definition debug_str (s : string) : string := quote ++ debug_chars s ++ quote.

(** [Debug for Option<String>]. *)
Definition debug_opt (o : option string) : string :=
  match o with None => "None" | Some s => "Some(" ++ debug_str s ++ ")" end.

(** [Display for RustyError], as derived from its [#[error]] attributes. *)
Definition error_text (e : RustyError) : string :=
  match e with
  | EGraph m => "graph error: " ++ m
  | ENode m => "node error: " ++ m
  | EBudget m => "budget exhausted: " ++ m
  | ETransport _ d => "transport: " ++ d
  | EInterrupt _ => "graph interrupted"
  | ECheckpoint m => "checkpoint error: " ++ m
  | ELlm m => "llm error: " ++ m
  | ELlmFailure c m => "llm error (" ++ llm_class_text c ++ "): " ++ m
  | ETool m => "tool error: " ++ m
  | EPlugin m => "plugin error: " ++ m
  | EDoctor m => "doctor error: " ++ m
  | ECatalog m => "catalog error: " ++ m
  | EReplay m => "replay error: " ++ m
  | ESerialization m => "serialization error: " ++ m
  | EInvalidUpdate m => "invalid state update: " ++ m
  | EFrozenTier t x a => "frozen tier violation in '" ++ t ++ "': expected " ++ x ++ ", got " ++ a
  | ECancelled m => "run cancelled: " ++ m
  | EGap m => "gap error: " ++ m
  | EInvariant m => "invariant violation: " ++ m
  | EChunkAssembly x a =>
      "chunk assembly mismatch: expected " ++ debug_str x ++ ", got " ++ debug_str a
  end.
