(* ===== verification/State.v ===== *)
(** * Shared state, channels and reducers ([rusty-core/src/state.rs])

    A state maps channel names to JSON values; each channel has a reducer
    that merges the partial updates the nodes of a super-step publish.
    [apply_super_step] validates all the writes of a step, then merges them
    in node-name order.

    The copy-on-write twin [apply_shared] mutates a value in place when no
    other handle shares it. Whether [Arc::get_mut] succeeds depends on the
    live snapshots, so the model takes that outcome as an argument. *)

From Stdlib Require Import String.
From S2P Require Import Prelude Containers Json Error.
Local Open Scope string_scope.

(** ** State *)

(** [State]: channel name to value, in key order. *)
Record State : Type := mkState { inner : list (string * Value) }.

#[export] Instance State_eq_dec : EqDecision State.
Proof. solve_decision. Defined.

(** [State::new]. *)
Definition state_new : State := mkState [].

(** [State::from_map]. *)
Definition from_map (m : list (string * Value)) : State := mkState (BTree.from_list m).

(** Short type names for error messages. *)
Definition json_type_name (v : Value) : string :=
  match v with
  | Null => "null" | Bool _ => "bool" | Num _ => "number" | Str _ => "string"
  | Array _ => "array" | Object _ => "object"
  end.

(** [State::from_value]. *)
Definition from_value (v : Value) : res State :=
  match v with
  | Object m => Ok (from_map m)
  | other =>
      Err (EInvalidUpdate ("state must be a JSON object, got " ++ json_type_name other))
  end.

(** [State::to_value]. *)
Definition to_value (s : State) : Value := Object (BTree.from_list (inner s)).

(** [State::get], [State::contains], [State::len]. *)
Definition state_get (s : State) (channel : string) : option Value :=
  BTree.get channel (inner s).
Definition state_contains (s : State) (channel : string) : bool :=
  BTree.contains_key channel (inner s).
Definition state_len (s : State) : nat := length (inner s).

(** [State::insert] and [State::insert_shared]. *)
Definition state_insert (s : State) (channel : string) (v : Value) : State :=
  mkState (BTree.insert channel v (inner s)).

(** [State::from_shared_channels]. *)
Definition from_shared_channels (l : list (string * Value)) : State :=
  mkState (BTree.from_list l).

(** [State::channels_changed_since]: pointer equality only short-circuits
    the comparison of a value with itself, so value equality decides. *)
Definition channel_changed (base : State) (kv : string * Value) : bool :=
  match BTree.get kv.1 (inner base) with
  | Some base_value => negb (value_eqb kv.2 base_value)
  | None => true
  end.

Definition channels_changed_since (s base : State) : list (string * Value) :=
  filter (fun kv => channel_changed base kv = true) (inner s).

(** ** Reducers *)

Inductive Reducer : Type := Overwrite | Append | DeepMerge | AddMessages.

#[export] Instance Reducer_eq_dec : EqDecision Reducer.
Proof. solve_decision. Defined.

(** [Reducer::allows_multiple_writes]. *)
Definition allows_multiple_writes (r : Reducer) : bool :=
  match r with Overwrite => false | _ => true end.

(** [Display for Reducer]. *)
Definition reducer_text (r : Reducer) : string :=
  match r with
  | Overwrite => "overwrite" | Append => "append"
  | DeepMerge => "deep_merge" | AddMessages => "add_messages"
  end.

(** [deep_merge_in_place], returning the mutated left value. *)
Fixpoint deep_merge_in_place (a b : Value) {struct b} : Value :=
  match a, b with
  | Object x, Object y =>
      Object
        ((fix go (x : list (string * Value)) (y : list (string * Value)) {struct y} :=
            match y with
            | [] => x
            | (k, v) :: y' =>
                match BTree.get k x with
                | Some cur => go (BTree.insert k (deep_merge_in_place cur v) x) y'
                | None => go (BTree.insert k v x) y'
                end
            end) x y)
  | _, _ => b
  end.

(** [deep_merge]. *)
Definition deep_merge (a b : Value) : Value := deep_merge_in_place a b.

(** [append_in_place]. *)
Definition append_in_place (existing : list Value) (update : Value) : list Value :=
  match update with
  | Array items => existing ++ items
  | single => existing ++ [single]
  end.

(** The ["id"] of a message, when it is a string. *)
Definition message_id (m : Value) : option string := vget "id" m ≫= as_str.

(** The index pass of [upsert_messages_in_place]: the first position of each
    id ([entry(id).or_insert(i)]). *)
Fixpoint index_messages (i : nat) (messages : list Value) (index_of : gmap string nat)
  : gmap string nat :=
  match messages with
  | [] => index_of
  | m :: rest =>
      match message_id m with
      | Some id =>
          index_messages (S i) rest
            (match index_of !! id with Some _ => index_of | None => <[id := i]> index_of end)
      | None => index_messages (S i) rest index_of
      end
  end.

(** The upsert loop of [upsert_messages_in_place]. *)
Fixpoint upsert_loop (incoming messages : list Value) (index_of : gmap string nat)
  : list Value :=
  match incoming with
  | [] => messages
  | msg :: rest =>
      let msg_id := message_id msg in
      match msg_id ≫= (fun id => index_of !! id) with
      | Some i => upsert_loop rest (<[i := msg]> messages) index_of
      | None =>
          let index_of' :=
            match msg_id with
            | Some id => <[id := length messages]> index_of
            | None => index_of
            end in
          upsert_loop rest (messages ++ [msg]) index_of'
      end
  end.

(** [upsert_messages_in_place]. *)
Definition upsert_messages_in_place (messages : list Value) (update : Value) : list Value :=
  let incoming := match update with Array items => items | single => [single] end in
  upsert_loop incoming messages (index_messages 0 messages ∅).

(** [add_messages]. *)
Definition add_messages (current : option Value) (update : Value) : Value :=
  let messages := match current with Some (Array existing) => existing | _ => [] end in
  Array (upsert_messages_in_place messages update).

(** [Reducer::apply]. *)
Definition reducer_apply (r : Reducer) (current : option Value) (update : Value) : Value :=
  match r with
  | Overwrite => update
  | Append =>
      match current with
      | Some (Array existing) => Array (append_in_place existing update)
      | _ => match update with Array items => Array items | single => Array [single] end
      end
  | DeepMerge =>
      match current with Some cur => deep_merge cur update | None => update end
  | AddMessages => add_messages current update
  end.

(** [Reducer::apply_shared]. [unique] is the outcome of [Arc::get_mut]: when
    it holds the value is merged in place, otherwise into a copy. *)
Definition apply_shared (unique : bool) (r : Reducer) (current : option Value) (update : Value)
  : Value :=
  match r with
  | Overwrite => update
  | Append =>
      match current with
      | Some shared =>
          if is_array shared then
            match unique, shared with
            | true, Array existing => Array (append_in_place existing update)
            | _, Array existing =>
                let out := existing in Array (append_in_place out update)
            | _, other => other (* unreachable: guarded by [is_array] *)
            end
          else match update with Array items => Array items | single => Array [single] end
      | None => match update with Array items => Array items | single => Array [single] end
      end
  | DeepMerge =>
      match current with
      | Some shared =>
          if unique then deep_merge_in_place shared update else deep_merge shared update
      | None => update
      end
  | AddMessages =>
      match current with
      | Some shared =>
          if is_array shared then
            match unique, shared with
            | true, Array messages => Array (upsert_messages_in_place messages update)
            | _, Array existing =>
                let messages := existing in Array (upsert_messages_in_place messages update)
            | _, other => other (* unreachable: guarded by [is_array] *)
            end
          else add_messages None update
      | None => add_messages None update
      end
  end.

(** ** The state schema *)

(** [StateSpec]. *)
Record StateSpec : Type := mkSpec { channels : gmap string Reducer }.

(** [StateSpec::new], [StateSpec::channel], [StateSpec::add_channel]. *)
Definition spec_new : StateSpec := mkSpec ∅.
Definition channel (spec : StateSpec) (name : string) (r : Reducer) : StateSpec :=
  mkSpec (<[name := r]> (channels spec)).
Definition add_channel (spec : StateSpec) (name : string) (r : Reducer) : StateSpec :=
  mkSpec (<[name := r]> (channels spec)).

(** [StateSpec::try_reducer_for], [StateSpec::reducer_for],
    [StateSpec::has_channel]. *)
Definition try_reducer_for (spec : StateSpec) (name : string) : option Reducer :=
  channels spec !! name.
Definition reducer_for (spec : StateSpec) (name : string) : Reducer :=
  default Overwrite (channels spec !! name).
Definition has_channel (spec : StateSpec) (name : string) : bool :=
  match channels spec !! name with Some _ => true | None => false end.

(** One node's partial update: channel and value, in the iteration order of
    its [HashMap]. *)
Abbreviation Updates := (list (string * Value)).

(** The writes of a super-step: node name and updates. *)
Abbreviation Writes := (list (string * Updates)).

(** The running tables of the validation pass. *)
Record WriteTables : Type := mkTables {
  write_counts : gmap string nat;
  first_writer : gmap string string;
}.

Definition no_writes : WriteTables := mkTables ∅ ∅.

Definition requires_array (r : Reducer) : bool :=
  match r with Append | AddMessages => true | _ => false end.

(** One iteration of the validation loop: one channel of one node. *)
Definition check_channel (spec : StateSpec) (state : State) (node channel : string)
    (t : WriteTables) : res WriteTables :=
  match try_reducer_for spec channel with
  | None =>
      Err (EInvalidUpdate ("node `" ++ node ++ "` wrote to undeclared channel `" ++ channel
             ++ "`; declare it in the StateSpec"))
  | Some reducer =>
      _ ← (if requires_array reducer then
             match state_get state channel with
             | Some current =>
                 if is_array current then Ok tt
                 else Err (EInvalidUpdate ("node `" ++ node ++ "` wrote to channel `" ++ channel
                        ++ "` (reducer: " ++ reducer_text reducer
                        ++ "), but the current value is a " ++ json_type_name current
                        ++ "; the reducer requires an array"))
             | None => Ok tt
             end
           else Ok tt);
      let count := S (default 0 (write_counts t !! channel)) in
      let counts := <[channel := count]> (write_counts t) in
      let first :=
        match first_writer t !! channel with
        | Some _ => first_writer t
        | None => <[channel := node]> (first_writer t)
        end in
      if (1 <? count)%nat && negb (allows_multiple_writes reducer) then
        Err (EInvalidUpdate ("channel `" ++ channel
               ++ "` can receive only one value per super-step (reducer: "
               ++ reducer_text reducer ++ "); already written by node `"
               ++ default EmptyString (first !! channel) ++ "`, second write from node `"
               ++ node ++ "`. Use a multi-write reducer (Append/DeepMerge/AddMessages)"
               ++ " to handle concurrent writes."))
      else Ok (mkTables counts first)
  end.

(** The validation loop over one node's channels, then over all nodes. *)
Fixpoint check_node (spec : StateSpec) (state : State) (node : string) (updates : Updates)
    (t : WriteTables) : res WriteTables :=
  match updates with
  | [] => Ok t
  | (channel, _) :: rest =>
      t' ← check_channel spec state node channel t;
      check_node spec state node rest t'
  end.

Fixpoint check_writes (spec : StateSpec) (state : State) (collected : Writes)
    (t : WriteTables) : res WriteTables :=
  match collected with
  | [] => Ok t
  | (node, updates) :: rest =>
      t' ← check_node spec state node updates t;
      check_writes spec state rest t'
  end.

(** Whether the value of a channel is shared when it is taken out of the map
    ([Arc::get_mut] in [apply_shared]). *)
Abbreviation Sharing := (State -> string -> bool).

(** One merge: take the channel out of the map, reduce, put it back. *)
Definition merge_channel (uniq : Sharing) (spec : StateSpec) (state : State)
    (channel : string) (update : Value) : State :=
  let reducer := reducer_for spec channel in
  let current := BTree.get channel (inner state) in
  let taken := mkState (BTree.remove channel (inner state)) in
  let merged := apply_shared (uniq state channel) reducer current update in
  state_insert taken channel merged.

Definition merge_updates (uniq : Sharing) (spec : StateSpec) (state : State)
    (updates : Updates) : State :=
  fold_left (fun s cu => merge_channel uniq spec s cu.1 cu.2) updates state.

Definition merge_writes (uniq : Sharing) (spec : StateSpec) (state : State)
    (collected : Writes) : State :=
  fold_left (fun s nu => merge_updates uniq spec s nu.2) collected state.

(** The canonical merge order: sorted by node name, stably. *)
Definition node_leb (a b : string * Updates) : bool := str_leb a.1 b.1.
Definition collect_writes (writes : Writes) : Writes := sort_by node_leb writes.

(** [StateSpec::apply_super_step]: the state it leaves behind and its
    result. *)
Definition apply_super_step (uniq : Sharing) (spec : StateSpec) (state : State)
    (writes : Writes) : State * res unit :=
  let collected := collect_writes writes in
  match check_writes spec state collected no_writes with
  | Err e => (state, Err e)
  | Ok _ => (merge_writes uniq spec state collected, Ok tt)
  end.

(** [StateSpec::apply_single]. *)
Definition apply_single (uniq : Sharing) (spec : StateSpec) (state : State)
    (node : string) (updates : Updates) : State * res unit :=
  apply_super_step uniq spec state [(node, updates)].
