(* ===== verification/StateFacts.v ===== *)
(** * Correctness of the state layer

    The index-accelerated message upsert against a reference scan, the
    copy-on-write reducers against the cloning ones, exactly when a
    super-step's writes are accepted, what each channel holds afterwards,
    and that neither task timing nor hash-map iteration order shows. *)

From Stdlib Require Import String.
From S2P Require Import Prelude Containers Json Error State.

(** ** Message upsert *)

(** Reference: the first position holding a message with this id. *)
Fixpoint first_index (id : string) (messages : list Value) : option nat :=
  match messages with
  | [] => None
  | m :: rest =>
      if bool_decide (message_id m = Some id) then Some 0 else S <$> first_index id rest
  end.

(** Reference upsert: scan the whole array for each incoming message. *)
Definition upsert_one (messages : list Value) (msg : Value) : list Value :=
  match message_id msg ≫= (fun id => first_index id messages) with
  | Some i => <[i := msg]> messages
  | None => messages ++ [msg]
  end.

(** The id index agrees with the scan. *)
Definition indexed (idx : gmap string nat) (messages : list Value) : Prop :=
  forall id, idx !! id = first_index id messages.

Lemma index_messages_spec i messages idx id :
  index_messages i messages idx !! id
  = match idx !! id with
    | Some j => Some j
    | None => (fun j => i + j) <$> first_index id messages
    end.
Proof.
  revert i idx. induction messages as [|m rest IH]; intros i idx; simpl.
  { by destruct (idx !! id). }
  destruct (message_id m) as [mid|] eqn:Em.
  - rewrite IH. destruct (idx !! mid) as [j|] eqn:Ej.
    + destruct (idx !! id) eqn:E; [done|].
      rewrite bool_decide_eq_false_2 by congruence.
      destruct (first_index id rest); simpl; f_equal; lia.
    + rewrite lookup_insert. destruct (decide (mid = id)) as [->|Hne].
      * rewrite Ej, bool_decide_eq_true_2 by done. simpl. f_equal. lia.
      * destruct (idx !! id); [done|]. rewrite bool_decide_eq_false_2 by congruence.
        destruct (first_index id rest); simpl; f_equal; lia.
  - rewrite IH. destruct (idx !! id); [done|].
    rewrite bool_decide_eq_false_2 by congruence.
    destruct (first_index id rest); simpl; f_equal; lia.
Qed.

Lemma index_messages_indexed messages : indexed (index_messages 0 messages ∅) messages.
Proof.
  intros id. rewrite index_messages_spec, lookup_empty.
  by destruct (first_index id messages).
Qed.

Lemma first_index_Some id messages i :
  first_index id messages = Some i ->
  exists m, messages !! i = Some m /\ message_id m = Some id.
Proof.
  revert i. induction messages as [|m rest IH]; intros i; simpl; [done|].
  case_bool_decide as Hd.
  - intros [= <-]. eauto.
  - destruct (first_index id rest) as [j|]; [|done]. intros [= <-]. by apply IH.
Qed.

Lemma first_index_None id messages :
  first_index id messages = None <-> id ∉ omap message_id messages.
Proof.
  induction messages as [|m rest IH]; simpl; [split; [intros _ H; inv H|done]|].
  case_bool_decide as Hd.
  - rewrite Hd, not_elem_of_cons. naive_solver.
  - destruct (message_id m) as [mid|] eqn:Em.
    + rewrite not_elem_of_cons, <- IH. destruct (first_index id rest); naive_solver.
    + rewrite <- IH. destruct (first_index id rest); naive_solver.
Qed.

Lemma first_index_replace id messages i old msg :
  messages !! i = Some old -> message_id old = message_id msg ->
  first_index id (<[i := msg]> messages) = first_index id messages.
Proof.
  revert i. induction messages as [|m rest IH]; intros [|i]; simpl; try done.
  - intros Heq Hid. simplify_eq. by rewrite Hid.
  - intros H1 H2. by rewrite IH.
Qed.

Lemma first_index_snoc id messages msg :
  first_index id (messages ++ [msg])
  = match first_index id messages with
    | Some j => Some j
    | None => if bool_decide (message_id msg = Some id) then Some (length messages) else None
    end.
Proof.
  induction messages as [|m rest IH]; simpl; [by case_bool_decide|].
  destruct (bool_decide (message_id m = Some id)); [done|]. rewrite IH.
  destruct (first_index id rest); [done|].
  by destruct (bool_decide (message_id msg = Some id)).
Qed.

Lemma upsert_loop_ref incoming messages idx :
  indexed idx messages -> upsert_loop incoming messages idx = fold_left upsert_one incoming messages.
Proof.
  revert messages idx. induction incoming as [|msg rest IH]; intros messages idx Hidx; [done|].
  simpl. unfold upsert_one at 2. destruct (message_id msg) as [id|] eqn:Em; simpl.
  - rewrite Hidx. destruct (first_index id messages) as [i|] eqn:Ei.
    + apply IH. intros id'. rewrite Hidx. symmetry.
      apply first_index_Some in Ei as (old & Hold & Hid).
      eapply first_index_replace; [done|congruence].
    + apply IH. intros id'. rewrite first_index_snoc, lookup_insert, Em.
      destruct (decide (id = id')) as [<-|Hne].
      * by rewrite Ei, bool_decide_eq_true_2.
      * rewrite Hidx. rewrite bool_decide_eq_false_2 by congruence.
        by destruct (first_index id' messages).
  - apply IH. intros id'. rewrite first_index_snoc, Em, Hidx.
    rewrite bool_decide_eq_false_2 by congruence. by destruct (first_index id' messages).
Qed.

(** The messages of an update: an array's items, or the single value. *)
Definition incoming_of (update : Value) : list Value :=
  match update with Array items => items | single => [single] end.

Lemma upsert_messages_ref messages update :
  upsert_messages_in_place messages update = fold_left upsert_one (incoming_of update) messages.
Proof. unfold upsert_messages_in_place. apply upsert_loop_ref, index_messages_indexed. Qed.

Lemma omap_insert_same (f : Value -> option string) (messages : list Value) i old msg :
  messages !! i = Some old -> f old = f msg ->
  omap f (<[i := msg]> messages) = omap f messages.
Proof.
  revert i. induction messages as [|m rest IH]; intros [|i]; csimpl; try done.
  - intros Heq Hid. simplify_eq. by rewrite Hid.
  - intros H1 H2. by rewrite (IH i H1 H2).
Qed.

(** One upsert keeps the ids of the array and adds at most the new one. *)
Lemma upsert_one_ids (messages : list Value) msg :
  omap message_id (upsert_one messages msg)
  = match message_id msg with
    | Some id => if bool_decide (id ∈ omap message_id messages)
                 then omap message_id messages else omap message_id messages ++ [id]
    | None => omap message_id messages
    end.
Proof.
  unfold upsert_one. destruct (message_id msg) as [id|] eqn:Em; simpl.
  - destruct (first_index id messages) as [i|] eqn:Ei.
    + apply first_index_Some in Ei as Hi. destruct Hi as (old & Hold & Hid).
      rewrite bool_decide_eq_true_2.
      * eapply omap_insert_same; [done|congruence].
      * destruct (decide (id ∈ omap message_id messages)) as [|Hn]; [done|].
        apply first_index_None in Hn. congruence.
    + rewrite bool_decide_eq_false_2 by (by apply first_index_None).
      by rewrite omap_app; simpl; rewrite Em.
  - by rewrite omap_app; simpl; rewrite Em, app_nil_r.
Qed.

Lemma upsert_one_NoDup (messages : list Value) msg :
  NoDup (omap message_id messages) -> NoDup (omap message_id (upsert_one messages msg)).
Proof.
  intros H. rewrite upsert_one_ids. destruct (message_id msg) as [id|]; [|done].
  case_bool_decide as Hin; [done|]. apply NoDup_app.
  split; [done|]. split; [|apply NoDup_singleton].
  intros x Hx ->%list_elem_of_singleton. done.
Qed.

Lemma upsert_fold_NoDup incoming (messages : list Value) :
  NoDup (omap message_id messages) ->
  NoDup (omap message_id (fold_left upsert_one incoming messages)).
Proof. revert messages. induction incoming; simpl; auto using upsert_one_NoDup. Qed.

(** ** Deep merge *)

(** The object-merging loop of [deep_merge_in_place] as a definition. *)
Fixpoint merge_entries (x y : list (string * Value)) : list (string * Value) :=
  match y with
  | [] => x
  | (k, v) :: y' =>
      match BTree.get k x with
      | Some cur => merge_entries (BTree.insert k (deep_merge_in_place cur v) x) y'
      | None => merge_entries (BTree.insert k v x) y'
      end
  end.

Lemma deep_merge_objects x y :
  deep_merge_in_place (Object x) (Object y) = Object (merge_entries x y).
Proof. reflexivity. Qed.

(** What the merged member holds, given the two sides' members. *)
Definition merge_member (a b : option Value) : option Value :=
  match a, b with
  | Some cur, Some v => Some (deep_merge_in_place cur v)
  | None, Some v => Some v
  | o, None => o
  end.

Lemma get_merge_entries k x y :
  NoDup y.*1 ->
  BTree.get k (merge_entries x y) = merge_member (BTree.get k x) (BTree.get k y).
Proof.
  revert x. induction y as [|[k' v'] y IH]; intros x Hnd; simpl.
  { by destruct (BTree.get k x). }
  apply NoDup_cons in Hnd as [Hni Hnd]. simpl in Hni.
  apply BTree.get_None_notin in Hni.
  destruct (BTree.get k' x) as [cur|] eqn:Ek; rewrite IH, BTree.get_insert by done;
    destruct (String.eqb_spec k k') as [->|]; try done; by rewrite Hni, Ek.
Qed.

Lemma merge_entries_Sorted x y : BTree.Sorted x -> BTree.Sorted (merge_entries x y).
Proof.
  revert x. induction y as [|[k v] y IH]; intros x H; simpl; [done|].
  destruct (BTree.get k x); auto with rusty.
Qed.

Lemma deep_merge_wf a b :
  wf_value a = true -> wf_value b = true -> wf_value (deep_merge_in_place a b) = true.
Proof.
  revert a. induction b as [| | | | |y IH] using Value_ind; intros a Ha Hb;
    try (by destruct a).
  destruct a as [| | | | |x]; try exact Hb.
  rewrite deep_merge_objects. apply wf_Object in Ha as [Hsx Hvx].
  apply wf_Object in Hb as [Hsy Hvy]. apply wf_Object.
  split; [by apply merge_entries_Sorted|]. intros k v.
  rewrite get_merge_entries by (by apply BTree.Sorted_NoDup).
  destruct (BTree.get k x) as [cur|] eqn:Ex, (BTree.get k y) as [u|] eqn:Ey; simpl;
    intros [= <-]; eauto.
  apply BTree.get_Some_In in Ey as Hin. eapply Forall_forall in IH; [|exact Hin].
  apply IH; eauto.
Qed.

Lemma deep_merge_idem a : wf_value a = true -> deep_merge_in_place a a = a.
Proof.
  induction a as [| | | | |m IH] using Value_ind; intros Ha; try done.
  rewrite deep_merge_objects. f_equal. apply wf_Object in Ha as [Hs Hv].
  apply BTree.ext; [by apply merge_entries_Sorted|done|]. intros k.
  rewrite get_merge_entries by (by apply BTree.Sorted_NoDup).
  destruct (BTree.get k m) as [v|] eqn:E; [|done]. simpl. f_equal.
  apply BTree.get_Some_In in E as Hin. eapply Forall_forall in IH; [|exact Hin].
  apply IH. eauto.
Qed.

(** ** Copy-on-write *)

Lemma apply_shared_apply unique r current update :
  apply_shared unique r current update = reducer_apply r current update.
Proof. destruct r, current as [[]|], unique, update; reflexivity. Qed.

(** ** Merging a super-step *)

(** A well-formed state: its channel map is a sorted map. *)
Definition wf_state (s : State) : Prop := BTree.Sorted (inner s).

(** The values the collected writes carry for one channel, in merge order. *)
Definition node_updates (ch : string) (updates : Updates) : list Value :=
  (filter (fun cu => cu.1 = ch) updates).*2.
Definition channel_updates (ch : string) (collected : Writes) : list Value :=
  collected ≫= (fun nu => node_updates ch nu.2).

(** Folding a list of updates into a channel. *)
Definition reduce_all (r : Reducer) (current : option Value) (us : list Value) : option Value :=
  fold_left (fun cur u => Some (reducer_apply r cur u)) us current.

Lemma merge_channel_get uniq spec s ch u ch' :
  state_get (merge_channel uniq spec s ch u) ch'
  = if String.eqb ch' ch then Some (reducer_apply (reducer_for spec ch) (state_get s ch) u)
    else state_get s ch'.
Proof.
  unfold merge_channel, state_get, state_insert. simpl.
  rewrite apply_shared_apply, BTree.get_insert, BTree.get_remove.
  by destruct (String.eqb ch' ch).
Qed.

Lemma merge_updates_get uniq spec s updates ch :
  state_get (merge_updates uniq spec s updates) ch
  = reduce_all (reducer_for spec ch) (state_get s ch) (node_updates ch updates).
Proof.
  unfold merge_updates. revert s. induction updates as [|[c u] us IH]; intros s; [done|].
  simpl. rewrite IH, merge_channel_get. unfold node_updates. rewrite filter_cons. simpl.
  destruct (String.eqb_spec ch c) as [->|Hne].
  - by rewrite decide_True.
  - by rewrite decide_False by congruence.
Qed.

Lemma reduce_all_app r cur us vs :
  reduce_all r cur (us ++ vs) = reduce_all r (reduce_all r cur us) vs.
Proof. unfold reduce_all. by rewrite fold_left_app. Qed.

Lemma merge_writes_get uniq spec s collected ch :
  state_get (merge_writes uniq spec s collected) ch
  = reduce_all (reducer_for spec ch) (state_get s ch) (channel_updates ch collected).
Proof.
  unfold merge_writes. revert s. induction collected as [|[n us] ws IH]; intros s; [done|].
  simpl. rewrite IH, merge_updates_get. unfold channel_updates. simpl.
  by rewrite reduce_all_app.
Qed.

Lemma merge_channel_wf uniq spec s ch u :
  wf_state s -> wf_state (merge_channel uniq spec s ch u).
Proof. unfold wf_state, merge_channel, state_insert. simpl. auto with rusty. Qed.

Lemma merge_writes_wf uniq spec s collected :
  wf_state s -> wf_state (merge_writes uniq spec s collected).
Proof.
  unfold merge_writes. revert s. induction collected as [|[n us] ws IH]; intros s H; [done|].
  simpl. apply IH. clear IH. unfold merge_updates. revert s H.
  induction us as [|[c u] us IH]; intros s H; [done|]. simpl. apply IH.
  by apply merge_channel_wf.
Qed.

(** ** Validating a super-step *)

(** All written channels, one entry per write. *)
Definition written (collected : Writes) : list string :=
  collected ≫= (fun nu => nu.2.*1).

Definition occurrences (ch : string) (l : list string) : nat :=
  length (filter (fun c => c = ch) l).

(** What the three rules ask of one written channel. *)
Definition channel_ok (spec : StateSpec) (s : State) (ch : string) : Prop :=
  exists r, channels spec !! ch = Some r /\
    (requires_array r = true -> forall v, state_get s ch = Some v -> is_array v = true).

(** The writes of a step respect the schema. *)
Definition step_valid (spec : StateSpec) (s : State) (ws : Writes) : Prop :=
  (forall ch, ch ∈ written ws -> channel_ok spec s ch) /\
  (forall ch, channels spec !! ch = Some Overwrite -> occurrences ch (written ws) <= 1).

(** Validity of a list of channels, on top of the writes already counted. *)
Definition list_valid (spec : StateSpec) (s : State) (counts : gmap string nat)
    (chs : list string) : Prop :=
  (forall ch, ch ∈ chs -> channel_ok spec s ch) /\
  (forall ch, ch ∈ chs -> channels spec !! ch = Some Overwrite ->
     default 0 (counts !! ch) + occurrences ch chs <= 1).

Lemma check_channel_Ok spec s node ch t t' :
  check_channel spec s node ch t = Ok t' <->
  channel_ok spec s ch /\
  (channels spec !! ch = Some Overwrite -> default 0 (write_counts t !! ch) = 0) /\
  t' = mkTables (<[ch := S (default 0 (write_counts t !! ch))]> (write_counts t))
         (match first_writer t !! ch with
          | Some _ => first_writer t | None => <[ch := node]> (first_writer t) end).
Proof.
  unfold check_channel, try_reducer_for, channel_ok.
  destruct (channels spec !! ch) as [r|]; [|naive_solver].
  assert (Hcount : (1 <? S (default 0 (write_counts t !! ch))) = false
                   <-> default 0 (write_counts t !! ch) = 0)
    by (rewrite Nat.ltb_ge; lia).
  destruct (requires_array r) eqn:Er; simpl.
  - destruct (state_get s ch) as [v|]; simpl; [destruct (is_array v) eqn:Ea; simpl|];
      try (split; [by intros|]; intros ((r' & [= <-] & Hr) & _);
           specialize (Hr Er _ eq_refl); congruence);
      destruct (1 <? _); destruct r; simpl; naive_solver.
  - destruct r; try discriminate Er; simpl; rewrite ?andb_true_r, ?andb_false_r;
      destruct (1 <? _); simpl; naive_solver.
Qed.

Lemma occurrences_cons ch c l :
  occurrences ch (c :: l) = (if decide (c = ch) then 1 else 0) + occurrences ch l.
Proof. unfold occurrences. rewrite filter_cons. by destruct (decide (c = ch)). Qed.

Lemma occurrences_notin ch l : ch ∉ l -> occurrences ch l = 0.
Proof.
  induction l as [|c l IH]; [done|]. rewrite not_elem_of_cons, occurrences_cons.
  intros [Hne Hn]. by rewrite decide_False, IH.
Qed.

Lemma list_valid_cons spec s counts c l :
  list_valid spec s counts (c :: l) <->
  channel_ok spec s c /\
  (channels spec !! c = Some Overwrite -> default 0 (counts !! c) = 0) /\
  list_valid spec s (<[c := S (default 0 (counts !! c))]> counts) l.
Proof.
  unfold list_valid. split.
  - intros [H1 H2]. split; [apply H1; left|]. split.
    + intros Ho. specialize (H2 c ltac:(left) Ho). rewrite occurrences_cons in H2.
      rewrite decide_True in H2 by done. lia.
    + split; [intros ch Hch; apply H1; by right|]. intros ch Hch Ho.
      specialize (H2 ch ltac:(by right) Ho). rewrite occurrences_cons in H2.
      rewrite lookup_insert. destruct (decide (c = ch)) as [->|]; simpl in *; lia.
  - intros (H0 & Hc & H1 & H2). split.
    + intros ch [->|Hch]%elem_of_cons; auto.
    + intros ch Hin Ho. rewrite occurrences_cons.
      destruct (decide (ch ∈ l)) as [Hl|Hl].
      * specialize (H2 ch Hl Ho). rewrite lookup_insert in H2.
        destruct (decide (c = ch)) as [->|]; simpl in *; lia.
      * rewrite (occurrences_notin ch l) by done. apply elem_of_cons in Hin as [->|]; [|done].
        rewrite decide_True by done. rewrite Hc by done. lia.
Qed.

(** The validation loops seen as one pass over the written channels. *)
Lemma check_node_Ok spec s node updates rest t :
  (exists t', check_node spec s node updates t = Ok t' /\
     list_valid spec s (write_counts t') rest)
  <-> list_valid spec s (write_counts t) (updates.*1 ++ rest).
Proof.
  revert t. induction updates as [|[c u] us IH]; intros t; simpl; [naive_solver|].
  rewrite list_valid_cons. split.
  - intros (t' & Hb & Hv). apply bind_Ok in Hb as (t1 & Hc & Hn).
    apply check_channel_Ok in Hc as (H1 & H2 & ->).
    split; [done|]. split; [done|].
    exact (proj1 (IH _) (ex_intro _ t' (conj Hn Hv))).
  - intros (H1 & H2 & Hv).
    destruct (check_channel spec s node c t) as [t1|e] eqn:Hc; simpl.
    + apply check_channel_Ok in Hc as (_ & _ & ->). by apply IH.
    + exfalso. enough (exists t1, check_channel spec s node c t = Ok t1) as [t1 Ht1]
        by congruence.
      eexists. apply check_channel_Ok. eauto.
Qed.

Lemma check_writes_Ok spec s ws t :
  (exists t', check_writes spec s ws t = Ok t')
  <-> list_valid spec s (write_counts t) (written ws).
Proof.
  revert t. induction ws as [|[n us] ws IH]; intros t.
  - simpl. split; [intros _|eauto]. split; intros ch Hch; inv Hch.
  - unfold written. simpl. rewrite <- (check_node_Ok _ _ n). split.
    + intros [t' Hb]. apply bind_Ok in Hb as (t1 & H1 & H2).
      exists t1. split; [done|]. apply IH. eauto.
    + intros (t1 & H1 & H2). rewrite H1. simpl. by apply IH.
Qed.

Lemma list_valid_empty spec s ws :
  list_valid spec s (write_counts no_writes) (written ws) <-> step_valid spec s ws.
Proof.
  unfold list_valid, step_valid. simpl. split; intros [H1 H2]; (split; [done|]).
  - intros ch Ho. destruct (decide (ch ∈ written ws)) as [Hin|Hn].
    + specialize (H2 ch Hin Ho). by rewrite lookup_empty in H2.
    + rewrite occurrences_notin by done. lia.
  - intros ch _ Ho. rewrite lookup_empty. simpl. auto.
Qed.

Lemma written_perm ws1 ws2 : ws1 ≡ₚ ws2 -> written ws1 ≡ₚ written ws2.
Proof. intros H. unfold written. by rewrite H. Qed.

Lemma step_valid_written spec s ws1 ws2 :
  written ws1 ≡ₚ written ws2 -> step_valid spec s ws1 -> step_valid spec s ws2.
Proof.
  unfold step_valid, occurrences. intros Hp [H1 H2]. split.
  - intros ch Hch. apply H1. by rewrite Hp.
  - intros ch Ho. specialize (H2 ch Ho). by rewrite <- Hp.
Qed.

Lemma apply_super_step_valid uniq spec s ws :
  is_ok (apply_super_step uniq spec s ws).2 = true <-> step_valid spec s ws.
Proof.
  unfold apply_super_step.
  assert (Hp : written (collect_writes ws) ≡ₚ written ws)
    by (apply written_perm, sort_by_perm).
  transitivity (step_valid spec s (collect_writes ws)).
  - rewrite <- list_valid_empty, <- check_writes_Ok.
    destruct (check_writes spec s (collect_writes ws) no_writes) eqn:E; simpl; naive_solver.
  - split; apply step_valid_written; [done|by symmetry].
Qed.

(** ** Determinism *)

(** The same writes, with the tasks finishing in another order and each
    node's hash map iterated in another order. *)
Definition same_writes (ws1 ws2 : Writes) : Prop :=
  exists mid, ws1 ≡ₚ mid /\ Forall2 (fun a b => a.1 = b.1 /\ a.2 ≡ₚ b.2) mid ws2.

(** Each node's updates come from a map: no channel twice. *)
Definition map_updates (ws : Writes) : Prop := Forall (fun nu => NoDup nu.2.*1) ws.

Lemma node_updates_get ch updates :
  NoDup updates.*1 -> node_updates ch updates = option_list (BTree.get ch updates).
Proof.
  unfold node_updates. induction updates as [|[c u] us IH]; intros Hnd; [done|].
  apply NoDup_cons in Hnd as [Hni Hnd]. specialize (IH Hnd).
  rewrite filter_cons. csimpl. destruct (String.eqb_spec ch c) as [->|Hne].
  - rewrite decide_True by done. csimpl. rewrite IH.
    simpl in Hni. apply BTree.get_None_notin in Hni. by rewrite Hni.
  - by rewrite decide_False by congruence.
Qed.

Lemma channel_updates_same ch ws1 ws2 :
  map_updates ws1 -> Forall2 (fun a b => a.1 = b.1 /\ a.2 ≡ₚ b.2) ws1 ws2 ->
  channel_updates ch ws1 = channel_updates ch ws2.
Proof.
  unfold channel_updates. induction 2 as [|[n u] [n' u'] ws1 ws2 [_ Hp] _ IH]; [done|].
  match goal with H : map_updates (_ :: _) |- _ => apply Forall_cons in H as [Hnd Hm] end.
  simpl in *. f_equal; [|by apply IH].
  rewrite !node_updates_get; [|by rewrite <- Hp|done].
  f_equal. by apply BTree.get_Permutation.
Qed.

Lemma written_same ws1 ws2 : same_writes ws1 ws2 -> written ws1 ≡ₚ written ws2.
Proof.
  intros (mid & Hp & Hf). rewrite (written_perm _ _ Hp). clear Hp. unfold written.
  induction Hf as [|[n u] [n' u'] l k [_ Hp] _ IH]; [done|].
  simpl in *. by rewrite IH, Hp.
Qed.

Lemma node_leb_total x y : node_leb x y = true \/ node_leb y x = true.
Proof. apply str_leb_total. Qed.

Lemma node_leb_trans x y z :
  node_leb x y = true -> node_leb y z = true -> node_leb x z = true.
Proof. apply str_leb_trans. Qed.

Lemma NoDup_key_inj {B} (l : list (string * B)) x y :
  NoDup l.*1 -> x ∈ l -> y ∈ l -> x.1 = y.1 -> x = y.
Proof.
  intros Hnd Hx Hy E. destruct x as [k u], y as [k' v]. simpl in *. subst k'.
  apply (BTree.get_In_NoDup _ _ _ Hnd) in Hx. apply (BTree.get_In_NoDup _ _ _ Hnd) in Hy.
  congruence.
Qed.

Lemma collect_writes_same ws1 ws2 :
  NoDup ws1.*1 -> same_writes ws1 ws2 ->
  Forall2 (fun a b => a.1 = b.1 /\ a.2 ≡ₚ b.2) (collect_writes ws1) (collect_writes ws2).
Proof.
  intros Hnd (mid & Hp & Hf). unfold collect_writes.
  rewrite (sort_by_unique node_leb node_leb_total node_leb_trans ws1 mid Hp).
  - eapply sort_by_Forall2; [|exact Hf]. intros x y x' y' [E1 _] [E2 _].
    unfold node_leb. congruence.
  - intros x y Hx Hy L1 L2. eapply NoDup_key_inj; [exact Hnd|done..|].
    by apply str_leb_antisym.
Qed.

Lemma collect_map_updates ws : map_updates ws -> map_updates (collect_writes ws).
Proof. unfold map_updates, collect_writes. by rewrite sort_by_perm. Qed.

Lemma apply_super_step_same uniq1 uniq2 spec s ws1 ws2 :
  wf_state s -> NoDup ws1.*1 -> map_updates ws1 -> same_writes ws1 ws2 ->
  (apply_super_step uniq1 spec s ws1).1 = (apply_super_step uniq2 spec s ws2).1 /\
  is_ok (apply_super_step uniq1 spec s ws1).2 = is_ok (apply_super_step uniq2 spec s ws2).2.
Proof.
  intros Hwf Hnd Hmu Hsame.
  assert (Hok : is_ok (apply_super_step uniq1 spec s ws1).2
                = is_ok (apply_super_step uniq2 spec s ws2).2).
  { apply eq_true_iff_eq. rewrite !apply_super_step_valid.
    split; apply step_valid_written; [|symmetry]; by apply written_same. }
  split; [|done]. unfold apply_super_step in *.
  destruct (check_writes spec s (collect_writes ws1) no_writes);
    destruct (check_writes spec s (collect_writes ws2) no_writes); try discriminate Hok; [|done].
  simpl. destruct (merge_writes uniq1 spec s (collect_writes ws1)) as [m1] eqn:E1.
  destruct (merge_writes uniq2 spec s (collect_writes ws2)) as [m2] eqn:E2.
  f_equal. apply BTree.ext.
  - change (wf_state (mkState m1)). rewrite <- E1. by apply merge_writes_wf.
  - change (wf_state (mkState m2)). rewrite <- E2. by apply merge_writes_wf.
  - intros ch. change (state_get (mkState m1) ch = state_get (mkState m2) ch).
    rewrite <- E1, <- E2, !merge_writes_get. f_equal.
    apply channel_updates_same; [by apply collect_map_updates|by apply collect_writes_same].
Qed.

(** ** The channel typing invariant *)

(** Channels with an array reducer hold arrays. *)
Definition typed (spec : StateSpec) (s : State) : Prop :=
  forall ch r v, channels spec !! ch = Some r -> requires_array r = true ->
    state_get s ch = Some v -> is_array v = true.

Lemma reducer_apply_array r cur u :
  requires_array r = true -> is_array (reducer_apply r cur u) = true.
Proof. by destruct r, cur as [[]|], u. Qed.

Lemma reduce_all_array r cur us v :
  requires_array r = true -> (forall w, cur = Some w -> is_array w = true) ->
  reduce_all r cur us = Some v -> is_array v = true.
Proof.
  intros Hr. unfold reduce_all. revert cur. induction us as [|u us IH]; intros cur Hc; simpl; [auto|].
  apply IH. intros w [= <-]. by apply reducer_apply_array.
Qed.

Lemma merge_writes_typed uniq spec s collected :
  typed spec s -> typed spec (merge_writes uniq spec s collected).
Proof.
  intros Ht ch r v Hr Ha. rewrite merge_writes_get. unfold reducer_for. rewrite Hr. simpl.
  apply reduce_all_array; [done|]. intros w Hw. by eapply Ht.
Qed.

(** An [Append] channel that holds an array accumulates every item. *)
Lemma reduce_all_append l us :
  reduce_all Append (Some (Array l)) us = Some (Array (l ++ (us ≫= incoming_of))).
Proof.
  revert l. induction us as [|u us IH]; intros l; simpl; [by rewrite app_nil_r|].
  unfold reduce_all in *. simpl.
  assert (append_in_place l u = l ++ incoming_of u) as -> by by destruct u.
  rewrite IH. by rewrite app_assoc.
Qed.

(** Every refusal of the validation pass is an [InvalidUpdate]. *)
Lemma check_channel_error spec s node ch t e :
  check_channel spec s node ch t = Err e -> exists m, e = EInvalidUpdate m.
Proof.
  unfold check_channel. destruct (try_reducer_for spec ch) as [r|]; [|naive_solver].
  intros [H|(x & _ & H)]%bind_Err.
  - destruct (requires_array r); [|done]. destruct (state_get s ch) as [v|]; [|done].
    destruct (is_array v); naive_solver.
  - revert H. destruct (_ && _); naive_solver.
Qed.

Lemma check_node_error spec s node us t e :
  check_node spec s node us t = Err e -> exists m, e = EInvalidUpdate m.
Proof.
  revert t. induction us as [|[c u] us IH]; intros t; simpl; [done|].
  intros [H|(t' & _ & H)]%bind_Err; [by eapply check_channel_error|by eapply IH].
Qed.

Lemma check_writes_error spec s ws t e :
  check_writes spec s ws t = Err e -> exists m, e = EInvalidUpdate m.
Proof.
  revert t. induction ws as [|[n us] ws IH]; intros t; simpl; [done|].
  intros [H|(t' & _ & H)]%bind_Err; [by eapply check_node_error|by eapply IH].
Qed.

(** ** Theorems *)

(** A super-step's writes are merged exactly when they respect the
    schema (every channel declared, at most one write to an [Overwrite]
    channel, arrays under array reducers); otherwise the state is left as it
    was and the error is [InvalidUpdate]. *)
Theorem super_step_all_or_nothing uniq spec s ws :
  (step_valid spec s ws /\ exists s', apply_super_step uniq spec s ws = (s', Ok tt)) \/
  (~ step_valid spec s ws /\
   exists m, apply_super_step uniq spec s ws = (s, Err (EInvalidUpdate m))).
Proof.
  pose proof (apply_super_step_valid uniq spec s ws) as Hv.
  unfold apply_super_step in *.
  destruct (check_writes spec s (collect_writes ws) no_writes) as [t|e] eqn:E; simpl in *.
  - left. split; [by apply Hv|eauto].
  - right. apply check_writes_error in E as [m ->]. split; [|eauto].
    intros H%Hv. discriminate.
Qed.

(** After an accepted super-step every channel holds the fold of its
    reducer over the updates written to it, in node-name order; a channel
    nobody wrote keeps its value. *)
Theorem super_step_channel_values uniq spec s ws s' :
  apply_super_step uniq spec s ws = (s', Ok tt) ->
  forall ch,
    state_get s' ch
    = reduce_all (reducer_for spec ch) (state_get s ch)
        (channel_updates ch (collect_writes ws)).
Proof.
  unfold apply_super_step.
  destruct (check_writes spec s (collect_writes ws) no_writes); [|discriminate].
  intros [= <-] ch. apply merge_writes_get.
Qed.

Definition demo_spec : StateSpec :=
  channel (channel spec_new "log" Append) "out" Overwrite.
Definition demo_state : State := from_map [("log", Array [Str "start"])].
Definition demo_writes : Writes :=
  [("writer_b", [("log", Array [Str "b1"; Str "b2"])]);
   ("writer_a", [("out", Bool true); ("log", Str "a")])].
Definition never_shared : Sharing := fun _ _ => true.
Definition always_shared : Sharing := fun _ _ => false.

Lemma super_step_channel_values_witness :
  state_get (apply_super_step always_shared demo_spec demo_state demo_writes).1 "log"
  = Some (Array [Str "start"; Str "a"; Str "b1"; Str "b2"]).
Proof.
  rewrite (super_step_channel_values always_shared demo_spec demo_state demo_writes
             (apply_super_step always_shared demo_spec demo_state demo_writes).1);
    vm_compute; reflexivity.
Defined.

(** The merged state and the verdict of a super-step depend neither on
    the order in which tasks finished, nor on the iteration order of the
    nodes' update maps, nor on which channel values were shared. *)
Theorem super_step_deterministic uniq1 uniq2 spec s ws1 ws2 :
  wf_state s -> NoDup ws1.*1 -> map_updates ws1 -> same_writes ws1 ws2 ->
  (apply_super_step uniq1 spec s ws1).1 = (apply_super_step uniq2 spec s ws2).1 /\
  is_ok (apply_super_step uniq1 spec s ws1).2 = is_ok (apply_super_step uniq2 spec s ws2).2.
Proof. apply apply_super_step_same. Qed.

Definition demo_writes_reordered : Writes :=
  [("writer_a", [("log", Str "a"); ("out", Bool true)]);
   ("writer_b", [("log", Array [Str "b1"; Str "b2"])])].

Lemma super_step_deterministic_witness :
  (apply_super_step never_shared demo_spec demo_state demo_writes).1
  = (apply_super_step always_shared demo_spec demo_state demo_writes_reordered).1 /\
  is_ok (apply_super_step never_shared demo_spec demo_state demo_writes).2 = true.
Proof.
  split; [|vm_compute; reflexivity].
  apply super_step_deterministic.
  - apply BTree.sorted_Sorted. vm_compute. reflexivity.
  - apply (bool_decide_unpack _). vm_compute. exact I.
  - repeat constructor; apply (bool_decide_unpack _); vm_compute; exact I.
  - exists (reverse demo_writes). split; [symmetry; apply reverse_Permutation|].
    repeat constructor.
Defined.

(** The id-indexed upsert of [add_messages] is the plain scan: each
    incoming message replaces the first message with its id or is appended,
    and a history with distinct ids keeps distinct ids. *)
Theorem add_messages_is_scan current update :
  let existing := match current with Some (Array l) => l | _ => [] end in
  add_messages current update = Array (fold_left upsert_one (incoming_of update) existing) /\
  (NoDup (omap message_id existing) ->
   exists l, add_messages current update = Array l /\ NoDup (omap message_id l)).
Proof.
  intros existing. unfold add_messages. rewrite upsert_messages_ref.
  split; [done|]. intros Hnd. eexists. split; [done|]. by apply upsert_fold_NoDup.
Qed.

(** Deep merge on well-formed objects: a member present on both sides is
    merged recursively, a member of one side is kept, the result is
    well-formed, and merging a value with itself changes nothing. *)
Theorem deep_merge_members x y :
  wf_value (Object x) = true -> wf_value (Object y) = true ->
  wf_value (deep_merge (Object x) (Object y)) = true /\
  (forall k, vget k (deep_merge (Object x) (Object y))
             = merge_member (BTree.get k x) (BTree.get k y)) /\
  deep_merge (Object x) (Object x) = Object x.
Proof.
  intros Hx Hy. unfold deep_merge. split; [by apply deep_merge_wf|].
  split; [|by apply deep_merge_idem]. intros k. rewrite deep_merge_objects. simpl.
  apply get_merge_entries, BTree.Sorted_NoDup. by apply wf_Object in Hy as [? _].
Qed.

Lemma deep_merge_members_witness :
  vget "a" (deep_merge (Object [("a", Object [("p", Bool true)])])
                       (Object [("a", Object [("q", Null)]); ("b", Null)]))
  = Some (Object [("p", Bool true); ("q", Null)]).
Proof.
  destruct (deep_merge_members [("a", Object [("p", Bool true)])]
              [("a", Object [("q", Null)]); ("b", Null)]) as (_ & H & _);
    [vm_compute; reflexivity..|].
  rewrite H. vm_compute. reflexivity.
Defined.

(** C33: an accepted super-step keeps the state well-formed and keeps arrays
    under array reducers; in such a state the array rule never refuses a
    write, so acceptance only asks for declared channels and single writes. *)
Theorem super_step_keeps_typing uniq spec s ws :
  wf_state s -> typed spec s ->
  wf_state (apply_super_step uniq spec s ws).1 /\
  typed spec (apply_super_step uniq spec s ws).1 /\
  (is_ok (apply_super_step uniq spec s ws).2 = true <->
   (forall ch, ch ∈ written ws -> has_channel spec ch = true) /\
   (forall ch, channels spec !! ch = Some Overwrite -> occurrences ch (written ws) <= 1)).
Proof.
  intros Hwf Ht. split; [|split].
  - unfold apply_super_step. case_match; simpl; [by apply merge_writes_wf|done].
  - unfold apply_super_step. case_match; simpl; [by apply merge_writes_typed|done].
  - rewrite apply_super_step_valid. unfold step_valid, channel_ok, has_channel.
    split; intros [H1 H2]; (split; [|done]); intros ch Hch; specialize (H1 ch Hch).
    + by destruct H1 as (r & -> & _).
    + destruct (channels spec !! ch) as [r|] eqn:E; [|done]. exists r.
      split; [done|]. intros Hr v Hv. by eapply Ht.
Qed.

Lemma super_step_keeps_typing_witness :
  typed demo_spec (apply_super_step never_shared demo_spec demo_state demo_writes).1.
Proof.
  apply super_step_keeps_typing.
  - apply BTree.sorted_Sorted. vm_compute. reflexivity.
  - intros ch r v Hr Ha. unfold state_get, demo_state. simpl.
    destruct (String.eqb ch "log"); [|done]. by intros [= <-].
Defined.
