(* ===== verification/Graph.v ===== *)
(** * Graphs ([rusty-core/src/graph.rs])

    The builder, the compiled topology and the structural validation of
    [GraphBuilder::compile]. Node bodies ([dyn Node]) are opaque: a type
    parameter. A conditional router reads the post-barrier state and returns
    a [Route] or fails. *)

From Stdlib Require Import String Ascii.
From S2P Require Import Prelude Containers Json Error State.
Local Open Scope string_scope.

(** The reserved terminal name. *)
Definition END : string := "__end__".

(** [Send]: one dynamic fan-out instruction. *)
Record Send : Type := mkSend { send_node : string; send_state : Value }.

(** [Route]. *)
Inductive Route : Type :=
| RNode (target : string)
| RSend (sends : list Send)
| REnd.

(** [ConditionalRouter]. *)
Definition ConditionalRouter : Type := State -> res Route.

(** [Edge]. *)
Inductive Edge : Type :=
| Direct (from to : string)
| Conditional (from : string) (router : ConditionalRouter).

(** [Edge::from]. *)
Definition edge_from (e : Edge) : string :=
  match e with Direct from _ | Conditional from _ => from end.

Section Graph.
Context {Node : Type}.

(** [Graph] (its [GraphInner]). *)
Record Graph : Type := mkGraph {
  nodes : gmap string Node;
  edges : list Edge;
  entry_point : string;
}.

(** [Graph::node], [Graph::has_node], [Graph::node_count]. *)
Definition node (g : Graph) (name : string) : option Node := nodes g !! name.
Definition has_node (g : Graph) (name : string) : bool :=
  match nodes g !! name with Some _ => true | None => false end.
Definition node_count (g : Graph) : nat := size (nodes g).

(** [Graph::outgoing_edges]. *)
Definition outgoing_edges (g : Graph) (from : string) : list Edge :=
  filter (fun e => edge_from e = from) (edges g).

(** The lines hashed by [Graph::topology_hash], sorted. *)
Definition edge_line (e : Edge) : string :=
  match e with
  | Direct from to => "edge:" ++ from ++ ">" ++ to
  | Conditional from _ => "edge:" ++ from ++ ">?"
  end.

Definition topology_lines (g : Graph) : list string :=
  sort_by str_leb
    (map (fun kn => "node:" ++ kn.1)%string (map_to_list (nodes g))
     ++ map edge_line (edges g) ++ [("entry:" ++ entry_point g)%string])%list.

(** [lines.join] with a newline. *)
Definition newline : string := String "010"%char EmptyString.

(** [Graph::topology_hash]; the digest is a parameter. *)
Definition topology_hash (sha256_hex : string -> string) (g : Graph) : string :=
  sha256_hex (String.concat newline (topology_lines g)).

(** [GraphBuilder]. *)
Record GraphBuilder : Type := mkBuilder {
  b_nodes : gmap string Node;
  b_edges : list Edge;
  b_entry_point : option string;
}.

(** [GraphBuilder::new] and its building methods. *)
Definition builder_new : GraphBuilder := mkBuilder ∅ [] None.
Definition add_node (b : GraphBuilder) (name : string) (n : Node) : GraphBuilder :=
  mkBuilder (<[name := n]> (b_nodes b)) (b_edges b) (b_entry_point b).
Definition add_edge (b : GraphBuilder) (from to : string) : GraphBuilder :=
  mkBuilder (b_nodes b) (b_edges b ++ [Direct from to])%list (b_entry_point b).
Definition add_conditional_edges (b : GraphBuilder) (from : string)
    (router : ConditionalRouter) : GraphBuilder :=
  mkBuilder (b_nodes b) (b_edges b ++ [Conditional from router])%list (b_entry_point b).
Definition set_entry_point (b : GraphBuilder) (name : string) : GraphBuilder :=
  mkBuilder (b_nodes b) (b_edges b) (Some name).

(** A name of the engine's sentinel namespace. *)
Definition reserved_name (name : string) : bool :=
  String.eqb name END || String.prefix "__" name.

(** The sets of the edge pass of [compile]. *)
Record EdgeSets : Type := mkSets {
  direct_edges : gset (string * string);
  direct_sources : gset string;
  conditional_sources : gset string;
}.

Definition known (ns : gmap string Node) (name : string) : bool :=
  match ns !! name with Some _ => true | None => false end.

(** One iteration of the edge pass. *)
Definition check_edge (ns : gmap string Node) (t : EdgeSets) (e : Edge) : res EdgeSets :=
  let from := edge_from e in
  if negb (known ns from) then
    Err (EGraph ("edge source `" ++ from ++ "` does not reference a known node"))
  else
    match e with
    | Direct _ to =>
        if negb (known ns to) then
          Err (EGraph ("edge target `" ++ to ++ "` (from `" ++ from
                 ++ "`) does not reference a known node"))
        else if bool_decide ((from, to) ∈ direct_edges t) then
          Err (EGraph ("duplicate edge `" ++ from ++ " -> " ++ to
                 ++ "`: the target would be activated twice in one super-step"))
        else Ok (mkSets ({[(from, to)]} ∪ direct_edges t) ({[from]} ∪ direct_sources t)
                   (conditional_sources t))
    | Conditional _ _ =>
        if bool_decide (from ∈ conditional_sources t) then
          Err (EGraph ("node `" ++ from
                 ++ "` has multiple conditional edges; only one router per source node is allowed"))
        else Ok (mkSets (direct_edges t) (direct_sources t)
                   ({[from]} ∪ conditional_sources t))
    end.

Fixpoint check_edges (ns : gmap string Node) (t : EdgeSets) (es : list Edge)
  : res EdgeSets :=
  match es with
  | [] => Ok t
  | e :: rest => t' ← check_edge ns t e; check_edges ns t' rest
  end.

(** The entry-point, edge and ambiguity checks of [compile]. *)
Definition compile_topology (b : GraphBuilder) (entry : string) : res Graph :=
  if negb (known (b_nodes b) entry) then
    Err (EGraph ("entry point `" ++ entry ++ "` does not reference a known node"))
  else
    t ← check_edges (b_nodes b) (mkSets ∅ ∅ ∅) (b_edges b);
    match elements (direct_sources t ∩ conditional_sources t) with
    | from :: _ =>
        Err (EGraph ("node `" ++ from
               ++ "` has both static and conditional edges; routing would be ambiguous"))
    | [] => Ok (mkGraph (b_nodes b) (b_edges b) entry)
    end.

(** [GraphBuilder::compile]. *)
Definition compile (b : GraphBuilder) : res Graph :=
  if Nat.eqb (size (b_nodes b)) 0 then
    Err (EGraph "cannot compile an empty graph: register at least one node")
  else
    match filter (fun kn => reserved_name kn.1 = true) (map_to_list (b_nodes b)) with
    | (name, _) :: _ =>
        Err (EGraph ("node name `" ++ name ++ "` is reserved (`" ++ END
               ++ "` and `__`-prefixed names form the engine's sentinel namespace)"))
    | [] =>
        match b_entry_point b with
        | None => Err (EGraph "no entry point set: call set_entry_point()")
        | Some entry => compile_topology b entry
        end
    end.
End Graph.
Arguments Graph : clear implicits.
Arguments GraphBuilder : clear implicits.

(** ** Facts *)
Local Close Scope string_scope.

Section GraphFacts.
Context {Node : Type}.
Implicit Types (ns : gmap string Node) (es : list Edge).

(** The static edges and the conditional sources of an edge list. *)
Definition direct_pairs (es : list Edge) : list (string * string) :=
  omap (fun e => match e with Direct f t => Some (f, t) | Conditional _ _ => None end) es.
Definition conditional_froms (es : list Edge) : list string :=
  omap (fun e => match e with Direct _ _ => None | Conditional f _ => Some f end) es.

(** What [compile] asks of the edges. *)
Definition edge_known ns (e : Edge) : Prop :=
  is_Some (ns !! edge_from e) /\
  match e with Direct _ t => is_Some (ns !! t) | Conditional _ _ => True end.

Definition edges_valid ns es : Prop :=
  Forall (edge_known ns) es /\
  NoDup (direct_pairs es) /\
  NoDup (conditional_froms es) /\
  (forall f t, (f, t) ∈ direct_pairs es -> f ∉ conditional_froms es).

Definition builder_valid (b : GraphBuilder Node) : Prop :=
  b_nodes b <> ∅ /\
  (forall name, is_Some (b_nodes b !! name) -> reserved_name name = false) /\
  (exists entry, b_entry_point b = Some entry /\ is_Some (b_nodes b !! entry)) /\
  edges_valid (b_nodes b) (b_edges b).

Lemma known_spec ns name : known ns name = true <-> is_Some (ns !! name).
Proof. unfold known. destruct (ns !! name); [|split; [done|by intros []]]. naive_solver. Qed.

(** The sets accumulated so far describe the edges already visited. *)
Definition sets_of (es : list Edge) (t : EdgeSets) : Prop :=
  (forall p, p ∈ direct_edges t <-> p ∈ direct_pairs es) /\
  (forall f, f ∈ direct_sources t <-> f ∈ (direct_pairs es).*1) /\
  (forall f, f ∈ conditional_sources t <-> f ∈ conditional_froms es).

Lemma sets_of_snoc es t e ns t' :
  sets_of es t -> check_edge ns t e = Ok t' -> sets_of (es ++ [e]) t'.
Proof.
  unfold sets_of, check_edge, direct_pairs, conditional_froms. intros (H1 & H2 & H3).
  destruct (negb (known ns (edge_from e))); [done|].
  rewrite !omap_app. destruct e as [f d|f r]; simpl.
  - destruct (negb (known ns d)); [done|]. case_bool_decide; [done|]. intros [= <-]; simpl.
    rewrite app_nil_r. split_and!; [| |done].
    + intros p. rewrite elem_of_union, elem_of_singleton, elem_of_app, list_elem_of_singleton, H1.
      tauto.
    + intros p. rewrite elem_of_union, elem_of_singleton, H2.
      rewrite fmap_app, elem_of_app. simpl. rewrite list_elem_of_singleton. tauto.
  - case_bool_decide; [done|]. intros [= <-]; simpl. rewrite app_nil_r.
    split_and!; [done..|]. intros p.
    rewrite elem_of_union, elem_of_singleton, elem_of_app, list_elem_of_singleton, H3.
    tauto.
Qed.

Lemma check_edge_Ok ns es t e :
  sets_of es t ->
  (exists t', check_edge ns t e = Ok t') <->
  edge_known ns e /\
  match e with
  | Direct f d => (f, d) ∉ direct_pairs es
  | Conditional f _ => f ∉ conditional_froms es
  end.
Proof.
  intros (H1 & H2 & H3). unfold check_edge, edge_known. rewrite <- !known_spec.
  destruct (known ns (edge_from e)) eqn:Ef; simpl;
    [|split; [by intros [? ?]|by intros [[? ?] ?]]].
  destruct e as [f d|f r]; simpl in *.
  - rewrite <- known_spec, <- H1. destruct (known ns d); simpl;
      [|split; [by intros [? ?]|by intros [[? ?] ?]]].
    case_bool_decide; split; [by intros [? ?]|by intros [_ ?]|done|eauto].
  - rewrite <- H3. case_bool_decide; split; [by intros [? ?]|by intros [_ ?]|done|eauto].
Qed.

(** Appending one edge keeps the two duplicate-free lists. *)
Lemma edge_fresh pre e :
  NoDup (direct_pairs pre) -> NoDup (conditional_froms pre) ->
  match e with
  | Direct f d => (f, d) ∉ direct_pairs pre
  | Conditional f _ => f ∉ conditional_froms pre
  end <-> NoDup (direct_pairs (pre ++ [e])) /\ NoDup (conditional_froms (pre ++ [e])).
Proof.
  intros Hd Hc. unfold direct_pairs, conditional_froms in *. rewrite !omap_app.
  destruct e as [f d|f r]; simpl; rewrite ?app_nil_r, NoDup_app; split.
  - intros H. split; [|done]. split_and!; [done| |apply NoDup_singleton].
    by intros x Hx ->%list_elem_of_singleton.
  - intros [(_ & H & _) _] Hin. apply (H _ Hin). left.
  - intros H. split; [done|]. split_and!; [done| |apply NoDup_singleton].
    by intros x Hx ->%list_elem_of_singleton.
  - intros [_ (_ & H & _)] Hin. apply (H _ Hin). left.
Qed.

Lemma NoDup_omap_prefix {A B} (f : A -> option B) (l k : list A) :
  NoDup (omap f (l ++ k)) -> NoDup (omap f l).
Proof. rewrite omap_app, NoDup_app. by intros [? _]. Qed.

Lemma check_edges_Ok ns pre es t :
  sets_of pre t -> NoDup (direct_pairs pre) -> NoDup (conditional_froms pre) ->
  (exists t', check_edges ns t es = Ok t' /\ sets_of (pre ++ es) t') <->
  Forall (edge_known ns) es /\
  NoDup (direct_pairs (pre ++ es)) /\ NoDup (conditional_froms (pre ++ es)).
Proof.
  revert pre t. induction es as [|e es IH]; intros pre t Ht Hd Hc; simpl.
  { rewrite app_nil_r. split; [by intros _; auto|eauto]. }
  rewrite (cons_middle e pre es), app_assoc. split.
  - intros (t' & Hb & Hs). apply bind_Ok in Hb as (t1 & He & Hes).
    destruct (proj1 (check_edge_Ok ns pre t e Ht) (ex_intro _ _ He)) as [Hk Hf].
    apply edge_fresh in Hf as [Hd' Hc']; [|done..].
    destruct (proj1 (IH _ t1 (sets_of_snoc _ _ _ _ _ Ht He) Hd' Hc')) as (H1 & H2 & H3); [eauto|].
    auto.
  - intros (Hk & Hd2 & Hc2). apply Forall_cons in Hk as [Hk Hks].
    assert (Hf : NoDup (direct_pairs (pre ++ [e])) /\ NoDup (conditional_froms (pre ++ [e])))
      by (split; eapply NoDup_omap_prefix; eassumption).
    apply edge_fresh in Hf as Hf'; [|done..].
    destruct (proj2 (check_edge_Ok ns pre t e Ht) (conj Hk Hf')) as [t1 He].
    rewrite He. simpl. apply IH; [by eapply sets_of_snoc|by destruct Hf..|auto].
Qed.

Lemma check_edges_sets ns pre es t t' :
  sets_of pre t -> check_edges ns t es = Ok t' -> sets_of (pre ++ es) t'.
Proof.
  revert pre t. induction es as [|e es IH]; intros pre t Ht; simpl.
  { rewrite app_nil_r. by intros [= <-]. }
  intros (t1 & He & Hes)%bind_Ok. rewrite (cons_middle e pre es), app_assoc.
  eapply IH; [|exact Hes]. by eapply sets_of_snoc.
Qed.

Lemma ambiguity_check (t : EdgeSets) es :
  sets_of es t ->
  elements (direct_sources t ∩ conditional_sources t) = [] <->
  (forall f d, (f, d) ∈ direct_pairs es -> f ∉ conditional_froms es).
Proof.
  intros (_ & H2 & H3). rewrite <- (elements_empty (C := gset string)).
  split.
  - intros He f d Hin Hc.
    assert (f ∈ elements (direct_sources t ∩ conditional_sources t)) as Hf.
    { apply elem_of_elements, elem_of_intersection. rewrite H2, H3. split; [|done].
      apply list_elem_of_fmap. by exists (f, d). }
    rewrite He in Hf. by apply elem_of_elements, not_elem_of_empty in Hf.
  - intros H. f_equal. apply leibniz_equiv. intros f.
    rewrite elem_of_intersection, H2, H3, list_elem_of_fmap. split; [|by intros ?%not_elem_of_empty].
    intros [([f' d] & -> & Hin) Hc]. by apply H in Hin.
Qed.

Lemma compile_topology_Ok (b : GraphBuilder Node) entry g :
  compile_topology b entry = Ok g <->
  is_Some (b_nodes b !! entry) /\ edges_valid (b_nodes b) (b_edges b) /\
  g = mkGraph (b_nodes b) (b_edges b) entry.
Proof.
  unfold compile_topology, edges_valid. rewrite <- known_spec.
  destruct (known (b_nodes b) entry); simpl; [|split; [done|by intros [? _]]].
  assert (Hinit : sets_of [] (mkSets ∅ ∅ ∅)) by (split_and!; set_solver).
  pose proof (check_edges_Ok (b_nodes b) [] (b_edges b) (mkSets ∅ ∅ ∅) Hinit
                (NoDup_nil_2) (NoDup_nil_2)) as Hiff.
  simpl in Hiff. split.
  - intros Hb. apply bind_Ok in Hb as (t & Ht & Hm).
    assert (Hs : sets_of (b_edges b) t /\ Forall (edge_known (b_nodes b)) (b_edges b) /\
                 NoDup (direct_pairs (b_edges b)) /\ NoDup (conditional_froms (b_edges b))).
    { pose proof (check_edges_sets (b_nodes b) [] (b_edges b) (mkSets ∅ ∅ ∅) t Hinit Ht) as H.
      split; [exact H|]. apply Hiff. eauto. }
    destruct Hs as (Hs & Hk & Hd & Hc).
    destruct (elements _) as [|f fs] eqn:He; [|done]. injection Hm as <-.
    pose proof (proj1 (ambiguity_check t _ Hs) He) as Hamb. by split_and!.
  - intros (_ & (Hk & Hd & Hc & Hamb) & ->).
    destruct (proj2 Hiff (conj Hk (conj Hd Hc))) as (t & Ht & Hs). rewrite Ht. simpl.
    by rewrite (proj2 (ambiguity_check _ _ Hs) Hamb).
Qed.

Lemma no_reserved (b : GraphBuilder Node) :
  filter (fun kn => reserved_name kn.1 = true) (map_to_list (b_nodes b)) = [] <->
  (forall name, is_Some (b_nodes b !! name) -> reserved_name name = false).
Proof.
  split.
  - intros Hf name [n Hn]. destruct (reserved_name name) eqn:E; [|done].
    assert ((name, n) ∈ filter (fun kn => reserved_name kn.1 = true) (map_to_list (b_nodes b))) as Hin.
    { apply list_elem_of_filter. split; [done|]. by apply elem_of_map_to_list. }
    rewrite Hf in Hin. inv Hin.
  - intros H. destruct (filter _ _) as [|[name n] l] eqn:E; [done|].
    assert ((name, n) ∈ filter (fun kn => reserved_name kn.1 = true) (map_to_list (b_nodes b))) as Hin
      by (rewrite E; left).
    apply list_elem_of_filter in Hin as [Hr Hin]. apply elem_of_map_to_list in Hin.
    rewrite H in Hr; [done|eauto].
Qed.

Lemma compile_Ok (b : GraphBuilder Node) g :
  compile b = Ok g <->
  builder_valid b /\
  exists entry, b_entry_point b = Some entry /\ g = mkGraph (b_nodes b) (b_edges b) entry.
Proof.
  unfold compile, builder_valid.
  destruct (Nat.eqb_spec (size (b_nodes b)) 0) as [Hz|Hz].
  { apply map_size_empty_iff in Hz. split; [done|]. by intros [[? _] _]. }
  assert (Hne : b_nodes b <> ∅) by (intros H; apply Hz; by apply map_size_empty_iff).
  pose proof (no_reserved b) as Hres.
  destruct (filter _ _) as [|[name n] l].
  - destruct (b_entry_point b) as [entry|]; [rewrite compile_topology_Ok|]; split.
    + intros (H1 & H2 & ->). split; [|eauto]. split_and!; [done|by apply Hres|eauto|done].
    + intros [(_ & _ & (e & [= <-] & He) & Hv) (e' & [= <-] & ->)]. auto.
    + done.
    + by intros [_ (e & [=] & _)].
  - split; [done|]. intros [(_ & Hr & _) _]. apply Hres in Hr. done.
Qed.

(** ** Routing over a compiled graph *)
Lemma only_direct es from :
  from ∉ conditional_froms es ->
  filter (fun e => edge_from e = from) es
  = map (Direct from)
      (omap (fun p => if decide (p.1 = from) then Some p.2 else None) (direct_pairs es)).
Proof.
  unfold conditional_froms, direct_pairs. induction es as [|[f d|f r] es IH]; [done|..];
    rewrite filter_cons; csimpl; intros Hn.
  - case_decide as Hf; simpl in Hf; subst; rewrite ?IH by done; csimpl.
    + by rewrite ?decide_True by done.
    + by rewrite ?decide_False by done.
  - apply not_elem_of_cons in Hn as [Hne Hn]. rewrite decide_False by congruence. by apply IH.
Qed.

Lemma targets_NoDup (l : list (string * string)) from :
  NoDup l -> NoDup (omap (fun p => if decide (p.1 = from) then Some p.2 else None) l).
Proof.
  induction 1 as [|[f d] l Hni _ IH]; csimpl; [constructor|].
  case_decide as Hf; simpl in Hf; [|done]. subst. constructor; [|done].
  intros ([f' d'] & Hin & Heq)%list_elem_of_omap. simpl in *. case_decide; [|done].
  simplify_eq. done.
Qed.

Lemma single_conditional es from :
  from ∈ conditional_froms es -> NoDup (conditional_froms es) ->
  (forall f d, (f, d) ∈ direct_pairs es -> f ∉ conditional_froms es) ->
  exists router, filter (fun e => edge_from e = from) es = [Conditional from router].
Proof.
  intros Hin Hnd Hamb.
  assert (Hdir : from ∉ (direct_pairs es).*1).
  { intros ([f d] & -> & Hd)%list_elem_of_fmap. by eapply Hamb. }
  clear Hamb. unfold conditional_froms, direct_pairs in *.
  induction es as [|[f d|f r] es IH]; csimpl in *; [inv Hin|..]; rewrite filter_cons; simpl.
  - apply not_elem_of_cons in Hdir as [Hne Hdir]. rewrite decide_False by congruence. auto.
  - apply NoDup_cons in Hnd as [Hni Hnd]. apply elem_of_cons in Hin as [<-|Hin].
    + rewrite decide_True by done. exists r. f_equal.
      rewrite only_direct by done. clear -Hdir. unfold direct_pairs.
      induction (omap _ es) as [|[f d] l IH]; [done|]. csimpl in *.
      apply not_elem_of_cons in Hdir as [Hne Hdir]. rewrite decide_False by done. auto.
    + rewrite decide_False; [auto|]. intros ->. done.
Qed.

Lemma outgoing_kinds (b : GraphBuilder Node) g from :
  compile b = Ok g ->
  (exists targets, outgoing_edges g from = map (Direct from) targets /\ NoDup targets /\
     Forall (fun t => has_node g t = true) targets) \/
  (exists router, outgoing_edges g from = [Conditional from router]).
Proof.
  intros Hg. apply compile_Ok in Hg as ((_ & _ & _ & Hk & Hd & Hc & Hamb) & entry & _ & ->).
  unfold outgoing_edges, has_node. simpl.
  destruct (decide (from ∈ conditional_froms (b_edges b))) as [Hin|Hn].
  - right. eapply single_conditional; eauto.
  - left. exists (omap (fun p => if decide (p.1 = from) then Some p.2 else None)
                    (direct_pairs (b_edges b))).
    split; [by apply only_direct|]. split; [by apply targets_NoDup|].
    apply Forall_forall. intros t Ht. apply list_elem_of_omap in Ht as ([f t'] & Hp & Heq).
    simpl in Heq. case_decide; [|done]. injection Heq as ->. simpl in *. subst f.
    apply list_elem_of_omap in Hp as ([f2 d2|f2 r2] & He & [=]). subst.
    eapply Forall_forall in Hk; [|exact He]. destruct Hk as [_ [n Hn']]. by rewrite Hn'.
Qed.
End GraphFacts.

(** ** Theorems *)

Lemma check_edges_error {Node : Type} (ns : gmap string Node) t es e :
  check_edges ns t es = Err e -> exists m, e = EGraph m.
Proof.
  revert t. induction es as [|[f d|f r] es IH]; intros t; simpl; [done|..];
    (intros [H|(t' & _ & H)]%bind_Err; [|by eapply IH]); revert H; unfold check_edge;
    repeat case_match; naive_solver.
Qed.

Lemma compile_error {Node : Type} (b : GraphBuilder Node) e :
  compile b = Err e -> exists m, e = EGraph m.
Proof.
  unfold compile, compile_topology. repeat case_match; try naive_solver.
  intros [Hx|(t & _ & Hx)]%bind_Err; [by eapply check_edges_error|].
  revert Hx. case_match; naive_solver.
Qed.

(** [compile] freezes exactly the well-formed builders (some node, no
    reserved name, a known entry point, known edge endpoints, no duplicate
    static edge, one router per source, no source with both kinds), without
    changing nodes or edges, and refuses every other with a graph error. *)
Theorem compile_accepts_exactly {Node : Type} (b : GraphBuilder Node) :
  (builder_valid b /\ exists entry, b_entry_point b = Some entry /\
     compile b = Ok (mkGraph (b_nodes b) (b_edges b) entry)) \/
  (~ builder_valid b /\ exists m, compile b = Err (EGraph m)).
Proof.
  destruct (compile b) as [g|e] eqn:E.
  - left. apply compile_Ok in E as (Hv & entry & He & ->). eauto.
  - right. split.
    + intros Hv. destruct Hv as (H1 & H2 & (entry & H3 & H4) & H5).
      assert (Hok : compile b = Ok (mkGraph (b_nodes b) (b_edges b) entry))
        by (apply compile_Ok; unfold builder_valid; eauto 10).
      congruence.
    + apply compile_error in E as [m ->]. eauto.
Qed.

(** In a compiled graph a node either has static edges only, to distinct
    known nodes, or exactly one conditional edge: the next activation is
    never ambiguous. *)
Theorem compiled_routing_unambiguous {Node : Type} (b : GraphBuilder Node) g from :
  compile b = Ok g ->
  (exists targets, outgoing_edges g from = map (Direct from) targets /\ NoDup targets /\
     Forall (fun t => has_node g t = true) targets) \/
  (exists router, outgoing_edges g from = [Conditional from router]).
Proof. apply outgoing_kinds. Qed.

Definition demo_builder : GraphBuilder unit :=
  set_entry_point
    (add_edge (add_edge (add_node (add_node builder_new "agent" tt) "tools" tt)
                 "agent" "tools") "tools" "agent") "agent".

Lemma compiled_routing_unambiguous_witness :
  exists g, compile demo_builder = Ok g /\
    ((exists targets, outgoing_edges g "agent" = map (Direct "agent") targets /\ NoDup targets /\
        Forall (fun t => has_node g t = true) targets) \/
     (exists router, outgoing_edges g "agent" = [Conditional "agent" router])).
Proof.
  eexists. split; [vm_compute; reflexivity|].
  apply (compiled_routing_unambiguous demo_builder). vm_compute. reflexivity.
Defined.

Lemma elem_of_keys {A : Type} (m : gmap string A) k : k ∈ (map_to_list m).*1 <-> k ∈ dom m.
Proof.
  rewrite elem_of_dom, list_elem_of_fmap. split.
  - intros ([k' v] & -> & H%elem_of_map_to_list). eauto.
  - intros [v Hv]. exists (k, v). split; [done|]. by apply elem_of_map_to_list.
Qed.

Lemma topology_lines_perm {Node : Type} (g1 g2 : Graph Node) :
  dom (nodes g1) = dom (nodes g2) -> map edge_line (edges g1) ≡ₚ map edge_line (edges g2) ->
  entry_point g1 = entry_point g2 -> topology_lines g1 = topology_lines g2.
Proof.
  intros Hd He Hn. unfold topology_lines.
  apply sort_by_unique; [apply str_leb_total|apply str_leb_trans| |].
  - rewrite He, Hn. apply Permutation_app; [|done].
    assert (Hk : (map_to_list (nodes g1)).*1 ≡ₚ (map_to_list (nodes g2)).*1).
    { apply NoDup_Permutation; [apply NoDup_fst_map_to_list..|]. intros k.
      by rewrite !elem_of_keys, Hd. }
    apply (fmap_Permutation (fun k => ("node:" +:+ k))) in Hk.
    by rewrite <- !list_fmap_compose in Hk.
  - intros x y _ _. apply str_leb_antisym.
Qed.

(** The topology hash depends only on the node names, the edges and the
    entry point, not on the order in which they were registered. *)
Theorem topology_hash_order_free {Node : Type} (sha256_hex : string -> string)
    (g1 g2 : Graph Node) :
  dom (nodes g1) = dom (nodes g2) -> map edge_line (edges g1) ≡ₚ map edge_line (edges g2) ->
  entry_point g1 = entry_point g2 ->
  topology_hash sha256_hex g1 = topology_hash sha256_hex g2.
Proof. intros Hd He Hn. unfold topology_hash. by rewrite (topology_lines_perm g1 g2). Qed.

Lemma topology_hash_order_free_witness :
  topology_hash id (mkGraph (b_nodes demo_builder) (b_edges demo_builder) "agent")
  = topology_hash id
      (mkGraph (b_nodes demo_builder) (reverse (b_edges demo_builder)) "agent").
Proof.
  apply topology_hash_order_free; [reflexivity| |reflexivity].
  simpl. apply perm_swap.
Defined.

(** Two graphs over the nodes [a], [a>b], [b>c] and [c]. *)
Definition ambiguous_nodes : gmap string unit :=
  <["a" := tt]> (<["a>b" := tt]> (<["b>c" := tt]> (<["c" := tt]> ∅))).
Definition ambiguous_one : GraphBuilder unit :=
  mkBuilder ambiguous_nodes [Direct "a>b" "c"] (Some "a").
Definition ambiguous_two : GraphBuilder unit :=
  mkBuilder ambiguous_nodes [Direct "a" "b>c"] (Some "a").

(** The edge descriptor [from>to] is not injective: two graphs that
    compile and route differently have the same topology hash, whatever the
    digest. *)
Theorem topology_hash_not_injective (sha256_hex : string -> string) :
  exists g1 g2, compile ambiguous_one = Ok g1 /\ compile ambiguous_two = Ok g2 /\
    outgoing_edges g1 "a" = [] /\ length (outgoing_edges g2 "a") = 1 /\
    topology_hash sha256_hex g1 = topology_hash sha256_hex g2.
Proof.
  eexists _, _. split; [vm_compute; reflexivity|]. split; [vm_compute; reflexivity|].
  split; [reflexivity|]. split; [reflexivity|]. unfold topology_hash. f_equal.
Qed.
