(* ===== verification/Record.v ===== *)
(** * Run records ([rusty-core/src/record.rs], [rusty-api/src/lib.rs])

    The data the Flight Recorder writes: effect classes, event kinds and
    statuses, payload references, run events, run manifests and checkpoint
    headers, with the JSON shapes their serializers produce. *)

From Stdlib Require Import String SpecFloat.
From S2P Require Import Prelude Containers Json Error.
Local Open Scope string_scope.

(** ** Effects and events *)

(** [Effect]: how repeatable a side effect is. *)
Inductive Effect : Type := Pure | ReadOnly | Idempotent | Compensatable | NonIdempotent.

#[export] Instance Effect_eq_dec : EqDecision Effect.
Proof. solve_decision. Defined.

(** [Effect::is_freely_repeatable]. *)
Definition is_freely_repeatable (e : Effect) : bool :=
  match e with Pure | ReadOnly | Idempotent => true | _ => false end.

(** [EventStatus]. *)
Inductive EventStatus : Type := StatusOk | StatusError | StatusInterrupted.

#[export] Instance EventStatus_eq_dec : EqDecision EventStatus.
Proof. solve_decision. Defined.

(** [RunEventKind]. *)
Inductive RunEventKind : Type :=
| KSuperStepStart | KSuperStepEnd | KNodeInput | KNodeOutput
| KModelCall | KToolCall | KRemoteCall | KWasmCall
| KInterrupt | KResume | KRoutingDecision | KCheckpointWritten
| KEffectReceipt | KAgentSpawn | KAgentExit | KMailboxSend
| KMailboxReceive | KSupervisionEvent | KCoordinationStart | KCoordinationEnd
| KMemoryRead | KMemoryWrite | KMemoryForget | KCandidateCreated
| KCandidateEvaluated | KCandidatePromoted | KCandidateRolledBack | KPolicyDecision
| KCapsuleResolved | KCapsuleCall | KCapsuleDenied | KSigningKeyRotated
| KConfigResolved | KConnectionRegistered | KConnectionConsented | KConnectionRefreshed
| KConnectionRevoked | KCredentialHandleIssued | KCredentialUse | KCredentialDenied
| KConnectionNeedsReauth | KArtifactCommitted | KArtifactPruned | KArtifactRetentionReleased
| KArtifactUnavailable | KDeploymentResolved | KRevisionRegistered | KRevisionPromoted
| KRevisionRolledBack | KEnvironmentDeclared | KEnvSecretSet | KEnvSecretRevoked
| KEnvSecretDenied | KGateDecisionRecorded | KCanaryDeclared | KCanaryCleared
| KShadowRunStarted | KShadowEffectRefused | KShadowVerdict | KRunConfigDeclared
| KToolCallDenied | KApprovalAsked | KApprovalDecided | KInboxIntake
| KInboxConsumed | KRequestHeader | KRunCancelled | KAssistantChunk.

#[export] Instance RunEventKind_eq_dec : EqDecision RunEventKind.
Proof. solve_decision. Defined.

(** Size of the largest payload kept inline in an event. *)
Definition INLINE_PAYLOAD_MAX_BYTES : nat := 4096.

(** The checkpoint format this build writes. *)
Definition CURRENT_FORMAT_VERSION : N := 1%N.

(** [ArtifactRef]: the content address of a payload stored apart. *)
Record ArtifactRef : Type := mkArtifactRef { ar_sha256 : string; ar_bytes : N }.

#[export] Instance ArtifactRef_eq_dec : EqDecision ArtifactRef.
Proof. solve_decision. Defined.

(** [PayloadRef]. *)
Inductive PayloadRef : Type :=
| Inline (v : Value)
| Artifact (reference : ArtifactRef).

(** [Usage]: provider-reported token counts. *)
Record Usage : Type := mkUsage {
  prompt_tokens : N;
  completion_tokens : N;
  total_tokens : N;
  cached_tokens : option N;
  reasoning_tokens : option N;
}.

(** A UTC timestamp, in milliseconds since the epoch. *)
Abbreviation DateTime := Z.

(** [RunEvent]. *)
Record RunEvent : Type := mkEvent {
  ev_id : string;
  ev_run_id : string;
  ev_thread_id : string;
  ev_node_id : option string;
  ev_seq : N;
  ev_kind : RunEventKind;
  ev_effect : Effect;
  ev_input : option PayloadRef;
  ev_output : option PayloadRef;
  ev_latency_ms : option N;
  ev_tokens : option Usage;
  ev_cost_usd : option Float64;
  ev_status : EventStatus;
  ev_parent : option string;
  ev_recorded_at : DateTime;
}.

(** ** Wire shapes

    What the derived serializers write; a struct is written in declaration
    order. *)

(** [Effect], [rename_all = "snake_case"]. *)
Definition effect_name (e : Effect) : string :=
  match e with
  | Pure => "pure" | ReadOnly => "read_only" | Idempotent => "idempotent"
  | Compensatable => "compensatable" | NonIdempotent => "non_idempotent"
  end.

(** [EventStatus], [rename_all = "snake_case"]. *)
Definition status_name (s : EventStatus) : string :=
  match s with StatusOk => "ok" | StatusError => "error" | StatusInterrupted => "interrupted" end.

(** [RunEventKind], [rename_all = "snake_case"]. *)
Definition kind_name (k : RunEventKind) : string :=
  match k with
  | KSuperStepStart => "super_step_start"
  | KSuperStepEnd => "super_step_end"
  | KNodeInput => "node_input"
  | KNodeOutput => "node_output"
  | KModelCall => "model_call"
  | KToolCall => "tool_call"
  | KRemoteCall => "remote_call"
  | KWasmCall => "wasm_call"
  | KInterrupt => "interrupt"
  | KResume => "resume"
  | KRoutingDecision => "routing_decision"
  | KCheckpointWritten => "checkpoint_written"
  | KEffectReceipt => "effect_receipt"
  | KAgentSpawn => "agent_spawn"
  | KAgentExit => "agent_exit"
  | KMailboxSend => "mailbox_send"
  | KMailboxReceive => "mailbox_receive"
  | KSupervisionEvent => "supervision_event"
  | KCoordinationStart => "coordination_start"
  | KCoordinationEnd => "coordination_end"
  | KMemoryRead => "memory_read"
  | KMemoryWrite => "memory_write"
  | KMemoryForget => "memory_forget"
  | KCandidateCreated => "candidate_created"
  | KCandidateEvaluated => "candidate_evaluated"
  | KCandidatePromoted => "candidate_promoted"
  | KCandidateRolledBack => "candidate_rolled_back"
  | KPolicyDecision => "policy_decision"
  | KCapsuleResolved => "capsule_resolved"
  | KCapsuleCall => "capsule_call"
  | KCapsuleDenied => "capsule_denied"
  | KSigningKeyRotated => "signing_key_rotated"
  | KConfigResolved => "config_resolved"
  | KConnectionRegistered => "connection_registered"
  | KConnectionConsented => "connection_consented"
  | KConnectionRefreshed => "connection_refreshed"
  | KConnectionRevoked => "connection_revoked"
  | KCredentialHandleIssued => "credential_handle_issued"
  | KCredentialUse => "credential_use"
  | KCredentialDenied => "credential_denied"
  | KConnectionNeedsReauth => "connection_needs_reauth"
  | KArtifactCommitted => "artifact_committed"
  | KArtifactPruned => "artifact_pruned"
  | KArtifactRetentionReleased => "artifact_retention_released"
  | KArtifactUnavailable => "artifact_unavailable"
  | KDeploymentResolved => "deployment_resolved"
  | KRevisionRegistered => "revision_registered"
  | KRevisionPromoted => "revision_promoted"
  | KRevisionRolledBack => "revision_rolled_back"
  | KEnvironmentDeclared => "environment_declared"
  | KEnvSecretSet => "env_secret_set"
  | KEnvSecretRevoked => "env_secret_revoked"
  | KEnvSecretDenied => "env_secret_denied"
  | KGateDecisionRecorded => "gate_decision_recorded"
  | KCanaryDeclared => "canary_declared"
  | KCanaryCleared => "canary_cleared"
  | KShadowRunStarted => "shadow_run_started"
  | KShadowEffectRefused => "shadow_effect_refused"
  | KShadowVerdict => "shadow_verdict"
  | KRunConfigDeclared => "run_config_declared"
  | KToolCallDenied => "tool_call_denied"
  | KApprovalAsked => "approval_asked"
  | KApprovalDecided => "approval_decided"
  | KInboxIntake => "inbox_intake"
  | KInboxConsumed => "inbox_consumed"
  | KRequestHeader => "request_header"
  | KRunCancelled => "run_cancelled"
  | KAssistantChunk => "assistant_chunk"
  end.

(** [ArtifactRef]. *)
Definition artifact_value (r : ArtifactRef) : Value :=
  Object [("sha256", Str (ar_sha256 r)); ("bytes", jN (ar_bytes r))].

(** [PayloadRef], adjacently tagged. *)
Definition payload_value (p : PayloadRef) : Value :=
  match p with
  | Inline v => Object [("kind", Str "inline"); ("value", v)]
  | Artifact r => Object [("kind", Str "artifact"); ("value", artifact_value r)]
  end.

(** [Usage]: the two detail counts are absent when unset. *)
Definition usage_value (u : Usage) : Value :=
  Object ([("prompt_tokens", jN (prompt_tokens u));
           ("completion_tokens", jN (completion_tokens u));
           ("total_tokens", jN (total_tokens u))]
          ++ jopt "cached_tokens" (jN <$> cached_tokens u)
          ++ jopt "reasoning_tokens" (jN <$> reasoning_tokens u))%list.

(** [RunEvent]; [time_text] is the timestamp format. *)
Definition event_value (time_text : DateTime -> string) (e : RunEvent) : Value :=
  Object [("id", Str (ev_id e)); ("run_id", Str (ev_run_id e));
          ("thread_id", Str (ev_thread_id e)); ("node_id", jnull (Str <$> ev_node_id e));
          ("seq", jN (ev_seq e)); ("kind", Str (kind_name (ev_kind e)));
          ("effect", Str (effect_name (ev_effect e)));
          ("input", jnull (payload_value <$> ev_input e));
          ("output", jnull (payload_value <$> ev_output e));
          ("latency_ms", jnull (jN <$> ev_latency_ms e));
          ("tokens", jnull (usage_value <$> ev_tokens e));
          ("cost_usd", jnull ((fun f => Num (Float f)) <$> ev_cost_usd e));
          ("status", Str (status_name (ev_status e)));
          ("parent", jnull (Str <$> ev_parent e));
          ("recorded_at", Str (time_text (ev_recorded_at e)))].

(** ** Decoding

    [serde_json::from_value] on derived types: integers must be unsigned
    64-bit, an enum of unit variants is its name (or an object mapping the
    name to [null]), a struct is an object by field names or an array of the
    fields in order. *)
Definition as_u64 (v : Value) : option N :=
  match v with Num (PosInt n) => Some n | _ => None end.

Definition as_bool (v : Value) : option bool :=
  match v with Bool b => Some b | _ => None end.

Definition variant_name (v : Value) : option string :=
  match v with
  | Str s => Some s
  | Object [(k, Null)] => Some k
  | _ => None
  end.

(** The fields of a struct, by name or by position; [required] of them must
    be present in the array form. *)
Definition struct_fields (names : list string) (required : nat) (v : Value) :
    option (list (option Value)) :=
  match v with
  | Object m => Some (map (fun k => BTree.get k m) names)
  | Array l =>
      if (required <=? length l)%nat && (length l <=? length names)%nat
      then Some (imap (fun i _ => l !! i) names)
      else None
  | _ => None
  end.

(** [EffectReceipt]. *)
Record EffectReceipt : Type := mkReceipt {
  er_provider : string;
  er_provider_id : string;
  er_idempotency_key : string;
  er_task_id : option string;
  er_effect_id : option string;
}.

#[export] Instance EffectReceipt_eq_dec : EqDecision EffectReceipt.
Proof. solve_decision. Defined.

(** [serde_json::to_value(receipt)]. *)
Definition receipt_value (r : EffectReceipt) : Value :=
  jobj ([("provider", Str (er_provider r)); ("provider_id", Str (er_provider_id r));
         ("idempotency_key", Str (er_idempotency_key r))]
        ++ jopt "task_id" (Str <$> er_task_id r)
        ++ jopt "effect_id" (Str <$> er_effect_id r))%list.

(** An [Option<String>] field under [serde(default)]: absent or [null] is
    [None]; a value of another type is refused. *)
Definition opt_string_field (o : option Value) : option (option string) :=
  match o with
  | None | Some Null => Some None
  | Some (Str s) => Some (Some s)
  | Some _ => None
  end.

Definition receipt_from_fields (p i k t e : option Value) : option EffectReceipt :=
  provider ← p ≫= as_str; provider_id ← i ≫= as_str; key ← k ≫= as_str;
  task ← opt_string_field t; effect ← opt_string_field e;
  Some (mkReceipt provider provider_id key task effect).

(** [serde_json::from_value::<EffectReceipt>]. *)
Definition receipt_from_value (v : Value) : option EffectReceipt :=
  fields ← struct_fields
             ["provider"; "provider_id"; "idempotency_key"; "task_id"; "effect_id"] 3 v;
  match fields with
  | [p; i; k; t; e] => receipt_from_fields p i k t e
  | _ => None
  end.

(** A receipt survives its own wire format. *)
Lemma receipt_roundtrip (r : EffectReceipt) : receipt_from_value (receipt_value r) = Some r.
Proof. by destruct r as [? ? ? [] []]. Qed.

(** [JournalRef]: a journal head pinned by a checkpoint. *)
Record JournalRef : Type := mkJournalRef { jr_events : N; jr_sha256 : string }.

(** ** Policies, manifests *)

(** [PolicyVersion], [PolicyVersion::default]. *)
Definition PolicyVersion : Type := string.
Definition STATIC_V0 : PolicyVersion := "static-v0".

(** [RunManifest]: the versions a run pins. *)
Record RunManifest : Type := mkManifest {
  rm_prompts : list (string * string);
  rm_tool_schemas : list (string * string);
  rm_model : option string;
  rm_model_params : option string;
  rm_memory_schema : option string;
  rm_capsules : list (string * string);
  rm_middleware : option string;
  rm_capability_set : option string;
}.

(** A map field under [skip_serializing_if = "BTreeMap::is_empty"]. *)
Definition jmap_skip (k : string) (m : list (string * string)) : list (string * Value) :=
  match m with [] => [] | _ => [(k, jobj (map (fun kv => (kv.1, Str kv.2)) m))] end.

(** The serialized manifest. *)
Definition manifest_value (m : RunManifest) : Value :=
  jobj (jmap_skip "prompts" (rm_prompts m)
        ++ jmap_skip "tool_schemas" (rm_tool_schemas m)
        ++ jopt "model" (Str <$> rm_model m)
        ++ jopt "model_params" (Str <$> rm_model_params m)
        ++ jopt "memory_schema" (Str <$> rm_memory_schema m)
        ++ jmap_skip "capsules" (rm_capsules m)
        ++ jopt "middleware" (Str <$> rm_middleware m)
        ++ jopt "capability_set" (Str <$> rm_capability_set m))%list.

(** ** Canonical JSON

    [canonicalize_value]: every object's members sorted by key, recursively. *)
Definition member_leb (a b : string * Value) : bool := str_leb a.1 b.1.

Fixpoint canonicalize_value (v : Value) : Value :=
  match v with
  | Object m =>
      Object (BTree.from_list
                (sort_by member_leb (map (fun kv => (kv.1, canonicalize_value kv.2)) m)))
  | Array items => Array (map canonicalize_value items)
  | scalar => scalar
  end.

Lemma member_leb_sorted (m : list (string * Value)) :
  BTree.Sorted m -> LebSorted member_leb m.
Proof.
  unfold BTree.Sorted, LebSorted. induction 1 as [|x m Hs IH Hall]; constructor; [done|].
  eapply Forall_impl; [exact Hall|]. intros y Hy. apply str_leb_spec. by left.
Qed.

Lemma map_snd_Sorted {A B} (f : A -> B) (m : list (string * A)) :
  BTree.Sorted m -> BTree.Sorted (map (fun kv => (kv.1, f kv.2)) m).
Proof.
  unfold BTree.Sorted. induction 1 as [|[k v] m Hs IH Hall]; simpl; constructor; [done|].
  apply Forall_map. eapply Forall_impl; [exact Hall|]. done.
Qed.

(** On a map-backed value canonicalization is the identity. *)
Lemma canonicalize_wf (v : Value) : wf_value v = true -> canonicalize_value v = v.
Proof.
  induction v as [| | | |l IH|m IH] using Value_ind; intros Hwf; try done.
  - simpl in *. f_equal. rewrite forallb_forall in Hwf.
    induction IH as [|x l Hx _ IHl]; [done|]. simpl. f_equal.
    + apply Hx, Hwf. by left.
    + apply IHl. intros y Hy. apply Hwf. by right.
  - apply wf_Object in Hwf as [Hs Hv]. simpl. f_equal.
    assert (Hm : map (fun kv => (kv.1, canonicalize_value kv.2)) m = m).
    { assert (Hall : Forall (fun kv => canonicalize_value kv.2 = kv.2) m).
      { rewrite Forall_forall in IH |- *. intros [k v] Hin. apply (IH (k, v) Hin).
        apply (Hv k). apply BTree.get_In_NoDup; [by apply BTree.Sorted_NoDup|done]. }
      clear -Hall. induction Hall as [|[k v] m Hk _ IHm]; [done|]. simpl in *. by rewrite Hk, IHm. }
    rewrite Hm, sort_by_id by (by apply member_leb_sorted). by apply BTree.from_list_id.
Qed.

(** ** Code outside the repository

    The serializer, the hash and the time library, as far as the runtime
    calls them: [serde_json::to_vec] and [from_slice], the text of the error
    [from_value] reports for a type, [format!] with four decimals, the SHA-256 hex digest of the [sha2] crate, chrono's timestamp text and the largest millisecond
    count it represents. *)
Class Codec : Type := {
  sha256_hex : string -> string;
  to_vec : Value -> option string;
  from_slice : string -> result string Value;
  decode_error : string -> Value -> string;
  fixed4 : spec_float -> string;
  time_text : DateTime -> string;
  time_text_millis : DateTime -> string;
  max_millis : Z;
}.

(** What the runtime relies on: a digest is 64 characters long, a
    [serde_json::Value] always serializes, and the epoch is representable. *)
Class CodecLaws `{Codec} : Prop := {
  sha256_hex_length (s : string) : String.length (sha256_hex s) = 64;
  to_vec_total (v : Value) : exists b, to_vec v = Some b;
  max_millis_nonneg : (0 <= max_millis)%Z;
}.

(** No two of the given inputs share a digest. *)
Definition collision_free `{Codec} (inputs : list string) : Prop :=
  Forall (fun a => Forall (fun b => sha256_hex a = sha256_hex b -> a = b) inputs) inputs.

#[export] Instance collision_free_dec `{Codec} (inputs : list string) :
  Decision (collision_free inputs).
Proof. unfold collision_free. apply _. Defined.

Lemma collision_free_use `{Codec} (inputs : list string) (a b : string) :
  collision_free inputs -> a ∈ inputs -> b ∈ inputs -> sha256_hex a = sha256_hex b -> a = b.
Proof.
  unfold collision_free. rewrite Forall_forall. intros Hc Ha Hb.
  specialize (Hc a Ha). rewrite Forall_forall in Hc. auto.
Qed.

Lemma collision_free_mono `{Codec} (l l' : list string) :
  (forall a, a ∈ l' -> a ∈ l) -> collision_free l -> collision_free l'.
Proof.
  intros Hsub Hc. apply Forall_forall. intros a Ha. apply Forall_forall. intros b Hb.
  eapply collision_free_use; eauto.
Qed.
