(* ===== verification/SampleCodec.v ===== *)
(** * A small concrete codec

    A compact JSON printer, a reader for the strings it prints, a 64-bit
    polynomial digest in hex and decimal timestamps: an instance of [Codec]
    that satisfies [CodecLaws], at which the concrete runs of the other files
    evaluate. *)

From Stdlib Require Import String Ascii.
From S2P Require Import Prelude Containers Json Error Record.
Local Open Scope string_scope.

Module Sample.

Definition quoted (s : string) : string := debug_str s.

Fixpoint print (v : Value) : string :=
  match v with
  | Null => "null"
  | Bool b => if b then "true" else "false"
  | Num (PosInt n) => pretty n
  | Num (NegInt z) => pretty z
  | Num (Float (FZero s)) => if s then "-0.0" else "0.0"
  | Num (Float (FFinite s m e)) => (if s then "-" else EmptyString) ++ pretty (N.pos m) ++ "p" ++ pretty e
  | Str s => quoted s
  | Array l => "[" ++ String.concat "," (map print l) ++ "]"
  | Object m => "{" ++ String.concat "," (map (fun kv => quoted kv.1 ++ ":" ++ print kv.2) m) ++ "}"
  end.

(** Reads back a printed string without escapes. *)
Fixpoint until_quote (s : string) : string :=
  match s with
  | String c s' => if Ascii.eqb c "034"%char then EmptyString else String c (until_quote s')
  | EmptyString => EmptyString
  end.

Definition read (s : string) : result string Value :=
  match s with
  | String "034"%char s' => Ok (Str (until_quote s'))
  | _ => Err "expected value"
  end.

Definition mix (h : N) (c : ascii) : N := N.land (h * 257 + N_of_ascii c + 1) u64_max.

Definition digest (s : string) : N := fold_left mix (String.list_ascii_of_string s) 7%N.

Definition hex_digit (d : N) : ascii :=
  ascii_of_N (if (d <? 10)%N then d + 48 else d + 87)%N.

Fixpoint hex (digits : nat) (n : N) : string :=
  match digits with
  | O => EmptyString
  | S k => String (hex_digit (n mod 16)%N) (hex k (n / 16)%N)
  end.

Lemma hex_length (k : nat) (n : N) : String.length (hex k n) = k.
Proof. revert n. induction k as [|k IH]; intros n; simpl; [done|by rewrite IH]. Qed.

#[export] Instance codec : Codec := {
  sha256_hex s := hex 64 (digest s);
  to_vec v := Some (print v);
  from_slice := read;
  fixed4 _ := "0.0000";
  decode_error type _ := "invalid " ++ type;
  time_text t := pretty t;
  time_text_millis t := pretty t;
  max_millis := 8210266876799999;
}.

#[export] Instance codec_laws : CodecLaws.
Proof. split; [intros; apply hex_length|by eexists|done]. Qed.

End Sample.
