(* ===== verification/Journal.v ===== *)
(** * The journal ([rusty-core/src/journal.rs])

    The Flight Recorder: the run's clock, event drafts, the append-only
    journal with its artifact map and chained head hash, snapshots (embedded
    and externalized), the artifact store and the receipt lookups.

    Clocks are shared handles in the source; here they live in a table
    [Clocks] and a handle is an index, so an executor and a journal that share
    one logical clock tick the same entry. *)

From Stdlib Require Import String.
From S2P Require Import Prelude Containers Json Error Record.
Local Open Scope string_scope.

(** ** Clocks *)

(** [Clock]: the wall clock, given by the readings the environment will
    return, or a logical clock with its interior state. *)
Inductive Clock : Type :=
| System (wall : nat -> DateTime) (reads : nat)
| Logical (now_ms tick_ms : N).

Definition i64_max : N := (2 ^ 63 - 1)%N.

Section Clocks.
Context `{Codec}.

(** [DateTime::from_timestamp_millis]. *)
Definition from_timestamp_millis (ms : Z) : option DateTime :=
  if (Z.abs ms <=? max_millis)%Z then Some ms else None.

(** [Clock::now]. *)
Definition now (c : Clock) : DateTime * Clock :=
  match c with
  | System wall reads => (wall reads, System wall (S reads))
  | Logical ms tick =>
      (default 0%Z (from_timestamp_millis (Z.of_N (N.min ms i64_max))),
       Logical (saturating_add ms tick) tick)
  end.

(** [Clock::now_ms]. *)
Definition now_ms (c : Clock) : N * Clock :=
  let '(t, c') := now c in (Z.to_N (Z.max t 0), c').
End Clocks.

(** The shared clock cells; a handle is an index. *)
Abbreviation Clocks := (list Clock).

Definition read_clock `{Codec} (h : nat) (cs : Clocks) : DateTime * Clocks :=
  match cs !! h with
  | Some c => let '(t, c') := now c in (t, <[h := c']> cs)
  | None => (0%Z, cs)
  end.

(** ** Drafts *)

(** [EventDraft]. *)
Record EventDraft : Type := mkDraft {
  d_kind : RunEventKind;
  d_effect : Effect;
  d_node_id : option string;
  d_input : option Value;
  d_output : option Value;
  d_latency_ms : option N;
  d_tokens : option Usage;
  d_cost_usd : option Float64;
  d_status : EventStatus;
  d_parent : option string;
}.

(** [EventDraft::new] and its builder methods. *)
Definition draft_new (k : RunEventKind) (e : Effect) : EventDraft :=
  mkDraft k e None None None None None None StatusOk None.

Definition with_node (n : string) (d : EventDraft) : EventDraft :=
  mkDraft (d_kind d) (d_effect d) (Some n) (d_input d) (d_output d)
    (d_latency_ms d) (d_tokens d) (d_cost_usd d) (d_status d) (d_parent d).
Definition with_input (v : Value) (d : EventDraft) : EventDraft :=
  mkDraft (d_kind d) (d_effect d) (d_node_id d) (Some v) (d_output d)
    (d_latency_ms d) (d_tokens d) (d_cost_usd d) (d_status d) (d_parent d).
Definition with_output (v : Value) (d : EventDraft) : EventDraft :=
  mkDraft (d_kind d) (d_effect d) (d_node_id d) (d_input d) (Some v)
    (d_latency_ms d) (d_tokens d) (d_cost_usd d) (d_status d) (d_parent d).
Definition with_latency_ms (ms : N) (d : EventDraft) : EventDraft :=
  mkDraft (d_kind d) (d_effect d) (d_node_id d) (d_input d) (d_output d)
    (Some ms) (d_tokens d) (d_cost_usd d) (d_status d) (d_parent d).
Definition with_tokens (u : Usage) (d : EventDraft) : EventDraft :=
  mkDraft (d_kind d) (d_effect d) (d_node_id d) (d_input d) (d_output d)
    (d_latency_ms d) (Some u) (d_cost_usd d) (d_status d) (d_parent d).
Definition with_cost_usd (c : Float64) (d : EventDraft) : EventDraft :=
  mkDraft (d_kind d) (d_effect d) (d_node_id d) (d_input d) (d_output d)
    (d_latency_ms d) (d_tokens d) (Some c) (d_status d) (d_parent d).
Definition with_status (s : EventStatus) (d : EventDraft) : EventDraft :=
  mkDraft (d_kind d) (d_effect d) (d_node_id d) (d_input d) (d_output d)
    (d_latency_ms d) (d_tokens d) (d_cost_usd d) s (d_parent d).
Definition with_parent (p : string) (d : EventDraft) : EventDraft :=
  mkDraft (d_kind d) (d_effect d) (d_node_id d) (d_input d) (d_output d)
    (d_latency_ms d) (d_tokens d) (d_cost_usd d) (d_status d) (Some p).

(** ** The journal *)

(** [Journal] with its [JournalInner]; [j_clock] is the clock handle. *)
Record Journal : Type := mkJournal {
  j_run_id : string;
  j_thread_id : string;
  j_clock : nat;
  j_events : list RunEvent;
  j_artifacts : list (string * Value);
  j_head_hash : string;
}.

(** [JournalSnapshot]. *)
Record JournalSnapshot : Type := mkJournalSnapshot {
  js_run_id : string;
  js_thread_id : string;
  js_events : list RunEvent;
  js_artifacts : list (string * Value);
  js_artifact_refs : list (string * ArtifactRef);
  js_head_hash : string;
}.

(** [JournalSnapshot::receipts]: every well-formed receipt, in order. *)
Definition event_receipt (artifacts : list (string * Value)) (e : RunEvent) :
    option EffectReceipt :=
  output ← ev_output e;
  v ← match output with
      | Inline v => Some v
      | Artifact r => BTree.get (ar_sha256 r) artifacts
      end;
  receipt_from_value v.

Definition receipts (s : JournalSnapshot) : list EffectReceipt :=
  omap (event_receipt (js_artifacts s))
    (filter (fun e => ev_kind e = KEffectReceipt) (js_events s)).

(** [JournalSnapshot::find_effect_receipt]. *)
Definition find_effect_receipt (key : string) (s : JournalSnapshot) : option EffectReceipt :=
  snd <$> list_find (fun r => er_idempotency_key r = key) (receipts s).

(** [JournalSnapshot::find_effect_receipt_by_effect_id]. *)
Definition find_effect_receipt_by_effect_id (id : string) (s : JournalSnapshot) :
    option EffectReceipt :=
  snd <$> list_find (fun r => er_effect_id r = Some id) (receipts s).

Section Journal.
Context `{Codec}.

(** [Journal::new]. *)
Definition journal_new (run_id thread_id : string) (clock : nat) : Journal :=
  mkJournal run_id thread_id clock [] [] (sha256_hex EmptyString).

(** [store_payload]: inline, or promoted to the artifact map when its
    serialization exceeds [INLINE_PAYLOAD_MAX_BYTES]. *)
Definition store_payload (artifacts : list (string * Value)) (v : Value) :
    PayloadRef * list (string * Value) :=
  match to_vec v with
  | None => (Inline v, artifacts)
  | Some bytes =>
      if (String.length bytes <=? INLINE_PAYLOAD_MAX_BYTES)%nat
      then (Inline v, artifacts)
      else
        let r := mkArtifactRef (sha256_hex bytes) (N.of_nat (String.length bytes)) in
        (Artifact r,
         match BTree.get (ar_sha256 r) artifacts with
         | Some _ => artifacts
         | None => BTree.insert (ar_sha256 r) v artifacts
         end)
  end.

(** [draft.input.map(|value| store_payload(..))]. *)
Definition store_payload_opt (artifacts : list (string * Value)) (o : option Value) :
    option PayloadRef * list (string * Value) :=
  match o with
  | None => (None, artifacts)
  | Some v => let '(p, a) := store_payload artifacts v in (Some p, a)
  end.

(** [canonicalized_for_hash]. *)
Definition canonicalized_payload (p : option PayloadRef) : option PayloadRef :=
  match p with Some (Inline v) => Some (Inline (canonicalize_value v)) | other => other end.

Definition canonicalized_for_hash (e : RunEvent) : RunEvent :=
  mkEvent (ev_id e) (ev_run_id e) (ev_thread_id e) (ev_node_id e) (ev_seq e) (ev_kind e)
    (ev_effect e) (canonicalized_payload (ev_input e)) (canonicalized_payload (ev_output e))
    (ev_latency_ms e) (ev_tokens e) (ev_cost_usd e) (ev_status e) (ev_parent e)
    (ev_recorded_at e).

(** The bytes the chain covers: [serde_json::to_vec] of the canonical event. *)
Definition event_bytes (e : RunEvent) : option string :=
  to_vec (event_value time_text (canonicalized_for_hash e)).

(** [chained_hash]. *)
Definition chained_hash (prev : string) (e : RunEvent) : res string :=
  bytes ← ok_or (event_bytes e) (ESerialization "event");
  Ok (sha256_hex (prev ++ bytes)).

(** The chain step of [Journal::record], which never loses the event. *)
Definition record_hash (prev : string) (e : RunEvent) : string :=
  match event_bytes e with
  | Some bytes => sha256_hex (prev ++ bytes)
  | None => sha256_hex (prev ++ "!unhashable")
  end.

(** [recompute_head_hash], from a given head. *)
Fixpoint chain_from (head : string) (events : list RunEvent) : res string :=
  match events with
  | [] => Ok head
  | e :: rest => head' ← chained_hash head e; chain_from head' rest
  end.

Definition recompute_head_hash (events : list RunEvent) : res string :=
  chain_from (sha256_hex EmptyString) events.

(** [Journal::record] at a given timestamp: the appended event. *)
Definition append_event (recorded_at : DateTime) (d : EventDraft) (j : Journal) :
    string * Journal :=
  let seq := N.of_nat (length (j_events j)) in
  let id := j_run_id j ++ ":" ++ pretty seq in
  let '(input, a1) := store_payload_opt (j_artifacts j) (d_input d) in
  let '(output, a2) := store_payload_opt a1 (d_output d) in
  let event := mkEvent id (j_run_id j) (j_thread_id j) (d_node_id d) seq (d_kind d)
                 (d_effect d) input output (d_latency_ms d) (d_tokens d) (d_cost_usd d)
                 (d_status d) (d_parent d) recorded_at in
  (id, mkJournal (j_run_id j) (j_thread_id j) (j_clock j) (j_events j ++ [event])%list a2
         (record_hash (j_head_hash j) event)).

(** [Journal::record]. *)
Definition record (d : EventDraft) (cs : Clocks) (j : Journal) :
    string * Clocks * Journal :=
  let '(recorded_at, cs') := read_clock (j_clock j) cs in
  let '(id, j') := append_event recorded_at d j in
  (id, cs', j').

(** [Journal::events_from]. *)
Definition events_from (from : nat) (j : Journal) : list RunEvent := drop from (j_events j).

(** [Journal::head_ref]. *)
Definition head_ref (j : Journal) : JournalRef :=
  mkJournalRef (N.of_nat (length (j_events j))) (j_head_hash j).

(** [Journal::snapshot]. *)
Definition snapshot (j : Journal) : JournalSnapshot :=
  mkJournalSnapshot (j_run_id j) (j_thread_id j) (j_events j) (j_artifacts j) []
    (j_head_hash j).

(** [Journal::from_snapshot]. *)
Definition from_snapshot (s : JournalSnapshot) (clock : nat) : res Journal :=
  match js_artifact_refs s with
  | _ :: _ =>
      Err (ESerialization ("journal snapshot references an external artifact store; "
                           ++ "load it with Journal::from_snapshot_with_store"))
  | [] =>
      head ← recompute_head_hash (js_events s);
      if String.eqb head (js_head_hash s)
      then Ok (mkJournal (js_run_id s) (js_thread_id s) clock (js_events s)
                 (js_artifacts s) head)
      else Err (ESerialization ("journal snapshot head hash mismatch: events recompute to "
                                ++ head ++ ", snapshot claims " ++ js_head_hash s))
  end.

(** [Journal::resolve]. *)
Definition resolve (p : PayloadRef) (j : Journal) : option Value :=
  match p with
  | Inline v => Some v
  | Artifact r => BTree.get (ar_sha256 r) (j_artifacts j)
  end.

(** [Journal::record_effect_receipt]. *)
Definition record_effect_receipt (r : EffectReceipt) (parent : option string)
    (cs : Clocks) (j : Journal) : string * Clocks * Journal :=
  let draft := with_output (receipt_value r) (draft_new KEffectReceipt Idempotent) in
  record (match parent with Some p => with_parent p draft | None => draft end) cs j.
End Journal.

(** ** Artifact stores *)

(** The [ArtifactStore] trait over a store state [St]. *)
Class ArtifactStore (St : Type) : Type := {
  store_put : string -> St -> res ArtifactRef * St;
  store_get : string -> St -> res string;
  store_contains : string -> St -> res bool;
  store_delete : string -> St -> res bool * St;
}.

(** Its documented contract. [healthy] holds of a store whose medium works and
    whose objects are uncorrupted; there a put succeeds with the content
    address and makes the bytes readable under it, an object already there
    staying as it is, and other addresses are untouched. A get never returns
    bytes that do not re-hash to the address asked for. *)
Class ArtifactStoreLaws (St : Type) `{Codec, ArtifactStore St} : Type := {
  healthy : St -> Prop;
  put_healthy bytes st :
    healthy st ->
    exists st', store_put bytes st
      = (Ok (mkArtifactRef (sha256_hex bytes) (N.of_nat (String.length bytes))), st')
      /\ healthy st'
      /\ forall sha, store_get sha st' =
           (if String.eqb sha (sha256_hex bytes) && negb (is_ok (store_get sha st))
            then Ok bytes else store_get sha st);
  get_integrity sha st bytes :
    store_get sha st = Ok bytes -> sha256_hex bytes = sha;
}.

(** The file system under [FileArtifactStore]: file contents by name, and the
    operations the environment makes fail, with the error it reports. *)
Inductive FsOp : Type := FsStat | FsMkdir | FsWrite | FsRead | FsRemove.

Record FileArtifactStore : Type := mkFileStore {
  fas_files : gmap string string;
  fas_fault : FsOp -> string -> option string;
}.

(** [artifact_io_error]. *)
Definition artifact_io_error (context e : string) : RustyError :=
  ESerialization (context ++ ": " ++ e).

Definition fs_try (st : FileArtifactStore) (op : FsOp) (path context : string) : res unit :=
  match fas_fault st op path with
  | Some e => Err (artifact_io_error context e)
  | None => Ok ()
  end.

Section FileStore.
Context `{Codec}.

(** [FileArtifactStore::put]. *)
Definition file_put (bytes : string) (st : FileArtifactStore) :
    res ArtifactRef * FileArtifactStore :=
  let r := mkArtifactRef (sha256_hex bytes) (N.of_nat (String.length bytes)) in
  let path := ar_sha256 r in
  match fs_try st FsStat path ("stat artifact `" ++ path ++ "`") with
  | Err e => (Err e, st)
  | Ok _ =>
      match fas_files st !! path with
      | Some _ => (Ok r, st)
      | None =>
          match fs_try st FsMkdir path "create artifact dir";;
                fs_try st FsWrite path "write" with
          | Err e => (Err e, st)
          | Ok _ => (Ok r, mkFileStore (<[path := bytes]> (fas_files st)) (fas_fault st))
          end
      end
  end.

(** [FileArtifactStore::get]. *)
Definition file_get (sha : string) (st : FileArtifactStore) : res string :=
  fs_try st FsRead sha ("read artifact `" ++ sha ++ "`");;
  bytes ← ok_or (fas_files st !! sha)
            (artifact_io_error ("read artifact `" ++ sha ++ "`") "No such file or directory");
  let actual := sha256_hex bytes in
  if String.eqb actual sha then Ok bytes
  else Err (ESerialization ("artifact integrity failure: `" ++ sha ++ "` re-hashes to `"
                            ++ actual ++ "`; the stored bytes are corrupt")).

(** [FileArtifactStore::contains]. *)
Definition file_contains (sha : string) (st : FileArtifactStore) : res bool :=
  fs_try st FsStat sha ("stat artifact `" ++ sha ++ "`");;
  Ok (bool_decide (is_Some (fas_files st !! sha))).

(** [FileArtifactStore::delete]: a missing file is [Ok(false)]. *)
Definition file_delete (sha : string) (st : FileArtifactStore) :
    res bool * FileArtifactStore :=
  match fas_files st !! sha with
  | None => (Ok false, st)
  | Some _ =>
      match fs_try st FsRemove sha ("delete artifact `" ++ sha ++ "`") with
      | Err e => (Err e, st)
      | Ok _ => (Ok true, mkFileStore (delete sha (fas_files st)) (fas_fault st))
      end
  end.

#[export] Instance file_artifact_store : ArtifactStore FileArtifactStore := {
  store_put := file_put;
  store_get := file_get;
  store_contains := file_contains;
  store_delete := file_delete;
}.
End FileStore.

Section Externalized.
Context `{Codec} {St : Type} `{!ArtifactStore St}.

(** The loop of [Journal::snapshot_externalized]; a value that does not
    serialize panics in the source ([None]). *)
Fixpoint spill (artifacts : list (string * Value)) (refs : list (string * ArtifactRef))
    (st : St) : option (res (list (string * ArtifactRef)) * St) :=
  match artifacts with
  | [] => Some (Ok refs, st)
  | (sha, v) :: rest =>
      bytes ← to_vec v;
      match store_put bytes st with
      | (Err e, st') => Some (Err e, st')
      | (Ok r, st') => spill rest (BTree.insert sha r refs) st'
      end
  end.

(** [Journal::snapshot_externalized]. *)
Definition snapshot_externalized (j : Journal) (st : St) :
    option (res JournalSnapshot * St) :=
  let s := snapshot j in
  out ← spill (js_artifacts s) (js_artifact_refs s) st;
  Some (match out with
        | (Err e, st') => (Err e, st')
        | (Ok refs, st') =>
            (Ok (mkJournalSnapshot (js_run_id s) (js_thread_id s) (js_events s) [] refs
                   (js_head_hash s)), st')
        end).

(** The loop of [Journal::from_snapshot_with_store]. *)
Fixpoint embed (refs : list (string * ArtifactRef)) (artifacts : list (string * Value))
    (st : St) : res (list (string * Value)) :=
  match refs with
  | [] => Ok artifacts
  | (sha, r) :: rest =>
      bytes ← store_get (ar_sha256 r) st;
      match from_slice bytes with
      | Err e => Err (ESerialization ("artifact `" ++ sha ++ "` is not valid JSON: " ++ e))
      | Ok v => embed rest (BTree.insert sha v artifacts) st
      end
  end.

(** [Journal::from_snapshot_with_store]. *)
Definition from_snapshot_with_store (s : JournalSnapshot) (st : St) (clock : nat) :
    res Journal :=
  artifacts ← embed (js_artifact_refs s) (js_artifacts s) st;
  from_snapshot (mkJournalSnapshot (js_run_id s) (js_thread_id s) (js_events s) artifacts
                   [] (js_head_hash s)) clock.
End Externalized.
