(* ===== verification/JournalFacts.v ===== *)
(** * What the journal guarantees

    The append invariant and its consequences: sequence numbers and ids,
    head-hash recomputation, tamper evidence, payload resolution, snapshot
    round trips (embedded and through an artifact store), receipt lookup, and
    the readings of the logical clock. *)

From Stdlib Require Import String.
From S2P Require Import Prelude Containers Json Error Record SampleCodec Journal.

(** ** The invariant *)
Section Invariant.
Context `{Codec}.

(** An event at index [i] of the journal of a run. *)
Definition event_placed (run thread : string) (i : nat) (e : RunEvent) : Prop :=
  ev_seq e = N.of_nat i /\ ev_id e = (run ++ ":" ++ pretty (N.of_nat i))%string
  /\ ev_run_id e = run /\ ev_thread_id e = thread.

(** An artifact is filed under the digest of its own serialization. *)
Definition content_addressed (artifacts : list (string * Value)) : Prop :=
  forall sha v, BTree.get sha artifacts = Some v ->
    exists bytes, to_vec v = Some bytes /\ sha = sha256_hex bytes.

(** The payload is embedded or its artifact is present. *)
Definition payload_present (artifacts : list (string * Value)) (p : option PayloadRef) : Prop :=
  match p with
  | Some (Artifact r) => is_Some (BTree.get (ar_sha256 r) artifacts)
  | _ => True
  end.

Record journal_ok (j : Journal) : Prop := {
  ok_placed : forall i e, j_events j !! i = Some e ->
    event_placed (j_run_id j) (j_thread_id j) i e;
  ok_head : recompute_head_hash (j_events j) = Ok (j_head_hash j);
  ok_sorted : BTree.Sorted (j_artifacts j);
  ok_addressed : content_addressed (j_artifacts j);
  ok_present : forall e, e ∈ j_events j ->
    payload_present (j_artifacts j) (ev_input e)
    /\ payload_present (j_artifacts j) (ev_output e);
}.

(** A sequence of appends. *)
Definition record_all (ds : list EventDraft) (cs : Clocks) (j : Journal) : Clocks * Journal :=
  fold_left (fun s d => let '(_, cs', j') := record d s.1 s.2 in (cs', j')) ds (cs, j).

(** Artifacts only accumulate. *)
Definition artifacts_grow (a a' : list (string * Value)) : Prop :=
  forall sha v, BTree.get sha a = Some v -> BTree.get sha a' = Some v.

Lemma chain_from_app (head : string) (es es' : list RunEvent) :
  chain_from head (es ++ es') = (head' ← chain_from head es; chain_from head' es').
Proof.
  revert head. induction es as [|e es IH]; intros head; [done|].
  simpl. destruct (chained_hash head e); [apply IH|done].
Qed.

Lemma store_payload_spec (a : list (string * Value)) (v : Value) (p : PayloadRef)
    (a' : list (string * Value)) :
  store_payload a v = (p, a') -> BTree.Sorted a -> content_addressed a ->
  BTree.Sorted a' /\ content_addressed a' /\ artifacts_grow a a'
  /\ payload_present a' (Some p).
Proof.
  unfold store_payload. intros Hp Hs Hc.
  assert (Hrefl : artifacts_grow a a) by by intros ? ?.
  destruct (to_vec v) as [b|] eqn:Hb; [|by simplify_eq].
  destruct (_ <=? _)%nat; [by simplify_eq|].
  destruct (BTree.get _ a) as [w|] eqn:Hg; simplify_eq; simpl in Hg.
  - split_and!; [done..|]. by exists w.
  - split_and!.
    + by apply BTree.insert_Sorted.
    + intros sha u. rewrite BTree.get_insert. simpl.
      destruct (String.eqb_spec sha (sha256_hex b)) as [->|]; [|by apply Hc].
      intros [= <-]. eauto.
    + intros sha u Hu. rewrite BTree.get_insert. simpl.
      destruct (String.eqb_spec sha (sha256_hex b)) as [->|]; [congruence|done].
    + simpl. rewrite BTree.get_insert, String.eqb_refl. eauto.
Qed.

Lemma store_payload_opt_spec (a : list (string * Value)) (o : option Value)
    (p : option PayloadRef) (a' : list (string * Value)) :
  store_payload_opt a o = (p, a') -> BTree.Sorted a -> content_addressed a ->
  BTree.Sorted a' /\ content_addressed a' /\ artifacts_grow a a' /\ payload_present a' p.
Proof.
  unfold store_payload_opt. destruct o as [v|]; [|intros [= <- <-] ? ?; by split_and!; [..|intros ? ?|]].
  destruct (store_payload a v) as [p' a2] eqn:Hsp. intros ? ? ?. simplify_eq.
  by eapply store_payload_spec.
Qed.

Lemma payload_present_grow (a a' : list (string * Value)) (p : option PayloadRef) :
  artifacts_grow a a' -> payload_present a p -> payload_present a' p.
Proof.
  intros Hg. destruct p as [[v|r]|]; simpl; [done| |done].
  intros [v Hv]. exists v. by apply Hg.
Qed.

Lemma journal_new_ok (run thread : string) (h : nat) : journal_ok (journal_new run thread h).
Proof. split; simpl; try done. - constructor. - intros e He. by apply elem_of_nil in He. Qed.

(** The shape of one append. *)
Lemma append_event_inv (t : DateTime) (d : EventDraft) (j j' : Journal) (id : string) :
  append_event t d j = (id, j') ->
  exists input output a1,
    store_payload_opt (j_artifacts j) (d_input d) = (input, a1)
    /\ store_payload_opt a1 (d_output d) = (output, j_artifacts j')
    /\ let e := mkEvent id (j_run_id j) (j_thread_id j) (d_node_id d)
                  (N.of_nat (length (j_events j))) (d_kind d) (d_effect d) input output
                  (d_latency_ms d) (d_tokens d) (d_cost_usd d) (d_status d) (d_parent d) t in
       j_events j' = j_events j ++ [e] /\ j_head_hash j' = record_hash (j_head_hash j) e
       /\ j_run_id j' = j_run_id j /\ j_thread_id j' = j_thread_id j
       /\ j_clock j' = j_clock j
       /\ id = (j_run_id j ++ ":" ++ pretty (N.of_nat (length (j_events j))))%string.
Proof.
  unfold append_event.
  destruct (store_payload_opt (j_artifacts j) (d_input d)) as [input a1] eqn:E1.
  destruct (store_payload_opt a1 (d_output d)) as [output a2] eqn:E2.
  intros [= <- <-]. exists input, output, a1. by repeat split.
Qed.

Section Laws.
Context `{!CodecLaws}.

Lemma chained_hash_record (prev : string) (e : RunEvent) :
  chained_hash prev e = Ok (record_hash prev e).
Proof.
  unfold chained_hash, record_hash, event_bytes.
  destruct (to_vec_total (event_value time_text (canonicalized_for_hash e))) as [b Hb].
  by rewrite Hb.
Qed.

Lemma append_event_ok (t : DateTime) (d : EventDraft) (j j' : Journal) (id : string) :
  append_event t d j = (id, j') -> journal_ok j -> journal_ok j'.
Proof.
  intros Happ [Hpl Hh Hs Hc Hpr].
  apply append_event_inv in Happ
    as (input & output & a1 & E1 & E2 & Hev & Hhd & Hr & Ht & _ & Hid).
  destruct (store_payload_opt_spec _ _ _ _ E1 Hs Hc) as (Hs1 & Hc1 & Hg1 & Hp1).
  destruct (store_payload_opt_spec _ _ _ _ E2 Hs1 Hc1) as (Hs2 & Hc2 & Hg2 & Hp2).
  split; [| |done|done|]; rewrite ?Hr, ?Ht, ?Hev.
  - intros i e [Hi|[Hi He]]%lookup_app_Some; [by apply Hpl|].
    apply list_lookup_singleton_Some in He as [Hi' <-].
    assert (i = length (j_events j)) as -> by lia. by repeat split.
  - unfold recompute_head_hash in *. rewrite chain_from_app, Hh, Hhd. simpl.
    by rewrite chained_hash_record.
  - intros e [He| ->%list_elem_of_singleton]%elem_of_app.
    + destruct (Hpr e He) as [Hi Ho].
      split; (eapply payload_present_grow; [exact Hg2|]);
        (eapply payload_present_grow; [exact Hg1|]); done.
    + simpl. split; [|done]. by eapply payload_present_grow.
Qed.

Lemma record_ok (d : EventDraft) (cs cs' : Clocks) (j j' : Journal) (id : string) :
  record d cs j = (id, cs', j') -> journal_ok j -> journal_ok j'.
Proof.
  unfold record. destruct (read_clock (j_clock j) cs) as [t cs2].
  destruct (append_event t d j) as [id2 j2] eqn:Happ. intros [= <- <- <-].
  by eapply append_event_ok.
Qed.

Lemma record_all_ok (ds : list EventDraft) (cs cs' : Clocks) (j j' : Journal) :
  record_all ds cs j = (cs', j') -> journal_ok j -> journal_ok j'.
Proof.
  unfold record_all. revert cs j. induction ds as [|d ds IH]; intros cs j Hr Hok; simpl in Hr.
  - by simplify_eq.
  - destruct (record d cs j) as [[id cs2] j2] eqn:E. eapply IH; [exact Hr|].
    by eapply record_ok.
Qed.
End Laws.
End Invariant.

#[export] Hint Resolve journal_new_ok record_all_ok record_ok append_event_ok : rusty.

(** ** Runs of the journal *)
Section Properties.
Context `{Codec}.

(** The strings the chain hashes over [events], from [head]. *)
Fixpoint chain_inputs (head : string) (events : list RunEvent) : list string :=
  match events with
  | [] => []
  | e :: rest =>
      match event_bytes e with
      | Some bytes =>
          (head ++ bytes)%string :: chain_inputs (sha256_hex (head ++ bytes)%string) rest
      | None => []
      end
  end.

(** Everything the verification of [events] hashes. *)
Definition verified_inputs (events : list RunEvent) : list string :=
  EmptyString :: chain_inputs (sha256_hex EmptyString) events.

Context `{!CodecLaws}.

(** C9: however many events are appended to a fresh journal, with whatever
    drafts and clocks, event [i] carries sequence number [i], the id
    [run:i] and the journal's run and thread; the head hash is the one the
    verifier recomputes from the events; every artifact is filed under the
    digest of its own serialization; and every payload reference of every
    event resolves. *)
Theorem journal_invariant (run thread : string) (h : nat) (ds : list EventDraft) (cs : Clocks) :
  let j := (record_all ds cs (journal_new run thread h)).2 in
  length (j_events j) = length ds /\ journal_ok j.
Proof.
  simpl. destruct (record_all ds cs (journal_new run thread h)) as [cs' j] eqn:E. simpl.
  split; [|eauto with rusty].
  assert (Hlen : forall ds cs cs' j0 j, record_all ds cs j0 = (cs', j) ->
            length (j_events j) = length (j_events j0) + length ds).
  { clear. unfold record_all. induction ds as [|d ds IH]; intros cs cs' j0 j E; simpl in E.
    - simplify_eq. simpl. lia.
    - destruct (record d cs j0) as [[id cs2] j2] eqn:E2.
      apply IH in E. revert E2. unfold record.
      destruct (read_clock (j_clock j0) cs) as [t cs3].
      destruct (append_event t d j0) as [id2 j3] eqn:E3. intros ?. simplify_eq.
      apply append_event_inv in E3 as (? & ? & ? & _ & _ & Hev & _).
      rewrite E, Hev, length_app. simpl. lia. }
  apply Hlen in E. by rewrite E.
Qed.

(** A journal built by appends survives its own export: loading the
    snapshot verifies and gives the same journal back, on the loader's
    clock. *)
Theorem snapshot_roundtrip (j : Journal) (h : nat) :
  journal_ok j ->
  from_snapshot (snapshot j) h
  = Ok (mkJournal (j_run_id j) (j_thread_id j) h (j_events j) (j_artifacts j) (j_head_hash j)).
Proof.
  intros [_ Hh _ _ _]. unfold from_snapshot, snapshot. simpl. rewrite Hh. simpl.
  by rewrite String.eqb_refl.
Qed.

Lemma chain_inputs_snoc (head : string) (es : list RunEvent) (e : RunEvent) (h b : string) :
  chain_from head es = Ok h -> event_bytes e = Some b ->
  chain_inputs head (es ++ [e]) = chain_inputs head es ++ [(h ++ b)%string].
Proof.
  revert head. induction es as [|e' es IH]; intros head Hc Hb; simpl in *.
  - injection Hc as ->. by rewrite Hb.
  - unfold chained_hash in Hc. destruct (event_bytes e') as [b'|]; simpl in *; [|done].
    by rewrite IH.
Qed.

Lemma string_app_inv (a b x y : string) :
  String.length a = String.length b -> (a ++ x)%string = (b ++ y)%string -> a = b /\ x = y.
Proof.
  revert b. induction a as [|c a IH]; intros [|c' b] Hl He; simpl in *; try lia; [done|].
  injection He as <- He. injection Hl as Hl. by destruct (IH b Hl He) as [<- <-].
Qed.

(** A head over at least one event is the digest of a head and that event's
    bytes. *)
Lemma chain_from_snoc (es : list RunEvent) (e : RunEvent) (h : string) :
  recompute_head_hash (es ++ [e]) = Ok h ->
  exists h0 b, recompute_head_hash es = Ok h0 /\ event_bytes e = Some b
    /\ h = sha256_hex (h0 ++ b)%string.
Proof.
  unfold recompute_head_hash. rewrite chain_from_app. intros (h0 & Hh0 & Hc)%bind_Ok.
  simpl in Hc. unfold chained_hash in Hc. destruct (event_bytes e) as [b|]; [|done].
  simpl in Hc. injection Hc as <-. eauto.
Qed.

Lemma recompute_length (es : list RunEvent) (h : string) :
  recompute_head_hash es = Ok h -> String.length h = 64.
Proof.
  destruct es as [|e es _] using rev_ind.
  - intros [= <-]. apply sha256_hex_length.
  - intros (h0 & b & _ & _ & ->)%chain_from_snoc. apply sha256_hex_length.
Qed.

Lemma verified_snoc (es : list RunEvent) (e : RunEvent) (h b : string) :
  recompute_head_hash es = Ok h -> event_bytes e = Some b ->
  (h ++ b)%string ∈ verified_inputs (es ++ [e])
  /\ (forall a, a ∈ verified_inputs es -> a ∈ verified_inputs (es ++ [e])).
Proof.
  intros Hh Hb. unfold verified_inputs. rewrite (chain_inputs_snoc _ _ _ _ _ Hh Hb).
  split; [set_solver|]. intros a. rewrite !elem_of_cons, elem_of_app. tauto.
Qed.

Lemma empty_head_absurd (h b x : string) :
  String.length h = 64 -> x = (h ++ b)%string -> x = EmptyString -> False.
Proof. intros Hl -> He. destruct h; [done|discriminate He]. Qed.

(** C32: tamper evidence. Two event sequences with the same verified head
    are the same evidence byte for byte, unless the hashing of one of the
    two sequences itself exhibits a SHA-256 collision. *)
Theorem head_hash_binds (es1 es2 : list RunEvent) (h : string) :
  recompute_head_hash es1 = Ok h -> recompute_head_hash es2 = Ok h ->
  collision_free (verified_inputs es1 ++ verified_inputs es2) ->
  event_bytes <$> es1 = event_bytes <$> es2.
Proof.
  revert es2 h. induction es1 as [|e1 es1 IH] using rev_ind; intros es2 h H1 H2 Hc.
  - destruct es2 as [|e2 es2 _] using rev_ind; [done|exfalso].
    injection H1 as <-. apply chain_from_snoc in H2 as (h2 & b2 & Hh2 & Hb2 & Heq).
    destruct (verified_snoc _ _ _ _ Hh2 Hb2) as [Hin _].
    apply recompute_length in Hh2. eapply empty_head_absurd; [exact Hh2|reflexivity|].
    symmetry. eapply collision_free_use; [exact Hc| |by apply elem_of_app; right|done].
    apply elem_of_app. left. apply elem_of_cons. by left.
  - apply chain_from_snoc in H1 as (h1 & b1 & Hh1 & Hb1 & ->).
    destruct (verified_snoc _ _ _ _ Hh1 Hb1) as [Hin1 Hsub1].
    destruct es2 as [|e2 es2 _] using rev_ind.
    + exfalso. injection H2 as Heq.
      apply recompute_length in Hh1. eapply empty_head_absurd; [exact Hh1|reflexivity|].
      eapply collision_free_use; [exact Hc|by apply elem_of_app; left| |done].
      apply elem_of_app. right. apply elem_of_cons. by left.
    + apply chain_from_snoc in H2 as (h2 & b2 & Hh2 & Hb2 & Heq).
      destruct (verified_snoc _ _ _ _ Hh2 Hb2) as [Hin2 Hsub2].
      assert (Happ : (h1 ++ b1)%string = (h2 ++ b2)%string)
        by (eapply collision_free_use; [exact Hc|apply elem_of_app; by left
                                       |apply elem_of_app; by right|done]).
      apply string_app_inv in Happ as [<- <-];
        [|by erewrite (recompute_length _ _ Hh1), (recompute_length _ _ Hh2)].
      rewrite !fmap_app. simpl. rewrite Hb1, Hb2. f_equal.
      eapply IH; [done..|]. eapply collision_free_mono; [|exact Hc].
      intros a. rewrite !elem_of_app. intros [Ha|Ha]; eauto.
Qed.
End Properties.

(** ** Payloads and receipts *)
Section Payloads.
Context `{Codec}.

(** The serializations behind an artifact map and behind a draft. *)
Definition artifact_bytes (a : list (string * Value)) : list string :=
  omap (fun kv => to_vec kv.2) a.
Definition draft_bytes (d : EventDraft) : list string :=
  omap to_vec (option_list (d_input d) ++ option_list (d_output d)).

(** [resolve] against an artifact map. *)
Definition resolve_in (a : list (string * Value)) (p : PayloadRef) : option Value :=
  match p with Inline v => Some v | Artifact r => BTree.get (ar_sha256 r) a end.

(** The payload reads back as a value with the serialization of [v]. *)
Definition reads_back (a : list (string * Value)) (p : option PayloadRef) (v : Value) : Prop :=
  exists q w, p = Some q /\ resolve_in a q = Some w /\ to_vec w = to_vec v.

Lemma reads_back_grow (a a' : list (string * Value)) (p : option PayloadRef) (v : Value) :
  artifacts_grow a a' -> reads_back a p v -> reads_back a' p v.
Proof.
  intros Hg (q & w & -> & Hr & Hw). exists q, w. split_and!; [done| |done].
  destruct q; simpl in *; auto.
Qed.

Lemma artifact_bytes_get (a : list (string * Value)) (sha : string) (v : Value) (b : string) :
  BTree.get sha a = Some v -> to_vec v = Some b -> b ∈ artifact_bytes a.
Proof.
  intros Hg%BTree.get_Some_In Hb. apply list_elem_of_omap. by exists (sha, v).
Qed.

(** What a stored payload adds to the map. *)
Lemma store_payload_new (a a' : list (string * Value)) (v : Value) (p : PayloadRef)
    (sha : string) (w : Value) :
  store_payload a v = (p, a') -> BTree.get sha a' = Some w ->
  BTree.get sha a = Some w \/ w = v.
Proof.
  unfold store_payload. destruct (to_vec v) as [b|]; [|intros [= <- <-]; auto].
  destruct (_ <=? _)%nat; [intros [= <- <-]; auto|].
  destruct (BTree.get _ a); intros [= <- <-]; [auto|].
  rewrite BTree.get_insert. destruct (String.eqb _ _); [|auto]. intros [= <-]. auto.
Qed.

Lemma store_payload_reads_back (a a' : list (string * Value)) (v : Value) (p : PayloadRef)
    (L : list string) :
  store_payload a v = (p, a') -> content_addressed a -> collision_free L ->
  (forall b, b ∈ artifact_bytes a -> b ∈ L) -> (forall b, to_vec v = Some b -> b ∈ L) ->
  reads_back a' (Some p) v.
Proof.
  intros Hp Hc Hf Ha Hv. unfold store_payload in Hp.
  destruct (to_vec v) as [b|] eqn:Hb; [|injection Hp as <- <-; exists (Inline v), v; done].
  destruct (_ <=? _)%nat; [injection Hp as <- <-; exists (Inline v), v; done|].
  simpl in Hp.
  destruct (BTree.get (sha256_hex b) a) as [w|] eqn:Hg; injection Hp as <- <-;
    eexists _, _; (split; [done|]); simpl.
  - split; [exact Hg|]. destruct (Hc _ _ Hg) as (b' & Hb' & Hsha). rewrite Hb', Hb. f_equal.
    eapply collision_free_use; [exact Hf| |by apply Hv|done].
    apply Ha. by eapply artifact_bytes_get.
  - rewrite BTree.get_insert, String.eqb_refl. done.
Qed.

(** Nothing recorded is lost: the payloads of a recorded draft read
    back from the journal with exactly the bytes they were recorded with,
    whether they were kept inline or promoted to an artifact (as long as
    their digests do not collide). *)
Theorem recorded_payloads_resolve (t : DateTime) (d : EventDraft) (j j' : Journal)
    (id : string) :
  journal_ok j -> append_event t d j = (id, j') ->
  collision_free (artifact_bytes (j_artifacts j) ++ draft_bytes d) ->
  exists e, last (j_events j') = Some e
    /\ (forall v, d_input d = Some v -> reads_back (j_artifacts j') (ev_input e) v)
    /\ (forall v, d_output d = Some v -> reads_back (j_artifacts j') (ev_output e) v).
Proof.
  intros [_ _ Hs Hc _] Happ Hf.
  apply append_event_inv in Happ as (i & o & a1 & E1 & E2 & Hev & _).
  destruct (store_payload_opt_spec _ _ _ _ E1 Hs Hc) as (Hs1 & Hc1 & _ & _).
  destruct (store_payload_opt_spec _ _ _ _ E2 Hs1 Hc1) as (_ & _ & Hg2 & _).
  eexists. split; [by rewrite Hev, last_snoc|]. simpl. unfold draft_bytes in Hf.
  split; intros v Hv.
  - rewrite Hv in E1, Hf. simpl in E1.
    destruct (store_payload (j_artifacts j) v) as [p a] eqn:Hp. simplify_eq.
    eapply reads_back_grow; [exact Hg2|].
    eapply store_payload_reads_back; [exact Hp|done|exact Hf| |].
    + intros b Hb. apply elem_of_app. by left.
    + intros b Hb. apply elem_of_app. right. csimpl. rewrite Hb. by left.
  - rewrite Hv in E2, Hf. simpl in E2.
    destruct (store_payload a1 v) as [p a] eqn:Hp. simplify_eq.
    eapply store_payload_reads_back; [exact Hp|done|exact Hf| |].
    + intros b (kw & Hin & Hb)%list_elem_of_omap. destruct kw as [sha w]. simpl in Hb.
      apply BTree.get_In_NoDup in Hin; [|by apply BTree.Sorted_NoDup].
      destruct (d_input d) as [u|]; simpl in E1.
      * destruct (store_payload (j_artifacts j) u) as [pu au] eqn:Hu. simplify_eq.
        apply elem_of_app. destruct (store_payload_new _ _ _ _ _ _ Hu Hin) as [Hg| ->].
        -- left. by eapply artifact_bytes_get.
        -- right. csimpl. rewrite Hb. by left.
      * simplify_eq. apply elem_of_app. left. by eapply artifact_bytes_get.
    + intros b Hb. apply elem_of_app. right. rewrite omap_app. apply elem_of_app. right.
      csimpl. rewrite Hb. by left.
Qed.

(** The artifact map is outside the hash chain: a snapshot that
    verifies keeps verifying after its artifact map is replaced by any
    other, an empty one included. *)
Theorem artifacts_outside_chain (s : JournalSnapshot) (h : nat) (j : Journal)
    (a : list (string * Value)) :
  from_snapshot s h = Ok j ->
  from_snapshot (mkJournalSnapshot (js_run_id s) (js_thread_id s) (js_events s) a
                   (js_artifact_refs s) (js_head_hash s)) h
  = Ok (mkJournal (j_run_id j) (j_thread_id j) (j_clock j) (j_events j) a (j_head_hash j)).
Proof.
  unfold from_snapshot. simpl. destruct (js_artifact_refs s); [|done].
  destruct (recompute_head_hash (js_events s)) as [head|]; simpl; [|done].
  destruct (String.eqb head (js_head_hash s)); [|done]. by intros [= <-].
Qed.

Lemma event_receipt_grow (a a' : list (string * Value)) (e : RunEvent) :
  artifacts_grow a a' -> payload_present a (ev_output e) ->
  event_receipt a' e = event_receipt a e.
Proof.
  intros Hg Hp. unfold event_receipt. destruct (ev_output e) as [[v|r]|]; simpl in *; [done| |done].
  destruct Hp as [v Hv]. by rewrite Hv, (Hg _ _ Hv).
Qed.

Lemma append_receipts (t : DateTime) (d : EventDraft) (j j' : Journal) (id : string) :
  journal_ok j -> append_event t d j = (id, j') ->
  exists e, j_events j' = j_events j ++ [e] /\ ev_kind e = d_kind d
    /\ store_payload_opt (store_payload_opt (j_artifacts j) (d_input d)).2 (d_output d)
       = (ev_output e, j_artifacts j')
    /\ receipts (snapshot j') = receipts (snapshot j)
         ++ omap (event_receipt (j_artifacts j')) (filter (fun e => ev_kind e = KEffectReceipt) [e]).
Proof.
  intros [_ _ Hs Hc Hpr] Happ.
  apply append_event_inv in Happ as (i & o & a1 & E1 & E2 & Hev & _).
  destruct (store_payload_opt_spec _ _ _ _ E1 Hs Hc) as (Hs1 & Hc1 & Hg1 & _).
  destruct (store_payload_opt_spec _ _ _ _ E2 Hs1 Hc1) as (_ & _ & Hg2 & _).
  eexists. split_and!; [exact Hev|done|by rewrite E1|].
  unfold receipts. simpl. rewrite Hev, filter_app, omap_app. f_equal.
  assert (Hg : artifacts_grow (j_artifacts j) (j_artifacts j')) by (intros ? ? ?; auto).
  assert (Hall : Forall (fun e => payload_present (j_artifacts j) (ev_output e)) (j_events j))
    by (apply Forall_forall; intros e He; by apply Hpr).
  clear -Hall Hg. induction Hall as [|e l He _ IH]; [done|].
  rewrite !filter_cons. destruct (decide _); [|done]. csimpl.
  by rewrite (event_receipt_grow _ _ _ Hg He), IH.
Qed.

Lemma find_snoc {A} (P : A -> Prop) `{forall x, Decision (P x)} (l : list A) (x : A) :
  snd <$> list_find P (l ++ [x])
  = match snd <$> list_find P l with
    | Some y => Some y
    | None => if decide (P x) then Some x else None
    end.
Proof.
  induction l as [|y l IH]; simpl; [by destruct (decide (P x))|].
  destruct (decide (P y)); [done|].
  destruct (list_find P (l ++ [x])) as [[]|] eqn:E1, (list_find P l) as [[]|] eqn:E2;
    simpl in *; try done; congruence.
Qed.

(** A recorded effect receipt is served by both replay lookups, by
    idempotency key and by effect id; a receipt recorded earlier for the
    same key or id keeps winning, and every other lookup is unchanged. *)
Theorem effect_receipt_served (r : EffectReceipt) (parent : option string) (cs cs' : Clocks)
    (j j' : Journal) (id bytes : string) :
  journal_ok j -> record_effect_receipt r parent cs j = (id, cs', j') ->
  to_vec (receipt_value r) = Some bytes ->
  String.length bytes <= INLINE_PAYLOAD_MAX_BYTES ->
  (forall key, find_effect_receipt key (snapshot j')
     = match find_effect_receipt key (snapshot j) with
       | Some earlier => Some earlier
       | None => if decide (er_idempotency_key r = key) then Some r else None
       end)
  /\ (forall eid, find_effect_receipt_by_effect_id eid (snapshot j')
     = match find_effect_receipt_by_effect_id eid (snapshot j) with
       | Some earlier => Some earlier
       | None => if decide (er_effect_id r = Some eid) then Some r else None
       end).
Proof.
  intros Hok Hrec Hb Hlen. unfold record_effect_receipt, record in Hrec.
  destruct (read_clock (j_clock j) cs) as [t cs2].
  set (d := match parent with Some p => _ | None => _ end) in Hrec.
  destruct (append_event t d j) as [id2 j2] eqn:Happ. simplify_eq.
  destruct (append_receipts _ _ _ _ _ Hok Happ) as (e & _ & Hk & Hout & Hrs).
  assert (Hd : d_kind d = KEffectReceipt /\ d_output d = Some (receipt_value r)
               /\ d_input d = None) by (subst d; by destruct parent).
  destruct Hd as (Hdk & Hdo & Hdi). rewrite Hdo, Hdi in Hout. simpl in Hout.
  unfold store_payload in Hout.
  rewrite Hb, (proj2 (Nat.leb_le _ _) Hlen) in Hout. injection Hout as Hout Hart.
  assert (Hr : receipts (snapshot j') = receipts (snapshot j) ++ [r]).
  { rewrite Hrs. f_equal. rewrite filter_cons, decide_True by congruence. csimpl.
    unfold event_receipt. rewrite <- Hout. cbn -[receipt_from_value receipt_value].
    by rewrite receipt_roundtrip. }
  unfold find_effect_receipt, find_effect_receipt_by_effect_id. rewrite Hr.
  split; intros; by rewrite find_snoc.
Qed.
End Payloads.

(** ** Externalized snapshots *)
Section Externalized.
Context `{Codec} {St : Type} `{!ArtifactStore St, !ArtifactStoreLaws St}.

(** The reference an artifact is spilled under. *)
Definition address (kv : string * Value) : string * ArtifactRef :=
  (kv.1, mkArtifactRef kv.1 (N.of_nat (String.length (default EmptyString (to_vec kv.2))))).

(** The artifact's key is the digest of its bytes. *)
Definition addressed (kv : string * Value) : Prop :=
  exists bytes, to_vec kv.2 = Some bytes /\ kv.1 = sha256_hex bytes.

(** No object of the store collides with the artifact. *)
Definition no_clash (st : St) (kv : string * Value) : Prop :=
  forall b, store_get kv.1 st = Ok b -> to_vec kv.2 = Some b.

Lemma spill_healthy (l : list (string * Value)) (refs : list (string * ArtifactRef)) (st : St) :
  healthy st -> Forall addressed l -> NoDup l.*1 -> Forall (no_clash st) l ->
  exists st', spill l refs st
      = Some (Ok (fold_left (fun m kv => BTree.insert kv.1 kv.2 m) (map address l) refs), st')
    /\ Forall (fun kv => exists b, to_vec kv.2 = Some b /\ store_get kv.1 st' = Ok b) l
    /\ (forall sha, sha ∉ l.*1 -> store_get sha st' = store_get sha st).
Proof.
  revert refs st. induction l as [|[k v] l IH]; intros refs st Hh Ha Hnd Hc; [by exists st|].
  inversion_clear Ha as [|? ? (b & Hb & Hk) Ha']. inversion_clear Hnd as [|? ? Hk' Hnd'].
  inversion_clear Hc as [|? ? Hck Hc']. simpl in *. subst k.
  destruct (put_healthy b st Hh) as (st1 & Hput & Hh1 & Hget).
  assert (Hother : forall sha, sha <> sha256_hex b -> store_get sha st1 = store_get sha st).
  { intros sha Hne. rewrite Hget. by rewrite (proj2 (String.eqb_neq _ _) Hne). }
  destruct (IH (BTree.insert (sha256_hex b) (mkArtifactRef (sha256_hex b)
                  (N.of_nat (String.length b))) refs) st1 Hh1 Ha' Hnd') as (st' & Hsp & Hall & Hkeep).
  { apply Forall_forall. intros [k2 v2] Hin b2. simpl. rewrite Hother.
    - rewrite Forall_forall in Hc'. by apply (Hc' (k2, v2)).
    - intros ->. apply Hk'. by apply (list_elem_of_fmap_2 fst) in Hin. }
  exists st'. rewrite Hb. simpl. rewrite Hput, Hsp. split_and!; [done| |].
  - constructor; [|done]. exists b. split; [done|]. simpl. rewrite Hkeep, Hget by done.
    rewrite String.eqb_refl. simpl. destruct (store_get _ st) as [b2|] eqn:E2; simpl; [|done].
    f_equal. apply Hck in E2. simpl in E2. congruence.
  - intros sha Hsha. rewrite not_elem_of_cons in Hsha. rewrite Hkeep, Hother by tauto. done.
Qed.

Lemma embed_stored (l : list (string * Value)) (a : list (string * Value)) (st : St) :
  Forall (fun kv => exists b, to_vec kv.2 = Some b /\ store_get kv.1 st = Ok b) l ->
  (forall k v b, (k, v) ∈ l -> to_vec v = Some b -> from_slice b = Ok v) ->
  embed (map address l) a st = Ok (fold_left (fun m kv => BTree.insert kv.1 kv.2 m) l a).
Proof.
  revert a. induction l as [|[k v] l IH]; intros a Hall Hfs; [done|].
  inversion_clear Hall as [|? ? (b & Hb & Hg) Hall']. simpl in *. rewrite Hg. simpl.
  rewrite (Hfs k v b) by (done || by left). apply IH; [done|].
  intros k2 v2 b2 Hin. apply (Hfs k2). by right.
Qed.

(** Persistence through an artifact store loses nothing. In a healthy
    store holding no object that collides with an artifact, exporting a
    journal with its payloads spilled to the store succeeds, and loading
    the export from the store the run left gives the journal back, for
    every artifact the serializer round-trips. *)
Theorem externalized_roundtrip (j : Journal) (st : St) (h : nat) :
  journal_ok j -> healthy st ->
  Forall (no_clash st) (j_artifacts j) ->
  (forall k v b, (k, v) ∈ j_artifacts j -> to_vec v = Some b -> from_slice b = Ok v) ->
  exists s st', snapshot_externalized j st = Some (Ok s, st')
    /\ js_artifacts s = []
    /\ from_snapshot_with_store s st' h
       = Ok (mkJournal (j_run_id j) (j_thread_id j) h (j_events j) (j_artifacts j)
               (j_head_hash j)).
Proof.
  intros [_ Hhd Hs Hc _] Hh Hnc Hfs.
  pose proof (BTree.Sorted_NoDup _ Hs) as Hnd.
  assert (Ha : Forall addressed (j_artifacts j)).
  { apply Forall_forall. intros [k v] Hin. apply BTree.get_In_NoDup in Hin; [|done].
    destruct (Hc _ _ Hin) as (b & Hb & ->). by exists b. }
  destruct (spill_healthy (j_artifacts j) [] st Hh Ha Hnd Hnc) as (st' & Hsp & Hall & _).
  assert (Hrefs : fold_left (fun m kv => BTree.insert kv.1 kv.2 m) (map address (j_artifacts j)) []
                  = map address (j_artifacts j)).
  { apply BTree.from_list_id. unfold address. unfold BTree.Sorted in *.
    clear -Hs. induction Hs as [|x m Hs IH Hx]; simpl; constructor; [done|].
    apply Forall_map. eapply Forall_impl; [exact Hx|]. done. }
  unfold snapshot_externalized. simpl. rewrite Hsp, Hrefs. simpl.
  eexists _, st'. split_and!; [done..|].
  unfold from_snapshot_with_store. simpl. rewrite (embed_stored _ _ _ Hall Hfs). simpl.
  change (fold_left _ (j_artifacts j) []) with (BTree.from_list (j_artifacts j)).
  rewrite BTree.from_list_id by done. unfold from_snapshot. simpl. rewrite Hhd. simpl.
  by rewrite String.eqb_refl.
Qed.
End Externalized.

(** ** The file-system store keeps the contract *)
Section FileStore.
Context `{Codec}.

(** No operation faults and every file holds the bytes its name promises. *)
Definition file_healthy (st : FileArtifactStore) : Prop :=
  (forall op path, fas_fault st op path = None)
  /\ (forall sha b, fas_files st !! sha = Some b -> sha256_hex b = sha).

Lemma file_get_spec (sha : string) (st : FileArtifactStore) (b : string) :
  file_get sha st = Ok b <->
  fas_fault st FsRead sha = None /\ fas_files st !! sha = Some b /\ sha256_hex b = sha.
Proof.
  unfold file_get, fs_try. destruct (fas_fault st FsRead sha); simpl; [naive_solver|].
  destruct (fas_files st !! sha) as [b'|]; simpl; [|naive_solver].
  destruct (String.eqb_spec (sha256_hex b') sha); naive_solver.
Qed.

Lemma file_put_healthy (bytes : string) (st : FileArtifactStore) :
  file_healthy st ->
  exists st', file_put bytes st
    = (Ok (mkArtifactRef (sha256_hex bytes) (N.of_nat (String.length bytes))), st')
    /\ file_healthy st'
    /\ forall sha, file_get sha st' =
         (if String.eqb sha (sha256_hex bytes) && negb (is_ok (file_get sha st))
          then Ok bytes else file_get sha st).
Proof.
  intros [Hf Hi]. unfold file_put, fs_try. rewrite !Hf. simpl.
  destruct (fas_files st !! sha256_hex bytes) as [b|] eqn:Hg; eexists; (split; [done|]).
  - split; [done|]. intros sha. destruct (String.eqb_spec sha (sha256_hex bytes)) as [->|]; [|done].
    assert (Hok : file_get (sha256_hex bytes) st = Ok b) by (apply file_get_spec; auto).
    by rewrite Hok.
  - split.
    + split; [done|]. intros sha b. simpl.
      intros [[<- <-]|[_ Hl]]%lookup_insert_Some; [done|by apply Hi].
    + intros sha. destruct (String.eqb_spec sha (sha256_hex bytes)) as [->|Hne].
      * assert (Hok : is_ok (file_get (sha256_hex bytes) st) = false).
        { destruct (file_get _ st) as [b|] eqn:E; [|done].
          apply file_get_spec in E as (_ & E & _). congruence. }
        rewrite Hok. simpl. apply file_get_spec. simpl. by rewrite lookup_insert_eq.
      * simpl. unfold file_get, fs_try. simpl. by rewrite lookup_insert_ne.
Qed.

#[export] Instance file_artifact_store_laws : ArtifactStoreLaws FileArtifactStore.
Proof.
  refine {| healthy := file_healthy |}.
  - exact file_put_healthy.
  - intros sha st b (_ & _ & Hs)%file_get_spec. done.
Defined.
End FileStore.

(** ** The logical clock *)
Section LogicalClock.
Context `{Codec}.

(** The clock after [n] reads. *)
Definition after_reads (n : nat) (c : Clock) : Clock := Nat.iter n (fun c => (now c).2) c.

Lemma after_reads_logical (n : nat) (start tick : N) :
  (start <= u64_max)%N ->
  after_reads n (Logical start tick)
  = Logical (N.min (start + N.of_nat n * tick) u64_max) tick.
Proof.
  intros Hs. unfold after_reads. induction n as [|n IH]; simpl; [f_equal; lia|].
  rewrite IH. simpl. f_equal. unfold saturating_add. lia.
Qed.

(** The logical clock is a function of its parameters and of the number
    of reads. Reading number [n] is [start + n * tick] milliseconds, clamped
    to the 64-bit range, so readings never go back while they stay within
    the calendar range; past that range the reading is the epoch. *)
Theorem logical_clock_readings (start tick : N) (n : nat) :
  (start <= u64_max)%N ->
  let ms := N.min (N.min (start + N.of_nat n * tick) u64_max) i64_max in
  (now (after_reads n (Logical start tick))).1
    = (if (Z.of_N ms <=? max_millis)%Z then Z.of_N ms else 0%Z)
  /\ ((Z.of_N ms <= max_millis)%Z ->
      forall m, m <= n ->
        ((now (after_reads m (Logical start tick))).1
         <= (now (after_reads n (Logical start tick))).1)%Z).
Proof.
  intros Hs ms.
  assert (Hnow : forall k, (now (after_reads k (Logical start tick))).1
    = let ms := N.min (N.min (start + N.of_nat k * tick) u64_max) i64_max in
      (if (Z.of_N ms <=? max_millis)%Z then Z.of_N ms else 0%Z)).
  { intros k. rewrite after_reads_logical by done. simpl. unfold from_timestamp_millis.
    rewrite Z.abs_eq by lia. by destruct (_ <=? _)%Z. }
  split; [apply Hnow|]. intros Hm m Hle. rewrite !Hnow. cbv zeta. fold ms.
  rewrite (proj2 (Z.leb_le _ _) Hm).
  assert ((N.of_nat m * tick <= N.of_nat n * tick)%N) by (apply N.mul_le_mono_r; lia).
  destruct (Z.leb_spec (Z.of_N (N.min (N.min (start + N.of_nat m * tick) u64_max) i64_max))
              max_millis); subst ms; lia.
Qed.
End LogicalClock.

(** ** Concrete journals *)
Module JournalExamples.
Import Sample.
Local Open Scope string_scope.

Definition clocks : Clocks := [Logical 1000 5].
Definition fresh : Journal := journal_new "run" "thread" 0.

(** A payload too large to stay inline. *)
Definition big : Value := Str (String.concat EmptyString (replicate 500 "0123456789")).

Definition drafts : list EventDraft :=
  [draft_new KSuperStepStart Pure;
   with_input big (with_node "n" (draft_new KNodeInput Pure));
   with_output (jobj [("x", jnat 1)]) (with_node "n" (draft_new KNodeOutput Pure))].

Definition recorded : Journal := (record_all drafts clocks fresh).2.

Lemma recorded_ok : journal_ok recorded.
Proof.
  unfold recorded. destruct (record_all drafts clocks fresh) as [cs j] eqn:E.
  apply (record_all_ok _ _ _ _ _ E). apply journal_new_ok.
Qed.

Lemma journal_invariant_witness :
  length (j_events recorded) = 3 /\ journal_ok recorded.
Proof. exact (journal_invariant "run" "thread" 0 drafts clocks). Defined.

Lemma snapshot_roundtrip_witness :
  length (j_artifacts recorded) = 1
  /\ from_snapshot (snapshot recorded) 4
     = Ok (mkJournal "run" "thread" 4 (j_events recorded) (j_artifacts recorded)
             (j_head_hash recorded)).
Proof. split; [by vm_compute|]. apply (snapshot_roundtrip recorded 4), recorded_ok. Defined.

(** Two events that differ in the member order of their payload only. *)
Definition with_members (m : list (string * Value)) : RunEvent :=
  mkEvent "run:0" "run" "thread" None 0 KNodeOutput Pure None (Some (Inline (Object m)))
    None None None StatusOk None 7.

Lemma head_hash_binds_witness :
  let e1 := with_members [("a", Null); ("b", Null)] in
  let e2 := with_members [("b", Null); ("a", Null)] in
  [e1] <> [e2] /\ event_bytes <$> [e1] = event_bytes <$> [e2].
Proof.
  split; [done|].
  eapply (head_hash_binds _ _ (default EmptyString
            (match recompute_head_hash [with_members [("a", Null); ("b", Null)]] with
             | Ok h => Some h | Err _ => None end))); [by vm_compute..|].
  apply (bool_decide_unpack _). by vm_compute.
Defined.

Lemma recorded_payloads_resolve_witness :
  let d := with_output big (with_input Null (draft_new KToolCall NonIdempotent)) in
  let j' := (append_event 3 d fresh).2 in
  exists e, last (j_events j') = Some e /\ reads_back (j_artifacts j') (ev_output e) big.
Proof.
  intros d j'.
  destruct (recorded_payloads_resolve 3 d fresh j' "run:0") as (e & He & _ & Ho).
  - apply journal_new_ok.
  - by vm_compute.
  - apply (bool_decide_unpack _). by vm_compute.
  - exists e. split; [exact He|]. apply Ho. reflexivity.
Defined.

Definition exported : JournalSnapshot := snapshot recorded.

Lemma artifacts_outside_chain_witness :
  js_artifacts exported <> [] /\
  is_ok (from_snapshot (mkJournalSnapshot (js_run_id exported) (js_thread_id exported)
                          (js_events exported) [] (js_artifact_refs exported)
                          (js_head_hash exported)) 0) = true.
Proof.
  assert (Hs : from_snapshot exported 0 = Ok recorded) by by vm_compute.
  split; [by vm_compute|]. by rewrite (artifacts_outside_chain _ _ _ [] Hs).
Defined.

Definition receipt : EffectReceipt := mkReceipt "stripe" "ch_1" "key-1" None (Some "eff-1").

Definition with_receipt : string * Clocks * Journal :=
  record_effect_receipt receipt None clocks recorded.

Lemma effect_receipt_served_witness :
  find_effect_receipt "key-1" (snapshot with_receipt.2) = Some receipt
  /\ find_effect_receipt_by_effect_id "eff-1" (snapshot with_receipt.2) = Some receipt.
Proof.
  destruct (effect_receipt_served receipt None clocks with_receipt.1.2 recorded with_receipt.2
              with_receipt.1.1 (print (receipt_value receipt))) as [H1 H2].
  - apply recorded_ok.
  - unfold with_receipt. by destruct (record_effect_receipt receipt None clocks recorded) as [[]].
  - reflexivity.
  - by apply Nat.leb_le; vm_compute.
  - split; [rewrite (H1 "key-1")|rewrite (H2 "eff-1")]; by vm_compute.
Defined.

Definition disk : FileArtifactStore := mkFileStore ∅ (fun _ _ => None).

Lemma externalized_roundtrip_witness :
  exists s st', snapshot_externalized recorded disk = Some (Ok s, st')
    /\ js_artifacts s = []
    /\ from_snapshot_with_store s st' 0 = Ok recorded.
Proof.
  destruct (externalized_roundtrip (St := FileArtifactStore) recorded disk 0)
    as (s & st' & H1 & H2 & H3).
  - apply recorded_ok.
  - by split.
  - apply Forall_forall. intros kv _ b Hb. by apply file_get_spec in Hb as (_ & Hb & _).
  - assert (Ha : j_artifacts recorded = [(sha256_hex (print big), big)]) by by vm_compute.
    rewrite Ha. intros k v b Hin. apply list_elem_of_singleton in Hin. injection Hin as -> ->.
    intros [= <-]. by vm_compute.
  - exists s, st'. split_and!; [done..|]. rewrite H3. by vm_compute.
Defined.

Lemma logical_clock_readings_witness :
  (now (after_reads 3 (Logical 1000 5))).1 = 1015%Z.
Proof. destruct (logical_clock_readings 1000 5 3) as [-> _]; [by vm_compute|reflexivity]. Defined.
End JournalExamples.
