(* ===== verification/Inbox.v ===== *)
(** * The durable inbox ([rusty-core/src/inbox.rs])

    A run's message intake: a pending buffer of sends, three queues (steering,
    follow-ups, staged injections), the cancellation latch, settlement into
    the journal in live and replay mode, drains, and the snapshot a checkpoint
    stamps. *)

From Stdlib Require Import String.
From S2P Require Import Prelude Containers Json Error Record Journal.
Local Open Scope string_scope.

Definition INBOX_DELIVERY_KEY : string := "rusty.inbox_delivery".
Definition DEFAULT_SENDER : string := "user".

(** ** Data *)

Inductive InboxTarget : Type := NextStep | NextTurn.

Inductive InboxKind : Type := Steering | FollowUp | Injected.

#[export] Instance InboxKind_eq_dec : EqDecision InboxKind.
Proof. solve_decision. Defined.

Inductive CancelCause : Type := CauseUser | CauseParent | CauseHook | CauseDisposed.

#[export] Instance CancelCause_eq_dec : EqDecision CancelCause.
Proof. solve_decision. Defined.

(** [Display for CancelCause], which is also its wire name. *)
Definition cause_name (c : CancelCause) : string :=
  match c with
  | CauseUser => "user" | CauseParent => "parent"
  | CauseHook => "hook" | CauseDisposed => "disposed"
  end.

(** [InboxMessage]. *)
Record InboxMessage : Type := mkMessage {
  m_seq : N;
  m_kind : InboxKind;
  m_sender : string;
  m_content : Value;
}.

#[export] Instance InboxMessage_eq_dec : EqDecision InboxMessage.
Proof. solve_decision. Defined.

(** [ConsumptionPoint]. *)
Inductive ConsumptionPoint : Type := StepBoundary | TurnStart | TurnExtension.

(** [InboxConsumption]. *)
Record InboxConsumption : Type := mkConsumption {
  con_point : ConsumptionPoint;
  con_step : nat;
  con_messages : list InboxMessage;
}.

(** [DroppedMessages]. *)
Record DroppedMessages : Type := mkDropped {
  dr_steering : nat;
  dr_followups : nat;
  dr_staged : nat;
  dr_pending : nat;
}.

(** [RunCancellation]. *)
Record RunCancellation : Type := mkCancellation {
  rc_cause : CancelCause;
  rc_keep_inbox : bool;
  rc_dropped : DroppedMessages;
}.

(** [InboxSnapshot]. *)
Record InboxSnapshot : Type := mkInboxSnapshot {
  is_steering : list InboxMessage;
  is_followups : list InboxMessage;
  is_staged : list InboxMessage;
  is_next_seq : N;
  is_pending_delivery : list InboxMessage;
}.

#[export] Instance InboxSnapshot_eq_dec : EqDecision InboxSnapshot.
Proof. solve_decision. Defined.

(** [InboxBounds] and its default. *)
Record InboxBounds : Type := mkBounds {
  max_pending : nat;
  max_steering : nat;
  max_followups : nat;
  max_staged : nat;
}.

Definition default_bounds : InboxBounds := mkBounds 1024 256 256 256.

(** ** Wire shapes *)

Definition inbox_kind_name (k : InboxKind) : string :=
  match k with Steering => "steering" | FollowUp => "follow_up" | Injected => "injected" end.

(** [Debug for InboxKind]. *)
Definition inbox_kind_debug (k : InboxKind) : string :=
  match k with Steering => "Steering" | FollowUp => "FollowUp" | Injected => "Injected" end.

Definition point_name (p : ConsumptionPoint) : string :=
  match p with
  | StepBoundary => "step_boundary" | TurnStart => "turn_start" | TurnExtension => "turn_extension"
  end.

(** [serde_json::to_value] of a message, a consumption, a cancellation. *)
Definition message_value (m : InboxMessage) : Value :=
  jobj [("seq", jN (m_seq m)); ("kind", Str (inbox_kind_name (m_kind m)));
        ("sender", Str (m_sender m)); ("content", m_content m)].

Definition consumption_value (c : InboxConsumption) : Value :=
  jobj [("point", Str (point_name (con_point c))); ("step", jnat (con_step c));
        ("messages", Array (map message_value (con_messages c)))].

Definition dropped_value (d : DroppedMessages) : Value :=
  jobj [("steering", jnat (dr_steering d)); ("followups", jnat (dr_followups d));
        ("staged", jnat (dr_staged d)); ("pending", jnat (dr_pending d))].

Definition cancellation_value (c : RunCancellation) : Value :=
  jobj [("cause", Str (cause_name (rc_cause c))); ("keep_inbox", Bool (rc_keep_inbox c));
        ("dropped", dropped_value (rc_dropped c))].

(** [serde_json::from_value] of a message. *)
Definition inbox_kind_from_name (s : string) : option InboxKind :=
  if String.eqb s "steering" then Some Steering
  else if String.eqb s "follow_up" then Some FollowUp
  else if String.eqb s "injected" then Some Injected else None.

Definition message_from_value (v : Value) : option InboxMessage :=
  match struct_fields ["seq"; "kind"; "sender"; "content"] 4 v with
  | Some [seq; kind; sender; content] =>
      seq ← seq ≫= as_u64;
      kind ← (kind ≫= variant_name) ≫= inbox_kind_from_name;
      sender ← sender ≫= as_str;
      content ← content;
      Some (mkMessage seq kind sender content)
  | _ => None
  end.

(** [serde_json::from_value] of a cancellation. *)
Definition cause_from_name (s : string) : option CancelCause :=
  if String.eqb s "user" then Some CauseUser
  else if String.eqb s "parent" then Some CauseParent
  else if String.eqb s "hook" then Some CauseHook
  else if String.eqb s "disposed" then Some CauseDisposed else None.

Definition dropped_from_value (v : Value) : option DroppedMessages :=
  match struct_fields ["steering"; "followups"; "staged"; "pending"] 4 v with
  | Some [s; f; g; p] =>
      s ← s ≫= as_u64; f ← f ≫= as_u64; g ← g ≫= as_u64; p ← p ≫= as_u64;
      Some (mkDropped (N.to_nat s) (N.to_nat f) (N.to_nat g) (N.to_nat p))
  | _ => None
  end.

Definition cancellation_from_value (v : Value) : option RunCancellation :=
  match struct_fields ["cause"; "keep_inbox"; "dropped"] 3 v with
  | Some [cause; keep; dropped] =>
      cause ← (cause ≫= variant_name) ≫= cause_from_name;
      keep ← keep ≫= as_bool;
      dropped ← dropped ≫= dropped_from_value;
      Some (mkCancellation cause keep dropped)
  | _ => None
  end.

(** ** State *)

(** [ScheduledPoint]. *)
Inductive ScheduledPoint : Type :=
| IntakePoint (seq : N) (message : InboxMessage)
| CancelPoint (seq : N) (cause : CancelCause) (keep_inbox : bool).

(** [IntakeSource]. *)
Inductive IntakeSource : Type :=
| Live
| Replay (points : list ScheduledPoint).

(** [Inbox] with its [InboxInner]. *)
Record Inbox : Type := mkInbox {
  ib_pending : list InboxMessage;
  ib_steering : list InboxMessage;
  ib_followups : list InboxMessage;
  ib_staged : list InboxMessage;
  ib_next_seq : N;
  ib_cancel : option (CancelCause * bool);
  ib_source : IntakeSource;
  ib_bounds : InboxBounds;
}.

(** [Inbox::with_bounds], [Inbox::new]. *)
Definition with_bounds (b : InboxBounds) : Inbox := mkInbox [] [] [] [] 0 None Live b.
Definition inbox_new : Inbox := with_bounds default_bounds.

(** ** Intake *)

(** The routing of [Inbox::send]. *)
Definition route_kind (target : InboxTarget) (wakeup : bool) : InboxKind :=
  match target, wakeup with
  | NextStep, true => Steering
  | NextStep, false => Injected
  | NextTurn, _ => FollowUp
  end.

Definition queue_of (k : InboxKind) (ib : Inbox) : list InboxMessage :=
  match k with
  | Steering => ib_steering ib | FollowUp => ib_followups ib | Injected => ib_staged ib
  end.

Definition bound_of (k : InboxKind) (b : InboxBounds) : nat :=
  match k with
  | Steering => max_steering b | FollowUp => max_followups b | Injected => max_staged b
  end.

Definition of_kind (k : InboxKind) (l : list InboxMessage) : list InboxMessage :=
  filter (fun m => m_kind m = k) l.

(** [Inbox::send]. *)
Definition send (sender : string) (target : InboxTarget) (wakeup : bool) (content : Value)
    (ib : Inbox) : res N * Inbox :=
  let kind := route_kind target wakeup in
  match ib_source ib with
  | Replay _ =>
      (Err (EReplay ("cannot send into a replaying inbox: replay evidence is a pure function of "
                     ++ "the recorded journal — build the run's inbox with Inbox::replaying and leave "
                     ++ "it untouched")), ib)
  | Live =>
      let occupied := length (of_kind kind (ib_pending ib)) + length (queue_of kind ib) in
      let bound := bound_of kind (ib_bounds ib) in
      if (bound <=? occupied)%nat then
        (Err (EGraph ("inbox " ++ inbox_kind_debug kind ++ " queue is full (" ++ pretty bound
                      ++ " messages); the send was refused, nothing was dropped")), ib)
      else if (max_pending (ib_bounds ib) <=? length (ib_pending ib))%nat then
        (Err (EGraph ("inbox has " ++ pretty (length (ib_pending ib)) ++ " unsettled sends (bound "
                      ++ pretty (max_pending (ib_bounds ib)) ++ "); the send was refused")), ib)
      else
        let seq := ib_next_seq ib in
        (Ok seq,
         mkInbox (ib_pending ib ++ [mkMessage seq kind sender content])%list (ib_steering ib)
           (ib_followups ib) (ib_staged ib) (seq + 1) (ib_cancel ib) (ib_source ib)
           (ib_bounds ib))
  end.

(** [Inbox::steer], [followup], [inject]. *)
Definition steer (content : Value) : Inbox -> res N * Inbox :=
  send DEFAULT_SENDER NextStep true content.
Definition followup (content : Value) : Inbox -> res N * Inbox :=
  send DEFAULT_SENDER NextTurn false content.
Definition inject (content : Value) : Inbox -> res N * Inbox :=
  send DEFAULT_SENDER NextStep false content.

Definition set_cancel (c : option (CancelCause * bool)) (ib : Inbox) : Inbox :=
  mkInbox (ib_pending ib) (ib_steering ib) (ib_followups ib) (ib_staged ib) (ib_next_seq ib)
    c (ib_source ib) (ib_bounds ib).

(** [Inbox::cancel]: the first request latches. *)
Definition cancel (cause : CancelCause) (keep_inbox : bool) (ib : Inbox) : Inbox :=
  match ib_cancel ib with
  | None => set_cancel (Some (cause, keep_inbox)) ib
  | Some _ => ib
  end.

(** [Inbox::len]. *)
Definition inbox_len (ib : Inbox) : nat :=
  length (ib_steering ib) + length (ib_followups ib) + length (ib_staged ib).

(** ** Snapshots *)

(** [Inbox::snapshot]. *)
Definition inbox_snapshot (ib : Inbox) : option InboxSnapshot :=
  if (ib_next_seq ib =? 0)%N then None
  else Some (mkInboxSnapshot (ib_steering ib) (ib_followups ib) (ib_staged ib)
               (ib_next_seq ib) []).

(** [Inbox::is_fresh]. *)
Definition is_fresh (ib : Inbox) : bool :=
  (ib_next_seq ib =? 0)%N && match ib_pending ib with [] => true | _ => false end.

(** [Inbox::seed]. *)
Definition seed (s : InboxSnapshot) (ib : Inbox) : Inbox :=
  if is_fresh ib
  then mkInbox (ib_pending ib) (is_steering s) (is_followups s) (is_staged s) (is_next_seq s)
         (ib_cancel ib) (ib_source ib) (ib_bounds ib)
  else ib.

(** ** Settlement *)

(** One message pushed to the back of its queue. *)
Definition enqueue (m : InboxMessage) (ib : Inbox) : Inbox :=
  let push k q := if decide (m_kind m = k) then (q ++ [m])%list else q in
  mkInbox (ib_pending ib) (push Steering (ib_steering ib)) (push FollowUp (ib_followups ib))
    (push Injected (ib_staged ib)) (ib_next_seq ib) (ib_cancel ib) (ib_source ib) (ib_bounds ib).

Definition set_pending (p : list InboxMessage) (ib : Inbox) : Inbox :=
  mkInbox p (ib_steering ib) (ib_followups ib) (ib_staged ib) (ib_next_seq ib)
    (ib_cancel ib) (ib_source ib) (ib_bounds ib).

Definition set_source (s : IntakeSource) (ib : Inbox) : Inbox :=
  mkInbox (ib_pending ib) (ib_steering ib) (ib_followups ib) (ib_staged ib) (ib_next_seq ib)
    (ib_cancel ib) s (ib_bounds ib).

(** The intake draft of a message, under the last event or the given parent. *)
Definition intake_draft (m : InboxMessage) (parent : option string) : EventDraft :=
  let draft := with_output (message_value m) (draft_new KInboxIntake Pure) in
  match parent with Some p => with_parent p draft | None => draft end.

(** What settlement threads: the last event id, the inbox, the clocks, the
    journal. *)
Record Settling : Type := mkSettling {
  st_last : option string;
  st_inbox : Inbox;
  st_clocks : Clocks;
  st_journal : Journal;
}.

Section Settle.
Context `{Codec}.

(** The loop body of [Inbox::settle] after a message is released. *)
Definition settle_one (parent : option string) (s : Settling) (m : InboxMessage) : Settling :=
  let ib := enqueue m (st_inbox s) in
  let '(id, cs, j) :=
    record (intake_draft m (match st_last s with Some l => Some l | None => parent end))
      (st_clocks s) (st_journal s) in
  mkSettling (Some id) ib cs j.

(** Live mode releases the pending buffer from its front. *)
Fixpoint settle_live (parent : option string) (pending : list InboxMessage) (s : Settling) :
    Settling :=
  match pending with
  | [] => s
  | m :: rest =>
      settle_live parent rest
        (settle_one parent
           (mkSettling (st_last s) (set_pending rest (st_inbox s)) (st_clocks s)
              (st_journal s)) m)
  end.

(** Replay mode releases scheduled intakes whose seq the journal reached. *)
Fixpoint settle_replay (parent : option string) (points : list ScheduledPoint)
    (s : Settling) : Settling :=
  match points with
  | IntakePoint seq m :: rest =>
      if (seq <=? N.of_nat (length (j_events (st_journal s))))%N
      then settle_replay parent rest
             (settle_one parent
                (mkSettling (st_last s) (set_source (Replay rest) (st_inbox s)) (st_clocks s)
                   (st_journal s)) m)
      else s
  | _ => s
  end.

(** [Inbox::settle]. *)
Definition settle (parent : option string) (ib : Inbox) (cs : Clocks) (j : Journal) : Settling :=
  let s := mkSettling None ib cs j in
  match ib_source ib with
  | Live => settle_live parent (ib_pending ib) s
  | Replay points => settle_replay parent points s
  end.
End Settle.

(** [Inbox::take_cancel]. *)
Definition take_cancel (journal_len : N) (ib : Inbox) : option (CancelCause * bool) * Inbox :=
  match ib_source ib with
  | Live => (ib_cancel ib, set_cancel None ib)
  | Replay (CancelPoint seq cause keep :: rest) =>
      if (seq <=? journal_len)%N then (Some (cause, keep), set_source (Replay rest) ib)
      else (None, ib)
  | Replay _ => (None, ib)
  end.

(** [Inbox::drain_steering], [drain_followups], [drain_staged]. *)
Definition drain_steering (ib : Inbox) : list InboxMessage * Inbox :=
  (ib_steering ib,
   mkInbox (ib_pending ib) [] (ib_followups ib) (ib_staged ib) (ib_next_seq ib) (ib_cancel ib)
     (ib_source ib) (ib_bounds ib)).
Definition drain_followups (ib : Inbox) : list InboxMessage * Inbox :=
  (ib_followups ib,
   mkInbox (ib_pending ib) (ib_steering ib) [] (ib_staged ib) (ib_next_seq ib) (ib_cancel ib)
     (ib_source ib) (ib_bounds ib)).
Definition drain_staged (ib : Inbox) : list InboxMessage * Inbox :=
  (ib_staged ib,
   mkInbox (ib_pending ib) (ib_steering ib) (ib_followups ib) [] (ib_next_seq ib) (ib_cancel ib)
     (ib_source ib) (ib_bounds ib)).

(** [Inbox::clear]. *)
Definition inbox_clear (ib : Inbox) : DroppedMessages * Inbox :=
  (mkDropped (length (ib_steering ib)) (length (ib_followups ib)) (length (ib_staged ib))
     (length (ib_pending ib)),
   mkInbox [] [] [] [] (ib_next_seq ib) (ib_cancel ib) (ib_source ib) (ib_bounds ib)).

(** ** Replay *)
Section Replaying.
Context `{Codec}.

(** [resolve_payload]. *)
Definition resolve_payload (s : JournalSnapshot) (p : PayloadRef) : option Value :=
  match p with
  | Inline v => Some v
  | Artifact r => BTree.get (ar_sha256 r) (js_artifacts s)
  end.

(** The point an event schedules, if any. *)
Definition scheduled_point (s : JournalSnapshot) (e : RunEvent) : res (option ScheduledPoint) :=
  match ev_kind e with
  | KInboxIntake =>
      v ← ok_or (ev_output e ≫= resolve_payload s)
            (EReplay ("inbox replay: intake event " ++ ev_id e
                      ++ " carries no resolvable message"));
      m ← ok_or (message_from_value v)
            (EReplay ("inbox replay: intake event " ++ ev_id e
                      ++ " holds a malformed message: " ++ decode_error "InboxMessage" v));
      Ok (Some (IntakePoint (ev_seq e) m))
  | KRunCancelled =>
      v ← ok_or (ev_output e ≫= resolve_payload s)
            (EReplay ("inbox replay: cancellation event " ++ ev_id e
                      ++ " carries no resolvable payload"));
      c ← ok_or (cancellation_from_value v)
            (EReplay ("inbox replay: cancellation event " ++ ev_id e
                      ++ " is malformed: " ++ decode_error "RunCancellation" v));
      Ok (Some (CancelPoint (ev_seq e) (rc_cause c) (rc_keep_inbox c)))
  | _ => Ok None
  end.

Fixpoint schedule (s : JournalSnapshot) (events : list RunEvent) : res (list ScheduledPoint) :=
  match events with
  | [] => Ok []
  | e :: rest =>
      p ← scheduled_point s e;
      ps ← schedule s rest;
      Ok (match p with Some point => point :: ps | None => ps end)
  end.

(** [Inbox::replaying]. *)
Definition replaying (s : JournalSnapshot) : res Inbox :=
  points ← schedule s (js_events s);
  Ok (mkInbox [] [] [] [] 0 None (Replay points) default_bounds).
End Replaying.
