(* ===== verification/InboxFacts.v ===== *)
(** * What the inbox guarantees

    The queue invariant over every sequence of operations, exact settlement,
    replay of a recorded settlement, and the snapshot a resume seeds from. *)

From Stdlib Require Import String.
From S2P Require Import Prelude Containers Json Error Record SampleCodec Journal JournalFacts Inbox.

(** A message survives its own wire format. *)
Lemma message_roundtrip (m : InboxMessage) : message_from_value (message_value m) = Some m.
Proof. by destruct m as [? [] ? ?]. Qed.

(** ** Settlement of a live inbox *)
Section Settling.
Context `{Codec}.

(** The inbox after a pending batch is settled. *)
Definition settled (p : list InboxMessage) (ib : Inbox) : Inbox :=
  mkInbox (match p with [] => ib_pending ib | _ => [] end)
    (ib_steering ib ++ of_kind Steering p) (ib_followups ib ++ of_kind FollowUp p)
    (ib_staged ib ++ of_kind Injected p) (ib_next_seq ib) (ib_cancel ib) (ib_source ib)
    (ib_bounds ib).

Lemma of_kind_cons (k : InboxKind) (m : InboxMessage) (p : list InboxMessage) :
  of_kind k (m :: p) = if decide (m_kind m = k) then m :: of_kind k p else of_kind k p.
Proof. unfold of_kind. by rewrite filter_cons. Qed.

Lemma settled_cons (m : InboxMessage) (p : list InboxMessage) (ib : Inbox) :
  settled (m :: p) ib = settled p (enqueue m (set_pending p ib)).
Proof.
  unfold settled. rewrite !of_kind_cons. unfold enqueue, set_pending. simpl.
  f_equal; [by destruct p|..]; destruct (m_kind m); simpl;
    rewrite <- ?(assoc_L app); reflexivity.
Qed.

Lemma settle_one_inbox (parent : option string) (s : Settling) (m : InboxMessage) :
  st_inbox (settle_one parent s m) = enqueue m (st_inbox s).
Proof. unfold settle_one. by destruct (record _ _ _) as [[? ?] ?]. Qed.

Lemma settle_live_inbox (parent : option string) (p : list InboxMessage) (s : Settling) :
  st_inbox (settle_live parent p s) = settled p (st_inbox s).
Proof.
  revert s. induction p as [|m p IH]; intros s; simpl.
  - unfold settled, of_kind. rewrite !filter_nil, !app_nil_r. by destruct s as [? [] ? ?].
  - rewrite IH, settle_one_inbox. simpl. symmetry. apply settled_cons.
Qed.

(** The reference a payload is recorded under, whatever the artifact map. *)
Definition payload_ref (v : Value) : PayloadRef := (store_payload [] v).1.

Lemma store_payload_ref (a : list (string * Value)) (v : Value) :
  (store_payload a v).1 = payload_ref v.
Proof.
  unfold payload_ref, store_payload. destruct (to_vec v); [|done].
  by destruct (_ <=? _)%nat.
Qed.

(** The intake event of message [m] at index [i], caused by [parent]. *)
Definition intake_event (i : nat) (m : InboxMessage) (parent : option string) (e : RunEvent) :
    Prop :=
  ev_kind e = KInboxIntake /\ ev_seq e = N.of_nat i
  /\ ev_output e = Some (payload_ref (message_value m)) /\ ev_parent e = parent.

Lemma settle_one_journal (parent : option string) (s : Settling) (m : InboxMessage) :
  exists e, j_events (st_journal (settle_one parent s m)) = j_events (st_journal s) ++ [e]
    /\ intake_event (length (j_events (st_journal s))) m
         (match st_last s with Some l => Some l | None => parent end) e
    /\ st_last (settle_one parent s m) = Some (ev_id e).
Proof.
  unfold settle_one. set (d := intake_draft _ _).
  assert (Hd : d_kind d = KInboxIntake /\ d_output d = Some (message_value m)
               /\ d_parent d = match st_last s with Some l => Some l | None => parent end)
    by (subst d; unfold intake_draft; destruct (st_last s), parent; done).
  destruct (record d (st_clocks s) (st_journal s)) as [[id cs] j] eqn:Hr. simpl.
  unfold record in Hr. destruct (read_clock _ _) as [t cs2].
  destruct (append_event t d (st_journal s)) as [id2 j2] eqn:Ha. simplify_eq.
  apply append_event_inv in Ha as (i & o & a1 & _ & Ho & Hev & _).
  destruct Hd as (Hk & Hout & Hp). rewrite Hout in Ho. simpl in Ho.
  destruct (store_payload a1 (message_value m)) as [p a2] eqn:Hsp. simplify_eq.
  eexists. split; [exact Hev|]. split; [|done]. unfold intake_event. simpl.
  rewrite Hk, Hp. split_and!; [done..| |done]. f_equal.
  change p with (p, j_artifacts j).1. rewrite <- Hsp. apply store_payload_ref.
Qed.

(** A chain of intake events: consecutive indices, each caused by the one
    before it. *)
Fixpoint intake_chain (i : nat) (p : list InboxMessage) (parent : option string)
    (es : list RunEvent) : Prop :=
  match p, es with
  | [], [] => True
  | m :: p', e :: es' => intake_event i m parent e /\ intake_chain (S i) p' (Some (ev_id e)) es'
  | _, _ => False
  end.

Lemma settle_live_journal (parent : option string) (p : list InboxMessage) (s : Settling) :
  exists es, j_events (st_journal (settle_live parent p s)) = j_events (st_journal s) ++ es
    /\ intake_chain (length (j_events (st_journal s))) p
         (match st_last s with Some l => Some l | None => parent end) es
    /\ st_last (settle_live parent p s)
       = match last es with Some e => Some (ev_id e) | None => st_last s end.
Proof.
  revert s. induction p as [|m p IH]; intros s; simpl.
  - exists []. by rewrite app_nil_r.
  - set (s0 := mkSettling _ (set_pending p (st_inbox s)) _ _).
    destruct (settle_one_journal parent s0 m) as (e & Hev & Hin & Hl).
    destruct (IH (settle_one parent s0 m)) as (es & Hes & Hch & Hlast).
    exists (e :: es). rewrite Hes, Hev, Hlast, Hl. rewrite <- (assoc_L app). simpl.
    split_and!; [done|exact Hin| |].
    + rewrite Hl, Hev, length_app in Hch. simpl in Hch. by rewrite Nat.add_1_r in Hch.
    + rewrite last_cons. by destruct (last es).
Qed.

(** Settlement is exact. Settling a live inbox empties the pending
    buffer into the three queues in arrival order, each message into the
    queue of its kind, and appends to the journal exactly one intake event
    per message, in order, at consecutive sequence numbers, each caused by
    the previous one (the first by the given parent). *)
Theorem settle_live_exact (parent : option string) (ib : Inbox) (cs : Clocks) (j : Journal) :
  ib_source ib = Live ->
  let s := settle parent ib cs j in
  ib_pending (st_inbox s) = []
  /\ (forall k, queue_of k (st_inbox s) = queue_of k ib ++ of_kind k (ib_pending ib))
  /\ exists es, j_events (st_journal s) = j_events j ++ es
       /\ intake_chain (length (j_events j)) (ib_pending ib) parent es.
Proof.
  intros Hl. unfold settle. rewrite Hl. cbv zeta. rewrite settle_live_inbox. split_and!.
  - simpl. by destruct (ib_pending ib) eqn:E.
  - by intros [].
  - destruct (settle_live_journal parent (ib_pending ib) (mkSettling None ib cs j))
      as (es & Hes & Hch & _). eauto.
Qed.
End Settling.

(** ** The invariant *)

(** Everything the inbox holds. *)
Definition all_messages (ib : Inbox) : list InboxMessage :=
  ib_pending ib ++ ib_steering ib ++ ib_followups ib ++ ib_staged ib.

Record inbox_ok (ib : Inbox) : Prop := {
  ib_ok_bound : forall k,
    length (of_kind k (ib_pending ib)) + length (queue_of k ib) <= bound_of k (ib_bounds ib);
  ib_ok_pending : length (ib_pending ib) <= max_pending (ib_bounds ib);
  ib_ok_kinds : forall k, Forall (fun m => m_kind m = k) (queue_of k ib);
  ib_ok_fresh : Forall (fun m => (m_seq m < ib_next_seq ib)%N) (all_messages ib);
  ib_ok_unique : NoDup (m_seq <$> all_messages ib);
  ib_ok_order : forall k,
    StronglySorted N.lt (m_seq <$> (queue_of k ib ++ of_kind k (ib_pending ib)));
}.

(** The operations of a live inbox, as the run and the outside world
    interleave them. *)
Inductive inbox_step `{Codec} : Inbox -> Inbox -> Prop :=
| step_send sender target wakeup content ib :
    inbox_step ib (send sender target wakeup content ib).2
| step_cancel cause keep ib : inbox_step ib (cancel cause keep ib)
| step_settle parent cs j ib : inbox_step ib (st_inbox (settle parent ib cs j))
| step_take_cancel len ib : inbox_step ib (take_cancel len ib).2
| step_drain_steering ib : inbox_step ib (drain_steering ib).2
| step_drain_followups ib : inbox_step ib (drain_followups ib).2
| step_drain_staged ib : inbox_step ib (drain_staged ib).2
| step_clear ib : inbox_step ib (inbox_clear ib).2.

Section Invariant.
Context `{Codec}.

Lemma of_kind_app (k : InboxKind) (l l' : list InboxMessage) :
  of_kind k (l ++ l') = of_kind k l ++ of_kind k l'.
Proof. apply filter_app. Qed.

(** A batch is a permutation of its three kinds. *)
Lemma of_kinds_perm (p : list InboxMessage) :
  of_kind Steering p ++ of_kind FollowUp p ++ of_kind Injected p ≡ₚ p.
Proof.
  induction p as [|m p IH]; [done|]. rewrite !of_kind_cons.
  destruct (m_kind m); simpl; rewrite <- IH at 4; by solve_Permutation.
Qed.

Lemma settled_perm (ib : Inbox) : all_messages (settled (ib_pending ib) ib) ≡ₚ all_messages ib.
Proof.
  unfold all_messages. simpl.
  assert (Hn : (match ib_pending ib with [] => ib_pending ib | _ => [] end) = [])
    by by destruct (ib_pending ib).
  rewrite Hn. rewrite <- (of_kinds_perm (ib_pending ib)) at 4. simpl. solve_Permutation.
Qed.

(** Emptying queues keeps the invariant. *)
Lemma inbox_ok_shrink (ib ib' : Inbox) :
  inbox_ok ib ->
  (forall k, queue_of k ib' = queue_of k ib \/ queue_of k ib' = []) ->
  ib_pending ib' = ib_pending ib \/ ib_pending ib' = [] ->
  ib_next_seq ib' = ib_next_seq ib -> ib_bounds ib' = ib_bounds ib -> inbox_ok ib'.
Proof.
  intros [Hb Hp Hk Hf Hu Ho] Hq Hpend Hn Hbd.
  assert (Hsub : sublist (all_messages ib') (all_messages ib)).
  { unfold all_messages.
    pose proof (Hq Steering) as H1. pose proof (Hq FollowUp) as H2. pose proof (Hq Injected) as H3.
    simpl in H1, H2, H3.
    repeat apply sublist_app; (match goal with H : ?x = ?y \/ ?x = [] |- sublist ?x ?y =>
      destruct H as [-> | ->]; [done|apply sublist_nil_l] end). }
  assert (Hqs : forall k, sublist (queue_of k ib') (queue_of k ib))
    by (intros k; destruct (Hq k) as [-> | ->]; [done|apply sublist_nil_l]).
  split; rewrite ?Hn, ?Hbd.
  - intros k. specialize (Hb k). pose proof (sublist_length _ _ (Hqs k)).
    destruct Hpend as [-> | ->]; simpl; lia.
  - destruct Hpend as [-> | ->]; simpl; lia.
  - intros k. specialize (Hk k). destruct (Hq k) as [-> | ->]; [done|constructor].
  - rewrite Forall_forall in Hf |- *. intros m Hm. apply Hf.
    by eapply elem_of_sublist.
  - eapply sublist_NoDup; [exact Hu|]. by apply fmap_sublist.
  - intros k. specialize (Ho k). rewrite fmap_app in Ho.
    destruct (Hq k) as [-> | ->], Hpend as [-> | ->]; simpl; rewrite ?fmap_app, ?app_nil_r; try done.
    + by apply StronglySorted_app_1_l in Ho.
    + by apply StronglySorted_app_1_r in Ho.
    + constructor.
Qed.

Lemma inbox_ok_new (b : InboxBounds) : inbox_ok (with_bounds b).
Proof.
  split; simpl; try (intros k; by destruct k); try constructor; try lia.
  all: intros []; simpl; (lia || constructor).
Qed.

Lemma in_queues (k : InboxKind) (ib : Inbox) (x : InboxMessage) :
  x ∈ queue_of k ib ++ of_kind k (ib_pending ib) -> x ∈ all_messages ib.
Proof.
  unfold all_messages, of_kind. rewrite !elem_of_app, list_elem_of_filter.
  destruct k; simpl; tauto.
Qed.

Lemma inbox_ok_send (sender : string) (target : InboxTarget) (wakeup : bool) (content : Value)
    (ib : Inbox) :
  inbox_ok ib -> inbox_ok (send sender target wakeup content ib).2.
Proof.
  intros Hok. unfold send. destruct (ib_source ib); [|done]. cbv zeta.
  destruct (Nat.leb_spec (bound_of (route_kind target wakeup) (ib_bounds ib))
              (length (of_kind (route_kind target wakeup) (ib_pending ib))
               + length (queue_of (route_kind target wakeup) ib))); [done|].
  destruct (Nat.leb_spec (max_pending (ib_bounds ib)) (length (ib_pending ib))); [done|].
  simpl. set (kind := route_kind target wakeup) in *.
  set (m := mkMessage (ib_next_seq ib) kind sender content).
  destruct Hok as [Hb Hp Hk Hf Hu Ho].
  assert (Hlt : forall x, x ∈ all_messages ib -> (m_seq x < ib_next_seq ib)%N)
    by (rewrite Forall_forall in Hf; exact Hf).
  assert (Hperm : all_messages (mkInbox (ib_pending ib ++ [m]) (ib_steering ib)
      (ib_followups ib) (ib_staged ib) (ib_next_seq ib + 1) (ib_cancel ib) Live (ib_bounds ib))
      ≡ₚ m :: all_messages ib) by (unfold all_messages; simpl; solve_Permutation).
  assert (Hkm : forall k, of_kind k [m] = if decide (kind = k) then [m] else [])
    by (intros k; unfold of_kind; rewrite filter_cons; simpl; by destruct (decide _)).
  split; simpl.
  - intros k. replace (queue_of k _) with (queue_of k ib) by by destruct k.
    rewrite of_kind_app, length_app, Hkm. specialize (Hb k).
    destruct (decide (kind = k)) as [<-|]; simpl in *; lia.
  - rewrite length_app. simpl. lia.
  - intros k. specialize (Hk k). by destruct k.
  - rewrite Hperm. constructor; [simpl; lia|].
    eapply Forall_impl; [exact Hf|]. intros x Hx. simpl in Hx. lia.
  - rewrite Hperm. csimpl. constructor; [|done].
    intros (x & Hx & Hin)%list_elem_of_fmap. apply Hlt in Hin. lia.
  - intros k. replace (queue_of k _) with (queue_of k ib) by by destruct k.
    rewrite of_kind_app, Hkm, (assoc_L app), fmap_app.
    destruct (decide (kind = k)); [|simpl; rewrite app_nil_r; apply Ho].
    apply StronglySorted_app_2; [|apply Ho|repeat constructor].
    intros x1 x2 (x & -> & Hx)%list_elem_of_fmap Hx2.
    apply list_elem_of_singleton in Hx2 as ->. apply Hlt. by apply in_queues in Hx.
Qed.

Lemma inbox_ok_settle (parent : option string) (ib : Inbox) (cs : Clocks) (j : Journal) :
  ib_source ib = Live -> inbox_ok ib -> inbox_ok (st_inbox (settle parent ib cs j)).
Proof.
  intros Hl [Hb Hp Hk Hf Hu Ho]. unfold settle. rewrite Hl, settle_live_inbox. cbv zeta.
  cbn [st_inbox].
  assert (Hpend : ib_pending (settled (ib_pending ib) ib) = [])
    by (simpl; by destruct (ib_pending ib)).
  assert (Hq : forall k, queue_of k (settled (ib_pending ib) ib)
                         = queue_of k ib ++ of_kind k (ib_pending ib)) by by intros [].
  pose proof (settled_perm ib) as Hperm.
  split; rewrite ?Hpend.
  - intros k. rewrite Hq, length_app. specialize (Hb k). simpl. lia.
  - simpl. lia.
  - intros k. rewrite Hq. apply Forall_app. split; [apply Hk|].
    apply Forall_forall. by intros m [? _]%list_elem_of_filter.
  - by rewrite Hperm.
  - by rewrite Hperm.
  - intros k. rewrite Hq. unfold of_kind at 2. rewrite filter_nil, app_nil_r. apply Ho.
Qed.

(** A live inbox stays live and keeps its bounds. *)
Lemma step_live (ib ib' : Inbox) :
  inbox_step ib ib' -> ib_source ib = Live -> inbox_ok ib ->
  ib_source ib' = Live /\ ib_bounds ib' = ib_bounds ib
  /\ (ib_next_seq ib <= ib_next_seq ib')%N /\ inbox_ok ib'.
Proof.
  intros Hstep Hl Hok. destruct Hstep.
  - split_and!; [..|by apply inbox_ok_send]; unfold send; rewrite Hl; cbv zeta;
      (destruct (_ <=? _)%nat; [|destruct (_ <=? _)%nat]); simpl; done || lia.
  - unfold cancel. destruct (ib_cancel ib); [done|].
    split_and!; [done|done|simpl; lia|]. apply (inbox_ok_shrink ib); auto.
  - split_and!; [..|by apply inbox_ok_settle];
      unfold settle; rewrite Hl, settle_live_inbox; simpl; done || lia.
  - unfold take_cancel. rewrite Hl. simpl. split_and!; [done|done|lia|].
    apply (inbox_ok_shrink ib); auto.
  - simpl. split_and!; [done|done|lia|]. apply (inbox_ok_shrink ib); auto.
    intros []; simpl; auto.
  - simpl. split_and!; [done|done|lia|]. apply (inbox_ok_shrink ib); auto.
    intros []; simpl; auto.
  - simpl. split_and!; [done|done|lia|]. apply (inbox_ok_shrink ib); auto.
    intros []; simpl; auto.
  - simpl. split_and!; [done|done|lia|]. apply (inbox_ok_shrink ib); auto.
    intros []; simpl; auto.
Qed.

(** However sends, settlements, drains, cancellations and clears are
    interleaved, a live inbox keeps its promises: no queue ever exceeds its
    bound (settled and unsettled messages of a kind counted together) and
    the pending buffer never exceeds its own; every queue holds only
    messages of its kind, in arrival order; and no two messages ever share
    a sequence number, all of them below the next one to be issued. *)
Theorem inbox_invariant (b : InboxBounds) (ib : Inbox) :
  rtc inbox_step (with_bounds b) ib -> ib_bounds ib = b /\ inbox_ok ib.
Proof.
  intros Hr. enough (ib_source ib = Live /\ ib_bounds ib = b /\ inbox_ok ib) by tauto.
  revert ib Hr. apply rtc_ind_r; [split_and!; [done..|apply inbox_ok_new]|].
  intros ib' ib'' _ Hstep (Hl & Hbd & Hok). destruct (step_live _ _ Hstep Hl Hok) as (Hl' & Hbd' & _ & Hok'). split_and!; congruence.
Qed.
End Invariant.

(** ** Replay *)
Section Replay.
Context `{Codec}.

(** The queues of a live inbox and of a replaying one agree. *)
Definition same_queues (ib r : Inbox) : Prop := forall k, queue_of k ib = queue_of k r.

(** Events sit at the index their sequence number says, from [i] on. *)
Fixpoint placed_from (i : nat) (es : list RunEvent) : Prop :=
  match es with [] => True | e :: es' => ev_seq e = N.of_nat i /\ placed_from (S i) es' end.

(** The next event is not an intake. *)
Definition next_not_intake (es : list RunEvent) : Prop :=
  match es with e :: _ => ev_kind e <> KInboxIntake | [] => True end.

Lemma enqueue_same (m : InboxMessage) (ib r : Inbox) :
  same_queues ib r -> same_queues (enqueue m ib) (enqueue m r).
Proof.
  intros Hs k. pose proof (Hs k) as Hk.
  destruct k; simpl in *; destruct (decide _); congruence.
Qed.

(** The first intake of a schedule is not before its events. *)
Lemma schedule_first (s : JournalSnapshot) (i : nat) (es : list RunEvent)
    (pts : list ScheduledPoint) (seq : N) (m : InboxMessage) (rest : list ScheduledPoint) :
  placed_from i es -> schedule s es = Ok pts -> pts = IntakePoint seq m :: rest ->
  (N.of_nat i <= seq)%N.
Proof.
  revert i pts. induction es as [|e es IH]; intros i pts Hpl Hs ->; simpl in Hs; [done|].
  destruct Hpl as [Hseq Hpl].
  apply bind_Ok in Hs as (p & Hp & (ps & Hps & Heq)%bind_Ok).
  destruct p as [p|].
  - injection Heq as -> ->. unfold scheduled_point in Hp.
    destruct (ev_kind e); simplify_result; try done; lia.
  - injection Heq as ->. specialize (IH _ _ Hpl Hps eq_refl). lia.
Qed.

(** A replay settlement stops where the recorded one did. *)
Lemma settle_replay_stops (parent : option string) (s : JournalSnapshot) (rest : list RunEvent)
    (pts : list ScheduledPoint) (st : Settling) :
  placed_from (length (j_events (st_journal st))) rest -> schedule s rest = Ok pts ->
  next_not_intake rest -> settle_replay parent pts st = st.
Proof.
  intros Hpl Hs Hn. destruct pts as [|[seq m|] pts]; simpl; [done| |done].
  destruct rest as [|e rest]; [done|]. destruct Hpl as [Hseq Hpl]. simpl in Hs, Hn.
  apply bind_Ok in Hs as (p & Hp & (ps & Hps & Heq)%bind_Ok).
  destruct p as [p|].
  - injection Heq as -> ->. unfold scheduled_point in Hp.
    destruct (ev_kind e); simplify_result; done.
  - injection Heq as ->. pose proof (schedule_first _ _ _ _ _ _ _ Hpl Hps eq_refl).
    destruct (N.leb_spec seq (N.of_nat (length (j_events (st_journal st))))); [lia|done].
Qed.

(** One released message has the same effect in both modes. *)
Lemma settle_one_same (parent : option string) (m : InboxMessage) (s s' : Settling) :
  st_last s = st_last s' -> st_clocks s = st_clocks s' -> st_journal s = st_journal s' ->
  same_queues (st_inbox s) (st_inbox s') ->
  st_last (settle_one parent s m) = st_last (settle_one parent s' m)
  /\ st_clocks (settle_one parent s m) = st_clocks (settle_one parent s' m)
  /\ st_journal (settle_one parent s m) = st_journal (settle_one parent s' m)
  /\ same_queues (st_inbox (settle_one parent s m)) (st_inbox (settle_one parent s' m)).
Proof.
  intros E1 E2 E3 Hq. rewrite !settle_one_inbox. unfold settle_one. rewrite E1, E2, E3.
  destruct (record _ _ _) as [[id cs] j]. split_and!; [done..|]. by apply enqueue_same.
Qed.

Lemma settle_sim (parent : option string) (snap : JournalSnapshot) (p : list InboxMessage)
    (rest : list RunEvent) (s s' : Settling) (future : list RunEvent)
    (pts : list ScheduledPoint) :
  st_last s = st_last s' -> st_clocks s = st_clocks s' -> st_journal s = st_journal s' ->
  same_queues (st_inbox s) (st_inbox s') ->
  ib_source (st_inbox s') = Replay pts ->
  j_events (st_journal (settle_live parent p s)) ++ rest
    = j_events (st_journal s) ++ future ->
  placed_from (length (j_events (st_journal s))) future ->
  schedule snap future = Ok pts -> next_not_intake rest ->
  Forall (fun m => resolve_payload snap (payload_ref (message_value m))
                   = Some (message_value m)) p ->
  let live := settle_live parent p s in
  let again := settle_replay parent pts s' in
  st_last again = st_last live /\ st_clocks again = st_clocks live
  /\ st_journal again = st_journal live /\ same_queues (st_inbox live) (st_inbox again)
  /\ exists pts', ib_source (st_inbox again) = Replay pts' /\ schedule snap rest = Ok pts'.
Proof.
  revert s s' future pts. induction p as [|m p IH];
    intros s s' future pts E1 E2 E3 Hq Hsrc Hev Hpl Hsch Hn Hres; cbv zeta.
  - simpl in *. apply app_inv_head in Hev as <-.
    rewrite (settle_replay_stops parent snap rest) by (by rewrite <- ?E3).
    split_and!; [done..|]. eauto.
  - inversion_clear Hres as [|? ? Hm Hres']. simpl in *.
    set (s0 := mkSettling _ (set_pending p (st_inbox s)) _ _) in *.
    destruct (settle_one_journal parent s0 m) as (e & He & Hie & _).
    destruct (settle_live_journal parent p (settle_one parent s0 m)) as (es & Hes & _).
    rewrite Hes, He in Hev. simpl in Hev. rewrite <- !(assoc_L app) in Hev.
    apply app_inv_head in Hev. simpl in Hev. subst future.
    destruct Hpl as [Hseq Hpl]. destruct Hie as (Hk & _ & Hout & _).
    simpl in Hsch. apply bind_Ok in Hsch as (q & Hq' & (ps & Hps & Heq)%bind_Ok).
    unfold scheduled_point in Hq'. rewrite Hk, Hout in Hq'. simpl in Hq'.
    rewrite Hm in Hq'. simpl in Hq'. rewrite message_roundtrip in Hq'. simpl in Hq'.
    injection Hq' as <-. injection Heq as <-. simpl.
    rewrite Hseq, <- E3, N.leb_refl.
    set (s0' := mkSettling _ (set_source (Replay ps) (st_inbox s')) _ _).
    destruct (settle_one_same parent m s0 s0') as (F1 & F2 & F3 & F4);
      [done..| |].
    { intros k. specialize (Hq k). by destruct k. }
    assert (Hsrc' : ib_source (st_inbox (settle_one parent s0' m)) = Replay ps)
      by by rewrite settle_one_inbox.
    apply (IH _ _ (es ++ rest) ps F1 F2 F3 F4 Hsrc'); try done.
    + by rewrite Hes, <- (assoc_L app).
    + rewrite He, length_app. simpl. by rewrite Nat.add_1_r.
Qed.

(** Exact replay of a settlement. Let a live inbox settle its pending
    messages at some point of a run, and let the run go on and be recorded.
    A replaying inbox holding the same queues and the rest of the recorded
    schedule, settled at the same point, releases exactly those messages: it
    writes the same events at the same sequence numbers with the same ids,
    parents and timestamps, ends with the same queues, and is left with the
    schedule of what was recorded afterwards. (The next recorded event is
    not itself an intake, and the snapshot resolves the message payloads.) *)
Theorem settle_replays (parent : option string) (ib r : Inbox) (cs : Clocks) (j : Journal)
    (snap : JournalSnapshot) (rest : list RunEvent) (pts : list ScheduledPoint) :
  ib_source ib = Live -> ib_source r = Replay pts -> same_queues ib r ->
  let live := settle parent ib cs j in
  js_events snap = j_events (st_journal live) ++ rest ->
  placed_from 0 (js_events snap) ->
  schedule snap (drop (length (j_events j)) (js_events snap)) = Ok pts ->
  next_not_intake rest ->
  Forall (fun m => resolve_payload snap (payload_ref (message_value m))
                   = Some (message_value m)) (ib_pending ib) ->
  let again := settle parent r cs j in
  st_last again = st_last live /\ st_clocks again = st_clocks live
  /\ st_journal again = st_journal live /\ same_queues (st_inbox live) (st_inbox again)
  /\ exists pts', ib_source (st_inbox again) = Replay pts' /\ schedule snap rest = Ok pts'.
Proof.
  intros Hl Hr Hq. cbv zeta. unfold settle. rewrite Hl, Hr.
  intros Hev Hpl Hsch Hn Hres.
  destruct (settle_live_journal parent (ib_pending ib) (mkSettling None ib cs j))
    as (es & Hes & _). simpl in Hes.
  apply (settle_sim parent snap (ib_pending ib) rest (mkSettling None ib cs j)
           (mkSettling None r cs j) (es ++ rest) pts); try done; simpl.
  - by rewrite Hes, <- (assoc_L app).
  - rewrite Hev, Hes, <- (assoc_L app) in Hpl.
    change (length (j_events j)) with (0 + length (j_events j)).
    revert Hpl. generalize 0. clear. induction (j_events j) as [|e l IH]; intros i Hpl; simpl in *.
    + by rewrite Nat.add_0_r.
    + destruct Hpl as [_ Hpl]. apply IH in Hpl. by rewrite Nat.add_succ_r.
  - by rewrite Hev, Hes, <- (assoc_L app), drop_app_length in Hsch.
Qed.

(** The inbox a replaying run checkpoints is absent. A replaying inbox
    never counts a sequence number, so whatever it has settled into its
    queues, the snapshot it hands to the checkpoint is [None]. *)
Theorem replaying_snapshot_absent (snap : JournalSnapshot) (r : Inbox) (parent : option string)
    (cs : Clocks) (j : Journal) :
  replaying snap = Ok r -> inbox_snapshot (st_inbox (settle parent r cs j)) = None.
Proof.
  unfold replaying. intros (pts & _ & [= <-])%bind_Ok. unfold settle. simpl.
  set (s := mkSettling None _ cs j).
  assert (Hs : ib_next_seq (st_inbox s) = 0%N) by done. clearbody s.
  enough (ib_next_seq (st_inbox (settle_replay parent pts s)) = 0%N) as Hn
    by (unfold inbox_snapshot; by rewrite Hn).
  revert s Hs. induction pts as [|[seq m|] pts IH]; intros s Hs; simpl; [done| |done].
  destruct (_ <=? _)%N; [|done]. apply IH. by rewrite settle_one_inbox.
Qed.
End Replay.

(** ** Snapshots and cancellation *)

(** A checkpoint stamps everything a resume needs of the inbox. The
    snapshot of a settled inbox, seeded into a fresh one, restores the three
    queues and the sequence counter, while seeding an inbox that has accepted
    sends changes nothing (so the handle carried across a suspension never has
    its messages duplicated). *)
Theorem seed_restores (ib : Inbox) (s : InboxSnapshot) (b : InboxBounds) :
  inbox_snapshot ib = Some s ->
  (forall k, queue_of k (seed s (with_bounds b)) = queue_of k ib)
  /\ ib_next_seq (seed s (with_bounds b)) = ib_next_seq ib
  /\ inbox_snapshot (seed s (with_bounds b)) = Some s
  /\ (forall s', seed s' ib = ib).
Proof.
  unfold inbox_snapshot. destruct (N.eqb_spec (ib_next_seq ib) 0) as [|Hn]; [done|].
  intros [= <-]. split_and!.
  - by intros [].
  - done.
  - simpl. by rewrite (proj2 (N.eqb_neq _ _) Hn).
  - intros s'. unfold seed, is_fresh. by rewrite (proj2 (N.eqb_neq _ _) Hn).
Qed.

Section Cancellation.
Context `{Codec}.

(** The steps that do not observe the cancellation request. *)
Inductive quiet_step : Inbox -> Inbox -> Prop :=
| quiet_send sender target wakeup content ib :
    quiet_step ib (send sender target wakeup content ib).2
| quiet_cancel cause keep ib : quiet_step ib (cancel cause keep ib)
| quiet_settle parent cs j ib : quiet_step ib (st_inbox (settle parent ib cs j))
| quiet_clear ib : quiet_step ib (inbox_clear ib).2.

Lemma quiet_keeps (ib ib' : Inbox) (c : CancelCause * bool) :
  quiet_step ib ib' -> ib_source ib = Live -> ib_cancel ib = Some c ->
  ib_source ib' = Live /\ ib_cancel ib' = Some c.
Proof.
  intros Hstep Hl Hc. destruct Hstep.
  - unfold send. rewrite Hl. cbv zeta.
    destruct (_ <=? _)%nat; [done|]. by destruct (_ <=? _)%nat.
  - unfold cancel. by rewrite Hc.
  - unfold settle. by rewrite Hl, settle_live_inbox.
  - done.
Qed.

(** A run is cancelled once, by the first request. From the first
    cancellation on, whatever is sent, settled, cleared or cancelled again,
    the executor's next observation gets the first cause and disposition,
    and the one after that gets nothing. *)
Theorem first_cancel_wins (ib ib' : Inbox) (cause : CancelCause) (keep : bool) (n n' : N) :
  ib_source ib = Live -> ib_cancel ib = None ->
  rtc quiet_step (cancel cause keep ib) ib' ->
  (take_cancel n ib').1 = Some (cause, keep)
  /\ (take_cancel n' (take_cancel n ib').2).1 = None.
Proof.
  intros Hl Hc Hr.
  assert (Hend : ib_source ib' = Live /\ ib_cancel ib' = Some (cause, keep)).
  { revert ib' Hr. apply rtc_ind_r; [unfold cancel; by rewrite Hc|].
    intros x y _ Hstep [Hx1 Hx2]. by eapply quiet_keeps. }
  destruct Hend as [H1 H2]. unfold take_cancel. rewrite H1, H2. simpl. by rewrite H1.
Qed.
End Cancellation.

(** ** Concrete inboxes *)
Module InboxExamples.
Import Sample JournalExamples.
Local Open Scope string_scope.

(** A steering message and a follow-up, not yet settled. *)
Definition two_sends : Inbox := (followup (Str "later") (steer (Str "now") inbox_new).2).2.

Lemma settle_live_exact_witness :
  let s := settle (Some "root") two_sends clocks fresh in
  ib_pending two_sends <> [] /\ ib_pending (st_inbox s) = []
  /\ queue_of Steering (st_inbox s) = [mkMessage 0 Steering "user" (Str "now")].
Proof.
  destruct (settle_live_exact (Some "root") two_sends clocks fresh) as (H1 & H2 & _); [done|].
  split_and!; [done|exact H1|]. rewrite (H2 Steering). reflexivity.
Defined.

Lemma inbox_invariant_witness :
  ib_pending two_sends <> [] /\ inbox_ok (st_inbox (settle None two_sends clocks fresh)).
Proof.
  split; [done|]. apply (inbox_invariant default_bounds).
  eapply rtc_l; [apply (step_send DEFAULT_SENDER NextStep true (Str "now"))|].
  eapply rtc_l; [apply (step_send DEFAULT_SENDER NextTurn false (Str "later"))|].
  eapply rtc_l; [apply (step_settle None clocks fresh)|]. apply rtc_refl.
Defined.

(** The run settles both messages, then records a step. *)
Definition live_settled : Settling := settle None two_sends clocks fresh.
Definition after_step : Journal :=
  (append_event 9 (draft_new KSuperStepStart Pure) (st_journal live_settled)).2.
Definition tape : JournalSnapshot := snapshot after_step.
Definition replay_inbox : Inbox :=
  match replaying tape with Ok r => r | Err _ => inbox_new end.

Lemma settle_replays_witness :
  st_journal (settle None replay_inbox clocks fresh) = st_journal live_settled
  /\ length (j_events (st_journal live_settled)) = 2.
Proof.
  split; [|by vm_compute].
  destruct (settle_replays None two_sends replay_inbox clocks fresh tape
              (drop 2 (j_events after_step))
              [IntakePoint 0 (mkMessage 0 Steering "user" (Str "now"));
               IntakePoint 1 (mkMessage 1 FollowUp "user" (Str "later"))])
    as (_ & _ & Hj & _).
  - reflexivity.
  - by vm_compute.
  - intros []; by vm_compute.
  - by vm_compute.
  - by vm_compute.
  - by vm_compute.
  - by vm_compute.
  - repeat constructor; by vm_compute.
  - exact Hj.
Defined.

Lemma replaying_snapshot_absent_witness :
  let s := settle None replay_inbox clocks fresh in
  inbox_len (st_inbox s) = 2 /\ inbox_snapshot (st_inbox s) = None.
Proof.
  split; [by vm_compute|].
  apply (replaying_snapshot_absent tape replay_inbox None clocks fresh). by vm_compute.
Defined.

Lemma seed_restores_witness :
  exists s, inbox_snapshot (st_inbox live_settled) = Some s
    /\ queue_of FollowUp (seed s inbox_new) = [mkMessage 1 FollowUp "user" (Str "later")].
Proof.
  eexists. split; [by vm_compute|].
  match goal with |- queue_of _ (seed ?s _) = _ =>
    destruct (seed_restores (st_inbox live_settled) s default_bounds) as [Hq _] end;
    [by vm_compute|].
  etransitivity; [apply (Hq FollowUp)|]. by vm_compute.
Defined.

Lemma first_cancel_wins_witness :
  (take_cancel 0 (cancel CauseParent true (steer Null (cancel CauseUser false inbox_new)).2)).1
  = Some (CauseUser, false).
Proof.
  apply (first_cancel_wins inbox_new _ CauseUser false 0 0); [done|done|].
  eapply rtc_l; [apply (quiet_send DEFAULT_SENDER NextStep true Null)|].
  eapply rtc_l; [apply (quiet_cancel CauseParent true)|]. apply rtc_refl.
Defined.
End InboxExamples.
