(* ===== verification/Checkpoint.v ===== *)
(** * Checkpoints ([rusty-core/src/checkpoint.rs])

    Checkpoints and their headers, the delta encoding (diff against the
    thread's head, fold on read), the [Checkpointer] interface, and its
    in-memory backend. *)

From Stdlib Require Import String Ascii SpecFloat.
From S2P Require Import Prelude Containers Json Error State Record Journal Inbox.
Local Open Scope string_scope.

(** ** Data *)

(** [CheckpointHeader] and its default. *)
Record CheckpointHeader : Type := mkHeader {
  h_format_version : N;
  h_graph_version : string;
  h_graph_hash : string;
  h_policy_version : PolicyVersion;
  h_logical_clock : N;
  h_manifest : option RunManifest;
  h_inbox : option InboxSnapshot;
}.

Definition default_header : CheckpointHeader :=
  mkHeader CURRENT_FORMAT_VERSION "unversioned" EmptyString STATIC_V0 0 None None.

(** [Checkpoint]. *)
Record Checkpoint : Type := mkCheckpoint {
  c_id : string;
  c_thread_id : string;
  c_step : nat;
  c_state : State;
  c_next_nodes : list string;
  c_created_at : DateTime;
  c_base : option string;
  c_header : CheckpointHeader;
  c_journal_ref : option JournalRef;
}.

Definition set_base (b : option string) (c : Checkpoint) : Checkpoint :=
  mkCheckpoint (c_id c) (c_thread_id c) (c_step c) (c_state c) (c_next_nodes c)
    (c_created_at c) b (c_header c) (c_journal_ref c).

Definition set_state (s : State) (c : Checkpoint) : Checkpoint :=
  mkCheckpoint (c_id c) (c_thread_id c) (c_step c) s (c_next_nodes c)
    (c_created_at c) (c_base c) (c_header c) (c_journal_ref c).

Definition set_thread (t : string) (c : Checkpoint) : Checkpoint :=
  mkCheckpoint (c_id c) t (c_step c) (c_state c) (c_next_nodes c)
    (c_created_at c) (c_base c) (c_header c) (c_journal_ref c).

(** ** Delta encoding *)

(** [f64] arithmetic: binary64, rounded to nearest even. *)
Definition f64_of_nat (n : nat) : spec_float := binary_normalize 53 1024 (Z.of_nat n) 0 false.
Definition f64_mul : spec_float -> spec_float -> spec_float := SFmul 53 1024.

(** [DeltaPolicy], its default (32 links, ratio 0.8) and [full_only]. *)
Record DeltaPolicy : Type := mkPolicy {
  max_chain_len : nat;
  max_byte_ratio : spec_float;
}.

Definition f64_0_8 : spec_float := S754_finite false 7205759403792794 (-53).
Definition default_policy : DeltaPolicy := mkPolicy 32 f64_0_8.
Definition full_only : DeltaPolicy := mkPolicy 0 (S754_zero false).

Definition deltas_enabled (p : DeltaPolicy) : bool := (0 <? max_chain_len p)%nat.

(** [DeltaHead]. *)
Record DeltaHead : Type := mkHead {
  dh_checkpoint : Checkpoint;
  dh_chain_len : nat;
}.

(** [DeltaEncoding]. *)
Record DeltaEncoding : Type := mkEncoding {
  de_checkpoint : Checkpoint;
  de_chain_len : nat;
}.

(** [DeltaEncoding::full]. *)
Definition encode_full (c : Checkpoint) : DeltaEncoding := mkEncoding (set_base None c) 0.

Section Encoding.
Context `{Codec}.

(** [state_bytes]; the source panics where the serializer fails. *)
Definition state_bytes (s : State) : nat :=
  String.length (default EmptyString (to_vec (to_value s))).

(** [encode_delta]. *)
Definition encode_delta (c : Checkpoint) (head : option DeltaHead) (policy : DeltaPolicy) :
    DeltaEncoding :=
  match (if deltas_enabled policy then head else None) with
  | None => encode_full c
  | Some h =>
      if (max_chain_len policy <=? dh_chain_len h)%nat then encode_full c
      else
        let delta := from_shared_channels
                       (channels_changed_since (c_state c) (c_state (dh_checkpoint h))) in
        let delta_bytes := state_bytes delta in
        let full_bytes := state_bytes (c_state c) in
        if SFleb (f64_mul (max_byte_ratio policy) (f64_of_nat full_bytes))
                 (f64_of_nat delta_bytes)
        then encode_full c
        else mkEncoding (set_base (Some (c_id (dh_checkpoint h))) (set_state delta c))
               (dh_chain_len h + 1)
  end.
End Encoding.

(** [fold_delta]. *)
Definition fold_delta (base delta : Checkpoint) : Checkpoint :=
  let state := fold_left (fun s kv => state_insert s kv.1 kv.2) (inner (c_state delta))
                 (c_state base) in
  set_base None (set_state state delta).

(** The link loop of [fold_chain]. *)
Fixpoint fold_links (tip : Checkpoint) (links : list Checkpoint) : res Checkpoint :=
  match links with
  | [] => Ok tip
  | link :: rest =>
      if decide (c_base link = Some (c_id tip)) then fold_links (fold_delta tip link) rest
      else Err (ECheckpoint ("checkpoint `" ++ c_id link ++ "` claims base `"
                  ++ debug_opt (c_base link) ++ "` but follows `" ++ c_id tip
                  ++ "`; the chain is broken"))
  end.

(** [fold_chain]. *)
Definition fold_chain (chain : list Checkpoint) : res Checkpoint :=
  match chain with
  | [] => Err (ECheckpoint "cannot fold an empty checkpoint chain")
  | root :: links =>
      match c_base root with
      | Some base =>
          Err (ECheckpoint ("checkpoint chain root `" ++ c_id root
                 ++ "` is itself a delta against `" ++ base ++ "`; the chain is broken"))
      | None => fold_links root links
      end
  end.

(** ** Materializing a whole thread *)

(** [by_id]: the raw checkpoints keyed by id (a later duplicate wins). *)
Definition index_by_id (raw : list Checkpoint) : gmap string Checkpoint :=
  fold_left (fun m c => <[c_id c := c]> m) raw ∅.

(** The [while let] walk of [materialize_all] up the base chain: the collected
    links (last pushed first) and the resolved base, or [None] where the walk
    meets a cycle or a missing base. [fuel] bounds the visited ids. *)
Fixpoint walk (by_id memo : gmap string Checkpoint) (fuel : nat) (visiting : list string)
    (links : list Checkpoint) (current : Checkpoint) : option (list Checkpoint * Checkpoint) :=
  match fuel with
  | O => None
  | S fuel' =>
      if decide (c_id current ∈ visiting) then None
      else
        match memo !! c_id current with
        | Some materialized => Some (links, materialized)
        | None =>
            match c_base current with
            | None => Some (links, current)
            | Some base_id =>
                match by_id !! base_id with
                | Some base =>
                    walk by_id memo fuel' (c_id current :: visiting) (current :: links) base
                | None => None
                end
            end
        end
  end.

(** Folding the collected links root-ward to the tip, memoizing each. *)
Fixpoint fold_memo (tip : Checkpoint) (links : list Checkpoint)
    (memo : gmap string Checkpoint) : Checkpoint * gmap string Checkpoint :=
  match links with
  | [] => (tip, memo)
  | link :: rest =>
      let tip' := fold_delta tip link in fold_memo tip' rest (<[c_id link := tip']> memo)
  end.

(** One iteration of the ['starts] loop. *)
Definition materialize_one (by_id : gmap string Checkpoint)
    (s : gmap string Checkpoint * list Checkpoint) (start_id : string) :
    gmap string Checkpoint * list Checkpoint :=
  let '(memo, out) := s in
  match memo !! start_id with
  | Some materialized => (memo, out ++ [materialized])%list
  | None =>
      match by_id !! start_id with
      | None => s
      | Some start =>
          match walk by_id memo (S (size by_id)) [] [] start with
          | None => s
          | Some (links, folded) =>
              let '(tip, memo') := fold_memo folded links memo in (memo', out ++ [tip])%list
          end
      end
  end.

(** [materialize_all]; [order] is the iteration order of [by_id]'s keys. *)
Definition materialize_ordered (by_id : gmap string Checkpoint) (order : list string) :
    list Checkpoint :=
  (fold_left (materialize_one by_id) order (∅, [])).2.

Definition materialize_all (raw : list Checkpoint) : list Checkpoint :=
  let by_id := index_by_id raw in
  materialize_ordered by_id (map_to_list by_id).*1.

(** [ensure_supported_format]. *)
Definition ensure_supported_format (h : CheckpointHeader) (what : string) : res unit :=
  if (CURRENT_FORMAT_VERSION <? h_format_version h)%N
  then Err (ECheckpoint (what ++ " was written in checkpoint format version "
              ++ pretty (h_format_version h) ++ ", but this build supports version "
              ++ pretty CURRENT_FORMAT_VERSION ++ " — upgrade the runtime to read it; newer "
              ++ "checkpoint bytes are never silently reinterpreted"))
  else Ok ().

(** ** The interface *)

(** The [Checkpointer] trait over a store state [St]. Reads may fill caches,
    so [get_latest] and its peers are pure and [put] threads the state. *)
Class Checkpointer (St : Type) : Type := {
  put : Checkpoint -> St -> res unit * St;
  get_latest : string -> St -> res (option Checkpoint);
  list_checkpoints : string -> St -> res (list Checkpoint);
  get_by_id : string -> string -> St -> res (option Checkpoint);
  fork_thread : string -> string -> option string -> St -> res nat * St;
}.

(** The listing order: ascending [(step, created_at, id)]. *)
Definition cp_leb (a b : Checkpoint) : bool :=
  (c_step a <? c_step b)%nat
  || ((c_step a =? c_step b)%nat
      && ((c_created_at a <? c_created_at b)%Z
          || ((c_created_at a =? c_created_at b)%Z && str_leb (c_id a) (c_id b)))).

(** The selection of [fork_thread]. *)
Fixpoint up_to (id : string) (l : list Checkpoint) : option (list Checkpoint) :=
  match l with
  | [] => None
  | c :: rest => if String.eqb (c_id c) id then Some [c] else cons c <$> up_to id rest
  end.

Definition select_fork (src dst : string) (at_id : option string) (all : list Checkpoint) :
    res (list Checkpoint) :=
  match all with
  | [] => Err (ECheckpoint ("cannot fork thread `" ++ src ++ "`: no checkpoints found"))
  | _ =>
      match at_id with
      | None => Ok all
      | Some id =>
          ok_or (up_to id all)
            (ECheckpoint ("cannot fork thread `" ++ src ++ "`: unknown checkpoint id `"
                          ++ id ++ "`"))
      end
  end.

(** A run of stores under one of the backends' write paths. *)
Fixpoint put_all {St : Type} (store : Checkpoint -> St -> res unit * St)
    (l : list Checkpoint) (st : St) : res unit * St :=
  match l with
  | [] => (Ok (), st)
  | c :: rest =>
      match store c st with
      | (Err e, st') => (Err e, st')
      | (Ok _, st') => put_all store rest st'
      end
  end.

(** [Checkpointer::fork_thread]; [relabel] is what the backend does to a
    copied checkpoint before storing it. *)
Definition fork_with {St : Type} (store : Checkpoint -> St -> res unit * St)
    (list_of : string -> St -> res (list Checkpoint)) (relabel : Checkpoint -> Checkpoint)
    (src dst : string) (at_id : option string) (st : St) : res nat * St :=
  if String.eqb src dst then
    (Err (ECheckpoint ("cannot fork thread `" ++ src
            ++ "` onto itself: checkpoint ids would collide")), st)
  else
    match (all ← list_of src st; select_fork src dst at_id all) with
    | Err e => (Err e, st)
    | Ok selected =>
        match put_all store (map relabel selected) st with
        | (Err e, st') => (Err e, st')
        | (Ok _, st') => (Ok (length selected), st')
        end
    end.

(** ** The in-memory backend *)

(** [InMemoryCheckpointer]: checkpoints per thread in insertion order. *)
Record InMemoryCheckpointer : Type := mkMem { mem_threads : gmap string (list Checkpoint) }.

Definition mem_thread (t : string) (st : InMemoryCheckpointer) : list Checkpoint :=
  default [] (mem_threads st !! t).

Definition already_exists (c : Checkpoint) : RustyError :=
  ECheckpoint ("checkpoint id `" ++ c_id c ++ "` already exists for thread `"
               ++ c_thread_id c ++ "`").

(** [InMemoryCheckpointer::put]. *)
Definition mem_put (c : Checkpoint) (st : InMemoryCheckpointer) :
    res unit * InMemoryCheckpointer :=
  let entry := mem_thread (c_thread_id c) st in
  if existsb (fun x => String.eqb (c_id x) (c_id c)) entry
  then (Err (already_exists c), mkMem (<[c_thread_id c := entry]> (mem_threads st)))
  else (Ok (), mkMem (<[c_thread_id c := (entry ++ [c])%list]> (mem_threads st))).

(** [InMemoryCheckpointer::get_latest], [list], and the trait's default
    [get_by_id]. *)
Definition mem_get_latest (t : string) (st : InMemoryCheckpointer) : res (option Checkpoint) :=
  Ok (last (mem_thread t st)).

Definition mem_list (t : string) (st : InMemoryCheckpointer) : res (list Checkpoint) :=
  Ok (sort_by cp_leb (mem_thread t st)).

Definition find_id (id : string) (l : list Checkpoint) : option Checkpoint :=
  find (fun c => String.eqb (c_id c) id) l.

Definition mem_get_by_id (t id : string) (st : InMemoryCheckpointer) : res (option Checkpoint) :=
  all ← mem_list t st; Ok (find_id id all).

#[export] Instance in_memory_checkpointer : Checkpointer InMemoryCheckpointer := {
  put := mem_put;
  get_latest := mem_get_latest;
  list_checkpoints := mem_list;
  get_by_id := mem_get_by_id;
  fork_thread src dst at_id := fork_with mem_put mem_list (set_thread dst) src dst at_id;
}.
