(* ===== verification/FileCheckpoint.v ===== *)
(** * The JSON-file checkpointer ([rusty-core/src/checkpoint.rs])

    [JsonFileCheckpointer]: one file per checkpoint under a directory per
    thread, a [latest] pointer file, the in-process cache of materialized
    heads, delta encoding on write and chain folding on read, and the forgiving
    read paths.

    File contents are of an abstract type [B] with the encoder and decoder of
    checkpoints; a directory maps checkpoint ids to contents (the file
    [<id>.json]). The environment may make any file operation fail. *)

From Stdlib Require Import String Ascii.
From S2P Require Import Prelude Containers Json Error State Record Checkpoint.
Local Open Scope string_scope.

(** [serde_json::to_vec_pretty] and [from_slice] at [Checkpoint]. *)
Class CheckpointCodec (B : Type) : Type := {
  cp_encode : Checkpoint -> result string B;
  cp_decode : B -> result string Checkpoint;
}.

(** File operations. *)
Inductive JfOp : Type := JMkdir | JStat | JWrite | JWriteLatest | JReadDir | JRead.

(** A thread's directory. [td_latest] is the pointer file's text, when it is
    readable UTF-8. *)
Record ThreadDir (B : Type) : Type := mkDir {
  td_files : gmap string B;
  td_latest : option string;
}.
Arguments mkDir {B}.
Arguments td_files {B}.
Arguments td_latest {B}.

(** [JsonFileCheckpointer]. *)
Record JsonFileCheckpointer (B : Type) : Type := mkJf {
  jf_dir : string;
  jf_threads : gmap string (ThreadDir B);
  jf_heads : gmap string DeltaHead;
  jf_policy : DeltaPolicy;
  jf_fault : JfOp -> string -> string -> option string;
}.
Arguments mkJf {B}.
Arguments jf_dir {B}.
Arguments jf_threads {B}.
Arguments jf_heads {B}.
Arguments jf_policy {B}.
Arguments jf_fault {B}.

(** [str::trim] on ASCII white space. *)
Definition is_space (c : ascii) : bool :=
  let n := N_of_ascii c in ((9 <=? n) && (n <=? 13) || (n =? 32))%N.

Fixpoint trim_start (s : string) : string :=
  match s with
  | String c s' => if is_space c then trim_start s' else s
  | EmptyString => s
  end.

Fixpoint trim_end (s : string) : string :=
  match s with
  | EmptyString => EmptyString
  | String c s' =>
      match trim_end s' with
      | EmptyString => if is_space c then EmptyString else String c EmptyString
      | t => String c t
      end
  end.

Definition trim (s : string) : string := trim_end (trim_start s).

(** [ReadFailure]. *)
Inductive ReadFailure : Type :=
| Corrupt (e : RustyError)
| Unsupported (e : RustyError).

Definition into_error (f : ReadFailure) : RustyError :=
  match f with Corrupt e | Unsupported e => e end.

Section JsonFile.
Context `{Codec} {B : Type} `{!CheckpointCodec B}.
Implicit Types st : JsonFileCheckpointer B.

(** [with_delta_policy] over an empty directory. *)
Definition jf_new (dir : string) (policy : DeltaPolicy)
    (fault : JfOp -> string -> string -> option string) : JsonFileCheckpointer B :=
  mkJf dir ∅ ∅ policy fault.

Definition thread_files (t : string) st : gmap string B :=
  default ∅ (td_files <$> jf_threads st !! t).

(** [thread_dir], [checkpoint_path]. *)
Definition thread_dir (t : string) st : string := jf_dir st ++ "/" ++ t.
Definition checkpoint_path (t id : string) st : string :=
  thread_dir t st ++ "/" ++ id ++ ".json".

(** [read_checkpoint]. *)
Definition read_checkpoint (t id : string) st : result ReadFailure Checkpoint :=
  let path := checkpoint_path t id st in
  let unreadable e :=
    Err (Corrupt (ECheckpoint ("failed to read checkpoint file `" ++ path ++ "`: " ++ e))) in
  match jf_fault st JRead t id with
  | Some e => unreadable e
  | None =>
      match thread_files t st !! id with
      | None => unreadable "No such file or directory (os error 2)"
      | Some bytes =>
          match cp_decode bytes with
          | Err e =>
              Err (Corrupt (ECheckpoint ("corrupt checkpoint file `" ++ path ++ "`: " ++ e)))
          | Ok c =>
              match ensure_supported_format (c_header c)
                      ("checkpoint `" ++ c_id c ++ "` (file `" ++ path ++ "`)") with
              | Err e => Err (Unsupported e)
              | Ok _ => Ok c
              end
          end
      end
  end.

(** The directory loop of [scan_thread_raw]. *)
Fixpoint scan_files (t : string) (ids : list string) st : res (list Checkpoint) :=
  match ids with
  | [] => Ok []
  | id :: rest =>
      match read_checkpoint t id st with
      | Ok c => cs ← scan_files t rest st; Ok (c :: cs)
      | Err (Unsupported e) => Err e
      | Err (Corrupt _) => scan_files t rest st
      end
  end.

(** [scan_thread_raw]. *)
Definition scan_thread_raw (t : string) st : res (list Checkpoint) :=
  match jf_threads st !! t with
  | None => Ok []
  | Some d =>
      match jf_fault st JReadDir t EmptyString with
      | Some e => Err (ECheckpoint ("failed to read thread directory `" ++ thread_dir t st
                                    ++ "`: " ++ e))
      | None => scan_files t (map_to_list (td_files d)).*1 st
      end
  end.

(** [Iterator::max_by] on [(created_at, id)]: the last greatest element. *)
Definition newer_leb (a b : Checkpoint) : bool :=
  (c_created_at a <? c_created_at b)%Z
  || ((c_created_at a =? c_created_at b)%Z && str_leb (c_id a) (c_id b)).

Definition max_newest (l : list Checkpoint) : option Checkpoint :=
  fold_left (fun best c =>
    match best with
    | None => Some c
    | Some b => if newer_leb b c then Some c else Some b
    end) l None.

(** [read_latest_raw]: the pointer, or the newest file of a scan. *)
Definition read_latest_raw (t : string) st : res (option Checkpoint) :=
  let fallback := cs ← scan_thread_raw t st; Ok (max_newest cs) in
  match jf_threads st !! t ≫= td_latest with
  | None => fallback
  | Some text =>
      let id := trim text in
      if String.eqb id EmptyString then fallback
      else
        match read_checkpoint t id st with
        | Ok c => Ok (Some c)
        | Err (Unsupported e) => Err e
        | Err (Corrupt _) => fallback
        end
  end.

(** [fold_bound] of [load_chain]. *)
Definition fold_bound st : nat :=
  N.to_nat (N.max (saturating_mul (N.of_nat (max_chain_len (jf_policy st))) 4) 128).

(** The loop of [load_chain]: [budget] is [fold_bound + 1 - chain.len()],
    the links still allowed; the chain grows at its front, root first. *)
Fixpoint load_links (t : string) (budget : nat) (visited : list string)
    (tip : Checkpoint) (chain : list Checkpoint) st : res (list Checkpoint) :=
  match c_base tip with
  | None => Ok (tip :: chain)
  | Some base_id =>
      if decide (base_id ∈ visited) then
        Err (ECheckpoint ("checkpoint delta chain in thread `" ++ t ++ "` has a cycle at `"
                          ++ base_id ++ "`"))
      else
        match budget with
        | O => Err (ECheckpoint ("checkpoint delta chain in thread `" ++ t ++ "` exceeds "
                      ++ pretty (fold_bound st) ++ " links; refusing to fold (write bound is "
                      ++ pretty (max_chain_len (jf_policy st)) ++ ")"))
        | S budget' =>
            match read_checkpoint t base_id st with
            | Err f => Err (into_error f)
            | Ok base => load_links t budget' (base_id :: visited) base (tip :: chain) st
            end
        end
  end.

(** [load_chain]. *)
Definition load_chain (t : string) (tip : Checkpoint) st : res (list Checkpoint) :=
  load_links t (fold_bound st) [] tip [] st.

Definition set_heads (heads : gmap string DeltaHead) st : JsonFileCheckpointer B :=
  mkJf (jf_dir st) (jf_threads st) heads (jf_policy st) (jf_fault st).

(** [head_of]: cached, or rebuilt from the files and cached. *)
Definition head_of (t : string) st : res (option DeltaHead) * JsonFileCheckpointer B :=
  match jf_heads st !! t with
  | Some h => (Ok (Some h), st)
  | None =>
      match read_latest_raw t st with
      | Err e => (Err e, st)
      | Ok None => (Ok None, st)
      | Ok (Some raw) =>
          match (chain ← load_chain t raw st; tip ← fold_chain chain;
                 Ok (mkHead tip (length chain - 1))) with
          | Err e => (Err e, st)
          | Ok h => (Ok (Some h), set_heads (<[t := h]> (jf_heads st)) st)
          end
      end
  end.

Definition write_file (t id : string) (bytes : B) st : JsonFileCheckpointer B :=
  let latest := jf_threads st !! t ≫= td_latest in
  mkJf (jf_dir st) (<[t := mkDir (<[id := bytes]> (thread_files t st)) latest]> (jf_threads st))
    (jf_heads st) (jf_policy st) (jf_fault st).

Definition write_latest (t id : string) st : JsonFileCheckpointer B :=
  mkJf (jf_dir st) (<[t := mkDir (thread_files t st) (Some id)]> (jf_threads st))
    (jf_heads st) (jf_policy st) (jf_fault st).

Definition fs_check (op : JfOp) (t id context : string) st : res unit :=
  match jf_fault st op t id with
  | Some e => Err (ECheckpoint (context ++ ": " ++ e))
  | None => Ok ()
  end.

(** The encoding [put_internal] decides on, and the store after the head
    lookup. *)
Definition choose_encoding (c : Checkpoint) (force_full : bool) st :
    res DeltaEncoding * JsonFileCheckpointer B :=
  if force_full then (Ok (encode_full c), st)
  else
    match head_of (c_thread_id c) st with
    | (Err e, st') => (Err e, st')
    | (Ok head, st') => (Ok (encode_delta c head (jf_policy st)), st')
    end.

(** [put_internal]. *)
Definition put_internal (c : Checkpoint) (force_full : bool) st :
    res unit * JsonFileCheckpointer B :=
  let t := c_thread_id c in
  let id := c_id c in
  match fs_check JMkdir t id ("failed to create thread directory `" ++ thread_dir t st ++ "`") st;;
        fs_check JStat t id ("failed to stat checkpoint file `" ++ checkpoint_path t id st ++ "`") st
  with
  | Err e => (Err e, st)
  | Ok _ =>
      if decide (is_Some (thread_files t st !! id)) then (Err (already_exists c), st)
      else
        match choose_encoding c force_full st with
        | (Err e, st1) => (Err e, st1)
        | (Ok encoding, st1) =>
            match cp_encode (de_checkpoint encoding) with
            | Err e => (Err (ESerialization e), st1)
            | Ok bytes =>
                match fs_check JWrite t id "failed to write temp file" st1 with
                | Err e => (Err e, st1)
                | Ok _ =>
                    let st2 := write_file t id bytes st1 in
                    match fs_check JWriteLatest t id "failed to write temp file" st2 with
                    | Err e => (Err e, st2)
                    | Ok _ =>
                        let st3 := write_latest t id st2 in
                        (Ok (), set_heads
                                  (<[t := mkHead c (de_chain_len encoding)]> (jf_heads st3)) st3)
                    end
                end
            end
        end
  end.

(** [put]. *)
Definition jf_put (c : Checkpoint) : JsonFileCheckpointer B -> res unit * JsonFileCheckpointer B :=
  put_internal c false.

(** A raw checkpoint materialized through its chain. *)
Definition materialize_raw (t : string) (raw : Checkpoint) st : res (option Checkpoint) :=
  match c_base raw with
  | None => Ok (Some raw)
  | Some _ => chain ← load_chain t raw st; c ← fold_chain chain; Ok (Some c)
  end.

(** [get_latest]. *)
Definition jf_get_latest (t : string) st : res (option Checkpoint) :=
  match read_latest_raw t st with
  | Err e => Err e
  | Ok None => Ok None
  | Ok (Some raw) => materialize_raw t raw st
  end.

(** [list]. *)
Definition jf_list (t : string) st : res (list Checkpoint) :=
  raw ← scan_thread_raw t st;
  Ok (sort_by cp_leb (materialize_all raw)).

(** [get_by_id]. *)
Definition jf_get_by_id (t id : string) st : res (option Checkpoint) :=
  match read_checkpoint t id st with
  | Ok raw => materialize_raw t raw st
  | Err (Unsupported e) => Err e
  | Err (Corrupt _) => all ← jf_list t st; Ok (find_id id all)
  end.

(** [fork_thread]: forked histories are stored as full snapshots. *)
Definition jf_fork_thread (src dst : string) (at_id : option string) :
    JsonFileCheckpointer B -> res nat * JsonFileCheckpointer B :=
  fork_with (fun c => put_internal c true) jf_list
    (fun c => set_base None (set_thread dst c)) src dst at_id.

#[export] Instance json_file_checkpointer : Checkpointer (JsonFileCheckpointer B) := {
  put := jf_put;
  get_latest := jf_get_latest;
  list_checkpoints := jf_list;
  get_by_id := jf_get_by_id;
  fork_thread := jf_fork_thread;
}.
End JsonFile.
