(* ===== verification/CheckpointFacts.v ===== *)
(** * Delta checkpoints: what the encoding guarantees

    Folding a delta onto the head it was diffed against, the chain bound, and
    the materialization of a whole thread. *)

From Stdlib Require Import String SpecFloat.
From S2P Require Import Prelude Containers Json Error State StateFacts Record SampleCodec Journal Inbox Checkpoint.

(** ** States up to value equality *)

(** Two states hold equal values ([PartialEq]) on the same channels. *)
#[export] Instance State_equiv : Equiv State := fun a b =>
  forall k, option_Forall2 (≡) (state_get a k) (state_get b k).

#[export] Instance State_equivalence : Equivalence (≡@{State}).
Proof.
  split; unfold equiv, State_equiv.
  - intros s k. destruct (state_get s k); constructor. reflexivity.
  - intros a b Hab k. specialize (Hab k). inversion Hab; constructor. by symmetry.
  - intros a b c Hab Hbc k. specialize (Hab k). specialize (Hbc k).
    destruct (state_get a k), (state_get b k), (state_get c k); inversion Hab; inversion Hbc;
      constructor. by etransitivity.
Qed.

#[export] Instance state_contains_proper :
  Proper ((≡) ==> (=) ==> (=)) state_contains.
Proof.
  intros a b Hab k ? <-. specialize (Hab k). unfold state_contains, BTree.contains_key.
  unfold state_get in Hab. by inversion Hab.
Qed.

(** Checkpoints that agree on everything, states up to value equality. *)
Record cp_eqv (a b : Checkpoint) : Prop := {
  eqv_id : c_id a = c_id b;
  eqv_thread : c_thread_id a = c_thread_id b;
  eqv_step : c_step a = c_step b;
  eqv_state : c_state a ≡ c_state b;
  eqv_next : c_next_nodes a = c_next_nodes b;
  eqv_created : c_created_at a = c_created_at b;
  eqv_base : c_base a = c_base b;
  eqv_header : c_header a = c_header b;
  eqv_journal : c_journal_ref a = c_journal_ref b;
}.

#[export] Instance Checkpoint_equiv : Equiv Checkpoint := cp_eqv.

#[export] Instance Checkpoint_equivalence : Equivalence (≡@{Checkpoint}).
Proof.
  split.
  - by intros c.
  - intros a b []. by split.
  - intros a b c [] []. split; by etransitivity.
Qed.

(** Every channel of [a] is a channel of [b]. *)
Definition channels_within (a b : State) : Prop :=
  forall k, state_contains a k = true -> state_contains b k = true.

(** ** One delta *)

Lemma get_filter (P : string * Value -> bool) (l : list (string * Value)) (k : string) :
  NoDup l.*1 ->
  BTree.get k (filter (fun kv => P kv = true) l)
  = match BTree.get k l with
    | Some v => if P (k, v) then Some v else None
    | None => None
    end.
Proof.
  induction l as [|[k' v'] l IH]; intros Hnd; [done|].
  simpl in Hnd. apply NoDup_cons in Hnd as [Hni Hnd]. rewrite filter_cons. simpl.
  destruct (String.eqb_spec k k') as [->|Hne].
  - destruct (P (k', v')) eqn:E; simpl; [by rewrite String.eqb_refl|].
    rewrite IH by done. by rewrite (proj2 (BTree.get_None_notin k' l)).
  - destruct (decide (P (k', v') = true)); simpl; [|by apply IH].
    rewrite (proj2 (String.eqb_neq _ _) Hne). by apply IH.
Qed.

Lemma filter_Sorted (P : string * Value -> Prop) `{forall x, Decision (P x)}
    (l : list (string * Value)) :
  BTree.Sorted l -> BTree.Sorted (filter P l).
Proof.
  unfold BTree.Sorted. induction 1 as [|x l Hs IH Hall]; [constructor|].
  rewrite filter_cons. destruct (decide (P x)); [|done]. constructor; [done|].
  rewrite Forall_forall in Hall |- *. intros y [_ Hy]%list_elem_of_filter. auto.
Qed.

(** The channels of a delta. *)
Lemma delta_get (s base : State) (k : string) :
  wf_state s ->
  state_get (from_shared_channels (channels_changed_since s base)) k
  = match state_get s k with
    | Some v => if channel_changed base (k, v) then Some v else None
    | None => None
    end.
Proof.
  intros Hs. unfold state_get, from_shared_channels, channels_changed_since. simpl.
  rewrite BTree.from_list_id by by apply filter_Sorted.
  apply get_filter. by apply BTree.Sorted_NoDup.
Qed.

(** The channels of a fold. *)
Lemma fold_get (base delta : Checkpoint) (k : string) :
  wf_state (c_state delta) ->
  state_get (c_state (fold_delta base delta)) k
  = match state_get (c_state delta) k with
    | Some v => Some v
    | None => state_get (c_state base) k
    end.
Proof.
  intros Hs. unfold fold_delta, state_get. simpl.
  assert (Hin : forall l s, inner (fold_left (fun s kv => state_insert s kv.1 kv.2) l s)
                = fold_left (fun m kv => BTree.insert kv.1 kv.2 m) l (inner s)).
  { induction l as [|kv l IH]; intros s; [done|]. simpl. by rewrite IH. }
  rewrite Hin, BTree.get_fold_insert.
  rewrite <- (BTree.get_Permutation (inner (c_state delta)) (reverse (inner (c_state delta))));
    [done|by apply BTree.Sorted_NoDup|by rewrite reverse_Permutation].
Qed.

Lemma fold_wf (base delta : Checkpoint) :
  wf_state (c_state base) -> wf_state (c_state (fold_delta base delta)).
Proof.
  unfold fold_delta, wf_state. simpl. generalize (inner (c_state delta)). intros l.
  generalize (c_state base). induction l as [|kv l IH]; intros s Hs; simpl; [done|].
  apply IH. by apply BTree.insert_Sorted.
Qed.

#[export] Instance channel_changed_proper : Proper ((≡) ==> (=) ==> (=)) channel_changed.
Proof.
  intros a b Hab kv ? <-. specialize (Hab kv.1). unfold channel_changed.
  unfold state_get in Hab. inversion Hab as [x y Hxy Hx Hy|Hx Hy]; [|done].
  f_equal. unfold value_eqb. by rewrite Hxy.
Qed.

(** The delta of [c] against a head, as [encode_delta] stores it. *)
Definition delta_of (c head : Checkpoint) : Checkpoint :=
  set_base (Some (c_id head))
    (set_state (from_shared_channels (channels_changed_since (c_state c) (c_state head))) c).

Lemma delta_of_wf (c head : Checkpoint) : wf_state (c_state (delta_of c head)).
Proof. apply BTree.from_list_Sorted. Qed.

Lemma fold_delta_state (c head base : Checkpoint) :
  wf_state (c_state c) -> c_state base ≡ c_state head ->
  channels_within (c_state head) (c_state c) ->
  c_state (fold_delta base (delta_of c head)) ≡ c_state c.
Proof.
  intros Hc Hb Hin k. rewrite fold_get by apply delta_of_wf. unfold delta_of. simpl.
  rewrite delta_get by done. specialize (Hb k).
  destruct (state_get (c_state c) k) as [v|] eqn:Hv.
  - destruct (channel_changed (c_state head) (k, v)) eqn:Hch; [by constructor|].
    unfold channel_changed in Hch. simpl in Hch. unfold state_get in Hb at 2.
    destruct (BTree.get k (inner (c_state head))) as [hv|]; [|done].
    apply negb_false_iff, value_eqb_spec in Hch.
    inversion Hb as [x y Hxy Hx|]. constructor. by rewrite Hch.
  - destruct (state_get (c_state head) k) as [hv|] eqn:Hh; [|done].
    specialize (Hin k). unfold state_contains, BTree.contains_key in Hin.
    unfold state_get in Hh, Hv. rewrite Hh, Hv in Hin. by specialize (Hin eq_refl).
Qed.

(** Folding the delta onto anything equal to the head gives the checkpoint. *)
Lemma fold_delta_eqv (c head base : Checkpoint) :
  c_base c = None -> wf_state (c_state c) -> c_state base ≡ c_state head ->
  channels_within (c_state head) (c_state c) ->
  fold_delta base (delta_of c head) ≡ c.
Proof. intros. split; try done. by apply fold_delta_state. Qed.

Section Encode.
Context `{Codec}.

(** What [encode_delta] stores is a full snapshot or the delta against the
    head, one link above it. *)
Lemma encode_delta_cases (c : Checkpoint) (head : option DeltaHead) (p : DeltaPolicy) :
  encode_delta c head p = encode_full c
  \/ exists h, head = Some h /\ dh_chain_len h < max_chain_len p
     /\ encode_delta c head p = mkEncoding (delta_of c (dh_checkpoint h)) (dh_chain_len h + 1).
Proof.
  unfold encode_delta. destruct (deltas_enabled p); [|by left].
  destruct head as [h|]; [|by left].
  destruct (Nat.leb_spec (max_chain_len p) (dh_chain_len h)); [by left|]. cbv zeta.
  destruct (SpecFloat.SFleb _ _); [by left|]. right. by exists h.
Qed.

(** Reading back a delta checkpoint restores exactly the state that was
    put, if and only if no channel of the head is missing from it: the
    encoding relies on channels never disappearing, and where one does, the
    fold brings the head's value back. *)
Theorem delta_roundtrip_iff (c : Checkpoint) (h : DeltaHead) (p : DeltaPolicy) :
  wf_state (c_state c) -> wf_state (c_state (dh_checkpoint h)) ->
  let e := encode_delta c (Some h) p in
  c_base (de_checkpoint e) <> None ->
  (c_state (fold_delta (dh_checkpoint h) (de_checkpoint e)) ≡ c_state c
   <-> channels_within (c_state (dh_checkpoint h)) (c_state c)).
Proof.
  intros Hc Hh e Hb.
  destruct (encode_delta_cases c (Some h) p) as [E|(h' & [= <-] & _ & E)];
    subst e; rewrite E in Hb |- *; [done|].
  split; [|by apply fold_delta_state].
  intros Heq k Hk. rewrite <- (state_contains_proper _ _ Heq k k eq_refl).
  cbn [de_checkpoint]. unfold state_contains, BTree.contains_key.
  change (BTree.get k (inner (c_state ?x))) with (state_get (c_state x) k).
  rewrite fold_get by apply delta_of_wf.
  unfold state_contains, BTree.contains_key in Hk. fold (state_get (c_state (dh_checkpoint h)) k) in Hk.
  destruct (state_get (c_state (delta_of c (dh_checkpoint h))) k); [done|].
  by destruct (state_get (c_state (dh_checkpoint h)) k).
Qed.

(** Whatever the head, the encoder never stores a chain longer than the
    policy allows, and a stored delta names the head it folds onto. *)
Theorem encode_delta_bounded (c : Checkpoint) (head : option DeltaHead) (p : DeltaPolicy) :
  let e := encode_delta c head p in
  de_chain_len e <= max_chain_len p
  /\ match c_base (de_checkpoint e) with
     | None => de_chain_len e = 0 /\ de_checkpoint e = set_base None c
     | Some b => exists h, head = Some h /\ b = c_id (dh_checkpoint h)
                   /\ de_chain_len e = S (dh_chain_len h)
     end.
Proof.
  cbv zeta. destruct (encode_delta_cases c head p) as [->|(h & -> & Hlt & ->)]; simpl.
  - split; [lia|done].
  - split; [lia|]. exists h. split_and!; [done..|lia].
Qed.
End Encode.

(** ** Materializing a thread *)

(** The reference definition: fold a checkpoint onto its materialized base,
    with no memo and no cycle detection beyond the fuel. *)
Fixpoint materialize_ref (by_id : gmap string Checkpoint) (fuel : nat) (id : string) :
    option Checkpoint :=
  match fuel with
  | O => None
  | S fuel' =>
      match by_id !! id with
      | None => None
      | Some c =>
          match c_base c with
          | None => Some c
          | Some b =>
              match materialize_ref by_id fuel' b with
              | Some p => Some (fold_delta p c)
              | None => None
              end
          end
      end
  end.

Section Materialize.
Context (by_id : gmap string Checkpoint).
Context (keyed : forall id c, by_id !! id = Some c -> c_id c = id).

(** [id] materializes to a checkpoint, [n] links above its root. *)
Inductive mat : string -> Checkpoint -> nat -> Prop :=
| mat_root id c : by_id !! id = Some c -> c_base c = None -> mat id c 0
| mat_link id c b p n :
    by_id !! id = Some c -> c_base c = Some b -> mat b p n -> mat id (fold_delta p c) (S n).

Lemma mat_det (id : string) (c c' : Checkpoint) (n n' : nat) :
  mat id c n -> mat id c' n' -> c = c' /\ n = n'.
Proof.
  intros Hm. revert c' n'. induction Hm as [id c Hc Hb|id c b p n Hc Hb Hp IH];
    intros c' n' Hm'; inversion Hm'; simplify_eq; [done|].
  match goal with H : mat _ _ _ |- _ => apply IH in H as [-> ->] end. done.
Qed.

(** The ids of a chain are distinct keys of the store. *)
Lemma mat_chain (id : string) (c : Checkpoint) (n : nat) :
  mat id c n -> exists l, length l = S n /\ NoDup l
    /\ forall x, x ∈ l -> is_Some (by_id !! x) /\ exists m k, mat x m k /\ k <= n.
Proof.
  induction 1 as [id c Hc Hb|id c b p n Hc Hb Hp (l & Hl & Hnd & Hall)].
  - exists [id]. split_and!; [done|apply NoDup_singleton|].
    intros x ->%list_elem_of_singleton. split; [eauto|]. exists c, 0. split; [by constructor|lia].
  - exists (id :: l). simpl. rewrite Hl. split_and!; [done| |].
    + constructor; [|done]. intros Hin. destruct (Hall _ Hin) as (_ & m & k & Hm & Hk).
      assert (Hm2 : mat id (fold_delta p c) (S n)) by by econstructor.
      destruct (mat_det _ _ _ _ _ Hm Hm2) as [_ ->]. lia.
    + intros x [->|Hx]%elem_of_cons.
      * split; [eauto|]. eexists _, (S n). split; [by econstructor|lia].
      * destruct (Hall _ Hx) as (? & m & k & Hm & Hk). split; [done|].
        exists m, k. split; [done|lia].
Qed.

Lemma mat_bound (id : string) (c : Checkpoint) (n : nat) : mat id c n -> n < size by_id.
Proof.
  intros (l & Hl & Hnd & Hall)%mat_chain.
  assert (Hs : (list_to_set l : gset string) ⊆ dom by_id).
  { intros x Hx%elem_of_list_to_set. apply elem_of_dom. by apply Hall. }
  apply subseteq_size in Hs. rewrite size_list_to_set, size_dom in Hs by done. lia.
Qed.

Lemma materialize_ref_spec (fuel : nat) (id : string) (c : Checkpoint) :
  materialize_ref by_id fuel id = Some c <-> exists n, mat id c n /\ n < fuel.
Proof.
  revert id c. induction fuel as [|fuel IH]; intros id c; simpl.
  - split; [done|]. intros (n & _ & Hn). lia.
  - destruct (by_id !! id) as [d|] eqn:Hd.
    + destruct (c_base d) as [b|] eqn:Hb.
      * destruct (materialize_ref by_id fuel b) as [p|] eqn:Hp.
        -- apply IH in Hp as (n & Hm & Hn). split.
           ++ intros [= <-]. exists (S n). split; [by econstructor|lia].
           ++ intros (n' & Hm' & _). inversion Hm'; simplify_eq.
              match goal with H : mat b _ _ |- _ =>
                destruct (mat_det _ _ _ _ _ Hm H) as [-> _] end. done.
        -- split; [done|]. intros (n' & Hm' & Hn'). inversion Hm'; simplify_eq.
           exfalso. match goal with H : mat b ?q ?k |- _ =>
             assert (Hc : None = Some q) by (rewrite <- Hp; apply IH; exists k; split; [done|lia]) end.
           done.
      * split.
        -- intros [= <-]. exists 0. split; [by constructor|lia].
        -- intros (n' & Hm' & _). by inversion Hm'; simplify_eq.
    + split; [done|]. intros (n' & Hm' & _). inversion Hm'; simplify_eq.
Qed.

Definition materialized (id : string) : option Checkpoint :=
  materialize_ref by_id (S (size by_id)) id.

Lemma materialized_mat (id : string) (c : Checkpoint) :
  materialized id = Some c <-> exists n, mat id c n.
Proof.
  unfold materialized. rewrite materialize_ref_spec. split.
  - intros (n & Hm & _). eauto.
  - intros (n & Hm). exists n. split; [done|]. apply mat_bound in Hm. lia.
Qed.

(** The memo holds materialized checkpoints only. *)
Definition memo_ok (memo : gmap string Checkpoint) : Prop :=
  forall id m, memo !! id = Some m -> exists n, mat id m n.

(** Each link is stored and names the one before it, the first [prev]. *)
Fixpoint linked (prev : string) (links : list Checkpoint) : Prop :=
  match links with
  | [] => True
  | l :: rest => by_id !! c_id l = Some l /\ c_base l = Some prev /\ linked (c_id l) rest
  end.

Definition tip_id (prev : string) (links : list Checkpoint) : string :=
  match last links with Some l => c_id l | None => prev end.

Lemma walk_sound (memo : gmap string Checkpoint) (fuel : nat) (visiting : list string)
    (links links' : list Checkpoint) (current folded : Checkpoint) :
  memo_ok memo -> by_id !! c_id current = Some current -> linked (c_id current) links ->
  walk by_id memo fuel visiting links current = Some (links', folded) ->
  exists rid n, mat rid folded n /\ linked rid links'
    /\ tip_id rid links' = tip_id (c_id current) links.
Proof.
  intros Hmemo. revert visiting links current.
  induction fuel as [|fuel IH]; intros visiting links current Hcur Hlk Hw; simpl in Hw; [done|].
  destruct (decide (c_id current ∈ visiting)) as [|_]; [done|].
  destruct (memo !! c_id current) as [m|] eqn:Hm.
  - simplify_eq. destruct (Hmemo _ _ Hm) as (k & Hk). eauto.
  - destruct (c_base current) as [b|] eqn:Hb.
    + destruct (by_id !! b) as [base|] eqn:Hbase; [|done].
      pose proof (keyed _ _ Hbase) as Hk.
      apply IH in Hw as (rid & n & Hmat & Hl & Ht); [|by rewrite Hk|by rewrite Hk].
      exists rid, n. split_and!; [done..|]. rewrite Ht. unfold tip_id. rewrite last_cons.
      by destruct (last links).
    + simplify_eq. exists (c_id folded), 0. split_and!; [by constructor|done..].
Qed.

Lemma walk_complete (memo : gmap string Checkpoint) (fuel : nat) (visiting : list string)
    (links : list Checkpoint) (current m : Checkpoint) (n : nat) :
  by_id !! c_id current = Some current -> mat (c_id current) m n -> n < fuel ->
  (forall v, v ∈ visiting -> exists m' n', mat v m' n' /\ n < n') ->
  walk by_id memo fuel visiting links current <> None.
Proof.
  revert visiting links current m n.
  induction fuel as [|fuel IH]; intros visiting links current m n Hcur Hm Hf Hv; [lia|]. simpl.
  destruct (decide (c_id current ∈ visiting)) as [Hin|_].
  { destruct (Hv _ Hin) as (m' & n' & Hm' & Hlt).
    destruct (mat_det _ _ _ _ _ Hm Hm') as [_ ->]. lia. }
  destruct (memo !! c_id current); [done|].
  inversion Hm as [? c0 Hc Hb|? c0 b p n0 Hc Hb Hp]; simplify_eq; rewrite Hb; [done|].
  assert (Hsome : exists base, by_id !! b = Some base) by (inversion Hp; eauto).
  destruct Hsome as [base Hbase]. rewrite Hbase. pose proof (keyed _ _ Hbase) as Hk.
  apply (IH _ _ _ p n0); [by rewrite Hk|by rewrite Hk|lia|].
  intros v [->|Hin]%elem_of_cons.
  - eexists _, _. split; [exact Hm|lia].
  - destruct (Hv _ Hin) as (m' & n' & Hm' & Hlt). exists m', n'. split; [done|lia].
Qed.

Lemma fold_memo_ok (links : list Checkpoint) (rid : string) (tip : Checkpoint) (n : nat)
    (memo : gmap string Checkpoint) :
  mat rid tip n -> linked rid links -> memo_ok memo ->
  memo_ok (fold_memo tip links memo).2
  /\ exists k, mat (tip_id rid links) (fold_memo tip links memo).1 k.
Proof.
  revert rid tip n memo. induction links as [|l links IH]; intros rid tip n memo Hm Hl Hmemo.
  - simpl. eauto.
  - destruct Hl as (Hst & Hb & Hl). simpl.
    assert (Hm' : mat (c_id l) (fold_delta tip l) (S n)) by by econstructor.
    destruct (IH _ _ _ (<[c_id l := fold_delta tip l]> memo) Hm' Hl) as (H1 & k & H2).
    { intros id x [[<- <-]|[_ Hx]]%lookup_insert_Some; eauto. }
    split; [done|]. exists k. unfold tip_id in *. rewrite last_cons. by destruct (last links).
Qed.

Lemma materialize_one_spec (memo : gmap string Checkpoint) (out : list Checkpoint)
    (id : string) :
  memo_ok memo ->
  exists memo', materialize_one by_id (memo, out) id
    = (memo', out ++ option_list (materialized id)) /\ memo_ok memo'.
Proof.
  intros Hmemo. unfold materialize_one.
  destruct (memo !! id) as [m|] eqn:Hm.
  { destruct (Hmemo _ _ Hm) as [n Hn].
    rewrite (proj2 (materialized_mat id m)) by eauto. eauto. }
  assert (Hnone : materialized id = None -> out ++ option_list (materialized id) = out)
    by (intros ->; apply app_nil_r).
  destruct (by_id !! id) as [start|] eqn:Hs.
  - pose proof (keyed _ _ Hs) as Hk.
    destruct (walk by_id memo (S (size by_id)) [] [] start) as [[links folded]|] eqn:Hw.
    + apply walk_sound in Hw as (rid & n & Hmat & Hl & Ht); [|done|by rewrite Hk|done].
      destruct (fold_memo_ok _ _ _ _ memo Hmat Hl Hmemo) as (Hmemo' & k & Htip).
      destruct (fold_memo folded links memo) as [tip memo']. simpl in *.
      rewrite Ht in Htip. unfold tip_id in Htip. simpl in Htip. rewrite Hk in Htip.
      rewrite (proj2 (materialized_mat id tip)) by eauto. eauto.
    + exists memo. split; [|done]. rewrite Hnone; [done|].
      destruct (materialized id) as [m|] eqn:E; [|done]. exfalso.
      apply materialized_mat in E as [n Hn].
      eapply (walk_complete memo (S (size by_id)) [] [] start m n); [by rewrite Hk|by rewrite Hk| | |done].
      * apply mat_bound in Hn. lia.
      * intros v Hv. by apply elem_of_nil in Hv.
  - exists memo. split; [|done]. rewrite Hnone; [done|].
    destruct (materialized id) as [m|] eqn:E; [|done].
    apply materialized_mat in E as [n Hn]. inversion Hn; congruence.
Qed.

Lemma materialize_loop (order : list string) (memo : gmap string Checkpoint)
    (out : list Checkpoint) :
  memo_ok memo ->
  (fold_left (materialize_one by_id) order (memo, out)).2 = out ++ omap materialized order.
Proof.
  revert memo out. induction order as [|id order IH]; intros memo out Hmemo.
  - simpl. by rewrite app_nil_r.
  - cbn [fold_left]. destruct (materialize_one_spec memo out id Hmemo) as (memo' & -> & Hmemo').
    rewrite IH by done. rewrite <- (assoc_L app). f_equal. csimpl. by destruct (materialized id).
Qed.
End Materialize.

Lemma index_by_id_keyed (raw : list Checkpoint) (id : string) (c : Checkpoint) :
  index_by_id raw !! id = Some c -> c_id c = id.
Proof.
  unfold index_by_id.
  assert (Hgen : forall m : gmap string Checkpoint, (forall i x, m !! i = Some x -> c_id x = i) ->
    forall i x, fold_left (fun m c => <[c_id c := c]> m) raw m !! i = Some x -> c_id x = i).
  { induction raw as [|r raw IH]; intros m Hm i x Hx; simpl in Hx; [by apply Hm|].
    eapply IH; [|exact Hx]. intros i' x' [[<- <-]|[_ Hl]]%lookup_insert_Some; auto. }
  apply Hgen. intros i x Hx. by rewrite lookup_empty in Hx.
Qed.

Lemma index_by_id_elem (raw : list Checkpoint) (id : string) (c : Checkpoint) :
  index_by_id raw !! id = Some c -> c ∈ raw.
Proof.
  unfold index_by_id.
  assert (Hgen : forall (m : gmap string Checkpoint) (P : Checkpoint -> Prop),
    (forall i x, m !! i = Some x -> P x) ->
    forall i x, fold_left (fun m c => <[c_id c := c]> m) raw m !! i = Some x -> P x \/ x ∈ raw).
  { induction raw as [|r raw IH]; intros m P Hm i x Hx; simpl in Hx; [left; by eapply Hm|].
    destruct (IH (<[c_id r := r]> m) (fun y => P y \/ y = r)) with (i := i) (x := x)
      as [[Hp| ->]|Hin]; [|done|..]; [|by left|right; by left|right; by right].
    intros i' x' [[<- <-]|[_ Hl]]%lookup_insert_Some; eauto. }
  intros Hc. destruct (Hgen ∅ (fun _ => False)) with (i := id) (x := c) as [[]|]; try done.
Qed.

Lemma index_by_id_some (raw : list Checkpoint) (c : Checkpoint) :
  c ∈ raw -> is_Some (index_by_id raw !! c_id c).
Proof.
  unfold index_by_id.
  assert (Hgen : forall (m : gmap string Checkpoint),
    (c ∈ raw \/ is_Some (m !! c_id c)) ->
    is_Some (fold_left (fun m c => <[c_id c := c]> m) raw m !! c_id c)).
  { induction raw as [|r raw IH]; intros m [Hin|Hm]; simpl.
    - by apply elem_of_nil in Hin.
    - done.
    - apply IH. apply elem_of_cons in Hin as [->|Hin]; [|by left].
      right. by rewrite lookup_insert_eq.
    - apply IH. right. apply lookup_insert_is_Some'. by right. }
  intros Hin. apply Hgen. by left.
Qed.

Lemma materialize_ordered_omap (raw : list Checkpoint) (order : list string) :
  materialize_ordered (index_by_id raw) order = omap (materialized (index_by_id raw)) order.
Proof.
  unfold materialize_ordered. rewrite materialize_loop; [done| |].
  - apply index_by_id_keyed.
  - intros id m Hm. by rewrite lookup_empty in Hm.
Qed.

(** ** The listing order *)

Lemma cp_leb_spec (a b : Checkpoint) :
  cp_leb a b = true <->
  c_step a < c_step b
  \/ (c_step a = c_step b
      /\ ((c_created_at a < c_created_at b)%Z
          \/ (c_created_at a = c_created_at b /\ str_leb (c_id a) (c_id b) = true))).
Proof.
  unfold cp_leb. rewrite !orb_true_iff, !andb_true_iff, !orb_true_iff, !andb_true_iff.
  rewrite Nat.ltb_lt, Nat.eqb_eq, Z.ltb_lt, Z.eqb_eq. done.
Qed.

Lemma cp_leb_total (a b : Checkpoint) : cp_leb a b = true \/ cp_leb b a = true.
Proof.
  rewrite !cp_leb_spec. pose proof (str_leb_total (c_id a) (c_id b)).
  destruct (Nat.lt_trichotomy (c_step a) (c_step b)) as [|[|]];
    destruct (Z.lt_trichotomy (c_created_at a) (c_created_at b)) as [|[|]]; naive_solver.
Qed.

Lemma cp_leb_trans (a b c : Checkpoint) :
  cp_leb a b = true -> cp_leb b c = true -> cp_leb a c = true.
Proof.
  rewrite !cp_leb_spec.
  intros [H1|[H1 [H2|[H2 H3]]]] [G1|[G1 [G2|[G2 G3]]]];
    first [left; lia | right; split; [lia|]; first [left; lia | right; split; [lia|]]].
  by eapply str_leb_trans.
Qed.

Lemma cp_leb_antisym_id (a b : Checkpoint) :
  cp_leb a b = true -> cp_leb b a = true -> c_id a = c_id b.
Proof.
  rewrite !cp_leb_spec.
  intros [H1|[H1 [H2|[H2 H3]]]] [G1|[G1 [G2|[G2 G3]]]]; try lia. by apply str_leb_antisym.
Qed.

Lemma cp_leb_eqv (a b a' b' : Checkpoint) : a ≡ a' -> b ≡ b' -> cp_leb a b = cp_leb a' b'.
Proof.
  intros Ha Hb. unfold cp_leb.
  by rewrite (eqv_step _ _ Ha), (eqv_step _ _ Hb), (eqv_created _ _ Ha), (eqv_created _ _ Hb),
    (eqv_id _ _ Ha), (eqv_id _ _ Hb).
Qed.

(** ** The whole thread *)

(** The memoized, iterative materialization of a thread computes, in
    whatever order the ids are visited, exactly the fold of each checkpoint
    onto its recursively materialized base; a checkpoint whose base chain is
    missing a link or cyclic is skipped without disturbing the others. *)
Theorem materialize_all_ref (raw : list Checkpoint) (order : list string) :
  materialize_ordered (index_by_id raw) order
  = omap (materialize_ref (index_by_id raw) (S (size (index_by_id raw)))) order.
Proof. apply materialize_ordered_omap. Qed.
