(* ===== verification/FileCheckpointFacts.v ===== *)
(** * The file backend refines the in-memory one

    Whatever checkpoints are put, whenever the process restarts (losing the
    head cache) and whichever threads are forked, the delta-encoding file
    backend answers every read as the in-memory backend does. *)

From Stdlib Require Import String SpecFloat.
From S2P Require Import Prelude Containers Json Error State StateFacts Record SampleCodec Journal Inbox Checkpoint CheckpointFacts FileCheckpoint.

(** What the file backend relies on of its serializer: a checkpoint made of
    values and a header it reads back exactly is read back exactly. *)
Class CheckpointCodecLaws (B : Type) `{CheckpointCodec B} : Type := {
  exact_value : Value -> Prop;
  exact_header : CheckpointHeader -> Prop;
  exact_value_proper (v w : Value) : v ≡ w -> exact_value v -> exact_value w;
  cp_decode_encode (c : Checkpoint) :
    (forall k v, state_get (c_state c) k = Some v -> exact_value v) ->
    exact_header (c_header c) ->
    exists b, cp_encode c = Ok b /\ cp_decode b = Ok c;
}.

Section Refinement.
Context `{Codec} {B : Type} `{!CheckpointCodec B, !CheckpointCodecLaws B}.
Implicit Types (st : JsonFileCheckpointer B) (mem : InMemoryCheckpointer).

(** ** Chains on disk *)

(** [id] is on disk and materializes to a checkpoint, [n] links deep. *)
Inductive stored (t : string) st : string -> Checkpoint -> nat -> Prop :=
| stored_full id c :
    read_checkpoint t id st = Ok c -> c_id c = id -> c_base c = None -> stored t st id c 0
| stored_link id d b p n :
    read_checkpoint t id st = Ok d -> c_id d = id -> c_base d = Some b ->
    stored t st b p n -> stored t st id (fold_delta p d) (S n).

Lemma stored_id (t : string) st (id : string) (c : Checkpoint) (n : nat) :
  stored t st id c n -> c_id c = id.
Proof. by destruct 1. Qed.

Lemma stored_base (t : string) st (id : string) (c : Checkpoint) (n : nat) :
  stored t st id c n -> c_base c = None.
Proof. by destruct 1. Qed.

Lemma stored_det (t : string) st (id : string) (c c' : Checkpoint) (n n' : nat) :
  stored t st id c n -> stored t st id c' n' -> c = c' /\ n = n'.
Proof.
  intros Hs. revert c' n'. induction Hs as [id c Hr Hid Hb|id d b p n Hr Hid Hb Hp IH];
    intros c' n' Hs'; inversion Hs' as [? d' Hr' _ Hb'|? d' b' p' k Hr' _ Hb' Hp'];
    rewrite Hr in Hr'; simplify_eq; try done.
  by apply IH in Hp' as [-> ->].
Qed.

(** More files do not change what is stored. *)
Lemma stored_mono (t : string) st st' (id : string) (c : Checkpoint) (n : nat) :
  (forall i d, read_checkpoint t i st = Ok d -> read_checkpoint t i st' = Ok d) ->
  stored t st id c n -> stored t st' id c n.
Proof.
  intros Hr. induction 1; [apply stored_full|eapply stored_link]; eauto.
Qed.

Lemma fold_links_snoc (tip p link : Checkpoint) (l : list Checkpoint) :
  fold_links tip l = Ok p -> c_base link = Some (c_id p) ->
  fold_links tip (l ++ [link]) = Ok (fold_delta p link).
Proof.
  revert tip. induction l as [|x l IH]; intros tip Hf Hb; simpl in *.
  - injection Hf as ->. by rewrite decide_True.
  - destruct (decide (c_base x = Some (c_id tip))); [by apply IH|done].
Qed.

Lemma fold_chain_snoc (p link : Checkpoint) (l : list Checkpoint) :
  fold_chain l = Ok p -> c_base link = Some (c_id p) ->
  fold_chain (l ++ [link]) = Ok (fold_delta p link).
Proof.
  destruct l as [|root l]; simpl; [done|]. destruct (c_base root); [done|].
  apply fold_links_snoc.
Qed.

(** Loading and folding a stored chain within the budget. *)
Lemma load_links_stored (t : string) st (id : string) (c : Checkpoint) (n : nat) :
  stored t st id c n -> forall raw budget visited chain,
  read_checkpoint t id st = Ok raw -> n <= budget ->
  (forall v, v ∈ visited -> exists c' n', stored t st v c' n' /\ n <= n') ->
  exists l, load_links t budget visited raw chain st = Ok (l ++ chain)
    /\ length l = S n /\ fold_chain l = Ok c.
Proof.
  induction 1 as [id c Hr Hid Hb|id d b p n Hr Hid Hb Hp IH];
    intros raw budget visited chain Hraw Hn Hv; rewrite Hr in Hraw; injection Hraw as <-.
  - exists [c]. destruct budget; simpl; by rewrite Hb.
  - destruct budget as [|budget]; [lia|]. simpl. rewrite Hb.
    destruct (decide (b ∈ visited)) as [Hin|_].
    { destruct (Hv _ Hin) as (c' & n' & Hs' & Hle).
      destruct (stored_det _ _ _ _ _ _ _ Hp Hs') as [_ ->]. lia. }
    assert (Hbase : exists base, read_checkpoint t b st = Ok base) by (inversion Hp; eauto).
    destruct Hbase as [base Hbase]. rewrite Hbase.
    destruct (IH base budget (b :: visited) (d :: chain) Hbase) as (l & Hl & Hlen & Hf); [lia| |].
    { intros v [->|Hin]%elem_of_cons; [eauto|].
      destruct (Hv _ Hin) as (c' & n' & Hs' & Hle). exists c', n'. split; [done|lia]. }
    exists (l ++ [d]). rewrite Hl, <- (assoc_L app), length_app, Hlen. simpl.
    split_and!; [done|lia|]. apply fold_chain_snoc; [done|].
    by rewrite (stored_id _ _ _ _ _ Hp).
Qed.

(** A [usize] chain bound is within the fold bound. *)
Definition policy_ok (p : DeltaPolicy) : Prop := (N.of_nat (max_chain_len p) <= u64_max)%N.

Lemma fold_bound_ge st : policy_ok (jf_policy st) -> max_chain_len (jf_policy st) <= fold_bound st.
Proof. unfold policy_ok, fold_bound, saturating_mul. lia. Qed.

Lemma load_chain_stored (t : string) st (id : string) (c raw : Checkpoint) (n : nat) :
  policy_ok (jf_policy st) -> stored t st id c n -> n <= max_chain_len (jf_policy st) ->
  read_checkpoint t id st = Ok raw ->
  exists l, load_chain t raw st = Ok l /\ length l = S n /\ fold_chain l = Ok c.
Proof.
  intros Hp Hs Hn Hraw. apply fold_bound_ge in Hp.
  destruct (load_links_stored _ _ _ _ _ Hs raw (fold_bound st) [] [] Hraw) as (l & Hl & Hlen & Hf);
    [lia|by intros v Hv%elem_of_nil|].
  exists l. unfold load_chain. by rewrite Hl, app_nil_r.
Qed.

Lemma materialize_raw_stored (t : string) st (id : string) (c raw : Checkpoint) (n : nat) :
  policy_ok (jf_policy st) -> stored t st id c n -> n <= max_chain_len (jf_policy st) ->
  read_checkpoint t id st = Ok raw -> materialize_raw t raw st = Ok (Some c).
Proof.
  intros Hp Hs Hn Hraw. unfold materialize_raw.
  destruct (c_base raw) as [b|] eqn:Hb.
  - destruct (load_chain_stored _ _ _ _ _ _ Hp Hs Hn Hraw) as (l & -> & _ & Hf). simpl.
    by rewrite Hf.
  - inversion Hs; simplify_eq; congruence.
Qed.

(** ** The relation between the two backends *)

(** A checkpoint the runtime may put: a full snapshot of a well-formed
    state, in the current format, under a non-blank id, made of values the
    serializer reads back. *)
Record good (c : Checkpoint) : Prop := {
  good_base : c_base c = None;
  good_wf : wf_state (c_state c);
  good_format : (h_format_version (c_header c) <= CURRENT_FORMAT_VERSION)%N;
  good_trim : trim (c_id c) = c_id c;
  good_nonempty : c_id c <> EmptyString;
  good_values : forall k v, state_get (c_state c) k = Some v -> exact_value v;
  good_header : exact_header (c_header c);
}.

Lemma good_eqv (a b : Checkpoint) : a ≡ b -> wf_state (c_state a) -> good b -> good a.
Proof.
  intros Heq Hwf [H1 H2 H3 H4 H5 H6 H7].
  split; rewrite ?(eqv_id _ _ Heq), ?(eqv_header _ _ Heq), ?(eqv_base _ _ Heq); try done.
  intros k v Hk. pose proof (eqv_state _ _ Heq k) as Hs. rewrite Hk in Hs.
  inversion Hs as [v' w Hvw Hv' Hw|]. eapply exact_value_proper; [by symmetry|eauto].
Qed.

Record refines (t : string) st mem : Prop := {
  r_ids : forall id, is_Some (thread_files t st !! id) <-> id ∈ c_id <$> mem_thread t mem;
  r_nodup : NoDup (c_id <$> mem_thread t mem);
  r_stored : forall c, c ∈ mem_thread t mem ->
    exists m n, stored t st (c_id c) m n /\ m ≡ c /\ wf_state (c_state m)
      /\ n <= max_chain_len (jf_policy st);
  r_good : forall c, c ∈ mem_thread t mem -> good c /\ c_thread_id c = t;
  r_latest : jf_threads st !! t ≫= td_latest = c_id <$> last (mem_thread t mem);
  r_head : forall h, jf_heads st !! t = Some h ->
    exists c m, last (mem_thread t mem) = Some c /\ dh_checkpoint h ≡ c
      /\ stored t st (c_id c) m (dh_chain_len h);
}.

(** Fault-free stores related on every thread. *)
Record Refines st mem : Prop := {
  R_fault : forall op t id, jf_fault st op t id = None;
  R_policy : policy_ok (jf_policy st);
  R_threads : forall t, refines t st mem;
}.

Lemma read_checkpoint_Ok (t id : string) st (c : Checkpoint) :
  (forall op t id, jf_fault st op t id = None) ->
  read_checkpoint t id st = Ok c <->
  exists b, thread_files t st !! id = Some b /\ cp_decode b = Ok c
    /\ (h_format_version (c_header c) <= CURRENT_FORMAT_VERSION)%N.
Proof.
  intros Hf. unfold read_checkpoint. rewrite Hf.
  destruct (thread_files t st !! id) as [b|]; [|split; [done|by intros (b' & ? & _)]].
  destruct (cp_decode b) as [c'|] eqn:Hd;
    [|split; [done|intros (b' & [= <-] & Hd' & _); congruence]].
  unfold ensure_supported_format.
  destruct (N.ltb_spec CURRENT_FORMAT_VERSION (h_format_version (c_header c'))).
  - split; [done|]. intros (b' & [= <-] & Hd' & Hle). rewrite Hd in Hd'. simplify_eq. lia.
  - split; [intros [= <-]; eauto|]. intros (b' & [= <-] & Hd' & _). congruence.
Qed.

Lemma last_elem (l : list Checkpoint) (c : Checkpoint) : last l = Some c -> c ∈ l.
Proof. intros (l' & ->)%last_Some. set_solver. Qed.

(** The newest checkpoint is read through the pointer. *)
Lemma read_latest_refines (t : string) st mem :
  Refines st mem ->
  match last (mem_thread t mem) with
  | None => read_latest_raw t st = Ok None
  | Some c => exists raw, read_latest_raw t st = Ok (Some raw)
                /\ read_checkpoint t (c_id c) st = Ok raw
  end.
Proof.
  intros [Hf _ Ht]. destruct (Ht t) as [Hids _ Hst Hg Hl _].
  unfold read_latest_raw. rewrite Hl.
  destruct (last (mem_thread t mem)) as [c|] eqn:Hlast; simpl.
  - pose proof (last_elem _ _ Hlast) as Hin. destruct (Hg c Hin) as [[_ _ _ Htr Hne _ _] _].
    rewrite Htr, (proj2 (String.eqb_neq _ _) Hne).
    destruct (Hst c Hin) as (m & n & Hs & _). inversion Hs; simplify_eq;
      match goal with H : read_checkpoint _ _ _ = Ok _ |- _ => rewrite H end; eauto.
  - apply last_None in Hlast. rewrite Hlast in Hids. unfold scan_thread_raw.
    unfold thread_files in Hids. destruct (jf_threads st !! t) as [d|] eqn:Hd; [|done].
    rewrite Hf. simpl in Hids.
    assert (Hemp : td_files d = ∅).
    { apply map_empty. intros i. apply eq_None_not_Some. intros Hi.
      apply Hids in Hi. by apply elem_of_nil in Hi. }
    by rewrite Hemp, map_to_list_empty.
Qed.

Lemma get_latest_refines (t : string) st mem :
  Refines st mem ->
  exists o, jf_get_latest t st = Ok o /\ option_Forall2 (≡) o (last (mem_thread t mem)).
Proof.
  intros HR. pose proof (read_latest_refines t st mem HR) as Hl. unfold jf_get_latest.
  destruct HR as [Hf Hp Ht]. destruct (Ht t) as [_ _ Hst _ _ _].
  destruct (last (mem_thread t mem)) as [c|] eqn:Hlast.
  - destruct Hl as (raw & -> & Hraw). destruct (Hst c (last_elem _ _ Hlast)) as (m & n & Hs & He & _ & Hn).
    rewrite (materialize_raw_stored _ _ _ _ _ _ Hp Hs Hn Hraw). eexists. split; [done|].
    by constructor.
  - rewrite Hl. eexists. split; [done|]. constructor.
Qed.

(** ** Listings *)

Lemma scan_files_all (t : string) (ids : list string) st :
  Forall (fun id => exists d, read_checkpoint t id st = Ok d) ids ->
  exists ds, scan_files t ids st = Ok ds
    /\ Forall2 (fun id d => read_checkpoint t id st = Ok d) ids ds.
Proof.
  induction 1 as [|id ids [d Hd] _ (ds & Hds & Hall)]; simpl; [eauto|].
  rewrite Hd, Hds. simpl. eauto.
Qed.

(** What a scan indexes is what reads return. *)
Lemma stored_mat (t : string) st (ds : list Checkpoint) (id : string) (c : Checkpoint) (n : nat) :
  (forall i d, read_checkpoint t i st = Ok d -> index_by_id ds !! i = Some d) ->
  stored t st id c n -> mat (index_by_id ds) id c n.
Proof.
  intros Hidx. induction 1 as [id c Hr Hid Hb|id d b p n Hr Hid Hb Hp IH].
  - apply mat_root; eauto.
  - eapply mat_link; eauto.
Qed.

Lemma files_read (t : string) st mem (id : string) :
  Refines st mem -> is_Some (thread_files t st !! id) ->
  exists c m n d, c ∈ mem_thread t mem /\ c_id c = id /\ stored t st id m n /\ m ≡ c
    /\ wf_state (c_state m) /\ n <= max_chain_len (jf_policy st)
    /\ read_checkpoint t id st = Ok d /\ c_id d = id.
Proof.
  intros [_ _ Ht] Hf. destruct (Ht t) as [Hids _ Hst _ _ _].
  apply Hids, list_elem_of_fmap in Hf as (c & -> & Hin).
  destruct (Hst c Hin) as (m & n & Hs & He & Hw & Hn). exists c, m, n.
  inversion Hs; simplify_eq; eexists; split_and!; done.
Qed.

Lemma scan_refines (t : string) st mem :
  Refines st mem ->
  exists ds, scan_thread_raw t st = Ok ds
    /\ (forall i d, read_checkpoint t i st = Ok d -> index_by_id ds !! i = Some d)
    /\ (forall i, is_Some (index_by_id ds !! i) <-> i ∈ c_id <$> mem_thread t mem).
Proof.
  intros HR. pose proof HR as [Hf _ Ht]. pose proof (r_ids _ _ _ (Ht t)) as Hids.
  unfold scan_thread_raw. destruct (jf_threads st !! t) as [dir|] eqn:Hdir.
  - rewrite Hf.
    assert (Htf : thread_files t st = td_files dir) by (unfold thread_files; by rewrite Hdir).
    assert (Hkeys : forall i, i ∈ (map_to_list (td_files dir)).*1 <-> is_Some (thread_files t st !! i)).
    { intros i. rewrite Htf, list_elem_of_fmap. split.
      - intros ([k b] & -> & Hin%elem_of_map_to_list). eauto.
      - intros [b Hb]. exists (i, b). split; [done|]. by apply elem_of_map_to_list. }
    destruct (scan_files_all t (map_to_list (td_files dir)).*1 st) as (ds & Hds & Hall).
    { apply Forall_forall. intros i Hi%Hkeys.
      destruct (files_read t st mem i HR Hi) as (? & ? & ? & d & _ & _ & _ & _ & _ & _ & Hd & _). eauto. }
    exists ds. split; [done|].
    assert (Helem : forall d, d ∈ ds -> read_checkpoint t (c_id d) st = Ok d).
    { intros d [ix Hd]%list_elem_of_lookup.
      destruct (Forall2_lookup_r _ _ _ _ _ Hall Hd) as (i & Hi & Hr).
      apply list_elem_of_lookup_2, Hkeys in Hi. destruct (files_read t st mem i HR Hi)
        as (? & ? & ? & d' & _ & _ & _ & _ & _ & _ & Hd' & Hid). congruence. }
    assert (Hsome : forall i, is_Some (thread_files t st !! i) -> is_Some (index_by_id ds !! i)).
    { intros i Hi. apply Hkeys in Hi as Hk.
      apply list_elem_of_lookup in Hk as [ix Hk].
      destruct (Forall2_lookup_l _ _ _ _ _ Hall Hk) as (d & Hd & Hr).
      apply list_elem_of_lookup_2 in Hd.
      destruct (files_read t st mem i HR Hi) as (? & ? & ? & d' & _ & _ & _ & _ & _ & _ & Hd' & Hid).
      assert (d' = d) as -> by congruence. rewrite <- Hid. by apply index_by_id_some. }
    assert (Hidx : forall i d, index_by_id ds !! i = Some d -> read_checkpoint t i st = Ok d).
    { intros i d Hi. rewrite <- (index_by_id_keyed _ _ _ Hi). apply Helem.
      by eapply index_by_id_elem. }
    split.
    + intros i d Hr. assert (Hi : is_Some (thread_files t st !! i)).
      { apply read_checkpoint_Ok in Hr as (b & Hb & _); [|done]. eauto. }
      destruct (Hsome i Hi) as [d' Hd']. rewrite Hd'. f_equal. apply Hidx in Hd'. congruence.
    + intros i. rewrite <- Hids. split; [|apply Hsome].
      intros [d Hd]. apply Hidx, read_checkpoint_Ok in Hd as (b & Hb & _); [|done]. eauto.
  - assert (Htf : thread_files t st = ∅) by (unfold thread_files; by rewrite Hdir).
    exists []. split_and!; [done| |].
    + intros i d (b & Hb & _)%read_checkpoint_Ok; [|done]. by rewrite Htf, lookup_empty in Hb.
    + intros i. rewrite <- Hids, Htf, lookup_empty. unfold index_by_id. simpl.
      by rewrite lookup_empty.
Qed.

Lemma list_refines (t : string) st mem :
  Refines st mem ->
  exists l, jf_list t st = Ok l
    /\ Forall2 (fun m c => m ≡ c /\ wf_state (c_state m)) l (sort_by cp_leb (mem_thread t mem)).
Proof.
  intros HR. destruct (scan_refines t st mem HR) as (ds & Hds & Hidx & Hkeys).
  pose proof HR as [_ _ Ht]. destruct (Ht t) as [_ Hnd Hst _ _ _].
  unfold jf_list. rewrite Hds. simpl. eexists. split; [done|].
  unfold materialize_all. rewrite materialize_ordered_omap.
  set (f := materialized (index_by_id ds)).
  assert (Hf : forall i x, f i = Some x -> c_id x = i).
  { intros i x (n & Hm)%materialized_mat.
    inversion Hm; simplify_eq; simpl; by eapply index_by_id_keyed. }
  assert (Hperm : (map_to_list (index_by_id ds)).*1 ≡ₚ c_id <$> mem_thread t mem).
  { apply NoDup_Permutation; [apply NoDup_fst_map_to_list|done|]. intros i.
    rewrite <- Hkeys, list_elem_of_fmap. split.
    - intros ([k b] & -> & Hin%elem_of_map_to_list). eauto.
    - intros [b Hb]. exists (i, b). split; [done|]. by apply elem_of_map_to_list. }
  rewrite (sort_by_unique cp_leb cp_leb_total cp_leb_trans
             _ (omap f (c_id <$> mem_thread t mem))).
  - apply sort_by_Forall2; [intros x y x' y' [? _] [? _]; by apply cp_leb_eqv|].
    assert (Hall : forall c, c ∈ mem_thread t mem ->
              exists m, f (c_id c) = Some m /\ m ≡ c /\ wf_state (c_state m)).
    { intros c Hin. destruct (Hst c Hin) as (m & n & Hs & He & Hw & _). exists m. split; [|done].
      apply materialized_mat. exists n. by apply (stored_mat t st). }
    clear -Hall. induction (mem_thread t mem) as [|c l IH]; csimpl; [constructor|].
    destruct (Hall c) as (m & -> & He); [by left|]. constructor; [done|].
    apply IH. intros c' Hin. apply Hall. by right.
  - by rewrite Hperm.
  - intros x y (i & Hi & Hx)%list_elem_of_omap (j & Hj & Hy)%list_elem_of_omap H1 H2.
    pose proof (cp_leb_antisym_id x y H1 H2) as Hid.
    rewrite (Hf _ _ Hx), (Hf _ _ Hy) in Hid. congruence.
Qed.

Lemma find_id_Forall2 (id : string) (l k : list Checkpoint) :
  Forall2 (≡) l k -> option_Forall2 (≡) (find_id id l) (find_id id k).
Proof.
  unfold find_id. induction 1 as [|x y l k Hxy _ IH]; simpl; [constructor|].
  rewrite (eqv_id _ _ Hxy). destruct (String.eqb (c_id y) id); [by constructor|done].
Qed.

Lemma find_id_NoDup (c : Checkpoint) (l : list Checkpoint) :
  c ∈ l -> NoDup (c_id <$> l) -> find_id (c_id c) l = Some c.
Proof.
  unfold find_id. induction l as [|x l IH]; intros Hin Hnd; [by apply elem_of_nil in Hin|].
  csimpl in *. apply NoDup_cons in Hnd as [Hni Hnd].
  apply elem_of_cons in Hin as [->|Hin]; [by rewrite String.eqb_refl|].
  destruct (String.eqb_spec (c_id x) (c_id c)) as [Heq|]; [|by apply IH].
  exfalso. apply Hni. rewrite Heq. by apply list_elem_of_fmap_2.
Qed.

Lemma get_by_id_refines (t id : string) st mem :
  Refines st mem ->
  exists o, jf_get_by_id t id st = Ok o
    /\ option_Forall2 (≡) o (find_id id (sort_by cp_leb (mem_thread t mem))).
Proof.
  intros HR. pose proof HR as [Hf Hp Ht]. destruct (Ht t) as [Hids Hnd Hst _ _ _].
  unfold jf_get_by_id. destruct (read_checkpoint t id st) as [raw|fail] eqn:Hr.
  - assert (Hi : is_Some (thread_files t st !! id)).
    { apply read_checkpoint_Ok in Hr as (b & Hb & _); [|done]. eauto. }
    destruct (files_read t st mem id HR Hi) as (c & m & n & d & Hin & <- & Hs & He & _ & Hn & _).
    rewrite (materialize_raw_stored _ _ _ _ _ _ Hp Hs Hn Hr). eexists. split; [done|].
    rewrite find_id_NoDup; [by constructor| |by rewrite sort_by_perm].
    by apply sort_by_elem.
  - destruct fail as [e|e].
    + destruct (list_refines t st mem HR) as (l & -> & Hl). simpl. eexists. split; [done|].
      apply find_id_Forall2. eapply Forall2_impl; [exact Hl|]. by intros ? ? [? _].
    + exfalso. unfold read_checkpoint in Hr. rewrite Hf in Hr.
      destruct (thread_files t st !! id) as [b|] eqn:Hb; [|done].
      destruct (files_read t st mem id HR) as (c & m & n & d & _ & _ & _ & _ & _ & _ & Hd & _); [eauto|].
      unfold read_checkpoint in Hd. rewrite Hf, Hb in Hd. congruence.
Qed.

(** ** Writes *)

(** [refines] sees a store through its files, pointer, cached head, policy
    and faults only. *)
Lemma refines_transfer (t : string) st st' mem mem' :
  (forall op t id, jf_fault st op t id = None) ->
  (forall op t id, jf_fault st' op t id = None) ->
  refines t st mem -> thread_files t st' = thread_files t st ->
  jf_threads st' !! t ≫= td_latest = jf_threads st !! t ≫= td_latest ->
  jf_policy st' = jf_policy st -> mem_thread t mem' = mem_thread t mem ->
  (forall h, jf_heads st' !! t = Some h -> jf_heads st !! t = Some h
     \/ exists c m, last (mem_thread t mem) = Some c /\ dh_checkpoint h ≡ c
          /\ stored t st (c_id c) m (dh_chain_len h)) ->
  refines t st' mem'.
Proof.
  intros Hf Hf' [H1 H2 H3 H4 H5 H6] Hfiles Hlatest Hpol Hmem Hheads.
  assert (Hmono : forall i c n, stored t st i c n -> stored t st' i c n).
  { intros i c n. apply stored_mono. intros j d. rewrite !read_checkpoint_Ok by done.
    by rewrite Hfiles. }
  split; rewrite ?Hfiles, ?Hlatest, ?Hmem; try done.
  - intros c Hin. destruct (H3 c Hin) as (m & n & Hs & He & Hw & Hn). exists m, n.
    rewrite Hpol. eauto.
  - intros h Hh.
    assert (Hx : exists c m, last (mem_thread t mem) = Some c /\ dh_checkpoint h ≡ c
                  /\ stored t st (c_id c) m (dh_chain_len h))
      by (destruct (Hheads h Hh) as [Hold|]; eauto).
    destruct Hx as (c & m & Hl & He & Hs). eauto 6.
Qed.

Lemma head_of_refines (t : string) st mem :
  Refines st mem ->
  exists head st1, head_of t st = (Ok head, st1) /\ Refines st1 mem
    /\ jf_threads st1 = jf_threads st /\ jf_policy st1 = jf_policy st
    /\ match last (mem_thread t mem) with
       | None => head = None
       | Some c => exists h m, head = Some h /\ dh_checkpoint h ≡ c
                     /\ stored t st (c_id c) m (dh_chain_len h)
       end.
Proof.
  intros HR. pose proof HR as [Hf Hp Ht]. pose proof (read_latest_refines t st mem HR) as Hrl.
  unfold head_of. destruct (jf_heads st !! t) as [h|] eqn:Hh.
  - destruct (r_head _ _ _ (Ht t) h Hh) as (c & m & Hl & He & Hs).
    eexists _, _. split_and!; [done..|]. rewrite Hl. eauto.
  - destruct (last (mem_thread t mem)) as [c|] eqn:Hlast.
    + destruct Hrl as (raw & -> & Hraw).
      destruct (r_stored _ _ _ (Ht t) c (last_elem _ _ Hlast)) as (m & n & Hs & He & _ & Hn).
      destruct (load_chain_stored _ _ _ _ _ _ Hp Hs Hn Hraw) as (l & -> & Hlen & Hfold).
      simpl. rewrite Hfold, Hlen. simpl. rewrite Nat.sub_0_r.
      eexists _, _. split; [done|]. split; [|split; [done|split; [done|]]].
      * split; [done|done|]. intros t2. apply (refines_transfer t2 st _ mem); try done.
        intros h. simpl. intros [[<- <-]|[_ Hold]]%lookup_insert_Some; [|by left].
        right. exists c, m. by rewrite Hlast.
      * eexists _, m. split_and!; [done|exact He|exact Hs].
    + rewrite Hrl. eexists _, _. by split_and!.
Qed.

Lemma choose_encoding_refines (c : Checkpoint) (force : bool) st mem :
  Refines st mem ->
  exists enc st1, choose_encoding c force st = (Ok enc, st1) /\ Refines st1 mem
    /\ jf_threads st1 = jf_threads st /\ jf_policy st1 = jf_policy st
    /\ (enc = encode_full c
        \/ exists c0 h m, force = false /\ last (mem_thread (c_thread_id c) mem) = Some c0
             /\ dh_checkpoint h ≡ c0 /\ stored (c_thread_id c) st (c_id c0) m (dh_chain_len h)
             /\ dh_chain_len h < max_chain_len (jf_policy st)
             /\ enc = mkEncoding (delta_of c (dh_checkpoint h)) (dh_chain_len h + 1)).
Proof.
  intros HR. unfold choose_encoding. destruct force.
  - eexists _, _. split_and!; [done..|]. by left.
  - destruct (head_of_refines (c_thread_id c) st mem HR) as (head & st1 & -> & HR1 & H1 & H2 & Hl).
    eexists _, _. split_and!; [done..|].
    destruct (encode_delta_cases c head (jf_policy st)) as [->|(h & -> & Hlt & ->)]; [by left|].
    right. destruct (last (mem_thread (c_thread_id c) mem)) as [c0|]; [|done].
    destruct Hl as (h' & m & [= <-] & He & Hs). exists c0, h, m. by split_and!.
Qed.

(** The encoding, once on disk, materializes to the checkpoint put. *)
Lemma encoding_stored (c' c : Checkpoint) (force : bool) (enc : DeltaEncoding) st st' mem :
  Refines st mem -> c' ≡ c -> good c' ->
  (force = false -> forall c0, last (mem_thread (c_thread_id c') mem) = Some c0 ->
     channels_within (c_state c0) (c_state c)) ->
  (enc = encode_full c'
   \/ exists c0 h m, force = false /\ last (mem_thread (c_thread_id c') mem) = Some c0
        /\ dh_checkpoint h ≡ c0 /\ stored (c_thread_id c') st (c_id c0) m (dh_chain_len h)
        /\ dh_chain_len h < max_chain_len (jf_policy st)
        /\ enc = mkEncoding (delta_of c' (dh_checkpoint h)) (dh_chain_len h + 1)) ->
  (forall i d, read_checkpoint (c_thread_id c') i st = Ok d ->
     read_checkpoint (c_thread_id c') i st' = Ok d) ->
  read_checkpoint (c_thread_id c') (c_id c') st' = Ok (de_checkpoint enc) ->
  exists m, stored (c_thread_id c') st' (c_id c') m (de_chain_len enc) /\ m ≡ c
    /\ wf_state (c_state m) /\ de_chain_len enc <= max_chain_len (jf_policy st).
Proof.
  intros HR Heq Hg Hch Henc Hmono Hread. destruct Hg as [Hb Hwf _ _ _ _ _].
  destruct Henc as [->|(c0 & h & m & Hfo & Hl & He & Hs & Hlt & ->)]; simpl in *.
  - exists (set_base None c'). split_and!; [by apply stored_full| |done|lia].
    etransitivity; [|exact Heq]. by split.
  - destruct HR as [_ _ Ht].
    destruct (r_stored _ _ _ (Ht (c_thread_id c')) c0 (last_elem _ _ Hl)) as (m' & n' & Hs' & He' & Hw' & _).
    destruct (stored_det _ _ _ _ _ _ _ Hs Hs') as [-> <-].
    exists (fold_delta m' (delta_of c' (dh_checkpoint h))). split_and!.
    + rewrite Nat.add_1_r. eapply stored_link; [done|done|simpl|by eapply stored_mono].
      by rewrite (eqv_id _ _ He).
    + etransitivity; [|exact Heq]. apply fold_delta_eqv; [done|done| |].
      * etransitivity; [apply (eqv_state _ _ He')|]. symmetry. apply (eqv_state _ _ He).
      * intros k. rewrite (state_contains_proper _ _ (eqv_state _ _ He) k k eq_refl).
        rewrite (state_contains_proper _ _ (eqv_state _ _ Heq) k k eq_refl). by apply Hch.
    + by apply fold_wf.
    + lia.
Qed.

Lemma encoding_exact (c' c0 : Checkpoint) :
  good c' -> exists b, cp_encode (delta_of c' c0) = Ok b /\ cp_decode b = Ok (delta_of c' c0).
Proof.
  intros [_ Hwf _ _ _ Hv Hh]. apply cp_decode_encode; [|done].
  intros k v. unfold delta_of. simpl. rewrite delta_get by done.
  destruct (state_get (c_state c') k) as [w|] eqn:Hw; [|done].
  destruct (channel_changed _ _); [|done]. intros [= <-]. eauto.
Qed.

Lemma mem_thread_insert (t t2 : string) (l : list Checkpoint) mem :
  mem_thread t2 (mkMem (<[t := l]> (mem_threads mem)))
  = if decide (t = t2) then l else mem_thread t2 mem.
Proof.
  unfold mem_thread. simpl. destruct (decide (t = t2)) as [<-|Hne].
  - by rewrite lookup_insert_eq.
  - by rewrite lookup_insert_ne.
Qed.

(** The store after a completed write. *)
Definition written_store (c : Checkpoint) (b : B) (n : nat) st : JsonFileCheckpointer B :=
  let st3 := write_latest (c_thread_id c) (c_id c) (write_file (c_thread_id c) (c_id c) b st) in
  set_heads (<[c_thread_id c := mkHead c n]> (jf_heads st3)) st3.

Lemma written_files (c : Checkpoint) (b : B) (n : nat) (t : string) st :
  thread_files t (written_store c b n st)
  = if decide (c_thread_id c = t) then <[c_id c := b]> (thread_files t st)
    else thread_files t st.
Proof.
  unfold written_store, thread_files. simpl. destruct (decide (c_thread_id c = t)) as [<-|Hne].
  - rewrite lookup_insert_eq. simpl. unfold thread_files. simpl. by rewrite lookup_insert_eq.
  - by rewrite !lookup_insert_ne.
Qed.

Lemma written_latest (c : Checkpoint) (b : B) (n : nat) (t : string) st :
  jf_threads (written_store c b n st) !! t ≫= td_latest
  = if decide (c_thread_id c = t) then Some (c_id c) else jf_threads st !! t ≫= td_latest.
Proof.
  unfold written_store. simpl. destruct (decide (c_thread_id c = t)) as [<-|Hne].
  - by rewrite lookup_insert_eq.
  - by rewrite !lookup_insert_ne.
Qed.

(** A completed write of an encoding keeps the two stores related. *)
Lemma written_refines (c' c : Checkpoint) (force : bool) (enc : DeltaEncoding) (b : B) st mem :
  Refines st mem -> c' ≡ c -> good c' -> good c ->
  (force = false -> forall c0, last (mem_thread (c_thread_id c') mem) = Some c0 ->
     channels_within (c_state c0) (c_state c)) ->
  (enc = encode_full c'
   \/ exists c0 h m, force = false /\ last (mem_thread (c_thread_id c') mem) = Some c0
        /\ dh_checkpoint h ≡ c0 /\ stored (c_thread_id c') st (c_id c0) m (dh_chain_len h)
        /\ dh_chain_len h < max_chain_len (jf_policy st)
        /\ enc = mkEncoding (delta_of c' (dh_checkpoint h)) (dh_chain_len h + 1)) ->
  thread_files (c_thread_id c') st !! c_id c' = None -> cp_decode b = Ok (de_checkpoint enc) ->
  Refines (written_store c' b (de_chain_len enc) st)
    (mkMem (<[c_thread_id c' := mem_thread (c_thread_id c') mem ++ [c]]> (mem_threads mem))).
Proof.
  intros HR Heq Hg' Hg Hch Henc Hnew Hdec. pose proof HR as [Hf Hp Ht].
  set (st' := written_store c' b (de_chain_len enc) st). set (t := c_thread_id c') in *.
  assert (Hf' : forall op t id, jf_fault st' op t id = None) by exact Hf.
  assert (Hmono : forall i d, read_checkpoint t i st = Ok d -> read_checkpoint t i st' = Ok d).
  { intros i d. rewrite !read_checkpoint_Ok by done. intros (x & Hx & Hd).
    exists x. split; [|done]. unfold st'. rewrite written_files, decide_True by done.
    apply lookup_insert_Some. right. split; [|done]. intros <-. congruence. }
  assert (Hread : read_checkpoint t (c_id c') st' = Ok (de_checkpoint enc)).
  { apply read_checkpoint_Ok; [done|]. exists b. unfold st'.
    rewrite written_files, decide_True, lookup_insert_eq by done. split_and!; [done..|].
    destruct Hg' as [_ _ Hfmt _ _ _ _].
    destruct Henc as [->|(? & ? & ? & _ & _ & _ & _ & _ & ->)]; exact Hfmt. }
  destruct (encoding_stored c' c force enc st st' mem HR Heq Hg' Hch Henc Hmono Hread)
    as (m & Hs & He & Hw & Hn).
  split; [done|done|]. intros t2. destruct (decide (t = t2)) as [<-|Hne].
  - destruct (Ht t) as [H1 H2 H3 H4 H5 H6].
    assert (Hmem : mem_thread t (mkMem (<[t := mem_thread t mem ++ [c]]> (mem_threads mem)))
                   = mem_thread t mem ++ [c]) by (by rewrite mem_thread_insert, decide_True).
    split; rewrite ?Hmem.
    + intros id. unfold st'. rewrite written_files, decide_True, lookup_insert_is_Some', H1 by done.
      rewrite fmap_app, elem_of_app. simpl. rewrite list_elem_of_singleton, (eqv_id _ _ Heq).
      split; (intros [?|?]; [right|left]; done).
    + rewrite fmap_app. apply NoDup_app. split_and!; [done| |apply NoDup_singleton].
      intros x Hx Hx2%list_elem_of_singleton. subst x. rewrite <- (eqv_id _ _ Heq) in Hx.
      apply H1 in Hx as [y Hy]. congruence.
    + intros x [Hx| ->%list_elem_of_singleton]%elem_of_app.
      * destruct (H3 x Hx) as (m' & n' & Hs' & ?). exists m', n'. split; [|done].
        by eapply stored_mono.
      * exists m, (de_chain_len enc). by rewrite <- (eqv_id _ _ Heq).
    + intros x [Hx| ->%list_elem_of_singleton]%elem_of_app; [by apply H4|].
      split; [done|]. symmetry. apply (eqv_thread _ _ Heq).
    + unfold st'. rewrite written_latest, decide_True, last_snoc by done. simpl.
      f_equal. apply (eqv_id _ _ Heq).
    + intros h. unfold st'. simpl. rewrite lookup_insert_eq. intros [= <-]. exists c, m.
      rewrite last_snoc. simpl. split_and!; [done|done|]. by rewrite <- (eqv_id _ _ Heq).
  - apply (refines_transfer t2 st _ mem); try done.
    + unfold st'. by rewrite written_files, decide_False.
    + unfold st'. by rewrite written_latest, decide_False.
    + by rewrite mem_thread_insert, decide_False.
    + intros h. unfold st'. simpl. rewrite lookup_insert_ne by done. by left.
Qed.

(** Both backends accept or refuse a put alike, and stay related. *)
Lemma put_refines (c' c : Checkpoint) (force : bool) st mem :
  Refines st mem -> c' ≡ c -> wf_state (c_state c') -> good c ->
  (force = false -> forall c0, last (mem_thread (c_thread_id c) mem) = Some c0 ->
     channels_within (c_state c0) (c_state c)) ->
  (put_internal c' force st).1 = (mem_put c mem).1
  /\ Refines (put_internal c' force st).2 (mem_put c mem).2.
Proof.
  intros HR Heq Hwf Hg Hch. pose proof (good_eqv _ _ Heq Hwf Hg) as Hg'.
  pose proof HR as [Hf Hp Ht]. unfold put_internal, fs_check, mem_put. cbv zeta. rewrite !Hf.
  rewrite <- (eqv_thread _ _ Heq), <- (eqv_id _ _ Heq) in *. simpl.
  assert (Hdup : existsb (fun x => String.eqb (c_id x) (c_id c')) (mem_thread (c_thread_id c') mem)
                 = bool_decide (is_Some (thread_files (c_thread_id c') st !! c_id c'))).
  { apply eq_true_iff_eq. rewrite existsb_exists, bool_decide_eq_true.
    rewrite (r_ids _ _ _ (Ht (c_thread_id c'))), list_elem_of_fmap. split.
    - intros (x & Hx & Hid%String.eqb_eq). exists x. split; [done|]. by apply list_elem_of_In.
    - intros (x & Hid & Hx). exists x. split; [by apply list_elem_of_In|].
      by apply String.eqb_eq. }
  rewrite Hdup. destruct (decide (is_Some (thread_files (c_thread_id c') st !! c_id c'))) as [Hs|Hn].
  - rewrite bool_decide_eq_true_2 by done. simpl. split.
    + unfold already_exists. by rewrite (eqv_id _ _ Heq), (eqv_thread _ _ Heq).
    + split; [done..|]. intros t2. apply (refines_transfer t2 st _ mem); try done.
      * rewrite mem_thread_insert. by destruct (decide (c_thread_id c' = t2)) as [<-|].
      * by left.
  - rewrite bool_decide_eq_false_2 by done. apply eq_None_not_Some in Hn.
    destruct (choose_encoding_refines c' force st mem HR) as (enc & st1 & -> & HR1 & Hth & Hpol & Henc).
    pose proof HR1 as [Hf1 _ _].
    assert (Hex : exists b, cp_encode (de_checkpoint enc) = Ok b /\ cp_decode b = Ok (de_checkpoint enc)).
    { destruct Henc as [->|(? & ? & ? & _ & _ & _ & _ & _ & ->)]; [|by apply encoding_exact].
      simpl. destruct Hg' as [_ _ _ _ _ Hv Hh]. by apply cp_decode_encode. }
    destruct Hex as (b & -> & Hdec). rewrite !Hf1. simpl. split; [done|].
    change (set_heads _ _) with (written_store c' b (de_chain_len enc) st1).
    apply (written_refines c' c force); try done.
    + destruct Henc as [|(c0 & h & m & H1 & H2 & H3 & H4 & H5 & H6)]; [by left|].
      right. exists c0, h, m. rewrite Hpol. split_and!; try done.
      eapply stored_mono; [|exact H4]. intros i d. rewrite !read_checkpoint_Ok by done.
      unfold thread_files. by rewrite Hth.
    + unfold thread_files. rewrite Hth. exact Hn.
Qed.

(** ** Forks *)

Lemma up_to_Forall2 (R : Checkpoint -> Checkpoint -> Prop) (id : string) (l k : list Checkpoint) :
  (forall a b, R a b -> c_id a = c_id b) -> Forall2 R l k ->
  option_Forall2 (Forall2 R) (up_to id l) (up_to id k).
Proof.
  intros Hid. induction 1 as [|a b l k Hab _ IH]; simpl; [constructor|].
  rewrite (Hid _ _ Hab). destruct (String.eqb (c_id b) id); [by repeat constructor|].
  inversion IH; simpl; constructor. by constructor.
Qed.

Lemma up_to_sub (id : string) (l k : list Checkpoint) (c : Checkpoint) :
  up_to id l = Some k -> c ∈ k -> c ∈ l.
Proof.
  revert k. induction l as [|a l IH]; intros k Hk Hc; simpl in Hk; [done|].
  destruct (String.eqb (c_id a) id).
  - injection Hk as <-. apply list_elem_of_singleton in Hc as ->. by left.
  - destruct (up_to id l) as [k'|]; [|done]. simpl in Hk. injection Hk as <-.
    apply elem_of_cons in Hc as [->|Hc]; [by left|right; eauto].
Qed.

Lemma select_fork_Forall2 (R : Checkpoint -> Checkpoint -> Prop) (src dst : string)
    (at_id : option string) (l k : list Checkpoint) :
  (forall a b, R a b -> c_id a = c_id b) -> Forall2 R l k ->
  match select_fork src dst at_id l, select_fork src dst at_id k with
  | Ok a, Ok b => Forall2 R a b /\ forall c, c ∈ b -> c ∈ k
  | Err e, Err e' => e = e'
  | _, _ => False
  end.
Proof.
  intros Hid Hlk. unfold select_fork.
  destruct Hlk as [|a b l k Hab Hlk]; [done|]. destruct at_id as [id|]; [|by split; [constructor|]].
  assert (Hall : Forall2 R (a :: l) (b :: k)) by by constructor.
  pose proof (up_to_Forall2 R id _ _ Hid Hall) as Hu.
  destruct (up_to id (a :: l)) as [l'|], (up_to id (b :: k)) as [k'|] eqn:Hk'; simpl;
    inversion Hu; try done.
  split; [done|]. intros c Hc. by eapply up_to_sub.
Qed.

Lemma put_all_refines (l' l : list Checkpoint) st mem :
  Refines st mem ->
  Forall2 (fun c' c => c' ≡ c /\ wf_state (c_state c') /\ good c) l' l ->
  (put_all (fun c => put_internal c true) l' st).1 = (put_all mem_put l mem).1
  /\ Refines (put_all (fun c => put_internal c true) l' st).2 (put_all mem_put l mem).2.
Proof.
  intros HR Hall. revert st mem HR.
  induction Hall as [|c' c l' l (Heq & Hwf & Hg) _ IH]; intros st mem HR; simpl; [done|].
  destruct (put_refines c' c true st mem HR Heq Hwf Hg) as [H1 H2]; [done|].
  destruct (put_internal c' true st) as [r st'], (mem_put c mem) as [r' mem']. simpl in *. subst r'.
  destruct r as [u|e]; [by apply IH|done].
Qed.

Lemma fork_refines (src dst : string) (at_id : option string) st mem :
  Refines st mem ->
  (jf_fork_thread src dst at_id st).1 = (fork_thread src dst at_id mem).1
  /\ Refines (jf_fork_thread src dst at_id st).2 (fork_thread src dst at_id mem).2.
Proof.
  intros HR. unfold jf_fork_thread. simpl. unfold fork_with.
  destruct (String.eqb src dst); [done|].
  destruct (list_refines src st mem HR) as (l & -> & Hl). simpl.
  pose proof (select_fork_Forall2 _ src dst at_id _ _ (fun a b H => eqv_id a b (proj1 H)) Hl) as Hsel.
  destruct (select_fork src dst at_id l) as [a|e], (select_fork src dst at_id _) as [b|e'];
    try done; [|by subst].
  destruct Hsel as [Hab Hsub].
  destruct (put_all_refines (map (fun c => set_base None (set_thread dst c)) a)
              (map (set_thread dst) b) st mem HR) as [H1 H2].
  { assert (Hgood : forall c, c ∈ b -> good c).
    { intros c Hc%Hsub. rewrite sort_by_elem in Hc.
      destruct HR as [_ _ Ht]. by apply (r_good _ _ _ (Ht src)). }
    clear -Hab Hgood. induction Hab as [|x y a b [Hxy Hw] _ IH]; simpl; constructor.
    - destruct (Hgood y) as [G1 G2 G3 G4 G5 G6 G7]; [by left|].
      split_and!; [|done|by split]. destruct Hxy. by split.
    - apply IH. intros c Hc. apply Hgood. by right. }
  destruct (put_all _ _ st) as [r st'], (put_all _ _ mem) as [r' mem']. simpl in *. subst r'.
  destruct r; simpl; [|done]. by rewrite (Forall2_length _ _ _ Hab).
Qed.

(** ** Every history of the two backends *)

(** A checkpoint the executor may put on top of a history: a good one that
    keeps the channels of the thread's newest checkpoint. *)
Definition admissible mem (c : Checkpoint) : Prop :=
  good c /\ forall c0, last (mem_thread (c_thread_id c) mem) = Some c0 ->
    channels_within (c_state c0) (c_state c).

(** The same operations on a fresh file store and a fresh in-memory store,
    with process restarts of the file store in between. *)
Inductive drives : JsonFileCheckpointer B -> InMemoryCheckpointer -> Prop :=
| drive_new dir policy :
    policy_ok policy -> drives (jf_new dir policy (fun _ _ _ => None)) (mkMem ∅)
| drive_put st mem c :
    drives st mem -> admissible mem c -> drives (put c st).2 (put c mem).2
| drive_restart st mem : drives st mem -> drives (set_heads ∅ st) mem
| drive_fork st mem src dst at_id :
    drives st mem -> drives (fork_thread src dst at_id st).2 (fork_thread src dst at_id mem).2.

Lemma drives_refines st mem : drives st mem -> Refines st mem.
Proof.
  induction 1 as [dir policy Hp|st mem c _ IH [Hg Hc]|st mem _ IH|st mem src dst at_id _ IH].
  - split; [done|done|]. intros t. split; simpl.
    + intros id. unfold thread_files, mem_thread. simpl. rewrite !lookup_empty. simpl.
      rewrite lookup_empty. split; [by intros [? ?]|by intros ?%elem_of_nil].
    + constructor.
    + intros c Hc. unfold mem_thread in Hc. simpl in Hc. rewrite lookup_empty in Hc.
      by apply elem_of_nil in Hc.
    + intros c Hc. unfold mem_thread in Hc. simpl in Hc. rewrite lookup_empty in Hc.
      by apply elem_of_nil in Hc.
    + unfold mem_thread. simpl. by rewrite !lookup_empty.
    + intros h Hh. by rewrite lookup_empty in Hh.
  - apply (put_refines c c false); auto. by destruct Hg.
  - destruct IH as [Hf Hp Ht]. split; [done..|]. intros t.
    by apply (refines_transfer t st _ mem).
  - by apply fork_refines.
Qed.

(** C8: the delta-encoding file backend is a checkpointer. Over every
    history of admissible puts, forks and process restarts, it accepts and
    refuses exactly the puts and forks the in-memory backend does, with the
    same errors, and its latest checkpoint, its listing and every lookup by
    id return the in-memory backend's answers, states up to value
    equality: delta chains, the head cache and the pointer file are
    invisible. *)
Theorem file_refines_memory st mem :
  drives st mem ->
  (forall t, exists o o', get_latest t st = Ok o /\ get_latest t mem = Ok o'
     /\ option_Forall2 (≡) o o')
  /\ (forall t, exists l l', list_checkpoints t st = Ok l /\ list_checkpoints t mem = Ok l'
     /\ Forall2 (≡) l l')
  /\ (forall t id, exists o o', get_by_id t id st = Ok o /\ get_by_id t id mem = Ok o'
     /\ option_Forall2 (≡) o o')
  /\ (forall c, admissible mem c -> (put c st).1 = (put c mem).1)
  /\ (forall src dst at_id,
       (fork_thread src dst at_id st).1 = (fork_thread src dst at_id mem).1).
Proof.
  intros HR%drives_refines. split_and!.
  - intros t. destruct (get_latest_refines t st mem HR) as (o & Ho & He). by eexists _, _.
  - intros t. destruct (list_refines t st mem HR) as (l & Hl & He). eexists _, _.
    split_and!; [done..|]. eapply Forall2_impl; [exact He|]. by intros ? ? [? _].
  - intros t id. destruct (get_by_id_refines t id st mem HR) as (o & Ho & He). by eexists _, _.
  - intros c [Hg Hc]. apply (put_refines c c false); auto. by destruct Hg.
  - intros. by apply fork_refines.
Qed.
End Refinement.

(** ** Concrete stores *)
Module FileExamples.
Import Sample.
Local Open Scope string_scope.

(** A codec that keeps the checkpoint as it is. *)
#[export] Instance plain_codec : CheckpointCodec Checkpoint := {
  cp_encode c := Ok c;
  cp_decode b := Ok b;
}.

#[export] Instance plain_codec_laws : CheckpointCodecLaws Checkpoint.
Proof.
  refine {| exact_value := fun _ => True; exact_header := fun _ => True |}; eauto.
Defined.

Definition log : Value := Str "a transcript that does not change between the steps".

Definition cp (id : string) (step : nat) (channels : list (string * Value)) : Checkpoint :=
  mkCheckpoint id "thread" step (mkState channels) [] (Z.of_nat step) None default_header None.

Definition c1 : Checkpoint := cp "c1" 1 [("log", log); ("n", jnat 1)].
Definition c2 : Checkpoint := cp "c2" 2 [("log", log); ("n", jnat 2)].
Definition c3 : Checkpoint := cp "c3" 2 [("log", log)].

Definition empty_dir : JsonFileCheckpointer Checkpoint :=
  jf_new "dir" default_policy (fun _ _ _ => None).
Definition two_puts : JsonFileCheckpointer Checkpoint := (put c2 (put c1 empty_dir).2).2.
Definition two_puts_mem : InMemoryCheckpointer := (put c2 (put c1 (mkMem ∅)).2).2.

Lemma good_cp (id : string) (step : nat) (channels : list (string * Value)) :
  BTree.sorted channels = true -> trim id = id -> id <> EmptyString -> good (cp id step channels).
Proof. intros Hs Ht Hne. split; try done. by apply BTree.sorted_Sorted. Qed.

Lemma two_puts_drives : drives two_puts two_puts_mem.
Proof.
  apply drive_put; [apply drive_put; [by apply drive_new; vm_compute|]|].
  - split; [by apply good_cp|]. by vm_compute.
  - split; [by apply good_cp|]. intros c0 Hc0. vm_compute in Hc0. injection Hc0 as <-.
    intros k Hk. unfold state_contains, BTree.contains_key in *. simpl in *.
    destruct (String.eqb k "log"); [done|]. by destruct (String.eqb k "n").
Qed.

(** The second checkpoint is on disk as a delta, and reads as the whole. *)
Lemma file_refines_memory_witness :
  (thread_files "thread" two_puts !! "c2") ≫= c_base = Some "c1"
  /\ exists o, get_latest "thread" (set_heads ∅ two_puts) = Ok o
       /\ option_Forall2 (≡) o (Some c2).
Proof.
  split; [by vm_compute|].
  destruct (file_refines_memory (set_heads ∅ two_puts) two_puts_mem) as [Hl _].
  - apply drive_restart, two_puts_drives.
  - destruct (Hl "thread") as (o & o' & Ho & Ho' & He). exists o. split; [exact Ho|].
    assert (Hm : get_latest "thread" two_puts_mem = Ok (Some c2)) by by vm_compute.
    rewrite Hm in Ho'. injection Ho' as <-. exact He.
Defined.

Lemma delta_roundtrip_iff_witness :
  let e := encode_delta c2 (Some (mkHead c1 0)) default_policy in
  de_chain_len e = 1 /\ c_state (fold_delta c1 (de_checkpoint e)) ≡ c_state c2.
Proof.
  split; [by vm_compute|].
  apply (delta_roundtrip_iff c2 (mkHead c1 0) default_policy).
  - by apply BTree.sorted_Sorted.
  - by apply BTree.sorted_Sorted.
  - by vm_compute.
  - intros k Hk. unfold state_contains, BTree.contains_key in *. simpl in *.
    destruct (String.eqb k "log"); [done|]. by destruct (String.eqb k "n").
Defined.

(** A checkpoint that lacks a channel of the thread's newest one does
    not read back: here the channel [n], absent from the state put last, is
    back with its old value in the latest checkpoint the file backend
    returns, while the in-memory backend returns the state as put. *)
Theorem dropped_channel_resurrected :
  (put c3 (put c1 empty_dir).2).1 = Ok ()
  /\ state_contains (c_state c3) "n" = false
  /\ (exists c, get_latest "thread" (put c3 (put c1 empty_dir).2).2 = Ok (Some c)
        /\ c_id c = c_id c3 /\ state_get (c_state c) "n" = Some (jnat 1))
  /\ get_latest "thread" (put c3 (put c1 (mkMem ∅)).2).2 = Ok (Some c3).
Proof.
  split_and!; [by vm_compute|by vm_compute| |by vm_compute].
  eexists. split; [by vm_compute|]. by vm_compute.
Qed.
End FileExamples.
