(* ===== verification/Meter.v ===== *)
(** * Metering ([rusty-core/src/meter.rs], [rusty-core/src/llm.rs])

    The spend guard's incremental fold and the journal meter: token and cost
    totals per run and per model, tool calls per effect class, and the cost
    estimate against caller rates. Counters are [u64] with release-mode
    wrap-around; costs are binary64. *)

From Stdlib Require Import String SpecFloat.
From S2P Require Import Prelude Containers Json Error Record SampleCodec Journal.
Local Open Scope string_scope.

(** [u64] addition. *)
Definition u64_add (a b : N) : N := ((a + b) mod 2 ^ 64)%N.

(** [f64] values and arithmetic. *)
Definition f64_of (f : Float64) : spec_float :=
  match f with FZero s => S754_zero s | FFinite s m e => S754_finite s m e end.
Definition f64_add : spec_float -> spec_float -> spec_float := SFadd 53 1024.
Definition f64_times : spec_float -> spec_float -> spec_float := SFmul 53 1024.
Definition f64_div : spec_float -> spec_float -> spec_float := SFdiv 53 1024.
Definition f64_of_N (n : N) : spec_float := binary_normalize 53 1024 (Z.of_N n) 0 false.

(** ** Pricing *)

(** [ModelPricing]. *)
Record ModelPricing : Type := mkPricing {
  input_per_million : spec_float;
  output_per_million : spec_float;
  cached_input_per_million : option spec_float;
}.

(** [ModelPricing::cost_usd]. *)
Definition cost_usd (p : ModelPricing) (u : Usage) : spec_float :=
  let cached := N.min (default 0%N (cached_tokens u)) (prompt_tokens u) in
  let uncached := (prompt_tokens u - cached)%N in
  let cached_rate := default (input_per_million p) (cached_input_per_million p) in
  f64_div
    (f64_add
       (f64_add (f64_times (f64_of_N uncached) (input_per_million p))
                (f64_times (f64_of_N cached) cached_rate))
       (f64_times (f64_of_N (completion_tokens u)) (output_per_million p)))
    (f64_of_N 1000000).

(** ** Totals *)

Definition UNREPORTED_MODEL : string := "unreported".

(** [TokenTotals]. *)
Record TokenTotals : Type := mkTotals {
  tt_requests : N;
  tt_requests_with_usage : N;
  tt_prompt_tokens : N;
  tt_completion_tokens : N;
  tt_total_tokens : N;
  tt_cached_tokens : N;
  tt_reasoning_tokens : N;
}.

Definition no_totals : TokenTotals := mkTotals 0 0 0 0 0 0 0.

(** [TokenTotals::add]. *)
Definition totals_add (u : Usage) (t : TokenTotals) : TokenTotals :=
  mkTotals (tt_requests t)
    (u64_add (tt_requests_with_usage t) 1)
    (u64_add (tt_prompt_tokens t) (prompt_tokens u))
    (u64_add (tt_completion_tokens t) (completion_tokens u))
    (u64_add (tt_total_tokens t) (total_tokens u))
    (u64_add (tt_cached_tokens t) (default 0%N (cached_tokens u)))
    (u64_add (tt_reasoning_tokens t) (default 0%N (reasoning_tokens u))).

(** [tokens.requests += 1]. *)
Definition count_request (t : TokenTotals) : TokenTotals :=
  mkTotals (u64_add (tt_requests t) 1) (tt_requests_with_usage t) (tt_prompt_tokens t)
    (tt_completion_tokens t) (tt_total_tokens t) (tt_cached_tokens t) (tt_reasoning_tokens t).

(** One model call: the request, and its usage where reported. *)
Definition add_call (tokens : option Usage) (t : TokenTotals) : TokenTotals :=
  match tokens with Some u => totals_add u (count_request t) | None => count_request t end.

(** [TokenTotals::cost_under]. *)
Definition cost_under (p : ModelPricing) (t : TokenTotals) : spec_float :=
  cost_usd p (mkUsage (tt_prompt_tokens t) (tt_completion_tokens t) (tt_total_tokens t)
                (if (0 <? tt_cached_tokens t)%N then Some (tt_cached_tokens t) else None)
                (if (0 <? tt_reasoning_tokens t)%N then Some (tt_reasoning_tokens t) else None)).

(** [*slot.get_or_insert(0.0) += cost]. *)
Definition add_cost (cost : Float64) (slot : option spec_float) : option spec_float :=
  Some (f64_add (default (S754_zero false) slot) (f64_of cost)).

Definition add_cost_opt (cost : option Float64) (slot : option spec_float) : option spec_float :=
  match cost with Some c => add_cost c slot | None => slot end.

(** [ModelMeter], [ToolClassTotals]. *)
Record ModelMeter : Type := mkModelMeter {
  mm_model : string;
  mm_tokens : TokenTotals;
  mm_journaled_cost_usd : option spec_float;
}.

Record ToolClassTotals : Type := mkToolTotals { tc_calls : N; tc_errors : N }.

(** ** The in-loop guard *)

(** [RunBudget]. *)
Record RunBudget : Type := mkBudget {
  max_tokens : option N;
  max_cost_usd : option Float64;
}.

(** [Spend]. *)
Record Spend : Type := mkSpend {
  sp_requests : N;
  sp_tokens : N;
  sp_cost_usd : option spec_float;
}.

Definition no_spend : Spend := mkSpend 0 0 None.

(** [Spend::observe]. *)
Definition observe (s : Spend) (e : RunEvent) : Spend :=
  match ev_kind e with
  | KModelCall =>
      mkSpend (u64_add (sp_requests s) 1)
        (match ev_tokens e with
         | Some u => u64_add (sp_tokens s) (total_tokens u)
         | None => sp_tokens s
         end)
        (add_cost_opt (ev_cost_usd e) (sp_cost_usd s))
  | _ => s
  end.

Section Exceeds.
Context `{Codec}.

(** [Spend::exceeds]. *)
Definition exceeds (s : Spend) (b : RunBudget) : option string :=
  let over_cost :=
    match max_cost_usd b, sp_cost_usd s with
    | Some limit, Some cost =>
        if SFltb (f64_of limit) cost
        then Some ("$" ++ fixed4 cost ++ " spent against a limit of $" ++ fixed4 (f64_of limit))
        else None
    | _, _ => None
    end in
  match max_tokens b with
  | Some limit =>
      if (limit <? sp_tokens s)%N
      then Some (pretty (sp_tokens s) ++ " tokens spent against a limit of " ++ pretty limit)
      else over_cost
  | None => over_cost
  end.
End Exceeds.

(** ** The journal meter *)

(** A [BTreeMap<Effect, _>] in declaration order of [Effect]. *)
Definition effect_rank (e : Effect) : nat :=
  match e with
  | Pure => 0 | ReadOnly => 1 | Idempotent => 2 | Compensatable => 3 | NonIdempotent => 4
  end.

Fixpoint tool_entry (e : Effect) (f : ToolClassTotals -> ToolClassTotals)
    (m : list (Effect * ToolClassTotals)) : list (Effect * ToolClassTotals) :=
  match m with
  | [] => [(e, f (mkToolTotals 0 0))]
  | (e', t) :: rest =>
      if decide (e = e') then (e', f t) :: rest
      else if (effect_rank e <? effect_rank e')%nat then (e, f (mkToolTotals 0 0)) :: m
      else (e', t) :: tool_entry e f rest
  end.

(** [RunMeter]. *)
Record RunMeter : Type := mkMeter {
  mt_run_id : string;
  mt_thread_id : string;
  mt_tokens : TokenTotals;
  mt_models : list (string * ModelMeter);
  mt_tool_calls_by_effect : list (Effect * ToolClassTotals);
  mt_journaled_cost_usd : option spec_float;
}.

(** [resolve], [model_of]. *)
Definition meter_resolve (s : JournalSnapshot) (p : PayloadRef) : option Value :=
  match p with Inline v => Some v | Artifact r => BTree.get (ar_sha256 r) (js_artifacts s) end.

Definition model_of (s : JournalSnapshot) (e : RunEvent) : string :=
  default UNREPORTED_MODEL
    (p ← ev_output e; v ← meter_resolve s p; m ← vget "model" v; as_str m).

(** One event of the fold of [meter_journal]. *)
Definition meter_event (s : JournalSnapshot) (m : RunMeter) (e : RunEvent) : RunMeter :=
  match ev_kind e with
  | KModelCall =>
      let model := model_of s e in
      let entry := default (mkModelMeter model no_totals None) (BTree.get model (mt_models m)) in
      let entry' := mkModelMeter (mm_model entry) (add_call (ev_tokens e) (mm_tokens entry))
                      (add_cost_opt (ev_cost_usd e) (mm_journaled_cost_usd entry)) in
      mkMeter (mt_run_id m) (mt_thread_id m) (add_call (ev_tokens e) (mt_tokens m))
        (BTree.insert model entry' (mt_models m)) (mt_tool_calls_by_effect m)
        (add_cost_opt (ev_cost_usd e) (mt_journaled_cost_usd m))
  | KToolCall =>
      let bump t := mkToolTotals (u64_add (tc_calls t) 1)
                      (match ev_status e with
                       | StatusError => u64_add (tc_errors t) 1
                       | _ => tc_errors t
                       end) in
      mkMeter (mt_run_id m) (mt_thread_id m) (mt_tokens m) (mt_models m)
        (tool_entry (ev_effect e) bump (mt_tool_calls_by_effect m)) (mt_journaled_cost_usd m)
  | _ => m
  end.

(** [meter_journal]. *)
Definition meter_journal (s : JournalSnapshot) : RunMeter :=
  fold_left (meter_event s) (js_events s)
    (mkMeter (js_run_id s) (js_thread_id s) no_totals [] [] None).

(** [CostEstimate], [RunMeter::estimate_cost]. *)
Record CostEstimate : Type := mkEstimate {
  ce_per_model_usd : list (string * spec_float);
  ce_total_usd : spec_float;
  ce_unpriced_models : list string;
  ce_journaled_total_usd : option spec_float;
}.

Definition estimate_cost (rates : string -> option ModelPricing) (m : RunMeter) : CostEstimate :=
  fold_left (fun est kv =>
    match rates kv.1 with
    | Some pricing =>
        let cost := cost_under pricing (mm_tokens kv.2) in
        mkEstimate (BTree.insert kv.1 cost (ce_per_model_usd est))
          (f64_add (ce_total_usd est) cost) (ce_unpriced_models est)
          (ce_journaled_total_usd est)
    | None =>
        mkEstimate (ce_per_model_usd est) (ce_total_usd est)
          (ce_unpriced_models est ++ [kv.1])%list (ce_journaled_total_usd est)
    end) (mt_models m)
    (mkEstimate [] (S754_zero false) [] (mt_journaled_cost_usd m)).

(** ** Facts *)
Local Close Scope string_scope.

(** The sum of a counter over the models. *)
Definition field_sum (f : TokenTotals -> N) (models : list (string * ModelMeter)) : N :=
  fold_right (fun kv acc => f (mm_tokens kv.2) + acc)%N 0%N models.

(** The counters of [TokenTotals]. *)
Definition counters : list (TokenTotals -> N) :=
  [tt_requests; tt_requests_with_usage; tt_prompt_tokens; tt_completion_tokens;
   tt_total_tokens; tt_cached_tokens; tt_reasoning_tokens].

(** Replacing the entry of a model moves the sum by the entry's change. *)
Lemma field_sum_insert (f : TokenTotals -> N) (k : string) (v : ModelMeter)
    (models : list (string * ModelMeter)) :
  BTree.Sorted models -> f no_totals = 0%N ->
  (field_sum f (BTree.insert k v models)
   + f (mm_tokens (default (mkModelMeter k no_totals None) (BTree.get k models)))
   = f (mm_tokens v) + field_sum f models)%N.
Proof.
  intros Hs H0. induction models as [|[k' v'] models IH]; simpl in *; [lia|].
  unfold BTree.Sorted in Hs. inversion_clear Hs as [|? ? Hs' Hall].
  destruct (String.compare k k') eqn:E; simpl.
  - apply str_compare_eq in E as ->. rewrite String.eqb_refl. simpl. lia.
  - apply str_lt_ne in E as Hne. rewrite (proj2 (String.eqb_neq _ _) Hne).
    rewrite (BTree.get_below k models); [simpl; lia|].
    eapply Forall_impl; [exact Hall|]. intros x Hx. simpl in Hx. by eapply str_lt_trans.
  - apply str_compare_Gt, str_lt_ne in E as Hne.
    rewrite (proj2 (String.eqb_neq k k')) by congruence. specialize (IH Hs'). lia.
Qed.

(** [add_call] moves every counter by an amount that depends on the
    call alone, modulo [2^64], and keeps it within range. *)
Lemma add_call_shift (tokens : option Usage) (f : TokenTotals -> N) :
  f ∈ counters ->
  exists d, forall t, (f (add_call tokens t) mod 2 ^ 64 = (f t + d) mod 2 ^ 64)%N
    /\ ((f t < 2 ^ 64)%N -> (f (add_call tokens t) < 2 ^ 64)%N).
Proof.
  intros Hf. unfold counters in Hf. rewrite !elem_of_cons in Hf.
  assert (Hmod : forall a, (a mod 2 ^ 64 < 2 ^ 64)%N) by (intros; by apply N.mod_lt).
  destruct tokens as [u|]; simpl;
    destruct Hf as [->|[->|[->|[->|[->|[->|[->|Hf]]]]]]]; try (by apply elem_of_nil in Hf);
    simpl; unfold u64_add; eexists; intros t;
    (split; [first [by rewrite N.Div0.mod_mod | symmetry; f_equal; apply N.add_0_r]
            |intros; first [done|apply Hmod]]).
Qed.

Lemma add_mod_cong (a b c n : N) : (a mod n = b mod n -> (a + c) mod n = (b + c) mod n)%N.
Proof.
  intros Hab. by rewrite <- (N.Div0.add_mod_idemp_l a), Hab, N.Div0.add_mod_idemp_l.
Qed.

(** The meter's invariant, and its agreement with the in-loop spend. *)
Record meter_ok (m : RunMeter) (sp : Spend) : Prop := {
  mo_sorted : BTree.Sorted (mt_models m);
  mo_sum : forall f, f ∈ counters ->
    (f (mt_tokens m) mod 2 ^ 64 = field_sum f (mt_models m) mod 2 ^ 64)%N
    /\ (f (mt_tokens m) < 2 ^ 64)%N;
  mo_requests : sp_requests sp = tt_requests (mt_tokens m);
  mo_tokens : sp_tokens sp = tt_total_tokens (mt_tokens m);
  mo_cost : sp_cost_usd sp = mt_journaled_cost_usd m;
}.

Lemma counters_zero (f : TokenTotals -> N) : f ∈ counters -> f no_totals = 0%N.
Proof.
  unfold counters. rewrite !elem_of_cons.
  intros [->|[->|[->|[->|[->|[->|[->|Hf]]]]]]]; try done. by apply elem_of_nil in Hf.
Qed.

Lemma meter_event_ok (s : JournalSnapshot) (m : RunMeter) (sp : Spend) (e : RunEvent) :
  meter_ok m sp -> meter_ok (meter_event s m e) (observe sp e).
Proof.
  intros [Hs Hsum Hr Ht Hc]. unfold meter_event, observe.
  destruct (ev_kind e); try by split. cbv zeta.
  set (entry := default _ _). set (entry' := mkModelMeter _ _ _).
  split; simpl.
  - by apply BTree.insert_Sorted.
  - intros f Hf. destruct (Hsum f Hf) as [Heq Hlt].
    destruct (add_call_shift (ev_tokens e) f Hf) as [d Hd].
    destruct (Hd (mt_tokens m)) as [Ht1 Ht2]. destruct (Hd (mm_tokens entry)) as [He1 _].
    split; [|by apply Ht2].
    rewrite Ht1. pose proof (field_sum_insert f (model_of s e) entry' (mt_models m) Hs (counters_zero f Hf)) as Hins.
    fold entry in Hins. simpl in Hins.
    rewrite (add_mod_cong _ _ d _ Heq).
    set (S := field_sum f (BTree.insert _ _ _)) in *.
    set (T := field_sum f (mt_models m)) in *. set (x := f (mm_tokens entry)) in *.
    set (y := f (add_call (ev_tokens e) (mm_tokens entry))) in *.
    enough (Hx : ((T + d + x) mod 2 ^ 64 = (S + x) mod 2 ^ 64)%N).
    { apply (f_equal (fun z => (z + (2 ^ 64 - x mod 2 ^ 64)) mod 2 ^ 64)%N) in Hx. cbv beta in Hx.
      rewrite !N.Div0.add_mod_idemp_l in Hx.
      assert (Hcancel : forall w, ((w + x + (2 ^ 64 - x mod 2 ^ 64)) mod 2 ^ 64 = w mod 2 ^ 64)%N).
      { intros w. rewrite <- N.Div0.add_mod_idemp_l, <- (N.Div0.add_mod_idemp_r w x).
        rewrite N.Div0.add_mod_idemp_l.
        replace (w + x mod 2 ^ 64 + (2 ^ 64 - x mod 2 ^ 64))%N with (w + 1 * 2 ^ 64)%N.
        - by rewrite N.Div0.mod_add.
        - assert ((x mod 2 ^ 64 < 2 ^ 64)%N) by (by apply N.mod_lt). lia. }
      by rewrite !Hcancel in Hx. }
    rewrite Hins. rewrite <- N.add_assoc, (N.add_comm d x), N.add_comm.
    by rewrite (add_mod_cong _ _ T _ (eq_sym He1)).
  - unfold add_call. rewrite Hr. by destruct (ev_tokens e).
  - unfold add_call. rewrite Ht. by destruct (ev_tokens e).
  - by rewrite Hc.
Qed.

(** The meter and the in-loop spend guard account alike. Over any journal
    the run totals of the meter are the sums of its per-model totals (each
    counter modulo [2^64]), and the spend folded event by event equals the
    meter's requests, billed tokens and journaled cost, the cost to the last
    bit. *)
Theorem meter_accounts (s : JournalSnapshot) :
  let m := meter_journal s in
  let sp := fold_left observe (js_events s) no_spend in
  (forall f, f ∈ counters -> f (mt_tokens m) = (field_sum f (mt_models m) mod 2 ^ 64)%N)
  /\ sp_requests sp = tt_requests (mt_tokens m)
  /\ sp_tokens sp = tt_total_tokens (mt_tokens m)
  /\ sp_cost_usd sp = mt_journaled_cost_usd m.
Proof.
  simpl. unfold meter_journal.
  assert (Hok : forall es m sp, meter_ok m sp ->
            meter_ok (fold_left (meter_event s) es m) (fold_left observe es sp)).
  { induction es as [|e es IH]; intros m sp Hm; simpl; [done|]. apply IH. by apply meter_event_ok. }
  destruct (Hok (js_events s) (mkMeter (js_run_id s) (js_thread_id s) no_totals [] [] None) no_spend)
    as [_ Hsum Hr Ht Hc].
  - split; [constructor| |done..]. intros f Hf. simpl. rewrite (counters_zero f Hf). done.
  - split_and!; [|done..]. intros f Hf. destruct (Hsum f Hf) as [Heq Hlt].
    by rewrite <- Heq, N.mod_small.
Qed.
