(* ===== verification/Chat.v ===== *)
(** * Chat messages ([rusty-core/src/llm.rs])

    The model seam's data: roles, tool calls, messages and responses, the JSON
    shapes their serializers write and the decoders the runtime reads them
    back with. A tool call's arguments travel as a JSON-encoded string, the
    function-calling wire format. *)

From Stdlib Require Import String.
From S2P Require Import Prelude Containers Json Error Record SampleCodec.
Local Open Scope string_scope.

(** ** Data *)

(** [Role]. *)
Inductive Role : Type := RoleSystem | RoleUser | RoleAssistant | RoleTool.

#[export] Instance Role_eq_dec : EqDecision Role.
Proof. solve_decision. Defined.

(** [ToolCall]. *)
Record ToolCall : Type := mkToolCall {
  tc_id : string;
  tc_name : string;
  tc_arguments : Value;
}.

(** [ChatMessage]. *)
Record ChatMessage : Type := mkChat {
  cm_role : Role;
  cm_content : option string;
  cm_tool_calls : list ToolCall;
  cm_tool_call_id : option string;
  cm_name : option string;
}.

(** [ChatResponse]. *)
Record ChatResponse : Type := mkResponse {
  cr_message : ChatMessage;
  cr_model : option string;
  cr_usage : option Usage;
}.

(** [ChatMessage::system], [user], [assistant], [assistant_tool_calls],
    [tool_result]. *)
Definition msg_system (content : string) : ChatMessage :=
  mkChat RoleSystem (Some content) [] None None.
Definition msg_user (content : string) : ChatMessage :=
  mkChat RoleUser (Some content) [] None None.
Definition msg_assistant (content : string) : ChatMessage :=
  mkChat RoleAssistant (Some content) [] None None.
Definition assistant_tool_calls (calls : list ToolCall) : ChatMessage :=
  mkChat RoleAssistant None calls None None.
Definition tool_result (call_id content : string) : ChatMessage :=
  mkChat RoleTool (Some content) [] (Some call_id) None.

(** [ChatMessage::has_tool_calls]. *)
Definition has_tool_calls (m : ChatMessage) : bool :=
  match cm_tool_calls m with [] => false | _ => true end.

(** ** Serialization *)

(** [Role], [rename_all = "lowercase"]. *)
Definition role_name (r : Role) : string :=
  match r with
  | RoleSystem => "system" | RoleUser => "user"
  | RoleAssistant => "assistant" | RoleTool => "tool"
  end.

Definition role_of_name (s : string) : option Role :=
  if String.eqb s "system" then Some RoleSystem
  else if String.eqb s "user" then Some RoleUser
  else if String.eqb s "assistant" then Some RoleAssistant
  else if String.eqb s "tool" then Some RoleTool
  else None.

(** An optional field under [serde(default)]: absent or [null] is [None]. *)
Definition opt_field {A : Type} (decode : Value -> option A) (o : option Value) :
    option (option A) :=
  match o with
  | None | Some Null => Some None
  | Some v => a ← decode v; Some (Some a)
  end.

(** A field under [serde(default)] that is not optional: only absence
    defaults. *)
Definition default_field {A : Type} (a : A) (decode : Value -> option A) (o : option Value) :
    option A :=
  match o with None => Some a | Some v => decode v end.

(** [serde_json::to_value] of a [Usage]. *)
Definition usage_json (u : Usage) : Value :=
  jobj ([("prompt_tokens", jN (prompt_tokens u));
         ("completion_tokens", jN (completion_tokens u));
         ("total_tokens", jN (total_tokens u))]
        ++ jopt "cached_tokens" (jN <$> cached_tokens u)
        ++ jopt "reasoning_tokens" (jN <$> reasoning_tokens u))%list.

(** [serde_json::from_value::<Usage>]. *)
Definition usage_from_value (v : Value) : option Usage :=
  fields ← struct_fields ["prompt_tokens"; "completion_tokens"; "total_tokens";
                          "cached_tokens"; "reasoning_tokens"] 0 v;
  match fields with
  | [p; c; t; ca; re] =>
      prompt ← default_field 0%N as_u64 p; completion ← default_field 0%N as_u64 c;
      total ← default_field 0%N as_u64 t; cached ← opt_field as_u64 ca;
      reasoning ← opt_field as_u64 re;
      Some (mkUsage prompt completion total cached reasoning)
  | _ => None
  end.

Section Wire.
Context `{Codec}.

(** [impl Serialize for ToolCall]; [to_string] prints what [to_vec] does. *)
Definition tool_call_value (c : ToolCall) : Value :=
  jobj [("id", Str (tc_id c)); ("type", Str "function");
        ("function", jobj [("name", Str (tc_name c));
                           ("arguments", Str (default EmptyString (to_vec (tc_arguments c))))])].

(** [impl Deserialize for ToolCall]: string arguments are parsed, anything
    else is taken as it is. *)
Definition tool_call_from_value (v : Value) : option ToolCall :=
  wire ← struct_fields ["id"; "function"] 2 v;
  match wire with
  | [i; f] =>
      id ← i ≫= as_str; fn ← f; args ← struct_fields ["name"; "arguments"] 2 fn;
      match args with
      | [n; a] =>
          name ← n ≫= as_str; raw ← a;
          match raw with
          | Str s => match from_slice s with Ok w => Some (mkToolCall id name w) | Err _ => None end
          | other => Some (mkToolCall id name other)
          end
      | _ => None
      end
  | _ => None
  end.

(** [ChatMessage] serialized: absent fields are omitted. *)
Definition chat_message_value (m : ChatMessage) : Value :=
  jobj ([("role", Str (role_name (cm_role m)))]
        ++ jopt "content" (Str <$> cm_content m)
        ++ match cm_tool_calls m with
           | [] => []
           | calls => [("tool_calls", Array (map tool_call_value calls))]
           end
        ++ jopt "tool_call_id" (Str <$> cm_tool_call_id m)
        ++ jopt "name" (Str <$> cm_name m))%list.

Definition tool_calls_from_value (v : Value) : option (list ToolCall) :=
  match v with Array l => mapM tool_call_from_value l | _ => None end.

(** [serde_json::from_value::<ChatMessage>]. *)
Definition chat_message_from_value (v : Value) : option ChatMessage :=
  fields ← struct_fields ["role"; "content"; "tool_calls"; "tool_call_id"; "name"] 1 v;
  match fields with
  | [r; c; t; i; n] =>
      role ← ((r ≫= variant_name) ≫= role_of_name); content ← opt_field as_str c;
      calls ← default_field [] tool_calls_from_value t;
      call_id ← opt_field as_str i; name ← opt_field as_str n;
      Some (mkChat role content calls call_id name)
  | _ => None
  end.

(** ** Round trips *)

(** The text of [v] parses back to [v]. *)
Definition readable (v : Value) : Prop :=
  exists text, to_vec v = Some text /\ from_slice text = Ok v.

(** The arguments of every call of a message are readable. *)
Definition message_readable (m : ChatMessage) : Prop :=
  Forall (fun c => readable (tc_arguments c)) (cm_tool_calls m).

Lemma role_roundtrip (r : Role) : role_of_name (role_name r) = Some r.
Proof. by destruct r. Qed.

Lemma usage_roundtrip (u : Usage) : usage_from_value (usage_json u) = Some u.
Proof. by destruct u as [? ? ? [] []]. Qed.

Lemma tool_call_roundtrip (c : ToolCall) :
  readable (tc_arguments c) -> tool_call_from_value (tool_call_value c) = Some c.
Proof.
  destruct c as [i n a]. intros (text & Ht & Hr). cbn [tc_arguments] in *.
  unfold tool_call_value. cbn [tc_arguments tc_id tc_name]. rewrite Ht.
  cbv -[from_slice]. by rewrite Hr.
Qed.

Lemma tool_calls_roundtrip (cs : list ToolCall) :
  Forall (fun c => readable (tc_arguments c)) cs ->
  mapM tool_call_from_value (map tool_call_value cs) = Some cs.
Proof.
  intros Hall. apply mapM_Some. induction Hall as [|c cs Hc _ IH]; simpl; constructor; [|done].
  by apply tool_call_roundtrip.
Qed.

Lemma chat_message_roundtrip (m : ChatMessage) :
  message_readable m -> chat_message_from_value (chat_message_value m) = Some m.
Proof.
  destruct m as [r c t i n]. unfold message_readable. cbn [cm_tool_calls]. intros Ht.
  assert (Hcalls : t = [] \/ tool_calls_from_value (Array (map tool_call_value t)) = Some t)
    by (right; by apply tool_calls_roundtrip).
  unfold chat_message_value. cbn [cm_tool_calls cm_role cm_content cm_tool_call_id cm_name].
  destruct t as [|x t].
  - by destruct r, c, i, n.
  - destruct Hcalls as [|Hcalls]; [done|].
    assert (Hv : forall v, tool_calls_from_value v = Some (x :: t) ->
      chat_message_from_value
        (jobj ([("role", Str (role_name r))] ++ jopt "content" (Str <$> c)
               ++ [("tool_calls", v)] ++ jopt "tool_call_id" (Str <$> i)
               ++ jopt "name" (Str <$> n))%list) = Some (mkChat r c (x :: t) i n)).
    { intros v Hv. destruct r, c, i, n; cbv -[tool_calls_from_value]; by rewrite Hv. }
    by apply Hv.
Qed.
End Wire.
