(* ===== verification/Declaration.v ===== *)
(** * Run-config declarations ([rusty-core/src/record.rs], [replay.rs])

    The configuration envelope a run journals at its start: its fields, the
    decoder a replay reads it back with, and the field-by-field comparison a
    replay reports a drift with. *)

From Stdlib Require Import String SpecFloat.
From S2P Require Import Prelude Containers Json Error Record Journal Meter Chat.
Local Open Scope string_scope.

(** chrono's RFC 3339 parser, which [started_at] is read with. *)
Class TimeParse : Type := { parse_time : string -> option DateTime }.

(** [RunConfigDeclaration]. *)
Record RunConfigDeclaration : Type := mkDeclaration {
  dc_graph_version : string;
  dc_graph_hash : string;
  dc_policy_version : PolicyVersion;
  dc_tool_allowlist : option (list string);
  dc_manifest : option RunManifest;
  dc_context_policy : option Value;
  dc_attribution : option Value;
  dc_tool_overlays : option Value;
  dc_tool_outcomes : option Value;
  dc_budget : option RunBudget;
  dc_counterpart : option Value;
  dc_agent_id : option string;
  dc_started_at : option DateTime;
  dc_world : option string;
}.

(** ** Decoding *)

(** A [Vec<String>]. *)
Definition strings_from_value (v : Value) : option (list string) :=
  match v with Array l => mapM as_str l | _ => None end.

(** A [BTreeMap<String, String>]. *)
Definition string_map_from_value (v : Value) : option (list (string * string)) :=
  match v with
  | Object m => BTree.from_list <$> mapM (fun kv => s ← as_str kv.2; Some (kv.1, s)) m
  | _ => None
  end.

(** A finite [f64] of the float library as a JSON float. *)
Definition finite_f64 (x : spec_float) : option Float64 :=
  match x with
  | S754_zero s => Some (FZero s)
  | S754_finite s m e => Some (FFinite s m e)
  | _ => None
  end.

(** An [f64] field accepts every number. *)
Definition as_f64 (v : Value) : option Float64 :=
  match v with
  | Num (Float f) => Some f
  | Num (PosInt n) => finite_f64 (f64_of_N n)
  | Num (NegInt z) => finite_f64 (binary_normalize 53 1024 z 0 false)
  | _ => None
  end.

(** [serde_json::from_value::<RunManifest>]; every field defaults. *)
Definition manifest_from_value (v : Value) : option RunManifest :=
  fields ← struct_fields ["prompts"; "tool_schemas"; "model"; "model_params";
                          "memory_schema"; "capsules"; "middleware"; "capability_set"] 0 v;
  match fields with
  | [p; t; m; mp; ms; c; mw; cs] =>
      prompts ← default_field [] string_map_from_value p;
      schemas ← default_field [] string_map_from_value t;
      model ← opt_field as_str m; params ← opt_field as_str mp; memory ← opt_field as_str ms;
      capsules ← default_field [] string_map_from_value c;
      middleware ← opt_field as_str mw; capability ← opt_field as_str cs;
      Some (mkManifest prompts schemas model params memory capsules middleware capability)
  | _ => None
  end.

(** [serde_json::from_value::<RunBudget>]. *)
Definition budget_from_value (v : Value) : option RunBudget :=
  fields ← struct_fields ["max_tokens"; "max_cost_usd"] 0 v;
  match fields with
  | [t; c] =>
      tokens ← opt_field as_u64 t; cost ← opt_field as_f64 c; Some (mkBudget tokens cost)
  | _ => None
  end.

Definition declaration_fields : list string :=
  ["graph_version"; "graph_hash"; "policy_version"; "tool_allowlist"; "manifest";
   "context_policy"; "attribution"; "tool_overlays"; "tool_outcomes"; "budget";
   "counterpart"; "agent_id"; "started_at"; "world"].

(** [serde_json::from_value::<RunConfigDeclaration>]. *)
Definition declaration_from_value `{TimeParse} (v : Value) : option RunConfigDeclaration :=
  fields ← struct_fields declaration_fields 3 v;
  match fields with
  | [gv; gh; pv; al; mf; cp; at'; ov; oc; bu; co; ag; st; wo] =>
      graph_version ← gv ≫= as_str; graph_hash ← gh ≫= as_str; policy ← pv ≫= as_str;
      allowlist ← opt_field strings_from_value al; manifest ← opt_field manifest_from_value mf;
      context ← opt_field Some cp; attribution ← opt_field Some at';
      overlays ← opt_field Some ov; outcomes ← opt_field Some oc;
      budget ← opt_field budget_from_value bu; counterpart ← opt_field Some co;
      agent ← opt_field as_str ag;
      started ← opt_field (fun v => as_str v ≫= parse_time) st; world ← opt_field as_str wo;
      Some (mkDeclaration graph_version graph_hash policy allowlist manifest context
              attribution overlays outcomes budget counterpart agent started world)
  | _ => None
  end.

(** ** The declaration a journal holds *)

(** [resolve_in], [resolve_opt] and [resolve_ref]: a payload read through its
    artifact reference. *)
Definition resolve_ref (artifacts : list (string * Value)) (p : PayloadRef) : option Value :=
  match p with Inline v => Some v | Artifact r => BTree.get (ar_sha256 r) artifacts end.

Definition resolve_opt (artifacts : list (string * Value)) (p : option PayloadRef) :
    option Value := p ≫= resolve_ref artifacts.

Section Declared.
Context `{Codec, TimeParse}.

Fixpoint declaration_loop (artifacts : list (string * Value)) (events : list RunEvent)
    (found : option RunConfigDeclaration) : res (option RunConfigDeclaration) :=
  match events with
  | [] => Ok found
  | e :: rest =>
      if bool_decide (ev_kind e = KRunConfigDeclared)
      then match found with
           | Some _ =>
               Err (EReplay ("journal holds more than one run-config declaration (second at seq "
                    ++ pretty (ev_seq e) ++ "): the envelope is journaled once, at run start"))
           | None =>
               output ← ok_or (resolve_opt artifacts (ev_output e))
                 (EReplay ("run-config declaration at seq " ++ pretty (ev_seq e)
                           ++ " carries no output payload"));
               d ← ok_or (declaration_from_value output)
                 (EReplay ("run-config declaration at seq " ++ pretty (ev_seq e)
                           ++ " does not decode: " ++ decode_error "RunConfigDeclaration" output));
               declaration_loop artifacts rest (Some d)
           end
      else declaration_loop artifacts rest found
  end.

(** [declaration_in]. *)
Definition declaration_in (s : JournalSnapshot) : res (option RunConfigDeclaration) :=
  declaration_loop (js_artifacts s) (js_events s) None.
End Declared.

(** ** Divergence reports *)

Definition debug_list (l : list string) : string :=
  "[" ++ String.concat ", " l ++ "]".

(** [Debug for Option<Vec<String>>]. *)
Definition debug_opt_strings (o : option (list string)) : string :=
  match o with None => "None" | Some l => "Some(" ++ debug_list (map debug_str l) ++ ")" end.

(** The first tool whose pinned digest the replay changed or dropped. *)
Fixpoint schema_drift (recorded replayed : list (string * string)) : option string :=
  match recorded with
  | [] => None
  | (tool, digest) :: rest =>
      match BTree.get tool replayed with
      | None => Some ("manifest.tool_schemas." ++ tool ++ ": recorded " ++ digest
                      ++ ", replayed <absent>")
      | Some other =>
          if String.eqb other digest then schema_drift rest replayed
          else Some ("manifest.tool_schemas." ++ tool ++ ": recorded " ++ digest
                     ++ ", replayed " ++ other)
      end
  end.

(** The first tool the replay added. *)
Fixpoint schema_added (recorded replayed : list (string * string)) : option string :=
  match replayed with
  | [] => None
  | (tool, _) :: rest =>
      if BTree.contains_key tool recorded then schema_added recorded rest
      else Some ("manifest.tool_schemas." ++ tool ++ ": recorded <absent>, replayed present")
  end.

Definition pinned (b : bool) : string := if b then "pinned" else "absent".

(** One field's report, when the two sides differ. *)
Definition drift {A : Type} `{EqDecision A} (a b : A) (report : string) : option string :=
  if decide (a = b) then None else Some report.

Definition or_else {A : Type} (o o' : option A) : option A :=
  match o with Some _ => o | None => o' end.

(** [manifest_divergence]. *)
Definition manifest_divergence (recorded replayed : option RunManifest) : option string :=
  match recorded, replayed with
  | Some a, Some b =>
      or_else (drift (rm_model a) (rm_model b)
        ("manifest.model: recorded " ++ debug_opt (rm_model a)
         ++ ", replayed " ++ debug_opt (rm_model b)))
      (or_else (drift (rm_model_params a) (rm_model_params b)
        ("manifest.model_params: recorded " ++ debug_opt (rm_model_params a)
         ++ ", replayed " ++ debug_opt (rm_model_params b)))
      (or_else
        (if decide (rm_tool_schemas a = rm_tool_schemas b) then None
         else or_else (schema_drift (rm_tool_schemas a) (rm_tool_schemas b))
              (or_else (schema_added (rm_tool_schemas a) (rm_tool_schemas b))
                 (Some "manifest.tool_schemas: maps differ")))
      (or_else (drift (rm_prompts a) (rm_prompts b)
        "manifest.prompts: pinned prompt digests differ")
      (or_else (drift (rm_memory_schema a) (rm_memory_schema b)
        ("manifest.memory_schema: recorded " ++ debug_opt (rm_memory_schema a)
         ++ ", replayed " ++ debug_opt (rm_memory_schema b)))
      (or_else (drift (rm_capsules a) (rm_capsules b)
        "manifest.capsules: pinned capsule versions differ")
      (or_else (drift (rm_middleware a) (rm_middleware b)
        "manifest.middleware: pinned composition digests differ")
        (drift (rm_capability_set a) (rm_capability_set b)
          ("manifest.capability_set: recorded " ++ debug_opt (rm_capability_set a)
           ++ ", replayed " ++ debug_opt (rm_capability_set b)))))))))
  | None, None => None
  | _, _ =>
      let p {A} (o : option A) := pinned (bool_decide (is_Some o)) in
      Some ("manifest: recorded " ++ p recorded ++ ", replayed " ++ p replayed)
  end.

(** [envelope_divergence]. *)
Definition envelope_divergence (recorded replayed : RunConfigDeclaration) : option string :=
  or_else (drift (dc_graph_version recorded) (dc_graph_version replayed)
    ("graph_version: recorded `" ++ debug_str (dc_graph_version recorded)
     ++ "`, replayed `" ++ debug_str (dc_graph_version replayed) ++ "`"))
  (or_else (drift (dc_graph_hash recorded) (dc_graph_hash replayed)
    ("graph_hash: recorded " ++ dc_graph_hash recorded ++ ", replayed " ++ dc_graph_hash replayed))
  (or_else (drift (dc_policy_version recorded : string) (dc_policy_version replayed)
    ("policy_version: recorded `PolicyVersion(" ++ debug_str (dc_policy_version recorded)
     ++ ")`, replayed `PolicyVersion(" ++ debug_str (dc_policy_version replayed) ++ ")`"))
  (or_else (drift (dc_tool_allowlist recorded) (dc_tool_allowlist replayed)
    ("tool_allowlist: recorded " ++ debug_opt_strings (dc_tool_allowlist recorded)
     ++ ", replayed " ++ debug_opt_strings (dc_tool_allowlist replayed)))
    (manifest_divergence (dc_manifest recorded) (dc_manifest replayed))))).

(** ** Facts *)

Lemma drift_None {A : Type} `{EqDecision A} (a b : A) (r : string) :
  drift a b r = None <-> a = b.
Proof. unfold drift. case_decide; naive_solver. Qed.

Lemma or_else_None {A : Type} (o o' : option A) : or_else o o' = None <-> o = None /\ o' = None.
Proof. destruct o; simpl; naive_solver. Qed.

(** The report is empty exactly when the pinned manifests are equal. *)
Lemma manifest_divergence_None (a b : option RunManifest) :
  manifest_divergence a b = None <-> a = b.
Proof.
  destruct a as [a|], b as [b|]; simpl; try naive_solver.
  rewrite !or_else_None, !drift_None.
  destruct a as [p t m mp ms c mw cs], b as [p' t' m' mp' ms' c' mw' cs']; simpl.
  split.
  - intros (-> & -> & Ht & -> & -> & -> & -> & ->).
    case_decide as Heq; [by subst|]. by destruct (schema_drift t t'), (schema_added t t').
  - intros [= -> -> -> -> -> -> -> ->]. by rewrite decide_True.
Qed.

Lemma envelope_divergence_None (a b : RunConfigDeclaration) :
  envelope_divergence a b = None <->
  dc_graph_version a = dc_graph_version b /\ dc_graph_hash a = dc_graph_hash b
  /\ dc_policy_version a = dc_policy_version b /\ dc_tool_allowlist a = dc_tool_allowlist b
  /\ dc_manifest a = dc_manifest b.
Proof.
  unfold envelope_divergence.
  by rewrite !or_else_None, !drift_None, manifest_divergence_None.
Qed.

Lemma envelope_divergence_refl (d : RunConfigDeclaration) : envelope_divergence d d = None.
Proof. by apply envelope_divergence_None. Qed.
