(* ===== verification/Replay.v ===== *)
(** * Exact replay ([rusty-core/src/replay.rs], [rusty-core/src/tool/approval.rs])

    The serving side of a recorded journal: integrity verification, the
    ordered cursor over its effects, the recording and replaying wrappers of
    tools and chat models, the approval gate that journals inside a call, and
    the session that checks a replayed journal against the recorded one.

    A wrapper shares its journal and clock with the run, so it acts on a state:
    [Live] for a recording run, whose inner tools and models may also journal
    and change the outside world, and [Replaying] for a replay, which has no
    outside world. *)

From Stdlib Require Import String Ascii.
From S2P Require Import Prelude Containers Json Error Record Journal Meter Chat Declaration.
Local Open Scope string_scope.

(** ** Vocabulary *)

(** [Debug for RunEventKind]: the wire name in camel case. *)
Fixpoint camel (up : bool) (s : string) : string :=
  match s with
  | EmptyString => EmptyString
  | String c s' =>
      if Ascii.eqb c "_"%char then camel true s'
      else String (if up then ascii_of_N (N_of_ascii c - 32) else c) (camel false s')
  end.

Definition debug_kind (k : RunEventKind) : string := camel true (kind_name k).

(** [SERVABLE_KINDS], [is_servable], [NESTED_EVIDENCE_KINDS]. *)
Definition SERVABLE_KINDS : list RunEventKind := [KModelCall; KToolCall; KRemoteCall; KWasmCall].
Definition is_servable (k : RunEventKind) : bool := bool_decide (k ∈ SERVABLE_KINDS).
Definition NESTED_EVIDENCE_KINDS : list RunEventKind := [KApprovalAsked; KApprovalDecided].
Definition is_nested (k : RunEventKind) : bool := bool_decide (k ∈ NESTED_EVIDENCE_KINDS).

(** [ServedEffect]. *)
Unset Elimination Schemes.
Inductive ServedEffect : Type :=
  mkServed (event : RunEvent) (input output : option Value) (nested : list ServedEffect).
Set Elimination Schemes.

Definition sv_event (s : ServedEffect) : RunEvent := let '(mkServed e _ _ _) := s in e.
Definition sv_input (s : ServedEffect) : option Value := let '(mkServed _ i _ _) := s in i.
Definition sv_output (s : ServedEffect) : option Value := let '(mkServed _ _ o _) := s in o.
Definition sv_nested (s : ServedEffect) : list ServedEffect := let '(mkServed _ _ _ n) := s in n.

(** [recorded_error_text]. *)
Definition recorded_error_text (s : ServedEffect) : string :=
  default "<no recorded error payload>"
    (v ← sv_output s; e ← vget "error" v; as_str e).

(** [ServedEffect::recorded_draft]. *)
Definition recorded_draft (s : ServedEffect) : EventDraft :=
  let e := sv_event s in
  let d0 := with_status (ev_status e) (draft_new (ev_kind e) (ev_effect e)) in
  let d1 := match ev_node_id e with Some n => with_node n d0 | None => d0 end in
  let d2 := match sv_input s with Some v => with_input v d1 | None => d1 end in
  let d3 := match sv_output s with Some v => with_output v d2 | None => d2 end in
  let d4 := match ev_latency_ms e with Some l => with_latency_ms l d3 | None => d3 end in
  let d5 := match ev_tokens e with Some t => with_tokens t d4 | None => d4 end in
  match ev_cost_usd e with Some c => with_cost_usd c d5 | None => d5 end.

(** ** Canonical call shapes *)
Section Shapes.
Context `{Codec}.

(** [model_call_request]; [params] is the ambient [current_call_params]. *)
Definition model_call_request (params : option Value) (messages : list ChatMessage)
    (tools : list Value) : Value :=
  jobj ([("messages", Array (map chat_message_value messages)); ("tools", Array tools)]
        ++ jopt "params" params)%list.

(** [model_call_response]. *)
Definition model_call_response (r : ChatResponse) : Value :=
  jobj [("message", chat_message_value (cr_message r)); ("model", jnull (Str <$> cr_model r));
        ("usage", jnull (usage_json <$> cr_usage r))].

(** [tool_call_request]. *)
Definition tool_call_request (name : string) (arguments : Value) : Value :=
  jobj [("tool", Str name); ("arguments", arguments)].

(** [json!({ "error": error.to_string() })]. *)
Definition error_output (e : RustyError) : Value := jobj [("error", Str (error_text e))].

(** [chat_response_from_recorded]. *)
Definition chat_response_from_recorded (seq : N) (v : Value) : res ChatResponse :=
  let decode key :=
    ok_or (vget key v) (EReplay ("recorded model call at seq " ++ pretty seq
      ++ " is malformed: output payload has no `" ++ key ++ "` key")) in
  m ← decode "message";
  message ← ok_or (chat_message_from_value m) (ESerialization (decode_error "ChatMessage" m));
  n ← decode "model";
  model ← ok_or (opt_field as_str (Some n)) (ESerialization (decode_error "String" n));
  u ← decode "usage";
  usage ← ok_or (opt_field usage_from_value (Some u)) (ESerialization (decode_error "Usage" u));
  Ok (mkResponse message model usage).

(** [request_hash]. *)
Definition request_hash (request : Value) : res string :=
  bytes ← ok_or (to_vec request) (ESerialization "value"); Ok (sha256_hex bytes).

(** ** Integrity *)

Fixpoint verify_artifacts (artifacts : list (string * Value)) : res unit :=
  match artifacts with
  | [] => Ok ()
  | (hash, v) :: rest =>
      actual ← request_hash v;
      if String.eqb actual hash then verify_artifacts rest
      else Err (EReplay ("journal snapshot artifact integrity failure: artifact stored under "
                ++ hash ++ " hashes to " ++ actual
                ++ " — the snapshot was tampered with or corrupted"))
  end.

Fixpoint verify_payloads (artifacts : list (string * Value)) (id : string)
    (payloads : list PayloadRef) : res unit :=
  match payloads with
  | [] => Ok ()
  | Artifact r :: rest =>
      if BTree.contains_key (ar_sha256 r) artifacts then verify_payloads artifacts id rest
      else Err (EReplay ("journal snapshot is truncated: event " ++ id ++ " references artifact "
                ++ ar_sha256 r ++ " which is absent from the artifact map"))
  | Inline _ :: rest => verify_payloads artifacts id rest
  end.

Fixpoint verify_events (artifacts : list (string * Value)) (events : list RunEvent) : res unit :=
  match events with
  | [] => Ok ()
  | e :: rest =>
      verify_payloads artifacts (ev_id e)
        (option_list (ev_input e) ++ option_list (ev_output e))%list;;
      verify_events artifacts rest
  end.

(** [verify_snapshot]; the clock handed to [from_snapshot] is irrelevant. *)
Definition verify_snapshot (s : JournalSnapshot) : res unit :=
  from_snapshot s 0;;
  verify_artifacts (js_artifacts s);;
  verify_events (js_artifacts s) (js_events s).
End Shapes.

(** ** The serving cursor *)

(** [ReplaySourceInner]. *)
Record ReplaySource : Type := mkSource {
  rs_servable : list RunEvent;
  rs_nested : list (list RunEvent);
  rs_stray : list N;
  rs_artifacts : list (string * Value);
  rs_cursor : nat;
}.

(** One event of the walk in [ReplaySource::new]. *)
Record Walk : Type := mkWalk {
  wk_servable : list RunEvent;
  wk_nested : list (list RunEvent);
  wk_pending : list RunEvent;
  wk_stray : list N;
}.

Definition walk_event (w : Walk) (e : RunEvent) : Walk :=
  if is_servable (ev_kind e)
  then mkWalk (wk_servable w ++ [e]) (wk_nested w ++ [wk_pending w]) [] (wk_stray w)
  else if is_nested (ev_kind e)
  then mkWalk (wk_servable w) (wk_nested w) (wk_pending w ++ [e]) (wk_stray w)
  else match wk_pending w with
       | [] => w
       | p => mkWalk (wk_servable w) (wk_nested w) [] (wk_stray w ++ map ev_seq p)
       end.

Definition evidence_walk (events : list RunEvent) : Walk :=
  fold_left walk_event events (mkWalk [] [] [] []).

(** [ReplaySource::new]. *)
Definition source_new (s : JournalSnapshot) : ReplaySource :=
  let w := evidence_walk (js_events s) in
  mkSource (wk_servable w) (wk_nested w) (wk_stray w ++ map ev_seq (wk_pending w))
    (js_artifacts s) 0.

(** [stray_nested], [is_exhausted], [remaining]. *)
Definition stray_nested (s : ReplaySource) : list N := rs_stray s.
Definition is_exhausted (s : ReplaySource) : bool :=
  bool_decide (rs_cursor s = length (rs_servable s)).
Definition remaining (s : ReplaySource) : list (N * RunEventKind) :=
  map (fun e => (ev_seq e, ev_kind e)) (drop (rs_cursor s) (rs_servable s)).

Definition advance (s : ReplaySource) : ReplaySource :=
  mkSource (rs_servable s) (rs_nested s) (rs_stray s) (rs_artifacts s) (S (rs_cursor s)).

(** A recorded event with its payloads looked through. *)
Definition look_through (artifacts : list (string * Value)) (e : RunEvent)
    (nested : list ServedEffect) : ServedEffect :=
  mkServed e (resolve_opt artifacts (ev_input e)) (resolve_opt artifacts (ev_output e)) nested.

Section Serving.
Context `{Codec}.

(** [ReplaySource::serve]. *)
Definition serve (kind : RunEventKind) (request : Value) (s : ReplaySource) :
    res ServedEffect * ReplaySource :=
  let out :=
    (if is_servable kind then Ok ()
     else Err (EReplay (debug_kind kind ++ " is not a servable effect kind; exact replay serves only "
          ++ debug_list (map debug_kind SERVABLE_KINDS)
          ++ " — executor-derived events are reproduced by re-execution, not served")));;
    issued ← request_hash request;
    event ← ok_or (rs_servable s !! rs_cursor s)
      (EReplay ("replay exhaustion: the run issued a " ++ debug_kind kind
        ++ " call (request hash " ++ issued ++ "), but the journal holds no further recorded "
        ++ "effects to serve — the replayed run is doing more work than the recorded one"));
    (if bool_decide (ev_kind event = kind) then Ok ()
     else Err (EReplay ("replay order violation at recorded seq " ++ pretty (ev_seq event)
          ++ ": the run issued a " ++ debug_kind kind
          ++ " call, but the next unserved recorded effect is " ++ debug_kind (ev_kind event)
          ++ " — exact replay requires effects in journaled sequence order")));;
    recorded_input ← ok_or (resolve_opt (rs_artifacts s) (ev_input event))
      (EReplay ("recorded " ++ debug_kind (ev_kind event) ++ " at seq " ++ pretty (ev_seq event)
        ++ " has no input payload to match against"));
    recorded ← request_hash recorded_input;
    (if String.eqb recorded issued then Ok ()
     else Err (EReplay ("replay divergence at recorded seq " ++ pretty (ev_seq event) ++ " ("
          ++ debug_kind (ev_kind event) ++ "): the run issued a request whose canonical hash is "
          ++ issued ++ ", but the journaled request hashes to " ++ recorded
          ++ " — the replayed run has diverged from its evidence")));;
    Ok (look_through (rs_artifacts s) event
          (map (fun n => look_through (rs_artifacts s) n [])
             (default [] (rs_nested s !! rs_cursor s)))) in
  (out, match out with Ok _ => advance s | Err _ => s end).
End Serving.

(** ** Recording *)

(** What a recording run shares: its clocks, its journal and the world its
    tools and models act on. *)
Record Live (E : Type) : Type := mkLive {
  lv_clocks : Clocks;
  lv_journal : Journal;
  lv_env : E;
}.
Arguments mkLive {E} _ _ _.
Arguments lv_clocks {E} _.
Arguments lv_journal {E} _.
Arguments lv_env {E} _.

(** The [Tool] trait, as far as the wrappers use it. *)
Record Tool (E : Type) : Type := mkTool {
  tl_name : string;
  tl_effect : Effect;
  tl_call : Value -> Live E -> res Value * Live E;
}.
Arguments mkTool {E} _ _ _.
Arguments tl_name {E} _.
Arguments tl_effect {E} _.
Arguments tl_call {E} _ _ _.

(** [TokenChunk]. *)
Record TokenChunk : Type := mkChunk { ck_delta : string; ck_finish : bool }.

(** The [ChatModel] trait; a stream is the chunks it hands to the callback
    and its final response. *)
Record ChatModel (E : Type) : Type := mkModel {
  md_effect : Effect;
  md_pricing : option ModelPricing;
  md_chat : list ChatMessage -> list Value -> Live E -> res ChatResponse * Live E;
  md_stream : list ChatMessage -> list Value -> E -> list TokenChunk * res ChatResponse * E;
}.
Arguments mkModel {E} _ _ _ _.
Arguments md_effect {E} _.
Arguments md_pricing {E} _.
Arguments md_chat {E} _ _ _ _.
Arguments md_stream {E} _ _ _ _.

Section Recording.
Context `{Codec} {E : Type}.

(** [journal.clock().now()]. *)
Definition live_now (s : Live E) : DateTime * Live E :=
  let '(t, cs) := read_clock (j_clock (lv_journal s)) (lv_clocks s) in
  (t, mkLive cs (lv_journal s) (lv_env s)).

(** [journal.record(draft)]. *)
Definition live_record (d : EventDraft) (s : Live E) : string * Live E :=
  let '(id, cs, j) := record d (lv_clocks s) (lv_journal s) in
  (id, mkLive cs j (lv_env s)).

(** [(now - started).num_milliseconds().max(0) as u64]. *)
Definition latency (started ended : DateTime) : N := Z.to_N (Z.max (ended - started) 0).

Definition node_opt (node : option string) (d : EventDraft) : EventDraft :=
  match node with Some n => with_node n d | None => d end.

(** The event [RecordingTool] journals for a finished call. *)
Definition tool_draft (inner : Tool E) (parent : string) (node : option string) (args : Value)
    (latency_ms : N) (result : res Value) : EventDraft :=
  let draft :=
    node_opt node
      (with_parent parent
         (with_latency_ms latency_ms
            (with_input (tool_call_request (tl_name inner) args)
               (draft_new KToolCall (tl_effect inner))))) in
  match result with
  | Ok v => with_output v draft
  | Err e => with_output (error_output e) (with_status StatusError draft)
  end.

(** [impl Tool for RecordingTool], the call. *)
Definition recording_tool_call (inner : Tool E) (parent : string) (node : option string)
    (args : Value) (s : Live E) : res Value * Live E :=
  let '(started, s1) := live_now s in
  let '(result, s2) := tl_call inner args s1 in
  let '(ended, s3) := live_now s2 in
  (result, (live_record (tool_draft inner parent node args (latency started ended) result) s3).2).

(** [RecordingChatModel::draft]. *)
Definition model_draft (inner : ChatModel E) (parent : string) (node : option string) :
    EventDraft :=
  node_opt node (with_parent parent (draft_new KModelCall (md_effect inner))).

(** The recorded cost: a priced model's call that reported usage. A cost
    that overflowed to infinity has no JSON form and is left out. *)
Definition call_cost (inner : ChatModel E) (u : Usage) : option Float64 :=
  p ← md_pricing inner; finite_f64 (cost_usd p u).

(** The event [journal_outcome] journals (both callers pass no chunks). *)
Definition outcome_draft (inner : ChatModel E) (parent : string) (node : option string)
    (latency_ms : N) (input : Value) (result : res ChatResponse) : EventDraft :=
  let draft := with_latency_ms latency_ms (with_input input (model_draft inner parent node)) in
  match result with
  | Ok r =>
      let d1 := with_output (model_call_response r) draft in
      match cr_usage r with
      | Some u =>
          let d := with_tokens u d1 in
          match call_cost inner u with Some c => with_cost_usd c d | None => d end
      | None => d1
      end
  | Err e => with_output (error_output e) (with_status StatusError draft)
  end.

(** [RecordingChatModel::journal_outcome]. *)
Definition journal_outcome (inner : ChatModel E) (parent : string) (node : option string)
    (latency_ms : N) (input : Value) (result : res ChatResponse) (s : Live E) :
    res ChatResponse * Live E :=
  (result, (live_record (outcome_draft inner parent node latency_ms input result) s).2).

(** [RecordingChatModel::chat]. *)
Definition recording_chat (inner : ChatModel E) (params : option Value) (parent : string)
    (node : option string) (messages : list ChatMessage) (tools : list Value) (s : Live E) :
    res ChatResponse * Live E :=
  let '(started, s1) := live_now s in
  let '(result, s2) := md_chat inner messages tools s1 in
  let '(ended, s3) := live_now s2 in
  journal_outcome inner parent node (latency started ended)
    (model_call_request params messages tools) result s3.

(** One chunk handed to the callback of [chat_stream], captured as evidence. *)
Definition chunk_draft (inner : ChatModel E) (parent : string) (node : option string)
    (index : nat) (c : TokenChunk) : EventDraft :=
  node_opt node
    (with_output (jobj [("delta", Str (ck_delta c)); ("stream_index", jnat index);
                        ("finish", Bool (ck_finish c))])
       (with_parent parent (draft_new KAssistantChunk (md_effect inner)))).

Fixpoint capture_chunks (inner : ChatModel E) (parent : string) (node : option string)
    (index : nat) (chunks : list TokenChunk) (s : Live E) : Live E :=
  match chunks with
  | [] => s
  | c :: rest =>
      capture_chunks inner parent node (S index) rest
        (live_record (chunk_draft inner parent node index c) s).2
  end.

(** [RecordingChatModel::chat_stream]; also returns the chunks forwarded. *)
Definition recording_stream (inner : ChatModel E) (capture : bool) (params : option Value)
    (parent : string) (node : option string) (messages : list ChatMessage)
    (tools : list Value) (s : Live E) : list TokenChunk * res ChatResponse * Live E :=
  let '(started, s1) := live_now s in
  let '(chunks, result, env) := md_stream inner messages tools (lv_env s1) in
  let s2 := mkLive (lv_clocks s1) (lv_journal s1) env in
  let s3 := if capture then capture_chunks inner parent node 0 chunks s2 else s2 in
  let assembled := String.concat EmptyString (map ck_delta chunks) in
  let mismatch :=
    match result with
    | Ok r =>
        let expected := default EmptyString (cm_content (cr_message r)) in
        if capture && negb (String.eqb assembled expected) then Some expected else None
    | Err _ => None
    end in
  match mismatch with
  | Some expected => (chunks, Err (EChunkAssembly expected assembled), s3)
  | None =>
      let '(ended, s4) := live_now s3 in
      let '(out, s5) :=
        journal_outcome inner parent node (latency started ended)
          (model_call_request params messages tools) result s4 in
      (chunks, out, s5)
  end.
End Recording.

(** ** The approval gate *)

(** [ApprovalDecision]. *)
Inductive ApprovalDecision : Type :=
| ApprovedOnce (approved_by : string)
| DecisionRejected (decided_by : string) (reason : option string)
| DecisionCancelled (reason : option string)
| DecisionUnavailable (reason : option string).

(** [ApprovalDecision::grants]. *)
Definition grants (d : ApprovalDecision) : bool :=
  match d with ApprovedOnce _ => true | _ => false end.

(** [ApprovalRequest]. *)
Record ApprovalRequest : Type := mkAsk {
  ask_kind : string;
  ask_effect_id : option string;
  ask_detail : option Value;
}.

Definition decision_value (d : ApprovalDecision) : Value :=
  match d with
  | ApprovedOnce by' => jobj [("decision", Str "approved_once"); ("approved_by", Str by')]
  | DecisionRejected by' why =>
      jobj ([("decision", Str "rejected"); ("decided_by", Str by')]
            ++ jopt "reason" (Str <$> why))%list
  | DecisionCancelled why =>
      jobj ([("decision", Str "cancelled")] ++ jopt "reason" (Str <$> why))%list
  | DecisionUnavailable why =>
      jobj ([("decision", Str "unavailable")] ++ jopt "reason" (Str <$> why))%list
  end.

Definition ask_value (r : ApprovalRequest) : Value :=
  jobj ([("kind", Str (ask_kind r))] ++ jopt "effect_id" (Str <$> ask_effect_id r)
        ++ jopt "detail" (ask_detail r))%list.

Definition outcome_value (r : ApprovalRequest) (d : ApprovalDecision) : Value :=
  jobj ([("kind", Str (ask_kind r))] ++ jopt "effect_id" (Str <$> ask_effect_id r)
        ++ [("decision", decision_value d)])%list.

(** [ApprovalGate::decide]; [parent] is the gate's causal anchor. *)
Definition gate_decide `{Codec} {E : Type} (parent : option string) (request : ApprovalRequest)
    (decision : ApprovalDecision) (s : Live E) : ApprovalDecision * Live E :=
  let asked := with_input (ask_value request) (draft_new KApprovalAsked Pure) in
  let '(asked_id, s1) :=
    live_record (match parent with Some p => with_parent p asked | None => asked end) s in
  (decision,
   (live_record (with_parent asked_id (with_output (outcome_value request decision)
      (draft_new KApprovalDecided Pure))) s1).2).

(** ** Replaying *)

(** What a replaying run shares: the cursor, the clocks and its journal. *)
Record Replaying : Type := mkReplaying {
  rp_source : ReplaySource;
  rp_clocks : Clocks;
  rp_journal : Journal;
}.

Section Replaying.
Context `{Codec}.

Definition replay_record (d : EventDraft) (s : Replaying) : string * Replaying :=
  let '(id, cs, j) := record d (rp_clocks s) (rp_journal s) in
  (id, mkReplaying (rp_source s) cs j).

Definition replay_now (s : Replaying) : Replaying :=
  mkReplaying (rp_source s) (read_clock (j_clock (rp_journal s)) (rp_clocks s)).2 (rp_journal s).

(** [ServedEffect::rejournal]. *)
Definition rejournal (served : ServedEffect) (parent : string) (s : Replaying) : Replaying :=
  (replay_record (with_parent parent (recorded_draft served)) s).2.

(** [ServedEffect::rejournal_recorded]. *)
Definition rejournal_recorded (s : Replaying) (served : ServedEffect) : Replaying :=
  let draft := recorded_draft served in
  (replay_record (match ev_parent (sv_event served) with
                  | Some p => with_parent p draft
                  | None => draft
                  end) s).2.

(** The shared head of both replaying wrappers: serve, re-journal the nested
    evidence, read the clock as the recording did, re-journal the effect. *)
Definition replay_effect (kind : RunEventKind) (request : Value) (parent : string)
    (s : Replaying) : res ServedEffect * Replaying :=
  let '(out, source) := serve kind request (rp_source s) in
  let s1 := mkReplaying source (rp_clocks s) (rp_journal s) in
  match out with
  | Err e => (Err e, s1)
  | Ok served =>
      let s2 := fold_left rejournal_recorded (sv_nested served) s1 in
      (Ok served, rejournal served parent (replay_now (replay_now s2)))
  end.

(** [impl Tool for ReplayingTool], the call: what the recorded status says. *)
Definition tool_outcome (served : ServedEffect) : res Value :=
  let e := sv_event served in
  match ev_status e with
  | StatusOk =>
      ok_or (sv_output served)
        (EReplay ("recorded tool call at seq " ++ pretty (ev_seq e)
                  ++ " succeeded but carries no output payload"))
  | StatusError =>
      Err (ETool ("replayed tool call at seq " ++ pretty (ev_seq e) ++ " failed as recorded: "
                  ++ recorded_error_text served))
  | StatusInterrupted =>
      Err (EReplay ("recorded tool call at seq " ++ pretty (ev_seq e)
           ++ " has status `interrupted`, which tool calls never produce — the journal is "
           ++ "inconsistent"))
  end.

Definition replaying_tool_call (name parent : string) (args : Value) (s : Replaying) :
    res Value * Replaying :=
  let '(out, s') := replay_effect KToolCall (tool_call_request name args) parent s in
  (out ≫= tool_outcome, s').

(** [impl ChatModel for ReplayingChatModel], the call. *)
Definition chat_outcome (served : ServedEffect) : res ChatResponse :=
  let e := sv_event served in
  match ev_status e with
  | StatusOk =>
      output ← ok_or (sv_output served)
        (EReplay ("recorded model call at seq " ++ pretty (ev_seq e)
                  ++ " succeeded but carries no output payload"));
      chat_response_from_recorded (ev_seq e) output
  | StatusError =>
      Err (ELlm ("replayed model call at seq " ++ pretty (ev_seq e) ++ " failed as recorded: "
                 ++ recorded_error_text served))
  | StatusInterrupted =>
      Err (EReplay ("recorded model call at seq " ++ pretty (ev_seq e)
           ++ " has status `interrupted`, which model calls never produce — the journal is "
           ++ "inconsistent"))
  end.

Definition replaying_chat (params : option Value) (parent : string)
    (messages : list ChatMessage) (tools : list Value) (s : Replaying) :
    res ChatResponse * Replaying :=
  let '(out, s') :=
    replay_effect KModelCall (model_call_request params messages tools) parent s in
  (out ≫= chat_outcome, s').

(** ** The session *)

(** [ExactReplay]: the recorded snapshot and its cursor. *)
Record ExactReplay : Type := mkExact { xr_snapshot : JournalSnapshot; xr_source : ReplaySource }.

(** [ExactReplay::new]. *)
Definition exact_replay (s : JournalSnapshot) : res ExactReplay :=
  verify_snapshot s;;
  if existsb (fun e => bool_decide (ev_kind e = KResume)) (js_events s)
  then Err (EReplay ("exact replay of resumed runs is not supported: the journal holds a resume "
            ++ "event, whose pre-resume state lives in a checkpoint the journal does not carry "
            ++ "— replay the original run's journal instead"))
  else
    let source := source_new s in
    match stray_nested source with
    | [] => Ok (mkExact s source)
    | stray =>
        Err (EReplay ("exact replay cannot reproduce the gate evidence at recorded seqs "
             ++ debug_list (map pretty stray)
             ++ ": approval events replay only nested immediately before the effect they gated, "
             ++ "but this journal holds them elsewhere (a gate used outside a journaled effect, "
             ++ "or a run that stopped between the decision and the effect's record)"))
    end.

(** [ExactReplay::fresh_journal]. *)
Definition fresh_journal (x : ExactReplay) (clock : nat) : Journal :=
  journal_new (js_run_id (xr_snapshot x)) (js_thread_id (xr_snapshot x)) clock.
End Replaying.

(** *** Equality of evidence *)

(** [PartialEq for f64] on finite values. *)
Definition float_eqb (a b : Float64) : bool :=
  match a, b with FZero _, FZero _ => true | _, _ => bool_decide (a = b) end.

Definition opt_eqb {A : Type} (eqb : A -> A -> bool) (a b : option A) : bool :=
  match a, b with
  | Some x, Some y => eqb x y
  | None, None => true
  | _, _ => false
  end.

(** [PartialEq for PayloadRef]. *)
Definition payload_eqb (a b : PayloadRef) : bool :=
  match a, b with
  | Inline v, Inline w => value_eqb v w
  | Artifact r, Artifact r' => bool_decide (r = r')
  | _, _ => false
  end.

#[export] Instance Usage_eq_dec : EqDecision Usage.
Proof. solve_decision. Defined.

(** [PartialEq for RunEvent]. *)
Definition event_eqb (a b : RunEvent) : bool :=
  bool_decide (ev_id a = ev_id b) && bool_decide (ev_run_id a = ev_run_id b)
  && bool_decide (ev_thread_id a = ev_thread_id b) && bool_decide (ev_node_id a = ev_node_id b)
  && bool_decide (ev_seq a = ev_seq b) && bool_decide (ev_kind a = ev_kind b)
  && bool_decide (ev_effect a = ev_effect b)
  && opt_eqb payload_eqb (ev_input a) (ev_input b)
  && opt_eqb payload_eqb (ev_output a) (ev_output b)
  && bool_decide (ev_latency_ms a = ev_latency_ms b) && bool_decide (ev_tokens a = ev_tokens b)
  && opt_eqb float_eqb (ev_cost_usd a) (ev_cost_usd b)
  && bool_decide (ev_status a = ev_status b) && bool_decide (ev_parent a = ev_parent b)
  && bool_decide (ev_recorded_at a = ev_recorded_at b).

(** [PartialEq for BTreeMap<String, Value>]. *)
Fixpoint artifacts_eqb (a b : list (string * Value)) : bool :=
  match a, b with
  | [], [] => true
  | (k, v) :: a', (k', w) :: b' => String.eqb k k' && value_eqb v w && artifacts_eqb a' b'
  | _, _ => false
  end.

(** [Debug for EventStatus], [summarize_event]. *)
Definition debug_status (s : EventStatus) : string := camel true (status_name s).
Definition summarize_event (e : RunEvent) : string :=
  debug_kind (ev_kind e) ++ "(node=" ++ debug_opt (ev_node_id e) ++ ", status="
  ++ debug_status (ev_status e) ++ ")".

(** The event walk of [ExactReplay::verify], on journals of one length. *)
Fixpoint verify_walk (recorded replayed : list RunEvent) : res unit :=
  match recorded, replayed with
  | a :: recorded', b :: replayed' =>
      if event_eqb a b then verify_walk recorded' replayed'
      else Err (EReplay ("replay event mismatch at seq " ++ pretty (ev_seq a) ++ ": recorded "
                ++ summarize_event a ++ " but replayed " ++ summarize_event b))
  | _, _ => Ok ()
  end.

Section Verify.
Context `{Codec, TimeParse}.

(** The envelope assertion of [ExactReplay::verify]. *)
Definition verify_envelope (recorded replayed : option RunConfigDeclaration) : res unit :=
  match recorded, replayed with
  | None, None => Ok ()
  | None, Some _ =>
      Err (EReplay ("replay envelope divergence: the recorded run declared no configuration "
           ++ "envelope, but the replayed run declared one"))
  | Some _, None =>
      Err (EReplay ("replay envelope divergence: the recorded run declared a configuration "
           ++ "envelope, but the replayed run declared none"))
  | Some a, Some b =>
      match envelope_divergence a b with
      | Some d =>
          Err (EReplay ("replay envelope divergence: " ++ d ++ " — the replayed run's declared "
               ++ "configuration differs from the recorded one"))
      | None => Ok ()
      end
  end.

Definition debug_remaining (l : list (N * RunEventKind)) : string :=
  debug_list (map (fun p => "(" ++ pretty p.1 ++ ", " ++ debug_kind p.2 ++ ")") l).

(** [ExactReplay::verify]; the shared cursor is passed as it stands. *)
Definition verify (recorded : JournalSnapshot) (source : ReplaySource)
    (replayed : JournalSnapshot) : res unit :=
  (if is_exhausted source then Ok ()
   else Err (EReplay ("exact replay left recorded effects unserved: "
        ++ debug_remaining (remaining source)
        ++ " — the replayed run stopped short of the journaled history")));;
  (if String.eqb (js_run_id recorded) (js_run_id replayed)
      && String.eqb (js_thread_id recorded) (js_thread_id replayed) then Ok ()
   else Err (EReplay ("replay identity mismatch: recorded run `" ++ js_run_id recorded
        ++ "`/thread `" ++ js_thread_id recorded ++ "` vs replayed `" ++ js_run_id replayed
        ++ "`/`" ++ js_thread_id replayed ++ "`")));;
  recorded_declaration ← declaration_in recorded;
  replayed_declaration ← declaration_in replayed;
  verify_envelope recorded_declaration replayed_declaration;;
  (if bool_decide (length (js_events recorded) = length (js_events replayed)) then Ok ()
   else Err (EReplay ("replay event-count mismatch: the recorded journal holds "
        ++ pretty (length (js_events recorded)) ++ " events but the replayed journal holds "
        ++ pretty (length (js_events replayed)))));;
  verify_walk (js_events recorded) (js_events replayed);;
  (if artifacts_eqb (js_artifacts recorded) (js_artifacts replayed) then Ok ()
   else Err (EReplay ("replay artifact mismatch: the replayed journal's artifact payloads "
        ++ "differ from the recorded ones")));;
  (if String.eqb (js_head_hash recorded) (js_head_hash replayed) then Ok ()
   else Err (EReplay ("replay head-hash mismatch: recorded " ++ js_head_hash recorded
        ++ " but replayed " ++ js_head_hash replayed ++ " — event content agrees but the "
        ++ "evidence chain does not (this should be unreachable; please report it)"))).
End Verify.
