(* ===== verification/ReplayFacts.v ===== *)
(** * Facts of exact replay

    What the cursor serves and refuses, what [ExactReplay::verify] accepts,
    and that a run recorded through the wrappers replays to its own journal
    ([Replay]). *)

From Stdlib Require Import String.
From S2P Require Import Prelude Containers Json Error Record SampleCodec Journal JournalFacts Meter Chat Declaration Replay.
Local Open Scope string_scope.

(** ** The walk over a journal *)

Lemma walk_app (es es' : list RunEvent) : evidence_walk (es ++ es')%list = fold_left walk_event es' (evidence_walk es).
Proof. unfold evidence_walk. by rewrite fold_left_app. Qed.

Lemma walk_snoc (es : list RunEvent) (e : RunEvent) : evidence_walk (es ++ [e])%list = walk_event (evidence_walk es) e.
Proof. by rewrite walk_app. Qed.

(** The effects a cursor holds are the servable events, in order. *)
Definition servable_events (es : list RunEvent) : list RunEvent :=
  List.filter (fun e => is_servable (ev_kind e)) es.

Lemma walk_servable (es : list RunEvent) : wk_servable (evidence_walk es) = servable_events es.
Proof.
  induction es as [|e es IH] using rev_ind; [done|].
  unfold servable_events in *. rewrite walk_snoc, List.filter_app. unfold walk_event. simpl.
  destruct (is_servable (ev_kind e)) eqn:Es; simpl; [by rewrite IH|]. rewrite app_nil_r.
  destruct (is_nested (ev_kind e)); simpl; [done|]. by destruct (wk_pending (evidence_walk es)).
Qed.

Lemma walk_nested_length (es : list RunEvent) :
  length (wk_nested (evidence_walk es)) = length (wk_servable (evidence_walk es)).
Proof.
  induction es as [|e es IH] using rev_ind; [done|]. rewrite walk_snoc. unfold walk_event.
  destruct (is_servable (ev_kind e)); [simpl; by rewrite !length_app, IH|].
  destruct (is_nested (ev_kind e)); [done|]. by destruct (wk_pending (evidence_walk es)).
Qed.

(** An event that is neither servable nor gate evidence is not nested. *)
Lemma servable_not_nested (k : RunEventKind) : is_servable k = true -> is_nested k = false.
Proof. by destruct k. Qed.

(** Gate evidence is conserved: filed under an effect, pending, or stray. *)
Lemma walk_evidence (es : list RunEvent) :
  wk_stray (evidence_walk es) = [] ->
  (concat (wk_nested (evidence_walk es)) ++ wk_pending (evidence_walk es))%list
  = List.filter (fun e => is_nested (ev_kind e)) es.
Proof.
  induction es as [|e es IH] using rev_ind; [done|].
  rewrite walk_snoc, List.filter_app. unfold walk_event. simpl.
  destruct (is_servable (ev_kind e)) eqn:Es; simpl.
  - intros Hs. rewrite (servable_not_nested _ Es), !app_nil_r, concat_app. simpl.
    rewrite app_nil_r. by apply IH.
  - destruct (is_nested (ev_kind e)); simpl.
    + intros Hs. rewrite app_assoc. by rewrite IH.
    + rewrite app_nil_r. destruct (wk_pending (evidence_walk es)) as [|p ps] eqn:Ep; [rewrite Ep; exact IH|].
      simpl. intros Hs. by apply app_nil in Hs as [_ ?].
Qed.

(** Without gate evidence nothing is pending, stray or nested. *)
Lemma walk_plain (es : list RunEvent) :
  Forall (fun e => is_nested (ev_kind e) = false) es ->
  wk_pending (evidence_walk es) = [] /\ wk_stray (evidence_walk es) = []
  /\ Forall (fun n => n = []) (wk_nested (evidence_walk es)).
Proof.
  induction es as [|e es IH] using rev_ind; [done|]. rewrite Forall_app, Forall_singleton.
  intros [Hes He]. destruct (IH Hes) as (Hp & Hs & Hn). rewrite walk_snoc. unfold walk_event.
  rewrite He, Hp. destruct (is_servable _); simpl; [|by rewrite Hp].
  split_and!; [done..|]. apply Forall_app. by split; [|repeat constructor].
Qed.

(** The next event that is not gate evidence is an effect. *)
Definition opens (es : list RunEvent) : Prop :=
  exists e, List.find (fun e => negb (is_nested (ev_kind e))) es = Some e
    /\ is_servable (ev_kind e) = true.

(** Every approval event is followed, after nothing but approval events, by
    an effect. *)
Fixpoint gates_closed (es : list RunEvent) : Prop :=
  match es with
  | [] => True
  | e :: rest => (is_nested (ev_kind e) = true -> opens rest) /\ gates_closed rest
  end.

Lemma opens_nested (e : RunEvent) (es : list RunEvent) :
  is_nested (ev_kind e) = true -> opens (e :: es) <-> opens es.
Proof. intros He. unfold opens. simpl. by rewrite He. Qed.

Lemma opens_other (e : RunEvent) (es : list RunEvent) :
  is_nested (ev_kind e) = false -> opens (e :: es) <-> is_servable (ev_kind e) = true.
Proof. intros He. unfold opens. simpl. rewrite He. simpl. naive_solver. Qed.

Lemma walk_closed (es : list RunEvent) (w : Walk) :
  wk_stray (fold_left walk_event es w) = [] /\ wk_pending (fold_left walk_event es w) = []
  <-> wk_stray w = [] /\ (wk_pending w = [] \/ opens es) /\ gates_closed es.
Proof.
  revert w. induction es as [|e es IH]; intros w; simpl.
  - unfold opens. simpl. naive_solver.
  - rewrite IH. unfold walk_event. destruct (is_servable (ev_kind e)) eqn:Es.
    + pose proof (servable_not_nested _ Es) as En. rewrite (opens_other _ _ En), En, Es. simpl.
      naive_solver.
    + destruct (is_nested (ev_kind e)) eqn:En; simpl.
      * rewrite (opens_nested _ _ En). assert ((wk_pending w ++ [e])%list <> []) by by destruct (wk_pending w).
        naive_solver.
      * rewrite (opens_other _ _ En), Es. destruct (wk_pending w) as [|p ps] eqn:Ep; [rewrite Ep; naive_solver|].
        simpl. split; [intros (Hs & _); by apply app_nil in Hs as [_ ?]|naive_solver].
Qed.

(** ** Serving *)
Section Serving.
Context `{Codec, !CodecLaws}.

Lemma request_hash_total (v : Value) :
  exists b, to_vec v = Some b /\ request_hash v = Ok (sha256_hex b).
Proof.
  destruct (to_vec_total v) as [b Hb]. exists b. unfold request_hash. by rewrite Hb.
Qed.

(** What the cursor answers with. *)
Definition at_cursor (kind : RunEventKind) (request : Value) (s : ReplaySource) (e : RunEvent)
    (v : Value) : Prop :=
  is_servable kind = true /\ rs_servable s !! rs_cursor s = Some e /\ ev_kind e = kind
  /\ resolve_opt (rs_artifacts s) (ev_input e) = Some v /\ request_hash v = request_hash request.

Definition answer (s : ReplaySource) (e : RunEvent) : ServedEffect :=
  look_through (rs_artifacts s) e
    (map (fun n => look_through (rs_artifacts s) n []) (default [] (rs_nested s !! rs_cursor s))).

Lemma serve_ok (kind : RunEventKind) (request : Value) (s : ReplaySource) (e : RunEvent)
    (v : Value) :
  at_cursor kind request s e v -> serve kind request s = (Ok (answer s e), advance s).
Proof.
  intros (Hk & Hc & He & Hi & Hh). unfold serve.
  destruct (request_hash_total request) as (b & _ & Hb). rewrite Hk, Hb. simpl.
  rewrite Hc. simpl. rewrite bool_decide_true by done. simpl. rewrite Hi. simpl.
  rewrite Hh, Hb. simpl. rewrite String.eqb_refl. done.
Qed.

Lemma serve_inv (kind : RunEventKind) (request : Value) (s s' : ReplaySource)
    (served : ServedEffect) :
  serve kind request s = (Ok served, s') ->
  exists e v, at_cursor kind request s e v /\ served = answer s e /\ s' = advance s.
Proof.
  unfold serve. destruct (request_hash_total request) as (b & _ & Hb).
  destruct (is_servable kind) eqn:Hk; [|done]. rewrite Hb. simpl.
  destruct (rs_servable s !! rs_cursor s) as [e|] eqn:Hc; [|done]. simpl.
  case_bool_decide as He; [|done]. simpl.
  destruct (resolve_opt (rs_artifacts s) (ev_input e)) as [v|] eqn:Hi; [|done]. simpl.
  destruct (request_hash_total v) as (bv & _ & Hv). rewrite Hv. simpl.
  destruct (String.eqb_spec (sha256_hex bv) (sha256_hex b)) as [Heq|]; [|done].
  intros [= <- <-]. exists e, v. split; [|done]. unfold at_cursor.
  split_and!; [done..|]. rewrite Hv, Hb, Heq. done.
Qed.

Lemma serve_err (kind : RunEventKind) (request : Value) (s s' : ReplaySource) (x : RustyError) :
  serve kind request s = (Err x, s') -> s' = s.
Proof. unfold serve. intros [= H1 H2]. by rewrite H1 in H2. Qed.

(** Exact replay answers a call from the recorded effect at its cursor or
    not at all: a call is served exactly when the next unserved effect is of
    the issued kind and its journaled request has the issued request's
    digest; then the answer is that event with its own payloads and the
    cursor moves by one; any refusal leaves the cursor, the clocks and the
    replayed journal as they were. *)
Theorem serve_exact (kind : RunEventKind) (request : Value) (parent : string) (s : Replaying) :
  (forall e v, at_cursor kind request (rp_source s) e v ->
     exists s', replay_effect kind request parent s = (Ok (answer (rp_source s) e), s')
       /\ rp_source s' = advance (rp_source s)
       /\ sv_event (answer (rp_source s) e) = e)
  /\ ((~ exists e v, at_cursor kind request (rp_source s) e v) ->
     exists x, replay_effect kind request parent s = (Err x, s)).
Proof.
  unfold replay_effect. split.
  - intros e v Hat. rewrite (serve_ok _ _ _ _ _ Hat). eexists. split; [done|]. split; [|done].
    set (s1 := mkReplaying _ _ _).
    assert (Hk : forall ns s2, rp_source (fold_left rejournal_recorded ns s2) = rp_source s2).
    { induction ns as [|n ns IH]; intros s2; [done|]. simpl. rewrite IH. unfold rejournal_recorded,
        replay_record. by destruct (record _ _ _) as [[] ?]. }
    unfold rejournal, replay_record. destruct (record _ _ _) as [[id cs] j]. simpl. by rewrite Hk.
  - intros Hno. destruct (serve kind request (rp_source s)) as [[served|x] s'] eqn:Hs.
    + apply serve_inv in Hs as (e & v & Hat & _). exfalso. eauto.
    + apply serve_err in Hs as ->. exists x. by destruct s.
Qed.
End Serving.

(** ** Verification *)

Lemma event_eqb_refl (e : RunEvent) : event_eqb e e = true.
Proof.
  unfold event_eqb. rewrite !bool_decide_true by done. simpl.
  assert (Hp : forall p, opt_eqb payload_eqb p p = true).
  { intros [[v|r]|]; simpl; [apply value_eqb_refl|by apply bool_decide_true|done]. }
  assert (Hf : forall c, opt_eqb float_eqb c c = true).
  { intros [[]|]; simpl; [done| |done]. by apply bool_decide_true. }
  by rewrite !Hp, Hf.
Qed.

Lemma verify_walk_spec (es es' : list RunEvent) :
  length es = length es' ->
  verify_walk es es' = Ok () <-> Forall2 (fun a b => event_eqb a b = true) es es'.
Proof.
  revert es'. induction es as [|e es IH]; intros [|e' es'] Hl; simpl in *; try done.
  injection Hl as Hl. destruct (event_eqb e e') eqn:He; rewrite Forall2_cons.
  - rewrite IH by done. naive_solver.
  - split; [discriminate|]. intros [? _]. congruence.
Qed.

Lemma artifacts_eqb_spec (a b : list (string * Value)) :
  artifacts_eqb a b = true <-> Forall2 (fun x y => x.1 = y.1 /\ x.2 ≡ y.2) a b.
Proof.
  revert b. induction a as [|[k v] a IH]; intros [|[k' w] b]; simpl.
  - done.
  - split; [done|]. intros H. inversion H.
  - split; [done|]. intros H. inversion H.
  - rewrite !andb_true_iff, String.eqb_eq, value_eqb_spec, IH, Forall2_cons. simpl. tauto.
Qed.

Section Verify.
Context `{Codec, TimeParse}.

(** What a replay has to reproduce. *)
Record reproduces (recorded : JournalSnapshot) (source : ReplaySource)
    (replayed : JournalSnapshot) : Prop := {
  rep_served : rs_cursor source = length (rs_servable source);
  rep_run : js_run_id recorded = js_run_id replayed;
  rep_thread : js_thread_id recorded = js_thread_id replayed;
  rep_envelope : exists a b, declaration_in recorded = Ok a /\ declaration_in replayed = Ok b
    /\ verify_envelope a b = Ok ();
  rep_events : Forall2 (fun a b => event_eqb a b = true) (js_events recorded) (js_events replayed);
  rep_artifacts : Forall2 (fun x y => x.1 = y.1 /\ x.2 ≡ y.2)
    (js_artifacts recorded) (js_artifacts replayed);
  rep_head : js_head_hash recorded = js_head_hash replayed;
}.

Lemma bind_unit (b : bool) (e : RustyError) (r : res unit) :
  ((if b then Ok () else Err e);; r) = Ok () <-> b = true /\ r = Ok ().
Proof. destruct b; simpl; naive_solver. Qed.

Lemma verify_spec (recorded : JournalSnapshot) (source : ReplaySource)
    (replayed : JournalSnapshot) :
  verify recorded source replayed = Ok () <-> reproduces recorded source replayed.
Proof.
  unfold verify, is_exhausted. rewrite !bind_unit, bool_decide_eq_true, andb_true_iff, !String.eqb_eq.
  split.
  - intros (Hs & (Hr & Ht) & Hd). apply bind_Ok in Hd as (a & Ha & Hd).
    apply bind_Ok in Hd as (b & Hb & Hd). apply bind_Ok in Hd as ([] & Hv & Hd).
    rewrite bind_unit, bool_decide_eq_true in Hd. destruct Hd as (Hl & Hd).
    apply bind_Ok in Hd as ([] & Hw & Hd). rewrite bind_unit in Hd. destruct Hd as (Hart & Hh).
    destruct (String.eqb_spec (js_head_hash recorded) (js_head_hash replayed)); [|done].
    apply artifacts_eqb_spec in Hart. apply verify_walk_spec in Hw; [|done]. split; eauto.
  - intros [Hs Hr Ht (a & b & Ha & Hb & Hv) He Hart Hh]. split; [done|]. split; [done|].
    rewrite Ha. simpl. rewrite Hb. simpl. rewrite Hv. simpl.
    pose proof (Forall2_length _ _ _ He) as Hl. rewrite (bool_decide_true _ Hl). simpl.
    apply verify_walk_spec in He; [|done]. rewrite He. simpl.
    apply artifacts_eqb_spec in Hart. rewrite Hart. simpl. by rewrite Hh, String.eqb_refl.
Qed.


Lemma reproduces_refl (s : JournalSnapshot) (source : ReplaySource)
    (d : option RunConfigDeclaration) :
  rs_cursor source = length (rs_servable source) -> declaration_in s = Ok d ->
  reproduces s source s.
Proof.
  intros Hs Hd. split; [done..| | | |done].
  - exists d, d. split_and!; [done..|]. destruct d as [d|]; simpl; [|done].
    by rewrite envelope_divergence_refl.
  - induction (js_events s) as [|e es IH]; constructor; [apply event_eqb_refl|done].
  - induction (js_artifacts s) as [|e es IH]; constructor; done.
Qed.
End Verify.

(** ** Integrity *)
Section Integrity.
Context `{Codec, !CodecLaws}.

Lemma verify_artifacts_spec (a : list (string * Value)) :
  verify_artifacts a = Ok () <-> Forall (fun kv => request_hash kv.2 = Ok kv.1) a.
Proof.
  induction a as [|[k v] a IH]; simpl; [done|]. rewrite Forall_cons, <- IH. simpl.
  destruct (request_hash_total v) as (b & _ & Hb). rewrite Hb. simpl.
  destruct (String.eqb_spec (sha256_hex b) k) as [->|Hne]; [naive_solver|].
  split; [discriminate|]. intros [[=] _]. done.
Qed.

Lemma verify_payloads_spec (a : list (string * Value)) (id : string) (ps : list PayloadRef) :
  verify_payloads a id ps = Ok () <-> Forall (fun p => payload_present a (Some p)) ps.
Proof.
  induction ps as [|[v|r] ps IH]; simpl; [done| |]; rewrite Forall_cons, <- IH; simpl.
  - naive_solver.
  - unfold BTree.contains_key. destruct (BTree.get (ar_sha256 r) a) as [v|] eqn:Hg.
    + split; [|naive_solver]. intros Hp. split; [by exists v|done].
    + split; [discriminate|]. intros [[v Hv] _]. congruence.
Qed.

Lemma verify_events_spec (a : list (string * Value)) (es : list RunEvent) :
  verify_events a es = Ok ()
  <-> Forall (fun e => payload_present a (ev_input e) /\ payload_present a (ev_output e)) es.
Proof.
  induction es as [|e es IH]; simpl; [done|]. rewrite Forall_cons, <- IH.
  rewrite bind_Ok. split.
  - intros ([] & Hp & Hes). split; [|done]. apply verify_payloads_spec in Hp.
    apply Forall_app in Hp as [Hi Ho]. destruct (ev_input e), (ev_output e); simpl in *;
      by rewrite ?Forall_singleton in *.
  - intros [[Hi Ho] Hes]. exists (). split; [|done]. apply verify_payloads_spec, Forall_app.
    destruct (ev_input e), (ev_output e); simpl; by rewrite ?Forall_singleton.
Qed.

(** What an intact snapshot is. *)
Record intact (s : JournalSnapshot) : Prop := {
  in_embedded : js_artifact_refs s = [];
  in_head : recompute_head_hash (js_events s) = Ok (js_head_hash s);
  in_addressed : Forall (fun kv => request_hash kv.2 = Ok kv.1) (js_artifacts s);
  in_present : Forall (fun e => payload_present (js_artifacts s) (ev_input e)
                        /\ payload_present (js_artifacts s) (ev_output e)) (js_events s);
}.

Lemma verify_snapshot_spec (s : JournalSnapshot) : verify_snapshot s = Ok () <-> intact s.
Proof.
  unfold verify_snapshot. rewrite bind_Ok. split.
  - intros (j & Hj & Hr). apply bind_Ok in Hr as ([] & Ha & He).
    apply verify_artifacts_spec in Ha. apply verify_events_spec in He.
    unfold from_snapshot in Hj. destruct (js_artifact_refs s) eqn:Hrefs; [|done].
    apply bind_Ok in Hj as (h & Hh & Hj).
    destruct (String.eqb_spec h (js_head_hash s)) as [->|]; [|done]. by split.
  - intros [Hrefs Hh Ha He]. unfold from_snapshot. rewrite Hrefs, Hh. simpl.
    rewrite String.eqb_refl. eexists. split; [done|].
    apply verify_artifacts_spec in Ha. apply verify_events_spec in He. rewrite Ha. simpl. done.
Qed.

Lemma journal_intact (j : Journal) : journal_ok j -> intact (snapshot j).
Proof.
  intros [_ Hh Hs Hc Hp]. split; [done|done| |].
  - apply Forall_forall. intros [k v] Hin. simpl in *.
    apply BTree.get_In_NoDup in Hin; [|by apply BTree.Sorted_NoDup].
    destruct (Hc k v Hin) as (b & Hb & ->). unfold request_hash. by rewrite Hb.
  - apply Forall_forall. intros e He. by apply Hp.
Qed.

(** The boundary of exact replay admits exactly the intact, unresumed
    journals whose gate evidence is closed: the head hash recomputes from
    the events, every artifact hashes to its key, every reference resolves,
    no event is a resume, and each approval event is followed by an effect
    with nothing but approval events in between. *)
Theorem exact_replay_admits (s : JournalSnapshot) :
  (exists x, exact_replay s = Ok x) <->
  intact s /\ Forall (fun e => ev_kind e <> KResume) (js_events s)
  /\ gates_closed (js_events s).
Proof.
  assert (Hw : gates_closed (js_events s) <->
    wk_stray (evidence_walk (js_events s)) = [] /\ wk_pending (evidence_walk (js_events s)) = []).
  { unfold evidence_walk. rewrite walk_closed. simpl. naive_solver. }
  rewrite Hw. clear Hw. unfold exact_replay. rewrite <- verify_snapshot_spec.
  assert (Hres : existsb (fun e => bool_decide (ev_kind e = KResume)) (js_events s) = false
                 <-> Forall (fun e => ev_kind e <> KResume) (js_events s)).
  { rewrite <- not_true_iff_false, existsb_exists, Forall_forall. split.
    - intros Hno e He Hk. apply Hno. exists e. split; [by apply list_elem_of_In|].
      by apply bool_decide_true.
    - intros Hall (e & He & Hk%bool_decide_eq_true). apply list_elem_of_In in He. by apply (Hall e). }
  rewrite <- Hres. clear Hres. destruct (verify_snapshot s) as [[]|x]; simpl; [|naive_solver].
  destruct (existsb _ _); [naive_solver|]. unfold stray_nested, source_new. simpl.
  destruct (wk_stray (evidence_walk (js_events s))) as [|n ns]; simpl; [|naive_solver].
  destruct (wk_pending (evidence_walk (js_events s))); simpl; naive_solver.
Qed.
End Integrity.
