(* ===== verification/RecordReplay.v ===== *)
(** * Record, then replay

    Node code that reaches the world only through the wrappers of [Replay],
    run once against the world and once against its own recorded journal.
    The round trip: the replay returns what the recording returned, leaves
    the same journal, and passes verification. The conditions it needs are
    exactly those the counterexamples below break. *)

From Stdlib Require Import String.
From S2P Require Import Prelude Containers Json Error Record SampleCodec Journal JournalFacts Meter Chat Declaration Replay ReplayFacts.
Local Open Scope string_scope.

(** ** Node code *)
Section Client.
Context `{Codec} {E : Type}.

(** Deterministic code over the wrappers: it journals events of its own,
    calls tools and models, and goes on with what they answer. *)
Inductive Client (A : Type) : Type :=
| CReturn (a : A)
| CRecord (d : EventDraft) (k : string -> Client A)
| CTool (t : Tool E) (parent : string) (node : option string) (args : Value)
    (k : res Value -> Client A)
| CChat (m : ChatModel E) (params : option Value) (parent : string) (node : option string)
    (messages : list ChatMessage) (tools : list Value) (k : res ChatResponse -> Client A).

Context {A : Type}.

(** The recording run. *)
Fixpoint record_client (c : Client A) (s : Live E) : A * Live E :=
  match c with
  | CReturn _ a => (a, s)
  | CRecord _ d k => let '(id, s') := live_record d s in record_client (k id) s'
  | CTool _ t parent node args k =>
      let '(r, s') := recording_tool_call t parent node args s in record_client (k r) s'
  | CChat _ m params parent node messages tools k =>
      let '(r, s') := recording_chat m params parent node messages tools s in
      record_client (k r) s'
  end.

(** The replay: the same code over the replaying wrappers. *)
Fixpoint replay_client (c : Client A) (s : Replaying) : A * Replaying :=
  match c with
  | CReturn _ a => (a, s)
  | CRecord _ d k => let '(id, s') := replay_record d s in replay_client (k id) s'
  | CTool _ t parent _ args k =>
      let '(r, s') := replaying_tool_call (tl_name t) parent args s in replay_client (k r) s'
  | CChat _ _ params parent _ messages tools k =>
      let '(r, s') := replaying_chat params parent messages tools s in replay_client (k r) s'
  end.

(** A call between two readings of the journal's clock. *)
Definition timed {R : Type} (call : Live E -> R * Live E) (s : Live E) : R * N * Live E :=
  let '(started, s1) := live_now s in
  let '(r, s2) := call s1 in
  let '(ended, s3) := live_now s2 in
  (r, latency started ended, s3).

Lemma recording_tool_timed (t : Tool E) (parent : string) (node : option string) (args : Value)
    (s : Live E) :
  recording_tool_call t parent node args s
  = let '(r, l, s') := timed (tl_call t args) s in
    (r, (live_record (tool_draft t parent node args l r) s').2).
Proof.
  unfold recording_tool_call, timed. destruct (live_now s) as [? s1].
  destruct (tl_call t args s1) as [? s2]. by destruct (live_now s2).
Qed.

Lemma recording_chat_timed (m : ChatModel E) (params : option Value) (parent : string)
    (node : option string) (messages : list ChatMessage) (tools : list Value) (s : Live E) :
  recording_chat m params parent node messages tools s
  = let '(r, l, s') := timed (md_chat m messages tools) s in
    (r, (live_record (outcome_draft m parent node l
           (model_call_request params messages tools) r) s').2).
Proof.
  unfold recording_chat, timed. destruct (live_now s) as [? s1].
  destruct (md_chat m messages tools s1) as [? s2]. by destruct (live_now s2).
Qed.

(** The payloads of a draft, and of every draft of a recording run. *)
Definition draft_values (d : EventDraft) : list Value :=
  (option_list (d_input d) ++ option_list (d_output d))%list.

Fixpoint client_values (c : Client A) (s : Live E) : list Value :=
  match c with
  | CReturn _ _ => []
  | CRecord _ d k =>
      let '(id, s') := live_record d s in (draft_values d ++ client_values (k id) s')%list
  | CTool _ t parent node args k =>
      let '(r, l, s') := timed (tl_call t args) s in
      let d := tool_draft t parent node args l r in
      (draft_values d ++ client_values (k r) (live_record d s').2)%list
  | CChat _ m params parent node messages tools k =>
      let '(r, l, s') := timed (md_chat m messages tools) s in
      let d := outcome_draft m parent node l (model_call_request params messages tools) r in
      (draft_values d ++ client_values (k r) (live_record d s').2)%list
  end.

(** ** When a run can be replayed *)

(** The inner call leaves the run's journal and clock alone. *)
Definition quiet {R : Type} (call : Live E -> R * Live E) : Prop :=
  forall s, lv_clocks (call s).2 = lv_clocks s /\ lv_journal (call s).2 = lv_journal s.

(** What the code does next does not depend on how a call failed. *)
Definition error_blind {R : Type} (k : res R -> Client A) : Prop :=
  forall e e', k (Err e) = k (Err e').

(** An event the code re-derives. *)
Definition rederived (d : EventDraft) : Prop :=
  is_servable (d_kind d) = false /\ is_nested (d_kind d) = false /\ d_kind d <> KResume.

(** A model whose responses read back from their JSON. *)
Definition readable_responses (call : Live E -> res ChatResponse * Live E) : Prop :=
  forall s r, (call s).1 = Ok r -> message_readable (cr_message r).

Fixpoint replayable (c : Client A) : Prop :=
  match c with
  | CReturn _ _ => True
  | CRecord _ d k => rederived d /\ forall id, replayable (k id)
  | CTool _ t _ _ args k =>
      quiet (tl_call t args) /\ error_blind k /\ forall r, replayable (k r)
  | CChat _ m _ _ _ messages tools k =>
      quiet (md_chat m messages tools) /\ readable_responses (md_chat m messages tools)
      /\ error_blind k /\ forall r, replayable (k r)
  end.
End Client.
Arguments Client : clear implicits.
Arguments CReturn {_ _} _.
Arguments CRecord {_ _} _ _.
Arguments CTool {_ _} _ _ _ _ _.
Arguments CChat {_ _} _ _ _ _ _ _ _.

(** No two of the values share a digest. *)
Definition digest `{Codec} (v : Value) : option string := sha256_hex <$> to_vec v.

Definition distinct_digests `{Codec} (l : list Value) : Prop :=
  Forall (fun a => Forall (fun b => digest a = digest b -> a = b) l) l.

#[export] Instance distinct_digests_dec `{Codec} (l : list Value) :
  Decision (distinct_digests l).
Proof. unfold distinct_digests. apply _. Defined.

Lemma distinct_digests_use `{Codec} (l : list Value) (a b : Value) :
  distinct_digests l -> a ∈ l -> b ∈ l -> digest a = digest b -> a = b.
Proof.
  unfold distinct_digests. rewrite Forall_forall. intros Hd Ha Hb.
  specialize (Hd a Ha). rewrite Forall_forall in Hd. auto.
Qed.

(** ** Payloads read back exactly *)
Section Exact.
Context `{Codec, !CodecLaws}.
Variable L : list Value.
Hypothesis HL : distinct_digests L.

(** The artifact map holds only payloads of the run. *)
Definition within (a : list (string * Value)) : Prop :=
  forall sha v, BTree.get sha a = Some v -> v ∈ L.

Lemma store_payload_exact (a a' : list (string * Value)) (v : Value) (p : PayloadRef) :
  store_payload a v = (p, a') -> content_addressed a -> within a -> v ∈ L ->
  resolve_ref a' p = Some v /\ within a'.
Proof.
  intros Hp Hc Hw Hv. split.
  - unfold store_payload in Hp.
    destruct (to_vec v) as [b|] eqn:Hb; [|by simplify_eq].
    destruct (_ <=? _)%nat; [by simplify_eq|]. simpl in Hp.
    destruct (BTree.get (sha256_hex b) a) as [w|] eqn:Hg; simplify_eq; simpl.
    + rewrite Hg. f_equal. apply (distinct_digests_use L); [done|by eapply Hw|done|].
      destruct (Hc _ _ Hg) as (b' & Hb' & Hsha). unfold digest.
      rewrite Hb', Hb. simpl. by rewrite Hsha.
    + by rewrite BTree.get_insert, String.eqb_refl.
  - intros sha w Hw'. destruct (store_payload_new _ _ _ _ _ _ Hp Hw') as [Hg| ->]; [|done].
    by eapply Hw.
Qed.

Lemma store_payload_opt_exact (a a' : list (string * Value)) (o : option Value)
    (p : option PayloadRef) :
  store_payload_opt a o = (p, a') -> content_addressed a -> within a ->
  (forall v, o = Some v -> v ∈ L) -> resolve_opt a' p = o /\ within a'.
Proof.
  unfold store_payload_opt. destruct o as [v|]; [|intros; by simplify_eq].
  destruct (store_payload a v) as [q a2] eqn:Hq. intros ? Hc Hw Hv. simplify_eq.
  apply (store_payload_exact _ _ _ _ Hq Hc Hw). by apply Hv.
Qed.

Lemma resolve_opt_grow (a a' : list (string * Value)) (p : option PayloadRef) (v : Value) :
  artifacts_grow a a' -> resolve_opt a p = Some v -> resolve_opt a' p = Some v.
Proof. intros Hg. destruct p as [[w|r]|]; simpl; auto. Qed.

Lemma resolve_opt_grow_opt (a a' : list (string * Value)) (p : option PayloadRef)
    (o : option Value) :
  artifacts_grow a a' -> payload_present a p -> resolve_opt a p = o -> resolve_opt a' p = o.
Proof.
  intros Hg Hp <-. destruct p as [[w|r]|]; simpl in *; [done| |done].
  destruct Hp as [v Hv]. rewrite Hv. by apply Hg.
Qed.

(** One append whose payloads belong to the run: the event carries the draft
    and its payloads read back. *)
Lemma record_exact (d : EventDraft) (cs cs' : Clocks) (j j' : Journal) (id : string) :
  record d cs j = (id, cs', j') -> journal_ok j -> within (j_artifacts j) ->
  (forall v, v ∈ draft_values d -> v ∈ L) ->
  within (j_artifacts j') /\ artifacts_grow (j_artifacts j) (j_artifacts j')
  /\ j_run_id j' = j_run_id j /\ j_thread_id j' = j_thread_id j
  /\ exists e, j_events j' = (j_events j ++ [e])%list
     /\ ev_kind e = d_kind d /\ ev_effect e = d_effect d /\ ev_node_id e = d_node_id d
     /\ ev_latency_ms e = d_latency_ms d /\ ev_tokens e = d_tokens d
     /\ ev_cost_usd e = d_cost_usd d /\ ev_status e = d_status d
     /\ payload_present (j_artifacts j') (ev_input e)
     /\ payload_present (j_artifacts j') (ev_output e)
     /\ resolve_opt (j_artifacts j') (ev_input e) = d_input d
     /\ resolve_opt (j_artifacts j') (ev_output e) = d_output d.
Proof.
  unfold record. destruct (read_clock (j_clock j) cs) as [t cs2].
  destruct (append_event t d j) as [id2 j2] eqn:Happ. intros [= <- <- <-] [_ _ Hs Hc _] Hw Hd.
  apply append_event_inv in Happ as (i & o & a1 & E1 & E2 & Hev & _ & Hrun & Hthread & _ & _).
  destruct (store_payload_opt_spec _ _ _ _ E1 Hs Hc) as (Hs1 & Hc1 & Hg1 & Hp1).
  destruct (store_payload_opt_spec _ _ _ _ E2 Hs1 Hc1) as (_ & _ & Hg2 & Hp2).
  assert (Hvi : forall v, d_input d = Some v -> v ∈ L).
  { intros v Hv. apply Hd. unfold draft_values. rewrite Hv. apply elem_of_app. left. by left. }
  assert (Hvo : forall v, d_output d = Some v -> v ∈ L).
  { intros v Hv. apply Hd. unfold draft_values. rewrite Hv. apply elem_of_app. right. by left. }
  destruct (store_payload_opt_exact _ _ _ _ E1 Hc Hw Hvi) as (Hr1 & Hw1).
  destruct (store_payload_opt_exact _ _ _ _ E2 Hc1 Hw1 Hvo) as (Hr2 & Hw2).
  split; [done|]. split; [intros sha v Hv; by apply Hg2, Hg1|].
  split; [done|]. split; [done|]. eexists. split; [exact Hev|]. simpl.
  split_and!; try done.
  - by eapply payload_present_grow.
  - by eapply resolve_opt_grow_opt.
Qed.
End Exact.

(** ** One effect *)

(** A later state of the same journal. *)
Definition extends (j J : Journal) : Prop :=
  (exists more, j_events J = (j_events j ++ more)%list)
  /\ artifacts_grow (j_artifacts j) (j_artifacts J)
  /\ j_run_id J = j_run_id j /\ j_thread_id J = j_thread_id j.

Lemma extends_refl (j : Journal) : extends j j.
Proof. split_and!; [exists []; by rewrite app_nil_r|by intros ? ?|done..]. Qed.

Lemma extends_trans (j j' J : Journal) : extends j j' -> extends j' J -> extends j J.
Proof.
  intros ([m1 H1] & G1 & R1 & T1) ([m2 H2] & G2 & R2 & T2). split_and!; [| |congruence..].
  - exists (m1 ++ m2)%list. rewrite H2, H1. by rewrite app_assoc.
  - intros sha v Hv. by apply G2, G1.
Qed.

(** The journal holds no gate evidence. *)
Definition ungated (J : Journal) : Prop :=
  Forall (fun e => is_nested (ev_kind e) = false) (j_events J).

(** The cursor over the journal [J], after the effects of [j]. *)
Definition cursor_at (J j : Journal) : ReplaySource :=
  mkSource (servable_events (j_events J)) (wk_nested (evidence_walk (j_events J))) [] (j_artifacts J)
    (length (servable_events (j_events j))).

Lemma source_new_cursor `{Codec} (J : Journal) (run thread : string) (h : nat) :
  ungated J -> source_new (snapshot J) = cursor_at J (journal_new run thread h).
Proof.
  intros Hu. destruct (walk_plain _ Hu) as (Hp & Hs & _). unfold source_new, cursor_at. simpl.
  by rewrite Hp, Hs, walk_servable.
Qed.

Lemma nested_empty (J : Journal) (i : nat) :
  ungated J -> default [] (wk_nested (evidence_walk (j_events J)) !! i) = [].
Proof.
  intros Hu. destruct (walk_plain _ Hu) as (_ & _ & Hn).
  destruct (_ !! i) as [n|] eqn:Hi; [|done]. simpl. by eapply Forall_lookup_1 in Hn.
Qed.

Lemma servable_events_app (es es' : list RunEvent) :
  servable_events (es ++ es')%list = (servable_events es ++ servable_events es')%list.
Proof. apply List.filter_app. Qed.

Lemma advance_cursor (J j j' : Journal) (e : RunEvent) :
  j_events j' = (j_events j ++ [e])%list -> is_servable (ev_kind e) = true ->
  advance (cursor_at J j) = cursor_at J j'.
Proof.
  intros Hev He. unfold advance, cursor_at. simpl. f_equal.
  rewrite Hev, servable_events_app, length_app. unfold servable_events at 3. simpl.
  rewrite He. simpl. lia.
Qed.

Lemma cursor_same (J j j' : Journal) (e : RunEvent) :
  j_events j' = (j_events j ++ [e])%list -> is_servable (ev_kind e) = false ->
  cursor_at J j' = cursor_at J j.
Proof.
  intros Hev He. unfold cursor_at. f_equal. rewrite Hev, servable_events_app.
  unfold servable_events at 2. simpl. by rewrite He, app_nil_r.
Qed.

(** A served event re-journals as the draft it was recorded from. *)
Lemma redraft (d : EventDraft) (e : RunEvent) (n : list ServedEffect) (p : string) :
  d_parent d = Some p -> ev_kind e = d_kind d -> ev_effect e = d_effect d ->
  ev_node_id e = d_node_id d -> ev_latency_ms e = d_latency_ms d -> ev_tokens e = d_tokens d ->
  ev_cost_usd e = d_cost_usd d -> ev_status e = d_status d ->
  with_parent p (recorded_draft (mkServed e (d_input d) (d_output d) n)) = d.
Proof.
  intros Hp Hk He Hn Hl Ht Hc Hs. unfold recorded_draft, sv_event, sv_input, sv_output.
  rewrite Hk, He, Hn, Hl, Ht, Hc, Hs. destruct d as [k ef n' i o l t c st pa]. simpl in *.
  subst pa. by destruct n', i, o, l, t, c.
Qed.

Section Step.
Context `{Codec, !CodecLaws}.
Variable L : list Value.
Hypothesis HL : distinct_digests L.

(** Two readings of the clock [h]. *)
Definition read_twice (h : nat) (cs : Clocks) : Clocks :=
  (read_clock h (read_clock h cs).2).2.

(** A call recorded from [j] replays: the cursor of any later state of the
    journal serves it, and re-journaling it repeats the append. *)
Lemma effect_replays (J j j' : Journal) (d : EventDraft) (cs cs' : Clocks) (id : string)
    (request : Value) (parent : string) :
  record d (read_twice (j_clock j) cs) j = (id, cs', j') -> journal_ok j ->
  within L (j_artifacts j) -> (forall v, v ∈ draft_values d -> v ∈ L) ->
  extends j' J -> ungated J ->
  is_servable (d_kind d) = true -> d_input d = Some request -> d_parent d = Some parent ->
  exists e, j_events j' = (j_events j ++ [e])%list /\ ev_status e = d_status d
    /\ replay_effect (d_kind d) request parent (mkReplaying (cursor_at J j) cs j)
       = (Ok (mkServed e (d_input d) (d_output d) []), mkReplaying (cursor_at J j') cs' j').
Proof.
  intros Hrec Hok Hw Hd ([more Hmore] & Hgrow & _ & _) Hun Hk Hi Hp.
  destruct (record_exact L HL _ _ _ _ _ _ Hrec Hok Hw Hd)
    as (_ & _ & _ & _ & e & Hev & Ek & Ee & En & El & Et & Ec & Es & Pi & Po & Ri & Ro).
  exists e. split; [done|]. split; [done|].
  assert (Hri : resolve_opt (j_artifacts J) (ev_input e) = d_input d)
    by (by eapply resolve_opt_grow_opt).
  assert (Hro : resolve_opt (j_artifacts J) (ev_output e) = d_output d)
    by (by eapply resolve_opt_grow_opt).
  assert (Hat : at_cursor (d_kind d) request (cursor_at J j) e request).
  { unfold at_cursor, cursor_at. simpl. split_and!; [done| |done|by rewrite Hri|done].
    rewrite Hmore, Hev, !servable_events_app, lookup_app_l, lookup_app_r, Nat.sub_diag.
    - unfold servable_events. simpl. by rewrite Ek, Hk.
    - done.
    - rewrite length_app. unfold servable_events at 3. simpl. rewrite Ek, Hk. simpl. lia. }
  unfold replay_effect. cbn [rp_source]. rewrite (serve_ok _ _ _ _ _ Hat). unfold answer, look_through.
  cbn [rs_nested rs_cursor rs_artifacts cursor_at]. rewrite nested_empty by done.
  cbn [map sv_nested fold_left rp_clocks rp_journal].
  rewrite Hri, Hro, (advance_cursor J j j' e) by (done || by rewrite Ek).
  unfold rejournal. rewrite (redraft d) by done.
  unfold replay_now, replay_record. cbn [rp_source rp_clocks rp_journal].
  unfold read_twice in Hrec. rewrite Hrec. done.
Qed.
End Step.

(** ** The recorded drafts *)

(** What a recorded call's draft carries, and that its outcome is read back
    from it: the value of a success, some error of a failure. *)
Definition effect_shape `{Codec} {R : Type} (kind : RunEventKind) (request : Value)
    (parent : string) (outcome : ServedEffect -> res R) (d : EventDraft) (r : res R) : Prop :=
  d_kind d = kind /\ is_servable kind = true /\ d_input d = Some request
  /\ d_parent d = Some parent
  /\ forall e n, ev_status e = d_status d ->
     match r with
     | Ok v => outcome (mkServed e (d_input d) (d_output d) n) = Ok v
     | Err _ => exists x, outcome (mkServed e (d_input d) (d_output d) n) = Err x
     end.

Section Drafts.
Context `{Codec} {E : Type}.

(** A response reads back from the payload it is journaled as. *)
Lemma opt_usage_roundtrip (o : option Usage) :
  opt_field usage_from_value (Some (jnull (usage_json <$> o))) = Some o.
Proof. by destruct o as [[? ? ? [] []]|]. Qed.

Lemma opt_str_roundtrip (o : option string) :
  opt_field as_str (Some (jnull (Str <$> o))) = Some o.
Proof. by destruct o. Qed.

Lemma response_roundtrip (seq : N) (r : ChatResponse) :
  message_readable (cr_message r) ->
  chat_response_from_recorded seq (model_call_response r) = Ok r.
Proof.
  intros Hm%chat_message_roundtrip. unfold chat_response_from_recorded.
  assert (Hk : forall k,
    vget k (model_call_response r)
    = BTree.get k [("message", chat_message_value (cr_message r));
                   ("model", jnull (Str <$> cr_model r));
                   ("usage", jnull (usage_json <$> cr_usage r))]) by done.
  rewrite !Hk. cbn [BTree.get String.eqb Ascii.eqb Bool.eqb ok_or mbind result_bind].
  rewrite Hm. cbn [ok_or mbind result_bind]. rewrite opt_str_roundtrip.
  cbn [ok_or mbind result_bind]. rewrite opt_usage_roundtrip. by destruct r.
Qed.

Lemma tool_draft_shape (t : Tool E) (parent : string) (node : option string) (args : Value)
    (l : N) (r : res Value) :
  effect_shape KToolCall (tool_call_request (tl_name t) args) parent tool_outcome
    (tool_draft t parent node args l r) r.
Proof.
  destruct r as [v|x], node; (split_and!; [done..|]); intros e n Hs; unfold tool_outcome;
    simpl in Hs |- *; rewrite Hs; simpl; eauto.
Qed.

Lemma outcome_draft_shape (m : ChatModel E) (parent : string) (node : option string) (l : N)
    (input : Value) (r : res ChatResponse) :
  (forall v, r = Ok v -> message_readable (cr_message v)) ->
  effect_shape KModelCall input parent chat_outcome (outcome_draft m parent node l input r) r.
Proof.
  intros Hread.
  assert (Hout : forall v, r = Ok v -> forall seq,
    chat_response_from_recorded seq (model_call_response v) = Ok v)
    by (intros v Hv seq; apply response_roundtrip; eauto).
  unfold outcome_draft. destruct r as [v|x].
  - specialize (Hout v eq_refl).
    destruct (cr_usage v) as [u|]; [destruct (call_cost m u)|]; destruct node;
      (split_and!; [done..|]); intros e n Hs; unfold chat_outcome;
      cbn -[chat_response_from_recorded model_call_response] in Hs |- *; rewrite Hs; apply Hout.
  - destruct node; (split_and!; [done..|]); intros e n Hs; unfold chat_outcome;
      simpl in Hs |- *; rewrite Hs; eauto.
Qed.

Lemma live_record_inv (d : EventDraft) (s s' : Live E) (id : string) :
  live_record d s = (id, s') ->
  record d (lv_clocks s) (lv_journal s) = (id, lv_clocks s', lv_journal s').
Proof. unfold live_record. destruct (record _ _ _) as [[i cs] j]. by intros [= <- <-]. Qed.

Lemma timed_quiet {R : Type} (call : Live E -> R * Live E) (s s' : Live E) (r : R) (l : N) :
  quiet call -> timed call s = (r, l, s') ->
  lv_journal s' = lv_journal s
  /\ lv_clocks s' = read_twice (j_clock (lv_journal s)) (lv_clocks s)
  /\ exists s1, (call s1).1 = r.
Proof.
  intros Hq. unfold timed, live_now, read_twice.
  destruct (read_clock (j_clock (lv_journal s)) (lv_clocks s)) as [t cs] eqn:E1. simpl.
  set (s1 := mkLive cs (lv_journal s) (lv_env s)).
  destruct (Hq s1) as [Hc Hj]. destruct (call s1) as [r2 s2] eqn:Hcall. simpl in Hc, Hj.
  rewrite Hc, Hj. destruct (read_clock (j_clock (lv_journal s)) cs) as [t2 cs2].
  intros [= <- <- <-]. simpl. split_and!; [done..|]. exists s1. by rewrite Hcall.
Qed.
End Drafts.

(** ** Whole runs *)
Section Runs.
Context `{Codec, !CodecLaws} {E A : Type}.
Variable L : list Value.
Hypothesis HL : distinct_digests L.

(** What an append adds keeps the journal replayable. *)
Definition replayable_event (e : RunEvent) : Prop :=
  is_nested (ev_kind e) = false /\ ev_kind e <> KResume.

Record grown (j j' : Journal) : Prop := {
  gr_ok : journal_ok j';
  gr_extends : extends j j';
  gr_within : within L (j_artifacts j');
  gr_events : Forall replayable_event (j_events j) -> Forall replayable_event (j_events j');
}.

Lemma grown_trans (j j' J : Journal) : grown j j' -> grown j' J -> grown j J.
Proof. intros [] []. split; eauto using extends_trans. Qed.

Lemma record_grown (d : EventDraft) (cs cs' : Clocks) (j j' : Journal) (id : string) :
  record d cs j = (id, cs', j') -> journal_ok j -> within L (j_artifacts j) ->
  (forall v, v ∈ draft_values d -> v ∈ L) ->
  is_nested (d_kind d) = false -> d_kind d <> KResume -> grown j j'.
Proof.
  intros Hrec Hok Hw Hd Hn Hr.
  destruct (record_exact L HL _ _ _ _ _ _ Hrec Hok Hw Hd) as (Hw' & Hg & Hr' & Ht' & e & Hev & Hk & _).
  split; [by eapply record_ok|split_and!; [by exists [e]|done..]|done|].
  intros Hall. rewrite Hev. apply Forall_app. split; [done|]. apply Forall_singleton.
  unfold replayable_event. by rewrite Hk.
Qed.

(** What replaying code has to establish: from the state [s] the recording
    ended in [sf] with [a]. *)
Definition replays (c : Client E A) (s sf : Live E) (a : A) : Prop :=
  grown (lv_journal s) (lv_journal sf)
  /\ forall J, extends (lv_journal sf) J -> ungated J ->
     replay_client c (mkReplaying (cursor_at J (lv_journal s)) (lv_clocks s) (lv_journal s))
     = (a, mkReplaying (cursor_at J (lv_journal sf)) (lv_clocks sf) (lv_journal sf)).

Definition replays_if_recorded (c : Client E A) : Prop :=
  forall s sf a, record_client c s = (a, sf) -> replayable c -> journal_ok (lv_journal s) ->
    within L (j_artifacts (lv_journal s)) -> (forall v, v ∈ client_values c s -> v ∈ L) ->
    replays c s sf a.

(** One recorded call, seen from both sides. *)
Lemma call_step {R : Type} (call : Live E -> res R * Live E) (draft : N -> res R -> EventDraft)
    (outcome : ServedEffect -> res R) (kind : RunEventKind) (req : Value) (parent : string)
    (k : res R -> Client E A) (s s1 sf : Live E) (a : A) (r : res R) (l : N) :
  quiet call -> error_blind k -> timed call s = (r, l, s1) ->
  effect_shape kind req parent outcome (draft l r) r ->
  journal_ok (lv_journal s) -> within L (j_artifacts (lv_journal s)) ->
  (forall v, v ∈ draft_values (draft l r) -> v ∈ L) ->
  (forall s2, s2 = (live_record (draft l r) s1).2 -> journal_ok (lv_journal s2) ->
     within L (j_artifacts (lv_journal s2)) -> replays (k r) s2 sf a) ->
  grown (lv_journal s) (lv_journal sf)
  /\ forall J, extends (lv_journal sf) J -> ungated J ->
     (let '(out, st) := replay_effect kind req parent
        (mkReplaying (cursor_at J (lv_journal s)) (lv_clocks s) (lv_journal s)) in
      replay_client (k (out ≫= outcome)) st)
     = (a, mkReplaying (cursor_at J (lv_journal sf)) (lv_clocks sf) (lv_journal sf)).
Proof.
  intros Hq Hb Ht (Hk & Hsv & Hi & Hp & Hout) Hok Hw Hd Hrest.
  destruct (timed_quiet _ _ _ _ _ Hq Ht) as (Hj & Hc & _).
  set (d := draft l r) in *. destruct (live_record d s1) as [id s2] eqn:Hrec.
  specialize (Hrest s2 eq_refl). apply live_record_inv in Hrec. rewrite Hj, Hc in Hrec.
  rewrite <- Hk in Hsv.
  assert (Hg : grown (lv_journal s) (lv_journal s2)).
  { eapply record_grown; [exact Hrec|done..| |]; by destruct (d_kind d). }
  destruct (Hrest (gr_ok _ _ Hg) (gr_within _ _ Hg)) as [Hg' Hrep].
  split; [by eapply grown_trans|]. intros J Hex Hun.
  assert (Hex2 : extends (lv_journal s2) J) by (eapply extends_trans; [apply (gr_extends _ _ Hg')|done]).
  destruct (effect_replays L HL J _ _ _ _ _ _ req parent Hrec Hok Hw Hd Hex2 Hun Hsv Hi Hp)
    as (e & _ & Hs & Heff).
  rewrite <- Hk, Heff. rewrite <- (Hrep J Hex Hun). f_equal. simpl. specialize (Hout e [] Hs).
  destruct r as [v|x]; [by rewrite Hout|]. destruct Hout as [y ->]. apply Hb.
Qed.

(** Node code that can be replayed, replayed against any later state of the
    journal it recorded. *)
Lemma client_replays (c : Client E A) : replays_if_recorded c.
Proof.
  induction c as [a'|d k IH|t parent node args k IH|m ps parent node msgs tools k IH];
    intros s sf a Hrun Hre Hok Hw HV; simpl in Hrun, Hre, HV.
  - injection Hrun as <- <-. split; [|done]. split; try done. apply extends_refl.
  - destruct Hre as [(Hns & Hnn & Hnr) Hre].
    destruct (live_record d s) as [id s1] eqn:Hrec. apply live_record_inv in Hrec.
    assert (Hd : forall v, v ∈ draft_values d -> v ∈ L) by (intros; apply HV, elem_of_app; by left).
    pose proof (record_grown _ _ _ _ _ _ Hrec Hok Hw Hd Hnn Hnr) as Hg.
    destruct (IH id s1 sf a Hrun (Hre id) (gr_ok _ _ Hg) (gr_within _ _ Hg)) as [Hg' Hrep].
    { intros v Hv. apply HV, elem_of_app. by right. }
    split; [by eapply grown_trans|]. intros J Hex Hun. simpl. unfold replay_record.
    cbn [rp_clocks rp_journal rp_source]. rewrite Hrec.
    destruct (record_exact L HL _ _ _ _ _ _ Hrec Hok Hw Hd) as (_ & _ & _ & _ & e & Hev & Hk & _).
    rewrite <- (cursor_same J _ _ e Hev) by (by rewrite Hk). by apply Hrep.
  - destruct Hre as (Hq & Hb & Hre). rewrite recording_tool_timed in Hrun.
    destruct (timed (tl_call t args) s) as [[r l] s1] eqn:Ht.
    destruct (call_step _ (tool_draft t parent node args) _ _ _ _ k s s1 sf a r l Hq Hb Ht
      (tool_draft_shape t parent node args l r) Hok Hw) as [Hg Hrep].
    { intros v Hv. apply HV, elem_of_app. by left. }
    { intros s2 -> Hok2 Hw2. apply IH; [done|apply Hre|done|done|].
      intros v Hv. apply HV, elem_of_app. by right. }
    split; [done|]. intros J Hex Hun. rewrite <- (Hrep J Hex Hun). simpl.
    unfold replaying_tool_call. by destruct (replay_effect _ _ _ _).
  - destruct Hre as (Hq & Hread & Hb & Hre). rewrite recording_chat_timed in Hrun.
    destruct (timed (md_chat m msgs tools) s) as [[r l] s1] eqn:Ht.
    destruct (timed_quiet _ _ _ _ _ Hq Ht) as (_ & _ & s0 & Hs0).
    assert (Hok1 : forall v, r = Ok v -> message_readable (cr_message v))
      by (intros v ->; by eapply Hread).
    destruct (call_step _ (fun l r => outcome_draft m parent node l (model_call_request ps msgs tools) r)
      _ _ _ _ k s s1 sf a r l Hq Hb Ht (outcome_draft_shape m parent node l _ r Hok1) Hok Hw)
      as [Hg Hrep].
    { intros v Hv. apply HV, elem_of_app. by left. }
    { intros s2 -> Hok2 Hw2. apply IH; [done|apply Hre|done|done|].
      intros v Hv. apply HV, elem_of_app. by right. }
    split; [done|]. intros J Hex Hun. rewrite <- (Hrep J Hex Hun). simpl.
    unfold replaying_chat. by destruct (replay_effect _ _ _ _).
Qed.
End Runs.

(** ** The round trip *)
Section RoundTrip.
Context `{Codec, !CodecLaws} `{TimeParse} {E A : Type}.

Lemma exact_replay_ok (J : Journal) :
  journal_ok J -> Forall replayable_event (j_events J) ->
  exact_replay (snapshot J) = Ok (mkExact (snapshot J) (source_new (snapshot J))).
Proof.
  intros Hok Hall. unfold exact_replay.
  assert (Hint : verify_snapshot (snapshot J) = Ok ())
    by (by apply verify_snapshot_spec, journal_intact).
  rewrite Hint. simpl.
  assert (Hun : ungated J) by (eapply Forall_impl; [exact Hall|]; by intros e []).
  assert (Hres : existsb (fun e => bool_decide (ev_kind e = KResume)) (j_events J) = false).
  { apply not_true_iff_false. rewrite existsb_exists. intros (e & He & Hk%bool_decide_eq_true).
    apply list_elem_of_In in He. rewrite Forall_forall in Hall. by destruct (Hall e He). }
  rewrite Hres. unfold stray_nested. destruct (walk_plain _ Hun) as (Hp & Hs & _).
  unfold source_new. simpl. by rewrite Hp, Hs.
Qed.

End RoundTrip.

(** ** Concrete replays

    Runs of the recording and replaying wrappers at the sample codec: a run
    that replays, and the recorded runs that exact replay cannot reproduce. *)

Module ReplayExamples.
Import Sample.

#[local] Instance no_times : TimeParse := { parse_time _ := None }.

(** The outside world counts the calls it received. *)
Definition live : Live nat := mkLive [Logical 1000 5] (journal_new "run" "thread" 0) 0.

(** A tool that answers, one that fails, and the composer's publish tool, whose
    gate journals the asked/decided pair inside the call. *)
Definition answering (name : string) (answer : Value) : Tool nat :=
  mkTool name ReadOnly (fun _ s =>
    (Ok answer, mkLive (lv_clocks s) (lv_journal s) (S (lv_env s)))).

Definition failing (name : string) : Tool nat :=
  mkTool name ReadOnly (fun _ s =>
    (Err (ETool "boom"), mkLive (lv_clocks s) (lv_journal s) (S (lv_env s)))).

Definition publish : Tool nat :=
  mkTool "publish" NonIdempotent (fun _ s =>
    (Ok (Str "published"),
     (gate_decide None (mkAsk "publish_composed_skill" (Some "eff-1") None)
        (ApprovedOnce "ops:ada") s).2)).

(** A model that says [text], streamed in two chunks. *)
Definition saying (text : string) : ChatModel nat :=
  mkModel NonIdempotent None
    (fun _ _ s => (Ok (mkResponse (msg_assistant text) (Some "m-1") (Some (mkUsage 10 5 15 None None))),
                   mkLive (lv_clocks s) (lv_journal s) (S (lv_env s))))
    (fun _ _ n => ([mkChunk "do" false; mkChunk "ne" true],
                   Ok (mkResponse (msg_assistant text) None None), S n)).

(** The text of an answer as the tools node renders it
    ([ToolExecutor::execute_batch]). *)
Definition rendered (r : res Value) : string :=
  match r with
  | Ok (Str content) => content
  | Ok _ => EmptyString
  | Err e => "ERROR: " ++ error_text e
  end.

(** One turn of the agent loop: the tool, then the model on the tool's
    rendered answer. *)
Definition turn (t : Tool nat) : Client nat (res ChatResponse) :=
  CTool t "run:0" (Some "tools") (Str "q") (fun r =>
    CChat (saying "done") None "run:0" (Some "agent")
      [msg_user "hi"; tool_result "call-1" (rendered r)] [] (fun out => CReturn out)).

(** A turn whose code does not look at the tool's failure. *)
Definition start_draft : EventDraft :=
  with_input (jobj [("step", jnat 0)]) (draft_new KSuperStepStart Pure).

Definition careful : Client nat (option Value) :=
  CRecord start_draft (fun id =>
    CTool (answering "lookup" (Str "42")) id (Some "tools") (Str "q") (fun r =>
      CChat (saying "done") None id (Some "agent") [msg_user "hi"] [] (fun out =>
        CReturn (match r, out with Ok v, Ok _ => Some v | _, _ => None end)))).

Definition recorded : option Value * Live nat := record_client careful live.


(** ** What exact replay cannot reproduce *)

(** The code [c] replayed against the journal [j], on the clock the recording
    started from: its result and the verdict of [verify]. *)
Definition replayed {A : Type} (c : Client nat A) (cs : Clocks) (j : Journal) :
    option (A * res unit) :=
  match exact_replay (snapshot j) with
  | Err _ => None
  | Ok x =>
      let '(a, st) := replay_client c (mkReplaying (xr_source x) cs (fresh_journal x 0)) in
      Some (a, verify (xr_snapshot x) (rp_source st) (snapshot (rp_journal st)))
  end.

Definition journal_of {A : Type} (c : Client nat A) (s : Live nat) : Journal :=
  lv_journal (record_client c s).2.

(** A gate inside a recorded call: the recording reads the clock before the
    call and the gate's events come after that reading; the replay
    re-journals them first. On a clock that ticks the pair's timestamps
    shift and the replay of an approved call fails verification; on a clock
    that stands still it passes. *)
Definition gated : Client nat (res Value) :=
  CTool publish "run:0" (Some "tools") (Str "q") (fun r => CReturn r).

Definition still : Live nat := mkLive [Logical 1000 0] (journal_new "run" "thread" 0) 0.

Theorem gated_call_timestamps_shift :
  replayed gated [Logical 1000 5] (journal_of gated live)
  = Some (Ok (Str "published"),
          Err (EReplay ("replay event mismatch at seq 0: recorded "
               ++ "ApprovalAsked(node=None, status=Ok) but replayed "
               ++ "ApprovalAsked(node=None, status=Ok)")))
  /\ replayed gated [Logical 1000 0] (journal_of gated still)
  = Some (Ok (Str "published"), Ok ()).
Proof. split; vm_compute; reflexivity. Qed.

(** A failed tool call: the recording hands the model the tool's own error,
    the replay hands it a longer text that names the recorded position, so
    the next model request differs and the replay of a run that recovered
    from a tool failure stops with a divergence. *)
Theorem failed_tool_call_diverges :
  is_ok (record_client (turn (failing "lookup")) live).1 = true
  /\ exists why verdict,
     replayed (turn (failing "lookup")) [Logical 1000 5]
       (journal_of (turn (failing "lookup")) live)
     = Some (Err (EReplay ("replay divergence at recorded seq 1 (ModelCall): " ++ why)),
             Err (EReplay verdict)).
Proof. split; [vm_compute; reflexivity|]. do 2 eexists. vm_compute. reflexivity. Qed.

(** Captured chunks are events no replay re-derives: a streamed call
    recorded with capture on is served, but the journal never verifies. *)
Definition streamed : Journal :=
  lv_journal (recording_stream (saying "done") true None "run:0" (Some "agent")
    [msg_user "hi"] [] live).2.

Theorem captured_stream_unverifiable :
  exists x out st,
    exact_replay (snapshot streamed) = Ok x
    /\ replaying_chat None "run:0" [msg_user "hi"] []
         (mkReplaying (xr_source x) [Logical 1000 5] (fresh_journal x 0)) = (Ok out, st)
    /\ cm_content (cr_message out) = Some "done"
    /\ verify (xr_snapshot x) (rp_source st) (snapshot (rp_journal st))
       = Err (EReplay ("replay event-count mismatch: the recorded journal holds 3 events but "
              ++ "the replayed journal holds 1")).
Proof.
  eexists. eexists. eexists. split; [vm_compute; reflexivity|].
  split; [vm_compute; reflexivity|]. split; vm_compute; reflexivity.
Qed.

(** A batch of two calls issued as [a, b] whose effects finished as [b, a]:
    the journal holds them in completion order, the replay issues them in
    call order, and the first is refused. *)
Definition two_calls (first second : string) : Client nat (res Value * res Value) :=
  CTool (answering first (Str "1")) "run:0" (Some "tools") (Str "q") (fun x =>
    CTool (answering second (Str "2")) "run:0" (Some "tools") (Str "q") (fun y =>
      CReturn (x, y))).

Theorem completion_order_refused :
  exists why rest verdict,
    replayed (two_calls "a" "b") [Logical 1000 5] (journal_of (two_calls "b" "a") live)
    = Some ((Err (EReplay ("replay divergence at recorded seq 0 (ToolCall): " ++ why)), rest),
            Err (EReplay verdict)).
Proof. do 3 eexists. vm_compute. reflexivity. Qed.

(** A cursor that holds one recorded tool call. *)
Definition one_call : JournalSnapshot :=
  snapshot (journal_of (two_calls "a" "b") live).

Lemma serve_exact_witness :
  exists e, let s := mkReplaying (source_new one_call) [] (journal_new "run" "thread" 0) in
    (exists s', replay_effect KToolCall (tool_call_request "a" (Str "q")) "run:0" s
       = (Ok (answer (rp_source s) e), s')
     /\ rp_source s' = advance (rp_source s) /\ sv_event (answer (rp_source s) e) = e).
Proof.
  eexists. intros s.
  apply (proj1 (serve_exact KToolCall (tool_call_request "a" (Str "q")) "run:0" s)
           _ (tool_call_request "a" (Str "q"))).
  unfold at_cursor. split_and!; [reflexivity..| |]; vm_compute; reflexivity.
Defined.

Lemma exact_replay_admits_witness :
  intact one_call /\ Forall (fun e => ev_kind e <> KResume) (js_events one_call)
  /\ gates_closed (js_events one_call).
Proof.
  apply (proj1 (exact_replay_admits one_call)). eexists. vm_compute. reflexivity.
Defined.

End ReplayExamples.
