(* ===== verification/Invariant.v ===== *)
(** * Model-visible means logged ([rusty-core/src/invariant.rs])

    The checker on the model seam: before a request leaves the process it
    recomputes, from the journal alone, the message window the invocation must
    see and compares the outgoing history with it. A slice of a string inside
    a character panics in the source; a panic is [None] here. *)

From Stdlib Require Import String Ascii.
From S2P Require Import Prelude Containers Json Error Record SampleCodec Journal JournalFacts Inbox Meter Chat Declaration Replay.
Local Open Scope string_scope.

(** [InvariantViolation::UnloggedContent]. *)
Record InvariantViolation : Type := UnloggedContent {
  iv_index : nat;
  iv_detail : string;
  iv_expected : option Value;
  iv_actual : option Value;
}.

(** [Display for InvariantViolation]. *)
Definition invariant_text (v : InvariantViolation) : string :=
  "unlogged content at message " ++ pretty (iv_index v) ++ ": " ++ iv_detail v.

(** [MESSAGES_CHANNEL]. *)
Definition HISTORY_CHANNEL : string := "messages".

(** [DIFF_SNIPPET]. *)
Definition DIFF_SNIPPET : nat := 160.

(** [str::is_char_boundary] below the length: not a continuation byte. *)
Definition is_char_boundary (s : string) (i : nat) : bool :=
  match String.get i s with
  | Some c => let n := N_of_ascii c in ((n <? 128) || (192 <=? n))%N
  | None => true
  end.

(** [serde_json::from_value] of a consumption. *)
Definition point_from_name (s : string) : option ConsumptionPoint :=
  if String.eqb s "step_boundary" then Some StepBoundary
  else if String.eqb s "turn_start" then Some TurnStart
  else if String.eqb s "turn_extension" then Some TurnExtension
  else None.

Definition inbox_messages_from_value (v : Value) : option (list InboxMessage) :=
  match v with Array l => mapM Inbox.message_from_value l | _ => None end.

Definition consumption_from_value (v : Value) : option InboxConsumption :=
  fields ← struct_fields ["point"; "step"; "messages"] 3 v;
  match fields with
  | [p; s; m] =>
      point ← ((p ≫= variant_name) ≫= point_from_name); step ← s ≫= as_u64;
      messages ← m ≫= inbox_messages_from_value;
      Some (mkConsumption point (N.to_nat step) messages)
  | _ => None
  end.

Section Checker.
Context `{Codec}.

(** [Value::to_string]. *)
Definition value_text (v : Value) : string := default EmptyString (to_vec v).

(** [snippet]. *)
Definition snippet (v : Value) : option string :=
  let text := value_text v in
  if (String.length text <=? DIFF_SNIPPET)%nat then Some text
  else if is_char_boundary text DIFF_SNIPPET
  then Some (String.substring 0 DIFF_SNIPPET text ++ "…")
  else None.

(** [first_divergence]. *)
Fixpoint first_divergence_from (i : nat) (expected actual : list Value) :
    nat * option Value * option Value :=
  match expected, actual with
  | e :: expected', a :: actual' =>
      if value_eqb e a then first_divergence_from (S i) expected' actual'
      else (i, Some e, Some a)
  | _, _ => (i, hd_error expected, hd_error actual)
  end.

Definition first_divergence (expected actual : list Value) : nat * option Value * option Value :=
  first_divergence_from 0 expected actual.

(** *** The log-derived window *)

Definition unlogged (index : nat) (detail : string) : InvariantViolation :=
  UnloggedContent index detail None None.

(** A consumed message as the agent sends it. *)
Definition consumed_message (m : InboxMessage) : ChatMessage :=
  msg_user (match m_content m with Str text => text | other => value_text other end).

(** The [seq] of the last barrier before the invocation. *)
Definition last_barrier (events : list RunEvent) (before : N) : option N :=
  fold_left (fun acc e =>
    if bool_decide (ev_kind e = KSuperStepEnd) && (ev_seq e <? before)%N
    then Some (match acc with Some m => N.max m (ev_seq e) | None => ev_seq e end)
    else acc) events None.

(** Whether a batch was consumed between that barrier and the invocation. *)
Definition delivered (barrier : option N) (before : N) (e : RunEvent) : bool :=
  bool_decide (ev_kind e = KInboxConsumed) && (ev_seq e <? before)%N
  && match barrier with None => true | Some b => (b <? ev_seq e)%N end.

Fixpoint extend_window (j : Journal) (window : list ChatMessage) (events : list RunEvent) :
    result InvariantViolation (list ChatMessage) :=
  match events with
  | [] => Ok window
  | e :: rest =>
      c ← ok_or ((ev_output e ≫= fun p => resolve p j) ≫= consumption_from_value)
        (unlogged (length window) "an inbox-consumption event does not resolve");
      extend_window j (window ++ map consumed_message (con_messages c))%list rest
  end.

Definition history_from_value (v : Value) : option (list ChatMessage) :=
  match v with Array l => mapM chat_message_from_value l | _ => None end.

(** [derive_expected_messages]; every error it raises is a violation. *)
Definition derive_expected_messages (j : Journal) (node_input_event : string) :
    result InvariantViolation (list ChatMessage) :=
  let events := j_events j in
  parent ← ok_or (List.find (fun e => String.eqb (ev_id e) node_input_event) events)
    (unlogged 0 ("the invocation's node-input event `" ++ node_input_event
                 ++ "` is not in the journal"));
  (if bool_decide (ev_kind parent = KNodeInput) then Ok ()
   else Err (unlogged 0 ("event `" ++ node_input_event ++ "` is a " ++ debug_kind (ev_kind parent)
                         ++ ", not the invocation's node input")));;
  snapshot ← ok_or (ev_input parent ≫= fun p => resolve p j)
    (unlogged 0 ("the node-input event `" ++ node_input_event
                 ++ "` carries no resolvable state snapshot"));
  window ← match vget HISTORY_CHANNEL snapshot with
           | Some v =>
               ok_or (history_from_value v)
                 (unlogged 0 ("the journaled `" ++ HISTORY_CHANNEL
                    ++ "` channel does not deserialize: " ++ decode_error "ChatMessage" v))
           | None => Ok []
           end;
  extend_window j window
    (List.filter (delivered (last_barrier events (ev_seq parent)) (ev_seq parent)) events).

(** ** The check *)

(** [AssertionRequest], [RequestAssertion], [InvariantChecker]. *)
Record AssertionRequest : Type := mkAssertionRequest {
  ar_thread_id : string;
  ar_node : string;
  ar_messages : list ChatMessage;
  ar_tools : list Value;
  ar_journal : Journal;
}.

Record RequestAssertion : Type := mkAssertion {
  as_name : string;
  as_check : AssertionRequest -> result InvariantViolation unit;
}.

Fixpoint run_assertions (l : list RequestAssertion) (r : AssertionRequest) :
    result InvariantViolation unit :=
  match l with [] => Ok () | a :: rest => as_check a r;; run_assertions rest r end.

(** The report of a divergence; [None] is a panic. *)
Definition divergence (expected actual : list Value) : option InvariantViolation :=
  let '(index, e, a) := first_divergence expected actual in
  detail ← match e, a with
           | Some e, Some a =>
               se ← snippet e; sa ← snippet a; Some ("expected " ++ se ++ ", got " ++ sa)
           | Some e, None =>
               se ← snippet e; Some ("the request dropped the logged message " ++ se)
           | None, Some a =>
               sa ← snippet a; Some ("the request carries content the log never saw: " ++ sa)
           | None, None => None
           end;
  Some (UnloggedContent index detail e a).

(** [InvariantChecker::check_request]. *)
Definition check_request (j : Journal) (assertions : list RequestAssertion)
    (thread_id node node_input_event : string) (messages : list ChatMessage)
    (tools : list Value) : option (result InvariantViolation unit) :=
  match derive_expected_messages j node_input_event with
  | Err v => Some (Err v)
  | Ok expected =>
      let expected_values := map chat_message_value expected in
      let actual_values := map chat_message_value messages in
      if bool_decide (map value_text expected_values = map value_text actual_values)
      then Some (run_assertions assertions (mkAssertionRequest thread_id node messages tools j))
      else v ← divergence expected_values actual_values; Some (Err v)
  end.

(** [impl ChatModel for CheckingChatModel], the call; the journal is the
    run's. *)
Definition checking_chat {E : Type} (inner : ChatModel E) (assertions : list RequestAssertion)
    (thread_id node parent_event : string) (messages : list ChatMessage) (tools : list Value)
    (s : Live E) : option (res ChatResponse * Live E) :=
  verdict ← check_request (lv_journal s) assertions thread_id node parent_event messages tools;
  Some (match verdict with
        | Err v => (Err (EInvariant (invariant_text v)), s)
        | Ok _ => md_chat inner messages tools s
        end).
End Checker.
