(* ===== verification/InvariantFacts.v ===== *)
(** * What the invariant checker guarantees

    The window [derive_expected_messages] computes, and the checker's verdict:
    which requests reach the model, what a refusal reports, and when the report
    itself panics. *)

From Stdlib Require Import String Ascii.
From S2P Require Import Prelude Containers Json Error Record SampleCodec Journal JournalFacts Inbox InboxFacts Meter Chat Declaration Replay Invariant.
Local Open Scope string_scope.

(** ** Consumptions decode *)

Lemma point_roundtrip (p : ConsumptionPoint) : point_from_name (point_name p) = Some p.
Proof. by destruct p. Qed.

Lemma inbox_messages_roundtrip (ms : list InboxMessage) :
  inbox_messages_from_value (Array (map message_value ms)) = Some ms.
Proof.
  apply mapM_Some. induction ms as [|m ms IH]; simpl; constructor; [|done].
  apply message_roundtrip.
Qed.

Lemma consumption_roundtrip (c : InboxConsumption) :
  consumption_from_value (consumption_value c) = Some c.
Proof.
  destruct c as [p s ms]. pose proof (inbox_messages_roundtrip ms) as Hm.
  assert (Hv : forall v, inbox_messages_from_value v = Some ms ->
    consumption_from_value
      (jobj [("point", Str (point_name p)); ("step", jnat s); ("messages", v)])
    = Some (mkConsumption p s ms)).
  { intros v Hv. destruct p; cbv -[inbox_messages_from_value N.to_nat N.of_nat]; rewrite Hv;
      by rewrite Nat2N.id. }
  by apply Hv.
Qed.

(** ** The window *)
Section Window.
Context `{Codec}.

(** The batch a consumption event records. *)
Definition batch_of (j : Journal) (e : RunEvent) : option (list InboxMessage) :=
  con_messages <$> ((ev_output e ≫= fun p => resolve p j) ≫= consumption_from_value).

Definition is_consumed (e : RunEvent) : bool := bool_decide (ev_kind e = KInboxConsumed).
Definition is_barrier (e : RunEvent) : bool := bool_decide (ev_kind e = KSuperStepEnd).

Lemma extend_window_spec (j : Journal) (es : list RunEvent) (bs : list (list InboxMessage)) :
  mapM (batch_of j) es = Some bs ->
  forall window, extend_window j window es
    = Ok (window ++ map consumed_message (concat bs))%list.
Proof.
  revert bs. induction es as [|e es IH]; intros bs Hbs window; simpl.
  { injection Hbs as <-. simpl. by rewrite app_nil_r. }
  cbn [mapM] in Hbs. apply bind_Some in Hbs as (b & Hb & Hbs).
  apply bind_Some in Hbs as (bs' & Hr & Hbs). injection Hbs as <-.
  apply fmap_Some in Hb as (c & -> & ->). simpl. rewrite (IH bs' Hr).
  by rewrite map_app, app_assoc.
Qed.

(** Positions are sequence numbers. *)
Definition numbered (k : nat) (es : list RunEvent) : Prop :=
  forall i e, es !! i = Some e -> ev_seq e = N.of_nat (k + i).

Lemma numbered_app (k : nat) (es es' : list RunEvent) :
  numbered k (es ++ es') -> numbered k es /\ numbered (k + length es) es'.
Proof.
  intros Hn. split; intros i e He.
  - apply Hn. by apply lookup_app_l_Some.
  - rewrite <- Nat.add_assoc. apply Hn. rewrite lookup_app_r by lia.
    by replace (length es + i - length es) with i by lia.
Qed.

Lemma numbered_range (k : nat) (es : list RunEvent) (e : RunEvent) :
  numbered k es -> e ∈ es -> (N.of_nat k <= ev_seq e < N.of_nat (k + length es))%N.
Proof.
  intros Hn [i Hi]%list_elem_of_lookup. rewrite (Hn _ _ Hi). apply lookup_lt_Some in Hi. lia.
Qed.

(** The last barrier is where a block that ends in one ends. *)
Definition ends_at_barrier (es : list RunEvent) : Prop :=
  es = [] \/ exists es' b, es = (es' ++ [b])%list /\ is_barrier b = true.

Definition barrier_step (before : N) (acc : option N) (e : RunEvent) : option N :=
  if is_barrier e && (ev_seq e <? before)%N
  then Some (match acc with Some m => N.max m (ev_seq e) | None => ev_seq e end)
  else acc.

Lemma barrier_skips (before : N) (es : list RunEvent) (acc : option N) :
  Forall (fun e => is_barrier e = false \/ (before <= ev_seq e)%N) es ->
  fold_left (barrier_step before) es acc = acc.
Proof.
  intros Hall. revert acc. induction Hall as [|e es He _ IH]; intros acc; simpl; [done|].
  rewrite IH. unfold barrier_step. destruct He as [->|He]; [done|].
  rewrite (proj2 (N.ltb_ge _ _) He). by rewrite andb_false_r.
Qed.

Lemma barrier_bound (before : N) (k : nat) (es : list RunEvent) (acc : option N) :
  numbered k es -> (forall m, acc = Some m -> (m < N.of_nat k)%N) ->
  forall m, fold_left (barrier_step before) es acc = Some m -> (m < N.of_nat (k + length es))%N.
Proof.
  revert k acc. induction es as [|e es IH]; intros k acc Hn Hacc m Hm; simpl in *.
  { rewrite Nat.add_0_r. by apply Hacc. }
  replace (k + S (length es)) with (S k + length es) by lia.
  eapply IH; [|clear Hm|exact Hm].
  - intros i e' He'. rewrite Nat.add_succ_comm. by apply (Hn (S i)).
  - clear m. intros m. pose proof (Hn 0 e eq_refl) as Hk. rewrite Nat.add_0_r in Hk.
    unfold barrier_step. destruct (_ && _).
    + intros [= <-]. destruct acc as [x|]; [specialize (Hacc x eq_refl)|]; lia.
    + intros ->. specialize (Hacc m eq_refl). lia.
Qed.

Lemma last_barrier_block (pre mid rest : list RunEvent) :
  numbered 0 (pre ++ mid ++ rest) -> ends_at_barrier pre ->
  Forall (fun e => is_barrier e = false) mid ->
  last_barrier (pre ++ mid ++ rest) (N.of_nat (length pre + length mid))
  = match pre with [] => None | _ => Some (N.of_nat (length pre - 1)) end.
Proof.
  intros Hn Hpre Hmid. set (before := N.of_nat (length pre + length mid)).
  change (fold_left (barrier_step before) (pre ++ mid ++ rest) None
    = match pre with [] => None | _ => Some (N.of_nat (length pre - 1)) end).
  apply numbered_app in Hn as [Hp Hn]. apply numbered_app in Hn as [_ Hr]. simpl in Hr.
  rewrite app_assoc, fold_left_app. rewrite barrier_skips.
  2:{ apply Forall_forall. intros e He. right. apply (numbered_range _ _ _ Hr) in He. lia. }
  rewrite fold_left_app. rewrite barrier_skips.
  2:{ eapply Forall_impl; [exact Hmid|]. auto. }
  destruct Hpre as [->|(es' & b & -> & Hb)]; [done|].
  rewrite fold_left_app. simpl. apply numbered_app in Hp as [Hp Hlast].
  pose proof (Hlast 0 b eq_refl) as Hseq. simpl in Hseq. rewrite Nat.add_0_r in Hseq.
  assert (Hlt : (ev_seq b <? before)%N = true).
  { apply N.ltb_lt. unfold before. rewrite length_app. simpl. lia. }
  unfold barrier_step at 1. rewrite Hb, Hlt. simpl. rewrite length_app. simpl.
  destruct (es' ++ [b])%list eqn:Hne; [by destruct es'|]. f_equal.
  destruct (fold_left _ es' None) as [m|] eqn:Hm.
  - eapply barrier_bound in Hm; [|exact Hp|done]. simpl in Hm. lia.
  - lia.
Qed.

Lemma filter_none {A : Type} (f : A -> bool) (l : list A) :
  (forall x, x ∈ l -> f x = false) -> List.filter f l = [].
Proof.
  induction l as [|x l IH]; intros Hf; simpl; [done|].
  rewrite (Hf x) by left. apply IH. intros y Hy. apply Hf. by right.
Qed.

(** The batches of a block: those consumed after its last barrier. *)
Lemma delivered_block (pre mid rest : list RunEvent) :
  numbered 0 (pre ++ mid ++ rest) -> ends_at_barrier pre ->
  Forall (fun e => is_barrier e = false) mid ->
  let before := N.of_nat (length pre + length mid) in
  List.filter (delivered (last_barrier (pre ++ mid ++ rest) before) before) (pre ++ mid ++ rest)
  = List.filter is_consumed mid.
Proof.
  intros Hn Hpre Hmid before. subst before. rewrite last_barrier_block by done.
  apply numbered_app in Hn as [Hp Hn]. apply numbered_app in Hn as [Hm Hr]. simpl in Hm, Hr.
  rewrite !List.filter_app. rewrite (filter_none _ pre), (filter_none _ rest).
  - rewrite app_nil_r. simpl. apply filter_ext_in. intros e He%list_elem_of_In.
    apply (numbered_range _ _ _ Hm) in He. unfold delivered.
    rewrite (proj2 (N.ltb_lt _ _)) by lia. rewrite andb_true_r.
    destruct pre as [|x pre]; [by rewrite andb_true_r|]. simpl length in *.
    rewrite (proj2 (N.ltb_lt _ _)) by lia. by rewrite andb_true_r.
  - intros e He. apply (numbered_range _ _ _ Hr) in He. unfold delivered.
    rewrite (proj2 (N.ltb_ge _ _)) by lia. by rewrite andb_false_r.
  - intros e He. apply (numbered_range _ _ _ Hp) in He. unfold delivered.
    destruct pre as [|x pre]; [simpl in *; lia|]. simpl length in *.
    rewrite (proj2 (N.ltb_ge (N.of_nat _) _)) by lia. by rewrite andb_false_r.
Qed.

(** The event at a position is the one found under its id. *)
Lemma find_placed (run thread : string) (es : list RunEvent) (i : nat) (e : RunEvent) :
  (forall i e, es !! i = Some e -> event_placed run thread i e) -> es !! i = Some e ->
  List.find (fun x => String.eqb (ev_id x) (ev_id e)) es = Some e.
Proof.
  intros Hp Hi. destruct (List.find _ es) as [x|] eqn:Hf.
  - apply List.find_some in Hf as [Hx Hid]. apply String.eqb_eq in Hid.
    apply list_elem_of_In, list_elem_of_lookup in Hx as [k Hk].
    destruct (Hp _ _ Hk) as (_ & Hxi & _). destruct (Hp _ _ Hi) as (_ & Hei & _).
    rewrite Hxi, Hei in Hid. apply string_app_inv in Hid as [_ Hid]; [|done].
    injection Hid as Hid. change (pretty (N.of_nat k) = pretty (N.of_nat i)) in Hid.
    apply (inj (pretty (A:=N))) in Hid. apply Nat2N.inj in Hid. congruence.
  - eapply List.find_none in Hf; [|by eapply list_elem_of_In, list_elem_of_lookup_2].
    by rewrite String.eqb_refl in Hf.
Qed.

(** The history of a state snapshot. *)
Definition snapshot_history (v : Value) : option (list ChatMessage) :=
  match vget HISTORY_CHANNEL v with Some h => history_from_value h | None => Some [] end.

(** The derived window of an invocation: the history of its snapshot, then
    the batches consumed since the last barrier. *)
Lemma derive_window (j : Journal) (pre mid post : list RunEvent) (parent : RunEvent)
    (snapshot : Value) (history : list ChatMessage) (bs : list (list InboxMessage)) :
  journal_ok j -> j_events j = (pre ++ mid ++ parent :: post)%list -> ends_at_barrier pre ->
  Forall (fun e => is_barrier e = false) mid -> ev_kind parent = KNodeInput ->
  ev_input parent ≫= (fun p => resolve p j) = Some snapshot ->
  snapshot_history snapshot = Some history ->
  mapM (batch_of j) (List.filter is_consumed mid) = Some bs ->
  derive_expected_messages j (ev_id parent)
  = Ok (history ++ map consumed_message (concat bs))%list.
Proof.
  intros Hok Hev Hpre Hmid Hkind Hin Hhist Hbs.
  assert (Hn : numbered 0 (j_events j)) by (intros i e He; by apply (ok_placed _ Hok) in He as [-> _]).
  assert (Hi : j_events j !! (length pre + length mid) = Some parent).
  { rewrite Hev, app_assoc, lookup_app_r by (rewrite length_app; lia).
    by rewrite length_app, Nat.sub_diag. }
  unfold derive_expected_messages. cbv zeta.
  erewrite find_placed; [|apply (ok_placed _ Hok)|exact Hi]. simpl.
  rewrite bool_decide_true by done. simpl. rewrite Hin. simpl.
  unfold snapshot_history in Hhist.
  assert (Hd : List.filter (delivered (last_barrier (j_events j) (ev_seq parent)) (ev_seq parent))
                 (j_events j) = List.filter is_consumed mid).
  { rewrite (Hn _ _ Hi), Hev. simpl. apply delivered_block; [by rewrite <- Hev|done..]. }
  rewrite Hd. destruct (vget HISTORY_CHANNEL snapshot) as [h|]; simpl.
  - rewrite Hhist. simpl. by apply extend_window_spec.
  - simplify_eq. by apply extend_window_spec.
Qed.
End Window.

(** ** Texts *)
Section Texts.
Context `{Codec}.

(** Serialized messages hold no number, so equality of values is equality. *)
Lemma norm_tool_call (c : ToolCall) : norm (tool_call_value c) = tool_call_value c.
Proof. done. Qed.

Lemma norm_calls (cs : list ToolCall) :
  norm (Array (map tool_call_value cs)) = Array (map tool_call_value cs).
Proof. simpl. f_equal. rewrite map_map. by apply map_ext. Qed.

Lemma norm_message (m : ChatMessage) : norm (chat_message_value m) = chat_message_value m.
Proof.
  destruct m as [r c t i n]. destruct t as [|x t]; [by destruct r, c, i, n|].
  assert (Hv : forall v, norm v = v ->
    let m := jobj ([("role", Str (role_name r))] ++ jopt "content" (Str <$> c)
               ++ [("tool_calls", v)] ++ jopt "tool_call_id" (Str <$> i)
               ++ jopt "name" (Str <$> n))%list in norm m = m).
  { intros v Hv. destruct c, i, n; cbv -[norm role_name]; cbn; by rewrite Hv. }
  apply (Hv (Array (map tool_call_value (x :: t)))). apply norm_calls.
Qed.

Lemma call_members (c : ToolCall) :
  let v := tool_call_value c in
  vget "id" v = Some (Str (tc_id c))
  /\ (vget "function" v ≫= vget "name") = Some (Str (tc_name c))
  /\ (vget "function" v ≫= vget "arguments") = Some (Str (value_text (tc_arguments c))).
Proof. done. Qed.

Lemma message_members (m : ChatMessage) :
  let v := chat_message_value m in
  vget "role" v = Some (Str (role_name (cm_role m)))
  /\ vget "content" v = Str <$> cm_content m
  /\ vget "tool_calls" v = match cm_tool_calls m with
                           | [] => None
                           | calls => Some (Array (map tool_call_value calls))
                           end
  /\ vget "tool_call_id" v = Str <$> cm_tool_call_id m
  /\ vget "name" v = Str <$> cm_name m.
Proof. by destruct m as [r [c|] [|x t] [i|] [n|]]. Qed.

(** The values whose texts a comparison of two histories looks at. *)
Definition seam_values (ms : list ChatMessage) : list Value :=
  (map chat_message_value ms ++ concat (map (fun m => map tc_arguments (cm_tool_calls m)) ms))%list.

(** Distinct values among these have distinct texts. *)
Definition texts_apart (l : list Value) : Prop :=
  Forall (fun a => Forall (fun b => value_text a = value_text b -> a = b) l) l.

#[export] Instance texts_apart_dec (l : list Value) : Decision (texts_apart l).
Proof. unfold texts_apart. apply _. Defined.

Lemma texts_apart_use (l : list Value) (a b : Value) :
  texts_apart l -> a ∈ l -> b ∈ l -> value_text a = value_text b -> a = b.
Proof.
  unfold texts_apart. rewrite Forall_forall. intros Hl Ha Hb.
  specialize (Hl a Ha). rewrite Forall_forall in Hl. auto.
Qed.

Lemma arguments_in (ms : list ChatMessage) (m : ChatMessage) (c : ToolCall) :
  m ∈ ms -> c ∈ cm_tool_calls m -> tc_arguments c ∈ seam_values ms.
Proof.
  intros Hm Hc. apply elem_of_app. right. apply list_elem_of_In, in_concat.
  exists (map tc_arguments (cm_tool_calls m)). split.
  - by apply (in_map (fun m => map tc_arguments (cm_tool_calls m))), list_elem_of_In.
  - by apply in_map, list_elem_of_In.
Qed.

Lemma calls_inj (ms : list ChatMessage) (cs cs' : list ToolCall) :
  texts_apart (seam_values ms) ->
  (forall c, c ∈ (cs ++ cs')%list -> tc_arguments c ∈ seam_values ms) ->
  map tool_call_value cs = map tool_call_value cs' -> cs = cs'.
Proof.
  intros Ht. revert cs'. induction cs as [|c cs IH]; intros [|c' cs'] Hin He; try done.
  pose proof (f_equal (hd Null) He) as Hc. apply (f_equal (@tl Value)) in He.
  cbn [map hd tl] in Hc, He. f_equal.
  - destruct (call_members c) as (Hi & Hn & Ha), (call_members c') as (Hi' & Hn' & Ha').
    rewrite Hc in Hi, Hn, Ha. rewrite Hi' in Hi. rewrite Hn' in Hn. rewrite Ha' in Ha.
    assert (Harg : tc_arguments c = tc_arguments c').
    { apply (texts_apart_use _ _ _ Ht); [apply Hin; left|apply Hin|by injection Ha].
      apply elem_of_app. right. left. }
    destruct c, c'. simpl in *. congruence.
  - apply IH; [|done]. intros x Hx. apply Hin. apply elem_of_app in Hx.
    apply elem_of_app. destruct Hx; [left|right]; by right.
Qed.

Lemma message_inj (ms : list ChatMessage) (m m' : ChatMessage) :
  texts_apart (seam_values ms) -> m ∈ ms -> m' ∈ ms ->
  chat_message_value m = chat_message_value m' -> m = m'.
Proof.
  intros Ht Hm Hm' He.
  destruct (message_members m) as (Hr & Hc & Hk & Hi & Hn).
  destruct (message_members m') as (Hr' & Hc' & Hk' & Hi' & Hn').
  rewrite He in Hr, Hc, Hk, Hi, Hn. rewrite Hr' in Hr. rewrite Hc' in Hc. rewrite Hk' in Hk.
  rewrite Hi' in Hi. rewrite Hn' in Hn.
  assert (Hcalls : cm_tool_calls m = cm_tool_calls m').
  { apply (calls_inj ms); [done| |].
    - intros c [Hx|Hx]%elem_of_app; (eapply arguments_in; [|exact Hx]); done.
    - destruct (cm_tool_calls m), (cm_tool_calls m'); try done. congruence. }
  destruct m as [r c t i n], m' as [r' c' t' i' n']. simpl in *. f_equal; [..|done| |].
  - destruct r, r'; try done; by injection Hr.
  - destruct c, c'; naive_solver.
  - destruct i, i'; naive_solver.
  - destruct n, n'; naive_solver.
Qed.

Lemma texts_inj (expected actual : list ChatMessage) :
  texts_apart (seam_values (expected ++ actual)) ->
  map value_text (map chat_message_value expected)
  = map value_text (map chat_message_value actual) -> expected = actual.
Proof.
  set (ms := (expected ++ actual)%list). intros Ht.
  assert (Hin : forall m, m ∈ (expected ++ actual)%list -> m ∈ ms) by done.
  clearbody ms. revert actual Hin. induction expected as [|e expected IH];
    intros [|a actual] Hin He; try done. cbn [map] in He. injection He as Hx He.
  assert (He' : e ∈ ms) by (apply Hin; left).
  assert (Ha' : a ∈ ms) by (apply Hin, elem_of_app; right; left).
  f_equal.
  - apply (message_inj ms); [done..|].
    apply (texts_apart_use _ _ _ Ht); [..|exact Hx]; apply elem_of_app; left;
      by apply list_elem_of_fmap_2.
  - apply IH; [|done]. intros m Hm. apply Hin. apply elem_of_app in Hm.
    apply elem_of_app. destruct Hm; [left|right]; by right.
Qed.
End Texts.

(** ** The verdict *)
Section Verdict.
Context `{Codec}.

(** The first position at which two histories disagree. *)
Definition diverges_at (expected actual : list Value) (i : nat) : Prop :=
  take i expected = take i actual /\ expected !! i <> actual !! i.

(** The text of the value is too long to report and is cut inside a
    character. *)
Definition cut_inside (v : Value) : Prop :=
  (DIFF_SNIPPET < String.length (value_text v))%nat
  /\ is_char_boundary (value_text v) DIFF_SNIPPET = false.

Lemma snippet_panics (v : Value) : snippet v = None -> cut_inside v.
Proof.
  unfold snippet, cut_inside. destruct (Nat.leb_spec (String.length (value_text v)) DIFF_SNIPPET);
    [done|]. by destruct (is_char_boundary _ _).
Qed.

Lemma first_divergence_spec (expected actual : list Value) (k : nat) :
  Forall (fun v => norm v = v) expected -> Forall (fun v => norm v = v) actual ->
  expected <> actual ->
  exists i, first_divergence_from k expected actual = (k + i, expected !! i, actual !! i)
    /\ diverges_at expected actual i.
Proof.
  intros He. revert actual k. induction He as [|e expected He _ IH]; intros actual k Ha Hne.
  { exists 0. rewrite Nat.add_0_r. destruct actual; [done|]. by split. }
  destruct Ha as [|a actual Ha Hall]; [exists 0; rewrite Nat.add_0_r; by split|].
  cbn [first_divergence_from]. unfold value_eqb. rewrite He, Ha.
  destruct (bool_decide_reflect (e = a)) as [->|Hx].
  - destruct (IH actual (S k) Hall) as (i & -> & Ht & Hd); [congruence|].
    exists (S i). rewrite Nat.add_succ_comm. split; [done|]. split; [|done]. simpl. by rewrite Ht.
  - exists 0. rewrite Nat.add_0_r. split; [done|]. split; [done|]. simpl. congruence.
Qed.

Lemma norm_messages (ms : list ChatMessage) :
  Forall (fun v => norm v = v) (map chat_message_value ms).
Proof. apply Forall_map, Forall_true. intros m. apply norm_message. Qed.

(** What [divergence] reports, or why it panics. *)
Lemma divergence_spec (expected actual : list ChatMessage) :
  let es := map chat_message_value expected in
  let xs := map chat_message_value actual in
  es <> xs ->
  match divergence es xs with
  | Some v => diverges_at es xs (iv_index v) /\ iv_expected v = es !! iv_index v
              /\ iv_actual v = xs !! iv_index v
  | None => exists i x, diverges_at es xs i /\ (es !! i = Some x \/ xs !! i = Some x)
                        /\ cut_inside x
  end.
Proof.
  intros es xs Hne. unfold divergence, first_divergence.
  destruct (first_divergence_spec es xs 0) as (i & -> & Hd);
    [apply norm_messages|apply norm_messages|done|].
  simpl. destruct (es !! i) as [e|] eqn:Ee, (xs !! i) as [a|] eqn:Ea.
  - destruct (snippet e) eqn:Se; [destruct (snippet a) eqn:Sa|]; simpl; [done|..];
      eexists i, _; (split; [done|]); rewrite Ee, Ea;
      (split; [|by apply snippet_panics]); auto.
  - destruct (snippet e) eqn:Se; simpl; [done|]. eexists i, e. rewrite Ee.
    split; [done|]. split; [auto|by apply snippet_panics].
  - destruct (snippet a) eqn:Sa; simpl; [done|]. eexists i, a. rewrite Ea.
    split; [done|]. split; [auto|by apply snippet_panics].
  - destruct Hd as [_ Hd]. congruence.
Qed.

(** Why a request is refused: no window derives, the window and the request
    first disagree at the reported message, or an assertion objects. *)
Inductive refused (request : AssertionRequest) (parent : string)
    (assertions : list RequestAssertion) (v : InvariantViolation) : Prop :=
| refused_underivable :
    derive_expected_messages (ar_journal request) parent = Err v ->
    refused request parent assertions v
| refused_diverges window :
    derive_expected_messages (ar_journal request) parent = Ok window ->
    let es := map chat_message_value window in
    let xs := map chat_message_value (ar_messages request) in
    diverges_at es xs (iv_index v) -> iv_expected v = es !! iv_index v ->
    iv_actual v = xs !! iv_index v ->
    refused request parent assertions v
| refused_asserted :
    derive_expected_messages (ar_journal request) parent = Ok (ar_messages request) ->
    run_assertions assertions request = Err v ->
    refused request parent assertions v.

(** C11: model-visible means logged. A call through the checking model reaches
    the inner model only with exactly the messages the journal derives for
    the invocation and with every assertion passed; otherwise it is refused
    with the run left as it was, the report naming the first message at which
    the request and the log disagree. The one exception is the report itself:
    the check panics when the disagreeing message is long and its text is cut
    inside a character. Distinct values of the two histories are assumed to
    have distinct texts. *)
Theorem dispatched_is_logged {E : Type} (inner : ChatModel E) (assertions : list RequestAssertion)
    (thread node parent : string) (messages : list ChatMessage) (tools : list Value) (s : Live E) :
  let derived := derive_expected_messages (lv_journal s) parent in
  let request := mkAssertionRequest thread node messages tools (lv_journal s) in
  (forall window, derived = Ok window -> texts_apart (seam_values (window ++ messages))) ->
  match checking_chat inner assertions thread node parent messages tools s with
  | Some out =>
      (derived = Ok messages /\ run_assertions assertions request = Ok ()
       /\ out = md_chat inner messages tools s)
      \/ exists v, out = (Err (EInvariant (invariant_text v)), s)
                   /\ refused request parent assertions v
  | None =>
      exists window i x, derived = Ok window
        /\ let es := map chat_message_value window in
           let xs := map chat_message_value messages in
           diverges_at es xs i /\ (es !! i = Some x \/ xs !! i = Some x) /\ cut_inside x
  end.
Proof.
  intros derived request Ht. unfold checking_chat, check_request. fold derived.
  destruct derived as [window|v] eqn:Hd.
  2:{ simpl. right. exists v. split; [done|]. by apply refused_underivable. }
  specialize (Ht window eq_refl). cbv zeta.
  destruct (bool_decide_reflect (map value_text (map chat_message_value window)
                                 = map value_text (map chat_message_value messages))) as [He|He].
  - apply texts_inj in He as ->; [|done]. simpl. fold request.
    destruct (run_assertions assertions request) as [[]|v] eqn:Ha; [by left|].
    right. exists v. split; [done|]. by apply refused_asserted.
  - assert (Hne : map chat_message_value window <> map chat_message_value messages) by congruence.
    pose proof (divergence_spec window messages Hne) as Hs.
    destruct (divergence _ _) as [v|]; simpl.
    + right. exists v. split; [done|]. destruct Hs as (? & ? & ?). by apply (refused_diverges _ _ _ _ window).
    + destruct Hs as (i & x & ? & ? & ?). by exists window, i, x.
Qed.

(** An honest request is dispatched. *)
Lemma honest_dispatched {E : Type} (inner : ChatModel E) (thread node parent : string)
    (messages : list ChatMessage) (tools : list Value) (s : Live E) :
  derive_expected_messages (lv_journal s) parent = Ok messages ->
  checking_chat inner [] thread node parent messages tools s = Some (md_chat inner messages tools s).
Proof. intros Hd. unfold checking_chat, check_request. rewrite Hd. by rewrite bool_decide_true. Qed.
End Verdict.
