(* ===== verification/Effects.v ===== *)
(** * The effect kernel ([rusty-core/src/effects.rs])

    Deterministic effect ids, the admission boundary with its one-shot
    approval ledger and its rollback handlers, the shadow boundary, and the
    typed admission helpers. Clones of a context share one approval ledger
    behind a lock, so parallel calls are a sequence of [admit]s over it. *)

From Stdlib Require Import String.
From S2P Require Import Prelude Containers Json Error Graph Record.
Local Open Scope string_scope.

(** [EFFECT_ID_DOMAIN]. *)
Definition EFFECT_ID_DOMAIN : string := "rusty/effect-id/v1".

(** [EffectId]: the hex digest. *)
Definition EffectId : Type := string.

(** [EffectRequest]. *)
Record EffectRequest : Type := mkRequest {
  rq_kind : string;
  rq_effect : Effect;
  rq_input_hash : string;
  rq_idempotency_key : option string;
}.

(** [TypedEffect]: the contract fields of a typed declaration. *)
Record TypedEffect : Type := mkTyped {
  te_effect : Effect;
  te_kind : string;
  te_input_hash : string;
  te_idempotency_key : option string;
}.

(** [EffectViolation]. *)
Inductive EffectViolation : Type :=
| DeclarationMismatch (kind : string) (marker declared : Effect)
| MissingIdempotencyKey (kind : string)
| MissingCompensation (kind : string)
| MissingApproval (kind : string) (effect_id : EffectId)
| ApprovalScopeMismatch (kind : string) (required presented : EffectId)
| ShadowRefused (kind : string) (effect : Effect) (effect_id : EffectId).

(** [Debug] of [Effect], and the [#[error]] texts. *)
Definition effect_debug (e : Effect) : string :=
  match e with
  | Pure => "Pure" | ReadOnly => "ReadOnly" | Idempotent => "Idempotent"
  | Compensatable => "Compensatable" | NonIdempotent => "NonIdempotent"
  end.

Definition violation_text (v : EffectViolation) : string :=
  match v with
  | DeclarationMismatch kind marker declared =>
      "effect kind `" ++ kind ++ "` is marked with the " ++ effect_debug marker
      ++ " marker trait but declares " ++ effect_debug declared
      ++ ": the marker and TypedEffect::EFFECT must agree"
  | MissingIdempotencyKey kind =>
      "idempotent effect kind `" ++ kind ++ "` has no idempotency key: a stable key is what the "
      ++ "idempotency declaration means at the wire"
  | MissingCompensation kind =>
      "compensatable effect kind `" ++ kind ++ "` has no registered rollback handler: register one "
      ++ "in a CompensationRegistry before executing it"
  | MissingApproval kind id =>
      "irreversible effect kind `" ++ kind ++ "` (" ++ id ++ ") requires an explicit approval token "
      ++ "scoped to its effect id"
  | ApprovalScopeMismatch kind required presented =>
      "approval token for " ++ presented ++ " does not admit irreversible effect kind `" ++ kind
      ++ "` (" ++ required ++ ")"
  | ShadowRefused kind effect id =>
      "shadow admission refused " ++ effect_debug effect ++ " effect kind `" ++ kind ++ "` (" ++ id
      ++ "): a shadow admits Pure and ReadOnly effects only — the candidate's effects never reach "
      ++ "the world"
  end.

(** [ApprovalToken], [ApprovalToken::approve], [admits]. *)
Record ApprovalToken : Type := mkToken { tk_effect_id : EffectId; tk_approved_by : string }.

Definition approve (effect_id : EffectId) (approved_by : string) : ApprovalToken :=
  mkToken effect_id approved_by.

Definition admits (t : ApprovalToken) (effect_id : EffectId) : bool :=
  String.eqb (tk_effect_id t) effect_id.

(** [CompensationHandler], [CompensationRegistry], [register],
    [handler_for]. *)
Definition CompensationHandler : Type := Value -> result string Value.
Definition CompensationRegistry : Type := gmap string CompensationHandler.

Definition registry_new : CompensationRegistry := ∅.

Definition register (r : CompensationRegistry) (kind : string) (h : CompensationHandler) :
    option CompensationHandler * CompensationRegistry :=
  (r !! kind, <[kind := h]> r).

Definition handler_for (r : CompensationRegistry) (kind : string) : option CompensationHandler :=
  r !! kind.

(** [ShadowRefusal]. *)
Record ShadowRefusal : Type := mkRefusal {
  sr_kind : string;
  sr_effect : Effect;
  sr_effect_id : EffectId;
  sr_input_hash : string;
  sr_served : bool;
}.

(** [ShadowOutcomeSource::serve]: the recorded world of a shadow. *)
Definition ShadowOutcomeSource : Type := string -> Value -> option Value.

(** [EffectAdmissionContext]. The ledger is the content of the shared lock;
    [ac_shadow] holds the recorded world, [ac_refusals] what the sink got. *)
Record EffectAdmissionContext : Type := mkContext {
  ac_scope : string;
  ac_approvals : gmap EffectId ApprovalToken;
  ac_compensations : CompensationRegistry;
  ac_shadow : option ShadowOutcomeSource;
  ac_refusals : list ShadowRefusal;
}.

(** [EffectPermit]. *)
Record EffectPermit : Type := mkPermit {
  pm_effect_id : EffectId;
  pm_compensation : option CompensationHandler;
  pm_approval : option ApprovalToken;
}.

(** [EffectAdmissionContext::new], [shadow], [with_approvals],
    [with_compensations], [is_shadow]. *)
Definition context_new (scope : string) : EffectAdmissionContext :=
  mkContext scope ∅ registry_new None [].

Definition context_shadow (scope : string) (source : ShadowOutcomeSource) :
    EffectAdmissionContext :=
  mkContext scope ∅ registry_new (Some source) [].

Definition with_approvals (tokens : list ApprovalToken) (c : EffectAdmissionContext) :
    EffectAdmissionContext :=
  mkContext (ac_scope c)
    (fold_left (fun m t => <[tk_effect_id t := t]> m) tokens ∅)
    (ac_compensations c) (ac_shadow c) (ac_refusals c).

Definition with_compensations (r : CompensationRegistry) (c : EffectAdmissionContext) :
    EffectAdmissionContext :=
  mkContext (ac_scope c) (ac_approvals c) r (ac_shadow c) (ac_refusals c).

Definition is_shadow (c : EffectAdmissionContext) : bool :=
  match ac_shadow c with Some _ => true | None => false end.

Section Effects.
Context `{Codec}.

(** [derive_effect_id], and the [material] it hashes. *)
Definition effect_material (scope kind input_hash : string) (idempotency_key : option string) :
    string :=
  String.concat newline
    [EFFECT_ID_DOMAIN; scope; kind; input_hash; default "-" idempotency_key].

Definition derive_effect_id (scope kind input_hash : string) (idempotency_key : option string) :
    EffectId :=
  sha256_hex (effect_material scope kind input_hash idempotency_key).

(** [PayloadRef::content_hash]; [None] is a serialization error. *)
Definition content_hash (p : PayloadRef) : option string :=
  match p with
  | Inline v => sha256_hex <$> to_vec (canonicalize_value v)
  | Artifact r => Some (ar_sha256 r)
  end.

(** [EffectRequest::new] ([None] is the [expect]), [from_typed],
    [effect_id]. *)
Definition request_new (kind : string) (effect : Effect) (input : Value)
    (idempotency_key : option string) : option EffectRequest :=
  h ← content_hash (Inline input); Some (mkRequest kind effect h idempotency_key).

Definition from_typed (e : TypedEffect) : EffectRequest :=
  mkRequest (te_kind e) (te_effect e) (te_input_hash e) (te_idempotency_key e).

Definition effect_id (scope : string) (r : EffectRequest) : EffectId :=
  derive_effect_id scope (rq_kind r) (rq_input_hash r) (rq_idempotency_key r).

Definition typed_effect_id (scope : string) (e : TypedEffect) : EffectId :=
  derive_effect_id scope (te_kind e) (te_input_hash e) (te_idempotency_key e).

(** [ApprovalToken::for_effect]. *)
Definition for_effect (e : TypedEffect) (scope approved_by : string) : ApprovalToken :=
  approve (typed_effect_id scope e) approved_by.

(** [EffectAdmissionContext::approval_required]. *)
Definition approval_required (c : EffectAdmissionContext) (r : EffectRequest) : option EffectId :=
  if negb (bool_decide (rq_effect r = NonIdempotent)) || is_shadow c then None
  else
    let id := effect_id (ac_scope c) r in
    if bool_decide (is_Some (ac_approvals c !! id)) then None else Some id.

(** [EffectAdmissionContext::admit]: the verdict and the ledger left. *)
Definition admit_effect (c : EffectAdmissionContext) (r : EffectRequest) :
    result EffectViolation EffectPermit * EffectAdmissionContext :=
  let id := effect_id (ac_scope c) r in
  if is_shadow c
     && negb (bool_decide (rq_effect r = Pure) || bool_decide (rq_effect r = ReadOnly))
  then (Err (ShadowRefused (rq_kind r) (rq_effect r) id), c)
  else
    match rq_effect r with
    | Pure | ReadOnly => (Ok (mkPermit id None None), c)
    | Idempotent =>
        match rq_idempotency_key r with
        | None => (Err (MissingIdempotencyKey (rq_kind r)), c)
        | Some _ => (Ok (mkPermit id None None), c)
        end
    | Compensatable =>
        match handler_for (ac_compensations c) (rq_kind r) with
        | None => (Err (MissingCompensation (rq_kind r)), c)
        | Some h => (Ok (mkPermit id (Some h) None), c)
        end
    | NonIdempotent =>
        match ac_approvals c !! id with
        | None => (Err (MissingApproval (rq_kind r) id), c)
        | Some t =>
            (Ok (mkPermit id None (Some t)),
             mkContext (ac_scope c) (delete id (ac_approvals c)) (ac_compensations c)
               (ac_shadow c) (ac_refusals c))
        end
    end.

(** [EffectAdmissionContext::serve_shadow]: the served outcome, and the
    context whose sink got the refusal. *)
Definition serve_shadow (c : EffectAdmissionContext) (r : EffectRequest) (recorded_request : Value)
    (v : EffectViolation) : option Value * EffectAdmissionContext :=
  match ac_shadow c, v with
  | Some source, ShadowRefused kind effect id =>
      let served := source kind recorded_request in
      (served,
       mkContext (ac_scope c) (ac_approvals c) (ac_compensations c) (ac_shadow c)
         (ac_refusals c
          ++ [mkRefusal kind effect id (rq_input_hash r)
                (match served with Some _ => true | None => false end)])%list)
  | _, _ => (None, c)
  end.

(** [check_declaration], [admit_speculation], [admit_retry],
    [admit_compensatable], [admit_irreversible]. *)
Definition check_declaration (e : TypedEffect) (marker : Effect) : result EffectViolation unit :=
  if bool_decide (te_effect e = marker) then Ok ()
  else Err (DeclarationMismatch (te_kind e) marker (te_effect e)).

Definition admit_speculation (e : TypedEffect) : result EffectViolation unit :=
  check_declaration e Pure.

Definition admit_retry (e : TypedEffect) : result EffectViolation unit :=
  check_declaration e Idempotent;;
  match te_idempotency_key e with
  | None => Err (MissingIdempotencyKey (te_kind e))
  | Some _ => Ok ()
  end.

Definition admit_compensatable (e : TypedEffect) (r : CompensationRegistry) :
    result EffectViolation CompensationHandler :=
  check_declaration e Compensatable;;
  ok_or (handler_for r (te_kind e)) (MissingCompensation (te_kind e)).

Definition admit_irreversible (e : TypedEffect) (scope : string) (approval : option ApprovalToken) :
    result EffectViolation unit :=
  check_declaration e NonIdempotent;;
  let required := typed_effect_id scope e in
  t ← ok_or approval (MissingApproval (te_kind e) required);
  if admits t required then Ok ()
  else Err (ApprovalScopeMismatch (te_kind e) required (tk_effect_id t)).
End Effects.
