(* ===== verification/EffectsFacts.v ===== *)
(** * Theorems about the effect kernel

    One approval admits one irreversible call; the admission boundary is
    fail-closed and asks for exactly the approval it needs; which effect ids
    can coincide. *)

From Stdlib Require Import String Ascii.
From S2P Require Import Prelude Containers Json Error Graph Record SampleCodec Effects.

(** ** The approval ledger *)
Section Ledger.
Context `{Codec}.

(** A sequence of admissions over one shared ledger. *)
Fixpoint admit_all (c : EffectAdmissionContext) (rs : list EffectRequest) :
    list (result EffectViolation EffectPermit) * EffectAdmissionContext :=
  match rs with
  | [] => ([], c)
  | r :: rest =>
      let '(v, c1) := admit_effect c r in
      let '(vs, c2) := admit_all c1 rest in (v :: vs, c2)
  end.

(** Tokens for [id] in the ledger, and permits that spent one. *)
Definition held (c : EffectAdmissionContext) (id : EffectId) : nat :=
  if bool_decide (is_Some (ac_approvals c !! id)) then 1 else 0.

Definition spends (id : EffectId) (v : result EffectViolation EffectPermit) : nat :=
  match v with
  | Ok p => match pm_approval p with
            | Some _ => if String.eqb (pm_effect_id p) id then 1 else 0
            | None => 0
            end
  | Err _ => 0
  end.

Definition spent (id : EffectId) (vs : list (result EffectViolation EffectPermit)) : nat :=
  list_sum (map (spends id) vs).

(** A permit for an irreversible request carries the ledger's own token. *)
Definition backed (c : EffectAdmissionContext) (r : EffectRequest)
    (v : result EffectViolation EffectPermit) : Prop :=
  forall p, v = Ok p -> rq_effect r = NonIdempotent ->
    pm_effect_id p = effect_id (ac_scope c) r
    /\ exists t, pm_approval p = Some t /\ ac_approvals c !! pm_effect_id p = Some t.

Lemma admit_effect_scope c r : ac_scope (admit_effect c r).2 = ac_scope c.
Proof. unfold admit_effect. cbv zeta. repeat case_match; done. Qed.

Lemma admit_effect_ledger c r id t :
  ac_approvals (admit_effect c r).2 !! id = Some t -> ac_approvals c !! id = Some t.
Proof.
  unfold admit_effect. cbv zeta. repeat case_match; simpl; try done.
  by intros [_ ?]%lookup_delete_Some.
Qed.

Lemma admit_effect_conserves c r id :
  spends id (admit_effect c r).1 + held (admit_effect c r).2 id = held c id.
Proof.
  unfold admit_effect, held. cbv zeta.
  destruct (is_shadow c && _); [done|]. destruct (rq_effect r); simpl; try done.
  - by destruct (rq_idempotency_key r).
  - by destruct (handler_for _ _).
  - destruct (ac_approvals c !! effect_id (ac_scope c) r) as [t|] eqn:Ht; simpl; [|done].
    destruct (String.eqb_spec (effect_id (ac_scope c) r) id) as [<-|Hne].
    + rewrite lookup_delete_eq, Ht. rewrite bool_decide_false, bool_decide_true; [done|eauto|].
      by intros [? ?].
    + by rewrite lookup_delete_ne.
Qed.

Lemma admit_effect_backed c r : backed c r (admit_effect c r).1.
Proof.
  intros p Hp He. unfold admit_effect in Hp. cbv zeta in Hp. rewrite He in Hp.
  destruct (is_shadow c && _); [done|].
  destruct (ac_approvals c !! effect_id (ac_scope c) r) as [t|] eqn:Ht; [|done].
  injection Hp as <-. simpl. eauto.
Qed.

(** C25: one approval, one irreversible call. Over every sequence of admissions
    that share a ledger (clones of the context in parallel nodes and later
    super-steps), the permits that spent an approval for an effect id and the
    tokens left for it add up to the tokens held at the start, at most one;
    and each permit of an irreversible request carries the token the ledger
    held for exactly that request's id. *)
Theorem approvals_spent_once (c : EffectAdmissionContext) (rs : list EffectRequest) :
  (forall id, spent id (admit_all c rs).1 + held (admit_all c rs).2 id = held c id)
  /\ Forall2 (backed c) rs (admit_all c rs).1.
Proof.
  revert c. induction rs as [|r rs IH]; intros c; cbn [admit_all]; [by split; [|constructor]|].
  pose proof (admit_effect_conserves c r) as Hc. pose proof (admit_effect_backed c r) as Hb.
  pose proof (admit_effect_scope c r) as Hs. pose proof (admit_effect_ledger c r) as Hl.
  destruct (admit_effect c r) as [v c1]. simpl in *. specialize (IH c1) as [IHs IHb].
  destruct (admit_all c1 rs) as [vs c2]. simpl in *. split.
  - intros id. unfold spent in *. simpl. rewrite <- (Hc id), <- (IHs id). lia.
  - constructor; [done|]. eapply Forall2_impl; [exact IHb|]. intros r' v' Hv p Hp He.
    destruct (Hv p Hp He) as (Hid & t & Ha & Ht). rewrite Hs in Hid. eauto.
Qed.

(** What admission requires. *)
Definition admissible (c : EffectAdmissionContext) (r : EffectRequest) : Prop :=
  match rq_effect r with
  | Pure | ReadOnly => True
  | Idempotent => is_shadow c = false /\ is_Some (rq_idempotency_key r)
  | Compensatable => is_shadow c = false /\ is_Some (ac_compensations c !! rq_kind r)
  | NonIdempotent =>
      is_shadow c = false /\ is_Some (ac_approvals c !! effect_id (ac_scope c) r)
  end.

(** A gate that asks for an optional credential, the context unchanged. *)
Lemma gate_verdict {A} (o : option A) (c : EffectAdmissionContext) :
  ((match o with Some _ => true | None => false end) = true <-> false = false /\ is_Some o)
  /\ ((match o with Some _ => true | None => false end) = false -> c = c)
  /\ (false = true -> c = c).
Proof.
  split_and!; [|done..]. destruct o as [a|]; split; try done.
  by intros [_ [x Hx]].
Qed.

(** The admission boundary is fail-closed. It admits a request exactly when
    the request is pure or read-only, or the context is not a shadow and holds
    the key, the rollback handler or the approval its class requires; a refusal
    leaves the context as it was; a shadow never changes its ledger. *)
Theorem admission_fail_closed (c : EffectAdmissionContext) (r : EffectRequest) :
  (is_ok (admit_effect c r).1 = true <-> admissible c r)
  /\ (is_ok (admit_effect c r).1 = false -> (admit_effect c r).2 = c)
  /\ (is_shadow c = true -> (admit_effect c r).2 = c).
Proof.
  unfold admit_effect, admissible, handler_for. cbv zeta.
  destruct (is_shadow c), (rq_effect r); rewrite ?bool_decide_false by done; simpl;
    try (split_and!; [by split|done..]);
    try (split_and!; [split; [done|by intros [? _]]|done..]).
  - destruct (rq_idempotency_key r) as [k|]; [apply (gate_verdict (Some k))|].
    apply (gate_verdict (@None string)).
  - destruct (ac_compensations c !! rq_kind r) as [h|]; [apply (gate_verdict (Some h))|].
    apply (gate_verdict (@None CompensationHandler)).
  - destruct (ac_approvals c !! effect_id (ac_scope c) r) as [t|]; simpl.
    + split_and!; [|done..]. split; [by eauto|done].
    + apply (gate_verdict (@None ApprovalToken)).
Qed.

(** Asking and admitting agree. [approval_required] names an effect id
    exactly when [admit] would refuse the request for want of that approval,
    and attaching an approval minted for the named id admits the request. *)
Theorem approval_gate_exact (c : EffectAdmissionContext) (r : EffectRequest) (id : EffectId) :
  (approval_required c r = Some id
   <-> (admit_effect c r).1 = Err (MissingApproval (rq_kind r) id))
  /\ (approval_required c r = Some id ->
      forall who, is_ok (admit_effect (with_approvals [approve id who] c) r).1 = true).
Proof.
  unfold approval_required, admit_effect, is_shadow, with_approvals. cbv zeta. simpl.
  destruct (ac_shadow c), (rq_effect r); simpl; try (split; [split|]; done).
  - by destruct (rq_idempotency_key r).
  - by destruct (handler_for _ _).
  - destruct (ac_approvals c !! effect_id (ac_scope c) r) as [t|]; simpl.
    + by split; [split|].
    + split; [split; congruence|].
      intros [= <-] who. by rewrite lookup_insert_eq.
Qed.
End Ledger.

(** ** Which effect ids coincide *)
Section Ids.
Context `{Codec}.

(** No line break inside a component. *)
Fixpoint newline_free (s : string) : bool :=
  match s with
  | EmptyString => true
  | String c s' => negb (Ascii.eqb c "010"%char) && newline_free s'
  end.

Lemma newline_split a1 a2 r1 r2 :
  newline_free a1 = true -> newline_free a2 = true ->
  (a1 ++ newline ++ r1 = a2 ++ newline ++ r2)%string -> a1 = a2 /\ r1 = r2.
Proof.
  unfold newline. revert a2. induction a1 as [|c a1 IH]; intros [|d a2]; simpl;
    intros H1 H2 He; simplify_eq/=; try done.
  apply andb_true_iff in H1 as [_ H1], H2 as [_ H2].
  by destruct (IH a2) as [-> ->].
Qed.

Lemma string_app_assoc (a b c : string) : ((a ++ b) ++ c = a ++ (b ++ c))%string.
Proof. induction a as [|x a IH]; simpl; [done|by apply (f_equal (String x))]. Qed.

(** An effect id binds its run and its call. For scopes, kinds and input
    hashes without line breaks, two derivations whose digests do not collide
    agree exactly when scope, kind and input hash agree and the key slots (the
    key, or the dash that stands for none) agree: a receipt of another run or
    another input never answers for this effect. *)
Theorem effect_id_binds (s1 k1 h1 s2 k2 h2 : string) (o1 o2 : option string) :
  Forall (fun s => newline_free s = true) [s1; k1; h1; s2; k2; h2] ->
  collision_free [effect_material s1 k1 h1 o1; effect_material s2 k2 h2 o2] ->
  derive_effect_id s1 k1 h1 o1 = derive_effect_id s2 k2 h2 o2
  <-> s1 = s2 /\ k1 = k2 /\ h1 = h2 /\ default "-"%string o1 = default "-"%string o2.
Proof.
  intros Hn Hc. split; [|by intros (-> & -> & -> & Ho); unfold derive_effect_id, effect_material; rewrite Ho].
  intros He. apply (collision_free_use _ _ _ Hc) in He; [|set_solver..].
  repeat (apply Forall_cons in Hn as [? Hn]). unfold effect_material in He. simpl in He.
  apply newline_split in He as [_ He]; [|done..].
  apply newline_split in He as [-> He]; [|done..].
  apply newline_split in He as [-> He]; [|done..].
  by apply newline_split in He as [-> He]; [|done..].
Qed.

(** Where the framing is ambiguous. An effect without a key and one whose
    key is a dash share an id, and so do two effects whose line breaks move
    between scope and kind, or between input hash and key: for every digest. *)
Theorem effect_id_collisions (s k h a b : string) (o : option string) :
  derive_effect_id s k h None = derive_effect_id s k h (Some "-"%string)
  /\ derive_effect_id (s ++ newline ++ a)%string k h o
     = derive_effect_id s (a ++ newline ++ k)%string h o
  /\ derive_effect_id s k (h ++ newline ++ a)%string (Some b)
     = derive_effect_id s k h (Some (a ++ newline ++ b))%string.
Proof.
  unfold derive_effect_id, effect_material. simpl.
  split_and!; [done|..]; by rewrite !string_app_assoc.
Qed.
End Ids.

Module EffectsExamples.
Import Sample.

Lemma effect_id_binds_witness :
  derive_effect_id "run-1" "pay" "aa" None <> derive_effect_id "run-2" "pay" "aa" None.
Proof.
  intros He. apply effect_id_binds in He as [He _]; [discriminate He|..].
  - repeat constructor.
  - apply (bool_decide_unpack _). vm_compute. exact I.
Defined.
End EffectsExamples.
