(* ===== verification/Branches.v ===== *)
(** * Branch diffs and the shadow's recorded world ([rusty-core/src/replay.rs])

    The structural diff of two journals ([BranchDiff::between] with its
    totals and per-step channel differences), and [JournalShadowSource], the
    per-tool queues a shadow run serves refused effects from. *)

From Stdlib Require Import String SpecFloat.
From S2P Require Import Prelude Containers Json Error Record SampleCodec Journal JournalFacts Meter Chat Declaration Replay ReplayFacts Effects.
Local Open Scope string_scope.

(** ** Branch diffs *)

(** [BranchTotals]. *)
Record BranchTotals : Type := mkBranchTotals {
  bt_events : nat;
  bt_tokens : Usage;
  bt_cost_usd : spec_float;
}.

(** [ChannelDiff], [StepDiff], [BranchDiff]. *)
Record ChannelDiff : Type := mkChannelDiff {
  cd_channel : string;
  cd_base : option Value;
  cd_branch : option Value;
}.

Record StepDiff : Type := mkStepDiff { sd_step : N; sd_channels : list ChannelDiff }.

Record BranchDiff : Type := mkBranchDiff {
  bd_first_divergent_seq : option N;
  bd_added : list RunEvent;
  bd_removed : list RunEvent;
  bd_step_diffs : list StepDiff;
  bd_base_totals : BranchTotals;
  bd_branch_totals : BranchTotals;
}.

(** [logically_equal]. *)
Definition logically_equal (a : RunEvent) (sa : JournalSnapshot) (b : RunEvent)
    (sb : JournalSnapshot) : bool :=
  bool_decide (ev_seq a = ev_seq b) && bool_decide (ev_kind a = ev_kind b)
  && bool_decide (ev_node_id a = ev_node_id b) && bool_decide (ev_effect a = ev_effect b)
  && bool_decide (ev_latency_ms a = ev_latency_ms b) && bool_decide (ev_tokens a = ev_tokens b)
  && opt_eqb float_eqb (ev_cost_usd a) (ev_cost_usd b)
  && bool_decide (ev_status a = ev_status b)
  && opt_eqb value_eqb (resolve_opt (js_artifacts sa) (ev_input a))
       (resolve_opt (js_artifacts sb) (ev_input b))
  && opt_eqb value_eqb (resolve_opt (js_artifacts sa) (ev_output a))
       (resolve_opt (js_artifacts sb) (ev_output b)).

(** [totals]: token sums saturate, costs are [f64] sums. *)
Definition add_usage (t u : Usage) : Usage :=
  mkUsage (saturating_add (prompt_tokens t) (prompt_tokens u))
    (saturating_add (completion_tokens t) (completion_tokens u))
    (saturating_add (total_tokens t) (total_tokens u)) (cached_tokens t) (reasoning_tokens t).

Definition total_event (t : BranchTotals) (e : RunEvent) : BranchTotals :=
  mkBranchTotals (bt_events t)
    (match ev_tokens e with Some u => add_usage (bt_tokens t) u | None => bt_tokens t end)
    (match ev_cost_usd e with
     | Some c => f64_add (bt_cost_usd t) (f64_of c)
     | None => bt_cost_usd t
     end).

Definition totals (s : JournalSnapshot) : BranchTotals :=
  fold_left total_event (js_events s)
    (mkBranchTotals (length (js_events s)) (mkUsage 0 0 0 None None) (S754_zero false)).

(** One event of [step_channel_values]: the open step and the closed ones. *)
Definition step_event (artifacts : list (string * Value))
    (acc : option N * gmap N (list (string * Value))) (e : RunEvent) :
    option N * gmap N (list (string * Value)) :=
  let '(current, steps) := acc in
  match ev_kind e with
  | KSuperStepStart =>
      (v ← resolve_opt artifacts (ev_input e); st ← vget "step" v; as_u64 st, steps)
  | KSuperStepEnd =>
      match current with
      | Some step =>
          let channels :=
            match resolve_opt artifacts (ev_output e) with Some (Object m) => m | _ => [] end in
          (None, <[step := channels]> steps)
      | None => (None, steps)
      end
  | _ => (current, steps)
  end.

(** [step_channel_values]. *)
Definition step_channel_values (s : JournalSnapshot) : gmap N (list (string * Value)) :=
  (fold_left (step_event (js_artifacts s)) (js_events s) (None, ∅)).2.

(** The keys of two maps, once each, in order: a [BTreeSet]. *)
Definition key_union (a b : list (string * Value)) : list string :=
  (BTree.from_list (map (fun k => (k, ())) (a.*1 ++ b.*1)%list)).*1.

Definition step_union (a b : gmap N (list (string * Value))) : list N :=
  sort_by N.leb (elements (dom a ∪ dom b : gset N)).

(** The channels on which one step differs. *)
Definition diff_channels (base branch : list (string * Value)) : list ChannelDiff :=
  omap (fun k =>
    let b := BTree.get k base in
    let r := BTree.get k branch in
    if opt_eqb value_eqb b r then None else Some (mkChannelDiff k b r))
    (key_union base branch).

(** [diff_steps]. *)
Definition diff_steps (base branch : JournalSnapshot) : list StepDiff :=
  let bs := step_channel_values base in
  let rs := step_channel_values branch in
  omap (fun step =>
    match diff_channels (default [] (bs !! step)) (default [] (rs !! step)) with
    | [] => None
    | channels => Some (mkStepDiff step channels)
    end)
    (step_union bs rs).

(** The first index at which the journals part ([between]'s [find]). *)
Definition parts_at (base branch : JournalSnapshot) (i : nat) : bool :=
  match js_events base !! i, js_events branch !! i with
  | Some a, Some b => negb (logically_equal a base b branch)
  | _, _ => true
  end.

Definition divergence_index (base branch : JournalSnapshot) : option nat :=
  List.find (parts_at base branch)
    (seq 0 (Nat.max (length (js_events base)) (length (js_events branch)))).

(** [BranchDiff::between]. *)
Definition between (base branch : JournalSnapshot) : BranchDiff :=
  let divergence :=
    (fun i => match or_else (js_events base !! i) (js_events branch !! i) with
              | Some e => ev_seq e
              | None => N.of_nat i
              end) <$> divergence_index base branch in
  let after s := match divergence with
                 | Some sq => List.filter (fun e => (sq <=? ev_seq e)%N) (js_events s)
                 | None => []
                 end in
  mkBranchDiff divergence (after branch) (after base) (diff_steps base branch)
    (totals base) (totals branch).

(** [BranchDiff::is_identical]. *)
Definition is_identical (d : BranchDiff) : bool :=
  match bd_first_divergent_seq d with None => true | Some _ => false end.

(** ** Facts *)

(** The first [n] events agree. *)
Definition agree (base branch : JournalSnapshot) (n : nat) : Prop :=
  forall i, i < n -> exists a b, js_events base !! i = Some a /\ js_events branch !! i = Some b
    /\ logically_equal a base b branch = true.

Lemma parts_at_false (base branch : JournalSnapshot) (i : nat) :
  parts_at base branch i = false ->
  exists a b, js_events base !! i = Some a /\ js_events branch !! i = Some b
    /\ logically_equal a base b branch = true.
Proof.
  unfold parts_at. intros Hp. destruct (js_events base !! i) as [a|]; [|done].
  destruct (js_events branch !! i) as [b|]; [|done]. exists a, b.
  by apply negb_false_iff in Hp.
Qed.

Lemma find_seq_Some (f : nat -> bool) (start len i : nat) :
  List.find f (seq start len) = Some i ->
  start <= i < start + len /\ f i = true /\ forall j, start <= j < i -> f j = false.
Proof.
  revert start. induction len as [|len IH]; intros start; simpl; [done|].
  destruct (f start) eqn:Hf.
  - intros [= <-]. split; [lia|]. split; [done|]. intros j ?. lia.
  - intros (Hr & Hi & Hj)%IH. split; [lia|]. split; [done|]. intros j Hlt.
    destruct (decide (j = start)) as [->|]; [done|]. apply Hj. lia.
Qed.

Lemma divergence_index_None (base branch : JournalSnapshot) :
  divergence_index base branch = None <->
  length (js_events base) = length (js_events branch)
  /\ agree base branch (length (js_events base)).
Proof.
  unfold divergence_index. split.
  - intros Hf.
    assert (Hall : forall i, i < Nat.max (length (js_events base)) (length (js_events branch)) ->
      parts_at base branch i = false).
    { intros i Hi. eapply List.find_none in Hf; [exact Hf|]. apply in_seq. lia. }
    split.
    + destruct (Nat.lt_trichotomy (length (js_events base)) (length (js_events branch)))
        as [Hlt|[Heq|Hlt]]; [|done|].
      * destruct (parts_at_false _ _ _ (Hall (length (js_events base)) ltac:(lia))) as (a & b & Ha & _).
        apply lookup_lt_Some in Ha. lia.
      * destruct (parts_at_false _ _ _ (Hall (length (js_events branch)) ltac:(lia)))
          as (a & b & _ & Hb & _). apply lookup_lt_Some in Hb. lia.
    + intros i Hi. apply parts_at_false, Hall. lia.
  - intros [Hl Ha]. destruct (List.find _ _) as [i|] eqn:Hf; [|done].
    apply find_seq_Some in Hf as (Hi & Hp & _). destruct (Ha i ltac:(lia)) as (a & b & E1 & E2 & He).
    unfold parts_at in Hp. rewrite E1, E2, He in Hp. done.
Qed.

(** The events of a journal carry their own positions. *)
Definition placed (s : JournalSnapshot) : Prop :=
  forall i e, js_events s !! i = Some e -> ev_seq e = N.of_nat i.

Lemma filter_placed (es : list RunEvent) (start i : nat) :
  (forall n e, es !! n = Some e -> ev_seq e = N.of_nat (start + n)) -> start <= i ->
  List.filter (fun e => (N.of_nat i <=? ev_seq e)%N) es = drop (i - start) es.
Proof.
  revert start. induction es as [|e es IH]; intros start Hp Hle; simpl; [by rewrite drop_nil|].
  rewrite (Hp 0 e eq_refl). destruct (N.leb_spec (N.of_nat i) (N.of_nat (start + 0))).
  - assert (i = start) as -> by lia. rewrite Nat.sub_diag. simpl. f_equal.
    clear -Hp. assert (Hall : forall e', e' ∈ es -> (N.of_nat start <=? ev_seq e')%N = true).
    { intros e' (n & Hn)%list_elem_of_lookup. rewrite (Hp (S n) e' Hn). apply N.leb_le. lia. }
    clear Hp. induction es as [|x es IH]; [done|]. simpl. rewrite (Hall x) by by left.
    f_equal. apply IH. intros e' He'. apply Hall. by right.
  - rewrite (IH (S start)); [|intros n x Hn; rewrite (Hp (S n) x Hn); f_equal; lia|lia].
    replace (i - start) with (S (i - S start)) by lia. done.
Qed.

Lemma filter_placed_from (s : JournalSnapshot) (i : nat) :
  placed s -> List.filter (fun e => (N.of_nat i <=? ev_seq e)%N) (js_events s)
              = drop i (js_events s).
Proof.
  intros Hp. rewrite (filter_placed _ 0 i); [by rewrite Nat.sub_0_r|exact Hp|lia].
Qed.

(** A branch diff cuts both journals where they part: on journals whose
    events carry their positions, either no divergence is reported, the
    journals have one length and agree at every position, or the reported
    position is the first at which they disagree or one of them ends; the
    events before it agree pairwise and what is reported removed and added
    is exactly the rest of each journal. *)
Theorem between_cuts (base branch : JournalSnapshot) :
  placed base -> placed branch ->
  match bd_first_divergent_seq (between base branch) with
  | None => length (js_events base) = length (js_events branch)
            /\ agree base branch (length (js_events base))
            /\ bd_removed (between base branch) = [] /\ bd_added (between base branch) = []
  | Some sq => exists i, sq = N.of_nat i /\ agree base branch i /\ parts_at base branch i = true
            /\ js_events base = (take i (js_events base) ++ bd_removed (between base branch))%list
            /\ js_events branch = (take i (js_events branch) ++ bd_added (between base branch))%list
            /\ bd_removed (between base branch) ++ bd_added (between base branch) <> []
  end%list.
Proof.
  intros Hb Hr. unfold between. simpl.
  destruct (divergence_index base branch) as [i|] eqn:Hd; simpl.
  - unfold divergence_index in Hd. apply find_seq_Some in Hd as (Hi & Hp & Hbefore).
    assert (Hseq : match or_else (js_events base !! i) (js_events branch !! i) with
                   | Some e => ev_seq e | None => N.of_nat i end = N.of_nat i).
    { destruct (js_events base !! i) as [a|] eqn:Ea; simpl; [by apply Hb|].
      destruct (js_events branch !! i) as [b|] eqn:Eb; simpl; [by apply Hr|done]. }
    rewrite Hseq, !filter_placed_from by done. exists i.
    split_and!; [done| |done|by rewrite take_drop|by rewrite take_drop|].
    + intros j Hj. apply parts_at_false, Hbefore. lia.
    + intros Hnil%(f_equal length). rewrite length_app, !length_drop in Hnil. simpl in Hnil. lia.
  - apply divergence_index_None in Hd as [Hl Ha]. done.
Qed.

(** ** Channel differences *)

Lemma key_union_elem (a b : list (string * Value)) (k : string) :
  k ∈ key_union a b <-> is_Some (BTree.get k a) \/ is_Some (BTree.get k b).
Proof.
  unfold key_union.
  assert (Hkeys : forall m : list (string * ()), k ∈ m.*1 <-> BTree.get k m <> None).
  { intros m. rewrite BTree.get_None_notin. split; [tauto|]. intros Hn.
    destruct (decide (k ∈ m.*1)); [done|contradiction]. }
  assert (Hget : forall m : list (string * Value), is_Some (BTree.get k m) <-> k ∈ m.*1).
  { intros m. rewrite <- not_eq_None_Some, BTree.get_None_notin. split; [|tauto]. intros Hn.
    destruct (decide (k ∈ m.*1)); [done|contradiction]. }
  rewrite Hkeys, !Hget, <- elem_of_app. unfold BTree.from_list. rewrite BTree.get_fold_insert.
  simpl. generalize (a.*1 ++ b.*1)%list. intros l. clear Hkeys Hget.
  assert (Hr : k ∈ l <-> BTree.get k (reverse (map (fun k => (k, ())) l)) <> None).
  { rewrite BTree.get_None_notin, fmap_reverse, elem_of_reverse.
    assert (Hid : (map (fun k0 => (k0, ())) l).*1 = l) by (clear; induction l as [|x l IH]; simpl; [done|f_equal; exact IH]).
    rewrite Hid. split; [tauto|]. intros Hn. by destruct (decide (k ∈ l)). }
  rewrite Hr. by destruct (BTree.get k (reverse _)).
Qed.

Lemma diff_channels_elem (base branch : list (string * Value)) (c : ChannelDiff) :
  c ∈ diff_channels base branch <->
  cd_base c = BTree.get (cd_channel c) base /\ cd_branch c = BTree.get (cd_channel c) branch
  /\ opt_eqb value_eqb (cd_base c) (cd_branch c) = false.
Proof.
  unfold diff_channels. rewrite list_elem_of_omap. split.
  - intros (k & _ & Hc). destruct (opt_eqb value_eqb _ _) eqn:He; [done|].
    injection Hc as <-. simpl. done.
  - destruct c as [k b r]. simpl. intros (-> & -> & Hne). exists k. rewrite Hne. split; [|done].
    apply key_union_elem. destruct (BTree.get k base), (BTree.get k branch); simpl in Hne; eauto.
    done.
Qed.

(** The recorded value of a channel at the end of a step. *)
Definition channel_at (s : JournalSnapshot) (step : N) (k : string) : option Value :=
  BTree.get k (default [] (step_channel_values s !! step)).

(** The per-step report is exactly the set of disagreements: a channel is
    listed under a step, with the two recorded values, if and only if the
    journals' super-step-end records of that step differ on it (in value or
    in presence), and no step is listed without such a channel. *)
Theorem diff_steps_exact (base branch : JournalSnapshot) :
  (forall step c,
    (exists sd, sd ∈ diff_steps base branch /\ sd_step sd = step /\ c ∈ sd_channels sd) <->
    cd_base c = channel_at base step (cd_channel c)
    /\ cd_branch c = channel_at branch step (cd_channel c)
    /\ opt_eqb value_eqb (cd_base c) (cd_branch c) = false)
  /\ Forall (fun sd => sd_channels sd <> []) (diff_steps base branch).
Proof.
  unfold diff_steps, channel_at. set (bs := step_channel_values base).
  set (rs := step_channel_values branch). split.
  - intros step c. rewrite <- diff_channels_elem. split.
    + intros (sd & (st & _ & Hsd)%list_elem_of_omap & Hstep & Hc).
      destruct (diff_channels _ _) as [|x l] eqn:Hl; [done|]. injection Hsd as <-.
      simpl in Hstep, Hc. subst st. by rewrite Hl.
    + intros Hc. destruct (diff_channels (default [] (bs !! step)) (default [] (rs !! step)))
        as [|x l] eqn:Hl; [by apply elem_of_nil in Hc|].
      exists (mkStepDiff step (x :: l)). split; [|done]. apply list_elem_of_omap. exists step.
      rewrite Hl. split; [|done]. unfold step_union. rewrite sort_by_elem, elem_of_elements.
      apply elem_of_union. rewrite !elem_of_dom.
      destruct (bs !! step) eqn:Eb; [left; eauto|]. destruct (rs !! step) eqn:Er; [right; eauto|].
      done.
  - apply Forall_forall. intros sd (st & _ & Hsd)%list_elem_of_omap.
    destruct (diff_channels _ _); [done|]. by injection Hsd as <-.
Qed.

(** ** A verified replay has no diff *)


(** Equal up to the sign of zero. *)
Lemma payload_eqb_resolve (sa sb : list (string * Value)) (p q : option PayloadRef) :
  Forall2 (fun x y => x.1 = y.1 /\ x.2 ≡ y.2) sa sb -> opt_eqb payload_eqb p q = true ->
  opt_eqb value_eqb (resolve_opt sa p) (resolve_opt sb q) = true.
Proof.
  intros Hart. destruct p as [[v|r]|], q as [[w|r']|]; simpl; try done.
  intros ->%bool_decide_eq_true. induction Hart as [|[k v] [k' w] sa sb [Hk Hv] _ IH]; [done|].
  simpl in *. subst k'. destruct (String.eqb _ k); [|exact IH]. simpl. by apply value_eqb_spec.
Qed.

Lemma event_eqb_logical (a b : RunEvent) (sa sb : JournalSnapshot) :
  Forall2 (fun x y => x.1 = y.1 /\ x.2 ≡ y.2) (js_artifacts sa) (js_artifacts sb) ->
  event_eqb a b = true -> logically_equal a sa b sb = true.
Proof.
  intros Hart. unfold event_eqb, logically_equal. rewrite !andb_true_iff, !bool_decide_eq_true.
  intros ((((((((((((((? & ?) & ?) & ?) & ?) & ?) & ?) & Hi) & Ho) & ?) & ?) & ?) & ?) & ?) & ?).
  split_and!; try done; by apply payload_eqb_resolve.
Qed.

(** A replay that passes [verify] has an empty branch diff against its
    recording: no divergence point, nothing added, nothing removed. *)
Theorem verified_replay_identical `{Codec, TimeParse} (recorded replayed : JournalSnapshot)
    (source : ReplaySource) :
  verify recorded source replayed = Ok () ->
  is_identical (between recorded replayed) = true
  /\ bd_added (between recorded replayed) = [] /\ bd_removed (between recorded replayed) = [].
Proof.
  intros [_ _ _ _ He Ha _]%verify_spec.
  assert (Hd : divergence_index recorded replayed = None).
  { apply divergence_index_None. split; [by eapply Forall2_length|]. intros i Hi.
    apply lookup_lt_is_Some in Hi as [a Hla].
    destruct (Forall2_lookup_l _ _ _ _ _ He Hla) as (b & Hlb & Hab). exists a, b.
    split_and!; [done..|]. by apply event_eqb_logical. }
  unfold is_identical, between. simpl. by rewrite Hd.
Qed.

(** ** Totals *)

(** The exact sum of one counter over the events. *)
Definition counter_sum (f : Usage -> N) (es : list RunEvent) : N :=
  foldr (fun e n => (match ev_tokens e with Some u => f u | None => 0 end + n)%N) 0%N es.

Lemma totals_counter (f : Usage -> N) (es : list RunEvent) (t : BranchTotals) :
  (forall x y, f (add_usage x y) = saturating_add (f x) (f y)) -> (f (bt_tokens t) <= u64_max)%N ->
  f (bt_tokens (fold_left total_event es t)) = N.min (f (bt_tokens t) + counter_sum f es) u64_max.
Proof.
  intros Hf. revert t. induction es as [|e es IH]; intros t Ht; simpl; [lia|].
  rewrite IH; unfold total_event; simpl; destruct (ev_tokens e) as [u|]; rewrite ?Hf;
    unfold saturating_add; lia.
Qed.

(** A branch's token totals are the exact sums of its events' counters,
    capped at [u64::MAX], and its event count is the journal's length. *)
Theorem totals_exact (s : JournalSnapshot) :
  bt_events (totals s) = length (js_events s)
  /\ Forall (fun f => f (bt_tokens (totals s)) = N.min (counter_sum f (js_events s)) u64_max)
       [prompt_tokens; completion_tokens; total_tokens].
Proof.
  unfold totals. split.
  - generalize (mkBranchTotals (length (js_events s)) (mkUsage 0 0 0 None None) (S754_zero false))
      (eq_refl : bt_events (mkBranchTotals (length (js_events s)) (mkUsage 0 0 0 None None)
                              (S754_zero false)) = length (js_events s)).
    generalize (length (js_events s)). intros n. induction (js_events s) as [|e es IH]; [done|].
    intros t Ht. simpl. by apply IH.
  - repeat constructor; rewrite totals_counter; try done; by simpl.
Qed.

(** ** The shadow's recorded world *)

(** [JournalShadowSource]: each tool's recorded calls, as request hash and
    output, in sequence order. *)
Abbreviation ShadowQueues := (list (string * list (string * Value))).

#[local] Arguments content_hash : simpl never.

Section Shadow.
Context `{Codec}.

(** What one event of the journal queues: a tool call whose request resolves
    and names its tool. *)
Definition shadow_entry (artifacts : list (string * Value)) (e : RunEvent) :
    option (string * (string * Value)) :=
  if bool_decide (ev_kind e = KToolCall)
  then input ← resolve_opt artifacts (ev_input e);
       name ← vget "tool" input; tool ← as_str name;
       hash ← content_hash (Inline input);
       Some (tool, (hash, default Null (resolve_opt artifacts (ev_output e))))
  else None.

(** [queues.entry(tool).or_default().push_back(..)]. *)
Definition push_back (q : ShadowQueues) (tool : string) (x : string * Value) : ShadowQueues :=
  BTree.insert tool (default [] (BTree.get tool q) ++ [x])%list q.

(** [JournalShadowSource::new]. *)
Definition shadow_new (s : JournalSnapshot) : ShadowQueues :=
  fold_left (fun q e =>
    match shadow_entry (js_artifacts s) e with
    | Some (tool, x) => push_back q tool x
    | None => q
    end) (js_events s) [].

(** [JournalShadowSource::unrequested]. *)
Definition unrequested (q : ShadowQueues) : list string :=
  map fst (List.filter (fun kv => match kv.2 with [] => false | _ => true end) q).

(** [impl ShadowOutcomeSource for JournalShadowSource]. *)
Definition shadow_serve (kind : string) (request : Value) (q : ShadowQueues) :
    option Value * ShadowQueues :=
  match content_hash (Inline request) with
  | None => (None, q)
  | Some hash =>
      match BTree.get kind q with
      | Some ((front, output) :: rest) =>
          if String.eqb front hash then (Some output, BTree.insert kind rest q) else (None, q)
      | _ => (None, q)
      end
  end.

(** A sequence of calls of a shadow run, with what each was answered. *)
Fixpoint shadow_run (calls : list (string * Value)) (q : ShadowQueues) :
    list (option Value) * ShadowQueues :=
  match calls with
  | [] => ([], q)
  | (kind, request) :: rest =>
      let '(out, q1) := shadow_serve kind request q in
      let '(outs, q2) := shadow_run rest q1 in
      (out :: outs, q2)
  end.

(** *** The abstract queues *)

(** The recorded calls of one tool. *)
Definition recorded_calls (s : JournalSnapshot) (tool : string) : list (string * Value) :=
  omap (fun e => match shadow_entry (js_artifacts s) e with
                 | Some (t, x) => if String.eqb t tool then Some x else None
                 | None => None
                 end) (js_events s).

(** The queue of a tool. *)
Definition queue (tool : string) (q : ShadowQueues) : list (string * Value) :=
  default [] (BTree.get tool q).

(** What a run of calls was served under one tool: the hash and output of
    each answered call. *)
Definition served_under (tool : string) (calls : list (string * Value))
    (outs : list (option Value)) : list (string * Value) :=
  omap (fun '((kind, request), out) =>
    if String.eqb kind tool
    then hash ← content_hash (Inline request); o ← out; Some (hash, o)
    else None) (zip calls outs).

Lemma queue_insert (tool k : string) (l : list (string * Value)) (q : ShadowQueues) :
  queue tool (BTree.insert k l q) = if String.eqb tool k then l else queue tool q.
Proof. unfold queue. rewrite BTree.get_insert. by destruct (String.eqb tool k). Qed.

Lemma shadow_new_queue (s : JournalSnapshot) (tool : string) :
  queue tool (shadow_new s) = recorded_calls s tool.
Proof.
  unfold shadow_new, recorded_calls.
  assert (Hgen : forall es q,
    queue tool (fold_left (fun q e => match shadow_entry (js_artifacts s) e with
      | Some (t, x) => push_back q t x | None => q end) es q)
    = (queue tool q ++ omap (fun e => match shadow_entry (js_artifacts s) e with
         | Some (t, x) => if String.eqb t tool then Some x else None | None => None end) es)%list).
  { induction es as [|e es IH]; intros q; [by rewrite app_nil_r|]. csimpl. rewrite IH. clear IH.
    destruct (shadow_entry _ e) as [[t x]|]; [|done]. unfold push_back. rewrite queue_insert.
    rewrite (String.eqb_sym tool t). destruct (String.eqb_spec t tool) as [->|]; [|done].
    by rewrite <- app_assoc. }
  by rewrite Hgen.
Qed.

(** One call: the front of its tool's queue, or nothing. *)
Lemma shadow_serve_spec (kind : string) (request : Value) (q q' : ShadowQueues)
    (out : option Value) (tool : string) :
  shadow_serve kind request q = (out, q') ->
  queue tool q = (match (if String.eqb kind tool
                         then hash ← content_hash (Inline request); o ← out; Some (hash, o)
                         else None) with Some x => [x] | None => [] end ++ queue tool q')%list.
Proof.
  unfold shadow_serve. destruct (content_hash (Inline request)) as [h|] eqn:Hh;
    [|intros [= <- <-]; by destruct (String.eqb kind tool)].
  destruct (BTree.get kind q) as [[|[front output] rest]|] eqn:Hg;
    try (intros [= <- <-]; by destruct (String.eqb kind tool)).
  destruct (String.eqb_spec front h) as [->|]; intros [= <- <-];
    [|by destruct (String.eqb kind tool)].
  rewrite queue_insert, (String.eqb_sym tool kind).
  destruct (String.eqb_spec kind tool) as [->|]; [|done]. unfold queue. by rewrite Hg.
Qed.

Lemma shadow_run_spec (calls : list (string * Value)) (q q' : ShadowQueues)
    (outs : list (option Value)) (tool : string) :
  shadow_run calls q = (outs, q') ->
  queue tool q = (served_under tool calls outs ++ queue tool q')%list.
Proof.
  revert q outs. induction calls as [|[kind request] calls IH]; intros q outs; simpl.
  - by intros [= <- <-].
  - destruct (shadow_serve kind request q) as [out q1] eqn:Hs.
    destruct (shadow_run calls q1) as [outs1 q2] eqn:Hr. intros [= <- <-].
    rewrite (shadow_serve_spec _ _ _ _ _ tool Hs), (IH _ _ Hr). unfold served_under. csimpl.
    by destruct (if String.eqb kind tool then _ else None).
Qed.

Lemma unrequested_spec (q : ShadowQueues) (tool : string) :
  BTree.Sorted q -> tool ∈ unrequested q <-> queue tool q <> [].
Proof.
  intros Hs. unfold unrequested, queue. rewrite list_elem_of_In, in_map_iff.
  setoid_rewrite filter_In. split.
  - intros ([k l] & <- & Hin & Hne). apply list_elem_of_In in Hin.
    apply BTree.get_In_NoDup in Hin; [|by apply BTree.Sorted_NoDup]. simpl. rewrite Hin. simpl.
    by destruct l.
  - destruct (BTree.get tool q) as [l|] eqn:Hg; simpl; [|done]. intros Hne. exists (tool, l).
    split_and!; [done|by apply list_elem_of_In, BTree.get_Some_In|by destruct l].
Qed.

Lemma shadow_new_Sorted (s : JournalSnapshot) : BTree.Sorted (shadow_new s).
Proof.
  unfold shadow_new. generalize (js_events s). intros es.
  assert (Hq : BTree.Sorted ([] : ShadowQueues)) by constructor. revert Hq.
  generalize ([] : ShadowQueues). induction es as [|e es IH]; intros q Hq; [done|]. simpl.
  apply IH. destruct (shadow_entry _ e) as [[t x]|]; [|done]. by apply BTree.insert_Sorted.
Qed.

Lemma shadow_run_Sorted (calls : list (string * Value)) (q : ShadowQueues) :
  BTree.Sorted q -> BTree.Sorted (shadow_run calls q).2.
Proof.
  revert q. induction calls as [|[kind request] calls IH]; intros q Hq; [done|]. simpl.
  destruct (shadow_serve kind request q) as [out q1] eqn:Hs.
  assert (Hq1 : BTree.Sorted q1).
  { unfold shadow_serve in Hs. destruct (content_hash _); [|by simplify_eq].
    destruct (BTree.get kind q) as [[|[f o] rest]|]; try by simplify_eq.
    destruct (String.eqb f _); simplify_eq; [by apply BTree.insert_Sorted|done]. }
  specialize (IH q1 Hq1). by destruct (shadow_run calls q1).
Qed.

(** C29: a shadow run is answered from the source run's own history and
    nothing else: however its calls interleave, what it is served under a
    tool is a prefix of that tool's recorded calls, in recorded order, each
    for a request with the recorded request's digest; what is left in the
    queue is the rest; and the tools reported unrequested are exactly those
    with recorded calls left. *)
Theorem shadow_serves_history (s : JournalSnapshot) (calls : list (string * Value))
    (outs : list (option Value)) (q : ShadowQueues) :
  shadow_run calls (shadow_new s) = (outs, q) ->
  forall tool,
    recorded_calls s tool = (served_under tool calls outs ++ queue tool q)%list
    /\ (tool ∈ unrequested q <->
        (length (served_under tool calls outs) < length (recorded_calls s tool))%nat).
Proof.
  intros Hrun tool. pose proof (shadow_run_spec _ _ _ _ tool Hrun) as Hq.
  rewrite shadow_new_queue in Hq. split; [done|].
  assert (Hs : BTree.Sorted q).
  { replace q with (shadow_run calls (shadow_new s)).2 by by rewrite Hrun.
    apply shadow_run_Sorted, shadow_new_Sorted. }
  rewrite (unrequested_spec q tool Hs), Hq, length_app.
  destruct (queue tool q); simpl; split; intros ?; try lia; done.
Qed.

(** The request digests issued under one tool, in order. *)
Definition issued_under (tool : string) (calls : list (string * Value)) : list string :=
  omap (fun '(kind, request) =>
    if String.eqb kind tool then content_hash (Inline request) else None) calls.

Context `{!CodecLaws}.

Lemma content_hash_total (v : Value) : exists h, content_hash (Inline v) = Some h.
Proof.
  destruct (to_vec_total (canonicalize_value v)) as [b Hb]. unfold content_hash. rewrite Hb. eauto.
Qed.

Lemma shadow_run_complete (calls : list (string * Value)) (q : ShadowQueues) :
  (forall tool, issued_under tool calls = map fst (queue tool q)) ->
  Forall is_Some (shadow_run calls q).1 /\ forall tool, queue tool (shadow_run calls q).2 = [].
Proof.
  revert q. induction calls as [|[kind request] calls IH]; intros q Hissued.
  - split; [constructor|]. intros tool. specialize (Hissued tool). simpl in *.
    by destruct (queue tool q).
  - destruct (content_hash_total request) as [h Hh].
    pose proof (Hissued kind) as Hk. unfold issued_under in Hk. csimpl in Hk.
    rewrite String.eqb_refl, Hh in Hk.
    destruct (queue kind q) as [|[front output] rest] eqn:Hq; [done|]. injection Hk as Hf Hrest.
    assert (Hserve : shadow_serve kind request q = (Some output, BTree.insert kind rest q)).
    { unfold shadow_serve. rewrite Hh. unfold queue in Hq.
      destruct (BTree.get kind q) as [l|]; simpl in Hq; [|done]. subst l front.
      by rewrite String.eqb_refl. }
    destruct (IH (BTree.insert kind rest q)) as [Hall Hempty].
    { intros tool. rewrite queue_insert. destruct (String.eqb_spec tool kind) as [->|Hne].
      - exact Hrest.
      - specialize (Hissued tool). unfold issued_under in Hissued. csimpl in Hissued.
        destruct (String.eqb_spec kind tool); [by subst|exact Hissued]. }
    simpl. rewrite Hserve. destruct (shadow_run calls (BTree.insert kind rest q)) as [outs q2].
    simpl in *. split; [constructor; [by eexists|done]|done].
Qed.

(** A shadow that makes the recorded calls is never refused: when the
    requests it issues under each tool are, in order, the recorded ones
    (however the tools interleave), every call is answered and nothing is
    left unrequested. *)
Theorem faithful_shadow_served (s : JournalSnapshot) (calls : list (string * Value)) :
  (forall tool, issued_under tool calls = map fst (recorded_calls s tool)) ->
  Forall is_Some (shadow_run calls (shadow_new s)).1
  /\ unrequested (shadow_run calls (shadow_new s)).2 = [].
Proof.
  intros Hissued. destruct (shadow_run_complete calls (shadow_new s)) as [Hall Hempty].
  { intros tool. by rewrite shadow_new_queue. }
  split; [done|].
  assert (Hs : BTree.Sorted (shadow_run calls (shadow_new s)).2)
    by apply shadow_run_Sorted, shadow_new_Sorted.
  destruct (unrequested _) as [|t l] eqn:Hu; [done|]. exfalso.
  assert (Hin : t ∈ unrequested (shadow_run calls (shadow_new s)).2) by (rewrite Hu; by left).
  apply unrequested_spec in Hin; [|done]. by rewrite Hempty in Hin.
Qed.
End Shadow.

(** ** Concrete diffs and shadow runs

    The theorems of [Branches] at recorded runs of the sample codec. *)

From S2P Require Import RecordReplay.

Module BranchExamples.
Import Sample ReplayExamples.

#[local] Existing Instance no_times.

(** Two branches that share their first call and part at the second. *)
Definition base : JournalSnapshot := snapshot (journal_of (two_calls "a" "b") live).
Definition branch : JournalSnapshot := snapshot (journal_of (two_calls "a" "c") live).

Lemma placed_two (s : JournalSnapshot) :
  map ev_seq (js_events s) = [0; 1]%N -> placed s.
Proof.
  intros Hs i e He. destruct (js_events s) as [|x [|y [|z l]]]; try done. injection Hs as Hx Hy.
  destruct i as [|[|i]]; simpl in He; by simplify_eq.
Qed.

Lemma between_cuts_witness :
  bd_first_divergent_seq (between base branch) = Some 1%N
  /\ exists i, 1%N = N.of_nat i /\ agree base branch i
     /\ js_events base = (take i (js_events base) ++ bd_removed (between base branch))%list.
Proof.
  assert (Hd : bd_first_divergent_seq (between base branch) = Some 1%N) by (vm_compute; reflexivity).
  split; [exact Hd|].
  pose proof (between_cuts base branch
    (placed_two base ltac:(vm_compute; reflexivity))
    (placed_two branch ltac:(vm_compute; reflexivity))) as Hcut.
  rewrite Hd in Hcut. destruct Hcut as (i & Hi & Ha & _ & Hb & _). exists i. exact (conj Hi (conj Ha Hb)).
Defined.

(** The journal replays itself. *)
Lemma verified_replay_identical_witness :
  let source := mkSource (rs_servable (source_new base)) (rs_nested (source_new base)) []
                  (js_artifacts base) 2 in
  is_identical (between base base) = true
  /\ bd_added (between base base) = [] /\ bd_removed (between base base) = [].
Proof.
  intros source. apply (verified_replay_identical base base source). vm_compute. reflexivity.
Defined.

(** A shadow of the run that calls [b] before [a]: the queues are per tool. *)
Definition shadow_calls : list (string * Value) :=
  [("b", tool_call_request "b" (Str "q")); ("a", tool_call_request "a" (Str "q"))].

Lemma shadow_serves_history_witness :
  (shadow_run shadow_calls (shadow_new base)).1 = [Some (Str "2"); Some (Str "1")]
  /\ recorded_calls base "a"
     = (served_under "a" shadow_calls (shadow_run shadow_calls (shadow_new base)).1
        ++ queue "a" (shadow_run shadow_calls (shadow_new base)).2)%list.
Proof.
  split; [vm_compute; reflexivity|].
  apply (shadow_serves_history base shadow_calls
    (shadow_run shadow_calls (shadow_new base)).1 (shadow_run shadow_calls (shadow_new base)).2).
  vm_compute. reflexivity.
Defined.

Lemma faithful_shadow_served_witness :
  unrequested (shadow_run shadow_calls (shadow_new base)).2 = [].
Proof.
  apply (faithful_shadow_served base shadow_calls). intros tool.
  assert (Hbase : recorded_calls base tool
    = omap (fun '(t, x) => if String.eqb t tool then Some x else None)
        (omap (shadow_entry (js_artifacts base)) (js_events base))).
  { unfold recorded_calls. induction (js_events base) as [|e es IH]; [done|]. csimpl.
    destruct (shadow_entry _ e) as [[t x]|]; csimpl; [|exact IH].
    destruct (String.eqb t tool); csimpl; [by f_equal|exact IH]. }
  rewrite Hbase. clear Hbase.
  set (entries := omap (shadow_entry (js_artifacts base)) (js_events base)).
  vm_compute in entries. unfold entries, shadow_calls, issued_under.
  cbn [omap list_omap].
  destruct (String.eqb_spec "a" tool) as [<-|]; [vm_compute; reflexivity|].
  destruct (String.eqb_spec "b" tool) as [<-|]; vm_compute; reflexivity.
Defined.

(** The queues do not look at the status of a recorded call: a call that
    failed in the source run is served to the shadow as a value, its error
    payload, where the source run saw an error. *)
Theorem shadow_serves_failure_as_value :
  let source := snapshot (journal_of (turn (failing "lookup")) live) in
  map ev_status (List.filter (fun e => bool_decide (ev_kind e = KToolCall)) (js_events source))
    = [StatusError]
  /\ (shadow_serve "lookup" (tool_call_request "lookup" (Str "q")) (shadow_new source)).1
     = Some (error_output (ETool "boom")).
Proof. split; vm_compute; reflexivity. Qed.

End BranchExamples.
