(* ===== verification/Durable.v ===== *)
(** * Durable work: retry and timeout decisions
      ([rusty-core/src/durable.rs], the policy contracts of
      [rusty-core/src/record.rs])

    The retry taxonomy, the jittered backoff, the executor policy with its
    envelopes, the resolution of a policy for one failure or one callee, and
    the decision evidence. Counters are [u32] or [u64] as [N]; the jitter is
    binary64. *)

From Stdlib Require Import String SpecFloat.
From S2P Require Import Prelude Containers Floats Json Error Record Meter.
Local Open Scope string_scope.

(** ** The taxonomy *)

(** [ErrorClass]. *)
Inductive ErrorClass : Type :=
| CTransient | CRateLimited | CTimeout | CInvalidInput
| CDependencyFailure | CResourceExhausted | CCancelled | CUnknown.

#[export] Instance ErrorClass_eq_dec : EqDecision ErrorClass.
Proof. solve_decision. Defined.

(** [Debug for ErrorClass] and its serde name. *)
Definition class_debug (c : ErrorClass) : string :=
  match c with
  | CTransient => "Transient" | CRateLimited => "RateLimited" | CTimeout => "Timeout"
  | CInvalidInput => "InvalidInput" | CDependencyFailure => "DependencyFailure"
  | CResourceExhausted => "ResourceExhausted" | CCancelled => "Cancelled"
  | CUnknown => "Unknown"
  end.

Definition class_name (c : ErrorClass) : string :=
  match c with
  | CTransient => "transient" | CRateLimited => "rate_limited" | CTimeout => "timeout"
  | CInvalidInput => "invalid_input" | CDependencyFailure => "dependency_failure"
  | CResourceExhausted => "resource_exhausted" | CCancelled => "cancelled"
  | CUnknown => "unknown"
  end.

(** [ErrorClass::is_retryable], [From<LlmErrorClass> for ErrorClass]. *)
Definition is_retryable (c : ErrorClass) : bool :=
  match c with CInvalidInput | CCancelled => false | _ => true end.

Definition class_of_llm (c : LlmErrorClass) : ErrorClass :=
  match c with
  | RateLimited => CRateLimited
  | LlmTimeout => CTimeout
  | Server => CDependencyFailure
  | Auth | InvalidRequest | Decode => CInvalidInput
  | LlmUnknown => CUnknown
  end.

(** [RetryDecision]. *)
Inductive RetryDecision : Type :=
| DRetry (after_ms : N)
| DDead
| DFail.

(** ** Backoff *)

Definition BASE_RETRY_DELAY_MS : N := 1000.
Definition MAX_RETRY_DELAY_MS : N := 300000.

(** [backoff_delay_ms_with]: [attempt] is a [u32], the rest [u64]. *)
Definition backoff_delay_ms_with (attempt : N) (uniform : spec_float) (base_ms cap_ms : N) : N :=
  let exponent := N.min (attempt - 1) 20 in
  let exponential := N.min (saturating_mul base_ms (N.shiftl 1 exponent)) cap_ms in
  u64_of_f64 (f64_times (f64_clamp01 uniform) (f64_of_N exponential)).

Definition backoff_delay_ms (attempt : N) (uniform : spec_float) : N :=
  backoff_delay_ms_with attempt uniform BASE_RETRY_DELAY_MS MAX_RETRY_DELAY_MS.

(** ** Executor policies *)

Definition POLICY_MAX_DELAY_ENVELOPE_MS : N := 3600000.
Definition POLICY_MAX_ATTEMPTS_ENVELOPE : N := 10.
Definition MIN_TIMEOUT_RUNG_MS : N := 100.

(** [BackoffParameters]. *)
Record BackoffParameters : Type := mkBackoff {
  bp_base_delay_ms : N;
  bp_max_delay_ms : N;
  bp_max_attempts : N;
}.

#[export] Instance BackoffParameters_eq_dec : EqDecision BackoffParameters.
Proof. solve_decision. Defined.

(** [BackoffParameters::validate]. *)
Definition backoff_validate (p : BackoffParameters) : res unit :=
  if (bp_base_delay_ms p =? 0)%N then
    Err (EInvalidUpdate ("backoff base_delay_ms must be positive — a zero base retries immediately, "
      ++ "a retry storm by another name"))
  else if (bp_max_delay_ms p <? bp_base_delay_ms p)%N then
    Err (EInvalidUpdate ("backoff base_delay_ms " ++ pretty (bp_base_delay_ms p)
      ++ " exceeds max_delay_ms " ++ pretty (bp_max_delay_ms p)
      ++ " — the schedule would clamp to the cap from the first retry, an exponential in name only"))
  else if (POLICY_MAX_DELAY_ENVELOPE_MS <? bp_max_delay_ms p)%N then
    Err (EInvalidUpdate ("backoff max_delay_ms " ++ pretty (bp_max_delay_ms p)
      ++ " exceeds the " ++ pretty POLICY_MAX_DELAY_ENVELOPE_MS ++ " ms envelope"))
  else if (POLICY_MAX_ATTEMPTS_ENVELOPE <? bp_max_attempts p)%N then
    Err (EInvalidUpdate ("backoff max_attempts " ++ pretty (bp_max_attempts p)
      ++ " exceeds the " ++ pretty POLICY_MAX_ATTEMPTS_ENVELOPE ++ "-attempt envelope"))
  else Ok ().

(** [RetryPolicyParameters]; [per_class] in key order. *)
Record RetryPolicyParameters : Type := mkRetryPolicy {
  rp_base_delay_ms : N;
  rp_max_delay_ms : N;
  rp_max_attempts : N;
  rp_per_class : option (list (ErrorClass * BackoffParameters));
}.

Definition flat (p : RetryPolicyParameters) : BackoffParameters :=
  mkBackoff (rp_base_delay_ms p) (rp_max_delay_ms p) (rp_max_attempts p).

(** The first error of a fallible loop. *)
Fixpoint try_each {A : Type} (f : A -> res unit) (l : list A) : res unit :=
  match l with [] => Ok () | x :: rest => f x;; try_each f rest end.

Definition class_entry_validate (entry : ErrorClass * BackoffParameters) : res unit :=
  match backoff_validate entry.2 with
  | Ok _ => Ok ()
  | Err e =>
      Err (EInvalidUpdate ("per-class backoff for " ++ class_debug entry.1 ++ ": " ++ error_text e))
  end.

(** [RetryPolicyParameters::validate]. *)
Definition retry_validate (p : RetryPolicyParameters) : res unit :=
  backoff_validate (flat p);;
  match rp_per_class p with
  | Some table => try_each class_entry_validate table
  | None => Ok ()
  end.

(** [TimeoutPolicyParameters]; [per_callee] is a [BTreeMap]. *)
Record TimeoutPolicyParameters : Type := mkTimeoutPolicy {
  tp_default_millis : option N;
  tp_max_millis : option N;
  tp_per_callee : option (list (string * N));
}.

(** The closure [check_floor], and one per-callee entry. *)
Definition check_floor (what : string) (millis : N) : res unit :=
  if (millis <? MIN_TIMEOUT_RUNG_MS)%N then
    Err (EInvalidUpdate ("timeout " ++ what ++ " " ++ pretty millis ++ " ms is below the "
      ++ pretty MIN_TIMEOUT_RUNG_MS
      ++ " ms minimum rung — below it ordinary work aborts early, a correctness hazard no policy may cross"))
  else Ok ().

Definition check_floor_opt (what : string) (o : option N) : res unit :=
  match o with Some millis => check_floor what millis | None => Ok () end.

Definition callee_validate (max : option N) (entry : string * N) : res unit :=
  check_floor ("per_callee[" ++ entry.1 ++ "]") entry.2;;
  match max with
  | Some max =>
      if (max <? entry.2)%N then
        Err (EInvalidUpdate ("timeout per_callee[" ++ entry.1 ++ "] " ++ pretty entry.2
          ++ " ms exceeds max_millis " ++ pretty max
          ++ " — a learned bound may only narrow the declared ceiling"))
      else Ok ()
  | None => Ok ()
  end.

(** [TimeoutPolicyParameters::validate]. *)
Definition timeout_validate (p : TimeoutPolicyParameters) : res unit :=
  check_floor_opt "default_millis" (tp_default_millis p);;
  check_floor_opt "max_millis" (tp_max_millis p);;
  match tp_default_millis p, tp_max_millis p with
  | Some default, Some max =>
      if (max <? default)%N then
        Err (EInvalidUpdate ("timeout default_millis " ++ pretty default ++ " exceeds max_millis "
          ++ pretty max ++ " — the default bound would sit above its own ceiling"))
      else Ok ()
  | _, _ => Ok ()
  end;;
  match tp_per_callee p with
  | Some table => try_each (callee_validate (tp_max_millis p)) table
  | None => Ok ()
  end.

(** [ConcurrencyPolicyParameters], [ExecutorPolicy]. *)
Record ConcurrencyPolicyParameters : Type := mkConcurrency { cp_max_parallel : option N }.

Record ExecutorPolicy : Type := mkPolicyBundle {
  ep_retry : RetryPolicyParameters;
  ep_timeout : TimeoutPolicyParameters;
  ep_concurrency : ConcurrencyPolicyParameters;
}.

(** [ExecutorPolicy::static_v0]. *)
Definition static_v0 : ExecutorPolicy :=
  mkPolicyBundle (mkRetryPolicy BASE_RETRY_DELAY_MS MAX_RETRY_DELAY_MS 3 None)
    (mkTimeoutPolicy None None None) (mkConcurrency None).

(** [ExecutorPolicy::validate]. *)
Definition policy_validate (p : ExecutorPolicy) : res unit :=
  retry_validate (ep_retry p);;
  timeout_validate (ep_timeout p);;
  match cp_max_parallel (ep_concurrency p) with
  | Some 0%N =>
      Err (EInvalidUpdate ("concurrency max_parallel 0 admits no work at all — a policy that halts the "
        ++ "fleet is not a learning outcome, it is an outage"))
  | _ => Ok ()
  end.

(** [DecisionFamily]. *)
Inductive DecisionFamily : Type :=
| FRetry | FTimeout | FWorkerPlacement | FConcurrency | FCheckpointPlacement.

Definition family_debug (f : DecisionFamily) : string :=
  match f with
  | FRetry => "Retry" | FTimeout => "Timeout" | FWorkerPlacement => "WorkerPlacement"
  | FConcurrency => "Concurrency" | FCheckpointPlacement => "CheckpointPlacement"
  end.

(** The derived [Deserialize] of the three parameter types; an error is its
    text. *)
Class PolicyFormat : Type := {
  retry_from_value : Value -> result string RetryPolicyParameters;
  timeout_from_value : Value -> result string TimeoutPolicyParameters;
  concurrency_from_value : Value -> result string ConcurrencyPolicyParameters;
}.

(** A parse, then a check, each error wrapped with its phase. *)
Definition parsed_within {A : Type} (family : string) (parsed : result string A)
    (check : A -> res unit) : res A :=
  match parsed with
  | Err e => Err (EInvalidUpdate (family ++ " policy parameters do not match the contract: " ++ e))
  | Ok p =>
      match check p with
      | Ok _ => Ok p
      | Err e =>
          Err (EInvalidUpdate (family ++ " policy parameters fall outside the envelope: "
                               ++ error_text e))
      end
  end.

(** [ExecutorPolicy::with_family_parameters]. *)
Definition with_family_parameters `{PolicyFormat} (p : ExecutorPolicy) (family : DecisionFamily)
    (parameters : Value) : res ExecutorPolicy :=
  match family with
  | FRetry =>
      r ← parsed_within "retry" (retry_from_value parameters) retry_validate;
      Ok (mkPolicyBundle r (ep_timeout p) (ep_concurrency p))
  | FTimeout =>
      t ← parsed_within "timeout" (timeout_from_value parameters) timeout_validate;
      Ok (mkPolicyBundle (ep_retry p) t (ep_concurrency p))
  | FConcurrency =>
      match concurrency_from_value parameters with
      | Err e =>
          Err (EInvalidUpdate ("concurrency policy parameters do not match the contract: " ++ e))
      | Ok c =>
          match cp_max_parallel c with
          | Some 0%N =>
              Err (EInvalidUpdate ("concurrency policy parameters fall outside the envelope: "
                                   ++ "max_parallel 0 admits no work at all"))
          | _ => Ok (mkPolicyBundle (ep_retry p) (ep_timeout p) c)
          end
      end
  | other =>
      Err (EInvalidUpdate ("decision family `" ++ family_debug other
        ++ "` has no executor-policy parameter contract in this version"))
  end.

(** ** Retry decisions *)

(** [ResolvedRetryParameters], [floor]. *)
Record ResolvedRetryParameters : Type := mkResolved {
  rr_base_delay_ms : N;
  rr_max_delay_ms : N;
  rr_max_attempts : N;
}.

Definition retry_floor (max_attempts : N) : ResolvedRetryParameters :=
  mkResolved BASE_RETRY_DELAY_MS MAX_RETRY_DELAY_MS max_attempts.

(** [BTreeMap::get] at an error class. *)
Fixpoint class_get (c : ErrorClass) (table : list (ErrorClass * BackoffParameters)) :
    option BackoffParameters :=
  match table with
  | [] => None
  | (k, v) :: rest => if decide (k = c) then Some v else class_get c rest
  end.

Definition narrowed (p : BackoffParameters) (task_max_attempts : N) : ResolvedRetryParameters :=
  mkResolved (bp_base_delay_ms p) (bp_max_delay_ms p) (N.min (bp_max_attempts p) task_max_attempts).

(** [resolve_retry_parameters]. *)
Definition resolve_retry_parameters (policy : ExecutorPolicy) (class : ErrorClass)
    (task_max_attempts : N) : ResolvedRetryParameters :=
  let retry := ep_retry policy in
  if negb (is_ok (retry_validate retry)) then retry_floor task_max_attempts
  else
    let floor_flat := flat (ep_retry static_v0) in
    let flat_learned := negb (bool_decide (flat retry = floor_flat)) in
    match rp_per_class retry ≫= class_get class, flat_learned with
    | Some schedule, _ => narrowed schedule task_max_attempts
    | None, true => narrowed (flat retry) task_max_attempts
    | None, false => retry_floor task_max_attempts
    end.

(** [classify_retry_with_policy], [classify_retry]. *)
Definition classify_retry_with_policy (effect : Effect) (class : ErrorClass) (attempt : N)
    (resolved : ResolvedRetryParameters) (uniform : spec_float) : RetryDecision :=
  if negb (is_freely_repeatable effect) || negb (is_retryable class) then DFail
  else if (rr_max_attempts resolved <=? attempt)%N then DDead
  else DRetry (backoff_delay_ms_with attempt uniform (rr_base_delay_ms resolved)
                 (rr_max_delay_ms resolved)).

Definition classify_retry (effect : Effect) (class : ErrorClass) (attempt max_attempts : N)
    (uniform : spec_float) : RetryDecision :=
  classify_retry_with_policy effect class attempt (retry_floor max_attempts) uniform.

(** ** Decision evidence *)

(** [DecisionAction], [DecisionOutcome], [DecisionRole]. *)
Inductive DecisionAction : Type :=
| ActRetry (attempt : N)
| ActAbort
| ActSetTimeout (millis : N)
| ActSelectWorker (worker : string)
| ActSetConcurrency (limit : N)
| ActWriteCheckpoint
| ActSkipCheckpoint.

Inductive DecisionOutcome : Type := OSuccess | OFailure | OCancelled.
Inductive DecisionRole : Type := RActing | RShadow.

(** [DecisionEvent]. *)
Record DecisionEvent : Type := mkDecision {
  de_id : string;
  de_run_id : string;
  de_thread_id : string;
  de_seq : N;
  de_family : DecisionFamily;
  de_features : list (string * Value);
  de_legal_actions : list DecisionAction;
  de_selected : DecisionAction;
  de_propensity : spec_float;
  de_policy_version : PolicyVersion;
  de_role : option DecisionRole;
  de_outcome : option DecisionOutcome;
  de_decided_at : DateTime;
}.

(** [u32] addition of a release build. *)
Definition u32_succ (n : N) : N := ((n + 1) mod 2 ^ 32)%N.

(** [retry_legal_actions], [retry_selected_action]. *)
Definition retry_legal_actions (effect : Effect) (class : ErrorClass) (attempt max_attempts : N) :
    list DecisionAction :=
  if is_freely_repeatable effect && is_retryable class && (attempt <? max_attempts)%N
  then [ActRetry (u32_succ attempt); ActAbort]
  else [ActAbort].

Definition retry_selected_action (decision : RetryDecision) (attempt : N) : DecisionAction :=
  match decision with
  | DRetry _ => ActRetry (u32_succ attempt)
  | DDead | DFail => ActAbort
  end.

(** [retry_decision_event]. *)
Definition retry_decision_event (run_id thread_id : string) (seq : N) (effect : Effect)
    (class : ErrorClass) (attempt max_attempts : N) (dependency_latency_ms : option N)
    (decision : RetryDecision) (policy_version : PolicyVersion) (decided_at : DateTime) :
    DecisionEvent :=
  mkDecision (run_id ++ ":d" ++ pretty seq) run_id thread_id seq FRetry
    (BTree.from_list
       ([("failure_class", Str (class_name class)); ("attempt", jN attempt);
         ("max_attempts", jN max_attempts); ("effect", Str (effect_name effect))]
        ++ jopt "dependency_latency_ms" (jN <$> dependency_latency_ms))%list)
    (retry_legal_actions effect class attempt max_attempts)
    (retry_selected_action decision attempt)
    f64_one policy_version None
    (match decision with DRetry _ => None | DDead | DFail => Some OFailure end)
    decided_at.

(** ** Timeouts *)

(** [LatencyPercentiles]. *)
Record LatencyPercentiles : Type := mkPercentiles {
  lp_p50_ms : N; lp_p95_ms : N; lp_p99_ms : N; lp_samples : N;
}.

(** [resolve_timeout_bound_ms]. *)
Definition resolve_timeout_bound_ms (policy : ExecutorPolicy) (callee : option string) : option N :=
  let timeout := ep_timeout policy in
  if negb (is_ok (timeout_validate timeout)) then None
  else
    let learned := name ← callee; table ← tp_per_callee timeout; BTree.get name table in
    bound ← match learned with Some b => Some b | None => tp_default_millis timeout end;
    Some (N.min (N.max bound MIN_TIMEOUT_RUNG_MS) (default u64_max (tp_max_millis timeout))).

(** [timeout_legal_actions], [timeout_selected_action]. *)
Definition timeout_legal_actions (ladder : list N) : list DecisionAction :=
  map ActSetTimeout ladder.

Definition timeout_selected_action (bound : option N) (ladder : list N) : DecisionAction :=
  ActSetTimeout
    match bound with
    | Some bound =>
        match find (fun rung => bound <=? rung)%N ladder with
        | Some rung => rung
        | None => default bound (last ladder)
        end
    | None => default MIN_TIMEOUT_RUNG_MS (last ladder)
    end.

(** [timeout_decision_event]. *)
Definition timeout_decision_event (run_id thread_id : string) (seq : N) (callee : option string)
    (effect : Effect) (attempt : N) (percentiles : option LatencyPercentiles) (bound_ms : option N)
    (ladder : list N) (policy_version : PolicyVersion) (decided_at : DateTime) : DecisionEvent :=
  mkDecision (run_id ++ ":d" ++ pretty seq) run_id thread_id seq FTimeout
    (BTree.from_list
       (jopt "callee" (Str <$> callee)
        ++ [("effect", Str (effect_name effect)); ("attempt", jN attempt)]
        ++ match percentiles with
           | Some p => [("latency_p50_ms", jN (lp_p50_ms p)); ("latency_p95_ms", jN (lp_p95_ms p));
                        ("latency_p99_ms", jN (lp_p99_ms p)); ("latency_samples", jN (lp_samples p))]
           | None => []
           end
        ++ [("bound_ms", jnull (jN <$> bound_ms))])%list)
    (timeout_legal_actions ladder) (timeout_selected_action bound_ms ladder)
    f64_one policy_version None None decided_at.

(** ** Theorems about retry and timeout decisions

    The jittered backoff against its exact window, what a learned policy can
    and cannot change, and the legality of the recorded decisions. *)

Local Close Scope string_scope.

(** ** Backoff *)

(** The window of one retry: [base * 2^(n-1)], the exponent capped at twenty,
    capped at [cap]. *)
Definition window (attempt base cap : N) : N :=
  N.min (base * 2 ^ N.min (attempt - 1) 20) cap.

Lemma window_saturating attempt base cap :
  (cap <= u64_max)%N ->
  N.min (saturating_mul base (N.shiftl 1 (N.min (attempt - 1) 20))) cap = window attempt base cap.
Proof.
  intros Hc. unfold window, saturating_mul. rewrite N.shiftl_1_l. lia.
Qed.

Lemma backoff_le_window attempt uniform base cap :
  valid_binary 53 1024 uniform = true -> (cap < 2 ^ 53)%N ->
  (backoff_delay_ms_with attempt uniform base cap <= cap)%N.
Proof.
  intros Hu Hc. unfold backoff_delay_ms_with.
  rewrite window_saturating by (unfold u64_max; lia).
  assert (Hle : (window attempt base cap <= cap)%N) by apply N.le_min_r.
  destruct (clamped_product uniform (window attempt base cap) Hu) as [[_ Hd] _].
  - by eapply N.le_lt_trans.
  - apply N2Z.inj_le. etransitivity; [exact Hd|]. by apply N2Z.inj_le.
Qed.

(** The backoff is full jitter over the doubling window. For every [f64]
    jitter (NaN and out-of-range ones included), attempt ordinal, base and
    cap whose window is below [2^53] ms, the delay is the exact product of
    the clamped jitter and the window up to one rounding: at least its floor,
    at most one more, and never past the window. *)
Theorem backoff_within_window (attempt : N) (uniform : spec_float) (base cap : N) :
  valid_binary 53 1024 uniform = true -> (cap <= u64_max)%N ->
  (window attempt base cap < 2 ^ 53)%N ->
  let w := Z.of_N (window attempt base cap) in
  let d := Z.of_N (backoff_delay_ms_with attempt uniform base cap) in
  (fraction_floor uniform w <= d <= w)%Z /\ (d <= fraction_floor uniform w + 1)%Z.
Proof.
  intros Hu Hc Hw. cbv zeta. unfold backoff_delay_ms_with. rewrite window_saturating by done.
  by apply clamped_product.
Qed.

(** ** Policies *)

Lemma backoff_validate_Ok p :
  backoff_validate p = Ok () ->
  (0 < bp_base_delay_ms p <= bp_max_delay_ms p)%N
  /\ (bp_max_delay_ms p <= POLICY_MAX_DELAY_ENVELOPE_MS)%N
  /\ (bp_max_attempts p <= POLICY_MAX_ATTEMPTS_ENVELOPE)%N.
Proof.
  unfold backoff_validate. repeat case_match; intros ?; try discriminate.
  repeat match goal with
  | H : (_ =? _)%N = false |- _ => apply N.eqb_neq in H
  | H : (_ <? _)%N = false |- _ => apply N.ltb_ge in H
  end. lia.
Qed.

Lemma try_each_Ok {A} (f : A -> res unit) l :
  try_each f l = Ok () -> Forall (fun x => f x = Ok ()) l.
Proof.
  induction l as [|x l IH]; intros Hl; [constructor|]. simpl in Hl.
  apply bind_Ok in Hl as ([] & Hx & Hl). constructor; auto.
Qed.

Lemma class_get_elem c table s : class_get c table = Some s -> (c, s) ∈ table.
Proof.
  induction table as [|[k v] table IH]; simpl; [done|]. case_decide; [|set_solver].
  intros [= ->]. subst. set_solver.
Qed.

(** Every resolution is inside the envelope and inside the task's budget. *)
Lemma resolved_within policy class budget :
  let r := resolve_retry_parameters policy class budget in
  (0 < rr_base_delay_ms r <= rr_max_delay_ms r)%N
  /\ (rr_max_delay_ms r <= POLICY_MAX_DELAY_ENVELOPE_MS)%N /\ (rr_max_attempts r <= budget)%N.
Proof.
  cbv zeta. unfold resolve_retry_parameters.
  destruct (retry_validate (ep_retry policy)) as [[]|] eqn:Hv; simpl; [|done].
  apply bind_Ok in Hv as ([] & Hf%backoff_validate_Ok & Ht).
  destruct (rp_per_class (ep_retry policy)) as [table|]; simpl in *.
  - apply try_each_Ok in Ht. rewrite Forall_forall in Ht.
    destruct (class_get class table) as [s|] eqn:Hs; simpl.
    + apply class_get_elem, Ht in Hs. unfold class_entry_validate in Hs. simpl in Hs.
      destruct (backoff_validate s) as [[]|] eqn:Hb; [|done].
      apply backoff_validate_Ok in Hb. lia.
    + destruct (negb _); simpl in *; [lia|done].
  - destruct (negb _); simpl in *; [lia|done].
Qed.

(** No policy unlocks a retry. Whatever executor policy is active (valid
    or not), a failed attempt fails exactly when its effect is not freely
    repeatable or its class is not retryable; it is retried only within the
    task's own budget and after at most the envelope's hour; and with the
    static floor the decision is [classify_retry] itself. *)
Theorem policy_never_unlocks_retry (policy : ExecutorPolicy) (effect : Effect)
    (class : ErrorClass) (attempt budget : N) (uniform : spec_float) :
  valid_binary 53 1024 uniform = true ->
  let d := classify_retry_with_policy effect class attempt
             (resolve_retry_parameters policy class budget) uniform in
  (d = DFail <-> is_freely_repeatable effect = false \/ is_retryable class = false)
  /\ (forall ms, d = DRetry ms ->
        (attempt < budget)%N /\ (ms <= POLICY_MAX_DELAY_ENVELOPE_MS)%N)
  /\ classify_retry_with_policy effect class attempt
       (resolve_retry_parameters static_v0 class budget) uniform
     = classify_retry effect class attempt budget uniform.
Proof.
  intros Hu. cbv zeta. pose proof (resolved_within policy class budget) as Hr. cbv zeta in Hr.
  unfold classify_retry_with_policy.
  destruct (is_freely_repeatable effect) eqn:He, (is_retryable class) eqn:Hc; simpl;
    try (split_and!; [split; auto|done|by unfold classify_retry, classify_retry_with_policy; rewrite He, Hc]).
  destruct (N.leb_spec (rr_max_attempts (resolve_retry_parameters policy class budget)) attempt).
  { split_and!; [split; [done|by intros [?|?]]|done|].
    unfold classify_retry, classify_retry_with_policy. by rewrite He, Hc. }
  split_and!; [split; [done|by intros [?|?]]| |].
  - intros ms [= <-]. split; [lia|].
    etransitivity; [apply backoff_le_window; [done|]|apply Hr].
    unfold POLICY_MAX_DELAY_ENVELOPE_MS in Hr. lia.
  - unfold classify_retry, classify_retry_with_policy. by rewrite He, Hc.
Qed.

(** ** Evidence *)

(** A recorded retry decision is legal evidence. For a decision of the
    classifier under any resolution whose budget the event's budget covers,
    the selected action is a member of the recorded legal set, it is a retry
    exactly when the decision is one, its ordinal is the failed attempt plus
    one without wrap-around, and the outcome is left open exactly then. *)
Theorem retry_evidence_legal (run thread : string) (seq : N) (effect : Effect) (class : ErrorClass)
    (attempt budget : N) (resolved : ResolvedRetryParameters) (uniform : spec_float)
    (latency : option N) (version : PolicyVersion) (at_ : DateTime) :
  (rr_max_attempts resolved <= budget)%N -> (budget < 2 ^ 32)%N ->
  let d := classify_retry_with_policy effect class attempt resolved uniform in
  let e := retry_decision_event run thread seq effect class attempt budget latency d version at_ in
  de_selected e ∈ de_legal_actions e
  /\ ((exists ms, d = DRetry ms) <-> de_selected e = ActRetry (attempt + 1))
  /\ (de_outcome e = None <-> exists ms, d = DRetry ms).
Proof.
  intros Hb Hw. cbv zeta. unfold retry_decision_event. simpl.
  unfold classify_retry_with_policy, retry_legal_actions.
  destruct (is_freely_repeatable effect), (is_retryable class); simpl;
    try (split_and!; [set_solver|split; [by intros [??]|done]|split; [done|by intros [??]]]).
  destruct (N.leb_spec (rr_max_attempts resolved) attempt); simpl.
  - split_and!; [destruct (_ <? _)%N; set_solver|split; [by intros [??]|done]|split; [done|by intros [??]]].
  - destruct (N.ltb_spec attempt budget); [|lia]. unfold u32_succ.
    rewrite N.mod_small by lia. split_and!; [set_solver|split; eauto|split; eauto].
Qed.

(** A ladder that rises. *)
Definition ascending (ladder : list N) : Prop := StronglySorted N.le ladder.

Lemma find_first (f : N -> bool) l x :
  find f l = Some x -> x ∈ l /\ f x = true.
Proof. intros H. apply find_some in H as [Hin Hf]. by rewrite <- list_elem_of_In in Hin. Qed.

Lemma find_least bound l x :
  ascending l -> find (fun rung => bound <=? rung)%N l = Some x ->
  forall y, y ∈ l -> (bound <= y)%N -> (x <= y)%N.
Proof.
  unfold ascending. induction l as [|a l IH]; [done|]. simpl.
  intros [Hl Ha]%StronglySorted_inv Hf y Hy Hb. rewrite Forall_forall in Ha.
  destruct (N.leb_spec bound a).
  - injection Hf as ->. apply elem_of_cons in Hy as [->|Hy]; [done|auto].
  - apply elem_of_cons in Hy as [->|Hy]; [lia|eauto].
Qed.

(** Timeouts. A bound resolved from any policy lies between the minimum
    rung and the declared ceiling; on a non-empty ladder the recorded action is legal; on a rising one it is the
    smallest rung that covers the bound when one does, and the top rung
    otherwise. *)
Theorem timeout_decision_sound (policy : ExecutorPolicy) (callee : option string)
    (ladder : list N) :
  (forall b, resolve_timeout_bound_ms policy callee = Some b ->
     (MIN_TIMEOUT_RUNG_MS <= b)%N
     /\ (forall m, tp_max_millis (ep_timeout policy) = Some m -> (b <= m)%N))
  /\ (ladder <> [] -> forall bound,
      timeout_selected_action bound ladder ∈ timeout_legal_actions ladder)
  /\ (ascending ladder -> forall b r, r ∈ ladder -> (b <= r)%N ->
      exists s, timeout_selected_action (Some b) ladder = ActSetTimeout s /\ s ∈ ladder
        /\ (b <= s)%N /\ (s <= r)%N).
Proof.
  split_and!.
  - intros b. unfold resolve_timeout_bound_ms.
    destruct (timeout_validate (ep_timeout policy)) as [[]|] eqn:Hv; [|done]. simpl.
    set (bound := match _ with Some b => Some b | None => _ end).
    destruct bound as [v|]; [|done]. simpl. intros [= <-].
    unfold timeout_validate in Hv. simplify_result.
    match goal with H : check_floor_opt "max_millis" _ = _ |- _ => rename H into Hm end.
    destruct (tp_max_millis (ep_timeout policy)) as [m|]; simpl in *.
    + unfold check_floor in Hm. destruct (N.ltb_spec m MIN_TIMEOUT_RUNG_MS); [done|].
      split; [lia|]. intros m' [= ->]. lia.
    + split; [|done]. unfold MIN_TIMEOUT_RUNG_MS, u64_max. lia.
  - intros Hne bound. unfold timeout_selected_action, timeout_legal_actions.
    apply list_elem_of_fmap. eexists. split; [done|].
    destruct (last ladder) as [t|] eqn:Ht; [|by apply last_None in Ht].
    apply last_Some_elem_of in Ht. destruct bound as [b|]; simpl; [|done].
    destruct (find _ _) eqn:Hf; [|done]. by apply find_first in Hf as [? _].
  - intros Ha b r Hr Hb. unfold timeout_selected_action.
    destruct (find _ _) as [s|] eqn:Hf.
    + exists s. apply find_first in Hf as Hs. destruct Hs as [Hs Hbs]. apply N.leb_le in Hbs.
      split_and!; try done. eapply find_least; eauto.
    + exfalso. rewrite list_elem_of_In in Hr. apply (find_none _ _ Hf), N.leb_gt in Hr. lia.
Qed.

(** An empty ladder has no legal action, and yet a bound is selected. *)
Theorem empty_ladder_illegal (bound : option N) :
  timeout_legal_actions [] = [] /\
  timeout_selected_action bound [] = ActSetTimeout (default MIN_TIMEOUT_RUNG_MS bound).
Proof. split; [done|]. by destruct bound. Qed.

Module DurableExamples.

(** One half, and a learned policy that narrows timeouts to two attempts. *)
Definition half : spec_float := S754_finite false 4503599627370496 (-53).
Definition learned : ExecutorPolicy :=
  mkPolicyBundle
    (mkRetryPolicy 1000 300000 3 (Some [(CTimeout, mkBackoff 200 5000 2)]))
    (mkTimeoutPolicy (Some 30000%N) (Some 60000%N) (Some [("slow"%string, 45000%N)]))
    (mkConcurrency None).

(** The fourth retry draws from an eight-second window. *)
Lemma backoff_within_window_witness :
  backoff_delay_ms_with 4 half 1000 300000 = 4000%N
  /\ (4000 <= Z.of_N (backoff_delay_ms_with 4 half 1000 300000) <= 8000)%Z.
Proof.
  split; [vm_compute; reflexivity|].
  apply (backoff_within_window 4 half 1000 300000); vm_compute; congruence.
Defined.

Lemma policy_never_unlocks_retry_witness :
  classify_retry_with_policy Idempotent CTimeout 1 (resolve_retry_parameters learned CTimeout 5) half
  = DRetry 100
  /\ (1 < 5)%N.
Proof.
  split; [vm_compute; reflexivity|].
  refine (proj1 (proj1 (proj2 (policy_never_unlocks_retry learned Idempotent CTimeout 1 5 half _))
                   100%N _)); vm_compute; reflexivity.
Defined.

Lemma retry_evidence_legal_witness :
  ActRetry 2 ∈ de_legal_actions
    (retry_decision_event "r" "t" 0 Idempotent CTimeout 1 5 None
       (classify_retry_with_policy Idempotent CTimeout 1
          (resolve_retry_parameters learned CTimeout 5) half) STATIC_V0 0).
Proof.
  exact (proj1 (retry_evidence_legal "r" "t" 0 Idempotent CTimeout 1 5
                  (resolve_retry_parameters learned CTimeout 5) half None STATIC_V0 0
                  ltac:(vm_compute; congruence) ltac:(vm_compute; reflexivity))).
Defined.

Lemma timeout_decision_sound_witness :
  resolve_timeout_bound_ms learned (Some "slow"%string) = Some 45000%N
  /\ (MIN_TIMEOUT_RUNG_MS <= 45000)%N
  /\ timeout_selected_action (Some 45000%N) [1000; 60000; 300000]%N
     ∈ timeout_legal_actions [1000; 60000; 300000]%N.
Proof.
  destruct (timeout_decision_sound learned (Some "slow"%string) [1000; 60000; 300000]%N)
    as (Hb & Hl & _).
  split_and!; [vm_compute; reflexivity| |by apply Hl].
  apply (Hb 45000%N). vm_compute. reflexivity.
Defined.
End DurableExamples.
