(* ===== verification/Tasks.v ===== *)
(** * Durable tasks ([rusty-server/src/tasks.rs])

    The task record and its lifecycle: queued, leased, failed (with or without
    a retry scheduled), completed, dead-lettered, cancelled. An instant is a
    count of nanoseconds; adding a duration past chrono's last instant panics,
    which is [None] here. *)

From Stdlib Require Import String SpecFloat.
From S2P Require Import Prelude Containers Floats Json Error Record Meter Durable.
Local Open Scope string_scope.

Abbreviation Instant := Z.

(** The time library: the last representable instant. *)
Class Calendar : Type := { max_instant : Instant }.

(** [DateTime + Duration::milliseconds(ms.min(i64::MAX as u64) as i64)]. *)
Definition i64_max_ms : N := 9223372036854775807.
Definition plus_ms `{Calendar} (now : Instant) (ms : N) : option Instant :=
  let t := (now + Z.of_N (N.min ms i64_max_ms) * 1000000)%Z in
  if (t <=? max_instant)%Z then Some t else None.

(** ** Data *)

Definition MIN_LEASE_MS : N := 100.
Definition MAX_LEASE_MS : N := 3600000.

(** [TaskStatus], [TaskStatus::as_str], [TaskStatus::parse]. *)
Inductive TaskStatus : Type := Queued | Leased | Failed | Completed | Dead | Cancelled.

#[export] Instance TaskStatus_eq_dec : EqDecision TaskStatus.
Proof. solve_decision. Defined.

Definition status_str (s : TaskStatus) : string :=
  match s with
  | Queued => "queued" | Leased => "leased" | Failed => "failed" | Completed => "completed"
  | Dead => "dead" | Cancelled => "cancelled"
  end.

Definition status_parse (s : string) : option TaskStatus :=
  if String.eqb s "queued" then Some Queued
  else if String.eqb s "leased" then Some Leased
  else if String.eqb s "failed" then Some Failed
  else if String.eqb s "completed" then Some Completed
  else if String.eqb s "dead" then Some Dead
  else if String.eqb s "cancelled" then Some Cancelled
  else None.

(** [StatusCategory], [StatusCategory::is_terminal]. *)
Inductive StatusCategory : Type :=
| CatBacklog | CatTodo | CatInProgress | CatInReview | CatDone | CatCancelled.

#[export] Instance StatusCategory_eq_dec : EqDecision StatusCategory.
Proof. solve_decision. Defined.

Definition category_terminal (c : StatusCategory) : bool :=
  match c with CatDone | CatCancelled => true | _ => false end.

(** [TaskLease]. *)
Record TaskLease : Type := mkLease { tl_owner : string; tl_expires_at : Instant }.

(** [TaskRecord]. *)
Record TaskRecord : Type := mkTask {
  tr_task_id : string;
  tr_tenant : string;
  tr_kind : string;
  tr_payload : Value;
  tr_pool : string;
  tr_recipient : option string;
  tr_status : TaskStatus;
  tr_attempt : N;
  tr_max_attempts : N;
  tr_lease : option TaskLease;
  tr_error_class : option ErrorClass;
  tr_effect : option Effect;
  tr_last_error : option string;
  tr_idempotency_key : option string;
  tr_result : option Value;
  tr_receipt : option EffectReceipt;
  tr_tokens : option Usage;
  tr_cost_usd : option Float64;
  tr_run_id : option string;
  tr_thread_id : option string;
  tr_parent : option string;
  tr_parent_task_id : option string;
  tr_stage : N;
  tr_status_category : StatusCategory;
  tr_cancel_requested : bool;
  tr_deadline : option Instant;
  tr_worker_version : option string;
  tr_next_attempt_at : option Instant;
  tr_created_at : Instant;
  tr_updated_at : Instant;
}.

(** [NewTask]. *)
Record NewTask : Type := mkNewTask {
  nt_task_id : string;
  nt_tenant : string;
  nt_kind : string;
  nt_payload : Value;
  nt_pool : string;
  nt_recipient : option string;
  nt_max_attempts : N;
  nt_idempotency_key : option string;
  nt_effect : option Effect;
  nt_run_id : option string;
  nt_thread_id : option string;
  nt_deadline : option Instant;
  nt_parent : option string;
  nt_parent_task_id : option string;
  nt_stage : N;
  nt_status_category : StatusCategory;
  nt_worker_version : option string;
}.

(** [SettlementCost], [FailureReport], [CompletionReport]. *)
Record SettlementCost : Type := mkCost { sc_tokens : option Usage; sc_cost_usd : option Float64 }.

Record FailureReport : Type := mkFailure {
  fr_error_class : ErrorClass;
  fr_message : string;
  fr_retryable : bool;
  fr_cost : SettlementCost;
  fr_retry : ResolvedRetryParameters;
}.

Record CompletionReport : Type := mkCompletion {
  cr_result : Value;
  cr_receipt : option EffectReceipt;
  cr_cost : SettlementCost;
}.

(** ** Field assignments *)

Definition set_status (x : TaskStatus) (t : TaskRecord) : TaskRecord :=
  mkTask (tr_task_id t) (tr_tenant t) (tr_kind t) (tr_payload t) (tr_pool t) (tr_recipient t) x
    (tr_attempt t) (tr_max_attempts t) (tr_lease t) (tr_error_class t) (tr_effect t)
    (tr_last_error t) (tr_idempotency_key t) (tr_result t) (tr_receipt t) (tr_tokens t)
    (tr_cost_usd t) (tr_run_id t) (tr_thread_id t) (tr_parent t) (tr_parent_task_id t)
    (tr_stage t) (tr_status_category t) (tr_cancel_requested t) (tr_deadline t)
    (tr_worker_version t) (tr_next_attempt_at t) (tr_created_at t) (tr_updated_at t).

Definition set_attempt (x : N) (t : TaskRecord) : TaskRecord :=
  mkTask (tr_task_id t) (tr_tenant t) (tr_kind t) (tr_payload t) (tr_pool t) (tr_recipient t)
    (tr_status t) x (tr_max_attempts t) (tr_lease t) (tr_error_class t) (tr_effect t)
    (tr_last_error t) (tr_idempotency_key t) (tr_result t) (tr_receipt t) (tr_tokens t)
    (tr_cost_usd t) (tr_run_id t) (tr_thread_id t) (tr_parent t) (tr_parent_task_id t)
    (tr_stage t) (tr_status_category t) (tr_cancel_requested t) (tr_deadline t)
    (tr_worker_version t) (tr_next_attempt_at t) (tr_created_at t) (tr_updated_at t).

Definition set_lease (x : option TaskLease) (t : TaskRecord) : TaskRecord :=
  mkTask (tr_task_id t) (tr_tenant t) (tr_kind t) (tr_payload t) (tr_pool t) (tr_recipient t)
    (tr_status t) (tr_attempt t) (tr_max_attempts t) x (tr_error_class t) (tr_effect t)
    (tr_last_error t) (tr_idempotency_key t) (tr_result t) (tr_receipt t) (tr_tokens t)
    (tr_cost_usd t) (tr_run_id t) (tr_thread_id t) (tr_parent t) (tr_parent_task_id t)
    (tr_stage t) (tr_status_category t) (tr_cancel_requested t) (tr_deadline t)
    (tr_worker_version t) (tr_next_attempt_at t) (tr_created_at t) (tr_updated_at t).

Definition set_error_class (x : option ErrorClass) (t : TaskRecord) : TaskRecord :=
  mkTask (tr_task_id t) (tr_tenant t) (tr_kind t) (tr_payload t) (tr_pool t) (tr_recipient t)
    (tr_status t) (tr_attempt t) (tr_max_attempts t) (tr_lease t) x (tr_effect t)
    (tr_last_error t) (tr_idempotency_key t) (tr_result t) (tr_receipt t) (tr_tokens t)
    (tr_cost_usd t) (tr_run_id t) (tr_thread_id t) (tr_parent t) (tr_parent_task_id t)
    (tr_stage t) (tr_status_category t) (tr_cancel_requested t) (tr_deadline t)
    (tr_worker_version t) (tr_next_attempt_at t) (tr_created_at t) (tr_updated_at t).

Definition set_last_error (x : option string) (t : TaskRecord) : TaskRecord :=
  mkTask (tr_task_id t) (tr_tenant t) (tr_kind t) (tr_payload t) (tr_pool t) (tr_recipient t)
    (tr_status t) (tr_attempt t) (tr_max_attempts t) (tr_lease t) (tr_error_class t) (tr_effect t)
    x (tr_idempotency_key t) (tr_result t) (tr_receipt t) (tr_tokens t) (tr_cost_usd t)
    (tr_run_id t) (tr_thread_id t) (tr_parent t) (tr_parent_task_id t) (tr_stage t)
    (tr_status_category t) (tr_cancel_requested t) (tr_deadline t) (tr_worker_version t)
    (tr_next_attempt_at t) (tr_created_at t) (tr_updated_at t).

Definition set_result (x : option Value) (t : TaskRecord) : TaskRecord :=
  mkTask (tr_task_id t) (tr_tenant t) (tr_kind t) (tr_payload t) (tr_pool t) (tr_recipient t)
    (tr_status t) (tr_attempt t) (tr_max_attempts t) (tr_lease t) (tr_error_class t) (tr_effect t)
    (tr_last_error t) (tr_idempotency_key t) x (tr_receipt t) (tr_tokens t) (tr_cost_usd t)
    (tr_run_id t) (tr_thread_id t) (tr_parent t) (tr_parent_task_id t) (tr_stage t)
    (tr_status_category t) (tr_cancel_requested t) (tr_deadline t) (tr_worker_version t)
    (tr_next_attempt_at t) (tr_created_at t) (tr_updated_at t).

Definition set_receipt (x : option EffectReceipt) (t : TaskRecord) : TaskRecord :=
  mkTask (tr_task_id t) (tr_tenant t) (tr_kind t) (tr_payload t) (tr_pool t) (tr_recipient t)
    (tr_status t) (tr_attempt t) (tr_max_attempts t) (tr_lease t) (tr_error_class t) (tr_effect t)
    (tr_last_error t) (tr_idempotency_key t) (tr_result t) x (tr_tokens t) (tr_cost_usd t)
    (tr_run_id t) (tr_thread_id t) (tr_parent t) (tr_parent_task_id t) (tr_stage t)
    (tr_status_category t) (tr_cancel_requested t) (tr_deadline t) (tr_worker_version t)
    (tr_next_attempt_at t) (tr_created_at t) (tr_updated_at t).

Definition set_tokens (x : option Usage) (t : TaskRecord) : TaskRecord :=
  mkTask (tr_task_id t) (tr_tenant t) (tr_kind t) (tr_payload t) (tr_pool t) (tr_recipient t)
    (tr_status t) (tr_attempt t) (tr_max_attempts t) (tr_lease t) (tr_error_class t) (tr_effect t)
    (tr_last_error t) (tr_idempotency_key t) (tr_result t) (tr_receipt t) x (tr_cost_usd t)
    (tr_run_id t) (tr_thread_id t) (tr_parent t) (tr_parent_task_id t) (tr_stage t)
    (tr_status_category t) (tr_cancel_requested t) (tr_deadline t) (tr_worker_version t)
    (tr_next_attempt_at t) (tr_created_at t) (tr_updated_at t).

Definition set_cost_usd (x : option Float64) (t : TaskRecord) : TaskRecord :=
  mkTask (tr_task_id t) (tr_tenant t) (tr_kind t) (tr_payload t) (tr_pool t) (tr_recipient t)
    (tr_status t) (tr_attempt t) (tr_max_attempts t) (tr_lease t) (tr_error_class t) (tr_effect t)
    (tr_last_error t) (tr_idempotency_key t) (tr_result t) (tr_receipt t) (tr_tokens t) x
    (tr_run_id t) (tr_thread_id t) (tr_parent t) (tr_parent_task_id t) (tr_stage t)
    (tr_status_category t) (tr_cancel_requested t) (tr_deadline t) (tr_worker_version t)
    (tr_next_attempt_at t) (tr_created_at t) (tr_updated_at t).

Definition set_status_category (x : StatusCategory) (t : TaskRecord) : TaskRecord :=
  mkTask (tr_task_id t) (tr_tenant t) (tr_kind t) (tr_payload t) (tr_pool t) (tr_recipient t)
    (tr_status t) (tr_attempt t) (tr_max_attempts t) (tr_lease t) (tr_error_class t) (tr_effect t)
    (tr_last_error t) (tr_idempotency_key t) (tr_result t) (tr_receipt t) (tr_tokens t)
    (tr_cost_usd t) (tr_run_id t) (tr_thread_id t) (tr_parent t) (tr_parent_task_id t)
    (tr_stage t) x (tr_cancel_requested t) (tr_deadline t) (tr_worker_version t)
    (tr_next_attempt_at t) (tr_created_at t) (tr_updated_at t).

Definition set_cancel_requested (x : bool) (t : TaskRecord) : TaskRecord :=
  mkTask (tr_task_id t) (tr_tenant t) (tr_kind t) (tr_payload t) (tr_pool t) (tr_recipient t)
    (tr_status t) (tr_attempt t) (tr_max_attempts t) (tr_lease t) (tr_error_class t) (tr_effect t)
    (tr_last_error t) (tr_idempotency_key t) (tr_result t) (tr_receipt t) (tr_tokens t)
    (tr_cost_usd t) (tr_run_id t) (tr_thread_id t) (tr_parent t) (tr_parent_task_id t)
    (tr_stage t) (tr_status_category t) x (tr_deadline t) (tr_worker_version t)
    (tr_next_attempt_at t) (tr_created_at t) (tr_updated_at t).

Definition set_next_attempt_at (x : option Instant) (t : TaskRecord) : TaskRecord :=
  mkTask (tr_task_id t) (tr_tenant t) (tr_kind t) (tr_payload t) (tr_pool t) (tr_recipient t)
    (tr_status t) (tr_attempt t) (tr_max_attempts t) (tr_lease t) (tr_error_class t) (tr_effect t)
    (tr_last_error t) (tr_idempotency_key t) (tr_result t) (tr_receipt t) (tr_tokens t)
    (tr_cost_usd t) (tr_run_id t) (tr_thread_id t) (tr_parent t) (tr_parent_task_id t)
    (tr_stage t) (tr_status_category t) (tr_cancel_requested t) (tr_deadline t)
    (tr_worker_version t) x (tr_created_at t) (tr_updated_at t).

Definition set_updated_at (x : Instant) (t : TaskRecord) : TaskRecord :=
  mkTask (tr_task_id t) (tr_tenant t) (tr_kind t) (tr_payload t) (tr_pool t) (tr_recipient t)
    (tr_status t) (tr_attempt t) (tr_max_attempts t) (tr_lease t) (tr_error_class t) (tr_effect t)
    (tr_last_error t) (tr_idempotency_key t) (tr_result t) (tr_receipt t) (tr_tokens t)
    (tr_cost_usd t) (tr_run_id t) (tr_thread_id t) (tr_parent t) (tr_parent_task_id t)
    (tr_stage t) (tr_status_category t) (tr_cancel_requested t) (tr_deadline t)
    (tr_worker_version t) (tr_next_attempt_at t) (tr_created_at t) x.

(** ** Operations *)

(** [TaskRecord::new]. *)
Definition task_new (n : NewTask) (now : Instant) : TaskRecord :=
  mkTask (nt_task_id n) (nt_tenant n) (nt_kind n) (nt_payload n) (nt_pool n) (nt_recipient n)
    Queued 0%N (nt_max_attempts n) None None (nt_effect n) None (nt_idempotency_key n) None None
    None None (nt_run_id n) (nt_thread_id n) (nt_parent n) (nt_parent_task_id n) (nt_stage n)
    (nt_status_category n) false (nt_deadline n) (nt_worker_version n) None now now.

(** [claimable_at], [matches_worker_version], [is_terminal], [leased_to]. *)
Definition claimable_at (t : TaskRecord) (now : Instant) : bool :=
  match tr_status t with
  | Queued => true
  | Failed => match tr_next_attempt_at t with Some at_ => (at_ <=? now)%Z | None => false end
  | Leased => match tr_lease t with Some l => (tl_expires_at l <=? now)%Z | None => false end
  | Completed | Dead | Cancelled => false
  end.

Definition matches_worker_version (t : TaskRecord) (worker_version : option string) : bool :=
  match tr_worker_version t with
  | None => true
  | Some pin => bool_decide (Some pin = worker_version)
  end.

Definition is_terminal (t : TaskRecord) : bool :=
  match tr_status t with
  | Completed | Dead | Cancelled => true
  | Failed => match tr_next_attempt_at t with None => true | Some _ => false end
  | Queued | Leased => false
  end.

Definition leased_to (t : TaskRecord) (worker_id : string) : bool :=
  bool_decide (tr_status t = Leased)
  && match tr_lease t with Some l => String.eqb (tl_owner l) worker_id | None => false end.

(** The lease still hides the task from claimers. *)
Definition live_at (t : TaskRecord) (now : Instant) : bool :=
  bool_decide (tr_status t = Leased)
  && match tr_lease t with Some l => (now <? tl_expires_at l)%Z | None => false end.

(** [u32::saturating_add(1)]. *)
Definition u32_sat_succ (n : N) : N := N.min (n + 1) 4294967295.

(** [validate_lease_ms]. *)
Definition validate_lease_ms (lease_ms : N) : result string unit :=
  if (MIN_LEASE_MS <=? lease_ms)%N && (lease_ms <=? MAX_LEASE_MS)%N then Ok ()
  else Err ("`lease_ms` must be within " ++ pretty MIN_LEASE_MS ++ "..=" ++ pretty MAX_LEASE_MS).

Section Lifecycle.
Context `{Calendar}.

(** [claim], [renew_lease]. *)
Definition claim (worker_id : string) (lease_ms : N) (now : Instant) (t : TaskRecord) :
    option TaskRecord :=
  expires_at ← plus_ms now lease_ms;
  Some (set_updated_at now
         (set_next_attempt_at None
           (set_lease (Some (mkLease worker_id expires_at))
             (set_attempt (u32_sat_succ (tr_attempt t)) (set_status Leased t))))).

Definition renew_lease (lease_ms : N) (now : Instant) (t : TaskRecord) : option TaskRecord :=
  match tr_lease t with
  | Some l =>
      expires_at ← plus_ms now lease_ms;
      Some (set_updated_at now (set_lease (Some (mkLease (tl_owner l) expires_at)) t))
  | None => Some (set_updated_at now t)
  end.

(** [complete]. *)
Definition complete (result : Value) (receipt : option EffectReceipt) (cost : SettlementCost)
    (now : Instant) (t : TaskRecord) : TaskRecord :=
  set_updated_at now
    (set_next_attempt_at None
      (set_lease None
        (set_cost_usd (sc_cost_usd cost)
          (set_tokens (sc_tokens cost)
            (set_receipt receipt
              (set_result (Some result)
                (set_status_category CatDone (set_status Completed t)))))))).

(** [apply_cancellation], [CancelTransition], [cancel]. *)
Definition apply_cancellation (now : Instant) (t : TaskRecord) : TaskRecord :=
  set_updated_at now
    (set_next_attempt_at None
      (set_lease None
        (set_error_class (Some CCancelled)
          (set_status_category CatCancelled (set_status Cancelled t))))).

Inductive CancelTransition : Type := TransCancelled | TransSignalled.

Definition cancel (now : Instant) (t : TaskRecord) : option (CancelTransition * TaskRecord) :=
  if is_terminal t then None
  else if bool_decide (tr_status t = Leased)
  then Some (TransSignalled, set_updated_at now (set_cancel_requested true t))
  else Some (TransCancelled, apply_cancellation now t).

(** [redrive]: [None] is [false]. *)
Definition redrive (now : Instant) (t : TaskRecord) : option TaskRecord :=
  if negb (bool_decide (tr_status t = Dead)) then None
  else Some (set_updated_at now
              (set_next_attempt_at None
                (set_lease None (set_status_category CatTodo (set_status Queued t))))).

(** [cancellation_due]. *)
Definition cancellation_due (now : Instant) (t : TaskRecord) : bool :=
  claimable_at t now
  && (tr_cancel_requested t
      || match tr_deadline t with Some d => (d <=? now)%Z | None => false end).

(** [uniform]: the top 53 bits of a random word over [2^53]. *)
Definition uniform (roll : N) : spec_float :=
  f64_div (f64_of_N (N.shiftr roll 11)) (f64_of_N (N.shiftl 1 53)).

(** The tail every failure shares. *)
Definition record_failure (error_class : ErrorClass) (message : string) (cost : SettlementCost)
    (now : Instant) (t : TaskRecord) : TaskRecord :=
  set_updated_at now
    (set_lease None
      (set_cost_usd (sc_cost_usd cost)
        (set_tokens (sc_tokens cost)
          (set_last_error (Some message) (set_error_class (Some error_class) t))))).

(** The effect the retry gate sees. *)
Definition gate_effect (t : TaskRecord) (retryable : bool) : Effect :=
  default (if retryable then Idempotent else NonIdempotent) (tr_effect t).

(** [fail]; [roll] is the random word [uniform] draws. *)
Definition fail (error_class : ErrorClass) (message : string) (retryable : bool)
    (cost : SettlementCost) (retry : ResolvedRetryParameters) (roll : N) (now : Instant)
    (t : TaskRecord) : option TaskRecord :=
  record_failure error_class message cost now <$>
    match classify_retry_with_policy (gate_effect t retryable) error_class (tr_attempt t) retry
            (uniform roll) with
    | DRetry after_ms =>
        at_ ← plus_ms now after_ms;
        Some (set_next_attempt_at (Some at_) (set_status Failed t))
    | DDead =>
        Some (set_next_attempt_at None (set_status_category CatCancelled (set_status Dead t)))
    | DFail =>
        Some (set_next_attempt_at None
               (set_status_category CatCancelled
                 (set_status (if decide (error_class = CCancelled) then Cancelled else Failed) t)))
    end.
End Lifecycle.

(** ** Outcomes, claim scope, gauges *)

(** [MutationOutcome], [CancelOutcome], [RedriveOutcome], [RunCancellation]. *)
Inductive MutationOutcome : Type :=
| MutApplied (t : TaskRecord)
| MutLeaseLost
| MutUnknown.

Inductive CancelOutcome : Type :=
| CancelApplied (t : TaskRecord)
| CancelTerminal (s : TaskStatus)
| CancelUnknown.

Inductive RedriveOutcome : Type :=
| RedriveApplied (t : TaskRecord)
| RedriveNotDead (s : TaskStatus)
| RedriveUnknown.

Record RunCancellation : Type := mkRunCancellation {
  rcn_cancelled : list TaskRecord;
  rcn_signalled : list TaskRecord;
}.

(** [ClaimScope]. *)
Record ClaimScope : Type := mkScope {
  cs_pools : list string;
  cs_pool_limits : gmap string N;
  cs_worker_version : option string;
  cs_timeout_policy : ExecutorPolicy;
}.

(** [TaskUsage]. *)
Record TaskUsage : Type := mkTaskUsage { tu_queued : N; tu_in_flight : N; tu_dlq : N }.
