(* ===== verification/TaskStore.v ===== *)
(** * The task queue of the file store
      ([rusty-server/src/server_store.rs], [outbox.rs], [agents.rs])

    [JsonFileStore]'s task, outbox and activation-lease operations. Each runs
    under the index locks from its first read to its last write, so concurrent
    calls are a sequence of the operations below. The state pairs each index
    with the records on disk; a file write (temporary file, then rename)
    either replaces one record or fails and leaves it. *)

From Stdlib Require Import String SpecFloat.
From S2P Require Import Prelude Containers Json Error Record Durable Tasks.
Local Open Scope string_scope.

(** ** State *)

(** [OutboxRecord], [OutboxRecord::new]. *)
Record OutboxRecord : Type := mkOutbox {
  ob_outbox_id : string;
  ob_tenant : string;
  ob_task : TaskRecord;
  ob_published_at : option Instant;
  ob_created_at : Instant;
}.

Definition outbox_new (task : TaskRecord) (now : Instant) : OutboxRecord :=
  mkOutbox (tr_task_id task) (tr_tenant task) task None now.

(** [ActivationLease], [held_by]. *)
Record ActivationLease : Type := mkActivation {
  al_agent_id : string;
  al_owner : string;
  al_fencing : N;
  al_expires_at : Instant;
  al_acquired_at : Instant;
}.

Definition held_by (l : ActivationLease) (owner : string) (fencing : N) (now : Instant) : bool :=
  String.eqb (al_owner l) owner && (al_fencing l =? fencing)%N && (now <? al_expires_at l)%Z.

(** [ActivationOutcome], [ActivationMutation], [MailboxClaim],
    [MailboxClaimScope]. *)
Inductive ActivationOutcome : Type :=
| ActClaimed (l : ActivationLease)
| ActHeld (l : ActivationLease).

Inductive ActivationMutation : Type :=
| ActApplied (l : ActivationLease)
| ActFencingLost
| ActUnknown.

Inductive MailboxClaim : Type :=
| MailClaimed (t : TaskRecord)
| MailEmpty
| MailActivationLost.

Record MailboxClaimScope : Type := mkMailboxScope {
  ms_agent_id : string;
  ms_recipient : string;
  ms_owner : string;
  ms_fencing : N;
}.

(** The three indexes, the three directories, and what the coming file
    operations report ([None] is success; past the end they succeed). *)
Record Store : Type := mkStore {
  st_tasks : gmap string TaskRecord;
  st_outbox : gmap string OutboxRecord;
  st_leases : gmap string ActivationLease;
  dk_tasks : gmap string TaskRecord;
  dk_outbox : gmap string OutboxRecord;
  dk_leases : gmap string ActivationLease;
  st_io : list (option string);
}.

(** ** Effects

    A store call returns, reports an I/O error, or panics; the indexes keep
    what was swapped in before the stop. *)
Inductive StoreFail : Type := IoError (msg : string) | Panicked.

Definition M (A : Type) : Type := Store -> result StoreFail A * Store.

#[export] Instance M_ret : MRet M := fun A a s => (Ok a, s).
#[export] Instance M_bind : MBind M := fun A B f m s =>
  match m s with
  | (Ok a, s') => f a s'
  | (Err e, s') => (Err e, s')
  end.

Definition throw {A : Type} (e : StoreFail) : M A := fun s => (Err e, s).
Definition expect {A : Type} (o : option A) : M A :=
  match o with Some a => mret a | None => throw Panicked end.
Definition read {A : Type} (f : Store -> A) : M A := fun s => (Ok (f s), s).

(** The next file operation's report. *)
Definition io_outcome : M (option string) := fun s =>
  (Ok (mjoin (head (st_io s))),
   mkStore (st_tasks s) (st_outbox s) (st_leases s) (dk_tasks s) (dk_outbox s) (dk_leases s)
     (tail (st_io s))).

(** A file operation under [io_err(context)]. *)
Definition modify (f : Store -> Store) : M unit := fun s => (Ok (), f s).

Definition file_op (context : string) (f : Store -> Store) : M unit :=
  mbind (M := M) (fun outcome : option string =>
    match outcome with
    | Some e => throw (IoError (context ++ ": " ++ e))
    | None => modify f
    end) io_outcome.

Definition with_disk_tasks (f : gmap string TaskRecord -> gmap string TaskRecord) (s : Store) :=
  mkStore (st_tasks s) (st_outbox s) (st_leases s) (f (dk_tasks s)) (dk_outbox s) (dk_leases s)
    (st_io s).
Definition with_disk_outbox (f : gmap string OutboxRecord -> gmap string OutboxRecord) (s : Store) :=
  mkStore (st_tasks s) (st_outbox s) (st_leases s) (dk_tasks s) (f (dk_outbox s)) (dk_leases s)
    (st_io s).
Definition with_disk_leases (f : gmap string ActivationLease -> gmap string ActivationLease)
    (s : Store) :=
  mkStore (st_tasks s) (st_outbox s) (st_leases s) (dk_tasks s) (dk_outbox s) (f (dk_leases s))
    (st_io s).

(** [tasks::persist], [outbox::persist], [agents::persist_lease],
    [agents::remove_lease]. *)
Definition persist_task (t : TaskRecord) : M unit :=
  file_op "persist task" (with_disk_tasks <[tr_task_id t := t]>).
Definition persist_outbox (r : OutboxRecord) : M unit :=
  file_op "persist outbox row" (with_disk_outbox <[ob_outbox_id r := r]>).
Definition persist_lease (l : ActivationLease) : M unit :=
  file_op "persist agent lease" (with_disk_leases <[al_agent_id l := l]>).
Definition remove_lease (agent_id : string) : M unit :=
  file_op "remove agent lease" (with_disk_leases (delete agent_id)).

(** [map.insert] and [map.remove] on the indexes. *)
Definition index_task (k : string) (t : TaskRecord) : M unit := fun s =>
  (Ok (), mkStore (<[k := t]> (st_tasks s)) (st_outbox s) (st_leases s) (dk_tasks s)
            (dk_outbox s) (dk_leases s) (st_io s)).
Definition index_outbox (k : string) (r : OutboxRecord) : M unit := fun s =>
  (Ok (), mkStore (st_tasks s) (<[k := r]> (st_outbox s)) (st_leases s) (dk_tasks s)
            (dk_outbox s) (dk_leases s) (st_io s)).
Definition index_lease (k : string) (l : ActivationLease) : M unit := fun s =>
  (Ok (), mkStore (st_tasks s) (st_outbox s) (<[k := l]> (st_leases s)) (dk_tasks s)
            (dk_outbox s) (dk_leases s) (st_io s)).
Definition unindex_lease (k : string) : M unit := fun s =>
  (Ok (), mkStore (st_tasks s) (st_outbox s) (delete k (st_leases s)) (dk_tasks s)
            (dk_outbox s) (dk_leases s) (st_io s)).

(** [JsonFileStore::load]: a restart reads the three directories. *)
Definition load (s : Store) : Store :=
  mkStore (dk_tasks s) (dk_outbox s) (dk_leases s) (dk_tasks s) (dk_outbox s) (dk_leases s)
    (st_io s).

(** [HashMap::values]: the records in an unspecified order. *)
Class HashOrder : Type := {
  values {A : Type} : gmap string A -> list A;
  values_perm {A : Type} (m : gmap string A) : values m ≡ₚ (map_to_list m).*2;
}.

(** [Iterator::min_by]: the first least element. *)
Definition min_by {A : Type} (ltb : A -> A -> bool) (l : list A) : option A :=
  foldl (fun best x =>
           match best with
           | Some b => if ltb x b then Some x else Some b
           | None => Some x
           end) None l.

(** [created_at], then [task_id]. *)
Definition older (a b : TaskRecord) : bool :=
  (tr_created_at a <? tr_created_at b)%Z
  || ((tr_created_at a =? tr_created_at b)%Z && str_ltb (tr_task_id a) (tr_task_id b)).
Definition older_leb (a b : TaskRecord) : bool := negb (older b a).

Definition of_tenant (tenant : string) (t : TaskRecord) : bool := String.eqb (tr_tenant t) tenant.

Section Operations.
Context `{Calendar, HashOrder}.

(** ** Enqueueing *)

(** [enqueue_locked], [enqueue_task], [dead_letter_task]. *)
Definition same_key (key : string) (record t : TaskRecord) : bool :=
  String.eqb (tr_tenant t) (tr_tenant record) && bool_decide (tr_idempotency_key t = Some key).

Definition enqueue_locked (record : TaskRecord) : M (TaskRecord * bool) :=
  tasks ← read st_tasks;
  match (match tr_idempotency_key record with
         | Some key => find (same_key key record) (values tasks)
         | None => None
         end) with
  | Some existing => mret (existing, true)
  | None =>
      persist_task record;;
      index_task (tr_task_id record) record;;
      mret (record, false)
  end.

Definition enqueue_task (record : TaskRecord) : M (TaskRecord * bool) := enqueue_locked record.
Definition dead_letter_task (record : TaskRecord) : M (TaskRecord * bool) := enqueue_locked record.

(** ** The outbox *)

Definition put_row (row : OutboxRecord) : M unit :=
  persist_outbox row;; index_outbox (ob_outbox_id row) row.

(** [outbox_enqueue]; [now] is the wall clock. *)
Definition outbox_enqueue (record : TaskRecord) (now : Instant) : M (TaskRecord * bool) :=
  outbox ← read st_outbox;
  match outbox !! tr_task_id record with
  | Some existing => mret (ob_task existing, true)
  | None => put_row (outbox_new record now);; mret (record, false)
  end.

(** The outbox half of [checkpoint_and_enqueue] and [journal_and_enqueue]. *)
Fixpoint outbox_rows (records : list TaskRecord) (now : Instant) : M unit :=
  match records with
  | [] => mret ()
  | record :: rest =>
      outbox ← read st_outbox;
      (if bool_decide (is_Some (outbox !! tr_task_id record)) then mret ()
       else put_row (outbox_new record now));;
      outbox_rows rest now
  end.

(** The sort of [(created_at, outbox_id)] pairs. *)
Definition row_leb (a b : Instant * string) : bool :=
  (a.1 <? b.1)%Z || ((a.1 =? b.1)%Z && str_leb a.2 b.2).

Definition pending_rows (outbox : gmap string OutboxRecord) : list (Instant * string) :=
  sort_by row_leb
    (map (fun r => (ob_created_at r, ob_outbox_id r))
       (filter (fun r => ob_published_at r = None) (values outbox))).

Definition publish_row (outbox_id : string) (now : Instant) : M TaskRecord :=
  outbox ← read st_outbox;
  row ← expect (outbox !! outbox_id);
  tb ← enqueue_locked (ob_task row);
  let row' := mkOutbox (ob_outbox_id row) (ob_tenant row) (ob_task row) (Some now)
                (ob_created_at row) in
  persist_outbox row';;
  index_outbox outbox_id row';;
  mret tb.1.

Fixpoint publish_rows (ids : list string) (now : Instant) : M (list TaskRecord) :=
  match ids with
  | [] => mret []
  | id :: rest => t ← publish_row id now; ts ← publish_rows rest now; mret (t :: ts)
  end.

(** [outbox_publish_pending]. *)
Definition outbox_publish_pending (limit : nat) (now : Instant) : M (list TaskRecord) :=
  outbox ← read st_outbox;
  publish_rows (map snd (take limit (pending_rows outbox))) now.

(** ** Claims *)

(** A loop over ids collected from the index: fetch, change, persist, swap. *)
Definition swap_task (task_id : string) (t : TaskRecord) : M unit :=
  persist_task t;; index_task task_id t.

Fixpoint finalize_each (now : Instant) (ids : list string) : M unit :=
  match ids with
  | [] => mret ()
  | id :: rest =>
      tasks ← read st_tasks;
      t ← expect (tasks !! id);
      swap_task id (apply_cancellation now t);;
      finalize_each now rest
  end.

(** [finalize_due_locked]. *)
Definition finalize_due_locked (tenant : string) (now : Instant) : M unit :=
  tasks ← read st_tasks;
  finalize_each now
    (map tr_task_id
       (filter (fun t => of_tenant tenant t && cancellation_due now t) (values tasks))).

(** Live leases of one pool, and [saturated]. *)
Definition live_leases (tasks : list TaskRecord) (tenant pool : string) (now : Instant) : nat :=
  length (filter (fun t => of_tenant tenant t && live_at t now && String.eqb (tr_pool t) pool) tasks).

Definition saturated (scope : ClaimScope) (tasks : list TaskRecord) (tenant pool : string)
    (now : Instant) : bool :=
  match cs_pool_limits scope !! pool with
  | Some limit => (limit <=? N.of_nat (live_leases tasks tenant pool now))%N
  | None => false
  end.

(** The filter of [claim_task]. *)
Definition pool_eligible (scope : ClaimScope) (tasks : list TaskRecord) (tenant : string)
    (now : Instant) (t : TaskRecord) : bool :=
  of_tenant tenant t
  && bool_decide (tr_recipient t = None)
  && existsb (String.eqb (tr_pool t)) (cs_pools scope)
  && claimable_at t now
  && negb (saturated scope tasks tenant (tr_pool t) now)
  && matches_worker_version t (cs_worker_version scope).

(** [policy_lease_ms]. *)
Definition policy_lease_ms (policy : ExecutorPolicy) (kind : string) (lease_ms : N) : N :=
  match resolve_timeout_bound_ms policy (Some kind) with
  | Some bound => N.min lease_ms bound
  | None => lease_ms
  end.

(** [claim_task]. *)
Definition claim_task (tenant worker_id : string) (scope : ClaimScope) (lease_ms : N)
    (now : Instant) : M (option TaskRecord) :=
  finalize_due_locked tenant now;;
  tasks ← read st_tasks;
  let vs := values tasks in
  match min_by older (filter (fun t => pool_eligible scope vs tenant now t) vs) with
  | None => mret None
  | Some candidate =>
      let task_id := tr_task_id candidate in
      task ← expect (tasks !! task_id);
      task ← expect (claim worker_id
                       (policy_lease_ms (cs_timeout_policy scope) (tr_kind task) lease_ms) now task);
      swap_task task_id task;;
      mret (Some task)
  end.

(** [claim_agent_task]. *)
Definition mail_for (scope : MailboxClaimScope) (tenant : string) (t : TaskRecord) : bool :=
  of_tenant tenant t && bool_decide (tr_recipient t = Some (ms_recipient scope)).

Definition claim_agent_task (tenant : string) (scope : MailboxClaimScope) (lease_ms : N)
    (now : Instant) : M MailboxClaim :=
  leases ← read st_leases;
  match leases !! ms_agent_id scope with
  | None => mret MailActivationLost
  | Some lease =>
      if negb (held_by lease (ms_owner scope) (ms_fencing scope) now) then mret MailActivationLost
      else
        finalize_due_locked tenant now;;
        tasks ← read st_tasks;
        let vs := values tasks in
        if existsb (fun t => mail_for scope tenant t && live_at t now) vs then mret MailEmpty
        else
          match min_by older
                  (filter (fun t => mail_for scope tenant t && claimable_at t now) vs) with
          | None => mret MailEmpty
          | Some candidate =>
              let task_id := tr_task_id candidate in
              task ← expect (tasks !! task_id);
              task ← expect (claim (ms_owner scope) lease_ms now task);
              swap_task task_id task;;
              mret (MailClaimed task)
          end
  end.

(** ** Lease-guarded mutations *)

(** [mutate_task]; a [None] of [mutate] is a panic. *)
Definition mutate_task (tenant task_id worker_id : string)
    (mutate : TaskRecord -> option TaskRecord) : M MutationOutcome :=
  tasks ← read st_tasks;
  match tasks !! task_id with
  | None => mret MutUnknown
  | Some current =>
      if negb (of_tenant tenant current) then mret MutUnknown
      else if negb (leased_to current worker_id) then mret MutLeaseLost
      else
        task ← expect (mutate current);
        swap_task task_id task;;
        mret (MutApplied task)
  end.

(** [heartbeat_task], [complete_task], [fail_task]. *)
Definition heartbeat_task (tenant task_id worker_id : string) (lease_ms : N) (now : Instant) :
    M MutationOutcome :=
  mutate_task tenant task_id worker_id (renew_lease lease_ms now).

Definition complete_task (tenant task_id worker_id : string) (report : CompletionReport)
    (now : Instant) : M MutationOutcome :=
  mutate_task tenant task_id worker_id
    (fun t => Some (complete (cr_result report) (cr_receipt report) (cr_cost report) now t)).

Definition fail_task (tenant task_id worker_id : string) (report : FailureReport) (roll : N)
    (now : Instant) : M MutationOutcome :=
  mutate_task tenant task_id worker_id
    (fail (fr_error_class report) (fr_message report) (fr_retryable report) (fr_cost report)
       (fr_retry report) roll now).

(** ** Control plane *)

(** [cancel_task], [redrive_task]. *)
Definition cancel_task (tenant task_id : string) (now : Instant) : M CancelOutcome :=
  tasks ← read st_tasks;
  match tasks !! task_id with
  | None => mret CancelUnknown
  | Some current =>
      if negb (of_tenant tenant current) then mret CancelUnknown
      else
        match cancel now current with
        | None => mret (CancelTerminal (tr_status current))
        | Some (_, task) => swap_task task_id task;; mret (CancelApplied task)
        end
  end.

Definition redrive_task (tenant task_id : string) (now : Instant) : M RedriveOutcome :=
  tasks ← read st_tasks;
  match tasks !! task_id with
  | None => mret RedriveUnknown
  | Some current =>
      if negb (of_tenant tenant current) then mret RedriveUnknown
      else
        match redrive now current with
        | None => mret (RedriveNotDead (tr_status current))
        | Some task => swap_task task_id task;; mret (RedriveApplied task)
        end
  end.

(** The loop of [cancel_run_tasks] and [cancel_agent_tasks]. *)
Fixpoint cancel_each (now : Instant) (ids : list string) (outcome : RunCancellation) :
    M RunCancellation :=
  match ids with
  | [] => mret outcome
  | id :: rest =>
      tasks ← read st_tasks;
      current ← expect (tasks !! id);
      match cancel now current with
      | None => cancel_each now rest outcome
      | Some (transition, task) =>
          swap_task id task;;
          cancel_each now rest
            (match transition with
             | TransCancelled =>
                 mkRunCancellation (rcn_cancelled outcome ++ [task])%list (rcn_signalled outcome)
             | TransSignalled =>
                 mkRunCancellation (rcn_cancelled outcome) (rcn_signalled outcome ++ [task])%list
             end)
      end
  end.

Definition cancel_where (tenant : string) (target : TaskRecord -> bool) (now : Instant) :
    M RunCancellation :=
  tasks ← read st_tasks;
  cancel_each now
    (map tr_task_id (filter (fun t => of_tenant tenant t && target t) (values tasks)))
    (mkRunCancellation [] []).

Definition cancel_run_tasks (tenant run_id : string) (now : Instant) : M RunCancellation :=
  cancel_where tenant (fun t => bool_decide (tr_run_id t = Some run_id)) now.

Definition cancel_agent_tasks (tenant recipient : string) (now : Instant) : M RunCancellation :=
  cancel_where tenant (fun t => bool_decide (tr_recipient t = Some recipient)) now.

(** ** Activation leases *)

(** [claim_activation]; the fencing ordinal is a [u64]. *)
Definition claim_activation (agent_id owner : string) (lease_ms : N) (now : Instant) :
    M ActivationOutcome :=
  leases ← read st_leases;
  match (match leases !! agent_id with
         | Some current => if (now <? al_expires_at current)%Z then Some current else None
         | None => None
         end) with
  | Some current => mret (ActHeld current)
  | None =>
      let fencing := match leases !! agent_id with
                     | Some lease => ((al_fencing lease + 1) mod 2 ^ 64)%N
                     | None => 1%N
                     end in
      expires_at ← expect (plus_ms now lease_ms);
      let lease := mkActivation agent_id owner fencing expires_at now in
      persist_lease lease;;
      index_lease agent_id lease;;
      mret (ActClaimed lease)
  end.

(** [renew_activation], [release_activation]. *)
Definition renew_activation (agent_id owner : string) (fencing lease_ms : N) (now : Instant) :
    M ActivationMutation :=
  leases ← read st_leases;
  match leases !! agent_id with
  | None => mret ActUnknown
  | Some current =>
      if negb (held_by current owner fencing now) then mret ActFencingLost
      else
        expires_at ← expect (plus_ms now lease_ms);
        let lease := mkActivation (al_agent_id current) (al_owner current) (al_fencing current)
                       expires_at (al_acquired_at current) in
        persist_lease lease;;
        index_lease agent_id lease;;
        mret (ActApplied lease)
  end.

Definition release_activation (agent_id owner : string) (fencing : N) (now : Instant) :
    M ActivationMutation :=
  leases ← read st_leases;
  match leases !! agent_id with
  | None => mret ActUnknown
  | Some current =>
      if negb (held_by current owner fencing now) then mret ActFencingLost
      else
        unindex_lease agent_id;;
        remove_lease agent_id;;
        mret (ActApplied current)
  end.

(** ** Reads *)

(** [get_task], [list_tasks], [list_child_tasks], [task_usage]. *)
Definition get_task (tenant task_id : string) (s : Store) : option TaskRecord :=
  t ← st_tasks s !! task_id; if of_tenant tenant t then Some t else None.

Definition list_tasks (tenant : string) (status : option TaskStatus) (s : Store) : list TaskRecord :=
  sort_by older_leb
    (filter (fun t => of_tenant tenant t
                      && match status with
                         | None => true
                         | Some st => bool_decide (tr_status t = st)
                         end) (values (st_tasks s))).

Definition list_child_tasks (tenant parent_task_id : string) (s : Store) : list TaskRecord :=
  sort_by older_leb
    (filter (fun t => of_tenant tenant t
                      && bool_decide (tr_parent_task_id t = Some parent_task_id))
       (values (st_tasks s))).

Definition count_where {A : Type} (f : A -> bool) (l : list A) : N :=
  N.of_nat (length (filter (fun t => f t) l)).

Definition waiting (t : TaskRecord) : bool :=
  match tr_status t with
  | Queued => true
  | Failed => bool_decide (is_Some (tr_next_attempt_at t))
  | _ => false
  end.

Definition task_usage (tenant : string) (s : Store) : TaskUsage :=
  let mine := filter (fun t => of_tenant tenant t) (values (st_tasks s)) in
  mkTaskUsage
    (count_where waiting mine
     + count_where (fun r => String.eqb (ob_tenant r) tenant
                             && bool_decide (ob_published_at r = None)) (values (st_outbox s)))
    (count_where (fun t => bool_decide (tr_status t = Leased)) mine)
    (count_where (fun t => bool_decide (tr_status t = Dead)) mine).
End Operations.
