(* ===== verification/TaskStoreFacts.v ===== *)
(** * The file store refines the task lifecycle

    A labelled transition system of what may happen to one task, one outbox
    row or one activation lease; every store call, under every order of the
    hash map and every failure of the file system, is a sequence of its moves.
    The queue's invariants follow by induction on moves. *)

From Stdlib Require Import String SpecFloat.
From S2P Require Import Prelude Containers Json Error Record Durable Tasks TaskStore.

(** ** The lifecycle *)
Section Lifecycle.
Context `{Calendar}.

(** How a task changes at [now], in a call a worker [who] makes (if any). *)
Inductive lifecycle (now : Instant) (who : option string) : TaskRecord -> TaskRecord -> Prop :=
| lc_claim t t' worker lease_ms :
    claimable_at t now = true -> cancellation_due now t = false ->
    claim worker lease_ms now t = Some t' -> lifecycle now who t t'
| lc_finalize t :
    cancellation_due now t = true -> lifecycle now who t (apply_cancellation now t)
| lc_renew t t' worker lease_ms :
    who = Some worker -> leased_to t worker = true -> renew_lease lease_ms now t = Some t' -> lifecycle now who t t'
| lc_complete t worker result receipt cost :
    who = Some worker -> leased_to t worker = true ->
    lifecycle now who t (complete result receipt cost now t)
| lc_fail t t' worker class message retryable cost retry roll :
    who = Some worker -> leased_to t worker = true ->
    fail class message retryable cost retry roll now t = Some t' -> lifecycle now who t t'
| lc_cancel t t' transition : cancel now t = Some (transition, t') -> lifecycle now who t t'
| lc_redrive t t' : redrive now t = Some t' -> lifecycle now who t t'.

(** What no step changes, and the shape every step keeps. *)
Definition same_identity (t t' : TaskRecord) : Prop :=
  tr_task_id t' = tr_task_id t /\ tr_tenant t' = tr_tenant t
  /\ tr_idempotency_key t' = tr_idempotency_key t /\ tr_recipient t' = tr_recipient t
  /\ tr_effect t' = tr_effect t /\ tr_max_attempts t' = tr_max_attempts t
  /\ tr_created_at t' = tr_created_at t.

Definition task_wf (t : TaskRecord) : Prop :=
  (is_Some (tr_lease t) <-> tr_status t = Leased)
  /\ (is_Some (tr_next_attempt_at t) -> tr_status t = Failed)
  /\ (tr_status t = Leased -> (1 <= tr_attempt t)%N).

Lemma claim_spec worker lease_ms now t t' :
  claim worker lease_ms now t = Some t' ->
  exists e, plus_ms now lease_ms = Some e /\ same_identity t t' /\ tr_status t' = Leased
    /\ tr_lease t' = Some (mkLease worker e) /\ tr_next_attempt_at t' = None
    /\ tr_attempt t' = u32_sat_succ (tr_attempt t) /\ tr_cancel_requested t' = tr_cancel_requested t
    /\ tr_deadline t' = tr_deadline t /\ tr_pool t' = tr_pool t.
Proof.
  unfold claim. destruct (plus_ms now lease_ms) as [e|]; simpl; [|done].
  intros [= <-]. exists e. done.
Qed.

Lemma lifecycle_identity now who t t' : lifecycle now who t t' -> same_identity t t'.
Proof.
  intros [? ? ? ? _ _ Hc|? _|? ? ? ? _ _ Hr|? ? ? ? ? _ _|? ? ? ? ? ? ? ? ? _ _ Hf|? ? ? Hc|? ? Hr].
  - by apply claim_spec in Hc as (? & _ & ? & _).
  - done.
  - unfold renew_lease in Hr. destruct (tr_lease _); [destruct (plus_ms _ _)|]; by simplify_eq/=.
  - done.
  - unfold fail in Hf. destruct (classify_retry_with_policy _ _ _ _ _);
      [destruct (plus_ms _ _)|..]; by simplify_eq/=.
  - unfold cancel in Hc. repeat case_match; by simplify_eq/=.
  - unfold redrive in Hr. case_match; by simplify_eq/=.
Qed.

Lemma leased_to_Leased t worker :
  leased_to t worker = true ->
  tr_status t = Leased /\ exists l, tr_lease t = Some l /\ tl_owner l = worker.
Proof.
  unfold leased_to. intros [Hs%bool_decide_eq_true Hl]%andb_true_iff. split; [done|].
  destruct (tr_lease t) as [l|]; [|done]. exists l. split; [done|]. by apply String.eqb_eq.
Qed.

Lemma lifecycle_wf now who t t' : lifecycle now who t t' -> task_wf t -> task_wf t'.
Proof.
  intros Hstep (Hl & Hn & Ha). destruct Hstep as
    [t t' w ms _ _ Hc|t _|t t' w ms _ Hw Hr|t w ? ? ? _ _|t t' w ? ? ? ? ? ? _ _ Hf|t t' ? Hc|t t' Hr];
    unfold task_wf.
  - apply claim_spec in Hc as (e & _ & _ & -> & -> & -> & -> & _).
    unfold u32_sat_succ. split_and!; [by split; eauto|by intros []|lia].
  - split_and!; simpl; [split; [by intros []|done]|by intros []|done].
  - apply leased_to_Leased in Hw as (Hs & l & Hle & _). unfold renew_lease in Hr.
    rewrite Hle in Hr. destruct (plus_ms _ _); simplify_eq/=.
    split_and!; [by split; eauto|done|done].
  - split_and!; simpl; [split; [by intros []|done]|by intros []|done].
  - unfold fail in Hf. destruct (classify_retry_with_policy _ _ _ _ _);
      [destruct (plus_ms _ _)|..]; simplify_eq/=; repeat case_decide;
      (split_and!; simpl; [split; [by intros []|done]|try done; by intros []|done]).
  - unfold cancel in Hc. repeat case_match; simplify_eq/=; [done|].
    split_and!; simpl; [split; [by intros []|done]|by intros []|done].
  - unfold redrive in Hr. case_match; simplify_eq/=.
    split_and!; simpl; [split; [by intros []|done]|by intros []|done].
Qed.
End Lifecycle.

(** ** Moves of the store *)
Section Moves.
Context `{Calendar, HashOrder}.

Definition pop_io (s : Store) : Store :=
  mkStore (st_tasks s) (st_outbox s) (st_leases s) (dk_tasks s) (dk_outbox s) (dk_leases s)
    (tail (st_io s)).

(** A record written to disk and swapped into the index. *)
Definition put_task (k : string) (t : TaskRecord) (s : Store) : Store :=
  mkStore (<[k := t]> (st_tasks s)) (st_outbox s) (st_leases s) (<[k := t]> (dk_tasks s))
    (dk_outbox s) (dk_leases s) (st_io s).
Definition put_outbox (k : string) (r : OutboxRecord) (s : Store) : Store :=
  mkStore (st_tasks s) (<[k := r]> (st_outbox s)) (st_leases s) (dk_tasks s)
    (<[k := r]> (dk_outbox s)) (dk_leases s) (st_io s).
Definition put_lease (k : string) (l : ActivationLease) (s : Store) : Store :=
  mkStore (st_tasks s) (st_outbox s) (<[k := l]> (st_leases s)) (dk_tasks s) (dk_outbox s)
    (<[k := l]> (dk_leases s)) (st_io s).
Definition drop_lease (k : string) (s : Store) : Store :=
  mkStore (st_tasks s) (st_outbox s) (delete k (st_leases s)) (dk_tasks s) (dk_outbox s)
    (dk_leases s) (st_io s).

(** Where a record is submitted. *)
Inductive Door : Type := ToQueue | ToOutbox.

(** A row appears pending, or is marked published once its task is queued. *)
Inductive row_step (sub : Door -> TaskRecord -> Prop) (s : Store) : OutboxRecord -> Prop :=
| row_new task at_ :
    sub ToOutbox task -> st_outbox s !! tr_task_id task = None ->
    row_step sub s (outbox_new task at_)
| row_published r at_ :
    st_outbox s !! ob_outbox_id r = Some r ->
    (exists t, t ∈ (map_to_list (st_tasks s)).*2
       /\ (t = ob_task r \/ exists key, tr_idempotency_key (ob_task r) = Some key
                              /\ same_key key (ob_task r) t = true)) ->
    row_step sub s (mkOutbox (ob_outbox_id r) (ob_tenant r) (ob_task r) (Some at_) (ob_created_at r)).

(** A lease is claimed when none is live, or renewed by its holder. *)
Inductive lease_step (now : Instant) (s : Store) : ActivationLease -> Prop :=
| lease_first k owner e :
    st_leases s !! k = None -> lease_step now s (mkActivation k owner 1 e now)
| lease_steal l owner e :
    st_leases s !! al_agent_id l = Some l -> (al_expires_at l <= now)%Z ->
    lease_step now s (mkActivation (al_agent_id l) owner ((al_fencing l + 1) mod 2 ^ 64) e now)
| lease_renew l e :
    st_leases s !! al_agent_id l = Some l -> (now < al_expires_at l)%Z ->
    lease_step now s (mkActivation (al_agent_id l) (al_owner l) (al_fencing l) e (al_acquired_at l)).

(** A task that becomes leased without its holder's doing is pool work, or the
    only turn of its mailbox. *)
Definition same_mailbox (t u : TaskRecord) : Prop :=
  tr_tenant u = tr_tenant t /\ tr_recipient u = tr_recipient t.

Definition turn_gate (now : Instant) (who : option string) (s : Store) (t t' : TaskRecord) : Prop :=
  who = None -> live_at t now = false -> live_at t' now = true ->
  tr_recipient t = None
  \/ forall k u, st_tasks s !! k = Some u -> same_mailbox t u -> live_at u now = false.

(** No other task of the tenant holds the key. *)
Definition key_free (s : Store) (r : TaskRecord) : Prop :=
  forall key k t, tr_idempotency_key r = Some key -> st_tasks s !! k = Some t ->
    same_key key r t = false.

(** One move at [now]; [who] is the calling worker, [sub] are the records that
    may be submitted. *)
Inductive move (now : Instant) (who : option string) (sub : Door -> TaskRecord -> Prop) : Store -> Store -> Prop :=
| mv_io s : move now who sub s (pop_io s)
| mv_task s k t t' :
    st_tasks s !! k = Some t -> lifecycle now who t t' -> turn_gate now who s t t' ->
    move now who sub s (put_task k t' (pop_io s))
| mv_submit s r :
    sub ToQueue r -> key_free s r -> move now who sub s (put_task (tr_task_id r) r (pop_io s))
| mv_outbox s r : row_step sub s r -> move now who sub s (put_outbox (ob_outbox_id r) r (pop_io s))
| mv_lease s l : lease_step now s l -> move now who sub s (put_lease (al_agent_id l) l (pop_io s))
| mv_unindex s k : move now who sub s (drop_lease k s)
| mv_unlink s k :
    st_leases s !! k = None -> move now who sub s (with_disk_leases (delete k) (pop_io s)).

Lemma row_step_mono (sub1 sub2 : Door -> TaskRecord -> Prop) s r :
  (forall d t, sub1 d t -> sub2 d t) -> row_step sub1 s r -> row_step sub2 s r.
Proof. intros Hs [task at_ Hr|row at_ Hr]; [apply row_new|apply row_published]; auto. Qed.

Lemma move_mono now who (sub1 sub2 : Door -> TaskRecord -> Prop) s s' :
  (forall d t, sub1 d t -> sub2 d t) -> move now who sub1 s s' -> move now who sub2 s s'.
Proof.
  intros Hs Hm. destruct Hm.
  - apply mv_io.
  - by eapply mv_task.
  - apply mv_submit; auto.
  - apply mv_outbox. by eapply row_step_mono.
  - by apply mv_lease.
  - apply mv_unindex.
  - by apply mv_unlink.
Qed.

(** Every record sits under its own id. *)
Definition keyed (s : Store) : Prop :=
  map_Forall (fun k t => tr_task_id t = k) (st_tasks s)
  /\ map_Forall (fun k r => ob_outbox_id r = k /\ tr_task_id (ob_task r) = k) (st_outbox s)
  /\ map_Forall (fun k l => al_agent_id l = k) (st_leases s).

Lemma move_keyed now who sub s s' : move now who sub s s' -> keyed s -> keyed s'.
Proof.
  intros Hm (Ht & Ho & Hl). destruct Hm as [s|s k t t' Hk Hlc _|s r _ _|s r Hr|s l Hs|s k|s k _];
    unfold keyed; simpl; split_and!; try done.
  - apply map_Forall_insert_2; [|done]. apply lifecycle_identity in Hlc as [-> _]. by apply Ht.
  - by apply map_Forall_insert_2.
  - apply map_Forall_insert_2; [|done]. destruct Hr as [? ? _ _|r at_ Hr _]; [done|].
    apply Ho in Hr as [_ Hr]. done.
  - by apply map_Forall_insert_2.
  - by apply map_Forall_delete.
Qed.

Definition runs (now : Instant) (who : option string) (sub : Door -> TaskRecord -> Prop) {A} (s : Store) (m : M A) : Prop :=
  rtc (move now who sub) s (m s).2.

Lemma runs_keyed now who sub {A} s (m : M A) : runs now who sub s m -> keyed s -> keyed (m s).2.
Proof. unfold runs. induction 1; eauto using move_keyed. Qed.

Lemma runs_ret now who sub {A} s (a : A) : runs now who sub s (mret a).
Proof. apply rtc_refl. Qed.

Lemma runs_throw now who sub {A} s e : runs now who sub s (throw (A:=A) e).
Proof. apply rtc_refl. Qed.

Lemma runs_bind now who sub {A B} s (m : M A) (f : A -> M B) :
  keyed s -> runs now who sub s m ->
  (forall a s', m s = (Ok a, s') -> keyed s' -> runs now who sub s' (f a)) ->
  runs now who sub s (m ≫= f).
Proof.
  intros Hk Hm Hf. pose proof (runs_keyed _ _ _ _ _ Hm Hk) as Hk'.
  unfold runs, mbind, M_bind in *. destruct (m s) as [[a|e] s'] eqn:E; [|done].
  etrans; [exact Hm|]. by apply Hf.
Qed.

Lemma runs_read now who sub {A B} s (g : Store -> A) (f : A -> M B) :
  runs now who sub s (f (g s)) -> runs now who sub s (read g ≫= f).
Proof. done. Qed.

Lemma runs_expect now who sub {A B} s (o : option A) (f : A -> M B) :
  (forall a, o = Some a -> runs now who sub s (f a)) -> runs now who sub s (expect o ≫= f).
Proof. intros Hf. destruct o as [a|]; [by apply Hf|apply rtc_refl]. Qed.

(** A file operation fails and only consumes a report, or succeeds. *)
Lemma file_op_cases context f s :
  (exists e, file_op context f s = (Err (IoError e), pop_io s))
  \/ file_op context f s = (Ok (), f (pop_io s)).
Proof.
  unfold file_op, mbind, M_bind, io_outcome. simpl.
  destruct (mjoin (head (st_io s))) as [e|]; [left; by eexists|by right].
Qed.

(** Persist, then swap: nothing, or both. *)
Lemma swap_task_cases k t s :
  tr_task_id t = k ->
  (exists e, swap_task k t s = (Err (IoError e), pop_io s))
  \/ swap_task k t s = (Ok (), put_task k t (pop_io s)).
Proof.
  intros <-. unfold swap_task, persist_task, mbind, M_bind.
  destruct (file_op_cases "persist task" (with_disk_tasks <[tr_task_id t := t]>) s)
    as [[e He]|He]; rewrite He; [left; by eexists|by right].
Qed.

Lemma put_row_cases r s :
  (exists e, put_row r s = (Err (IoError e), pop_io s))
  \/ put_row r s = (Ok (), put_outbox (ob_outbox_id r) r (pop_io s)).
Proof.
  unfold put_row, persist_outbox, mbind, M_bind.
  destruct (file_op_cases "persist outbox row" (with_disk_outbox <[ob_outbox_id r := r]>) s)
    as [[e He]|He]; rewrite He; [left; by eexists|by right].
Qed.

Lemma turn_gate_idle now who s t t' : live_at t' now = false -> turn_gate now who s t t'.
Proof. intros Hl _ _ Hl'. congruence. Qed.

Lemma turn_gate_kept now who s t t' : live_at t' now = live_at t now -> turn_gate now who s t t'.
Proof. intros Hl _ Hf Ht. congruence. Qed.

Lemma cancel_gate now who s t tr t' : cancel now t = Some (tr, t') -> turn_gate now who s t t'.
Proof.
  unfold cancel. repeat case_match; intros; simplify_eq/=;
    [by apply turn_gate_kept|by apply turn_gate_idle].
Qed.

Lemma swap_task_runs now who sub k t t' s :
  keyed s -> st_tasks s !! k = Some t -> lifecycle now who t t' -> turn_gate now who s t t' ->
  runs now who sub s (swap_task k t').
Proof.
  intros Hk Ht Hl Hg. unfold runs.
  destruct (swap_task_cases k t' s) as [[e ->]| ->]; simpl.
  - rewrite (proj1 (lifecycle_identity _ _ _ _ Hl)). by apply Hk.
  - apply rtc_once, mv_io.
  - apply rtc_once. by eapply mv_task.
Qed.

Lemma put_row_runs now who sub r s : row_step sub s r -> runs now who sub s (put_row r).
Proof.
  intros Hr. unfold runs. destruct (put_row_cases r s) as [[e ->]| ->]; simpl; apply rtc_once;
    [apply mv_io|by apply mv_outbox].
Qed.

Lemma file_then now who sub context f {B} (g : M B) s :
  rtc (move now who sub) s (g (f (pop_io s))).2 -> runs now who sub s (file_op context f ≫= fun _ => g).
Proof.
  intros Hg. unfold runs, mbind, M_bind.
  destruct (file_op_cases context f s) as [[e ->]| ->]; [|done]. apply rtc_once, mv_io.
Qed.

(** ** The hash map's values *)

Lemma values_elem {A} (m : gmap string A) (x : A) : x ∈ values m <-> exists k, m !! k = Some x.
Proof.
  rewrite (values_perm m), list_elem_of_fmap. split.
  - intros ([k y] & -> & Hy). exists k. by apply elem_of_map_to_list in Hy.
  - intros [k Hk]. exists (k, x). split; [done|]. by apply elem_of_map_to_list.
Qed.

Lemma values_task s t : keyed s -> t ∈ values (st_tasks s) -> st_tasks s !! tr_task_id t = Some t.
Proof. intros [Hk _] [k Ht]%values_elem. by rewrite (Hk k t Ht). Qed.

Lemma min_by_elem {A} (ltb : A -> A -> bool) l x : min_by ltb l = Some x -> x ∈ l.
Proof.
  unfold min_by. assert (Hgen : forall o, foldl (fun best x =>
      match best with Some b => if ltb x b then Some x else Some b | None => Some x end) o l = Some x ->
      x ∈ l \/ o = Some x).
  { induction l as [|y l IH]; intros o Hx; simpl in *; [by right|].
    apply IH in Hx as [Hx|Hx]; [left; set_solver|].
    destruct o as [b|]; [destruct (ltb y b)|]; simplify_eq; try (left; set_solver). by right. }
  intros Hx. by apply Hgen in Hx as [?|?].
Qed.

(** ** Every call is a sequence of moves *)

Lemma enqueue_runs now who (sub : Door -> TaskRecord -> Prop) r s :
  sub ToQueue r -> runs now who sub s (enqueue_locked r).
Proof.
  intros Hr. unfold enqueue_locked. apply runs_read.
  set (found := match tr_idempotency_key r with Some _ => _ | None => _ end).
  destruct found as [t|] eqn:Hf; [apply runs_ret|].
  apply file_then. apply rtc_once. apply (mv_submit now who sub s r Hr).
  intros key k t Hkey Ht. subst found. rewrite Hkey in Hf.
  apply (find_none _ _ Hf). apply list_elem_of_In, values_elem. eauto.
Qed.

(** What a successful enqueue leaves. *)
Lemma enqueue_Ok r s x s' :
  enqueue_locked r s = (Ok x, s') ->
  x.1 ∈ (map_to_list (st_tasks s')).*2 /\ st_outbox s' = st_outbox s
  /\ (x.1 = r \/ exists key, tr_idempotency_key r = Some key /\ same_key key r x.1 = true).
Proof.
  unfold enqueue_locked, mbind, M_bind, read.
  set (found := match tr_idempotency_key r with Some _ => _ | None => _ end).
  destruct found as [t|] eqn:Hf.
  - intros [= <- <-]. simpl. subst found. destruct (tr_idempotency_key r) as [key|]; [|done].
    apply find_some in Hf as [Hin Ht]. apply list_elem_of_In in Hin.
    split_and!; [by rewrite <- (values_perm (st_tasks s))|done|eauto].
  - unfold persist_task. destruct (file_op_cases "persist task"
      (with_disk_tasks <[tr_task_id r := r]>) s) as [[e ->]| ->]; [done|].
    intros [= <- <-]. simpl. split_and!; [|done|by left].
    apply list_elem_of_fmap. exists (tr_task_id r, r). split; [done|].
    apply elem_of_map_to_list, lookup_insert_eq.
Qed.

Lemma outbox_rows_runs now who sub rs at_ s :
  keyed s -> (forall r, r ∈ rs -> sub ToOutbox r) -> runs now who sub s (outbox_rows rs at_).
Proof.
  revert s. induction rs as [|r rs IH]; intros s Hk Hsub; [apply runs_ret|]. simpl.
  apply runs_read. apply runs_bind; [done| |intros ? ? _ ?; apply IH; set_solver].
  destruct (st_outbox s !! tr_task_id r) as [o|] eqn:Ho; simpl; [apply runs_ret|].
  apply put_row_runs, row_new; set_solver.
Qed.

Lemma outbox_enqueue_runs now who sub r at_ s :
  keyed s -> sub ToOutbox r -> runs now who sub s (outbox_enqueue r at_).
Proof.
  intros Hk Hr. unfold outbox_enqueue. apply runs_read.
  destruct (st_outbox s !! tr_task_id r) eqn:Ho; [apply runs_ret|].
  apply runs_bind; [done|by apply put_row_runs, row_new|intros; apply runs_ret].
Qed.

Lemma publish_row_runs now who sub id s :
  keyed s -> (forall row, st_outbox s !! id = Some row -> sub ToQueue (ob_task row)) ->
  runs now who sub s (publish_row id now).
Proof.
  intros Hk Hsub. unfold publish_row. apply runs_read, runs_expect. intros row Hrow.
  apply runs_bind; [done|by apply enqueue_runs, Hsub|].
  intros x s' Hx Hk'. apply enqueue_Ok in Hx as (Hin & Hob & Hor).
  apply file_then, rtc_once. destruct Hk as (_ & Ho & _). apply Ho in Hrow as Hid.
  destruct Hid as [Hid _].
  pose proof (mv_outbox now who sub s' (mkOutbox (ob_outbox_id row) (ob_tenant row) (ob_task row)
    (Some now) (ob_created_at row))) as Hmv. simpl in Hmv. rewrite Hid in Hmv |- *.
  apply Hmv. rewrite <- Hid. apply row_published; [by rewrite Hob, Hid|]. eauto.
Qed.

Lemma enqueue_outbox r s : st_outbox (enqueue_locked r s).2 = st_outbox s.
Proof.
  unfold enqueue_locked, mbind, M_bind, read. case_match; [done|]. unfold persist_task.
  destruct (file_op_cases "persist task" (with_disk_tasks <[tr_task_id r := r]>) s)
    as [[e ->]| ->]; done.
Qed.

(** Publishing marks rows; it does not change their tasks. *)
Lemma publish_row_tasks id now s k row' :
  st_outbox (publish_row id now s).2 !! k = Some row' ->
  exists row, st_outbox s !! k = Some row /\ ob_task row = ob_task row'.
Proof.
  unfold publish_row, persist_outbox, read, expect, mbind, M_bind.
  destruct (st_outbox s !! id) as [row|] eqn:Hrow; [|by eauto]. simpl.
  pose proof (enqueue_outbox (ob_task row) s) as Ho.
  destruct (enqueue_locked (ob_task row) s) as [[x|e] s1]; simpl in Ho |- *; [|rewrite Ho; by eauto].
  match goal with |- context [file_op ?c ?f s1] => destruct (file_op_cases c f s1) as [[e ->]| ->] end;
    simpl; rewrite Ho; [by eauto|].
  intros [[<- <-]|[_ Hk]]%lookup_insert_Some; eauto.
Qed.

Lemma publish_rows_runs now who sub ids s :
  keyed s ->
  (forall id row, id ∈ ids -> st_outbox s !! id = Some row -> sub ToQueue (ob_task row)) ->
  runs now who sub s (publish_rows ids now).
Proof.
  revert s. induction ids as [|id ids IH]; intros s Hk Hsub; [apply runs_ret|]. simpl.
  apply runs_bind; [done|apply publish_row_runs; set_solver|]. intros t s' Ht Hk'.
  apply runs_bind; [done| |intros; apply runs_ret]. apply IH; [done|].
  intros i row' Hi Hrow'. replace s' with (publish_row id now s).2 in Hrow' by (by rewrite Ht).
  apply publish_row_tasks in Hrow' as (row & Hrow & <-). apply (Hsub i); [set_solver|done].
Qed.

(** The tasks of the rows still pending. *)
Definition pending_task (s : Store) (r : TaskRecord) : Prop :=
  exists k row, st_outbox s !! k = Some row /\ ob_published_at row = None /\ ob_task row = r.

Lemma publish_pending_runs now who limit s :
  keyed s -> runs now who (fun d r => d = ToQueue /\ pending_task s r) s (outbox_publish_pending limit now).
Proof.
  intros Hk. apply runs_read, publish_rows_runs; [done|]. intros id row Hid Hrow. split; [done|].
  apply list_elem_of_fmap in Hid as ([at_ id'] & -> & Hin). simpl in *.
  apply (sublist_subseteq _ _ (sublist_take _ _)) in Hin. unfold pending_rows in Hin.
  rewrite sort_by_elem in Hin. apply list_elem_of_fmap in Hin as (row' & [= -> ->] & Hin).
  apply list_elem_of_filter in Hin as [Hp [k Hv]%values_elem].
  destruct Hk as (_ & Ho & _). apply Ho in Hv as Hid. destruct Hid as [Hid _]. rewrite Hid in Hrow.
  exists k, row. rewrite Hv in Hrow. by injection Hrow as <-.
Qed.

(** The ids of the values are the keys, each once. *)
Lemma values_ids_NoDup (P : TaskRecord -> bool) s :
  keyed s -> NoDup (map tr_task_id (filter (fun t => P t) (values (st_tasks s)))).
Proof.
  intros [Hk _]. eapply sublist_NoDup; [|apply (fmap_sublist tr_task_id), sublist_filter].
  rewrite (fmap_Permutation tr_task_id _ _ (values_perm (st_tasks s))).
  replace (tr_task_id <$> (map_to_list (st_tasks s)).*2) with (map_to_list (st_tasks s)).*1.
  { apply NoDup_fst_map_to_list. }
  rewrite <- list_fmap_compose. apply list_fmap_ext. intros i [k t] Hi. simpl. symmetry.
  apply Hk, elem_of_map_to_list. by eapply list_elem_of_lookup_2.
Qed.

Lemma swap_task_Ok k t s x s' :
  tr_task_id t = k -> swap_task k t s = (Ok x, s') -> s' = put_task k t (pop_io s).
Proof. intros Hk Hs. destruct (swap_task_cases k t s Hk) as [[e He]|He]; congruence. Qed.

(** After the sweep, exactly the collected tasks are cancelled. *)
Lemma finalize_each_spec now who sub ids s :
  keyed s -> NoDup ids ->
  (forall id t, id ∈ ids -> st_tasks s !! id = Some t -> cancellation_due now t = true) ->
  runs now who sub s (finalize_each now ids)
  /\ (forall s', finalize_each now ids s = (Ok (), s') ->
      st_leases s' = st_leases s
      /\ forall k, st_tasks s' !! k
           = if decide (k ∈ ids) then apply_cancellation now <$> st_tasks s !! k
             else st_tasks s !! k).
Proof.
  revert s. induction ids as [|id ids IH]; intros s Hk Hnd Hdue.
  { split; [apply runs_ret|]. intros s' [= <-]. split; [done|]. intros k.
    by rewrite decide_False by (apply not_elem_of_nil). }
  apply NoDup_cons in Hnd as [Hid Hnd]. simpl.
  destruct (st_tasks s !! id) as [t|] eqn:Ht.
  2: { split; [apply runs_read, runs_expect; congruence|]. intros s'.
       unfold mbind, M_bind, read, expect. by rewrite Ht. }
  assert (Htid : tr_task_id t = id) by (by apply Hk).
  assert (Hlc : lifecycle now who t (apply_cancellation now t)).
  { apply lc_finalize. eapply Hdue; [|exact Ht]. set_solver. }
  assert (Hnext : forall x s1, swap_task id (apply_cancellation now t) s = (Ok x, s1) -> keyed s1 ->
    runs now who sub s1 (finalize_each now ids)
    /\ forall s', finalize_each now ids s1 = (Ok (), s') -> st_leases s' = st_leases s1
      /\ forall k, st_tasks s' !! k = if decide (k ∈ ids) then apply_cancellation now <$> st_tasks s1 !! k
                                     else st_tasks s1 !! k).
  { intros x s1 Hs1 Hk1. apply swap_task_Ok in Hs1 as ->; [|done]. apply IH; [done|done|].
    intros id' t' Hin Ht'. simpl in Ht'. rewrite lookup_insert_ne in Ht' by (intros ->; done).
    eapply Hdue; [|exact Ht']. set_solver. }
  split.
  - apply runs_read, runs_expect. intros t0 Ht0. rewrite Ht in Ht0. injection Ht0 as <-.
    apply runs_bind; [done|eapply swap_task_runs; try done; by apply turn_gate_idle|].
    intros x s1 Hs1 Hk1. by eapply Hnext.
  - intros s' Hs'. unfold mbind, M_bind, read, expect in Hs'. rewrite Ht in Hs'. simpl in Hs'.
    destruct (swap_task id (apply_cancellation now t) s) as [[x|e] s1] eqn:Hs1; [|done].
    assert (Hk1 : keyed s1).
    { replace s1 with (swap_task id (apply_cancellation now t) s).2 by (by rewrite Hs1).
      eapply runs_keyed; [eapply (swap_task_runs now who sub); try done; by apply turn_gate_idle|done]. }
    destruct (Hnext x s1 eq_refl Hk1) as [_ Hpost]. destruct (Hpost s' Hs') as [Hl Hm].
    apply swap_task_Ok in Hs1 as ->; [|done]. split; [done|]. intros k. rewrite Hm. simpl.
    destruct (decide (k = id)) as [->|Hne].
    + rewrite (decide_False (P := id ∈ ids)), (decide_True (P := id ∈ id :: ids)) by set_solver.
      by rewrite lookup_insert_eq, Ht.
    + rewrite lookup_insert_ne by done.
      destruct (decide (k ∈ ids)); [rewrite decide_True by set_solver|rewrite decide_False by set_solver]; done.
Qed.

(** The sweep as a function of each record. *)
Definition swept (tenant : string) (now : Instant) (t : TaskRecord) : TaskRecord :=
  if of_tenant tenant t && cancellation_due now t then apply_cancellation now t else t.

Lemma finalize_due_spec now who sub tenant s :
  keyed s ->
  runs now who sub s (finalize_due_locked tenant now)
  /\ (forall s', finalize_due_locked tenant now s = (Ok (), s') ->
      st_leases s' = st_leases s /\ forall k, st_tasks s' !! k = swept tenant now <$> st_tasks s !! k).
Proof.
  intros Hk. set (due t := of_tenant tenant t && cancellation_due now t).
  set (ids := map tr_task_id (filter (fun t => due t) (values (st_tasks s)))).
  assert (Hids : forall k t, st_tasks s !! k = Some t -> (k ∈ ids <-> due t = true)).
  { intros k t Ht. assert (Hid : tr_task_id t = k) by (by apply Hk). split.
    - intros (t' & -> & Ht')%list_elem_of_fmap. apply list_elem_of_filter in Ht' as [Hd Hv].
      apply values_task in Hv; [|done]. rewrite Ht in Hv. injection Hv as ->.
      by apply Is_true_true in Hd.
    - intros Hd. apply list_elem_of_fmap. exists t. split; [done|].
      apply list_elem_of_filter. split; [by apply Is_true_true|]. apply values_elem. eauto. }
  destruct (finalize_each_spec now who sub ids s Hk) as [Hr Hp].
  { by apply values_ids_NoDup. }
  { intros id t Hid Ht. apply (Hids id t Ht) in Hid. by apply andb_true_iff in Hid as [_ ?]. }
  split; [by apply runs_read|]. intros s' Hs'. destruct (Hp s' Hs') as [Hl Hm]. split; [done|].
  intros k. rewrite Hm. destruct (st_tasks s !! k) as [t|] eqn:Ht; simpl; [|by case_decide].
  unfold swept. fold (due t). destruct (due t) eqn:Hd.
  - rewrite decide_True; [done|by apply (Hids k t Ht)].
  - rewrite decide_False; [done|]. intros Hin. apply (Hids k t Ht) in Hin. congruence.
Qed.

(** A swept record of the tenant is not due. *)
Lemma swept_not_due tenant now t :
  of_tenant tenant (swept tenant now t) = true -> cancellation_due now (swept tenant now t) = false.
Proof.
  unfold swept. destruct (of_tenant tenant t) eqn:Ho, (cancellation_due now t) eqn:Hd; simpl; try done; congruence.
Qed.

Lemma swept_store now tenant s s' k t :
  keyed s -> finalize_due_locked tenant now s = (Ok (), s') ->
  st_tasks s' !! k = Some t -> of_tenant tenant t = true -> cancellation_due now t = false.
Proof.
  intros Hk Hs' Ht Ho. destruct (finalize_due_spec now None (fun _ _ => True) tenant s Hk) as [_ Hp].
  destruct (Hp s' Hs') as [_ Hm]. rewrite Hm in Ht.
  apply fmap_Some in Ht as (t0 & _ & ->). by apply swept_not_due.
Qed.

(** Lease the least eligible task. *)
Lemma claim_least_runs now who sub tenant worker (ms : TaskRecord -> N) (P : TaskRecord -> bool) {B}
    (k : TaskRecord -> M B) s c :
  keyed s -> (forall i t, st_tasks s !! i = Some t -> of_tenant tenant t = true ->
                cancellation_due now t = false) ->
  (forall t, P t = true -> of_tenant tenant t = true /\ claimable_at t now = true
     /\ (tr_recipient t = None \/ forall i u, st_tasks s !! i = Some u -> same_mailbox t u ->
                                  live_at u now = false)) ->
  min_by older (filter (fun t => P t) (values (st_tasks s))) = Some c ->
  (forall t s', runs now who sub s' (k t)) ->
  runs now who sub s
    (task ← expect (st_tasks s !! tr_task_id c);
     task ← expect (claim worker (ms task) now task);
     swap_task (tr_task_id c) task;; k task).
Proof.
  intros Hk Hd HP Hmin Hr. apply min_by_elem in Hmin.
  apply list_elem_of_filter in Hmin as [HPc%Is_true_true Hc]. apply values_task in Hc; [|done].
  apply HP in HPc as (Ho & Hcl & Hg). apply runs_expect. intros t Ht. rewrite Hc in Ht.
  injection Ht as <-. apply runs_expect. intros t' Ht'.
  apply runs_bind; [done| |auto]. eapply swap_task_runs; [done..| |by intros _ _ _].
  eapply lc_claim; [done|by eapply Hd|done].
Qed.

Lemma claim_task_runs now who sub tenant worker scope ms s :
  keyed s -> runs now who sub s (claim_task tenant worker scope ms now).
Proof.
  intros Hk. unfold claim_task. apply runs_bind; [done|by apply finalize_due_spec|].
  intros [] s' Hs' Hk'. apply runs_read. cbv zeta.
  destruct (min_by older _) as [c|] eqn:Hmin; [|apply runs_ret].
  eapply (claim_least_runs now who sub tenant worker
    (fun task => policy_lease_ms (cs_timeout_policy scope) (tr_kind task) ms)); eauto.
  - intros i t Ht Ho. by eapply (swept_store now tenant s s').
  - intros t Ht. unfold pool_eligible in Ht. rewrite !andb_true_iff, bool_decide_eq_true in Ht. tauto.
  - intros. apply runs_ret.
Qed.

Lemma claim_agent_runs now who sub tenant scope ms s :
  keyed s -> runs now who sub s (claim_agent_task tenant scope ms now).
Proof.
  intros Hk. unfold claim_agent_task. apply runs_read.
  destruct (st_leases s !! ms_agent_id scope); [|apply runs_ret].
  destruct (negb _); [apply runs_ret|]. apply runs_bind; [done|by apply finalize_due_spec|].
  intros [] s' Hs' Hk'. apply runs_read. cbv zeta. destruct (existsb _ _) eqn:Hex; [apply runs_ret|].
  destruct (min_by older _) as [c|] eqn:Hmin; [|apply runs_ret].
  eapply (claim_least_runs now who sub tenant (ms_owner scope) (fun _ => ms)
    (fun t => mail_for scope tenant t && claimable_at t now)); eauto.
  - intros i t Ht Ho. by eapply (swept_store now tenant s s').
  - intros t [[Ho Hr%bool_decide_eq_true]%andb_true_iff Hcl]%andb_true_iff.
    split_and!; [done..|]. right. intros i u Hu [Htu Hru].
    assert (Hin : u ∈ values (st_tasks s')) by (apply values_elem; eauto).
    apply list_elem_of_In in Hin. destruct (live_at u now) eqn:Hl; [|done].
    rewrite <- Hex. symmetry. apply existsb_exists. exists u. split; [done|].
    unfold mail_for, of_tenant in *. rewrite Htu, Ho, Hru, Hr, Hl. by rewrite bool_decide_true.
  - intros. apply runs_ret.
Qed.

Lemma mutate_runs now who sub tenant id worker f s :
  keyed s -> who <> None ->
  (forall t t', leased_to t worker = true -> f t = Some t' -> lifecycle now who t t') ->
  runs now who sub s (mutate_task tenant id worker f).
Proof.
  intros Hk Hwho Hf. unfold mutate_task. apply runs_read.
  destruct (st_tasks s !! id) as [t|] eqn:Ht; [|apply runs_ret].
  destruct (negb (of_tenant tenant t)); [apply runs_ret|].
  destruct (leased_to t worker) eqn:Hw; simpl; [|apply runs_ret].
  apply runs_expect. intros t' Ht'. apply runs_bind; [done| |intros; apply runs_ret].
  eapply swap_task_runs; eauto. by intros ->.
Qed.

Lemma cancel_each_runs now who sub ids o s : keyed s -> runs now who sub s (cancel_each now ids o).
Proof.
  revert o s. induction ids as [|id ids IH]; intros o s Hk; [apply runs_ret|]. simpl.
  apply runs_read, runs_expect. intros t Ht. destruct (cancel now t) as [[tr t']|] eqn:Hc; [|auto].
  apply runs_bind; [done| |auto]. eapply swap_task_runs; [done..| |by eapply cancel_gate].
  by eapply lc_cancel.
Qed.

Lemma cancel_task_runs now who sub tenant id s : keyed s -> runs now who sub s (cancel_task tenant id now).
Proof.
  intros Hk. unfold cancel_task. apply runs_read.
  destruct (st_tasks s !! id) as [t|] eqn:Ht; [|apply runs_ret].
  destruct (negb _); [apply runs_ret|].
  destruct (cancel now t) as [[tr t']|] eqn:Hc; [|apply runs_ret].
  apply runs_bind; [done| |intros; apply runs_ret]. eapply swap_task_runs; [done..| |by eapply cancel_gate].
  by eapply lc_cancel.
Qed.

Lemma redrive_task_runs now who sub tenant id s : keyed s -> runs now who sub s (redrive_task tenant id now).
Proof.
  intros Hk. unfold redrive_task. apply runs_read.
  destruct (st_tasks s !! id) as [t|] eqn:Ht; [|apply runs_ret].
  destruct (negb _); [apply runs_ret|].
  destruct (redrive now t) as [t'|] eqn:Hc; [|apply runs_ret].
  apply runs_bind; [done| |intros; apply runs_ret]. eapply swap_task_runs; [done..|by eapply lc_redrive|].
  unfold redrive in Hc. case_match; simplify_eq/=. by apply turn_gate_idle.
Qed.

(** ** Activation leases *)

Lemma put_lease_runs now who sub l {B} (k : M B) s :
  lease_step now s l -> (forall s', runs now who sub s' k) ->
  runs now who sub s (persist_lease l;; index_lease (al_agent_id l) l;; k).
Proof.
  intros Hl Hk. apply file_then. eapply rtc_l; [by apply mv_lease|]. apply Hk.
Qed.

Lemma claim_activation_runs now who sub agent owner ms s :
  keyed s -> runs now who sub s (claim_activation agent owner ms now).
Proof.
  intros (_ & _ & Hl). unfold claim_activation. apply runs_read.
  destruct (st_leases s !! agent) as [l|] eqn:Hlk.
  - apply Hl in Hlk as Hid. destruct (Z.ltb_spec now (al_expires_at l)); [apply runs_ret|].
    apply runs_expect. intros e _. cbv zeta.
    apply (put_lease_runs now who sub (mkActivation agent owner _ e now)); [|intros; apply runs_ret].
    rewrite <- Hid. apply lease_steal; [by rewrite Hid|lia].
  - apply runs_expect. intros e _. cbv zeta.
    apply (put_lease_runs now who sub (mkActivation agent owner _ e now)); [|intros; apply runs_ret].
    by apply lease_first.
Qed.

Lemma held_by_live l owner fencing now :
  held_by l owner fencing now = true ->
  al_owner l = owner /\ al_fencing l = fencing /\ (now < al_expires_at l)%Z.
Proof.
  unfold held_by. rewrite !andb_true_iff, String.eqb_eq, N.eqb_eq, Z.ltb_lt. tauto.
Qed.

Lemma renew_activation_runs now who sub agent owner fencing ms s :
  keyed s -> runs now who sub s (renew_activation agent owner fencing ms now).
Proof.
  intros (_ & _ & Hl). unfold renew_activation. apply runs_read.
  destruct (st_leases s !! agent) as [l|] eqn:Hlk; [|apply runs_ret].
  destruct (held_by l owner fencing now) eqn:Hh; simpl; [|apply runs_ret].
  apply held_by_live in Hh as (_ & _ & Hlive). apply Hl in Hlk as Hid.
  apply runs_expect. intros e _. cbv zeta. rewrite <- Hid.
  apply (put_lease_runs now who sub (mkActivation (al_agent_id l) (al_owner l) (al_fencing l) e
                                   (al_acquired_at l))); [|intros; apply runs_ret].
  apply lease_renew; [by rewrite Hid|done].
Qed.

Lemma release_activation_runs now who sub agent owner fencing s :
  runs now who sub s (release_activation agent owner fencing now).
Proof.
  unfold release_activation. apply runs_read.
  destruct (st_leases s !! agent) as [l|]; [|apply runs_ret].
  destruct (negb _); [apply runs_ret|].
  eapply rtc_l; [by apply (mv_unindex _ _ _ _ agent)|].
  apply (file_then now who sub "remove agent lease" (with_disk_leases (delete agent)) _ (drop_lease agent s)).
  apply rtc_once, mv_unlink. simpl. apply lookup_delete_eq.
Qed.
End Moves.

(** ** Calls *)

Inductive Call : Type :=
| CallEnqueue (r : TaskRecord)
| CallDeadLetter (r : TaskRecord)
| CallOutbox (r : TaskRecord)
| CallOutboxRows (rs : list TaskRecord)
| CallPublish (limit : nat)
| CallClaim (tenant worker : string) (scope : ClaimScope) (lease_ms : N)
| CallMail (tenant : string) (scope : MailboxClaimScope) (lease_ms : N)
| CallHeartbeat (tenant task worker : string) (lease_ms : N)
| CallComplete (tenant task worker : string) (report : CompletionReport)
| CallFail (tenant task worker : string) (report : FailureReport) (roll : N)
| CallCancel (tenant task : string)
| CallRedrive (tenant task : string)
| CallCancelRun (tenant run : string)
| CallCancelAgent (tenant recipient : string)
| CallActivate (agent owner : string) (lease_ms : N)
| CallRenew (agent owner : string) (fencing lease_ms : N)
| CallRelease (agent owner : string) (fencing : N).

(** The store after a call at [now] under one order of the hash maps. *)
Definition perform `{Calendar} (o : HashOrder) (now : Instant) (c : Call) (s : Store) : Store :=
  match c with
  | CallEnqueue r => (enqueue_task r s).2
  | CallDeadLetter r => (dead_letter_task r s).2
  | CallOutbox r => (outbox_enqueue r now s).2
  | CallOutboxRows rs => (outbox_rows rs now s).2
  | CallPublish limit => (outbox_publish_pending limit now s).2
  | CallClaim tenant worker scope ms => (claim_task tenant worker scope ms now s).2
  | CallMail tenant scope ms => (claim_agent_task tenant scope ms now s).2
  | CallHeartbeat tenant task worker ms => (heartbeat_task tenant task worker ms now s).2
  | CallComplete tenant task worker report => (complete_task tenant task worker report now s).2
  | CallFail tenant task worker report roll => (fail_task tenant task worker report roll now s).2
  | CallCancel tenant task => (cancel_task tenant task now s).2
  | CallRedrive tenant task => (redrive_task tenant task now s).2
  | CallCancelRun tenant run => (cancel_run_tasks tenant run now s).2
  | CallCancelAgent tenant recipient => (cancel_agent_tasks tenant recipient now s).2
  | CallActivate agent owner ms => (claim_activation agent owner ms now s).2
  | CallRenew agent owner fencing ms => (renew_activation agent owner fencing ms now s).2
  | CallRelease agent owner fencing => (release_activation agent owner fencing now s).2
  end.

(** The records a call may put into the queue or the outbox. *)
Definition submits (c : Call) (s : Store) (d : Door) (r : TaskRecord) : Prop :=
  match d, c with
  | ToQueue, (CallEnqueue r' | CallDeadLetter r') => r = r'
  | ToQueue, CallPublish _ => pending_task s r
  | ToOutbox, CallOutbox r' => r = r'
  | ToOutbox, CallOutboxRows rs => r ∈ rs
  | _, _ => False
  end.

(** The worker on whose lease a call acts. *)
Definition acts_as (c : Call) : option string :=
  match c with
  | CallHeartbeat _ _ worker _ | CallComplete _ _ worker _ | CallFail _ _ worker _ _ => Some worker
  | _ => None
  end.

Section Refinement.
Context `{Calendar}.

Lemma call_moves (o : HashOrder) (now : Instant) (c : Call) (s : Store) :
  keyed s -> rtc (move now (acts_as c) (submits c s)) s (perform o now c s).
Proof.
  intros Hk. destruct c; simpl.
  - by apply enqueue_runs.
  - by apply enqueue_runs.
  - by apply outbox_enqueue_runs.
  - by apply outbox_rows_runs.
  - eapply rtc_subrel; [|by apply (publish_pending_runs now None)].
    intros x y. apply move_mono. by intros d r [-> Hr].
  - by apply claim_task_runs.
  - by apply claim_agent_runs.
  - apply mutate_runs; [done..|]. intros t t' Hw Ht. by eapply lc_renew.
  - apply mutate_runs; [done..|]. intros t t' Hw [= <-]. by eapply lc_complete.
  - apply mutate_runs; [done..|]. intros t t' Hw Ht. by eapply lc_fail.
  - by apply cancel_task_runs.
  - by apply redrive_task_runs.
  - apply (runs_read now None (submits (CallCancelRun tenant run) s) s st_tasks). by apply cancel_each_runs.
  - apply (runs_read now None (submits (CallCancelAgent tenant recipient) s) s st_tasks).
    by apply cancel_each_runs.
  - by apply claim_activation_runs.
  - by apply renew_activation_runs.
  - by apply release_activation_runs.
Qed.

(** ** The invariant *)

Record Consistent (s : Store) : Prop := {
  con_tasks : st_tasks s = dk_tasks s;
  con_outbox : st_outbox s = dk_outbox s;
  con_leases : st_leases s ⊆ dk_leases s;
  con_lease_files : map_Forall (fun k l => al_agent_id l = k) (dk_leases s);
  con_keyed : keyed s;
  con_wf : map_Forall (fun _ t => task_wf t) (st_tasks s);
  con_rows : map_Forall (fun _ r => task_wf (ob_task r)) (st_outbox s);
  con_keys : forall k1 k2 t1 t2 key,
    st_tasks s !! k1 = Some t1 -> st_tasks s !! k2 = Some t2 ->
    tr_idempotency_key t1 = Some key -> same_key key t1 t2 = true -> k1 = k2;
}.

Lemma move_consistent now who sub s s' :
  (forall d r, sub d r -> task_wf r) -> move now who sub s s' -> Consistent s -> Consistent s'.
Proof.
  intros Hsub Hm HC. pose proof (move_keyed _ _ _ _ _ Hm (con_keyed _ HC)) as Hkeyed.
  destruct HC as [Ct Co Cl Cf Ck Cw Cr Cu].
  destruct Hm as [s|s k t t' Hk Hlc _|s r Hr Hfree|s r Hr|s l Hs|s k|s k Hn];
    split; simpl in *; try done; try (by rewrite ?Ct, ?Co).
  - apply map_Forall_insert_2; [|done]. eapply lifecycle_wf; [done|]. by eapply Cw.
  - intros k1 k2 t1 t2 key H1 H2 Hkey Hsame.
    apply lifecycle_identity in Hlc as (_ & Hten & Hik & _).
    unfold same_key in *. rewrite !lookup_insert_Some in H1, H2.
    destruct H1 as [[<- <-]|[Hne1 H1]], H2 as [[<- <-]|[Hne2 H2]]; try done.
    + eapply (Cu _ _ _ _ key Hk H2); [by rewrite <- Hik|by rewrite <- Hten].
    + eapply (Cu _ _ _ _ key H1 Hk); [done|]. by rewrite <- Hten, <- Hik.
    + by eapply (Cu _ _ _ _ key H1 H2).
  - apply map_Forall_insert_2; [by eapply Hsub|done].
  - intros k1 k2 t1 t2 key H1 H2 Hkey Hsame. rewrite !lookup_insert_Some in H1, H2.
    destruct H1 as [[<- <-]|[Hne1 H1]], H2 as [[<- <-]|[Hne2 H2]]; try done.
    + by rewrite (Hfree key k2 t2 Hkey H2) in Hsame.
    + exfalso. assert (Hsym : same_key key r t1 = true).
      { unfold same_key in *. apply andb_true_iff in Hsame as [->%String.eqb_eq _].
        by rewrite String.eqb_refl, bool_decide_true. }
      apply andb_true_iff in Hsame as [_ Hik%bool_decide_eq_true].
      by rewrite (Hfree key k1 t1 Hik H1) in Hsym.
    + by eapply (Cu _ _ _ _ key H1 H2).
  - apply map_Forall_insert_2; [|done].
    destruct Hr as [task at_ Hr _|r at_ Hr _]; simpl; [by eapply Hsub|by eapply Cr].
  - by apply insert_mono.
  - by apply map_Forall_insert_2.
  - etrans; [apply delete_subseteq|done].
  - apply map_subseteq_spec. intros i x Hi. rewrite lookup_delete_ne by congruence.
    by eapply map_subseteq_spec.
  - by apply map_Forall_delete.
Qed.

Lemma moves_consistent now who sub s s' :
  (forall d r, sub d r -> task_wf r) -> rtc (move now who sub) s s' -> Consistent s -> Consistent s'.
Proof. intros Hsub. induction 1; eauto using move_consistent. Qed.

(** ** Histories

    Calls at any times, each under its own iteration order, and restarts. *)
Inductive Event : Type :=
| Called (o : HashOrder) (now : Instant) (c : Call)
| Restarted.

Definition happen (s : Store) (e : Event) : Store :=
  match e with Called o now c => perform o now c s | Restarted => load s end.

Definition empty_store (io : list (option string)) : Store := mkStore ∅ ∅ ∅ ∅ ∅ ∅ io.

(** The submitted records are well-formed ones (a new task, a dead notice). *)
Definition event_wf (e : Event) : Prop :=
  match e with
  | Called _ _ (CallEnqueue r | CallDeadLetter r | CallOutbox r) => task_wf r
  | Called _ _ (CallOutboxRows rs) => Forall task_wf rs
  | _ => True
  end.

Lemma happen_consistent e s : event_wf e -> Consistent s -> Consistent (happen s e).
Proof.
  intros He HC. destruct e as [o now c|].
  - eapply moves_consistent; [|apply call_moves, HC|done].
    intros [] r Hr; destruct c; simpl in Hr, He; try done; try (by subst).
    + destruct Hr as (k & row & Hk & _ & <-). by apply (con_rows _ HC k row).
    + rewrite Forall_forall in He. auto.
  - destruct HC as [Ct Co Cl Cf [Ck [Ck' _]] Cw Cr Cu]. unfold happen, load.
    split; simpl; rewrite <- ?Ct, <- ?Co; try done.
Qed.

Lemma empty_consistent io : Consistent (empty_store io).
Proof. split; simpl; try done; try apply map_Forall_empty. Qed.

Lemma history_consistent events s :
  Forall event_wf events -> Consistent s -> Consistent (foldl happen s events).
Proof. intros Hwf. revert s. induction Hwf; simpl; eauto using happen_consistent. Qed.

(** C6: the queue's invariant. After every history of store calls (any order of
    calls, any iteration order of the hash maps, any file-system failures, any
    restarts), the task and outbox indexes are exactly what is on disk, so a
    restart rewinds nothing; every live activation is on disk; every record
    sits under its own id; a task has a lease exactly while it is leased, a
    retry instant only while it is failed, and an attempt counted once it was
    leased; and no two tasks of a tenant share an idempotency key. *)
Theorem queue_invariant (io : list (option string)) (events : list Event) :
  Forall event_wf events -> Consistent (foldl happen (empty_store io) events).
Proof.
  intros Hwf. apply history_consistent; [done|apply empty_consistent].
Qed.
End Refinement.
