(* ===== verification/TaskQueue.v ===== *)
(** * Theorems about the task queue

    The store against the task lifecycle: settled work stays settled, a live
    lease is only its holder's, a claim takes the oldest eligible task, one
    turn per mailbox, growing fencing ordinals. *)

From Stdlib Require Import String SpecFloat.
From S2P Require Import Prelude Containers Json Error Record Durable Tasks TaskStore TaskStoreFacts.

Section Queue.
Context `{Calendar}.

(** ** Refinement *)

Lemma move_lookup now who sub s s' k :
  move now who sub s s' -> (forall r, sub ToQueue r -> tr_task_id r <> k) ->
  match st_tasks s !! k with
  | Some t => exists t', st_tasks s' !! k = Some t' /\ rtc (lifecycle now who) t t'
  | None => st_tasks s' !! k = None
  end.
Proof.
  intros Hm Hk. assert (Hsame : forall s', st_tasks s' = st_tasks s ->
    match st_tasks s !! k with
    | Some t => exists t', st_tasks s' !! k = Some t' /\ rtc (lifecycle now who) t t'
    | None => st_tasks s' !! k = None
    end).
  { intros s0 ->. destruct (st_tasks s !! k); eauto using rtc_refl. }
  destruct Hm as [s|s i t t' Ht Hl _|s r Hr _|s r _|s l _|s i|s i _]; try by apply Hsame.
  - simpl. destruct (decide (i = k)) as [->|Hne].
    + rewrite Ht, lookup_insert_eq. eauto using rtc_once.
    + rewrite lookup_insert_ne by done. by apply Hsame.
  - simpl. rewrite lookup_insert_ne by (by apply Hk). by apply Hsame.
Qed.

Lemma moves_lookup now who sub s s' k :
  rtc (move now who sub) s s' -> (forall r, sub ToQueue r -> tr_task_id r <> k) ->
  match st_tasks s !! k with
  | Some t => exists t', st_tasks s' !! k = Some t' /\ rtc (lifecycle now who) t t'
  | None => st_tasks s' !! k = None
  end.
Proof.
  intros Hm Hk. induction Hm as [s|s s1 s2 H1 H2 IH].
  { destruct (st_tasks s !! k); eauto using rtc_refl. }
  apply (move_lookup _ _ _ _ _ k) in H1; [|done].
  destruct (st_tasks s !! k) as [t|]; [|by rewrite H1 in IH].
  destruct H1 as (t1 & Ht1 & Hr1). rewrite Ht1 in IH. destruct IH as (t2 & Ht2 & Hr2).
  exists t2. split; [done|]. by etrans.
Qed.

(** A call does not submit a record under [k]. *)
Definition spares (c : Call) (s : Store) (k : string) : Prop :=
  forall r, submits c s ToQueue r -> tr_task_id r <> k.

(** C5: the store refines the task lifecycle. Whatever the call, the iteration
    order of the hash maps and the file system's failures, a task whose id the
    call does not submit goes through a (possibly empty) sequence of lifecycle
    steps, with the steps only a lease holder may take made by the calling
    worker; no other task appears, and none disappears. *)
Theorem store_refines_lifecycle (o : HashOrder) (now : Instant) (c : Call) (s : Store) (k : string) :
  Consistent s -> spares c s k ->
  match st_tasks s !! k with
  | Some t => exists t', st_tasks (perform o now c s) !! k = Some t'
                         /\ rtc (lifecycle now (acts_as c)) t t'
  | None => st_tasks (perform o now c s) !! k = None
  end.
Proof. intros HC Hk. eapply moves_lookup; [apply call_moves, HC|done]. Qed.

(** ** Settled work *)

(** Completed, cancelled, or failed with no retry scheduled. *)
Definition settled (t : TaskRecord) : Prop :=
  tr_status t = Completed \/ tr_status t = Cancelled
  \/ (tr_status t = Failed /\ tr_next_attempt_at t = None).

Lemma settled_inert now t : settled t \/ tr_status t = Dead -> claimable_at t now = false.
Proof.
  unfold settled, claimable_at. intros [[->|[->|[-> ->]]]| ->]; done.
Qed.

Lemma settled_stuck now who t t' : settled t -> ~ lifecycle now who t t'.
Proof.
  intros Hs Hl. pose proof (settled_inert now t (or_introl Hs)) as Hcl.
  destruct Hl as [t t' w ms Hc|t Hd|t t' w ms _ Hw|t w ? ? ? _ Hw|t t' w ? ? ? ? ? ? _ Hw|t t' ? Hc|t t' Hr].
  - congruence.
  - unfold cancellation_due in Hd. by rewrite Hcl in Hd.
  - apply leased_to_Leased in Hw as [Hw _]. destruct Hs as [?|[?|[? _]]]; congruence.
  - apply leased_to_Leased in Hw as [Hw _]. destruct Hs as [?|[?|[? _]]]; congruence.
  - apply leased_to_Leased in Hw as [Hw _]. destruct Hs as [?|[?|[? _]]]; congruence.
  - unfold cancel, is_terminal in Hc.
    by destruct Hs as [Hs|[Hs|[Hs Hn]]]; rewrite Hs, ?Hn in Hc.
  - unfold redrive in Hr. by destruct Hs as [Hs|[Hs|[Hs _]]]; rewrite Hs in Hr.
Qed.

(** Settled work stays settled. A completed, cancelled or outright failed
    task is left exactly as it is by every call that does not submit its id
    (claims, heartbeats, late settlements, cancels, re-drives, failed writes)
    and by every restart. *)
Theorem settled_final (e : Event) (s : Store) (k : string) (t : TaskRecord) :
  Consistent s -> st_tasks s !! k = Some t -> settled t ->
  (forall o now c, e = Called o now c -> spares c s k) ->
  st_tasks (happen s e) !! k = Some t.
Proof.
  intros HC Ht Hs Hsp. destruct e as [o now c|]; simpl.
  - pose proof (moves_lookup _ _ _ _ _ k (call_moves o now c s (con_keyed _ HC))
                  (Hsp o now c eq_refl)) as Hl.
    rewrite Ht in Hl. destruct Hl as (t' & -> & Hr). destruct Hr as [|t t1 t' H1 _]; [done|].
    by apply settled_stuck in H1.
  - by rewrite <- (con_tasks _ HC).
Qed.

(** ** Leases *)

Lemma live_at_spec t now :
  live_at t now = true <->
  tr_status t = Leased /\ exists l, tr_lease t = Some l /\ (now < tl_expires_at l)%Z.
Proof.
  unfold live_at. rewrite andb_true_iff, bool_decide_eq_true. split.
  - intros [Hs Hl]. destruct (tr_lease t) as [l|]; [|done]. apply Z.ltb_lt in Hl. eauto.
  - intros (Hs & l & -> & Hl). split; [done|]. by apply Z.ltb_lt.
Qed.

Lemma live_not_claimable t now : live_at t now = true -> claimable_at t now = false.
Proof.
  intros (Hs & l & Hl & He)%live_at_spec. unfold claimable_at. rewrite Hs, Hl. by apply Z.leb_gt.
Qed.

(** A step not taken by its holder leaves a live lease alone. *)
Lemma live_step now who t t' l :
  live_at t now = true -> tr_lease t = Some l -> who <> Some (tl_owner l) ->
  lifecycle now who t t' -> live_at t' now = true /\ tr_lease t' = Some l.
Proof.
  intros Hlive Hl Hwho Hlc. pose proof (live_not_claimable t now Hlive) as Hcl.
  assert (Hown : forall w, leased_to t w = true -> who = Some w -> False).
  { intros w (_ & l' & Hl' & <-)%leased_to_Leased ->. congruence. }
  destruct Hlc as [t t' w ms Hc|t Hd|t t' w ms Hw0 Hw|t w ? ? ? Hw0 Hw|t t' w ? ? ? ? ? ? Hw0 Hw|t t' ? Hc|t t' Hr].
  - congruence.
  - unfold cancellation_due in Hd. by rewrite Hcl in Hd.
  - by destruct (Hown w).
  - by destruct (Hown w).
  - by destruct (Hown w).
  - assert (Hs : tr_status t = Leased) by (by apply live_at_spec in Hlive as [? _]).
    unfold cancel in Hc. destruct (is_terminal t); [done|].
    rewrite bool_decide_true in Hc by done. injection Hc as _ <-. done.
  - apply live_at_spec in Hlive as [Hs _]. unfold redrive in Hr. by rewrite Hs in Hr.
Qed.

(** C23: no live lease is taken away. While a task's lease is live, every call
    that does not submit its id leaves the task leased to the same owner until
    the same instant, unless the call is a heartbeat, completion or failure
    report of that very owner. *)
Theorem live_lease_protected (o : HashOrder) (now : Instant) (c : Call) (s : Store) (k : string)
    (t : TaskRecord) (l : TaskLease) :
  Consistent s -> st_tasks s !! k = Some t -> tr_lease t = Some l -> live_at t now = true ->
  spares c s k -> acts_as c <> Some (tl_owner l) ->
  exists t', st_tasks (perform o now c s) !! k = Some t'
    /\ tr_status t' = Leased /\ tr_lease t' = Some l.
Proof.
  intros HC Ht Hl Hlive Hsp Hwho.
  pose proof (moves_lookup _ _ _ _ _ k (call_moves o now c s (con_keyed _ HC)) Hsp) as Hm.
  rewrite Ht in Hm. destruct Hm as (t' & -> & Hr). exists t'. split; [done|].
  assert (Hend : live_at t' now = true /\ tr_lease t' = Some l).
  { clear Ht. induction Hr as [|t t1 t' H1 _ IH]; [done|].
    destruct (live_step _ _ _ _ _ Hlive Hl Hwho H1) as [Hlive1 Hl1]. auto. }
  destruct Hend as [[? _]%live_at_spec ?]. done.
Qed.

(** ** Claims *)

Lemma older_spec a b :
  older a b = true <->
  (tr_created_at a < tr_created_at b)%Z
  \/ (tr_created_at a = tr_created_at b /\ str_lt (tr_task_id a) (tr_task_id b)).
Proof.
  unfold older. rewrite orb_true_iff, andb_true_iff, Z.ltb_lt, Z.eqb_eq, BTree.str_ltb_lt. done.
Qed.

Lemma older_irrefl a : older a a = false.
Proof.
  apply not_true_iff_false. rewrite older_spec. intros [?|[_ Hlt]]; [lia|].
  by apply str_lt_irrefl in Hlt.
Qed.

Lemma older_trans a b c : older a b = true -> older b c = true -> older a c = true.
Proof.
  rewrite !older_spec. intros [?|[? ?]] [?|[? ?]]; [left; lia..|right].
  split; [lia|]. by eapply str_lt_trans.
Qed.

Lemma older_total a b : tr_task_id a <> tr_task_id b -> older a b = true \/ older b a = true.
Proof.
  intros Hne. rewrite !older_spec.
  destruct (Z.lt_total (tr_created_at a) (tr_created_at b)) as [?|[?|?]]; [tauto| |tauto].
  destruct (str_trichotomy (tr_task_id a) (tr_task_id b)) as [?|[?|?]]; [tauto|done|].
  right. right. split; [lia|done].
Qed.

Lemma min_by_least l x : min_by older l = Some x -> forall y, y ∈ l -> older y x = false.
Proof.
  unfold min_by. assert (Hgen : forall l seen o,
      (forall b, o = Some b -> forall y, y ∈ seen -> older y b = false) ->
      (o = None -> seen = []) ->
      foldl (fun best x => match best with Some b => if older x b then Some x else Some b
                           | None => Some x end) o l = Some x ->
      forall y, y ∈ seen ++ l -> older y x = false).
  { clear l. induction l as [|z l IH]; intros seen o Ho Hn Hx y Hy; simpl in Hx.
    - rewrite app_nil_r in Hy. by eapply Ho.
    - rewrite cons_middle, app_assoc in Hy. refine (IH (seen ++ [z]) _ _ _ Hx y Hy).
      + intros b Hb y' Hy'. destruct o as [b0|].
        * specialize (Ho b0 eq_refl). destruct (older z b0) eqn:Hz; simplify_eq.
          -- apply elem_of_app in Hy' as [Hy'|Hy'%list_elem_of_singleton]; [|by subst; apply older_irrefl].
             apply not_true_iff_false. intros Hlt. apply Ho in Hy'.
             by rewrite (older_trans _ _ _ Hlt Hz) in Hy'.
          -- apply elem_of_app in Hy' as [Hy'|Hy'%list_elem_of_singleton]; [auto|by subst].
        * rewrite (Hn eq_refl) in Hy'. injection Hb as <-.
          apply list_elem_of_singleton in Hy' as ->. apply older_irrefl.
      + by destruct o as [b0|]; [destruct (older z b0)|]. }
  intros Hx y Hy. by apply (Hgen l [] None).
Qed.

Lemma min_by_None {A} (ltb : A -> A -> bool) l : min_by ltb l = None -> l = [].
Proof.
  unfold min_by. destruct l as [|x l]; [done|]. simpl. intros Hn. exfalso.
  assert (Hgen : forall l b, foldl (fun best x => match best with
      | Some b => if ltb x b then Some x else Some b | None => Some x end) (Some b) l <> None).
  { clear. intros l. induction l as [|y l IH]; intros b; simpl; [done|]. destruct (ltb y b); apply IH. }
  by apply Hgen in Hn.
Qed.

(** The least of the indexed tasks that satisfy [P], whatever the order. *)
Lemma oldest_spec `{HashOrder} (P : TaskRecord -> bool) s :
  keyed s ->
  match min_by older (filter (fun t => P t) (values (st_tasks s))) with
  | None => map_Forall (fun _ u => P u = false) (st_tasks s)
  | Some c => st_tasks s !! tr_task_id c = Some c /\ P c = true
      /\ map_Forall (fun _ u => P u = true -> u = c \/ older c u = true) (st_tasks s)
  end.
Proof.
  intros Hk. set (l := filter _ _).
  assert (Hl : forall k u, st_tasks s !! k = Some u -> P u = true -> u ∈ l).
  { intros k u Hu HP. apply list_elem_of_filter. split; [by apply Is_true_true|].
    apply values_elem. eauto. }
  destruct (min_by older l) as [c|] eqn:Hmin.
  - pose proof (min_by_least l c Hmin) as Hleast.
    apply min_by_elem, list_elem_of_filter in Hmin as [HP%Is_true_true Hc].
    apply values_task in Hc; [|done]. split_and!; [done..|]. intros k u Hu HPu.
    assert (Huk : tr_task_id u = k) by (by apply Hk).
    pose proof (Hleast u (Hl k u Hu HPu)) as Hno.
    destruct (decide (tr_task_id c = tr_task_id u)) as [He|Hne]; [left; congruence|right].
    destruct (older_total _ _ Hne); [done|congruence].
  - apply min_by_None in Hmin. intros k u Hu. apply not_true_iff_false. intros HPu.
    specialize (Hl k u Hu HPu). rewrite Hmin in Hl. by apply not_elem_of_nil in Hl.
Qed.

Lemma pool_eligible_perm scope l1 l2 tenant now t :
  l1 ≡ₚ l2 -> pool_eligible scope l1 tenant now t = pool_eligible scope l2 tenant now t.
Proof.
  intros Hp. unfold pool_eligible, saturated.
  assert (Hlen : forall pool, live_leases l1 tenant pool now = live_leases l2 tenant pool now).
  { intros pool. unfold live_leases. apply Permutation_length. by rewrite Hp. }
  by rewrite Hlen.
Qed.

(** The queue the claim chooses from, and the tasks it may choose. *)
Definition after_sweep (tenant : string) (now : Instant) (s : Store) : gmap string TaskRecord :=
  swept tenant now <$> st_tasks s.

Definition choosable (scope : ClaimScope) (tenant : string) (now : Instant) (s : Store)
    (t : TaskRecord) : bool :=
  pool_eligible scope (map_to_list (after_sweep tenant now s)).*2 tenant now t.

(** C26: a pool claim takes the oldest eligible task. A successful claim first
    turns every due cancellation and elapsed deadline of the tenant terminal;
    then, if no task is eligible (tenant, pool, no recipient, claimable, pool
    below its live-lease limit, version pin), it hands out nothing; otherwise
    it leases the eligible task created first (ties broken by id), for at most
    the requested time, and changes nothing else. The choice does not depend on the
    hash map's iteration order. *)
Theorem claim_takes_oldest (o : HashOrder) (tenant worker : string) (scope : ClaimScope)
    (lease_ms : N) (now : Instant) (s s' : Store) (res : option TaskRecord) :
  Consistent s -> claim_task tenant worker scope lease_ms now s = (Ok res, s') ->
  match res with
  | None => st_tasks s' = after_sweep tenant now s
            /\ map_Forall (fun _ t => choosable scope tenant now s t = false) (st_tasks s')
  | Some t' =>
      exists t ms, after_sweep tenant now s !! tr_task_id t = Some t
        /\ choosable scope tenant now s t = true
        /\ map_Forall (fun _ u => choosable scope tenant now s u = true ->
             u = t \/ (tr_created_at t < tr_created_at u)%Z
             \/ (tr_created_at t = tr_created_at u /\ str_lt (tr_task_id t) (tr_task_id u)))
             (after_sweep tenant now s)
        /\ (ms <= lease_ms)%N /\ claim worker ms now t = Some t'
        /\ st_tasks s' = <[tr_task_id t := t']> (after_sweep tenant now s)
  end.
Proof.
  intros HC Hclaim. unfold claim_task in Hclaim.
  unfold mbind at 1, M_bind in Hclaim. pose proof (con_keyed _ HC) as Hk.
  destruct (finalize_due_spec now None (fun _ _ => True) tenant s Hk) as [Hr Hp].
  apply runs_keyed in Hr; [|done].
  destruct (finalize_due_locked tenant now s) as [[[]|e] s1]; [|done]. simpl in Hr.
  destruct (Hp s1 eq_refl) as [_ Hq]. clear Hp.
  assert (Hs1 : st_tasks s1 = after_sweep tenant now s).
  { apply map_eq. intros k. rewrite Hq. symmetry. apply lookup_fmap. }
  assert (Hel : forall t, pool_eligible scope (values (st_tasks s1)) tenant now t
                          = choosable scope tenant now s t).
  { intros t. unfold choosable. rewrite <- Hs1. apply pool_eligible_perm, values_perm. }
  unfold mbind at 1, M_bind, read in Hclaim.
  pose proof (oldest_spec (fun t => pool_eligible scope (values (st_tasks s1)) tenant now t) s1 Hr)
    as Hmin.
  destruct (min_by older _) as [c|].
  - destruct Hmin as (Hc & Hch & Hall). unfold mbind, M_bind, expect in Hclaim.
    rewrite Hc in Hclaim. simpl in Hclaim. set (ms := policy_lease_ms _ _ _) in Hclaim.
    destruct (claim worker ms now c) as [t'|] eqn:Ht'; [|done]. simpl in Hclaim.
    assert (Hid : tr_task_id t' = tr_task_id c) by (by apply claim_spec in Ht' as (? & _ & [? _] & _)).
    destruct (swap_task_cases (tr_task_id c) t' s1 Hid) as [[e He]|He]; rewrite He in Hclaim; [done|].
    injection Hclaim as <- <-. exists c, ms. rewrite <- Hs1, <- Hel. split_and!; try done.
    + intros k u Hu Hcu. rewrite <- Hel in Hcu. rewrite <- older_spec. by apply (Hall k).
    + unfold ms, policy_lease_ms. destruct (resolve_timeout_bound_ms _ _); lia.
  - injection Hclaim as <- <-. split; [done|]. intros k u Hu. rewrite <- Hel. by apply (Hmin k).
Qed.

(** ** One turn per mailbox *)

(** The task under [k] is a live turn of the mailbox. *)
Definition turn (s : Store) (now : Instant) (tenant recipient k : string) : Prop :=
  exists t, st_tasks s !! k = Some t /\ tr_tenant t = tenant /\ tr_recipient t = Some recipient
    /\ live_at t now = true.

Definition one_turn (s : Store) (now : Instant) : Prop :=
  forall tenant recipient k1 k2,
    turn s now tenant recipient k1 -> turn s now tenant recipient k2 -> k1 = k2.

Lemma one_turn_tasks s s' now : st_tasks s' = st_tasks s -> one_turn s now -> one_turn s' now.
Proof. unfold one_turn, turn. by intros ->. Qed.

Lemma live_later t now now' : (now <= now')%Z -> live_at t now' = true -> live_at t now = true.
Proof. intros Hle. rewrite !live_at_spec. intros (Hs & l & Hl & He). eauto with lia. Qed.

Lemma one_turn_later s now now' : (now <= now')%Z -> one_turn s now -> one_turn s now'.
Proof.
  intros Hle Ho tenant recipient k1 k2 (t1 & H1 & H2 & H3 & H4) (t2 & G1 & G2 & G3 & G4).
  apply (Ho tenant recipient); [exists t1|exists t2]; eauto using live_later.
Qed.

(** Replacing one record keeps one turn, if the new one is idle, was live
    before, or is alone. *)
Lemma one_turn_put k t t' s now :
  st_tasks s !! k = Some t -> same_identity t t' ->
  (live_at t' now = true -> live_at t now = true \/ tr_recipient t = None
     \/ forall i u, st_tasks s !! i = Some u -> same_mailbox t u -> live_at u now = false) ->
  one_turn s now -> one_turn (put_task k t' (pop_io s)) now.
Proof.
  intros Ht (_ & Hten & _ & Hrec & _) Hgate Ho tenant recipient k1 k2 (t1 & H1 & H2 & H3 & H4) (t2 & G1 & G2 & G3 & G4).
  simpl in H1, G1. rewrite lookup_insert_Some in H1, G1.
  assert (Hcase : forall i u, st_tasks s !! i = Some u -> tr_tenant u = tenant ->
    tr_recipient u = Some recipient -> live_at u now = true -> tr_tenant t' = tenant ->
    tr_recipient t' = Some recipient -> live_at t' now = true -> i = k).
  { intros i u Hu Hut Hur Hul Ht't Ht'r Ht'l. rewrite Hten in Ht't. rewrite Hrec in Ht'r.
    destruct (Hgate Ht'l) as [Hl|[Hn|Hall]]; [|congruence|].
    - apply (Ho tenant recipient); [by exists u|by exists t].
    - rewrite (Hall i u Hu) in Hul; [done|]. split; congruence. }
  destruct H1 as [[<- <-]|[_ H1]], G1 as [[<- <-]|[_ G1]]; [done|..].
  - symmetry. by eapply Hcase.
  - by eapply Hcase.
  - apply (Ho tenant recipient); [by exists t1|by exists t2].
Qed.

Lemma idle_not_live t now : tr_status t <> Leased -> live_at t now = false.
Proof. intros Hs. unfold live_at. by rewrite bool_decide_false. Qed.

Lemma move_one_turn now sub s s' :
  (forall r, sub ToQueue r -> tr_status r <> Leased) ->
  move now None sub s s' -> one_turn s now -> one_turn s' now.
Proof.
  intros Hsub Hm Ho.
  destruct Hm as [s|s k t t' Ht Hl Hg|s r Hr _|s r _|s l _|s i|s i _];
    try (by eapply one_turn_tasks; [|exact Ho]).
  - apply lifecycle_identity in Hl as Hid. eapply one_turn_put; eauto.
    intros Hlive. destruct (live_at t now) eqn:Hlt; [by left|]. right. by apply Hg.
  - intros tenant recipient k1 k2 (t1 & H1 & H2 & H3 & H4) (t2 & G1 & G2 & G3 & G4).
    simpl in H1, G1. rewrite lookup_insert_Some in H1, G1.
    pose proof (idle_not_live r now (Hsub r Hr)) as Hidle.
    destruct H1 as [[_ <-]|[_ H1]], G1 as [[_ <-]|[_ G1]]; try congruence.
    apply (Ho tenant recipient); [by exists t1|by exists t2].
Qed.

Lemma moves_one_turn now sub s s' :
  (forall r, sub ToQueue r -> tr_status r <> Leased) ->
  rtc (move now None sub) s s' -> one_turn s now -> one_turn s' now.
Proof. intros Hsub. induction 1; eauto using move_one_turn. Qed.

Lemma mutate_cases `{HashOrder} tenant id worker f s :
  keyed s -> (forall t t', f t = Some t' -> same_identity t t') ->
  st_tasks (mutate_task tenant id worker f s).2 = st_tasks s
  \/ exists t t', st_tasks s !! id = Some t /\ leased_to t worker = true /\ f t = Some t'
       /\ (mutate_task tenant id worker f s).2 = put_task id t' (pop_io s).
Proof.
  intros Hk Hf. unfold mutate_task, mbind, M_bind, read, expect.
  destruct (st_tasks s !! id) as [t|] eqn:Ht; [|by left].
  destruct (negb (of_tenant tenant t)); [by left|].
  destruct (leased_to t worker) eqn:Hw; simpl; [|by left].
  destruct (f t) as [t'|] eqn:Ht'; simpl; [|by left].
  destruct (swap_task_cases id t' s) as [[e ->]| ->]; [|by left|right; simpl; eauto 10].
  rewrite (proj1 (Hf t t' Ht')). by apply Hk.
Qed.

(** A heartbeat that finds its lease lapsed revives it. *)
Definition revives (c : Call) (now : Instant) (s : Store) : Prop :=
  match c with
  | CallHeartbeat _ k _ _ =>
      exists t, st_tasks s !! k = Some t /\ tr_status t = Leased /\ live_at t now = false
  | _ => False
  end.

(** C27: one message at a time per agent. If at most one message of every
    mailbox is in flight (leased and not lapsed) when a call arrives, the same
    holds after it and at every later instant, provided the call submits no
    leased record and is not a heartbeat on a lapsed lease. *)
Theorem turn_serialized (o : HashOrder) (now now' : Instant) (c : Call) (s : Store) :
  Consistent s -> (forall r, submits c s ToQueue r -> tr_status r <> Leased) ->
  ~ revives c now s -> one_turn s now -> (now <= now')%Z -> one_turn (perform o now c s) now'.
Proof.
  intros HC Hsub Hrev Hone Hle. apply (one_turn_later _ now); [done|]. pose proof (con_keyed _ HC) as Hk.
  assert (Hmut : forall tenant id worker f,
    (forall t t', f t = Some t' -> same_identity t t') ->
    (forall t t', st_tasks s !! id = Some t -> leased_to t worker = true -> f t = Some t' ->
       live_at t' now = true -> live_at t now = true) ->
    one_turn (mutate_task tenant id worker f s).2 now).
  { intros tenant id worker f Hf Hl.
    destruct (mutate_cases tenant id worker f s Hk Hf) as [Hs|(t & t' & Ht & Hw & Hft & ->)].
    - by eapply one_turn_tasks.
    - eapply one_turn_put; eauto. }
  pose proof (call_moves o now c s Hk) as Hm.
  destruct c; try (eapply moves_one_turn; [|exact Hm|done]; exact Hsub); simpl.
  - apply Hmut.
    + intros t t' Hr. unfold renew_lease in Hr.
      destruct (tr_lease t); [destruct (plus_ms _ _)|]; by simplify_eq/=.
    + intros t t' Ht [Hs _]%leased_to_Leased _ _. destruct (live_at t now) eqn:Hl; [done|].
      destruct Hrev. simpl. eauto.
  - apply Hmut; [by intros t t' [= <-]|]. by intros t t' _ _ [= <-].
  - apply Hmut.
    + intros t t' Hf. unfold fail in Hf. destruct (classify_retry_with_policy _ _ _ _ _);
        [destruct (plus_ms _ _)|..]; by simplify_eq/=.
    + intros t t' _ _ Hf. unfold fail in Hf. destruct (classify_retry_with_policy _ _ _ _ _);
        [destruct (plus_ms _ _)|..]; simplify_eq/=; repeat case_decide; done.
Qed.

(** ** Fencing *)

(** Claims and renewals, the calls a host makes while agents stay activated. *)
Definition activation_call (c : Call) : Prop :=
  match c with CallActivate _ _ _ | CallRenew _ _ _ _ => True | _ => False end.

(** The next lease of an agent: the same holder and ordinal, or, once it has
    lapsed, the next ordinal. *)
Definition succeeds (now : Instant) (l l' : ActivationLease) : Prop :=
  (al_owner l' = al_owner l /\ al_fencing l' = al_fencing l)
  \/ ((al_expires_at l <= now)%Z /\ al_fencing l' = ((al_fencing l + 1) mod 2 ^ 64)%N).

Lemma activation_step (o : HashOrder) now c s a l :
  activation_call c -> Consistent s -> st_leases s !! a = Some l ->
  exists l', st_leases (perform o now c s) !! a = Some l' /\ succeeds now l l'.
Proof.
  intros Hc HC Hl. assert (Hself : succeeds now l l) by (by left).
  destruct (con_keyed _ HC) as (_ & _ & Hk).
  destruct c; try done; simpl.
  - unfold claim_activation, persist_lease, expect, read, mbind, M_bind.
    destruct (st_leases s !! agent) as [cur|] eqn:Hcur; [destruct (Z.ltb_spec now (al_expires_at cur))|];
      [by eauto|..]; (destruct (plus_ms now lease_ms) as [e|]; [simpl|by eauto]);
      match goal with |- context [file_op ?c ?f s] =>
        destruct (file_op_cases c f s) as [[? ->]| ->] end; simpl; try (by eauto).
    + destruct (decide (agent = a)) as [->|Hne]; [|rewrite lookup_insert_ne by done; by eauto].
      rewrite lookup_insert_eq. eexists. split; [done|]. right. simpl. by simplify_eq.
    + rewrite lookup_insert_ne by (intros ->; congruence). by eauto.
  - unfold renew_activation, persist_lease, expect, read, mbind, M_bind.
    destruct (st_leases s !! agent) as [cur|] eqn:Hcur; [|by eauto].
    destruct (negb _); [by eauto|]. destruct (plus_ms now lease_ms) as [e|]; [simpl|by eauto].
    match goal with |- context [file_op ?c ?f s] =>
      destruct (file_op_cases c f s) as [[? ->]| ->] end; simpl; [by eauto|].
    destruct (decide (agent = a)) as [->|Hne]; [|rewrite lookup_insert_ne by done; by eauto].
    rewrite lookup_insert_eq. eexists. split; [done|]. left. simpl. by simplify_eq.
Qed.

(** Fencing. Over any sequence of activation claims and renewals (failed
    writes included), an agent's ordinal never goes back, and it stays with one
    owner until the lease lapses: so once the ordinal has moved, the operations
    guarded by it refuse the earlier holder, whatever its owner string. *)
Theorem fencing_grows (o : HashOrder) (calls : list (Instant * Call)) (s : Store) (a : string)
    (l : ActivationLease) :
  Consistent s -> Forall (fun nc => activation_call nc.2) calls -> st_leases s !! a = Some l ->
  (al_fencing l + N.of_nat (length calls) < 2 ^ 64)%N ->
  exists l', st_leases (foldl (fun s nc => perform o nc.1 nc.2 s) s calls) !! a = Some l'
    /\ (al_fencing l <= al_fencing l')%N
    /\ (al_fencing l' = al_fencing l -> al_owner l' = al_owner l)
    /\ ((al_fencing l < al_fencing l')%N ->
        forall owner now, held_by l' owner (al_fencing l) now = false).
Proof.
  intros HC Hcalls. revert s l HC. induction Hcalls as [|[now c] calls Hc _ IH]; intros s l HC Hl Hb.
  { exists l. simpl. split_and!; [done|lia|done|lia]. }
  destruct (activation_step o now c s a l Hc HC Hl) as (l1 & Hl1 & Hsucc). simpl in Hb, Hc.
  assert (Hf : (al_fencing l <= al_fencing l1 <= al_fencing l + 1)%N
               /\ (al_fencing l1 = al_fencing l -> al_owner l1 = al_owner l)).
  { destruct Hsucc as [[Ho Hf]|[_ Hf]]; [rewrite Hf; split; [lia|done]|].
    rewrite N.mod_small in Hf by lia. rewrite Hf. split; [lia|]. lia. }
  destruct (IH (perform o now c s) l1) as (l' & Hl' & Hle & Ho & _).
  - eapply moves_consistent; [|apply call_moves, HC|done].
    intros d r Hr. destruct c, d; by simpl in Hr.
  - done.
  - simpl in Hb. lia.
  - exists l'. split_and!; [done|lia| |].
    + intros He. assert (al_fencing l1 = al_fencing l) by lia. destruct Hf as [_ Hf].
      rewrite Ho by lia. by apply Hf.
    + intros Hlt owner now'. unfold held_by. destruct (N.eqb_spec (al_fencing l') (al_fencing l)); [lia|].
      by rewrite andb_false_r.
Qed.
End Queue.

(** ** Concrete runs of the task queue

    The theorems of the queue at concrete histories, and four runs in which
    the file store departs from its documentation. *)

Local Open Scope string_scope.

Module QueueExamples.

(** chrono's last instant, and key order as an iteration order. *)
#[export] Instance calendar : Calendar := {| max_instant := 8210266876799999999999 |}.

#[export] Instance by_key : HashOrder :=
  {| values A m := (map_to_list m).*2; values_perm A m := Permutation_refl _ |}.

(** Milliseconds. *)
Definition ms (n : Z) : Instant := (n * 1000000)%Z.

Definition new_task (id : string) (recipient key : option string) (max : N) (at_ : Instant) : TaskRecord :=
  task_new (mkNewTask id "acme" "send_email" Null "default" recipient max key None None None None
              None None 0 CatTodo None) at_.

Definition no_cost : SettlementCost := mkCost None None.
Definition transient (max : N) : FailureReport :=
  mkFailure CTransient "reset" true no_cost (retry_floor max).
Definition pools : ClaimScope := mkScope ["default"] ∅ None static_v0.
Definition host (fencing : N) : MailboxClaimScope :=
  mkMailboxScope "acme/a" "agent:a" "h1" fencing.

Lemma new_task_wf id recipient key max at_ : task_wf (new_task id recipient key max at_).
Proof. split_and!; simpl; [split; [by intros []|done]|by intros []|done]. Qed.

Abbreviation call at_ c := (Called by_key (ms at_) c).
Definition after (io : list (option string)) (events : list Event) : Store :=
  foldl happen (empty_store io) events.
Definition status_of (s : Store) (k : string) : option (TaskStatus * N) :=
  (fun t => (tr_status t, tr_attempt t)) <$> st_tasks s !! k.

(** ** The theorems at concrete runs *)

(** Two tasks share a key; the second is absorbed. The first is leased. *)
Definition leased_run : list Event :=
  [call 0 (CallEnqueue (new_task "t1" None (Some "k") 3 (ms 0)));
   call 1 (CallEnqueue (new_task "t2" None (Some "k") 3 (ms 1)));
   call 2 (CallClaim "acme" "w1" pools 1000)].

Lemma leased_run_wf : Forall event_wf leased_run.
Proof. repeat constructor; apply new_task_wf. Qed.

Definition done_run : list Event :=
  (leased_run ++ [call 3 (CallComplete "acme" "t1" "w1" (mkCompletion Null None no_cost))])%list.

Lemma queue_invariant_witness :
  status_of (after [] leased_run) "t1" = Some (Leased, 1%N)
  /\ status_of (after [] leased_run) "t2" = None
  /\ Consistent (after [] leased_run).
Proof.
  split_and!; [vm_compute; reflexivity..|]. apply (queue_invariant [] leased_run), leased_run_wf.
Defined.

Lemma consistent_after io events : Forall event_wf events -> Consistent (after io events).
Proof. intros Hwf. apply history_consistent; [done|apply empty_consistent]. Qed.

Definition enqueued : Store := after [] (take 2 leased_run).

Lemma enqueued_consistent : Consistent enqueued.
Proof. apply consistent_after. repeat constructor; apply new_task_wf. Qed.

Lemma store_refines_lifecycle_witness :
  exists t', st_tasks (perform by_key (ms 2) (CallClaim "acme" "w1" pools 1000) enqueued) !! "t1" = Some t'
    /\ tr_status t' = Leased.
Proof.
  pose proof (store_refines_lifecycle by_key (ms 2) (CallClaim "acme" "w1" pools 1000) enqueued "t1"
                enqueued_consistent (fun r Hr => match Hr with end)) as Hr.
  assert (Hold : is_Some (st_tasks enqueued !! "t1")) by (vm_compute; eauto).
  destruct Hold as [t Ht]. rewrite Ht in Hr. destruct Hr as (t' & Ht' & _).
  exists t'. split; [exact Ht'|]. vm_compute in Ht'. injection Ht' as <-. reflexivity.
Defined.

(** A late failure report leaves a completed task alone. *)
Lemma settled_final_witness :
  exists t, st_tasks (happen (after [] done_run)
                        (call 9 (CallFail "acme" "t1" "w1" (transient 3) 0))) !! "t1" = Some t
    /\ tr_status t = Completed.
Proof.
  assert (Hold : is_Some (st_tasks (after [] done_run) !! "t1")) by (vm_compute; eauto).
  destruct Hold as [t Ht]. assert (Hs : tr_status t = Completed).
  { vm_compute in Ht. injection Ht as <-. reflexivity. }
  exists t. split; [|exact Hs]. apply settled_final; [|exact Ht|by left|].
  - apply consistent_after. repeat constructor; apply new_task_wf.
  - intros o now c He. injection He. intros <- _ _ r Hr. destruct Hr.
Defined.

(** Another worker's claim and completion do not touch the lease. *)
Lemma live_lease_protected_witness :
  exists t' l, st_tasks (perform by_key (ms 3) (CallComplete "acme" "t1" "w2" (mkCompletion Null None no_cost))
                           (after [] leased_run)) !! "t1" = Some t'
    /\ tr_status t' = Leased /\ tr_lease t' = Some l /\ tl_owner l = "w1".
Proof.
  assert (Hold : is_Some (st_tasks (after [] leased_run) !! "t1")) by (vm_compute; eauto).
  destruct Hold as [t Ht]. set (l := mkLease "w1" (ms 1002)).
  assert (Hl : tr_lease t = Some l /\ live_at t (ms 3) = true).
  { vm_compute in Ht. injection Ht as <-. split; reflexivity. }
  destruct Hl as [Hl Hlive].
  destruct (live_lease_protected by_key (ms 3)
              (CallComplete "acme" "t1" "w2" (mkCompletion Null None no_cost)) (after [] leased_run)
              "t1" t l (consistent_after [] _ leased_run_wf) Ht Hl Hlive
              (fun r Hr => match Hr with end) ltac:(discriminate)) as (t' & Ht' & Hs & Hl').
  exists t', l. split_and!; [exact Ht'|exact Hs|exact Hl'|reflexivity].
Defined.

Lemma claim_takes_oldest_witness :
  exists t', (claim_task "acme" "w1" pools 1000 (ms 2) enqueued).1 = Ok (Some t')
    /\ exists t n, choosable pools "acme" (ms 2) enqueued t = true /\ claim "w1" n (ms 2) t = Some t'.
Proof.
  destruct (claim_task "acme" "w1" pools 1000 (ms 2) enqueued) as [[[t'|]|e] s'] eqn:Hc;
    [|vm_compute in Hc; discriminate Hc..].
  exists t'. split; [reflexivity|].
  destruct (claim_takes_oldest by_key "acme" "w1" pools 1000 (ms 2) enqueued s' (Some t')
              enqueued_consistent Hc) as (t & n & _ & Hch & _ & _ & Hcl & _).
  exists t, n. split; [exact Hch|exact Hcl].
Defined.

(** ** Mailbox turns *)

(** A host drains the mailbox: the older message fails and backs off, the
    younger one is leased, and its lease lapses. *)
Definition mailbox_run : list Event :=
  [call 0 (CallActivate "acme/a" "h1" 3600000);
   call 1 (CallEnqueue (new_task "b" (Some "agent:a") None 3 (ms 1)));
   call 2 (CallEnqueue (new_task "c" (Some "agent:a") None 3 (ms 2)));
   call 3 (CallMail "acme" (host 1) 100);
   call 4 (CallFail "acme" "b" "h1" (transient 3) u64_max);
   call 5 (CallMail "acme" (host 1) 100);
   call 2000 (CallMail "acme" (host 1) 60000)].

Lemma mailbox_run_wf : Forall event_wf mailbox_run.
Proof. repeat constructor; apply new_task_wf. Qed.

(** With one message in flight the mailbox hands out nothing. *)
Lemma turn_serialized_witness :
  one_turn (perform by_key (ms 6) (CallMail "acme" (host 1) 100) (after [] (take 6 mailbox_run))) (ms 7).
Proof.
  apply (turn_serialized by_key (ms 6)).
  - apply consistent_after. repeat constructor; apply new_task_wf.
  - by intros r [].
  - intros [].
  - intros tenant recipient k1 k2 (t1 & H1 & _ & _ & L1) (t2 & H2 & _ & _ & L2).
    assert (Hc : map_Forall (fun k t => live_at t (ms 6) = true -> k = "c")
                   (st_tasks (after [] (take 6 mailbox_run)))).
    { apply (bool_decide_unpack _). vm_compute. exact I. }
    by rewrite (Hc k1 t1 H1 L1), (Hc k2 t2 H2 L2).
  - vm_compute. discriminate.
Defined.

(** Turn serialization fails for a revived lease. A message's lease lapses,
    the mailbox hands out an older one whose backoff has elapsed, and then the
    first turn's heartbeat, accepted although its lease has lapsed, makes two
    messages of one agent live at once. *)
Theorem lapsed_turn_revived :
  let s := after [] (mailbox_run ++ [call 2001 (CallHeartbeat "acme" "c" "h1" 60000)]) in
  turn s (ms 2002) "acme" "agent:a" "b" /\ turn s (ms 2002) "acme" "agent:a" "c".
Proof.
  cbv zeta. split; eexists; (split; [vm_compute; reflexivity|]); split_and!; vm_compute; reflexivity.
Qed.

(** ** The outbox *)

(** A row's publish queues the task, but marking the row published fails; the
    task is claimed and completed; the relay's next pass runs. *)
Definition outbox_run : list Event :=
  [call 0 (CallOutbox (new_task "t" None None 3 (ms 0)));
   call 1 (CallPublish 100);
   call 2 (CallClaim "acme" "w1" pools 1000);
   call 3 (CallComplete "acme" "t" "w1" (mkCompletion Null None no_cost))].

(** A retried publish resets a finished task. The enqueue's deduplication
    is by idempotency key only: for a task without one, the pass that retries a
    half-done publish replaces the completed record by the queued original, so
    the work runs again. *)
Theorem republish_resets_completed :
  let io := [None; None; Some "disk full"] in
  status_of (after io outbox_run) "t" = Some (Completed, 1%N)
  /\ status_of (after io (outbox_run ++ [call 4 (CallPublish 100)])) "t" = Some (Queued, 0%N).
Proof. split; vm_compute; reflexivity. Qed.

(** ** Re-driving *)

(** The holder of a cancelled task reports a failure that exhausts the budget;
    an operator re-drives the dead letter. *)
Definition redrive_run : list Event :=
  [call 0 (CallEnqueue (new_task "t" None None 1 (ms 0)));
   call 1 (CallClaim "acme" "w1" pools 1000);
   call 2 (CallCancel "acme" "t");
   call 3 (CallFail "acme" "t" "w1" (transient 1) 0);
   call 4 (CallRedrive "acme" "t")].

(** A re-driven task may never be handed out. A re-drive keeps the earlier
    cancellation request, so the next claim finalizes the requeued task as
    cancelled instead of leasing it for one more attempt. *)
Theorem redriven_cancelled_unclaimed :
  status_of (after [] (take 4 redrive_run)) "t" = Some (Dead, 1%N)
  /\ status_of (after [] redrive_run) "t" = Some (Queued, 1%N)
  /\ (claim_task "acme" "w2" pools 1000 (ms 5) (after [] redrive_run)).1 = Ok None
  /\ status_of (claim_task "acme" "w2" pools 1000 (ms 5) (after [] redrive_run)).2 "t"
     = Some (Cancelled, 1%N).
Proof. split_and!; vm_compute; reflexivity. Qed.

(** ** Fencing *)

Lemma fencing_grows_witness :
  exists l', st_leases (foldl (fun s nc => perform by_key nc.1 nc.2 s)
                          (after [] [call 0 (CallActivate "acme/a" "h1" 100)])
                          [(ms 500, CallActivate "acme/a" "h2" 100)]) !! "acme/a" = Some l'
    /\ al_fencing l' = 2%N /\ held_by l' "h1" 1 (ms 501) = false.
Proof.
  set (s := after [] [call 0 (CallActivate "acme/a" "h1" 100)]).
  set (l := mkActivation "acme/a" "h1" 1 (ms 100) (ms 0)).
  destruct (fencing_grows by_key [(ms 500, CallActivate "acme/a" "h2" 100)] s "acme/a" l)
    as (l' & Hl' & _ & _ & Hstale).
  - apply consistent_after. repeat constructor.
  - repeat constructor.
  - vm_compute. reflexivity.
  - vm_compute. reflexivity.
  - exists l'. assert (Hf : al_fencing l' = 2%N).
    { vm_compute in Hl'. injection Hl' as <-. reflexivity. }
    split_and!; [exact Hl'|exact Hf|]. apply Hstale. rewrite Hf. vm_compute. reflexivity.
Defined.

(** A release restarts the ordinal. The lease record is removed, so the
    next claim counts from one again: a host that crashed after an earlier
    activation passes the fencing check of its restarted namesake. *)
Theorem released_fencing_restarts :
  let s1 := after [] [call 0 (CallActivate "acme/a" "h1" 60000);
                      call 1 (CallRelease "acme/a" "h1" 1)] in
  exists l, (claim_activation "acme/a" "h1" 60000 (ms 2) s1).1 = Ok (ActClaimed l)
    /\ held_by l "h1" 1 (ms 3) = true.
Proof. eexists. split; vm_compute; reflexivity. Qed.
End QueueExamples.
