(* ===== verification/Executor.v ===== *)
(** * The executor ([rusty-core/src/executor.rs], [rusty-core/src/node.rs])

    One run of the graph engine: flight-recorder setup, fresh start or resume,
    the run-config declaration, and the super-step loop with its ceilings,
    inbox boundary, cancellation, and the six phases of a super-step (plan,
    compute, barrier, merge, route, checkpoint).

    The run threads a [World]: the clocks, the journal, the id counter, the
    inbox, the checkpoint store and the emitted events. Node bodies, the
    scheduler and the outside world are the environment: a list of actions per
    point of the run at which other tasks may act, quantified over by every
    theorem. A computation returns, fails, or waits for ever (a node that
    never finishes). *)

From Stdlib Require Import String.
From S2P Require Import Prelude Containers Json Error State Graph Record Journal Inbox Checkpoint Meter.
Local Open Scope string_scope.

(** ** Nodes *)

(** [Command]. *)
Record Command : Type := mkCommand { cmd_goto : list string; cmd_resume : option Value }.

(** [Command::is_noop]. *)
Definition is_noop (c : Command) : bool :=
  match cmd_goto c, cmd_resume c with [], None => true | _, _ => false end.

(** [NodeOutput]. *)
Record NodeOutput : Type := mkOutput { out_updates : Updates; out_command : option Command }.

(** [NodeConfig]: [cfg_extra] is the extension map. *)
Record NodeConfig : Type := mkNodeConfig {
  cfg_thread_id : string;
  cfg_step : nat;
  cfg_resume : option Value;
  cfg_extra : list (string * Value);
}.

(** The invocation handed to a spawned task: the [NodeContext]'s state and
    config, with its node and input event. *)
Record Invocation : Type := mkInvocation {
  inv_node : string;
  inv_state : State;
  inv_config : NodeConfig;
  inv_effect : Effect;
  inv_input_event : string;
}.

(** Serialized commands and outputs. *)
Definition command_value (c : Command) : Value :=
  jobj ([("goto", jstrs (cmd_goto c))] ++ jopt "resume" (cmd_resume c))%list.

Definition output_value (o : NodeOutput) : Value :=
  jobj [("updates", jobj (out_updates o)); ("command", jnull (command_value <$> out_command o))].

(** ** Run configuration and results *)

(** [GraphEvent] (the variants the executor emits). *)
Inductive GraphEvent : Type :=
| NodeStart (node : string) (step : nat)
| NodeEnd (node : string) (step : nat)
| StateUpdate (step : nat) (updates : list (string * Value))
| CheckpointSaved (checkpoint_id : string) (step : nat)
| SuperStep (step : nat) (active_nodes : list string).

(** [ExecutionOutcome]. *)
Inductive ExecutionOutcome : Type :=
| Done (state : State)
| Interrupted (value : Value) (state : State) (checkpoint_id : string).

(** [ExecutionOutcome::state], [is_interrupted]. *)
Definition outcome_state (o : ExecutionOutcome) : State :=
  match o with Done s | Interrupted _ s _ => s end.
Definition outcome_interrupted (o : ExecutionOutcome) : bool :=
  match o with Interrupted _ _ _ => true | Done _ => false end.

(** [RunConfig]: what the run loop reads. The journal and the clocks are
    handles into the world; the cancellation token is part of the environment;
    [cf_event_tx] says whether the channel has room after the events it took. *)
Record RunConfig : Type := mkRunConfig {
  cf_thread_id : string;
  cf_max_steps : nat;
  cf_resume : option Value;
  cf_checkpoint_id : option string;
  cf_event_tx : option (list GraphEvent -> bool);
  cf_clock : option nat;
  cf_journal : option Journal;
  cf_policy_version : option PolicyVersion;
  cf_graph_version : option string;
  cf_manifest : option RunManifest;
  cf_tool_allowlist : option (list string);
  cf_instructions : option string;
  cf_model : option string;
  cf_fallback_model : option string;
  cf_temperature : option Float64;
  cf_attribution : option Value;
  cf_execution : option Value;
  cf_skills : option Value;
  cf_context_policy : option Value;
  cf_tool_overlays : option Value;
  cf_tool_outcomes : option Value;
  cf_agent_id : option string;
  cf_started_at : option DateTime;
  cf_counterpart : option Value;
  cf_memory_blocks : option string;
  cf_compaction_state : bool;
  cf_budget : option RunBudget;
}.

(** [ActiveTask], [StepTransition]. *)
Record ActiveTask : Type := mkTask { task_name : string; task_scoped : option Value }.

Inductive StepTransition : Type :=
| Next (next : list ActiveTask) (route_event : string) (extension : list InboxMessage)
| Finish (outcome : ExecutionOutcome).

(** ** The world and its monad *)

(** The wall clock's handle. *)
Definition SYSTEM_CLOCK : nat := 0.

Record World (St : Type) : Type := mkWorld {
  w_clocks : Clocks;
  w_journal : Journal;
  w_minted : nat;
  w_inbox : option Inbox;
  w_store : option St;
  w_emitted : list GraphEvent;
}.
Arguments mkWorld {St}.
Arguments w_clocks {St}.
Arguments w_journal {St}.
Arguments w_minted {St}.
Arguments w_inbox {St}.
Arguments w_store {St}.
Arguments w_emitted {St}.

(** A computation returns, fails, or waits for ever. *)
Inductive Run (A : Type) : Type :=
| Ret (a : A)
| Fail (e : RustyError)
| Wait.
Arguments Ret {A} a.
Arguments Fail {A} e.
Arguments Wait {A}.

Definition M (St A : Type) : Type := World St -> Run A * World St.

#[export] Instance M_ret (St : Type) : MRet (M St) := fun A a w => (Ret a, w).

#[export] Instance M_bind (St : Type) : MBind (M St) := fun A B f m w =>
  match m w with
  | (Ret a, w') => f a w'
  | (Fail e, w') => (Fail e, w')
  | (Wait, w') => (Wait, w')
  end.

(** [?] on a result. *)
Definition lift {St A : Type} (r : res A) : M St A := fun w =>
  (match r with Ok a => Ret a | Err e => Fail e end, w).

Definition fail {St A : Type} (e : RustyError) : M St A := fun w => (Fail e, w).

Definition gets {St A : Type} (f : World St -> A) : M St A := fun w => (Ret (f w), w).

(** ** The environment *)

(** How a spawned task ends: the node's result, or a panic the join reports. *)
Inductive TaskResult : Type :=
| TaskOk (o : NodeOutput)
| TaskErr (e : RustyError)
| TaskPanic (e : string).

(** What other tasks may do: a spawned task starts (reading the run's clock),
    finishes (reading it again), or is joined; node code and outside code
    record events, send into the inbox, cancel. *)
Inductive EnvAction : Type :=
| EnvStart (index : nat)
| EnvFinish (index : nat) (result : TaskResult)
| EnvJoin
| EnvRecord (draft : EventDraft)
| EnvSend (sender : string) (target : InboxTarget) (wakeup : bool) (content : Value)
| EnvCancel (cause : CancelCause) (keep_inbox : bool).

(** The actions at one loop iteration: before and after the boundary
    settlement, before each invocation is prepared, during the barrier (given
    what the spawned nodes were handed), and between the barrier and the
    turn-end check; and whether the cancellation token is observed cancelled. *)
Record StepEnv : Type := mkStepEnv {
  se_boundary : list EnvAction;
  se_settled : list EnvAction;
  se_compute : nat -> list EnvAction;
  se_barrier : list Invocation -> list EnvAction;
  se_route : list EnvAction;
  se_cancelled : bool;
}.

(** A finished task waiting in the join set. *)
Record Finished : Type := mkFinished {
  fin_index : nat;
  fin_result : TaskResult;
  fin_latency_ms : N;
}.

(** The tasks of a step: when each one started, and the finished ones in
    finish order. *)
Record Tasks : Type := mkTasks {
  ts_started : gmap nat DateTime;
  ts_finished : list Finished;
}.

(** [Recorder]: the run's clock handle and frozen provenance. *)
Record Recorder : Type := mkRecorder {
  rc_clock : nat;
  rc_graph_version : string;
  rc_graph_hash : string;
  rc_policy_version : PolicyVersion;
  rc_manifest : option RunManifest;
}.

Section Executor.
Context `{Codec} {St : Type} `{!Checkpointer St}.
Context {Node : Type} (node_effect : Node -> Effect).
(** Which channel values are unshared when merged (copy-on-write). *)
Context (uniq : Sharing).
(** The [n]-th id the run's randomness source mints. *)
Context (uuid : nat -> string).

(** ** Primitive steps *)

(** [Recorder::record]. *)
Definition record_event (d : EventDraft) : M St string := fun w =>
  let '(id, cs, j) := record d (w_clocks w) (w_journal w) in
  (Ret id, mkWorld cs j (w_minted w) (w_inbox w) (w_store w) (w_emitted w)).

(** [Clock::now], [Clock::now_ms] through a handle. *)
Definition clock_now (h : nat) : M St DateTime := fun w =>
  let '(t, cs) := read_clock h (w_clocks w) in
  (Ret t, mkWorld cs (w_journal w) (w_minted w) (w_inbox w) (w_store w) (w_emitted w)).

Definition clock_now_ms (h : nat) : M St N :=
  t ← clock_now h; mret (Z.to_N (Z.max t 0)).

(** [RngSource::uuid_string]. *)
Definition uuid_string : M St string := fun w =>
  (Ret (uuid (w_minted w)),
   mkWorld (w_clocks w) (w_journal w) (S (w_minted w)) (w_inbox w) (w_store w) (w_emitted w)).

(** [Executor::emit]: a full or closed channel drops the event. *)
Definition emit (config : RunConfig) (e : GraphEvent) : M St unit := fun w =>
  (Ret (),
   match cf_event_tx config with
   | Some has_room =>
       if has_room (w_emitted w)
       then mkWorld (w_clocks w) (w_journal w) (w_minted w) (w_inbox w) (w_store w)
              (w_emitted w ++ [e])%list
       else w
   | None => w
   end).

(** [Checkpointer::put] on the attached checkpointer. *)
Definition put_checkpoint (c : Checkpoint) : M St unit := fun w =>
  match w_store w with
  | None => (Ret (), w)
  | Some st =>
      let '(r, st') := put c st in
      (match r with Ok _ => Ret () | Err e => Fail e end,
       mkWorld (w_clocks w) (w_journal w) (w_minted w) (w_inbox w) (Some st') (w_emitted w))
  end.

Definition set_inbox (ib : Inbox) : M St unit := fun w =>
  (Ret (), mkWorld (w_clocks w) (w_journal w) (w_minted w) (Some ib) (w_store w) (w_emitted w)).

Definition set_journal (j : Journal) : M St unit := fun w =>
  (Ret (), mkWorld (w_clocks w) j (w_minted w) (w_inbox w) (w_store w) (w_emitted w)).

(** [Recorder::mint_checkpoint]. *)
Definition mint_checkpoint (rc : Recorder) (thread_id : string) (step : nat) (state : State)
    (next_nodes : list string) (inbox : option InboxSnapshot) : M St Checkpoint :=
  id ← uuid_string;
  created_at ← clock_now (rc_clock rc);
  logical_clock ← clock_now_ms (rc_clock rc);
  head ← gets (fun w => head_ref (w_journal w));
  mret (mkCheckpoint id thread_id step state next_nodes created_at None
          (mkHeader CURRENT_FORMAT_VERSION (rc_graph_version rc) (rc_graph_hash rc)
             (rc_policy_version rc) logical_clock (rc_manifest rc) inbox)
          (Some head)).

Definition opt_parent (p : option string) (d : EventDraft) : EventDraft :=
  match p with Some p => with_parent p d | None => d end.

(** ** The environment acts *)

(** One action on the world and the tasks. A task starts once and finishes
    once, after it started; [active] is the number of spawned tasks. *)
Definition env_act (rc : Recorder) (spawned : nat) (a : EnvAction) (ts : Tasks) : M St Tasks :=
  match a with
  | EnvStart i =>
      if (i <? spawned)%nat && negb (bool_decide (is_Some (ts_started ts !! i)))
      then t ← clock_now (rc_clock rc); mret (mkTasks (<[i := t]> (ts_started ts)) (ts_finished ts))
      else mret ts
  | EnvFinish i r =>
      match ts_started ts !! i with
      | None => mret ts
      | Some started =>
          if existsb (fun f => Nat.eqb (fin_index f) i) (ts_finished ts) then mret ts
          else
            t ← clock_now (rc_clock rc);
            mret (mkTasks (ts_started ts)
                    (ts_finished ts ++ [mkFinished i r (Z.to_N (Z.max (t - started) 0))])%list)
      end
  | EnvJoin => mret ts
  | EnvRecord d => record_event d;; mret ts
  | EnvSend sender target wakeup content =>
      ib ← gets w_inbox;
      match ib with
      | Some ib => set_inbox (send sender target wakeup content ib).2;; mret ts
      | None => mret ts
      end
  | EnvCancel cause keep =>
      ib ← gets w_inbox;
      match ib with
      | Some ib => set_inbox (cancel cause keep ib);; mret ts
      | None => mret ts
      end
  end.

Fixpoint env_run (rc : Recorder) (spawned : nat) (acts : list EnvAction) (ts : Tasks) :
    M St Tasks :=
  match acts with
  | [] => mret ts
  | a :: rest => ts' ← env_act rc spawned a ts; env_run rc spawned rest ts'
  end.

Definition no_tasks : Tasks := mkTasks ∅ [].

(** ** Compute *)

(** The scoped overlay of a [Send] invocation. *)
Definition overlay (task : ActiveTask) (s : State) : res State :=
  match task_scoped task with
  | None => Ok s
  | Some (Object m) => Ok (fold_left (fun s kv => state_insert s kv.1 kv.2) m s)
  | Some other =>
      Err (EInvalidUpdate ("Send scoped state for node `" ++ task_name task
             ++ "` must be a JSON object, got " ++ default EmptyString (to_vec other)))
  end.

(** The extension map of an invocation. *)
Definition node_extra (config : RunConfig) (input_event : string)
    (started_at : option DateTime) (delivery : list InboxMessage) : list (string * Value) :=
  BTree.from_list
    ([("rusty.parent_event", Str input_event)]
     ++ jopt "rusty.instructions" (Str <$> cf_instructions config)
     ++ jopt "rusty.model" (Str <$> cf_model config)
     ++ jopt "rusty.fallback_model" (Str <$> cf_fallback_model config)
     ++ jopt "rusty.temperature" ((fun f => Num (Float f)) <$> cf_temperature config)
     ++ jopt "rusty.context_policy" (cf_context_policy config)
     ++ (if cf_compaction_state config then [("rusty.compaction_state", Bool true)] else [])
     ++ jopt "rusty.skills" (cf_skills config)
     ++ jopt "rusty.tool_overlays" (cf_tool_overlays config)
     ++ jopt "rusty.tool_outcomes" (cf_tool_outcomes config)
     ++ jopt "rusty.attribution" (cf_attribution config)
     ++ jopt "rusty.execution" (cf_execution config)
     ++ jopt "rusty.agent_id" (Str <$> cf_agent_id config)
     ++ jopt "rusty.counterpart" (cf_counterpart config)
     ++ jopt "rusty.memory_blocks" (Str <$> cf_memory_blocks config)
     ++ jopt "rusty.started_at" ((fun t => Str (time_text_millis t)) <$> started_at)
     ++ jopt "__rusty_tool_allowlist" (jstrs <$> cf_tool_allowlist config)
     ++ (match delivery with
         | [] => []
         | _ => [(INBOX_DELIVERY_KEY, Array (map message_value delivery))]
         end))%list.

(** The compute loop: one input event, config and spawned task per active
    task. The environment may act before each one. *)
Fixpoint spawn_all (g : Graph Node) (config : RunConfig) (rc : Recorder) (snapshot : State)
    (step : nat) (resume : option Value) (step_start_event : string)
    (started_at : option DateTime) (delivery : list InboxMessage)
    (env : nat -> list EnvAction) (tasks : list ActiveTask) (index : nat)
    (ts : Tasks) : M St (list Invocation * Tasks) :=
  match tasks with
  | [] => mret ([], ts)
  | task :: rest =>
      ts1 ← env_run rc index (env index) ts;
      node ← lift (ok_or (node g (task_name task))
               (EGraph ("routing activated unknown node `" ++ task_name task ++ "`")));
      node_state ← lift (overlay task snapshot);
      input_event ← record_event
        (with_parent step_start_event
           (with_input (to_value node_state)
              (with_node (task_name task) (draft_new KNodeInput (node_effect node)))));
      let cfg := mkNodeConfig (cf_thread_id config) step resume
                   (node_extra config input_event started_at delivery) in
      emit config (NodeStart (task_name task) step);;
      more ← spawn_all g config rc snapshot step resume step_start_event started_at delivery env
               rest (S index) ts1;
      let '(invs, ts2) := more : list Invocation * Tasks in
      mret (mkInvocation (task_name task) node_state cfg (node_effect node) input_event :: invs,
            ts2)
  end.

(** ** Barrier *)

(** What the barrier loop accumulates, in join order. *)
Record Collected : Type := mkCollected {
  co_completed : list (nat * string * N * Value);
  co_commands : list Command;
  co_ran_nodes : list string;
  co_writes : list (nat * string * Updates);
}.

Definition collected_none : Collected := mkCollected [] [] [] [].

(** The barrier's result: all collected, or an interrupt. *)
Inductive BarrierEnd : Type :=
| AllCollected (c : Collected)
| InterruptedAt (index : nat) (name : string) (value : Value).

Definition invocation (invs : list Invocation) (i : nat) : Invocation :=
  default (mkInvocation EmptyString state_new (mkNodeConfig EmptyString 0 None []) Pure EmptyString)
    (invs !! i).

Definition collect (f : Finished) (name : string) (o : NodeOutput) (c : Collected) : Collected :=
  mkCollected
    (co_completed c ++ [(fin_index f, name, fin_latency_ms f, output_value o)])
    (co_commands c ++
       match out_command o with
       | Some cmd => match cmd_goto cmd with [] => [] | _ => [cmd] end
       | None => []
       end)
    (co_ran_nodes c ++ [name])
    (co_writes c ++ [(fin_index f, name, out_updates o)])%list.

(** One joined task: collected, suspending, or failing the step. *)
Definition join_one (config : RunConfig) (step : nat) (invs : list Invocation) (f : Finished)
    (c : Collected) : M St BarrierEnd :=
  let inv := invocation invs (fin_index f) in
  let name := inv_node inv in
  match fin_result f with
  | TaskPanic e =>
      fail (ENode ("node task failed to join (panic or cancellation): " ++ e))
  | TaskOk o =>
      emit config (NodeEnd name step);; mret (AllCollected (collect f name o c))
  | TaskErr (EInterrupt value) => mret (InterruptedAt (fin_index f) name value)
  | TaskErr e =>
      record_event
        (with_parent (inv_input_event inv)
           (with_latency_ms (fin_latency_ms f)
              (with_output (jobj [("error", Str (error_text e))])
                 (with_status StatusError
                    (with_node name (draft_new KNodeOutput (inv_effect inv)))))));;
      fail (ENode ("node `" ++ name ++ "` failed at super-step " ++ pretty step ++ ": "
                   ++ error_text e))
  end.

(** The barrier loop over the environment's actions; [left] tasks are still
    to be joined. *)
Fixpoint barrier (config : RunConfig) (rc : Recorder) (step : nat) (invs : list Invocation)
    (acts : list EnvAction) (left : nat) (ts : Tasks) (joined : nat) (c : Collected) :
    M St BarrierEnd :=
  match left with
  | O => mret (AllCollected c)
  | S left' =>
      match acts with
      | [] => fun w => (Wait, w)
      | EnvJoin :: rest =>
          match ts_finished ts !! joined with
          | None => barrier config rc step invs rest left ts joined c
          | Some f =>
              r ← join_one config step invs f c;
              match r with
              | InterruptedAt i n v => mret (InterruptedAt i n v)
              | AllCollected c' => barrier config rc step invs rest left' ts (S joined) c'
              end
          end
      | a :: rest =>
          ts' ← env_act rc (length invs) a ts;
          barrier config rc step invs rest left ts' joined c
      end
  end.

(** ** Merge *)

(** The outputs journaled in active-set order; the last event. *)
Fixpoint journal_outputs (invs : list Invocation)
    (completed : list (nat * string * N * Value)) (last : option string) :
    M St (option string) :=
  match completed with
  | [] => mret last
  | (index, name, latency, output) :: rest =>
      let inv := invocation invs index in
      id ← record_event
        (with_parent (inv_input_event inv)
           (with_latency_ms latency
              (with_output output (with_node name (draft_new KNodeOutput (inv_effect inv))))));
      journal_outputs invs rest (Some id)
  end.

Definition completed_leb (a b : nat * string * N * Value) : bool :=
  (a.1.1.1 <=? b.1.1.1)%nat.
Definition write_leb (a b : nat * string * Updates) : bool := (a.1.1 <=? b.1.1)%nat.

(** The post-reducer values of the channels written. *)
Definition merged_updates (s : State) (writes : Writes) : list (string * Value) :=
  BTree.from_list
    (omap (fun ch => (fun v => (ch, v)) <$> state_get s ch)
       (concat (map (fun w => map fst w.2) writes))).

(** ** Route *)

Definition add_planned (target : string) (p : list string * list ActiveTask) :
    list string * list ActiveTask :=
  if decide (target ∈ p.1) then p
  else (target :: p.1, (p.2 ++ [mkTask target None])%list).

Fixpoint route_targets (g : Graph Node) (targets : list string)
    (p : list string * list ActiveTask) : res (list string * list ActiveTask) :=
  match targets with
  | [] => Ok p
  | target :: rest =>
      if has_node g target then route_targets g rest (add_planned target p)
      else Err (EGraph ("Command::goto references unknown node `" ++ target ++ "`"))
  end.

Fixpoint route_sends (g : Graph Node) (name : string) (sends : list Send)
    (next : list ActiveTask) : res (list ActiveTask) :=
  match sends with
  | [] => Ok next
  | s :: rest =>
      if has_node g (send_node s)
      then route_sends g name rest (next ++ [mkTask (send_node s) (Some (send_state s))])%list
      else Err (EGraph ("Route::Send from `" ++ name ++ "` targets unknown node `"
                        ++ send_node s ++ "`"))
  end.

Definition route_edge (g : Graph Node) (s : State) (name : string) (e : Edge)
    (p : list string * list ActiveTask) : res (list string * list ActiveTask) :=
  match e with
  | Direct _ to => Ok (add_planned to p)
  | Conditional _ router =>
      r ← router s;
      match r with
      | RNode target =>
          if has_node g target then Ok (add_planned target p)
          else Err (EGraph ("conditional router from `" ++ name ++ "` returned unknown node `"
                            ++ target ++ "`"))
      | RSend sends => next ← route_sends g name sends p.2; Ok (p.1, next)
      | REnd => Ok p
      end
  end.

Fixpoint route_edges (g : Graph Node) (s : State) (name : string) (es : list Edge)
    (p : list string * list ActiveTask) : res (list string * list ActiveTask) :=
  match es with
  | [] => Ok p
  | e :: rest => p' ← route_edge g s name e p; route_edges g s name rest p'
  end.

(** The edges of every node that ran, each node once. *)
Fixpoint route_ran (g : Graph Node) (s : State) (ran evaluated : list string)
    (p : list string * list ActiveTask) : res (list string * list ActiveTask) :=
  match ran with
  | [] => Ok p
  | name :: rest =>
      if decide (name ∈ evaluated) then route_ran g s rest evaluated p
      else p' ← route_edges g s name (outgoing_edges g name) p;
           route_ran g s rest (name :: evaluated) p'
  end.

(** [Command::goto] overrides the edges. *)
Definition route (g : Graph Node) (s : State) (commands : list Command) (ran : list string) :
    res (list ActiveTask) :=
  p ← match commands with
      | [] => route_ran g s ran [] ([], [])
      | _ => route_targets g (concat (map cmd_goto commands)) ([], [])
      end;
  Ok p.2.

Definition task_value (t : ActiveTask) : Value :=
  jobj [("node", Str (task_name t)); ("scoped", jnull (task_scoped t))].

Definition routing_value (next : list ActiveTask) (commands : list Command) : Value :=
  jobj [("next", Array (map task_value next));
        ("goto", jstrs (concat (map cmd_goto commands)))].

(** ** Inbox plumbing *)

(** [Inbox::settle] on the run's inbox and journal. *)
Definition settle_inbox (parent : option string) (ib : Inbox) : M St (option string) := fun w =>
  let s := settle parent ib (w_clocks w) (w_journal w) in
  (Ret (st_last s),
   mkWorld (st_clocks s) (st_journal s) (w_minted w) (Some (st_inbox s)) (w_store w) (w_emitted w)).

(** The stamp of a checkpoint: the snapshot with a pending delivery. *)
Definition stamp_with (pending : list InboxMessage) (w : World St) : option InboxSnapshot :=
  ib ← w_inbox w;
  s ← inbox_snapshot ib;
  Some (mkInboxSnapshot (is_steering s) (is_followups s) (is_staged s) (is_next_seq s) pending).

Definition with_store {A : Type} (yes : M St A) (no : M St A) : M St A := fun w =>
  match w_store w with Some _ => yes w | None => no w end.

(** The turn-end check: settle, then extend the run with the queued
    follow-ups. Returns the next tasks, the extension and the route parent. *)
Definition turn_end (g : Graph Node) (step : nat) (step_end_event : string)
    (next : list ActiveTask) : M St (list ActiveTask * list InboxMessage * string) :=
  match next with
  | _ :: _ => mret (next, [], step_end_event)
  | [] =>
      o ← gets w_inbox;
      match o with
      | None => mret ([], [], step_end_event)
      | Some ib =>
          last ← settle_inbox (Some step_end_event) ib;
          let route_parent := default step_end_event last in
          ib1 ← gets (fun w => default ib (w_inbox w));
          let '(followups, ib2) := drain_followups ib1 in
          set_inbox ib2;;
          match followups with
          | [] => mret ([], [], route_parent)
          | _ =>
              let '(staged, ib3) := drain_staged ib2 in
              set_inbox ib3;;
              let extension := (followups ++ staged)%list in
              id ← record_event
                (with_parent route_parent
                   (with_output (consumption_value (mkConsumption TurnExtension step extension))
                      (draft_new KInboxConsumed Pure)));
              mret ([mkTask (entry_point g) None], extension, id)
          end
      end
  end.

(** ** One super-step *)

(** The suspension of an interrupted step. *)
Definition suspend_step (config : RunConfig) (rc : Recorder) (state : State)
    (active : list ActiveTask) (step : nat) (delivery : list InboxMessage)
    (invs : list Invocation) (index : nat) (name : string) (value : Value) :
    M St StepTransition :=
  let inv := invocation invs index in
  interrupt_event ← record_event
    (with_parent (inv_input_event inv)
       (with_status StatusInterrupted
          (with_input value (with_node name (draft_new KInterrupt (inv_effect inv))))));
  stamp ← gets (stamp_with delivery);
  checkpoint ← mint_checkpoint rc (cf_thread_id config) step state (map task_name active) stamp;
  with_store
    (put_checkpoint checkpoint;;
     record_event
       (with_parent interrupt_event
          (with_output (jobj [("checkpoint_id", Str (c_id checkpoint)); ("step", jnat step);
                              ("suspension", Bool true)])
             (draft_new KCheckpointWritten Idempotent)));;
     emit config (CheckpointSaved (c_id checkpoint) step))
    (mret ());;
  mret (Finish (Interrupted value state (c_id checkpoint))).

(** Merge, route, turn-end check and boundary checkpoint of a collected
    step. *)
Definition complete_step (g : Graph Node) (spec : StateSpec) (config : RunConfig)
    (rc : Recorder) (state : State) (step : nat) (env : list EnvAction)
    (step_start_event : string) (invs : list Invocation) (c : Collected) :
    M St (State * StepTransition) :=
  last_output ← journal_outputs invs (sort_by completed_leb (co_completed c)) None;
  let writes := map (fun w => (w.1.2, w.2)) (sort_by write_leb (co_writes c)) : Writes in
  state' ← lift (match apply_super_step uniq spec state writes with
                 | (merged, Ok _) => Ok merged
                 | (_, Err e) => Err e
                 end);
  let merged := merged_updates state' writes in
  step_end_event ← record_event
    (with_parent (default step_start_event last_output)
       (with_output (Object merged) (draft_new KSuperStepEnd Pure)));
  match merged with [] => mret () | _ => emit config (StateUpdate step merged) end;;
  routed ← lift (route g state' (co_commands c) (co_ran_nodes c));
  env_run rc 0 env no_tasks;;
  ended ← turn_end g step step_end_event routed;
  let '(next, extension, route_parent) := ended : list ActiveTask * list InboxMessage * string in
  route_event ← record_event
    (with_parent route_parent
       (with_output (routing_value next (co_commands c)) (draft_new KRoutingDecision Pure)));
  with_store
    (stamp ← gets (stamp_with extension);
     checkpoint ← mint_checkpoint rc (cf_thread_id config) step state' (map task_name next) stamp;
     put_checkpoint checkpoint;;
     record_event
       (with_parent route_event
          (with_output (jobj [("checkpoint_id", Str (c_id checkpoint)); ("step", jnat step);
                              ("suspension", Bool false)])
             (draft_new KCheckpointWritten Idempotent)));;
     emit config (CheckpointSaved (c_id checkpoint) step))
    (mret ());;
  match next with
  | [] => mret (state', Finish (Done state'))
  | _ => mret (state', Next next route_event extension)
  end.

(** [Executor::execute_super_step]: the state it leaves, its transition, and
    the invocations it spawned. *)
Definition execute_super_step (g : Graph Node) (spec : StateSpec) (config : RunConfig)
    (rc : Recorder) (state : State) (active : list ActiveTask) (step : nat)
    (pending_resume : option Value) (step_parent : option string)
    (delivery : list InboxMessage) (started_at : option DateTime) (env : StepEnv) :
    M St (State * StepTransition * list Invocation) :=
  emit config (SuperStep step (map task_name active));;
  step_start_event ← record_event
    (opt_parent step_parent
       (with_input (jobj [("step", jnat step); ("active_nodes", jstrs (map task_name active))])
          (draft_new KSuperStepStart Pure)));
  spawned ← spawn_all g config rc state step pending_resume step_start_event started_at delivery
              (se_compute env) active 0 no_tasks;
  let '(invs, ts) := spawned : list Invocation * Tasks in
  collected ← barrier config rc step invs (se_barrier env invs) (length invs) ts 0 collected_none;
  match collected with
  | InterruptedAt index name value =>
      t ← suspend_step config rc state active step delivery invs index name value;
      mret (state, t, invs)
  | AllCollected c =>
      r ← complete_step g spec config rc state step (se_route env) step_start_event invs c;
      let '(state', t) := r : State * StepTransition in
      mret (state', t, invs)
  end.

(** ** The run *)

(** [check_spend]: the fold's result, and where it stands. *)
Definition check_spend (config : RunConfig) (j : Journal) (spend : Spend) (seen : nat) :
    res unit * Spend * nat :=
  match cf_budget config with
  | None => (Ok (), spend, seen)
  | Some budget =>
      let unseen := events_from seen j in
      let spend' := fold_left observe unseen spend in
      let seen' := seen + length unseen in
      (match exceeds spend' budget with
       | Some crossed =>
           Err (EBudget (crossed ++ " — the run stops here; its last checkpoint stands"))
       | None => Ok ()
       end, spend', seen')
  end.

(** The loop's variables. *)
Record LoopState : Type := mkLoop {
  ls_state : State;
  ls_active : list ActiveTask;
  ls_step : nat;
  ls_pending_resume : option Value;
  ls_step_parent : option string;
  ls_carried : list InboxMessage;
  ls_turn_start : bool;
  ls_spend : Spend;
  ls_seen : nat;
}.

(** The halt payloads of the two ceilings. *)
Definition step_ceiling (config : RunConfig) (steps_run : nat) : Value :=
  jobj [("reason", Str "step_ceiling"); ("limit", jnat (cf_max_steps config));
        ("steps_run", jnat steps_run);
        ("note", Str ("the run stopped at its step ceiling with the work it had done; "
           ++ "resume the thread to carry on, raising RunConfig::max_steps when "
           ++ "the task genuinely needs more steps"))].

Definition budget_ceiling (crossed : string) (steps_run : nat) : Value :=
  jobj [("reason", Str "budget_ceiling"); ("crossed", Str crossed);
        ("steps_run", jnat steps_run);
        ("note", Str ("the run stopped at its spend ceiling with the work it had "
           ++ "done; resume the thread to carry on, raising the budget when "
           ++ "the task genuinely needs more"))].

(** A checkpoint of the loop's current position, put and journaled. *)
Definition write_boundary (config : RunConfig) (rc : Recorder) (ls : LoopState)
    (stamp : option InboxSnapshot) (extra : list (string * Value)) (parent : option string)
    (suspension : bool) : M St string :=
  checkpoint ← mint_checkpoint rc (cf_thread_id config) (ls_step ls) (ls_state ls)
                 (map task_name (ls_active ls)) stamp;
  put_checkpoint checkpoint;;
  record_event
    (opt_parent parent
       (with_output (jobj ([("checkpoint_id", Str (c_id checkpoint)); ("step", jnat (ls_step ls));
                            ("suspension", Bool suspension)] ++ extra)%list)
          (draft_new KCheckpointWritten Idempotent)));;
  emit config (CheckpointSaved (c_id checkpoint) (ls_step ls));;
  mret (c_id checkpoint).

(** Suspension at a ceiling. *)
Definition halt_run (config : RunConfig) (rc : Recorder) (ls : LoopState) (halt : Value) :
    M St ExecutionOutcome :=
  let reason := default "ceiling" (vget "reason" halt ≫= as_str) in
  checkpoint_id ← with_store
    (stamp ← gets (fun w => w_inbox w ≫= inbox_snapshot);
     write_boundary config rc ls stamp [("halted", Str reason)] None true)
    (mret EmptyString);
  mret (Interrupted (jobj [("rusty.halted", halt)]) (ls_state ls) checkpoint_id).

(** The typed cancellation, once observed. *)
Definition cancel_run {A : Type} (config : RunConfig) (rc : Recorder) (ls : LoopState)
    (steps_run : nat) (parent : option string) (cause : CancelCause) (keep : bool)
    (ib : Inbox) : M St A :=
  let '(dropped, ib') := if keep then (mkDropped 0 0 0 0, ib) else inbox_clear ib in
  set_inbox ib';;
  cancel_event ← record_event
    (opt_parent parent
       (with_output (cancellation_value (mkCancellation cause keep dropped))
          (draft_new KRunCancelled Pure)));
  with_store
    (stamp ← gets (stamp_with (if keep then ls_carried ls else []));
     write_boundary config rc ls stamp [("cancellation", Bool true)] (Some cancel_event) false)
    (mret EmptyString);;
  fail (ECancelled ("cancelled (" ++ cause_name cause ++ ") after " ++ pretty steps_run
          ++ " super-step(s); the boundary checkpoint of thread `" ++ cf_thread_id config
          ++ "` is intact, so re-running the thread resumes from there")).

(** The inbox boundary: settle, observe a cancellation, assemble the
    delivery batch. Returns the delivery and the loop variables. *)
Definition inbox_boundary (config : RunConfig) (rc : Recorder) (ls : LoopState)
    (steps_run : nat) (env : list EnvAction) : M St (list InboxMessage * LoopState) :=
  o ← gets w_inbox;
  match o with
  | None => mret ([], ls)
  | Some ib =>
      last ← settle_inbox (ls_step_parent ls) ib;
      let parent := match last with Some l => Some l | None => ls_step_parent ls end in
      env_run rc 0 env no_tasks;;
      ib1 ← gets (fun w => default ib (w_inbox w));
      len ← gets (fun w => N.of_nat (length (j_events (w_journal w))));
      let '(request, ib2) := take_cancel len ib1 in
      set_inbox ib2;;
      match request with
      | Some (cause, keep) => cancel_run config rc ls steps_run parent cause keep ib2
      | None =>
          let begins_turn :=
            ls_turn_start ls || match ls_carried ls with [] => false | _ => true end in
          let '(steering, ib3) := drain_steering ib2 in
          let woke := begins_turn || match steering with [] => false | _ => true end in
          let '(staged, ib4) := if woke then drain_staged ib3 else ([], ib3) in
          let boundary := (steering ++ staged)%list in
          set_inbox ib4;;
          match boundary with
          | [] => mret ()
          | _ =>
              record_event
                (opt_parent parent
                   (with_output
                      (consumption_value
                         (mkConsumption (if begins_turn then TurnStart else StepBoundary)
                            (ls_step ls) boundary))
                      (draft_new KInboxConsumed Pure)));;
              mret ()
          end;;
          mret ((ls_carried ls ++ boundary)%list,
                mkLoop (ls_state ls) (ls_active ls) (ls_step ls) (ls_pending_resume ls)
                  (ls_step_parent ls) [] false (ls_spend ls) (ls_seen ls))
      end
  end.

(** One iteration past the ceiling: the boundary, the cancellation token, the
    super-step and the spend check. *)
Definition loop_step (g : Graph Node) (spec : StateSpec) (config : RunConfig) (rc : Recorder)
    (started_at : option DateTime) (ls : LoopState) (steps_run : nat) (env : StepEnv) :
    M St (ExecutionOutcome + LoopState) :=
  env_run rc 0 (se_boundary env) no_tasks;;
  b ← inbox_boundary config rc ls steps_run (se_settled env);
  let '(delivery, ls1) := b : list InboxMessage * LoopState in
  if se_cancelled env then
    fail (ECancelled ("cancelled after " ++ pretty steps_run
            ++ " super-step(s); the boundary checkpoint of thread `" ++ cf_thread_id config
            ++ "` is intact, so re-running the thread resumes from there"))
  else
    r ← execute_super_step g spec config rc (ls_state ls1) (ls_active ls1) (ls_step ls1)
          (ls_pending_resume ls1) (ls_step_parent ls1) delivery started_at env;
    let '(state', transition, _) := r : State * StepTransition * list Invocation in
    spent ← gets (fun w => check_spend config (w_journal w) (ls_spend ls1) (ls_seen ls1));
    let '(verdict, spend', seen') := spent : res unit * Spend * nat in
    lift verdict;;
    match transition with
    | Finish outcome => mret (inl outcome)
    | Next next route_event extension =>
        let extended := match extension with [] => false | _ => true end in
        mret (inr (mkLoop state' next (S (ls_step ls1)) None (Some route_event)
                     (if extended then extension else ls_carried ls1)
                     (extended || ls_turn_start ls1) spend' seen'))
    end.

(** The super-step loop: [left] more super-steps are allowed, so
    [steps_run = max_steps - left]. *)
Fixpoint run_loop (g : Graph Node) (spec : StateSpec) (config : RunConfig) (rc : Recorder)
    (started_at : option DateTime) (env : nat -> StepEnv) (left : nat) (ls : LoopState) :
    M St ExecutionOutcome :=
  let steps_run := cf_max_steps config - left in
  match left with
  | O => halt_run config rc ls (step_ceiling config steps_run)
  | S left' =>
      spent ← gets (fun w => check_spend config (w_journal w) (ls_spend ls) (ls_seen ls));
      let '(verdict, spend', seen') := spent : res unit * Spend * nat in
      let ls1 := mkLoop (ls_state ls) (ls_active ls) (ls_step ls) (ls_pending_resume ls)
                   (ls_step_parent ls) (ls_carried ls) (ls_turn_start ls) spend' seen' in
      match verdict with
      | Err (EBudget crossed) => halt_run config rc ls1 (budget_ceiling crossed steps_run)
      | Err e => fail e
      | Ok _ =>
          r ← loop_step g spec config rc started_at ls1 steps_run (env steps_run);
          match r with
          | inl outcome => mret outcome
          | inr ls2 => run_loop g spec config rc started_at env left' ls2
          end
      end
  end.

(** The flight-recorder setup. *)
Definition setup (g : Graph Node) (config : RunConfig) : M St Recorder :=
  match cf_journal config with
  | Some j => set_journal j
  | None =>
      id ← uuid_string;
      set_journal (journal_new id (cf_thread_id config) (default SYSTEM_CLOCK (cf_clock config)))
  end;;
  jclock ← gets (fun w => j_clock (w_journal w));
  mret (mkRecorder (default jclock (cf_clock config))
          (default "unversioned" (cf_graph_version config))
          (topology_hash sha256_hex g)
          (default STATIC_V0 (cf_policy_version config)) (cf_manifest config)).

(** The checkpoint a resume or a replay starts from. *)
Definition restore_point (config : RunConfig) : M St Checkpoint := fun w =>
  match w_store w with
  | None =>
      (Fail (ECheckpoint ("RunConfig.checkpoint_id/resume is set but no checkpointer is configured "
                          ++ "on the executor")), w)
  | Some st =>
      lift
        (match cf_checkpoint_id config with
         | Some id =>
             o ← get_by_id (cf_thread_id config) id st;
             ok_or o (ECheckpoint ("cannot replay thread `" ++ cf_thread_id config
                        ++ "`: checkpoint `" ++ id ++ "` not found"))
         | None =>
             o ← get_latest (cf_thread_id config) st;
             ok_or o (ECheckpoint ("cannot resume thread `" ++ cf_thread_id config
                        ++ "`: no checkpoint found"))
         end) w
  end.

Definition initial_loop (state : State) (active : list ActiveTask) (step : nat)
    (resume : option Value) (parent : option string) (carried : list InboxMessage) : LoopState :=
  mkLoop state active step resume parent carried true no_spend 0.

(** A fresh start at the entry point, or the restored position. *)
Definition start (g : Graph Node) (config : RunConfig) (rc : Recorder) (initial_state : State) :
    M St (Recorder * LoopState) :=
  match cf_checkpoint_id config, cf_resume config with
  | None, None =>
      mret (rc, initial_loop initial_state [mkTask (entry_point g) None] 0 None None [])
  | _, _ =>
      checkpoint ← restore_point config;
      let rc' := match cf_policy_version config with
                 | Some _ => rc
                 | None => mkRecorder (rc_clock rc) (rc_graph_version rc) (rc_graph_hash rc)
                             (h_policy_version (c_header checkpoint)) (rc_manifest rc)
                 end in
      id ← record_event
        (with_input
           (jobj [("checkpoint_id", Str (c_id checkpoint)); ("step", jnat (c_step checkpoint));
                  ("resume", jnull (cf_resume config))])
           (draft_new KResume Pure));
      o ← gets w_inbox;
      carried ← match o, h_inbox (c_header checkpoint) with
        | Some ib, Some snapshot =>
            set_inbox (seed snapshot ib);;
            mret (if is_fresh ib then is_pending_delivery snapshot else [])
        | _, _ => mret []
        end;
      mret (rc', initial_loop (c_state checkpoint)
                   (map (fun name => mkTask name None) (c_next_nodes checkpoint))
                   (c_step checkpoint) (cf_resume config) (Some id) carried)
  end.

(** [RunBudget], [RunConfigDeclaration] serialized. *)
Definition budget_value (b : RunBudget) : Value :=
  jobj (jopt "max_tokens" (jN <$> max_tokens b)
        ++ jopt "max_cost_usd" ((fun f => Num (Float f)) <$> max_cost_usd b))%list.

Definition declaration_value (config : RunConfig) (rc : Recorder)
    (started_at : option DateTime) : Value :=
  jobj ([("graph_version", Str (rc_graph_version rc)); ("graph_hash", Str (rc_graph_hash rc));
         ("policy_version", Str (rc_policy_version rc))]
        ++ jopt "tool_allowlist" (jstrs <$> cf_tool_allowlist config)
        ++ jopt "manifest" (manifest_value <$> cf_manifest config)
        ++ jopt "context_policy" (cf_context_policy config)
        ++ jopt "attribution" (cf_attribution config)
        ++ jopt "tool_overlays" (cf_tool_overlays config)
        ++ jopt "tool_outcomes" (cf_tool_outcomes config)
        ++ jopt "budget" (budget_value <$> cf_budget config)
        ++ jopt "counterpart" (cf_counterpart config)
        ++ jopt "agent_id" (Str <$> cf_agent_id config)
        ++ jopt "started_at" ((fun t => Str (time_text t)) <$> started_at)
        ++ jopt "world" (e ← cf_execution config; v ← vget "world" e; s ← as_str v; Some (Str s)))%list.

Definition is_set {A : Type} (o : option A) : bool := match o with Some _ => true | None => false end.

(** Whether the run declares anything. *)
Definition declares (config : RunConfig) : bool :=
  is_set (cf_manifest config) || is_set (cf_tool_allowlist config)
  || is_set (cf_policy_version config) || is_set (cf_graph_version config)
  || is_set (cf_attribution config) || is_set (cf_context_policy config)
  || is_set (cf_tool_overlays config) || is_set (cf_tool_outcomes config)
  || is_set (cf_budget config) || is_set (cf_counterpart config) || is_set (cf_agent_id config).

(** The run-config declaration; returns the run's start. *)
Definition declare (config : RunConfig) (rc : Recorder) : M St (option DateTime) :=
  started_at ←
    (if is_set (cf_context_policy config) || is_set (cf_started_at config)
     then t ← clock_now (rc_clock rc); mret (Some (default t (cf_started_at config)))
     else mret None);
  (if declares config
   then record_event (with_output (declaration_value config rc started_at)
                        (draft_new KRunConfigDeclared Pure));; mret ()
   else mret ());;
  mret started_at.

(** [Executor::run]. *)
Definition run (g : Graph Node) (spec : StateSpec) (initial_state : State) (config : RunConfig)
    (env : nat -> StepEnv) : M St ExecutionOutcome :=
  rc ← setup g config;
  started ← start g config rc initial_state;
  let '(rc', ls) := started : Recorder * LoopState in
  match ls_active ls with
  | [] => mret (Done (ls_state ls))
  | _ =>
      started_at ← declare config rc';
      run_loop g spec config rc' started_at env (cf_max_steps config) ls
  end.
End Executor.
