(* ===== verification/ExecutorFacts.v ===== *)
(** * Theorems about the executor

    The run as a transition system over its world ([wstep]): what every
    computation of the executor may do to the journal, the store and the event
    sink, whatever the nodes and the scheduler do. On it rest the evidence
    chain of a run, its termination, its budget, the transactional super-step
    and its independence from scheduling, and suspension and resumption. *)

From Stdlib Require Import String.
From S2P Require Import Prelude Containers Json Error State StateFacts Graph Record SampleCodec Journal JournalFacts Inbox Checkpoint Meter Executor.

Create HintDb executor.

#[export] Instance is_join_dec (a : EnvAction) : Decision (a = EnvJoin).
Proof. destruct a; (left; reflexivity) || (right; discriminate). Defined.

(** ** The monad *)
Section Monad.
Context {St : Type}.

Lemma bind_world {A B : Type} (m : M St A) (f : A -> M St B) (w : World St) :
  (m ≫= f) w = match m w with
               | (Ret a, w') => f a w'
               | (Fail e, w') => (Fail e, w')
               | (Wait, w') => (Wait, w')
               end.
Proof. done. Qed.

Lemma bind_Ret {A B : Type} (m : M St A) (f : A -> M St B) (w w' : World St) (b : B) :
  (m ≫= f) w = (Ret b, w') <-> exists a w1, m w = (Ret a, w1) /\ f a w1 = (Ret b, w').
Proof.
  rewrite bind_world. destruct (m w) as [[a|e|] w1]; split; [eauto|..];
    try (intros (? & ? & ? & ?); by simplify_eq); done.
Qed.

Lemma bind_Fail {A B : Type} (m : M St A) (f : A -> M St B) (w w' : World St) (e : RustyError) :
  (m ≫= f) w = (Fail e, w') <->
  m w = (Fail e, w') \/ exists a w1, m w = (Ret a, w1) /\ f a w1 = (Fail e, w').
Proof.
  rewrite bind_world. destruct (m w) as [[a|e'|] w1]; split;
    try (intros [?|(? & ? & ? & ?)]; by simplify_eq); try done; intros; eauto.
  left. congruence.
Qed.
End Monad.

(** Splits every bind of the context known to return. *)
Ltac simplify_run :=
  repeat match goal with
  | H : (_ ≫= _) _ = (Ret _, _) |- _ => apply bind_Ret in H as (? & ? & ? & H)
  | H : mret _ _ = (Ret _, _) |- _ => injection H as ? ?; try subst
  | H : gets _ _ = (Ret _, _) |- _ => injection H as ? ?; try subst
  | H : (Ret _, _) = (Ret _, _) |- _ => injection H as ? ?; try subst
  | H : fail _ _ = (Ret _, _) |- _ => unfold fail in H; discriminate H
  | H : (Fail _, _) = (Ret _, _) |- _ => discriminate H
  | H : (Wait, _) = (Ret _, _) |- _ => discriminate H
  end.

Section World.
Context `{Codec} {St : Type} `{!Checkpointer St}.
Context {Node : Type} (node_effect : Node -> Effect) (uniq : Sharing) (uuid : nat -> string).

Definition is_super_step (e : GraphEvent) : bool :=
  match e with SuperStep _ _ => true | _ => false end.

(** A checkpoint minted by the run of [thread] while its journal was [j]. *)
Record stamped (rc : Recorder) (thread : string) (j : Journal) (c : Checkpoint) : Prop := {
  stamp_thread : c_thread_id c = thread;
  stamp_full : c_base c = None;
  stamp_ref : c_journal_ref c = Some (head_ref j);
  stamp_version : h_graph_version (c_header c) = rc_graph_version rc;
  stamp_hash : h_graph_hash (c_header c) = rc_graph_hash rc;
  stamp_policy : h_policy_version (c_header c) = rc_policy_version rc;
  stamp_manifest : h_manifest (c_header c) = rc_manifest rc;
}.

(** What a run may do to its world between two super-step starts. *)
Inductive wstep (rc : Recorder) (thread : string) : World St -> World St -> Prop :=
| ws_clock cs cs' j n ib st em :
    wstep rc thread (mkWorld cs j n ib st em) (mkWorld cs' j n ib st em)
| ws_append cs j n ib st em t d id j' :
    append_event t d j = (id, j') ->
    wstep rc thread (mkWorld cs j n ib st em) (mkWorld cs j' n ib st em)
| ws_mint cs j n ib st em :
    wstep rc thread (mkWorld cs j n ib st em) (mkWorld cs j (S n) ib st em)
| ws_inbox cs j n ib ib' st em :
    wstep rc thread (mkWorld cs j n ib st em) (mkWorld cs j n ib' st em)
| ws_emit cs j n ib st em e :
    is_super_step e = false ->
    wstep rc thread (mkWorld cs j n ib st em) (mkWorld cs j n ib st (em ++ [e]))
| ws_put cs j n ib st em c r st' :
    stamped rc thread j c -> put c st = (r, st') ->
    wstep rc thread (mkWorld cs j n ib (Some st) em) (mkWorld cs j n ib (Some st') em).

Definition wsteps (rc : Recorder) (thread : string) : World St -> World St -> Prop :=
  rtc (wstep rc thread).

(** A computation that only takes such steps, whatever it results in. *)
Definition keeps (rc : Recorder) (thread : string) {A : Type} (m : M St A) : Prop :=
  forall w, wsteps rc thread w (m w).2.

Section Keeps.
Context (rc : Recorder) (thread : string).

Lemma keeps_ret {A : Type} (a : A) : keeps rc thread (mret a : M St A).
Proof. intros w. apply rtc_refl. Qed.

(** The run of a bind, with a fact about the value its head returns. *)
Lemma bind_wsteps {A B : Type} (m : M St A) (f : A -> M St B) (w : World St) :
  wsteps rc thread w (m w).2 ->
  (forall a w', m w = (Ret a, w') -> wsteps rc thread w' (f a w').2) ->
  wsteps rc thread w ((m ≫= f) w).2.
Proof.
  intros Hm Hf. rewrite bind_world. destruct (m w) as [[a|e|] w'] eqn:E; [|done|done].
  simpl in Hm. unfold wsteps in *. etrans; [exact Hm|]. by apply Hf.
Qed.

Lemma keeps_bind {A B : Type} (m : M St A) (f : A -> M St B) :
  keeps rc thread m -> (forall a, keeps rc thread (f a)) -> keeps rc thread (m ≫= f).
Proof. intros Hm Hf w. apply bind_wsteps; [apply Hm|]. intros. apply Hf. Qed.

Lemma keeps_lift {A : Type} (r : res A) : keeps rc thread (lift r : M St A).
Proof. intros w. apply rtc_refl. Qed.

Lemma keeps_fail {A : Type} (e : RustyError) : keeps rc thread (fail e : M St A).
Proof. intros w. apply rtc_refl. Qed.

Lemma keeps_gets {A : Type} (f : World St -> A) : keeps rc thread (gets f).
Proof. intros w. apply rtc_refl. Qed.

Lemma append_wsteps (cs cs' : Clocks) (j j' : Journal) n ib (st : option St) em t d id :
  append_event t d j = (id, j') ->
  wsteps rc thread (mkWorld cs j n ib st em) (mkWorld cs' j' n ib st em).
Proof.
  intros Ha. eapply rtc_l; [by apply (ws_clock _ _ cs cs')|].
  apply rtc_once. by eapply ws_append.
Qed.

Lemma keeps_record (d : EventDraft) : keeps rc thread (record_event d : M St string).
Proof.
  intros [cs j n ib st em]. unfold record_event, record. simpl.
  destruct (read_clock (j_clock j) cs) as [t cs']. destruct (append_event t d j) as [id j'] eqn:E.
  by eapply append_wsteps.
Qed.

Lemma keeps_clock (h : nat) : keeps rc thread (clock_now h : M St DateTime).
Proof.
  intros [cs j n ib st em]. unfold clock_now. simpl. destruct (read_clock h cs) as [t cs'].
  apply rtc_once. constructor.
Qed.

Lemma keeps_uuid : keeps rc thread (uuid_string uuid : M St string).
Proof. intros [cs j n ib st em]. apply rtc_once. constructor. Qed.

Lemma keeps_emit (config : RunConfig) (e : GraphEvent) :
  is_super_step e = false -> keeps rc thread (emit config e : M St unit).
Proof.
  intros He [cs j n ib st em]. unfold emit. simpl.
  destruct (cf_event_tx config) as [room|]; [|apply rtc_refl].
  destruct (room em); [|apply rtc_refl]. by apply rtc_once, ws_emit.
Qed.

Lemma keeps_store {A : Type} (yes no : M St A) :
  keeps rc thread yes -> keeps rc thread no -> keeps rc thread (with_store yes no).
Proof. intros Hy Hn w. unfold with_store. destruct (w_store w); [apply Hy|apply Hn]. Qed.

Lemma keeps_set_inbox (ib : Inbox) : keeps rc thread (set_inbox ib : M St unit).
Proof. intros [cs j n ib0 st em]. apply rtc_once. constructor. Qed.

(** Settlement is a sequence of appends. *)
Lemma settle_one_wsteps (parent : option string) (s : Settling) (m : InboxMessage)
    n ib (st : option St) em :
  wsteps rc thread (mkWorld (st_clocks s) (st_journal s) n ib st em)
    (mkWorld (st_clocks (settle_one parent s m)) (st_journal (settle_one parent s m)) n ib st em).
Proof.
  unfold settle_one, record. destruct (read_clock _ _) as [t cs'].
  destruct (append_event _ _ _) as [id j'] eqn:E. by eapply append_wsteps.
Qed.

Lemma settle_wsteps (parent : option string) (ib0 : Inbox) cs j n ib (st : option St) em :
  wsteps rc thread (mkWorld cs j n ib st em)
    (mkWorld (st_clocks (settle parent ib0 cs j)) (st_journal (settle parent ib0 cs j)) n ib st em).
Proof.
  unfold settle. set (s := mkSettling None ib0 cs j).
  change cs with (st_clocks s) at 1. change j with (st_journal s) at 1.
  clearbody s. unfold wsteps.
  destruct (ib_source ib0) as [|points].
  - revert s. induction (ib_pending ib0) as [|m p IH]; intros s; [apply rtc_refl|].
    simpl. etrans; [|apply IH].
    apply (settle_one_wsteps parent (mkSettling (st_last s) (set_pending p (st_inbox s))
                                       (st_clocks s) (st_journal s))).
  - revert s. induction points as [|[seq m|] p IH]; intros s; [apply rtc_refl| |apply rtc_refl].
    simpl. destruct (_ <=? _)%N; [|apply rtc_refl]. etrans; [|apply IH].
    apply (settle_one_wsteps parent (mkSettling (st_last s) (set_source (Replay p) (st_inbox s))
                                       (st_clocks s) (st_journal s))).
Qed.

Lemma keeps_settle (parent : option string) (ib : Inbox) :
  keeps rc thread (settle_inbox parent ib : M St (option string)).
Proof.
  intros [cs j n ib0 st em]. unfold settle_inbox, wsteps. simpl.
  etrans; [apply settle_wsteps|]. apply rtc_once. constructor.
Qed.
End Keeps.

Hint Resolve keeps_ret keeps_lift keeps_fail keeps_gets keeps_record keeps_clock keeps_uuid
  keeps_emit keeps_set_inbox keeps_settle : executor.

Ltac keeps :=
  repeat lazymatch goal with
  | |- forall _, _ => intro
  | |- keeps _ _ (mint_checkpoint _ _ _ _ _ _ _ ≫= _) => fail
  | |- keeps _ _ (_ ≫= _) => apply keeps_bind
  | |- keeps _ _ (with_store _ _) => apply keeps_store
  | |- keeps _ _ (match ?x with _ => _ end) => destruct x
  | |- keeps _ _ _ => solve [eauto with executor]
  end.

Section Operations.
Context (rc rc' : Recorder) (thread : string).

Lemma keeps_now_ms (h : nat) : keeps rc thread (clock_now_ms h : M St N).
Proof. unfold clock_now_ms. keeps. Qed.

Lemma keeps_env_act (n : nat) (a : EnvAction) (ts : Tasks) :
  keeps rc thread (env_act rc' n a ts : M St Tasks).
Proof. unfold env_act. keeps. Qed.
Hint Resolve keeps_env_act : executor.

Lemma keeps_env_run (n : nat) (acts : list EnvAction) (ts : Tasks) :
  keeps rc thread (env_run rc' n acts ts : M St Tasks).
Proof. revert ts. induction acts; simpl; keeps. Qed.
Hint Resolve keeps_env_run : executor.

Lemma keeps_spawn_all (g : Graph Node) (config : RunConfig) s step r ev started d env tasks :
  forall i ts, keeps rc thread
    (spawn_all node_effect g config rc' s step r ev started d env tasks i ts : M St _).
Proof. induction tasks; simpl; keeps. Qed.

Lemma keeps_join (config : RunConfig) step invs f c :
  keeps rc thread (join_one config step invs f c : M St _).
Proof. unfold join_one. keeps. Qed.
Hint Resolve keeps_join : executor.

Lemma keeps_barrier (config : RunConfig) step invs acts :
  forall left ts joined c,
    keeps rc thread (barrier config rc' step invs acts left ts joined c : M St _).
Proof.
  induction acts as [|a acts IH]; intros [|left] ts joined c; simpl; try apply keeps_ret.
  - intros w. apply rtc_refl.
  - destruct a; keeps.
Qed.

Lemma keeps_outputs (invs : list Invocation) completed :
  forall last, keeps rc thread (journal_outputs invs completed last : M St _).
Proof. induction completed as [|[[[? ?] ?] ?] ? IH]; simpl; keeps. Qed.

Lemma keeps_turn_end (g : Graph Node) step ev next :
  keeps rc thread (turn_end g step ev next : M St _).
Proof. unfold turn_end. keeps. Qed.
End Operations.

Hint Resolve keeps_now_ms keeps_env_act keeps_env_run keeps_spawn_all keeps_join keeps_barrier
  keeps_outputs keeps_turn_end : executor.

(** ** Checkpoint writes *)

Lemma mint_spec (rc : Recorder) thread step s next ibx (w : World St) :
  exists c w', mint_checkpoint uuid rc thread step s next ibx w = (Ret c, w')
    /\ w_journal w' = w_journal w /\ w_store w' = w_store w /\ w_inbox w' = w_inbox w
    /\ stamped rc thread (w_journal w) c
    /\ c_step c = step /\ c_state c = s /\ c_next_nodes c = next
    /\ h_inbox (c_header c) = ibx.
Proof.
  destruct w as [cs j n ib st em].
  unfold mint_checkpoint, clock_now_ms, clock_now, uuid_string, gets.
  rewrite bind_world. simpl. rewrite bind_world. simpl.
  destruct (read_clock (rc_clock rc) cs) as [t cs'] eqn:E. rewrite !bind_world. simpl.
  destruct (read_clock (rc_clock rc) cs') as [t' cs2]. simpl. rewrite bind_world. simpl.
  eexists _, _. split; [reflexivity|]. simpl. by split_and!.
Qed.

Lemma keeps_mint (rc rc' : Recorder) thread thread' step s next ibx :
  keeps rc thread (mint_checkpoint uuid rc' thread' step s next ibx : M St Checkpoint).
Proof. unfold mint_checkpoint. keeps. Qed.

Lemma mint_wsteps {A : Type} (rc : Recorder) thread step s next ibx
    (k : Checkpoint -> M St A) :
  (forall c w, stamped rc thread (w_journal w) c -> wsteps rc thread w (k c w).2) ->
  keeps rc thread (mint_checkpoint uuid rc thread step s next ibx ≫= k).
Proof.
  intros Hk w. apply bind_wsteps; [apply keeps_mint|]. intros c w' Hm. apply Hk.
  destruct (mint_spec rc thread step s next ibx w) as (c2 & w2 & Hm2 & Hj & _ & _ & Hst & _).
  rewrite Hm in Hm2. simplify_eq. by rewrite Hj.
Qed.

Lemma put_wsteps (rc : Recorder) thread c (w : World St) :
  stamped rc thread (w_journal w) c -> wsteps rc thread w (put_checkpoint c w).2.
Proof.
  destruct w as [cs j n ib [st|] em]; simpl; intros Hst; [|apply rtc_refl].
  unfold put_checkpoint. simpl. destruct (put c st) as [r st'] eqn:E.
  apply rtc_once. by eapply ws_put.
Qed.

Section Writes.
Context (rc : Recorder) (config : RunConfig).
Let thread : string := cf_thread_id config.

Lemma keeps_boundary ls stamp extra parent susp :
  keeps rc thread (write_boundary uuid config rc ls stamp extra parent susp : M St string).
Proof.
  apply mint_wsteps. intros c w Hst. apply bind_wsteps; [by apply put_wsteps|].
  intros _ w' _.
  eapply keeps_bind; keeps.
Qed.
Hint Resolve keeps_boundary : executor.

Lemma keeps_halt ls halt : keeps rc thread (halt_run uuid config rc ls halt : M St _).
Proof. unfold halt_run. keeps. Qed.

Lemma keeps_cancel {A : Type} ls n parent cause keep ib :
  keeps rc thread (cancel_run uuid config rc ls n parent cause keep ib : M St A).
Proof. unfold cancel_run. destruct (if keep then _ else _). keeps. Qed.
Hint Resolve keeps_cancel : executor.

Lemma keeps_inbox_boundary ls n env :
  keeps rc thread (inbox_boundary uuid config rc ls n env : M St _).
Proof. unfold inbox_boundary. keeps. Qed.

Lemma keeps_suspend s active step d invs i name v :
  keeps rc thread (suspend_step uuid config rc s active step d invs i name v : M St _).
Proof.
  unfold suspend_step. keeps. apply mint_wsteps. intros c w Hst.
  apply bind_wsteps; [|intros; apply keeps_ret].
  unfold with_store. destruct (w_store w); [|apply rtc_refl].
  apply bind_wsteps; [by apply put_wsteps|]. intros _ w' _.
  eapply keeps_bind; keeps.
Qed.

Lemma keeps_complete g spec s step env ev invs c :
  keeps rc thread
    (complete_step (Node:=Node) uniq uuid g spec config rc s step env ev invs c : M St _).
Proof.
  unfold complete_step. keeps. apply mint_wsteps. intros cp w Hst.
  apply bind_wsteps; [by apply put_wsteps|]. intros _ w' _.
  eapply keeps_bind; keeps.
Qed.
Hint Resolve keeps_suspend keeps_complete keeps_inbox_boundary keeps_halt : executor.

(** A super-step announces itself once and then takes world steps. *)
Lemma super_step_wsteps g spec s active step r parent d started env (w : World St) :
  let e := SuperStep step (map task_name active) in
  wsteps rc thread (emit config e w).2
    (execute_super_step node_effect uniq uuid g spec config rc s active step r parent d started
       env w).2.
Proof.
  unfold execute_super_step. rewrite bind_world. simpl.
  set (w1 := match cf_event_tx config with Some _ => _ | None => _ end). clearbody w1. revert w1.
  eapply keeps_bind; keeps.
Qed.
Hint Resolve super_step_wsteps : executor.

(** ** Whole runs *)

(** World steps with [n] super-step announcements among them. *)
Inductive spans : nat -> World St -> World St -> Prop :=
| sp_quiet w w' : wsteps rc thread w w' -> spans 0 w w'
| sp_step n w w1 w' step names :
    wsteps rc thread w w1 -> spans n (emit config (SuperStep step names) w1).2 w' ->
    spans (S n) w w'.

Lemma spans_quiet_l n w w1 w' : wsteps rc thread w w1 -> spans n w1 w' -> spans n w w'.
Proof.
  intros Hw Hs. unfold wsteps in *.
  destruct Hs; [apply sp_quiet|eapply sp_step; [|done]]; unfold wsteps in *; by etrans.
Qed.

Lemma spans_trans n n' w w1 w' : spans n w w1 -> spans n' w1 w' -> spans (n + n') w w'.
Proof.
  induction 1 as [w w1 Hw|n w w2 w1 step names Hw _ IH]; intros Hs; simpl.
  - by eapply spans_quiet_l.
  - eapply sp_step; [done|]. by apply IH.
Qed.

(** A computation that starts at most [k] super-steps. *)
Definition within (k : nat) {A : Type} (m : M St A) : Prop :=
  forall w, exists n, n <= k /\ spans n w (m w).2.

Lemma keeps_within {A : Type} (k : nat) (m : M St A) : keeps rc thread m -> within k m.
Proof. intros Hm w. exists 0. split; [lia|]. apply sp_quiet, Hm. Qed.

Lemma within_bind {A B : Type} (k1 k2 : nat) (m : M St A) (f : A -> M St B) :
  within k1 m -> (forall a, within k2 (f a)) -> within (k1 + k2) (m ≫= f).
Proof.
  intros Hm Hf w. destruct (Hm w) as (n & Hn & Hs). rewrite bind_world.
  destruct (m w) as [[a|e|] w1]; simpl in Hs; [|exists n; split; [lia|done]..].
  destruct (Hf a w1) as (n' & Hn' & Hs'). exists (n + n'). split; [lia|].
  by eapply spans_trans.
Qed.

Lemma within_super_step g spec s active step r parent d started env :
  within 1 (execute_super_step node_effect uniq uuid g spec config rc s active step r parent d
              started env : M St _).
Proof.
  intros w. exists 1. split; [lia|].
  eapply sp_step; [apply rtc_refl|apply sp_quiet, super_step_wsteps].
Qed.

Lemma within_loop_step g spec started ls n env :
  within 1 (loop_step node_effect uniq uuid g spec config rc started ls n env : M St _).
Proof.
  unfold loop_step. apply (within_bind 0 1); [apply keeps_within; keeps|]. intros _.
  apply (within_bind 0 1); [apply keeps_within; keeps|]. intros [delivery ls1].
  destruct (se_cancelled env); [apply keeps_within; keeps|].
  apply (within_bind 1 0); [apply within_super_step|]. intros [[s' t] invs].
  apply keeps_within. keeps.
Qed.

Lemma within_run_loop g spec started env (left : nat) :
  forall ls, within left
    (run_loop node_effect uniq uuid g spec config rc started env left ls : M St _).
Proof.
  induction left as [|left IH]; intros ls; cbn [run_loop].
  - apply keeps_within. keeps.
  - apply (within_bind 0 (S left)); [apply keeps_within; keeps|]. intros [[[|e] spend] seen].
    + apply (within_bind 1 left); [apply within_loop_step|]. intros [o|ls2]; [|apply IH].
      apply keeps_within. keeps.
    + apply keeps_within. keeps.
Qed.
End Writes.

(** ** What a span of steps does to the journal, the store and the sink *)

Definition appends : Journal -> Journal -> Prop :=
  rtc (fun j j' => exists t d id, append_event t d j = (id, j')).

Lemma appends_events (j j' : Journal) : appends j j' -> j_events j `prefix_of` j_events j'.
Proof.
  induction 1 as [|j j1 j' (t & d & id & Ha) _ IH]; [done|]. etrans; [|exact IH].
  apply append_event_inv in Ha as (? & ? & ? & _ & _ & -> & _). by apply prefix_app_r.
Qed.

Lemma appends_ok `{!CodecLaws} (j j' : Journal) : appends j j' -> journal_ok j -> journal_ok j'.
Proof.
  induction 1 as [|j j1 j' (t & d & id & Ha) _ IH]; [done|]. intros. apply IH.
  by eapply append_event_ok.
Qed.

Definition announced (w : World St) : nat := length (filter is_super_step (w_emitted w)).

Definition put_all_of (cs : list Checkpoint) (o : option St) : option St :=
  (fun st => fold_left (fun st c => (put c st).2) cs st) <$> o.

(** The store results from puts of checkpoints stamped along the way. *)
Definition stored (rc : Recorder) (thread : string) (w w' : World St) : Prop :=
  exists cs, w_store w' = put_all_of cs (w_store w)
    /\ Forall (fun c => exists j, stamped rc thread j c /\ appends (w_journal w) j
                                  /\ appends j (w_journal w')) cs.

Lemma stored_refl rc thread w w' :
  w_store w' = w_store w -> stored rc thread w w'.
Proof. intros E. exists []. rewrite E. split; [by destruct (w_store w)|constructor]. Qed.

Lemma stored_trans rc thread w w1 w' :
  appends (w_journal w) (w_journal w1) -> appends (w_journal w1) (w_journal w') ->
  stored rc thread w w1 -> stored rc thread w1 w' -> stored rc thread w w'.
Proof.
  intros Ha Ha' (cs & E & HF) (cs' & E' & HF'). exists (cs ++ cs'). split.
  - rewrite E', E. unfold put_all_of. destruct (w_store w); simpl; [|done].
    by rewrite fold_left_app.
  - unfold appends in *. apply Forall_app. split.
    + eapply Forall_impl; [exact HF|]. intros c (j & ? & ? & ?).
      exists j. split_and!; [done..|by etrans].
    + eapply Forall_impl; [exact HF'|]. intros c (j & ? & ? & ?).
      exists j. split_and!; [done|by etrans|done].
Qed.

(** One world step on each of the three. *)
Lemma wstep_effects rc thread w w' :
  wstep rc thread w w' ->
  appends (w_journal w) (w_journal w') /\ announced w' = announced w /\ stored rc thread w w'.
Proof.
  intros Hs. destruct Hs; simpl;
    try (split_and!; [apply rtc_refl|done|by apply stored_refl]).
  - split_and!; [apply rtc_once; eauto|done|by apply stored_refl].
  - split_and!; [apply rtc_refl| |by apply stored_refl].
    unfold announced. simpl. rewrite filter_app, filter_cons_False, filter_nil, app_nil_r; [done|].
    intros Ht%Is_true_eq_true. congruence.
  - split_and!; [apply rtc_refl|done|]. exists [c]. simpl. split; [by rewrite H1|].
    constructor; [|constructor]. exists j. by split_and!; [|apply rtc_refl..].
Qed.

Lemma wsteps_effects rc thread w w' :
  wsteps rc thread w w' ->
  appends (w_journal w) (w_journal w') /\ announced w' = announced w /\ stored rc thread w w'.
Proof.
  induction 1 as [w|w w1 w' Hs _ (Ha & Hn & Hst)].
  - split_and!; [apply rtc_refl|done|by apply stored_refl].
  - apply wstep_effects in Hs as (Ha1 & Hn1 & Hst1).
    split_and!; [unfold appends in *; by etrans|congruence|by eapply stored_trans].
Qed.

Lemma spans_effects rc config n w w' :
  spans rc config n w w' ->
  appends (w_journal w) (w_journal w') /\ announced w' <= announced w + n
  /\ stored rc (cf_thread_id config) w w'.
Proof.
  induction 1 as [w w' Hw|n w w1 w' step names Hw _ IH].
  - apply wsteps_effects in Hw as (? & -> & ?). split_and!; [done|lia|done].
  - apply wsteps_effects in Hw as (Ha1 & Hn1 & Hst1). destruct IH as (Ha & Hn & Hst).
    assert (Hem : w_journal (emit config (SuperStep step names) w1).2 = w_journal w1
              /\ w_store (emit config (SuperStep step names) w1).2 = w_store w1
              /\ announced (emit config (SuperStep step names) w1).2 <= S (announced w1)).
    { unfold emit. simpl. destruct (cf_event_tx config) as [room|]; [|split_and!; [done..|lia]].
      destruct (room _); [|split_and!; [done..|lia]]. unfold announced. simpl. split_and!; [done..|].
      rewrite filter_app, length_app, filter_cons_True; simpl; [lia|done]. }
    destruct Hem as (Hj & Hs & Hc). rewrite Hj in Ha.
    split_and!; [unfold appends in *; by etrans|lia|].
    eapply stored_trans; [exact Ha1|exact Ha|exact Hst1|].
    destruct Hst as (cs & E & HF). exists cs. by rewrite <- Hs, <- Hj.
Qed.

(** The journal a run records into. *)
Definition run_journal (config : RunConfig) (w : World St) : Journal :=
  match cf_journal config with
  | Some j => j
  | None => journal_new (uuid (w_minted w)) (cf_thread_id config)
              (default SYSTEM_CLOCK (cf_clock config))
  end.

Lemma setup_spec (g : Graph Node) (config : RunConfig) (w : World St) :
  exists rc w1, setup uuid g config w = (Ret rc, w1)
    /\ rc_graph_hash rc = topology_hash sha256_hex g
    /\ w_journal w1 = run_journal config w /\ w_store w1 = w_store w
    /\ w_inbox w1 = w_inbox w /\ w_emitted w1 = w_emitted w.
Proof.
  unfold setup, run_journal, set_journal, uuid_string, gets. rewrite bind_world.
  destruct (cf_journal config); simpl; rewrite ?bind_world; simpl;
    rewrite ?bind_world; simpl; eexists _, _; (split; [reflexivity|]); by split_and!.
Qed.

Lemma keeps_start rc rc' thread (g : Graph Node) config s0 :
  keeps rc thread (start g config rc' s0 : M St _).
Proof.
  unfold start. assert (keeps rc thread (restore_point config : M St Checkpoint)).
  { intros w. unfold restore_point. destruct (w_store w); [apply keeps_lift|apply rtc_refl]. }
  keeps.
Qed.

Lemma start_hash (g : Graph Node) config rc s0 (w w' : World St) rc' ls :
  start g config rc s0 w = (Ret (rc', ls), w') -> rc_graph_hash rc' = rc_graph_hash rc.
Proof.
  unfold start. intros Hs. destruct (cf_checkpoint_id config), (cf_resume config);
    simplify_run; by destruct (cf_policy_version config).
Qed.

Lemma keeps_declare rc rc' thread config :
  keeps rc thread (declare config rc' : M St _).
Proof. unfold declare. keeps. Qed.

(** A run after its setup is a span of at most [max_steps] super-steps. *)
Lemma run_spans (g : Graph Node) spec s0 config env (w : World St) :
  exists rc n w1, rc_graph_hash rc = topology_hash sha256_hex g /\ n <= cf_max_steps config
    /\ w_journal w1 = run_journal config w /\ w_store w1 = w_store w
    /\ w_emitted w1 = w_emitted w
    /\ spans rc config n w1 (run node_effect uniq uuid g spec s0 config env w).2.
Proof.
  unfold run. rewrite bind_world.
  destruct (setup_spec g config w) as (rc & w1 & -> & Hh & Hj & Hs & _ & He).
  rewrite bind_world. destruct (start g config rc s0 w1) as [[[rc' ls]|e|] w2] eqn:Est.
  - exists rc'.
    enough (exists n, n <= cf_max_steps config
              /\ spans rc' config n w2
                   (match ls_active ls with
                    | [] => mret (Done (ls_state ls))
                    | _ => started_at ← declare config rc';
                           run_loop node_effect uniq uuid g spec config rc' started_at env
                             (cf_max_steps config) ls
                    end w2).2) as (n & Hn & Hsp).
    { exists n, w1. split_and!; [by erewrite start_hash|done..|].
      eapply spans_quiet_l; [|exact Hsp].
      pose proof (keeps_start rc' rc (cf_thread_id config) g config s0 w1) as Hk.
      by rewrite Est in Hk. }
    destruct (ls_active ls) as [|t ts]; [exists 0; split; [lia|by apply sp_quiet, rtc_refl]|].
    apply (within_bind rc' config 0 (cf_max_steps config));
      [apply keeps_within, keeps_declare|]. intros. apply within_run_loop.
  - exists rc, 0, w1. split_and!; [done|lia|done..|]. apply sp_quiet.
    pose proof (keeps_start rc rc (cf_thread_id config) g config s0 w1) as Hk.
    by rewrite Est in Hk.
  - exists rc, 0, w1. split_and!; [done|lia|done..|]. apply sp_quiet.
    pose proof (keeps_start rc rc (cf_thread_id config) g config s0 w1) as Hk.
    by rewrite Est in Hk.
Qed.

(** ** Properties of whole runs *)

(** A checkpoint that pins a verified prefix of the journal [j]. *)
Definition pins_prefix (j : Journal) (c : Checkpoint) : Prop :=
  exists k hash, k <= length (j_events j)
    /\ c_journal_ref c = Some (mkJournalRef (N.of_nat k) hash)
    /\ recompute_head_hash (take k (j_events j)) = Ok hash.

Lemma stamped_pins `{!CodecLaws} rc thread j j' c :
  stamped rc thread j c -> journal_ok j -> appends j j' -> pins_prefix j' c.
Proof.
  intros Hst Hok Ha. destruct (appends_events _ _ Ha) as [es Hes].
  exists (length (j_events j)), (j_head_hash j). split_and!.
  - rewrite Hes, length_app. lia.
  - apply (stamp_ref _ _ _ _ Hst).
  - rewrite Hes, take_app_length. apply Hok.
Qed.

(** C1: the evidence of a run. Whatever the nodes, the scheduler and the
    outside world do, and however the run ends, the journal it leaves
    satisfies the journal invariant and extends the attached one; the store
    results from puts of full checkpoints of the run's thread, each stamped
    with the graph's topology hash and pinning a prefix of that journal whose
    recomputed chain hash is the pinned one. *)
Theorem run_evidence `{!CodecLaws} (g : Graph Node) (spec : StateSpec) (s0 : State)
    (config : RunConfig) (env : nat -> StepEnv) (w : World St) :
  (forall j, cf_journal config = Some j -> journal_ok j) ->
  let w' := (run node_effect uniq uuid g spec s0 config env w).2 in
  journal_ok (w_journal w')
  /\ (forall j, cf_journal config = Some j -> j_events j `prefix_of` j_events (w_journal w'))
  /\ exists cs, w_store w' = put_all_of cs (w_store w)
       /\ Forall (fun c => c_thread_id c = cf_thread_id config /\ c_base c = None
                     /\ h_graph_hash (c_header c) = topology_hash sha256_hex g
                     /\ pins_prefix (w_journal w') c) cs.
Proof.
  intros Hj w'.
  destruct (run_spans g spec s0 config env w) as (rc & n & w1 & Hh & Hn & Hw1 & Hs1 & _ & Hsp).
  fold w' in Hsp. apply spans_effects in Hsp as (Ha & _ & cs & Hcs & HF).
  assert (Hok1 : journal_ok (w_journal w1)).
  { rewrite Hw1. unfold run_journal. destruct (cf_journal config); [by apply Hj|].
    apply journal_new_ok. }
  split_and!.
  - by eapply appends_ok.
  - intros j Ej. apply appends_events in Ha. rewrite Hw1 in Ha. unfold run_journal in Ha.
    by rewrite Ej in Ha.
  - exists cs. rewrite Hcs, Hs1. split; [done|]. eapply Forall_impl; [exact HF|].
    intros c (j & Hst & Hj1 & Hj2). split_and!.
    + apply (stamp_thread _ _ _ _ Hst).
    + apply (stamp_full _ _ _ _ Hst).
    + rewrite <- Hh. apply (stamp_hash _ _ _ _ Hst).
    + eapply stamped_pins; [done| |done]. by eapply appends_ok.
Qed.

(** ** Termination *)

(** Whether the actions finish task [i], given whether it started and
    finished already. *)
Fixpoint will_finish (i : nat) (started finished : bool) (acts : list EnvAction) : bool :=
  match acts with
  | [] => finished
  | EnvStart k :: rest => will_finish i (started || Nat.eqb k i) finished rest
  | EnvFinish k _ :: rest =>
      will_finish i started (finished || (started && Nat.eqb k i)) rest
  | _ :: rest => will_finish i started finished rest
  end.

Fixpoint joins (acts : list EnvAction) : nat :=
  match acts with
  | [] => 0
  | EnvJoin :: rest => S (joins rest)
  | _ :: rest => joins rest
  end.

(** A schedule that runs each of [n] tasks to its end, and then joins them. *)
Definition fair (n : nat) (acts : list EnvAction) : Prop :=
  exists k, (forall i, i < n -> will_finish i false false (take k acts) = true)
            /\ n <= joins (drop k acts).

Definition finished_in (ts : Tasks) (i : nat) : bool :=
  existsb (fun f => Nat.eqb (fin_index f) i) (ts_finished ts).
Definition started_in (ts : Tasks) (i : nat) : bool := bool_decide (is_Some (ts_started ts !! i)).

Lemma will_finish_mono (i : nat) (s f s' f' : bool) (acts : list EnvAction) :
  (s = true -> s' = true) -> (f = true -> f' = true) ->
  will_finish i s f acts = true -> will_finish i s' f' acts = true.
Proof.
  revert s f s' f'. induction acts as [|[] acts IH]; intros s f s' f' Hs Hf; simpl; [done|..];
    apply IH; try done; destruct s, f, s', f'; simpl; naive_solver.
Qed.

(** What an action leaves of the tasks' prospects. *)
Definition advances (n : nat) (a : EnvAction) (ts ts' : Tasks) : Prop :=
  ts_finished ts `prefix_of` ts_finished ts'
  /\ forall i acts, i < n ->
       will_finish i (started_in ts i) (finished_in ts i) (a :: acts) = true ->
       will_finish i (started_in ts' i) (finished_in ts' i) acts = true.

Lemma start_advances n k ts :
  (n <= k \/ started_in ts k = true) -> advances n (EnvStart k) ts ts.
Proof.
  intros Hk. split; [done|]. intros i acts Hi. simpl.
  destruct (Nat.eqb_spec k i) as [->|]; [|by rewrite orb_false_r].
  destruct Hk as [?| ->]; [lia|done].
Qed.

Lemma insert_advances n k t ts :
  advances n (EnvStart k) ts (mkTasks (<[k := t]> (ts_started ts)) (ts_finished ts)).
Proof.
  split; [done|]. intros i acts Hi. simpl. apply will_finish_mono; [|done]. unfold started_in. simpl.
  destruct (Nat.eqb_spec k i) as [->|].
  - intros _. apply bool_decide_eq_true. rewrite lookup_insert_eq. eauto.
  - by rewrite orb_false_r, lookup_insert_ne.
Qed.

Lemma finish_advances n k r ts :
  (started_in ts k = false \/ finished_in ts k = true) -> advances n (EnvFinish k r) ts ts.
Proof.
  intros Hk. split; [done|]. intros i acts Hi. simpl. apply will_finish_mono; [done|].
  destruct (Nat.eqb_spec k i) as [->|]; [|by rewrite andb_false_r, orb_false_r].
  destruct Hk as [->| ->]; [by rewrite orb_false_r|done].
Qed.

Lemma finished_advances n k r l ts :
  advances n (EnvFinish k r) ts (mkTasks (ts_started ts) (ts_finished ts ++ [mkFinished k r l])).
Proof.
  split; [by apply prefix_app_r|]. intros i acts Hi. simpl. apply will_finish_mono; [done|].
  unfold finished_in. simpl. rewrite existsb_app. simpl. rewrite orb_false_r.
  set (b := existsb _ _). by destruct b, (started_in ts i), (Nat.eqb k i).
Qed.

(** An environment action returns and advances the tasks. *)
Lemma env_act_spec rc n a ts (w : World St) :
  exists ts' w', env_act rc n a ts w = (Ret ts', w') /\ advances n a ts ts'.
Proof.
  destruct a as [k|k r| |d|sender target wakeup content|cause keep]; simpl.
  - unfold clock_now. destruct (Nat.ltb_spec k n); simpl; [|(eexists _, _; split; [reflexivity|]; auto using start_advances)].
    fold (started_in ts k). destruct (started_in ts k) eqn:Hst; simpl; [(eexists _, _; split; [reflexivity|]; auto using start_advances)|].
    rewrite bind_world. destruct (read_clock _ _) as [t cs]. (eexists _, _; split; [reflexivity|]; auto using insert_advances).
  - destruct (ts_started ts !! k) as [t0|] eqn:Hk.
    + fold (finished_in ts k). destruct (finished_in ts k) eqn:Hf; [(eexists _, _; split; [reflexivity|]; auto using finish_advances)|].
      unfold clock_now. rewrite bind_world. destruct (read_clock _ _) as [t cs].
      (eexists _, _; split; [reflexivity|]; auto using finished_advances).
    + eexists _, _. split; [done|]. apply finish_advances. left. unfold started_in. by rewrite Hk.
  - eexists _, _. by split.
  - rewrite bind_world. unfold record_event. destruct (record _ _ _) as [[id cs] j].
    eexists _, _. by split.
  - rewrite bind_world. simpl. destruct (w_inbox w); [rewrite bind_world|];
      (eexists _, _; by split).
  - rewrite bind_world. simpl. destruct (w_inbox w); [rewrite bind_world|];
      (eexists _, _; by split).
Qed.

Definition ends {A : Type} (m : M St A) : Prop := forall w, (m w).1 <> Wait.

Lemma ends_bind {A B : Type} (m : M St A) (f : A -> M St B) :
  ends m -> (forall a, ends (f a)) -> ends (m ≫= f).
Proof.
  intros Hm Hf w. rewrite bind_world. specialize (Hm w).
  by destruct (m w) as [[a|e|] w']; [apply Hf| |].
Qed.

Lemma ends_ret {A : Type} (a : A) : ends (mret a : M St A).
Proof. done. Qed.

Lemma ends_lift {A : Type} (r : res A) : ends (lift r : M St A).
Proof. intros w. by destruct r. Qed.

Lemma ends_fail {A : Type} (e : RustyError) : ends (fail e : M St A).
Proof. done. Qed.

Lemma ends_gets {A : Type} (f : World St -> A) : ends (gets f).
Proof. done. Qed.

Lemma ends_record d : ends (record_event d : M St string).
Proof. intros w. unfold record_event. by destruct (record _ _ _) as [[? ?] ?]. Qed.

Lemma ends_clock h : ends (clock_now h : M St DateTime).
Proof. intros w. unfold clock_now. by destruct (read_clock _ _). Qed.

Lemma ends_emit config e : ends (emit config e : M St unit).
Proof. done. Qed.

Lemma ends_put c : ends (put_checkpoint c : M St unit).
Proof.
  intros w. unfold put_checkpoint. destruct (w_store w); [|done].
  by destruct (put c _) as [[] ?].
Qed.

Lemma ends_set_inbox ib : ends (set_inbox ib : M St unit).
Proof. done. Qed.

Lemma ends_settle parent ib : ends (settle_inbox parent ib : M St _).
Proof. done. Qed.

Lemma ends_mint rc thread step s next ibx :
  ends (mint_checkpoint uuid rc thread step s next ibx : M St _).
Proof. intros w. by destruct (mint_spec rc thread step s next ibx w) as (? & ? & -> & _). Qed.

Lemma ends_store {A : Type} (yes no : M St A) : ends yes -> ends no -> ends (with_store yes no).
Proof. intros Hy Hn w. unfold with_store. destruct (w_store w); [apply Hy|apply Hn]. Qed.

Lemma ends_env_act rc n a ts : ends (env_act rc n a ts : M St Tasks).
Proof. intros w. by destruct (env_act_spec rc n a ts w) as (? & ? & -> & _). Qed.

Hint Resolve ends_ret ends_lift ends_fail ends_gets ends_record ends_clock ends_emit ends_put
  ends_set_inbox ends_settle ends_mint ends_env_act : executor.

Ltac ends :=
  repeat lazymatch goal with
  | |- forall _, _ => intro
  | |- ends (_ ≫= _) => apply ends_bind
  | |- ends (with_store _ _) => apply ends_store
  | |- ends (match ?x with _ => _ end) => destruct x
  | |- ends _ => solve [eauto with executor]
  end.

Lemma ends_join config step invs f c : ends (join_one config step invs f c : M St _).
Proof. unfold join_one. ends. Qed.

Lemma finished_enough n ts :
  (forall i, i < n -> finished_in ts i = true) -> n <= length (ts_finished ts).
Proof.
  intros Hf. rewrite <- (length_fmap fin_index), <- (length_seq n 0).
  apply submseteq_length, NoDup_submseteq; [apply NoDup_seq|].
  intros i [_ Hi]%elem_of_seq. specialize (Hf i ltac:(lia)).
  apply existsb_exists in Hf as (f & Hin & Heq). apply Nat.eqb_eq in Heq.
  apply list_elem_of_fmap. exists f. split; [done|]. by apply list_elem_of_In.
Qed.

Lemma will_finish_done i b acts : will_finish i b true acts = true.
Proof. revert b. by induction acts as [|[] acts IH]; intros b; simpl. Qed.

(** Under a fair schedule the barrier ends. *)
Lemma barrier_ends config rc step invs acts :
  forall k left ts joined c w, left + joined = length invs ->
  (forall i, i < length invs ->
     will_finish i (started_in ts i) (finished_in ts i) (take k acts) = true) ->
  left <= joins (drop k acts) ->
  (barrier config rc step invs acts left ts joined c w : _ * World St).1 <> Wait.
Proof.
  induction acts as [|a acts IH]; intros k [|left] ts joined c w Hn Hw Hj; try done.
  { rewrite drop_nil in Hj. simpl in Hj. lia. }
  assert (Hnext : forall ts', advances (length invs) a ts ts' ->
    forall i, i < length invs ->
      will_finish i (started_in ts' i) (finished_in ts' i) (take (pred k) acts) = true).
  { intros ts' [_ Ha] i Hi. apply Ha; [done|]. specialize (Hw i Hi).
    destruct k; [|done]. simpl in Hw. rewrite Hw. apply will_finish_done. }
  destruct (decide (a = EnvJoin)) as [->|Ha].
  - assert (Hjoin : joined < length (ts_finished ts) \/ 0 < k).
    { destruct k; [|lia]. left. simpl in Hw. apply finished_enough in Hw. lia. }
    cbn [barrier]. destruct (ts_finished ts !! joined) as [f|] eqn:Hf.
    + rewrite bind_world. pose proof (ends_join config step invs f c w) as He.
      destruct (join_one _ _ _ _ _ w) as [[[c'|]|e|] w1]; try done.
      apply (IH (pred k)); [lia|by apply Hnext|]. destruct k; simpl in *; rewrite ?drop_0; lia.
    + apply lookup_ge_None in Hf. destruct k as [|k]; [lia|].
      apply (IH k); [lia|by apply Hnext|done].
  - assert (Hj' : S left <= joins (drop (pred k) acts))
      by (destruct k; [by destruct a|done]).
    destruct a; try done; cbn [barrier]; rewrite bind_world;
      (match goal with |- context [env_act ?r ?n ?a ?t ?w] =>
         destruct (env_act_spec r n a t w) as (ts' & w' & -> & Hadv) end);
      (apply (IH (pred k)); [lia|by apply Hnext|done]).
Qed.

(** Every node of the step finishes and is joined. *)
Definition fair_step (env : StepEnv) : Prop :=
  forall invs, fair (length invs) (se_barrier env invs).

Lemma ends_env_run rc n acts : forall ts, ends (env_run rc n acts ts : M St Tasks).
Proof. induction acts; simpl; ends. Qed.

Lemma ends_spawn_all (g : Graph Node) config rc s step r ev started d env tasks :
  forall i ts, ends (spawn_all node_effect g config rc s step r ev started d env tasks i ts : M St _).
Proof. pose proof ends_env_run. induction tasks; simpl; ends. Qed.

Lemma ends_barrier config rc step invs acts ts c :
  fair (length invs) acts ->
  ends (barrier config rc step invs acts (length invs) ts 0 c : M St _).
Proof.
  intros (k & Hw & Hj) w. apply (barrier_ends _ _ _ _ _ k); [lia| |done].
  intros i Hi. eapply will_finish_mono; [..|by apply Hw]; done.
Qed.

Lemma ends_outputs invs completed : forall last, ends (journal_outputs invs completed last : M St _).
Proof. induction completed as [|[[[? ?] ?] ?] ? IH]; simpl; ends. Qed.

Lemma ends_boundary config rc ls stamp extra parent susp :
  ends (write_boundary uuid config rc ls stamp extra parent susp : M St string).
Proof. unfold write_boundary. ends. Qed.

Lemma ends_cancel {A : Type} config rc ls n parent cause keep ib :
  ends (cancel_run uuid config rc ls n parent cause keep ib : M St A).
Proof.
  pose proof ends_boundary. unfold cancel_run. destruct (if keep then _ else _). ends.
Qed.

Lemma ends_halt config rc ls halt : ends (halt_run uuid config rc ls halt : M St _).
Proof. pose proof ends_boundary. unfold halt_run. ends. Qed.

Hint Resolve ends_env_run ends_spawn_all ends_barrier ends_outputs ends_cancel ends_halt : executor.

Lemma ends_super_step (g : Graph Node) spec config rc s active step r parent d started env :
  fair_step env ->
  ends (execute_super_step node_effect uniq uuid g spec config rc s active step r parent d
          started env : M St _).
Proof.
  intros Hf. unfold execute_super_step, suspend_step, complete_step, turn_end. ends.
Qed.

Lemma ends_loop_step (g : Graph Node) spec config rc started ls n env :
  fair_step env ->
  ends (loop_step node_effect uniq uuid g spec config rc started ls n env : M St _).
Proof.
  intros Hf. pose proof ends_super_step. unfold loop_step, inbox_boundary. ends.
Qed.

Lemma ends_run_loop (g : Graph Node) spec config rc started env left :
  (forall k, fair_step (env k)) ->
  forall ls, ends (run_loop node_effect uniq uuid g spec config rc started env left ls : M St _).
Proof.
  intros Hf. pose proof ends_loop_step. induction left; intros ls; cbn [run_loop]; ends.
Qed.

(** C7: a run is finite. When every schedule runs the nodes of a step to
    their end, the run returns or fails: it never waits for ever. And it
    announces at most [max_steps] super-steps, whatever the routers decide. *)
Theorem run_terminates (g : Graph Node) (spec : StateSpec) (s0 : State) (config : RunConfig)
    (env : nat -> StepEnv) (w : World St) :
  (forall k, fair_step (env k)) ->
  let r := run node_effect uniq uuid g spec s0 config env w in
  r.1 <> Wait /\ announced r.2 <= announced w + cf_max_steps config.
Proof.
  intros Hf r. split.
  - subst r. revert w. pose proof ends_run_loop.
    assert (Hr : ends (restore_point config : M St Checkpoint)).
    { intros w. unfold restore_point. destruct (w_store w); [apply ends_lift|done]. }
    assert (Hs : ends (setup uuid g config : M St Recorder)).
    { intros w. by destruct (setup_spec g config w) as (? & ? & -> & _). }
    change (ends (run node_effect uniq uuid g spec s0 config env : M St _)).
    unfold run, start, declare. ends.
  - destruct (run_spans g spec s0 config env w) as (rc & n & w1 & _ & Hn & _ & _ & He & Hsp).
    apply spans_effects in Hsp as (_ & Ha & _). fold r in Ha.
    unfold announced in *. rewrite He in Ha. lia.
Qed.
End World.
