(* ===== verification/SuperStep.v ===== *)
(** * Theorems about super-steps

    The super-step as a transaction on the checkpoint store, its independence
    from the order in which nodes finish, what it routes to, the spend guard of
    the loop, and suspension followed by resumption. *)

From Stdlib Require Import String.
From S2P Require Import Prelude Containers Json Error State StateFacts Graph Record SampleCodec Journal JournalFacts Inbox Checkpoint Meter Executor ExecutorFacts.

(** ** Computations that leave the store alone *)
Section Frame.
Context `{Codec} {St : Type} `{!Checkpointer St}.
Context {Node : Type} (node_effect : Node -> Effect) (uniq : Sharing) (uuid : nat -> string).

Definition frames {A : Type} (m : M St A) : Prop := forall w, w_store (m w).2 = w_store w.

Lemma frames_bind {A B : Type} (m : M St A) (f : A -> M St B) :
  frames m -> (forall a, frames (f a)) -> frames (m ≫= f).
Proof.
  intros Hm Hf w. rewrite bind_world. specialize (Hm w).
  destruct (m w) as [[a|e|] w']; simpl in *; rewrite <- Hm; [apply Hf|done|done].
Qed.

Lemma frames_ret {A : Type} (a : A) : frames (mret a : M St A).
Proof. done. Qed.

Lemma frames_lift {A : Type} (r : res A) : frames (lift r : M St A).
Proof. done. Qed.

Lemma frames_fail {A : Type} (e : RustyError) : frames (fail e : M St A).
Proof. done. Qed.

Lemma frames_gets {A : Type} (f : World St -> A) : frames (gets f).
Proof. done. Qed.

Lemma frames_record d : frames (record_event d : M St string).
Proof. intros w. unfold record_event. by destruct (record _ _ _) as [[? ?] ?]. Qed.

Lemma frames_clock h : frames (clock_now h : M St DateTime).
Proof. intros w. unfold clock_now. by destruct (read_clock _ _). Qed.

Lemma frames_emit config e : frames (emit config e : M St unit).
Proof. intros w. unfold emit. simpl. destruct (cf_event_tx config) as [room|]; [|done]. by destruct (room _). Qed.

Lemma frames_set_inbox ib : frames (set_inbox ib : M St unit).
Proof. done. Qed.

Lemma frames_settle parent ib : frames (settle_inbox parent ib : M St _).
Proof. done. Qed.

Hint Resolve frames_ret frames_lift frames_fail frames_gets frames_record frames_clock
  frames_emit frames_set_inbox frames_settle : executor.

Ltac frames :=
  repeat lazymatch goal with
  | |- forall _, _ => intro
  | |- frames (_ ≫= _) => apply frames_bind
  | |- frames (match ?x with _ => _ end) => destruct x
  | |- frames _ => solve [eauto with executor]
  end.

Lemma frames_env_act rc n a ts : frames (env_act rc n a ts : M St Tasks).
Proof. unfold env_act. frames. Qed.
Hint Resolve frames_env_act : executor.

Lemma frames_env_run rc n acts : forall ts, frames (env_run rc n acts ts : M St Tasks).
Proof. induction acts; simpl; frames. Qed.
Hint Resolve frames_env_run : executor.

Lemma frames_spawn_all (g : Graph Node) config rc s step r ev started d env tasks :
  forall i ts, frames (spawn_all node_effect g config rc s step r ev started d env tasks i ts : M St _).
Proof. induction tasks; simpl; frames. Qed.

Lemma frames_barrier config rc step invs acts :
  forall left ts joined c, frames (barrier config rc step invs acts left ts joined c : M St _).
Proof.
  assert (Hj : forall f c, frames (join_one config step invs f c : M St _))
    by (unfold join_one; frames).
  induction acts as [|a acts IH]; intros [|left] ts joined c; simpl; try done. destruct a; frames.
Qed.

Lemma frames_outputs invs completed :
  forall last, frames (journal_outputs invs completed last : M St _).
Proof. induction completed as [|[[[? ?] ?] ?] ? IH]; simpl; frames. Qed.

Lemma frames_turn_end (g : Graph Node) step ev next : frames (turn_end g step ev next : M St _).
Proof. unfold turn_end. frames. Qed.
End Frame.

#[export] Hint Resolve frames_ret frames_lift frames_fail frames_gets frames_record frames_clock
  frames_emit frames_set_inbox frames_settle frames_env_act frames_env_run frames_spawn_all
  frames_barrier frames_outputs frames_turn_end : executor.

(** ** The transaction *)
Section Transaction.
Context `{Codec} {St : Type} `{!Checkpointer St}.
Context {Node : Type} (node_effect : Node -> Effect) (uniq : Sharing) (uuid : nat -> string).

(** The store after the checkpoint [c] was put. *)
Definition committed (c : Checkpoint) (o o' : option St) : Prop :=
  match o with
  | None => o' = None
  | Some st => exists st', put c st = (Ok (), st') /\ o' = Some st'
  end.

(** A failing put. *)
Definition refused (e : RustyError) (o o' : option St) : Prop :=
  exists c st st', o = Some st /\ put c st = (Err e, st') /\ o' = Some st'.

(** The checkpoint a step's transition commits. *)
Definition checkpoint_of (thread : string) (active : list ActiveTask) (step : nat)
    (s : State) (t : StepTransition) (c : Checkpoint) : Prop :=
  c_thread_id c = thread /\ c_step c = step /\ c_state c = s
  /\ match t with
     | Next next _ extension =>
         next <> [] /\ c_next_nodes c = map task_name next
     | Finish (Done s') => s' = s /\ c_next_nodes c = []
     | Finish (Interrupted _ s' id) =>
         s' = s /\ c_next_nodes c = map task_name active /\ id = c_id c
     end.

(** What a computation leaves of the store, by its result: [P] relates a
    returned value to the checkpoint it committed. *)
Definition transacts {A : Type} (P : A -> Checkpoint -> Prop) (m : M St A) : Prop :=
  forall w,
    match m w with
    | (Ret a, w') => exists c, P a c /\ committed c (w_store w) (w_store w')
    | (Fail e, w') => w_store w' = w_store w \/ refused e (w_store w) (w_store w')
    | (Wait, w') => w_store w' = w_store w
    end.

Lemma transacts_bind {A B : Type} (P : B -> Checkpoint -> Prop) (m : M St A) (f : A -> M St B) :
  frames m -> (forall a, transacts P (f a)) -> transacts P (m ≫= f).
Proof.
  intros Hm Hf w. rewrite bind_world. specialize (Hm w).
  destruct (m w) as [[a|e|] w1]; simpl in Hm; rewrite <- Hm; [apply Hf|by left|done].
Qed.

Lemma transacts_map {A B : Type} (Q : A -> Checkpoint -> Prop) (P : B -> Checkpoint -> Prop)
    (m : M St A) (k : A -> M St B) (f : A -> B) :
  (forall a w, k a w = (Ret (f a), w)) ->
  transacts Q m -> (forall a c, Q a c -> P (f a) c) -> transacts P (m ≫= k).
Proof.
  intros Hk Hm Hf w. rewrite bind_world. specialize (Hm w).
  destruct (m w) as [[a|e|] w1]; [|done..]. rewrite Hk. destruct Hm as (c & ? & ?).
  exists c. auto.
Qed.

Definition not_interrupted (t : StepTransition) : Prop :=
  match t with Finish (Interrupted _ _ _) => False | _ => True end.

(** A mint, its put, and a tail that leaves the store alone and returns. *)
Lemma transacts_write {A : Type} (P : A -> Checkpoint -> Prop) rc thread step s next ibx
    (k : Checkpoint -> M St A) :
  (forall c, c_thread_id c = thread -> c_step c = step -> c_state c = s ->
     c_next_nodes c = next ->
     forall w, match k c w with
               | (Ret a, w') => P a c /\ committed c (w_store w) (w_store w')
               | (Fail e, w') => refused e (w_store w) (w_store w')
               | (Wait, w') => False
               end) ->
  transacts P (mint_checkpoint uuid rc thread step s next ibx ≫= k).
Proof.
  intros Hk w. rewrite bind_world.
  destruct (mint_spec uuid rc thread step s next ibx w)
    as (c & w1 & -> & _ & Hs & _ & Hst & Hc1 & Hc2 & Hc3 & _).
  specialize (Hk c (stamp_thread _ _ _ _ Hst) Hc1 Hc2 Hc3 w1). rewrite Hs in Hk.
  destruct (k c w1) as [[a|e|] w2]; [eauto|by right|done].
Qed.

(** The store part of a checkpoint write. *)
Lemma put_then (c : Checkpoint) (m : M St unit) (w : World St) :
  frames m -> (forall w, exists w', m w = (Ret (), w')) ->
  match with_store (put_checkpoint c;; m) (mret ()) w with
  | (Ret _, w') => committed c (w_store w) (w_store w')
  | (Fail e, w') => refused e (w_store w) (w_store w')
  | (Wait, _) => False
  end.
Proof.
  intros Hm Hr. unfold with_store. destruct (w_store w) as [st|] eqn:Hst; [|done].
  rewrite bind_world. unfold put_checkpoint. rewrite Hst.
  destruct (put c st) as [[[]|e] st'] eqn:Hp; [|by exists c, st, st'].
  set (w1 := mkWorld _ _ _ _ _ _). specialize (Hm w1). destruct (Hr w1) as [w2 E].
  rewrite E in *. by exists st'.
Qed.

Lemma announce_frames config d e : frames (record_event d;; emit config e : M St unit).
Proof. apply frames_bind; intros; auto with executor. Qed.

Lemma announce_returns config d e (w : World St) :
  exists w', (record_event d;; emit config e : M St unit) w = (Ret (), w').
Proof.
  rewrite bind_world. unfold record_event, emit.
  destruct (record _ _ _) as [[id cs] j]. eauto.
Qed.

Lemma suspend_transacts rc config s active step d invs i name v :
  transacts (fun t c => checkpoint_of (cf_thread_id config) active step s t c)
    (suspend_step uuid config rc s active step d invs i name v : M St _).
Proof.
  unfold suspend_step. apply transacts_bind; [auto with executor|]. intros ev.
  apply transacts_bind; [auto with executor|]. intros stamp.
  apply transacts_write. intros c Ht Hs Hst Hn w. rewrite bind_world.
  match goal with |- context [with_store (put_checkpoint c ≫= fun _ => ?m) _ w] =>
    pose proof (put_then c m w (announce_frames _ _ _) (announce_returns _ _ _)) as Hp end.
  destruct (with_store _ _ w) as [[[]|e|] w1]; [|exact Hp|exact Hp].
  split; [|exact Hp]. by repeat split.
Qed.

(** The boundary checkpoint of a completed step and its transition. *)
Lemma boundary_transacts {A : Type} rc config step s next (stamp : World St -> option InboxSnapshot)
    (d : Checkpoint -> EventDraft) (P : A -> Checkpoint -> Prop) (a : A) :
  (forall c, c_thread_id c = cf_thread_id config -> c_step c = step -> c_state c = s ->
     c_next_nodes c = map task_name next -> P a c) ->
  transacts P
    (with_store
       (stamp ← gets stamp;
        checkpoint ← mint_checkpoint uuid rc (cf_thread_id config) step s (map task_name next) stamp;
        put_checkpoint checkpoint;;
        record_event (d checkpoint);;
        emit config (CheckpointSaved (c_id checkpoint) step))
       (mret ());; mret a).
Proof.
  intros HP w. rewrite bind_world. unfold with_store.
  destruct (mint_spec uuid rc (cf_thread_id config) step s (map task_name next) (stamp w) w)
    as (c & w1 & Hm & _ & Hs & _ & Hst & Hc1 & Hc2 & Hc3 & _).
  assert (HPc : P a c) by (apply HP; [apply Hst|done..]).
  destruct (w_store w) as [st|] eqn:Hw; [|by exists c].
  rewrite bind_world. unfold gets at 1. rewrite bind_world, Hm.
  match goal with |- context [(put_checkpoint c ≫= fun _ => ?m) w1] =>
    pose proof (put_then c m w1 (announce_frames _ _ _) (announce_returns _ _ _)) as Hp end.
  unfold with_store in Hp. rewrite Hs in Hp.
  destruct ((put_checkpoint c ≫= _) w1) as [[[]|e|] w2]; [by exists c|by right|done].
Qed.

Lemma complete_transacts (g : Graph Node) spec rc config active s step env ev invs c :
  transacts (fun r cp => checkpoint_of (cf_thread_id config) active step r.1 r.2 cp
                         /\ not_interrupted r.2)
    (complete_step uniq uuid g spec config rc s step env ev invs c : M St _).
Proof.
  unfold complete_step. apply transacts_bind; [auto with executor|]. intros last.
  apply transacts_bind; [auto with executor|]. intros s'.
  apply transacts_bind; [auto with executor|]. intros ev2.
  apply transacts_bind; [case_match; auto with executor|]. intros _.
  apply transacts_bind; [auto with executor|]. intros routed.
  apply transacts_bind; [auto with executor|]. intros _.
  apply transacts_bind; [auto with executor|]. intros [[next extension] route_parent].
  apply transacts_bind; [auto with executor|]. intros ev3.
  destruct next as [|t next]; apply boundary_transacts; intros cp Ht Hst Hs Hn; by repeat split.
Qed.

(** C3: a super-step is a transaction on the checkpoint store. A step that
    completes or suspends has committed exactly one checkpoint, of this thread
    and step; it holds the merged state and the tasks routed to, or, when a
    node interrupted, the state before the step and the whole active set. A
    step that fails has left the store as it was, or failed in the put
    itself; a step that waits has left it as it was. *)
Theorem super_step_transaction (g : Graph Node) (spec : StateSpec) (config : RunConfig)
    (rc : Recorder) (s : State) (active : list ActiveTask) (step : nat) (resume : option Value)
    (parent : option string) (delivery : list InboxMessage) (started : option DateTime)
    (env : StepEnv) (w : World St) :
  match execute_super_step node_effect uniq uuid g spec config rc s active step resume parent
          delivery started env w with
  | (Ret (s', t, _), w') =>
      (match t with Finish (Interrupted _ _ _) => s' = s | _ => True end)
      /\ exists c, checkpoint_of (cf_thread_id config) active step s' t c
                   /\ committed c (w_store w) (w_store w')
  | (Fail e, w') => w_store w' = w_store w \/ refused e (w_store w) (w_store w')
  | (Wait, w') => w_store w' = w_store w
  end.
Proof.
  pose (P := fun (r : State * StepTransition * list Invocation) c =>
    checkpoint_of (cf_thread_id config) active step r.1.1 r.1.2 c
    /\ match r.1.2 with Finish (Interrupted _ _ _) => r.1.1 = s | _ => True end).
  enough (Ht : transacts P (execute_super_step node_effect uniq uuid g spec config rc s active step
                 resume parent delivery started env)).
  { specialize (Ht w). destruct (execute_super_step _ _ _ _ _ _ _ _ _ _ _ _ _ _ _ w)
      as [[[[s' t] invs]|e|] w']; [|done..]. destruct Ht as (c & [Hc Hs] & Hw). eauto. }
  unfold execute_super_step. apply transacts_bind; [auto with executor|]. intros _.
  apply transacts_bind; [auto with executor|]. intros ev.
  apply transacts_bind; [auto with executor|]. intros [invs ts].
  apply transacts_bind; [auto with executor|]. intros [c|i name v].
  - apply (transacts_map (fun r cp => checkpoint_of (cf_thread_id config) active step r.1 r.2 cp
             /\ not_interrupted r.2) _ _ _ (fun r => (r, invs)));
      [by intros [] ?|apply complete_transacts|].
    intros [s' t] cp [Hc Ht]. split; [done|]. by destruct t as [|[]].
  - apply (transacts_map (fun t cp => checkpoint_of (cf_thread_id config) active step s t cp)
             _ _ _ (fun t => (s, t, invs))); [done|apply suspend_transacts|].
    intros t cp Hc. split; [done|]. by destruct t as [|[]].
Qed.
End Transaction.

(** ** Independence from scheduling *)

Lemma merge_channel_uniq (u1 u2 : Sharing) spec s ch u :
  merge_channel u1 spec s ch u = merge_channel u2 spec s ch u.
Proof. unfold merge_channel. by rewrite !apply_shared_apply. Qed.

Lemma apply_super_step_uniq (u1 u2 : Sharing) spec s ws :
  apply_super_step u1 spec s ws = apply_super_step u2 spec s ws.
Proof.
  unfold apply_super_step. cbv zeta. destruct (check_writes _ _ _ _); [|done]. f_equal.
  generalize (collect_writes ws). intros l. revert s. unfold merge_writes.
  induction l as [|[n us] l IH]; intros s; [done|]. cbn [fold_left].
  enough (E : merge_updates u1 spec s us = merge_updates u2 spec s us)
    by (simpl in *; rewrite E; apply IH).
  clear. unfold merge_updates. revert s. induction us as [|[ch u] us IH]; intros s; [done|].
  cbn [fold_left]. rewrite (merge_channel_uniq u1 u2). apply IH.
Qed.

Section Schedule.
Context `{Codec} {St : Type} `{!Checkpointer St}.
Context {Node : Type} (node_effect : Node -> Effect) (uniq : Sharing) (uuid : nat -> string).

(** Whenever task [i] finishes under [acts], it reports [results i]. *)
Definition reports (results : nat -> TaskResult) (acts : list EnvAction) : Prop :=
  forall i r, EnvFinish i r ∈ acts -> r = results i.

(** The same for a whole step's schedule. *)
Definition step_reports (results : nat -> TaskResult) (env : StepEnv) : Prop :=
  (forall k, reports results (se_compute env k))
  /\ forall invs, reports results (se_barrier env invs).

(** The output a result carries. *)
Definition output_of (r : TaskResult) : NodeOutput :=
  match r with TaskOk o => o | _ => mkOutput [] None end.

(** The writes of a step, in active-set order. *)
Definition step_writes (active : list ActiveTask) (results : nat -> TaskResult) : Writes :=
  imap (fun i t => (task_name t, out_updates (output_of (results i)))) active.

(** Finished tasks are distinct tasks of the step with their reported
    results. *)
Record tasks_ok (results : nat -> TaskResult) (n : nat) (ts : Tasks) : Prop := {
  tk_distinct : NoDup (map fin_index (ts_finished ts));
  tk_results : forall f, f ∈ ts_finished ts ->
    fin_result f = results (fin_index f) /\ fin_index f < n;
  tk_started : forall i, is_Some (ts_started ts !! i) -> i < n;
}.

Lemma no_tasks_ok results n : tasks_ok results n no_tasks.
Proof. split; simpl; [constructor|intros f Hf; inv Hf|intros i [t Ht]; done]. Qed.

Lemma tasks_ok_mono results n n' ts : n <= n' -> tasks_ok results n ts -> tasks_ok results n' ts.
Proof.
  intros Hn [Hd Hr Hs]. split; [done| |].
  - intros f Hf. destruct (Hr f Hf). split; [done|lia].
  - intros i Hi. specialize (Hs i Hi). lia.
Qed.

Lemma env_act_ok results rc n a ts (w w' : World St) ts' :
  (forall i r, a = EnvFinish i r -> r = results i) ->
  env_act rc n a ts w = (Ret ts', w') -> tasks_ok results n ts ->
  tasks_ok results n ts' /\ ts_finished ts `prefix_of` ts_finished ts'.
Proof.
  intros Ha He [Hd Hr Hs].
  assert (Hsame : ts' = ts -> tasks_ok results n ts' /\ ts_finished ts `prefix_of` ts_finished ts')
    by (intros ->; by split).
  destruct a as [k|k r| |d|? ? ? ?|? ?]; simpl in He.
  - destruct (k <? n)%nat eqn:Hk; simpl in He; [|simplify_run; auto].
    destruct (bool_decide _); simpl in He; [simplify_run; auto|]. simplify_run.
    split; [|done]. split; [done|done|]. intros i. simpl.
    destruct (decide (i = k)) as [->|]; [by apply Nat.ltb_lt in Hk|].
    rewrite lookup_insert_ne by done. apply Hs.
  - destruct (ts_started ts !! k) as [t0|] eqn:Hk; [|simplify_run; auto].
    destruct (existsb _ _) eqn:Hf; [simplify_run; auto|]. simplify_run. simpl.
    split; [|by apply prefix_app_r]. split; simpl; [| |done].
    + rewrite map_app. apply NoDup_app. split_and!; [done| |apply NoDup_singleton].
      intros i Hi ->%list_elem_of_singleton.
      apply list_elem_of_fmap in Hi as (f & E & Hi). simpl in E.
      assert (existsb (fun f => Nat.eqb (fin_index f) k) (ts_finished ts) = true); [|congruence].
      apply existsb_exists. exists f. split; [by apply list_elem_of_In|]. by apply Nat.eqb_eq.
    + intros f [Hin| ->%list_elem_of_singleton]%elem_of_app; [by apply Hr|]. simpl.
      split; [by apply Ha|]. apply Hs. eauto.
  - simplify_run; auto.
  - simplify_run; auto.
  - simplify_run. destruct (w_inbox _); simplify_run; auto.
  - simplify_run. destruct (w_inbox _); simplify_run; auto.
Qed.

Lemma env_run_ok results rc n acts : forall ts (w w' : World St) ts',
  reports results acts -> env_run rc n acts ts w = (Ret ts', w') -> tasks_ok results n ts ->
  tasks_ok results n ts'.
Proof.
  induction acts as [|a acts IH]; intros ts w w' ts' Hr He Hok; simpl in He; simplify_run; [done|].
  match goal with H : env_act _ _ _ _ _ = _ |- _ => eapply env_act_ok in H as [Hok' _] end; [|
    intros i r ->; apply Hr; left|done].
  eapply IH; [|done..]. intros i r Hin. apply Hr. by right.
Qed.

(** The spawned invocations are the active tasks, in order. *)
Lemma spawn_all_ok results (g : Graph Node) config rc s step r ev started d env tasks :
  (forall k, reports results (env k)) ->
  forall i ts (w w' : World St) invs ts',
    spawn_all node_effect g config rc s step r ev started d env tasks i ts w
      = (Ret (invs, ts'), w') ->
    tasks_ok results i ts ->
    tasks_ok results (i + length tasks) ts' /\ map inv_node invs = map task_name tasks.
Proof.
  intros Hr. induction tasks as [|task tasks IH]; intros i ts w w' invs ts' Hs Hok; simpl in Hs.
  - simplify_run. simpl. by rewrite Nat.add_0_r.
  - simplify_run.
    repeat match goal with H : list Invocation * Tasks |- _ => destruct H end. simplify_run.
    match goal with H : env_run _ _ _ _ _ = _ |- _ => eapply env_run_ok in H; [|apply Hr|done] end.
    match goal with H : spawn_all _ _ _ _ _ _ _ _ _ _ _ _ _ _ _ = _ |- _ =>
      apply IH in H as [Hok' Hn]; [|eapply tasks_ok_mono; [|done]; lia] end.
    simpl. split; [|by rewrite Hn]. eapply tasks_ok_mono; [|exact Hok']. lia.
Qed.

(** What the barrier accumulated from the joined tasks [fs]. *)
Record collected_ok (results : nat -> TaskResult) (invs : list Invocation) (fs : list Finished)
    (c : Collected) : Prop := {
  cl_ok : forall f, f ∈ fs -> exists o, results (fin_index f) = TaskOk o;
  cl_writes : co_writes c
    = map (fun f => (fin_index f, inv_node (invocation invs (fin_index f)),
                     out_updates (output_of (results (fin_index f))))) fs;
  cl_ran : co_ran_nodes c = map (fun f => inv_node (invocation invs (fin_index f))) fs;
}.

Lemma collect_ok results invs fs f o c :
  fin_result f = TaskOk o -> results (fin_index f) = TaskOk o ->
  collected_ok results invs fs c ->
  collected_ok results invs (fs ++ [f]) (collect f (inv_node (invocation invs (fin_index f))) o c).
Proof.
  intros Hf Hr [Hok Hw Hn]. split; simpl.
  - intros f' [Hin| ->%list_elem_of_singleton]%elem_of_app; eauto.
  - rewrite map_app, Hw. simpl. by rewrite Hr.
  - by rewrite map_app, Hn.
Qed.

Lemma barrier_collects results config rc step invs acts :
  reports results acts ->
  forall left ts joined c (w w' : World St) c',
    barrier config rc step invs acts left ts joined c w = (Ret (AllCollected c'), w') ->
    joined + left = length invs -> joined <= length (ts_finished ts) ->
    tasks_ok results (length invs) ts -> collected_ok results invs (take joined (ts_finished ts)) c ->
    exists fs, length fs = length invs /\ NoDup (map fin_index fs)
      /\ (forall f, f ∈ fs -> fin_index f < length invs) /\ collected_ok results invs fs c'.
Proof.
  intros Hr. induction acts as [|a acts IH]; intros [|left] ts joined c w w' c' Hb Hn Hle Hok Hc;
    cbn [barrier] in Hb; try done.
  1, 2: simplify_run; exists (take joined (ts_finished ts)); split_and!;
    [rewrite length_take; lia|rewrite <- firstn_map; eapply sublist_NoDup, sublist_take; apply Hok|
     intros f Hf; eapply (tk_results _ _ _ Hok), elem_of_sublist, sublist_take; exact Hf|done].
  assert (Hr' : reports results acts) by (intros i r Hin; apply Hr; by right).
  destruct (decide (a = EnvJoin)) as [->|Ha].
  - destruct (ts_finished ts !! joined) as [f|] eqn:Hf; [|by eapply IH].
    apply bind_Ret in Hb as (b & w1 & Hj & Hb). destruct b as [c1|]; [|done].
    destruct (tk_results _ _ _ Hok f) as [Hfr _]; [by eapply list_elem_of_lookup_2|].
    pose proof (lookup_lt_Some _ _ _ Hf). unfold join_one in Hj.
    destruct (fin_result f) as [o|e|e] eqn:Ho; [|by destruct e; simplify_run|done]. simplify_run.
    eapply (IH Hr'); [exact Hb|lia|lia|done|].
    rewrite (take_S_r _ _ f) by done. by apply collect_ok.
  - assert (Hb' : (ts' ← env_act rc (length invs) a ts;
                   barrier config rc step invs acts (S left) ts' joined c) w
                  = (Ret (AllCollected c'), w')) by (by destruct a).
    apply bind_Ret in Hb' as (ts' & w1 & He & Hb').
    eapply env_act_ok in He as [Hok' Hp]; [|intros i r ->; apply Hr; left|done].
    destruct Hp as [more Hp]. eapply (IH Hr'); [exact Hb'|lia|rewrite Hp, length_app; lia|done|].
    by rewrite Hp, take_app_le.
Qed.

Lemma distinct_seq (l : list nat) (n : nat) :
  length l = n -> NoDup l -> (forall i, i ∈ l -> i < n) -> l ≡ₚ seq 0 n.
Proof.
  intros Hlen Hnd Hlt. apply submseteq_length_Permutation; [|by rewrite length_seq, Hlen].
  apply NoDup_submseteq; [done|]. intros i Hi. apply elem_of_seq. specialize (Hlt i Hi). lia.
Qed.

Lemma write_leb_total x y : write_leb x y = true \/ write_leb y x = true.
Proof. unfold write_leb. rewrite !Nat.leb_le. lia. Qed.

Lemma write_leb_trans x y z :
  write_leb x y = true -> write_leb y z = true -> write_leb x z = true.
Proof. unfold write_leb. rewrite !Nat.leb_le. lia. Qed.

Lemma seq_sorted (h : nat -> nat * string * Updates) (k n : nat) :
  (forall i, (h i).1.1 = i) -> LebSorted write_leb (map h (seq k n)).
Proof.
  intros Hh. unfold LebSorted. revert k. induction n as [|n IH]; intros k; simpl; [constructor|].
  constructor; [apply IH|]. apply Forall_map, Forall_forall. intros i Hi%elem_of_seq.
  unfold write_leb. apply Nat.leb_le. rewrite !Hh. lia.
Qed.

(** The merge order of the collected writes is the active-set order. *)
Lemma merged_in_order results invs active fs c :
  map inv_node invs = map task_name active ->
  length fs = length invs -> NoDup (map fin_index fs) ->
  (forall f, f ∈ fs -> fin_index f < length invs) -> collected_ok results invs fs c ->
  map (fun w => (w.1.2, w.2)) (sort_by write_leb (co_writes c)) = step_writes active results.
Proof.
  intros Hnames Hlen Hnd Hlt [_ Hw _].
  set (h := fun i => (i, inv_node (invocation invs i), out_updates (output_of (results i)))).
  assert (Hp : co_writes c ≡ₚ map h (seq 0 (length invs))).
  { rewrite Hw, <- (map_map fin_index h). apply Permutation_map, distinct_seq;
      [by rewrite length_map|done|]. intros i (f & -> & Hf)%list_elem_of_fmap. by apply Hlt. }
  rewrite (sort_by_unique write_leb write_leb_total write_leb_trans _ _ Hp), sort_by_id.
  - apply list_eq. intros i. unfold step_writes. rewrite list_lookup_imap, !list_lookup_fmap.
    assert (Hi : inv_node <$> invs !! i = task_name <$> active !! i)
      by (rewrite <- !list_lookup_fmap; by f_equal).
    destruct (invs !! i) as [inv|] eqn:Ei.
    + rewrite lookup_seq_lt by (by eapply lookup_lt_Some). simpl in Hi |- *.
      destruct (active !! i) as [t|] eqn:Ea; [|done]. simpl in Hi |- *. simplify_eq.
      unfold invocation. rewrite Ei. simpl. congruence.
    + rewrite lookup_seq_ge by (by apply lookup_ge_None). by destruct (active !! i).
  - by apply seq_sorted.
  - intros x y Hx Hy. rewrite Hp in Hx, Hy.
    apply list_elem_of_fmap in Hx as (i & -> & _). apply list_elem_of_fmap in Hy as (k & -> & _).
    unfold write_leb. simpl. rewrite !Nat.leb_le. intros. by replace k with i by lia.
Qed.

(** The state a completed step leaves is the merge of the reported updates in
    active-set order. *)
Lemma super_step_merges results (g : Graph Node) spec config rc s active step resume parent
    delivery started env (w w' : World St) s' t invs :
  step_reports results env ->
  execute_super_step node_effect uniq uuid g spec config rc s active step resume parent delivery
    started env w = (Ret (s', t, invs), w') ->
  not_interrupted t ->
  apply_super_step uniq spec s (step_writes active results) = (s', Ok ()).
Proof.
  intros [Hrc Hrb] He Ht. unfold execute_super_step in He.
  apply bind_Ret in He as (_ & w1 & _ & He). apply bind_Ret in He as (ev & w2 & _ & He).
  apply bind_Ret in He as ([invs1 ts] & w3 & Hsp & He).
  eapply spawn_all_ok in Hsp as [Hok Hnames]; [|done|apply no_tasks_ok]. simpl in Hok.
  assert (Hlen : length invs1 = length active)
    by (rewrite <- (length_map inv_node), Hnames; apply length_map).
  apply bind_Ret in He as (b & w4 & Hb & He). destruct b as [c|i name v].
  - eapply barrier_collects in Hb as (fs & Hfl & Hnd & Hlt & Hc);
      [|done|lia|lia|by rewrite Hlen|rewrite take_0; split; [intros f Hf; inv Hf|done..]].
    apply bind_Ret in He as ([s1 t1] & w5 & Hc1 & He). simplify_run.
    unfold complete_step in Hc1. apply bind_Ret in Hc1 as (last & w6 & _ & Hc1).
    rewrite (merged_in_order results invs active fs c) in Hc1 by done.
    apply bind_Ret in Hc1 as (s2 & w7 & Hm & Hc1). unfold lift in Hm.
    destruct (apply_super_step uniq spec s (step_writes active results)) as [m [[]|e]] eqn:E;
      [|done]. simplify_run.
    enough (s2 = s') as -> by done.
    repeat match goal with
      | H : list ActiveTask * list InboxMessage * string |- _ => destruct H as [[? ?] ?] end.
    simplify_run. by repeat (case_match; simplify_run).
  - apply bind_Ret in He as (t1 & w5 & Hs & He). simplify_run.
    unfold suspend_step in Hs. by simplify_run.
Qed.
End Schedule.

Section ScheduleFree.
Context `{Codec} {St : Type} `{!Checkpointer St}.
Context {Node : Type} (node_effect : Node -> Effect) (uuid : nat -> string).

(** C4: the state a super-step merges does not depend on scheduling. Two
    executions of a step from the same state and active set, in which each
    task reports the same result, leave the same state whatever the order in
    which tasks start, finish and are joined, whatever else is recorded or
    sent meanwhile, and whichever channel values are shared: the updates are
    merged in the order of the active set. *)
Theorem super_step_schedule_free (uniq uniq2 : Sharing) (results : nat -> TaskResult)
    (g : Graph Node) (spec : StateSpec) (config1 config2 : RunConfig) (rc1 rc2 : Recorder)
    (s : State) (active : list ActiveTask) (step : nat) (resume : option Value)
    (parent1 parent2 : option string) (delivery : list InboxMessage)
    (started : option DateTime) (env1 env2 : StepEnv) (w1 w1' w2 w2' : World St)
    (s1 s2 : State) (t1 t2 : StepTransition) (invs1 invs2 : list Invocation) :
  step_reports results env1 -> step_reports results env2 ->
  execute_super_step node_effect uniq uuid g spec config1 rc1 s active step resume parent1 delivery
    started env1 w1 = (Ret (s1, t1, invs1), w1') ->
  execute_super_step node_effect uniq2 uuid g spec config2 rc2 s active step resume parent2 delivery
    started env2 w2 = (Ret (s2, t2, invs2), w2') ->
  not_interrupted t1 -> not_interrupted t2 ->
  s1 = s2 /\ s1 = (apply_super_step uniq spec s (step_writes active results)).1.
Proof.
  intros Hr1 Hr2 He1 He2 Ht1 Ht2.
  apply (super_step_merges _ _ _ results) in He1; [|done..].
  apply (super_step_merges _ _ _ results) in He2; [|done..].
  rewrite (apply_super_step_uniq uniq2 uniq) in He2. rewrite He1 in *. by simplify_eq.
Qed.
End ScheduleFree.
