(* ===== verification/Routing.v ===== *)
(** * Theorems about routing

    What the nodes of a step route to, as a function of the merged state and
    the set of nodes that ran: which routings succeed, which tasks they plan,
    and how far the order in which nodes finished can be seen. *)

From Stdlib Require Import String.
From S2P Require Import Prelude Containers Json Error State Graph Executor.

Section Routing.
Context {Node : Type} (g : Graph Node) (s : State).

Definition plain (name : string) : ActiveTask := mkTask name None.

(** What one edge contributes, and whether it routes at all. *)
Definition edge_targets (e : Edge) : list string :=
  match e with
  | Direct _ to => [to]
  | Conditional _ router => match router s with Ok (RNode t) => [t] | _ => [] end
  end.
Definition edge_sends (e : Edge) : list ActiveTask :=
  match e with
  | Direct _ _ => []
  | Conditional _ router =>
      match router s with
      | Ok (RSend l) => map (fun x => mkTask (send_node x) (Some (send_state x))) l
      | _ => []
      end
  end.
Definition edge_routes (e : Edge) : bool :=
  match e with
  | Direct _ _ => true
  | Conditional _ router =>
      match router s with
      | Ok (RNode t) => has_node g t
      | Ok (RSend l) => forallb (fun x => has_node g (send_node x)) l
      | Ok REnd => true
      | Err _ => false
      end
  end.

(** A plan: the planned names, once each, and the tasks they and the sends
    activate. *)
Definition planned (targets : list string) (sends : list ActiveTask)
    (p : list string * list ActiveTask) : Prop :=
  NoDup p.1 /\ (forall t, t ∈ p.1 <-> t ∈ targets) /\ p.2 ≡ₚ map plain p.1 ++ sends.

Lemma planned_nil : planned [] [] ([], []).
Proof. split_and!; [constructor|done|done]. Qed.

Lemma planned_add target targets sends p :
  planned targets sends p -> planned (targets ++ [target]) sends (add_planned target p).
Proof.
  intros (Hnd & Hel & Hp). unfold add_planned. destruct (decide (target ∈ p.1)) as [Hin|Hni].
  - split_and!; [done| |done]. intros t. rewrite elem_of_app, list_elem_of_singleton, Hel.
    split; [auto|]. intros [?| ->]; [done|by apply Hel].
  - split_and!; simpl; [by constructor| |].
    + intros t. rewrite elem_of_cons, elem_of_app, list_elem_of_singleton, Hel. tauto.
    + rewrite Hp. by rewrite <- app_assoc, (Permutation_app_comm sends), app_assoc,
        <- Permutation_cons_append.
Qed.

Lemma planned_same t1 t2 s1 s2 p1 p2 :
  (forall t, t ∈ t1 <-> t ∈ t2) -> s1 ≡ₚ s2 -> planned t1 s1 p1 -> planned t2 s2 p2 ->
  p1.2 ≡ₚ p2.2.
Proof.
  intros Ht Hs (Hn1 & He1 & Hp1) (Hn2 & He2 & Hp2). rewrite Hp1, Hp2, Hs.
  apply Permutation_app_tail, Permutation_map, NoDup_Permutation; [done..|].
  intros t. by rewrite He1, He2.
Qed.

Lemma route_sends_spec name sends next :
  match route_sends g name sends next with
  | Ok next' => forallb (fun x => has_node g (send_node x)) sends = true
      /\ next' = next ++ map (fun x => mkTask (send_node x) (Some (send_state x))) sends
  | Err _ => forallb (fun x => has_node g (send_node x)) sends = false
  end.
Proof.
  revert next. induction sends as [|x sends IH]; intros next; simpl; [by rewrite app_nil_r|].
  destruct (has_node g (send_node x)); [|done]. specialize (IH (next ++ [mkTask (send_node x) (Some (send_state x))])).
  simpl. destruct (route_sends _ _ _ _); [|done]. destruct IH as [-> ->].
  by rewrite <- app_assoc.
Qed.

Lemma route_edge_spec name e targets sends p :
  planned targets sends p ->
  match route_edge g s name e p with
  | Ok p' => edge_routes e = true
      /\ planned (targets ++ edge_targets e) (sends ++ edge_sends e) p'
  | Err _ => edge_routes e = false
  end.
Proof.
  intros Hp. destruct e as [f to|f router]; simpl.
  - rewrite app_nil_r. split; [done|]. by apply planned_add.
  - destruct (router s) as [[t|l|]|err]; simpl.
    + destruct (has_node g t); simpl; [|done]. rewrite app_nil_r. split; [done|].
      by apply planned_add.
    + pose proof (route_sends_spec name l p.2) as Hs.
      destruct (route_sends g name l p.2); simpl; [|done]. destruct Hs as [-> ->].
      split; [done|]. rewrite app_nil_r. destruct Hp as (? & ? & Hp). split_and!; [done..|].
      simpl. by rewrite Hp, app_assoc.
    + by rewrite !app_nil_r.
    + done.
Qed.

Lemma route_edges_spec name es : forall targets sends p,
  planned targets sends p ->
  match route_edges g s name es p with
  | Ok p' => forallb edge_routes es = true
      /\ planned (targets ++ concat (map edge_targets es)) (sends ++ concat (map edge_sends es)) p'
  | Err _ => forallb edge_routes es = false
  end.
Proof.
  induction es as [|e es IH]; intros targets sends p Hp; simpl; [by rewrite !app_nil_r|].
  pose proof (route_edge_spec name e targets sends p Hp) as He.
  destruct (route_edge g s name e p) as [p1|]; simpl; [|by rewrite He].
  destruct He as [-> Hp1]. specialize (IH _ _ _ Hp1). simpl.
  destruct (route_edges g s name es p1); [|done]. by rewrite <- !app_assoc in IH.
Qed.

(** The nodes whose edges are evaluated: each node that ran, once. *)
Fixpoint distinct (ran evaluated : list string) : list string :=
  match ran with
  | [] => []
  | name :: rest =>
      if decide (name ∈ evaluated) then distinct rest evaluated
      else name :: distinct rest (name :: evaluated)
  end.

Lemma distinct_spec ran : forall evaluated,
  NoDup (distinct ran evaluated)
  /\ forall n, n ∈ distinct ran evaluated <-> n ∈ ran /\ n ∉ evaluated.
Proof.
  induction ran as [|name ran IH]; intros evaluated; simpl.
  { split; [constructor|]. intros n. rewrite elem_of_nil. tauto. }
  destruct (decide (name ∈ evaluated)) as [Hin|Hni].
  - destruct (IH evaluated) as [Hnd He]. split; [done|]. intros n. rewrite He, elem_of_cons.
    naive_solver.
  - destruct (IH (name :: evaluated)) as [Hnd He]. split.
    + constructor; [|done]. rewrite He, elem_of_cons. tauto.
    + intros n. rewrite !elem_of_cons, He, elem_of_cons. destruct (decide (n = name)); naive_solver.
Qed.

Lemma distinct_perm ran1 ran2 : ran1 ≡ₚ ran2 -> distinct ran1 [] ≡ₚ distinct ran2 [].
Proof.
  intros Hp. destruct (distinct_spec ran1 []) as [? H1], (distinct_spec ran2 []) as [? H2].
  apply NoDup_Permutation; [done..|]. intros n. by rewrite H1, H2, Hp.
Qed.

Definition all_edges (names : list string) : list Edge := concat (map (outgoing_edges g) names).

Lemma route_ran_spec ran : forall evaluated targets sends p,
  planned targets sends p ->
  let es := all_edges (distinct ran evaluated) in
  match route_ran g s ran evaluated p with
  | Ok p' => forallb edge_routes es = true
      /\ planned (targets ++ concat (map edge_targets es)) (sends ++ concat (map edge_sends es)) p'
  | Err _ => forallb edge_routes es = false
  end.
Proof.
  induction ran as [|name ran IH]; intros evaluated targets sends p Hp; simpl;
    [by rewrite !app_nil_r|].
  destruct (decide (name ∈ evaluated)); [by apply IH|].
  pose proof (route_edges_spec name (outgoing_edges g name) _ _ _ Hp) as He.
  unfold all_edges in *. simpl. rewrite forallb_app, !map_app, !concat_app.
  destruct (route_edges g s name _ p) as [p1|]; simpl; [|by rewrite He].
  destruct He as [-> Hp1]. specialize (IH (name :: evaluated) _ _ _ Hp1). simpl in IH |- *.
  destruct (route_ran g s ran (name :: evaluated) p1); [|done]. by rewrite <- !app_assoc in IH.
Qed.

Lemma route_targets_spec gotos : forall targets p,
  planned targets [] p ->
  match route_targets g gotos p with
  | Ok p' => forallb (has_node g) gotos = true /\ planned (targets ++ gotos) [] p'
  | Err _ => forallb (has_node g) gotos = false
  end.
Proof.
  induction gotos as [|t gotos IH]; intros targets p Hp; simpl; [by rewrite app_nil_r|].
  destruct (has_node g t); [|done]. specialize (IH _ _ (planned_add t _ _ _ Hp)). simpl.
  destruct (route_targets g gotos _); [|done]. by rewrite <- app_assoc in IH.
Qed.

(** The whole of routing: which plans it produces, or that it fails. *)
Lemma route_spec commands ran :
  let gotos := concat (map cmd_goto commands) in
  let es := all_edges (distinct ran []) in
  match route g s commands ran with
  | Ok next => exists p, p.2 = next
      /\ match commands with
         | [] => forallb edge_routes es = true
                 /\ planned (concat (map edge_targets es)) (concat (map edge_sends es)) p
         | _ => forallb (has_node g) gotos = true /\ planned gotos [] p
         end
  | Err _ => match commands with
             | [] => forallb edge_routes es = false
             | _ => forallb (has_node g) gotos = false
             end
  end.
Proof.
  cbv zeta. unfold route. destruct commands as [|c cs].
  - pose proof (route_ran_spec ran [] [] [] ([], []) planned_nil) as Hr. simpl in Hr |- *.
    destruct (route_ran g s ran [] ([], [])); simpl; eauto.
  - pose proof (route_targets_spec (concat (map cmd_goto (c :: cs))) [] ([], []) planned_nil) as Hr.
    simpl in Hr |- *. destruct (route_targets _ _ _); simpl; eauto.
Qed.

Lemma forallb_perm {A : Type} (f : A -> bool) (l k : list A) :
  l ≡ₚ k -> forallb f l = forallb f k.
Proof.
  intros Hp. apply eq_true_iff_eq. rewrite !forallb_forall.
  split; intros Hf x Hx; apply Hf; [by rewrite Hp|by rewrite <- Hp].
Qed.

Lemma concat_map_perm {A B : Type} (f : A -> list B) (l k : list A) :
  l ≡ₚ k -> concat (map f l) ≡ₚ concat (map f k).
Proof. intros Hp. by rewrite <- !flat_map_concat_map, Hp. Qed.

(** Every planned task names a node, when direct edges do. *)
Lemma route_known commands ran next :
  (forall name, Forall (fun e => match e with Direct _ to => has_node g to = true | _ => True end)
                  (outgoing_edges g name)) ->
  route g s commands ran = Ok next ->
  Forall (fun t => has_node g (task_name t) = true) next.
Proof.
  intros Hd Hr. pose proof (route_spec commands ran) as Hs. rewrite Hr in Hs. cbv zeta in Hs.
  destruct Hs as (p & <- & Hs).
  enough (Hk : exists targets sends, planned targets sends p
            /\ Forall (fun t => has_node g t = true) targets
            /\ Forall (fun t => has_node g (task_name t) = true) sends).
  { destruct Hk as (targets & sends & (_ & Hel & ->) & Ht & Hse).
    apply Forall_app. split; [|done]. apply Forall_map, Forall_forall. intros t Hin. simpl.
    rewrite Forall_forall in Ht. by apply Ht, Hel. }
  destruct commands as [|c cs]; destruct Hs as [Hf Hp]; eexists _, _; (split; [exact Hp|]).
  - rewrite forallb_forall in Hf. rewrite !Forall_concat, !Forall_map, <- Forall_and.
    unfold all_edges in *. apply Forall_forall. intros e He.
    assert (Hroute : edge_routes e = true) by (apply Hf; by apply list_elem_of_In).
    apply list_elem_of_In, in_concat in He as (l & Hl & He).
    apply in_map_iff in Hl as (name & <- & _). specialize (Hd name).
    rewrite Forall_forall in Hd. apply list_elem_of_In, Hd in He.
    destruct e as [f to|f router]; simpl in *; [by repeat constructor|].
    destruct (router s) as [[t|l|]|]; simpl in *; try done; [by repeat constructor|].
    split; [constructor|]. apply Forall_map, Forall_forall. intros x Hx. simpl.
    rewrite forallb_forall in Hroute. by apply Hroute, list_elem_of_In.
  - split; [|constructor]. apply Forall_forall. intros t Ht.
    rewrite forallb_forall in Hf. by apply Hf, list_elem_of_In.
Qed.
End Routing.

(** Routing in a compiled graph. The order in which the nodes of a step
    finished decides neither whether routing succeeds nor which tasks it plans:
    two orders of the same commands and the same nodes plan the same tasks, up
    to their order; and every planned task names a node of the graph, so the
    next step can spawn it. *)
Theorem routing_sound {Node : Type} (b : GraphBuilder Node) (g : Graph Node) (s : State)
    (commands1 commands2 : list Command) (ran1 ran2 : list string) :
  compile b = Ok g -> commands1 ≡ₚ commands2 -> ran1 ≡ₚ ran2 ->
  match route g s commands1 ran1, route g s commands2 ran2 with
  | Ok next1, Ok next2 =>
      next1 ≡ₚ next2 /\ Forall (fun t => has_node g (task_name t) = true) next1
  | Err _, Err _ => True
  | _, _ => False
  end.
Proof.
  intros Hg Hc Hran.
  assert (Hd : forall name, Forall (fun e => match e with Direct _ to => has_node g to = true | _ => True end)
                              (outgoing_edges g name)).
  { intros name. destruct (outgoing_kinds b g name Hg) as [(ts & -> & _ & Hk)|(router & ->)];
      [by apply Forall_map|by repeat constructor]. }
  assert (Hes : all_edges g (distinct ran1 []) ≡ₚ all_edges g (distinct ran2 []))
    by (apply concat_map_perm, distinct_perm, Hran).
  pose proof (route_spec g s commands1 ran1) as H1. pose proof (route_spec g s commands2 ran2) as H2.
  pose proof (route_known g s commands1 ran1) as Hk. cbv zeta in H1, H2.
  destruct commands1 as [|c1 l1], commands2 as [|c2 l2];
    [|by apply Permutation_nil_l in Hc|by apply Permutation_nil_r in Hc|].
  - rewrite (forallb_perm _ _ _ Hes) in H1.
    destruct (route g s [] ran1) as [n1|], (route g s [] ran2) as [n2|];
      [|destruct H1 as (? & _ & ? & _); congruence|destruct H2 as (? & _ & ? & _); congruence|done].
    destruct H1 as (p1 & <- & _ & Hp1), H2 as (p2 & <- & _ & Hp2). split; [|by apply Hk].
    eapply planned_same; [..|exact Hp1|exact Hp2]; [|by apply concat_map_perm].
    intros t. by rewrite (concat_map_perm (edge_targets s) _ _ Hes).
  - apply (concat_map_perm cmd_goto) in Hc. rewrite (forallb_perm _ _ _ Hc) in H1.
    destruct (route g s (c1 :: l1) ran1) as [n1|], (route g s (c2 :: l2) ran2) as [n2|];
      [|destruct H1 as (? & _ & ? & _); congruence|destruct H2 as (? & _ & ? & _); congruence|done].
    destruct H1 as (p1 & <- & _ & Hp1), H2 as (p2 & <- & _ & Hp2). split; [|by apply Hk].
    eapply planned_same; [..|exact Hp1|exact Hp2]; [|done]. intros t. by rewrite Hc.
Qed.

(** A two-way fork: [a] routes to [c], [b] to [d]. *)
Module RoutingExamples.
Definition fork_builder : GraphBuilder unit :=
  set_entry_point
    (add_edge (add_edge
       (add_node (add_node (add_node (add_node builder_new "a" tt) "b" tt) "c" tt) "d" tt)
       "a" "c") "b" "d") "a".

Definition fork_graph : Graph unit := mkGraph (b_nodes fork_builder) (b_edges fork_builder) "a".

Lemma routing_sound_witness :
  match route fork_graph state_new [] ["a"; "b"], route fork_graph state_new [] ["b"; "a"] with
  | Ok next1, Ok next2 =>
      next1 ≡ₚ next2 /\ Forall (fun t => has_node fork_graph (task_name t) = true) next1
  | Err _, Err _ => True
  | _, _ => False
  end.
Proof.
  apply (routing_sound fork_builder); [vm_compute; reflexivity|done|apply Permutation_swap].
Defined.

(** The planned order follows the finish order. In a compiled graph two
    nodes of one step route to different nodes; the order in which they
    finished is the order of the next active set, hence of the journaled
    routing decision. *)
Theorem routing_order_follows_finish :
  compile fork_builder = Ok fork_graph
  /\ route fork_graph state_new [] ["a"; "b"] = Ok [plain "c"; plain "d"]
  /\ route fork_graph state_new [] ["b"; "a"] = Ok [plain "d"; plain "c"]
  /\ routing_value [plain "c"; plain "d"] [] <> routing_value [plain "d"; plain "c"] [].
Proof. split_and!; [vm_compute; reflexivity..|]. vm_compute. intros E. by inversion E. Qed.
End RoutingExamples.
