(* ===== verification/RunLoop.v ===== *)
(** * Theorems about the run loop

    The spend guard over a whole run, and suspension followed by resumption
    through a checkpointer. *)

From Stdlib Require Import String.
From S2P Require Import Prelude Containers Json Error State StateFacts Graph Record SampleCodec Journal JournalFacts Inbox Checkpoint Meter Executor ExecutorFacts SuperStep.

(** ** The spend guard *)
Section Budget.
Context `{Codec} {St : Type} `{!Checkpointer St}.
Context {Node : Type} (node_effect : Node -> Effect) (uniq : Sharing) (uuid : nat -> string).

(** The spend of a sequence of events. *)
Definition spend_of (es : list RunEvent) : Spend := fold_left observe es no_spend.

(** The loop's running total accounts for a prefix of the journal. *)
Definition tracks (w : World St) (spend : Spend) (seen : nat) : Prop :=
  seen <= length (j_events (w_journal w))
  /\ spend = spend_of (take seen (j_events (w_journal w))).

Lemma tracks_appends (w w' : World St) spend seen :
  appends (w_journal w) (w_journal w') -> tracks w spend seen -> tracks w' spend seen.
Proof.
  intros Ha [Hle ->]. destruct (appends_events _ _ Ha) as [es E]. unfold tracks.
  rewrite E, length_app, take_app_le by done. split; [lia|done].
Qed.

(** The incremental check is the check of the whole journal. *)
Lemma check_spend_spec config b (w : World St) spend seen :
  cf_budget config = Some b -> tracks w spend seen ->
  exists verdict,
    check_spend config (w_journal w) spend seen
      = (verdict, spend_of (j_events (w_journal w)), length (j_events (w_journal w)))
    /\ match verdict with
       | Ok _ => exceeds (spend_of (j_events (w_journal w))) b = None
       | Err e => exists crossed, e = EBudget crossed
       end.
Proof.
  intros Hb [Hle ->]. unfold check_spend, events_from. rewrite Hb. cbv zeta.
  unfold spend_of. rewrite <- fold_left_app, take_drop, length_drop.
  eexists. split; [f_equal; lia|]. by destruct (exceeds _ b); eauto.
Qed.

(** The boundary keeps the position and the running total. *)
Lemma boundary_keeps config rc ls n env (w w' : World St) d ls1 :
  inbox_boundary uuid config rc ls n env w = (Ret (d, ls1), w') ->
  ls_state ls1 = ls_state ls /\ ls_active ls1 = ls_active ls /\ ls_step ls1 = ls_step ls
  /\ ls_spend ls1 = ls_spend ls /\ ls_seen ls1 = ls_seen ls.
Proof.
  unfold inbox_boundary. intros Hb. simplify_run. destruct (w_inbox _) as [ib|]; [|by simplify_run].
  simplify_run. case_match. simplify_run. destruct o as [[cause keep]|].
  { unfold cancel_run in Hb. case_match. by simplify_run. }
  case_match. simplify_run. case_match. by simplify_run.
Qed.

Lemma loop_step_tracks (g : Graph Node) spec config rc started ls n env (w w' : World St) b r :
  cf_budget config = Some b -> tracks w (ls_spend ls) (ls_seen ls) ->
  loop_step node_effect uniq uuid g spec config rc started ls n env w = (Ret r, w') ->
  exceeds (spend_of (j_events (w_journal w'))) b = None
  /\ match r with
     | inl _ => True
     | inr ls' => tracks w' (ls_spend ls') (ls_seen ls')
     end.
Proof.
  intros Hb Ht Hl.
  unfold loop_step in Hl. apply bind_Ret in Hl as (ts & w1 & H1 & Hl).
  apply bind_Ret in Hl as ([d ls1] & w2 & H2 & Hl). destruct (se_cancelled env); [done|].
  apply bind_Ret in Hl as ([[s' t] invs] & w3 & H3 & Hl).
  apply bind_Ret in Hl as ([[verdict spend'] seen'] & w4 & H4 & Hl).
  destruct (boundary_keeps _ _ _ _ _ _ _ _ _ H2) as (_ & _ & _ & Hsp & Hse).
  assert (Ha : appends (w_journal w) (w_journal w3)).
  { pose proof (keeps_env_run rc rc (cf_thread_id config) 0 (se_boundary env) no_tasks w) as K1.
    pose proof (keeps_inbox_boundary uuid rc config ls n (se_settled env) w1) as K2.
    pose proof (within_super_step node_effect uniq uuid rc config g spec (ls_state ls1)
      (ls_active ls1) (ls_step ls1) (ls_pending_resume ls1) (ls_step_parent ls1) d started env w2)
      as (k & _ & K3).
    rewrite H1 in K1. rewrite H2 in K2. rewrite H3 in K3.
    apply wsteps_effects in K1 as [K1 _], K2 as [K2 _]. apply spans_effects in K3 as [K3 _].
    simpl in *. unfold appends in *. etrans; [exact K1|]. by etrans. }
  apply (tracks_appends w w3) in Ht; [|done]. rewrite <- Hsp, <- Hse in Ht.
  destruct (check_spend_spec config b w3 _ _ Hb Ht) as (v & Hv & Hx).
  unfold gets in H4. rewrite Hv in H4. simplify_eq.
  apply bind_Ret in Hl as (u & w5 & Hlift & Hl). unfold lift in Hlift.
  destruct verdict as [[]|e]; [|done]. simplify_run.
  destruct t as [next ev ext|o]; simplify_run; (split; [done|]); [|done].
  simpl. split; [done|]. by rewrite take_ge.
Qed.

Lemma run_loop_budget (g : Graph Node) spec config rc started env b left :
  cf_budget config = Some b ->
  forall ls (w w' : World St) s, tracks w (ls_spend ls) (ls_seen ls) ->
    run_loop node_effect uniq uuid g spec config rc started env left ls w = (Ret (Done s), w') ->
    exceeds (spend_of (j_events (w_journal w'))) b = None.
Proof.
  intros Hb. induction left as [|left IH]; intros ls w w' s Ht Hr; cbn [run_loop] in Hr.
  { unfold halt_run in Hr. by simplify_run. }
  apply bind_Ret in Hr as ([[verdict spend'] seen'] & w1 & H1 & Hr).
  destruct (check_spend_spec config b w _ _ Hb Ht) as (v & Hv & Hx).
  unfold gets in H1. rewrite Hv in H1. simplify_eq.
  destruct verdict as [[]|e].
  - apply bind_Ret in Hr as (r & w2 & Hl & Hr).
    eapply loop_step_tracks in Hl as [Hex Hls]; [|done|simpl; split; [done|by rewrite take_ge]].
    destruct r as [o|ls2]; [by simplify_run|]. by eapply IH.
  - destruct Hx as [crossed ->]. unfold halt_run in Hr. by simplify_run.
Qed.

(** The spend guard covers the whole run. A run with a budget that
    finishes has a journal whose total spend, folded over every event from the
    first, stays within the budget, although the loop folds the journal
    incrementally. *)
Theorem finished_run_within_budget (g : Graph Node) (spec : StateSpec) (s0 : State)
    (config : RunConfig) (env : nat -> StepEnv) (w w' : World St) (b : RunBudget) (s : State) :
  cf_budget config = Some b -> cf_checkpoint_id config = None -> cf_resume config = None ->
  run node_effect uniq uuid g spec s0 config env w = (Ret (Done s), w') ->
  exceeds (spend_of (j_events (w_journal w'))) b = None.
Proof.
  intros Hb Hc Hre Hr. unfold run in Hr. apply bind_Ret in Hr as (rc & w1 & _ & Hr).
  apply bind_Ret in Hr as ([rc' ls] & w2 & Hs & Hr). unfold start in Hs.
  rewrite Hc, Hre in Hs. simplify_run. simpl in Hr.
  apply bind_Ret in Hr as (started & w3 & _ & Hr).
  eapply run_loop_budget; [exact Hb| |exact Hr]. split; [simpl; lia|done].
Qed.
End Budget.

(** ** Suspension and resumption *)

(** What a resume relies on: the latest checkpoint of a thread is the one put
    last. *)
Class LatestLaw (St : Type) `{!Checkpointer St} : Prop := {
  latest_after_put (c : Checkpoint) (st st' : St) :
    put c st = (Ok (), st') -> get_latest (c_thread_id c) st' = Ok (Some c);
}.

#[export] Instance mem_latest : LatestLaw InMemoryCheckpointer.
Proof.
  split. intros c st st'. simpl. unfold mem_put, mem_get_latest, mem_thread. cbv zeta.
  destruct (existsb _ _); [done|]. intros [= <-]. simpl. rewrite lookup_insert_eq. simpl.
  by rewrite last_snoc.
Qed.

Section Resume.
Context `{Codec} {St : Type} `{!Checkpointer St}.
Context {Node : Type} (node_effect : Node -> Effect) (uniq : Sharing) (uuid : nat -> string).

Lemma record_event_world d (w w' : World St) id :
  record_event d w = (Ret id, w') -> w_store w' = w_store w /\ w_inbox w' = w_inbox w.
Proof. unfold record_event. destruct (record _ _ _) as [[? ?] ?]. by intros [= <- <-]. Qed.

Lemma emit_world config e (w w' : World St) u :
  emit config e w = (Ret u, w') -> w_store w' = w_store w /\ w_inbox w' = w_inbox w.
Proof.
  unfold emit. intros [= _ <-]. destruct (cf_event_tx config) as [room|]; [|done].
  by destruct (room _).
Qed.

(** The checkpoint a suspended step commits, with its inbox stamp. *)
Lemma suspend_commits config rc s active step d invs i name v (w w' : World St) st t :
  w_store w = Some st ->
  suspend_step uuid config rc s active step d invs i name v w = (Ret t, w') ->
  exists c st', put c st = (Ok (), st') /\ w_store w' = Some st'
    /\ c_thread_id c = cf_thread_id config /\ c_step c = step /\ c_state c = s
    /\ c_next_nodes c = map task_name active /\ h_inbox (c_header c) = stamp_with d w'
    /\ t = Finish (Interrupted v s (c_id c)).
Proof.
  intros Hst Hs. unfold suspend_step in Hs. apply bind_Ret in Hs as (ev & w1 & H1 & Hs).
  apply record_event_world in H1 as [Hs1 Hi1].
  apply bind_Ret in Hs as (stamp & w2 & H2 & Hs). injection H2 as <- <-.
  apply bind_Ret in Hs as (c & w3 & H3 & Hs).
  destruct (mint_spec uuid rc (cf_thread_id config) step s (map task_name active)
              (stamp_with d w1) w1) as (c' & w3' & Hm & _ & Hs3 & Hi3 & Hstamp & Hc1 & Hc2 & Hc3 & Hc4).
  rewrite Hm in H3. simplify_eq. apply bind_Ret in Hs as ([] & w4 & H4 & Hs). simplify_run.
  unfold with_store in H4. rewrite Hs3, Hs1, Hst in H4.
  apply bind_Ret in H4 as (u & w5 & Hput & H4). apply bind_Ret in H4 as (ev2 & w6 & H6 & H4).
  apply record_event_world in H6 as [Hs6 Hi6]. apply emit_world in H4 as [Hs4 Hi4].
  unfold put_checkpoint in Hput. rewrite Hs3, Hs1, Hst in Hput.
  destruct (put c st) as [[[]|e] st'] eqn:Hp; [|done]. injection Hput as _ <-. simpl in *.
  exists c, st'. split_and!; try done; [congruence|apply Hstamp|].
  unfold stamp_with. by rewrite Hi4, Hi6, Hi3.
Qed.

(** A step that returns a suspension took the suspension path. *)
Lemma interrupted_commits (g : Graph Node) spec config rc s active step resume parent d started
    env (w w' : World St) st s' v s1 id invs :
  w_store w = Some st ->
  execute_super_step node_effect uniq uuid g spec config rc s active step resume parent d started
    env w = (Ret (s', Finish (Interrupted v s1 id), invs), w') ->
  exists c st', put c st = (Ok (), st') /\ w_store w' = Some st'
    /\ c_thread_id c = cf_thread_id config /\ c_step c = step /\ c_state c = s
    /\ c_next_nodes c = map task_name active /\ h_inbox (c_header c) = stamp_with d w'.
Proof.
  intros Hst He. unfold execute_super_step in He.
  apply bind_Ret in He as (u & w1 & H1 & He). apply bind_Ret in He as (ev & w2 & H2 & He).
  apply bind_Ret in He as ([invs1 ts] & w3 & H3 & He). apply bind_Ret in He as (r & w4 & H4 & He).
  pose proof (frames_emit config (SuperStep step (map task_name active)) w) as F1.
  rewrite H1 in F1. apply record_event_world in H2 as [F2 _].
  pose proof (frames_spawn_all node_effect g config rc s step resume ev started d (se_compute env)
                active 0 no_tasks w2) as F3. rewrite H3 in F3.
  pose proof (frames_barrier config rc step invs1 (se_barrier env invs1) (length invs1) ts 0
                collected_none w3) as F4. rewrite H4 in F4. simpl in *.
  destruct r as [c|i name val].
  - apply bind_Ret in He as ([s2 t] & w5 & H5 & He). simplify_run.
    pose proof (complete_transacts uniq uuid g spec rc config active s step (se_route env) ev invs c w4)
      as Ht. rewrite H5 in Ht. by destruct Ht as (? & [_ []] & _).
  - apply bind_Ret in He as (t & w5 & H5 & He). simplify_run.
    eapply suspend_commits in H5 as (c & st' & ? & ? & ? & ? & ? & ? & ? & ?); [|rewrite F4, F3, F2, F1; exact Hst].
    by exists c, st'.
Qed.

(** A start from the latest checkpoint of the thread. *)
Lemma start_from_latest (g : Graph Node) config rc s0 (w : World St) st c r :
  cf_checkpoint_id config = None -> cf_resume config = Some r -> w_store w = Some st ->
  get_latest (cf_thread_id config) st = Ok (Some c) ->
  exists rc' ls w', start g config rc s0 w = (Ret (rc', ls), w')
    /\ ls_state ls = c_state c /\ ls_step ls = c_step c /\ ls_pending_resume ls = Some r
    /\ ls_active ls = map (fun name => mkTask name None) (c_next_nodes c)
    /\ ls_carried ls = match w_inbox w, h_inbox (c_header c) with
                       | Some ib, Some snap => if is_fresh ib then is_pending_delivery snap else []
                       | _, _ => []
                       end.
Proof.
  intros Hc Hr Hst Hl. unfold start. rewrite Hc, Hr, bind_world. unfold restore_point.
  rewrite Hst, Hc, Hl. simpl. rewrite bind_world. simpl.
  destruct (record_event _ w) as [[id|e|] w1] eqn:E;
    [|unfold record_event in E; by destruct (record _ _ _) as [[? ?] ?]..].
  apply record_event_world in E as [_ Hi]. rewrite bind_world. simpl. rewrite Hi, bind_world.
  destruct (w_inbox w) as [ib|]; [destruct (h_inbox (c_header c)) as [snap|]|]; simpl;
    rewrite ?bind_world; simpl; eexists _, _, _; (split; [reflexivity|]); by split_and!.
Qed.

End Resume.
