(* ===== verification/ExecutorExamples.v ===== *)
(** * Concrete runs

    A two-node graph over the in-memory checkpointer and the sample codec: the
    inputs at which the theorems about the executor are instantiated. *)

From Stdlib Require Import String.
From S2P Require Import Prelude Containers Json Error State StateFacts Graph Record SampleCodec Journal JournalFacts Inbox Checkpoint Meter Executor ExecutorFacts SuperStep RunLoop.

Module ExecutorExamples.
Import Sample.
Local Open Scope string_scope.

Definition uuid (n : nat) : string := "id-" ++ pretty n.
Definition effect_of (e : Effect) : Effect := e.

Definition builder : GraphBuilder Effect :=
  set_entry_point
    (add_edge (add_node (add_node builder_new "agent" ReadOnly) "tools" Idempotent)
       "agent" "tools") "agent".
Definition graph : Graph Effect := mkGraph (b_nodes builder) (b_edges builder) "agent".

Definition spec : StateSpec := add_channel spec_new "log" Append.

Definition config : RunConfig :=
  mkRunConfig "thread" 5 None None (Some (fun _ => true)) None None None None None None None None
    None None None None None None None None None None None None false
    (Some (mkBudget (Some 100%N) None)).
Definition resuming : RunConfig :=
  mkRunConfig "thread" 5 (Some (Bool true)) None None None None None None None None None None
    None None None None None None None None None None None None false None.

Definition clocks : Clocks := [Logical 1000 5].
Definition w0 : World InMemoryCheckpointer :=
  mkWorld clocks (journal_new "run" "thread" 0) 0 None (Some (mkMem ∅)) [].
Definition rc : Recorder := mkRecorder 0 "v1" "hash" STATIC_V0 None.

(** Task [i] appends its number to the log. *)
Definition writes_log (i : nat) : TaskResult :=
  TaskOk (mkOutput [("log", Array [Str (pretty i)])] None).

(** Runs every task of the step in order, then joins them. *)
Definition in_order (result : nat -> TaskResult) (n : nat) : list EnvAction :=
  (flat_map (fun i => [EnvStart i; EnvFinish i (result i)]) (seq 0 n) ++ replicate n EnvJoin)%list.

Definition schedule (acts : nat -> list EnvAction) : StepEnv :=
  mkStepEnv [] [] (fun _ => []) (fun invs => acts (length invs)) [] false.

Lemma in_order_finishes (result : nat -> TaskResult) (i : nat) (l : list nat) (st f : bool) :
  i ∈ l ->
  will_finish i st f (flat_map (fun i => [EnvStart i; EnvFinish i (result i)]) l) = true.
Proof.
  revert st f. induction l as [|k l IH]; intros st f Hi; [inv Hi|]. simpl.
  destruct (Nat.eqb_spec k i) as [->|]; [rewrite orb_true_r, orb_true_r; apply will_finish_done|].
  apply IH. by apply elem_of_cons in Hi as [->|].
Qed.

Lemma in_order_fair (result : nat -> TaskResult) : fair_step (schedule (in_order result)).
Proof.
  intros invs. simpl. unfold in_order. set (n := length invs).
  set (run := flat_map _ _). exists (length run).
  rewrite take_app_length, drop_app_length. split.
  - intros i Hi. apply in_order_finishes, elem_of_seq. lia.
  - clear run. induction n as [|n IH]; simpl; lia.
Qed.

Definition env (k : nat) : StepEnv := schedule (in_order writes_log).

Lemma run_evidence_witness :
  journal_ok (w_journal (run effect_of never_shared uuid graph spec state_new config env w0).2).
Proof.
  apply (run_evidence effect_of never_shared uuid graph spec state_new config env w0).
  intros j Hj. discriminate Hj.
Defined.

Lemma run_terminates_witness :
  let r := run effect_of never_shared uuid graph spec state_new config env w0 in
  r.1 <> Wait /\ announced r.2 <= announced w0 + 5.
Proof.
  apply (run_terminates effect_of never_shared uuid graph spec state_new config env w0).
  intros k. apply in_order_fair.
Defined.

(** ** One step under two schedules *)

Definition StepResult : Type :=
  Run (State * StepTransition * list Invocation) * World InMemoryCheckpointer.
Definition left_state (r : StepResult) : State :=
  match r.1 with Ret (s, _, _) => s | _ => state_new end.
Definition left_transition (r : StepResult) : StepTransition :=
  match r.1 with Ret (_, t, _) => t | _ => Next [] EmptyString [] end.
Definition left_invocations (r : StepResult) : list Invocation :=
  match r.1 with Ret (_, _, i) => i | _ => [] end.

(** Two invocations of [tools], as a fan-out schedules them. *)
Definition fan_out : list ActiveTask :=
  [mkTask "tools" (Some (Object [("item", Str "x")])); mkTask "tools" (Some (Object [("item", Str "y")]))].

Definition one_step (u : Sharing) (e : StepEnv) : StepResult :=
  execute_super_step effect_of u uuid graph spec config rc state_new fan_out 1 None None [] None e w0.

(** The second task finishes first. *)
Definition reversed : StepEnv :=
  schedule (fun _ => [EnvStart 1; EnvStart 0; EnvFinish 1 (writes_log 1); EnvJoin;
                      EnvFinish 0 (writes_log 0); EnvJoin]).

Definition forward_step : StepResult := one_step never_shared (schedule (in_order writes_log)).
Definition reversed_step : StepResult := one_step always_shared reversed.

Lemma in_order_reports (n : nat) : reports writes_log (in_order writes_log n).
Proof.
  intros i r [Hin|Hin]%elem_of_app.
  - apply list_elem_of_In, in_flat_map in Hin as (k & _ & [E|[E|[]]]); [done|by simplify_eq].
  - apply elem_of_replicate in Hin as [? _]. done.
Qed.

Lemma super_step_schedule_free_witness :
  left_state forward_step = left_state reversed_step
  /\ state_get (left_state reversed_step) "log" = Some (Array [Str "0"; Str "1"]).
Proof.
  split; [|vm_compute; reflexivity].
  apply (super_step_schedule_free effect_of uuid never_shared always_shared writes_log graph spec
           config config rc rc state_new fan_out 1 None None None [] None
           (schedule (in_order writes_log)) reversed w0 forward_step.2 w0 reversed_step.2
           (left_state forward_step) (left_state reversed_step) (left_transition forward_step)
           (left_transition reversed_step) (left_invocations forward_step)
           (left_invocations reversed_step)).
  - split; [intros k i r Hin; inversion Hin|intros invs; apply in_order_reports].
  - split; [intros k i r Hin; inversion Hin|]. intros invs i r Hin. simpl in Hin.
    repeat (apply elem_of_cons in Hin as [Hin|Hin]; [by simplify_eq|]). inversion Hin.
  - vm_compute. reflexivity.
  - vm_compute. reflexivity.
  - vm_compute. exact I.
  - vm_compute. exact I.
Defined.

(** ** A finished run *)

Definition finished : Run ExecutionOutcome * World InMemoryCheckpointer :=
  run effect_of never_shared uuid graph spec state_new config env w0.

Lemma finished_run_within_budget_witness :
  exceeds (spend_of (j_events (w_journal finished.2))) (mkBudget (Some 100%N) None) = None.
Proof.
  apply (finished_run_within_budget effect_of never_shared uuid graph spec state_new config env w0
           finished.2 (mkBudget (Some 100%N) None)
           (mkState [("log", Array [Str "0"; Str "0"])])); vm_compute; reflexivity.
Defined.

(** ** A suspended step *)

Definition asks (i : nat) : TaskResult := TaskErr (EInterrupt (Str "approve?")).

Definition suspended_step : StepResult := one_step never_shared (schedule (in_order asks)).

End ExecutorExamples.
