(* ===== verification/ReplayRun.v ===== *)
(** * Driving a replay ([rusty-core/src/replay.rs], [executor.rs], [tool.rs])

    The configuration an exact replay re-declares from the journaled envelope,
    the replay run over the executor, and the fixture bundle that replays in
    continuous integration. *)

From Stdlib Require Import String SpecFloat.
From S2P Require Import Prelude Containers Json Error State Graph Record SampleCodec Journal JournalFacts Inbox Checkpoint Meter Chat Declaration Replay ReplayFacts Executor.
Local Open Scope string_scope.

(** ** Counterparts *)

(** [Counterpart]. *)
Inductive Counterpart : Type := Person (id : string) | Nobody.

(** [Counterpart::to_value]. *)
Definition counterpart_value (c : Counterpart) : Value :=
  match c with
  | Person id => jobj [("person", Str id)]
  | Nobody => jobj [("nobody", Bool true)]
  end.

(** [Counterpart::from_value]. *)
Definition counterpart_from_value (v : Value) : Counterpart :=
  match vget "person" v ≫= as_str with
  | Some id => Person id
  | None =>
      match as_str v with
      | Some id => if String.eqb id EmptyString then Nobody else Person id
      | None => Nobody
      end
  end.

(** ** The replayed configuration *)

(** [DEFAULT_MAX_STEPS]. *)
Definition DEFAULT_MAX_STEPS : nat := 1000.

(** [RunConfig::new]. *)
Definition config_new (thread_id : string) : RunConfig :=
  mkRunConfig thread_id DEFAULT_MAX_STEPS None None None None None None None None None None None
    None None None None None None None None None None None None false None.

(** [Vec::dedup] on a sorted vector. *)
Fixpoint dedup (l : list string) : list string :=
  match l with
  | x :: ((y :: _) as rest) => if String.eqb x y then dedup rest else x :: dedup rest
  | other => other
  end.

(** The normalization of [RunConfig::with_tool_allowlist]. *)
Definition normalize_allowlist (tools : list string) : list string :=
  dedup (sort_by str_leb tools).

(** [ReplayParams]: the fresh journal and the step limit (the random source
    and the checkpointer belong to the executor, the guards to node code). *)
Record ReplayParams : Type := mkParams { pr_journal : Journal; pr_max_steps : nat }.

(** The declared fields [ExactReplay::run] restores. *)
Definition redeclare (d : RunConfigDeclaration) (c : RunConfig) : RunConfig :=
  mkRunConfig (cf_thread_id c) (cf_max_steps c) (cf_resume c) (cf_checkpoint_id c)
    (cf_event_tx c) (cf_clock c) (cf_journal c) (Some (dc_policy_version d))
    (Some (dc_graph_version d)) (or_else (dc_manifest d) (cf_manifest c))
    (or_else (normalize_allowlist <$> dc_tool_allowlist d) (cf_tool_allowlist c))
    (cf_instructions c) (cf_model c) (cf_fallback_model c) (cf_temperature c)
    (or_else (dc_attribution d) (cf_attribution c)) (cf_execution c) (cf_skills c)
    (or_else (dc_context_policy d) (cf_context_policy c))
    (or_else (dc_tool_overlays d) (cf_tool_overlays c))
    (or_else (dc_tool_outcomes d) (cf_tool_outcomes c))
    (or_else (dc_agent_id d) (cf_agent_id c)) (or_else (dc_started_at d) (cf_started_at c))
    (or_else ((fun v => counterpart_value (counterpart_from_value v)) <$> dc_counterpart d)
       (cf_counterpart c))
    (cf_memory_blocks c) (cf_compaction_state c) (or_else (dc_budget d) (cf_budget c)).

Definition replay_base (x : ExactReplay) (p : ReplayParams) : RunConfig :=
  let c := config_new (js_thread_id (xr_snapshot x)) in
  mkRunConfig (cf_thread_id c) (pr_max_steps p) (cf_resume c) (cf_checkpoint_id c)
    (cf_event_tx c) (cf_clock c) (Some (pr_journal p)) (cf_policy_version c)
    (cf_graph_version c) (cf_manifest c) (cf_tool_allowlist c) (cf_instructions c) (cf_model c)
    (cf_fallback_model c) (cf_temperature c) (cf_attribution c) (cf_execution c) (cf_skills c)
    (cf_context_policy c) (cf_tool_overlays c) (cf_tool_outcomes c) (cf_agent_id c)
    (cf_started_at c) (cf_counterpart c) (cf_memory_blocks c) (cf_compaction_state c)
    (cf_budget c).

(** The configuration [ExactReplay::run] builds. *)
Definition replay_config `{Codec, TimeParse} (x : ExactReplay) (p : ReplayParams) :
    res RunConfig :=
  d ← declaration_in (xr_snapshot x);
  Ok (match d with Some d => redeclare d (replay_base x p) | None => replay_base x p end).

(** ** Fixtures *)

(** [FIXTURE_FORMAT_VERSION]. *)
Definition FIXTURE_FORMAT_VERSION : N := 1%N.

(** [LogicalClockParams], [FixtureMetadata], [ReplayFixture]. *)
Record LogicalClockParams : Type := mkClockParams { lc_start_ms : N; lc_tick_ms : N }.

Record FixtureMetadata : Type := mkMetadata {
  fm_name : string;
  fm_clock : option LogicalClockParams;
  fm_rng_seed : option N;
}.

Record ReplayFixture : Type := mkFixture {
  rf_format_version : N;
  rf_graph_hash : string;
  rf_graph_version : string;
  rf_journal : JournalSnapshot;
  rf_final_checkpoint : option Checkpoint;
  rf_metadata : FixtureMetadata;
}.

Section Fixtures.
Context `{Codec} {Node : Type}.

(** [ReplayFixture::capture]. *)
Definition fixture_capture (name : string) (g : Graph Node) (graph_version : string)
    (journal : JournalSnapshot) (final : option Checkpoint) (clock : option LogicalClockParams)
    (rng_seed : option N) : ReplayFixture :=
  mkFixture FIXTURE_FORMAT_VERSION (topology_hash sha256_hex g) graph_version journal final
    (mkMetadata name clock rng_seed).

(** [ReplayFixture::import], from the parsed fixture on. *)
Definition fixture_import (f : ReplayFixture) : res ReplayFixture :=
  (if (rf_format_version f =? FIXTURE_FORMAT_VERSION)%N then Ok ()
   else Err (EReplay ("unsupported fixture format version " ++ pretty (rf_format_version f)
        ++ " (this build supports " ++ pretty FIXTURE_FORMAT_VERSION
        ++ ") — regenerate the fixture or upgrade the runtime")));;
  verify_snapshot (rf_journal f);;
  Ok f.

(** [ReplayFixture::replay_params]: the clock to replay on, the seed, and the
    parameters over a fresh journal on the clock's handle [h]. *)
Definition replay_params (f : ReplayFixture) (x : ExactReplay) (h : nat) :
    res (Clock * N * ReplayParams) :=
  clock ← ok_or (fm_clock (rf_metadata f))
    (EReplay ("fixture `" ++ fm_name (rf_metadata f) ++ "` carries no logical-clock parameters; "
      ++ "exact CI replay requires the recorded run's determinism seams"));
  seed ← ok_or (fm_rng_seed (rf_metadata f))
    (EReplay ("fixture `" ++ fm_name (rf_metadata f) ++ "` carries no RNG seed; exact CI replay "
      ++ "requires the recorded run's determinism seams"));
  Ok (Logical (lc_start_ms clock) (lc_tick_ms clock), seed,
      mkParams (fresh_journal x h) DEFAULT_MAX_STEPS).
End Fixtures.

(** ** The replay run *)

Section ReplayRun.
Context `{Codec, TimeParse} {St : Type} `{!Checkpointer St}.
Context {Node : Type} (node_effect : Node -> Effect) (uniq : Sharing) (uuid : nat -> string).

(** [ExactReplay::run]. *)
Definition exact_replay_run (x : ExactReplay) (g : Graph Node) (spec : StateSpec)
    (initial_state : State) (p : ReplayParams) (env : nat -> StepEnv) :
    M St (ExecutionOutcome * JournalSnapshot) :=
  (if String.eqb (j_run_id (pr_journal p)) (js_run_id (xr_snapshot x))
      && String.eqb (j_thread_id (pr_journal p)) (js_thread_id (xr_snapshot x))
   then mret ()
   else fail (EReplay ("replay journal identity mismatch: the snapshot records run `"
          ++ js_run_id (xr_snapshot x) ++ "` on thread `" ++ js_thread_id (xr_snapshot x)
          ++ "`, but the supplied journal is run `" ++ j_run_id (pr_journal p) ++ "` on thread `"
          ++ j_thread_id (pr_journal p)
          ++ "` — build the replay journal with ExactReplay::fresh_journal")));;
  config ← lift (replay_config x p);
  outcome ← run node_effect uniq uuid g spec initial_state config env;
  journal ← gets (fun w => snapshot (w_journal w));
  mret (outcome, journal).

(** [ExactReplay::run_and_verify]; [cursor] is the shared cursor as the node
    code left it. *)
Definition run_and_verify (x : ExactReplay) (cursor : ReplaySource) (g : Graph Node)
    (spec : StateSpec) (initial_state : State) (p : ReplayParams) (env : nat -> StepEnv) :
    M St (ExecutionOutcome * JournalSnapshot) :=
  replayed ← exact_replay_run x g spec initial_state p env;
  lift (verify (xr_snapshot x) cursor replayed.2);;
  mret replayed.

(** [ReplayFixture::replay_in_ci]. *)
Definition replay_in_ci (f : ReplayFixture) (x : ExactReplay) (cursor : ReplaySource)
    (g : Graph Node) (spec : StateSpec) (initial_state : State) (p : ReplayParams)
    (env : nat -> StepEnv) : M St (ExecutionOutcome * JournalSnapshot) :=
  let actual := topology_hash sha256_hex g in
  (if String.eqb actual (rf_graph_hash f) then mret ()
   else fail (EReplay ("fixture `" ++ fm_name (rf_metadata f)
          ++ "` was recorded against graph topology " ++ rf_graph_hash f
          ++ ", but the graph under replay hashes to " ++ actual
          ++ " — rebuild the recorded topology (same node names, edges, and entry point)")));;
  replayed ← run_and_verify x cursor g spec initial_state p env;
  match rf_final_checkpoint f with
  | Some final =>
      if artifacts_eqb (inner (outcome_state replayed.1)) (inner (c_state final)) then mret replayed
      else fail (EReplay ("fixture `" ++ fm_name (rf_metadata f)
             ++ "`: the replayed final state diverges from the recorded final checkpoint (journal "
             ++ "evidence agreed; state did not)"))
  | None => mret replayed
  end.
End ReplayRun.
