(* ===== verification/ReplayRunFacts.v ===== *)
(** * Facts of the replay run

    The envelope round trip (what a run declares, a replay re-declares), what
    a continuous-integration replay that returns has established, and the
    declared field no replay restores. *)

From Stdlib Require Import String SpecFloat.
From S2P Require Import Prelude Containers Json Error State StateFacts Graph Record SampleCodec Journal JournalFacts Inbox Checkpoint Meter Chat Declaration Replay ReplayFacts Executor ExecutorFacts SuperStep RunLoop ExecutorExamples ReplayRun.
Local Open Scope string_scope.

(** ** Reading an object built field by field *)

Lemma get_from_list_app {V : Type} (k : string) (l l' : list (string * V)) :
  BTree.get k (BTree.from_list (l ++ l')%list)
  = or_else (BTree.get k (BTree.from_list l')) (BTree.get k (BTree.from_list l)).
Proof.
  unfold BTree.from_list. rewrite !BTree.get_fold_insert, reverse_app.
  assert (Happ : forall a b : list (string * V),
    BTree.get k (a ++ b)%list = or_else (BTree.get k a) (BTree.get k b)).
  { induction a as [|[k1 v1] a IH]; intros b; simpl; [done|]. by destruct (String.eqb k k1). }
  rewrite Happ. simpl. by destruct (BTree.get k (reverse l')), (BTree.get k (reverse l)).
Qed.

Lemma get_jopt (k k' : string) (o : option Value) :
  BTree.get k (BTree.from_list (jopt k' o)) = if String.eqb k k' then o else None.
Proof. destruct o; simpl; [done|by destruct (String.eqb k k')]. Qed.

Lemma or_else_None_r {A : Type} (o : option A) : or_else o None = o.
Proof. by destruct o. Qed.

(** ** Fields that read back *)

(** An optional field whose values decode. *)
Lemma opt_field_roundtrip {A : Type} (decode : Value -> option A) (encode : A -> Value)
    (o : option A) :
  (forall a, o = Some a -> encode a <> Null /\ decode (encode a) = Some a) ->
  opt_field decode (encode <$> o) = Some o.
Proof.
  intros Ho. destruct o as [a|]; simpl; [|done]. destruct (Ho a eq_refl) as [Hn Hd].
  destruct (encode a); try done; by rewrite Hd.
Qed.

Lemma strings_roundtrip (l : list string) : strings_from_value (jstrs l) = Some l.
Proof.
  unfold strings_from_value, jstrs. apply mapM_Some. induction l; simpl; constructor; done.
Qed.

Lemma string_map_roundtrip (m : list (string * string)) :
  BTree.Sorted m ->
  string_map_from_value (jobj (map (fun kv => (kv.1, Str kv.2)) m)) = Some m.
Proof.
  intros Hs. unfold jobj. rewrite (BTree.from_list_id (map _ m)) by (by apply map_snd_Sorted).
  unfold string_map_from_value.
  assert (Hm : mapM (fun kv => s ← as_str kv.2; Some (kv.1, s))
                 (map (fun kv => (kv.1, Str kv.2)) m) = Some m).
  { apply mapM_Some. clear Hs. induction m as [|[k v] m IH]; simpl; constructor; done. }
  rewrite Hm. simpl. by rewrite BTree.from_list_id.
Qed.

(** The value of a map field, absent when the map is empty. *)
Definition map_field (m : list (string * string)) : option Value :=
  match m with [] => None | _ => Some (jobj (map (fun kv => (kv.1, Str kv.2)) m)) end.

Lemma map_field_roundtrip (m : list (string * string)) :
  BTree.Sorted m -> default_field [] string_map_from_value (map_field m) = Some m.
Proof.
  intros Hs. destruct m as [|x m]; [done|]. by apply (string_map_roundtrip (x :: m)).
Qed.

Lemma get_jmap_skip (k k' : string) (m : list (string * string)) :
  BTree.get k (BTree.from_list (jmap_skip k' m)) = if String.eqb k k' then map_field m else None.
Proof. destruct m; simpl; [by destruct (String.eqb k k')|done]. Qed.

(** The maps of a manifest are maps. *)
Definition manifest_wf (m : RunManifest) : Prop :=
  BTree.Sorted (rm_prompts m) /\ BTree.Sorted (rm_tool_schemas m) /\ BTree.Sorted (rm_capsules m).

Lemma manifest_roundtrip (m : RunManifest) :
  manifest_wf m -> manifest_from_value (manifest_value m) = Some m.
Proof.
  intros (Hp & Ht & Hc). unfold manifest_from_value, manifest_value, jobj, struct_fields.
  cbn [map mbind option_bind]. rewrite !get_from_list_app, !get_jopt, !get_jmap_skip.
  cbn [String.eqb Ascii.eqb Bool.eqb or_else]. rewrite !or_else_None_r.
  rewrite !map_field_roundtrip by done. cbn [mbind option_bind].
  destruct m as [p t mo mp ms c mw cs]. cbn in *. by destruct mo, mp, ms, mw, cs.
Qed.

Lemma budget_roundtrip (b : RunBudget) : budget_from_value (budget_value b) = Some b.
Proof. by destruct b as [[] []]. Qed.

(** ** The envelope round trip *)
Section Envelope.
Context `{Codec, TimeParse}.

(** The frozen provenance [setup] computes for a configuration. *)
Definition recorder_for {Node : Type} (g : Graph Node) (config : RunConfig) (clock : nat) :
    Recorder :=
  mkRecorder clock (default "unversioned" (cf_graph_version config)) (topology_hash sha256_hex g)
    (default STATIC_V0 (cf_policy_version config)) (cf_manifest config).

(** The start [declare] settles on, given its clock reading. *)
Definition started_for (config : RunConfig) (now : DateTime) : option DateTime :=
  if is_set (cf_context_policy config) || is_set (cf_started_at config)
  then Some (default now (cf_started_at config)) else None.

(** What a run declares, field by field. *)
Definition world_of (config : RunConfig) : option string :=
  e ← cf_execution config; v ← vget "world" e; as_str v.

Definition declared {Node : Type} (g : Graph Node) (config : RunConfig)
    (started : option DateTime) : RunConfigDeclaration :=
  mkDeclaration (default "unversioned" (cf_graph_version config)) (topology_hash sha256_hex g)
    (default STATIC_V0 (cf_policy_version config)) (cf_tool_allowlist config)
    (cf_manifest config) (cf_context_policy config) (cf_attribution config)
    (cf_tool_overlays config) (cf_tool_outcomes config) (cf_budget config)
    (cf_counterpart config) (cf_agent_id config) started (world_of config).

(** A configuration whose declaration reads back: its maps are maps, no free
    field is a JSON null, and the start's text parses back. *)
Record declarable (config : RunConfig) (started : option DateTime) : Prop := {
  dl_manifest : forall m, cf_manifest config = Some m -> manifest_wf m;
  dl_context : cf_context_policy config <> Some Null;
  dl_attribution : cf_attribution config <> Some Null;
  dl_overlays : cf_tool_overlays config <> Some Null;
  dl_outcomes : cf_tool_outcomes config <> Some Null;
  dl_counterpart : cf_counterpart config <> Some Null;
  dl_started : forall t, started = Some t -> parse_time (time_text t) = Some t;
}.

Lemma opt_value_field (o : option Value) : o <> Some Null -> opt_field Some o = Some o.
Proof. intros Hn. by destruct o as [[]|]. Qed.

Lemma opt_as_str (o : option string) : opt_field as_str (Str <$> o) = Some o.
Proof. by destruct o. Qed.

Lemma world_field (config : RunConfig) :
  (e ← cf_execution config; v ← vget "world" e; s ← as_str v; Some (Str s))
  = (Str <$> world_of config : option Value).
Proof.
  unfold world_of. destruct (cf_execution config) as [e|]; [|done]. simpl.
  destruct (vget "world" e) as [v|]; [|done]. simpl. by destruct (as_str v).
Qed.

Lemma declaration_roundtrip {Node : Type} (g : Graph Node) (config : RunConfig) (clock : nat)
    (started : option DateTime) :
  declarable config started ->
  declaration_from_value (declaration_value config (recorder_for g config clock) started)
  = Some (declared g config started).
Proof.
  intros [Hm Hc Ha Hov Hoc Hco Hst].
  unfold declaration_from_value, declaration_value, jobj, struct_fields, declaration_fields.
  rewrite world_field. set (base := [("graph_version", _); _; _]). set (m := BTree.from_list _).
  assert (Hbase : BTree.from_list base
    = [("graph_hash", Str (topology_hash sha256_hex g));
       ("graph_version", Str (default "unversioned" (cf_graph_version config)));
       ("policy_version", Str (default STATIC_V0 (cf_policy_version config)))]) by done.
  assert (Hget : forall k, BTree.get k m = _)
    by (intros k; unfold m; rewrite !get_from_list_app, !get_jopt, Hbase; reflexivity).
  clearbody m. cbn [map mbind option_bind]. rewrite !Hget.
  cbn [String.eqb Ascii.eqb Bool.eqb or_else BTree.get mbind option_bind as_str].
  rewrite !or_else_None_r.
  rewrite (opt_field_roundtrip strings_from_value jstrs)
    by (intros a _; split; [done|apply strings_roundtrip]).
  rewrite (opt_field_roundtrip manifest_from_value manifest_value)
    by (intros a Ham; split; [done|by apply manifest_roundtrip, Hm]).
  rewrite (opt_field_roundtrip budget_from_value budget_value)
    by (intros a _; split; [done|apply budget_roundtrip]).
  rewrite (opt_field_roundtrip (fun v => as_str v ≫= parse_time) (fun t => Str (time_text t)))
    by (intros t Ht; split; [done|]; simpl; by apply Hst).
  rewrite !opt_value_field, !opt_as_str by done. done.
Qed.

(** *** Normal forms *)

Lemma dedup_cons2 (a b : string) (l : list string) :
  dedup (a :: b :: l) = if String.eqb a b then dedup (b :: l) else a :: dedup (b :: l).
Proof. done. Qed.

Lemma dedup_elem (l : list string) (x : string) : x ∈ dedup l -> x ∈ l.
Proof.
  induction l as [|a [|b l] IH]; [done|done|]. rewrite dedup_cons2.
  destruct (String.eqb a b).
  - intros Hx. right. by apply IH.
  - rewrite elem_of_cons. intros [->|Hx]; [by left|]. right. by apply IH.
Qed.

Lemma dedup_head (b : string) (l : list string) : exists rest, dedup (b :: l) = b :: rest.
Proof.
  revert b. induction l as [|y l IH]; intros b; [by exists []|]. rewrite dedup_cons2.
  destruct (String.eqb_spec b y) as [->|]; [apply IH|by eexists].
Qed.

Lemma dedup_sorted (l : list string) :
  LebSorted str_leb l -> LebSorted str_leb (dedup l) /\ dedup (dedup l) = dedup l.
Proof.
  unfold LebSorted. induction l as [|a [|b l] IH]; intros Hs; [done|done|].
  apply StronglySorted_inv in Hs as [Hs Hall]. destruct (IH Hs) as [Hs' Hd].
  rewrite dedup_cons2. destruct (String.eqb_spec a b) as [->|Hne]; [done|]. split.
  - constructor; [done|]. apply Forall_forall. intros y Hy%dedup_elem.
    rewrite Forall_forall in Hall. by apply Hall.
  - destruct (dedup_head b l) as [rest Hr]. rewrite Hr in Hd |- *. rewrite dedup_cons2.
    rewrite (proj2 (String.eqb_neq a b) Hne). by rewrite Hd.
Qed.

Lemma normalize_idem (l : list string) :
  normalize_allowlist (normalize_allowlist l) = normalize_allowlist l.
Proof.
  unfold normalize_allowlist.
  destruct (dedup_sorted (sort_by str_leb l)) as [Hs Hd].
  { apply sort_by_sorted; [apply str_leb_total|apply str_leb_trans]. }
  by rewrite (sort_by_id str_leb _ Hs).
Qed.

Lemma counterpart_roundtrip (c : Counterpart) : counterpart_from_value (counterpart_value c) = c.
Proof. by destruct c. Qed.

(** A configuration built through its builders: the allowlist is normalized
    and the counterpart is in wire form. *)
Definition built (config : RunConfig) : Prop :=
  (exists l, cf_tool_allowlist config = normalize_allowlist <$> l)
  /\ exists c, cf_counterpart config = counterpart_value <$> c.

(** The replay's start is the recorded one, whatever its clock reads. *)
Lemma started_restored {Node : Type} (g : Graph Node) (config : RunConfig) (x : ExactReplay)
    (p : ReplayParams) (now now' : DateTime) :
  started_for (redeclare (declared g config (started_for config now)) (replay_base x p)) now'
  = started_for config now.
Proof.
  unfold started_for. simpl.
  destruct (cf_context_policy config), (cf_started_at config); simpl; done.
Qed.

(** C28: the envelope is served from the log: what a run declares at its
    start decodes, and the configuration a replay builds from it declares
    the very same value, field for field and start time included, whatever
    the replay's own clock reads, exactly when the run declared no world.
    (The run's maps are maps, its free fields are not JSON nulls, its
    allowlist and counterpart went through their builders, and its start
    time's text parses back.) *)
Theorem replay_redeclares {Node : Type} (g : Graph Node) (config : RunConfig) (x : ExactReplay)
    (p : ReplayParams) (clock clock' : nat) (now now' : DateTime) :
  declarable config (started_for config now) -> built config ->
  exists d,
    declaration_from_value
      (declaration_value config (recorder_for g config clock) (started_for config now)) = Some d
    /\ let config' := redeclare d (replay_base x p) in
       declares config' = true
       /\ (declaration_value config' (recorder_for g config' clock') (started_for config' now')
           = declaration_value config (recorder_for g config clock) (started_for config now)
           <-> world_of config = None).
Proof.
  intros Hdecl [[l Hl] [c Hc]]. exists (declared g config (started_for config now)).
  split; [by apply declaration_roundtrip|]. intros config'.
  split; [unfold config', declares; simpl; by rewrite !orb_true_r|].
  unfold config'. rewrite started_restored. unfold declaration_value. rewrite !world_field.
  assert (Hw : world_of (redeclare (declared g config (started_for config now)) (replay_base x p))
               = None) by done.
  rewrite Hw. cbn [redeclare replay_base declared config_new cf_tool_allowlist cf_manifest cf_context_policy
    cf_attribution cf_tool_overlays cf_tool_outcomes cf_budget cf_counterpart cf_agent_id
    cf_execution dc_tool_allowlist dc_manifest dc_context_policy dc_attribution dc_tool_overlays
    dc_tool_outcomes dc_budget dc_counterpart dc_agent_id recorder_for rc_graph_version
    rc_graph_hash rc_policy_version cf_graph_version cf_policy_version dc_graph_version
    dc_policy_version default mbind option_bind].
  rewrite !or_else_None_r, Hl, Hc.
  assert (El : normalize_allowlist <$> (normalize_allowlist <$> l) = normalize_allowlist <$> l)
    by (destruct l; simpl; [by rewrite normalize_idem|done]).
  assert (Ec : (fun v => counterpart_value (counterpart_from_value v)) <$> (counterpart_value <$> c)
               = counterpart_value <$> c)
    by (destruct c; simpl; [by rewrite counterpart_roundtrip|done]).
  rewrite El, Ec. split.
  - intros Heq%(f_equal (vget "world")). unfold jobj, vget in Heq.
    rewrite !get_from_list_app, !get_jopt in Heq.
    cbn [String.eqb Ascii.eqb Bool.eqb or_else jopt] in Heq.
    destruct (world_of config); [discriminate Heq|done].
  - intros ->. done.
Qed.
End Envelope.

(** ** Replays in continuous integration *)
Section Ci.
Context `{Codec, TimeParse} {St : Type} `{!Checkpointer St}.
Context {Node : Type} (node_effect : Node -> Effect) (uniq : Sharing) (uuid : nat -> string).

(** [setup] computes the provenance of the envelope facts. *)
Lemma setup_recorder (g : Graph Node) (config : RunConfig) (w w' : World St) (rc : Recorder) :
  setup uuid g config w = (Ret rc, w') -> exists clock, rc = recorder_for g config clock.
Proof.
  unfold setup. intros (u & w1 & _ & Hs)%bind_Ret. apply bind_Ret in Hs as (c & w2 & _ & Hs).
  injection Hs as <- _. eauto.
Qed.

Lemma check_Ret (b : bool) (e : RustyError) (w w' : World St) (u : ()) :
  (if b then mret () else fail e) w = (Ret u, w') -> b = true /\ w' = w.
Proof. destruct b; [by intros [= _ ->]|done]. Qed.

Lemma lift_Ret {A : Type} (r : res A) (w w' : World St) (a : A) :
  lift r w = (Ret a, w') -> r = Ok a /\ w' = w.
Proof. unfold lift. destruct r; [by intros [= -> ->]|done]. Qed.

Lemma exact_replay_run_journal (x : ExactReplay) (g : Graph Node) (spec : StateSpec)
    (init : State) (p : ReplayParams) (env : nat -> StepEnv) (w w' : World St)
    (o : ExecutionOutcome) (j : JournalSnapshot) :
  exact_replay_run node_effect uniq uuid x g spec init p env w = (Ret (o, j), w') ->
  j_run_id (pr_journal p) = js_run_id (xr_snapshot x)
  /\ j_thread_id (pr_journal p) = js_thread_id (xr_snapshot x) /\ j = snapshot (w_journal w').
Proof.
  unfold exact_replay_run. intros (u & w1 & [Hid ->]%check_Ret & Hr)%bind_Ret.
  apply andb_true_iff in Hid as [Hr1%String.eqb_eq Ht1%String.eqb_eq].
  apply bind_Ret in Hr as (c & w2 & [_ ->]%lift_Ret & Hr).
  apply bind_Ret in Hr as (o2 & w3 & _ & Hr). apply bind_Ret in Hr as (j2 & w4 & Hg & Hr).
  injection Hg as <- <-. injection Hr as -> <- <-. done.
Qed.

(** A replay in continuous integration that returns has established what
    it says: the graph has the recorded topology digest, the replay journal
    carried the recorded identity, every recorded effect was served, the
    journal the run left reproduces the recorded one field by field, and the
    outcome's state is the recorded final checkpoint's, when there is one. *)
Theorem replay_in_ci_sound (f : ReplayFixture) (x : ExactReplay) (cursor : ReplaySource)
    (g : Graph Node) (spec : StateSpec) (init : State) (p : ReplayParams)
    (env : nat -> StepEnv) (w w' : World St) (o : ExecutionOutcome) (j : JournalSnapshot) :
  replay_in_ci node_effect uniq uuid f x cursor g spec init p env w = (Ret (o, j), w') ->
  topology_hash sha256_hex g = rf_graph_hash f
  /\ j_run_id (pr_journal p) = js_run_id (xr_snapshot x)
  /\ j = snapshot (w_journal w') /\ reproduces (xr_snapshot x) cursor j
  /\ (forall final, rf_final_checkpoint f = Some final ->
      Forall2 (fun a b => a.1 = b.1 /\ a.2 ≡ b.2) (inner (outcome_state o)) (inner (c_state final))).
Proof.
  unfold replay_in_ci. intros (u & w1 & [Hh%String.eqb_eq ->]%check_Ret & Hr)%bind_Ret.
  apply bind_Ret in Hr as ([o2 j2] & w2 & Hv & Hr). unfold run_and_verify in Hv.
  apply bind_Ret in Hv as ([o3 j3] & w3 & Hrun & Hv).
  apply bind_Ret in Hv as (u2 & w4 & [Hok ->]%lift_Ret & Hv). injection Hv as -> -> <-.
  destruct u2. apply verify_spec in Hok.
  apply exact_replay_run_journal in Hrun as (Hid & _ & Hj).
  assert (Hend : o = o2 /\ j = j2 /\ w' = w3 /\ forall final, rf_final_checkpoint f = Some final ->
    artifacts_eqb (inner (outcome_state o2)) (inner (c_state final)) = true).
  { destruct (rf_final_checkpoint f) as [final|].
    - destruct (artifacts_eqb _ _) eqn:Hst; [|done]. injection Hr as -> -> <-.
      split_and!; [done..|]. by intros ? [= <-].
    - injection Hr as -> -> <-. by split_and!. }
  destruct Hend as (-> & -> & -> & Hst). split_and!; [done..|].
  intros final Hf. apply artifacts_eqb_spec. by apply Hst.
Qed.
End Ci.

(** ** A recorded run, replayed *)
Module ReplayRunExamples.
Import Sample ExecutorExamples.

(** A clock text that reads back at the start of the run. *)
#[local] Instance one_time : TimeParse := {
  parse_time s := if String.eqb s (pretty 1000%Z) then Some 1000%Z else None
}.

(** A run that pins its manifest, tools, counterpart, policy and budget. *)
Definition manifest : RunManifest :=
  mkManifest [("main", "p1")] [("lookup", "s1")] (Some "m-1") None None [] None None.

Definition pinning (execution : option Value) : RunConfig :=
  mkRunConfig "thread" 5 None None None None (Some (journal_new "run" "thread" 0)) None
    (Some "v1") (Some manifest) (Some (normalize_allowlist ["b"; "a"; "b"])) None None None None
    (Some (Str "ada")) execution None (Some (jobj [("window", jnat 4)])) None None
    (Some "agent-1") None (Some (counterpart_value Nobody)) None false
    (Some (mkBudget (Some 100%N) None)).

Definition recorded_run (config : RunConfig) : Run ExecutionOutcome * World InMemoryCheckpointer :=
  run effect_of never_shared uuid graph spec state_new config env w0.

Definition recorded (config : RunConfig) : JournalSnapshot := snapshot (w_journal (recorded_run config).2).

Definition session (config : RunConfig) : ExactReplay :=
  mkExact (recorded config) (source_new (recorded config)).

Definition params (config : RunConfig) : ReplayParams :=
  mkParams (fresh_journal (session config) 0) 5.

Definition fixture (config : RunConfig) : ReplayFixture :=
  fixture_capture "demo" graph "v1" (recorded config) None
    (Some (mkClockParams 1000 5)) (Some 7%N).

Definition replayed (config : RunConfig) :
    Run (ExecutionOutcome * JournalSnapshot) * World InMemoryCheckpointer :=
  replay_in_ci effect_of never_shared uuid (fixture config) (session config)
    (source_new (recorded config)) graph spec state_new (params config) env w0.

Lemma replay_redeclares_witness :
  exists d,
    declaration_from_value
      (declaration_value (pinning None) (recorder_for graph (pinning None) 0) (Some 1000%Z))
    = Some d
    /\ declares (redeclare d (replay_base (session (pinning None)) (params (pinning None)))) = true.
Proof.
  destruct (replay_redeclares graph (pinning None) (session (pinning None)) (params (pinning None))
              0 0 1000%Z 2000%Z) as (d & Hd & Hdecl & _).
  - split; try discriminate.
    + intros m [= <-]. by split_and!; repeat constructor.
    + intros t [= <-]. reflexivity.
  - split; [by exists (Some ["b"; "a"; "b"])|by exists (Some Nobody)].
  - exists d. split; [exact Hd|exact Hdecl].
Defined.

Lemma replay_in_ci_sound_witness :
  match (replayed (pinning None)).1 with
  | Ret (o, j) => reproduces (recorded (pinning None)) (source_new (recorded (pinning None))) j
  | _ => False
  end.
Proof.
  destruct (replayed (pinning None)) as [r w'] eqn:Hr.
  assert (Hret : match r with Ret _ => true | _ => false end = true).
  { replace r with (replayed (pinning None)).1 by by rewrite Hr. vm_compute. reflexivity. }
  destruct r as [[o j]|e|]; [|discriminate Hret..].
  exact (proj1 (proj2 (proj2 (proj2 (replay_in_ci_sound effect_of never_shared uuid
    (fixture (pinning None)) (session (pinning None)) (source_new (recorded (pinning None)))
    graph spec state_new (params (pinning None)) env w0 w' o j Hr))))).
Defined.

(** A run put in a world declares it, the replay does not, and the replay of
    the same run fails at the declaration. *)
Theorem world_not_redeclared :
  (replayed (pinning (Some (jobj [("world", Str "staging")])))).1
  = Fail (EReplay ("replay event mismatch at seq 0: recorded RunConfigDeclared(node=None, "
                   ++ "status=Ok) but replayed RunConfigDeclared(node=None, status=Ok)"))
  /\ is_set (match (replayed (pinning None)).1 with Ret a => Some a | _ => None end) = true.
Proof. split; vm_compute; reflexivity. Qed.
End ReplayRunExamples.
