(* ===== verification/ModelSeam.v ===== *)
(** * The model seam of a run ([rusty-core/src/react.rs], the agent's window)

    The ReAct agent assembles its window from the state the executor handed it
    and the inbox batch in its configuration; the checker derives the window
    from the journal. This file relates the two over whole runs: the executor
    journals what the agent will see. A run whose nodes and surroundings leave
    the executor's own event kinds alone keeps, at every boundary, the carried
    batch equal to what the journal shows as consumed since the last barrier. *)

From Stdlib Require Import String.
From S2P Require Import Prelude Containers Json Error State StateFacts Graph Record SampleCodec Journal JournalFacts Inbox InboxFacts Checkpoint Meter Chat Declaration Replay Invariant InvariantFacts Executor ExecutorFacts SuperStep RunLoop ReplayRunFacts.
Local Open Scope string_scope.

(** ** The agent's window *)
Section Agent.
Context `{Codec}.

(** [read_messages]. *)
Definition read_messages (s : State) : res (list ChatMessage) :=
  match state_get s HISTORY_CHANNEL with
  | None => Ok []
  | Some v => ok_or (history_from_value v) (ESerialization (decode_error "ChatMessage" v))
  end.

(** The window the agent node sends: the history, then the delivered batch. *)
Definition agent_window (s : State) (config : NodeConfig) : res (list ChatMessage) :=
  messages ← read_messages s;
  delivered ← match BTree.get INBOX_DELIVERY_KEY (cfg_extra config) with
              | Some v =>
                  ok_or (inbox_messages_from_value v)
                    (ENode ("node `agent` received a malformed inbox delivery: "
                            ++ decode_error "InboxMessage" v))
              | None => Ok []
              end;
  Ok (messages ++ map consumed_message delivered)%list.

(** ** What the journal shows as delivered *)

(** The journal holds another value under the digest of [v]. *)
Definition clashes (j : Journal) (v : Value) : Prop :=
  exists b w, to_vec v = Some b /\ BTree.get (sha256_hex b) (j_artifacts j) = Some w /\ w <> v.

Definition kept (j : Journal) (p : PayloadRef) (v : Value) : Prop :=
  resolve p j = Some v \/ clashes j v.

Definition holds (j : Journal) (e : RunEvent) (c : InboxConsumption) : Prop :=
  exists p, ev_output e = Some p /\ kept j p (consumption_value c).

(** The batches of [mid], an unbroken stretch after a barrier. *)
Record stretch (j : Journal) (pre mid : list RunEvent) (cs : list InboxConsumption) : Prop := {
  sr_pre : ends_at_barrier pre;
  sr_mid : Forall (fun e => is_barrier e = false) mid;
  sr_held : Forall2 (holds j) (List.filter is_consumed mid) cs;
}.

(** The messages consumed since the last barrier. *)
Definition logged (j : Journal) (ms : list InboxMessage) : Prop :=
  exists pre mid cs, j_events j = (pre ++ mid)%list /\ stretch j pre mid cs
    /\ concat (map con_messages cs) = ms.

(** An invocation anchored in the journal with the batch it was handed. *)
Definition anchored (j : Journal) (inv : Invocation) (ms : list InboxMessage) : Prop :=
  exists pre mid parent post cs p,
    j_events j = (pre ++ mid ++ parent :: post)%list /\ stretch j pre mid cs
    /\ concat (map con_messages cs) = ms /\ ev_id parent = inv_input_event inv
    /\ ev_kind parent = KNodeInput /\ ev_input parent = Some p
    /\ kept j p (to_value (inv_state inv)).

(** The event kinds only the executor's barrier and inbox boundary record. *)
Definition loud (k : RunEventKind) : bool :=
  match k with KSuperStepEnd | KInboxConsumed => true | _ => false end.

Definition hushed : Journal -> Journal -> Prop :=
  rtc (fun j j' => exists t d id, loud (d_kind d) = false /\ append_event t d j = (id, j')).

(** *** One append *)

Lemma grows_kept (j j' : Journal) (p : PayloadRef) (v : Value) :
  artifacts_grow (j_artifacts j) (j_artifacts j') -> kept j p v -> kept j' p v.
Proof.
  intros Hg [Hr|(b & w & Hb & Hw & Hne)]; [left|right; exists b, w; auto].
  destruct p; simpl in *; auto.
Qed.

Lemma grows_stretch (j j' : Journal) pre mid cs :
  artifacts_grow (j_artifacts j) (j_artifacts j') -> stretch j pre mid cs -> stretch j' pre mid cs.
Proof.
  intros Hg [Hp Hm Hh]. split; [done..|]. eapply Forall2_impl; [exact Hh|].
  intros e c (p & Hp' & Hs). exists p. split; [done|]. by eapply grows_kept.
Qed.

Lemma store_payload_kept (a a' : list (string * Value)) (v : Value) (p : PayloadRef) (j : Journal) :
  store_payload a v = (p, a') -> artifacts_grow a' (j_artifacts j) -> kept j p v.
Proof.
  unfold store_payload. intros Hp Hg. destruct (to_vec v) as [b|] eqn:Hb; [|simplify_eq; by left].
  destruct (_ <=? _)%nat; [simplify_eq; by left|]. simpl in Hp.
  destruct (BTree.get (sha256_hex b) a) as [w|] eqn:Hw; injection Hp as <- <-.
  - destruct (decide (w = v)) as [->|Hne]; [left; simpl; by apply Hg|].
    right. exists b, w. split_and!; [done|by apply Hg|done].
  - left. simpl. apply Hg. by rewrite BTree.get_insert, String.eqb_refl.
Qed.

(** What one append adds. *)
Lemma append_adds (t : DateTime) (d : EventDraft) (j j' : Journal) (id : string) :
  journal_ok j -> append_event t d j = (id, j') ->
  exists e, j_events j' = (j_events j ++ [e])%list /\ ev_kind e = d_kind d /\ ev_id e = id
    /\ artifacts_grow (j_artifacts j) (j_artifacts j')
    /\ (forall v, d_input d = Some v -> exists p, ev_input e = Some p /\ kept j' p v)
    /\ (forall v, d_output d = Some v -> exists p, ev_output e = Some p /\ kept j' p v).
Proof.
  intros [_ _ Hs Hc _] Happ.
  apply append_event_inv in Happ as (i & o & a1 & E1 & E2 & Hev & _).
  destruct (store_payload_opt_spec _ _ _ _ E1 Hs Hc) as (Hs1 & Hc1 & Hg1 & _).
  destruct (store_payload_opt_spec _ _ _ _ E2 Hs1 Hc1) as (_ & _ & Hg2 & _).
  eexists. split; [exact Hev|]. simpl. split_and!; [done|done| | |].
  - intros sha v Hv. by apply Hg2, Hg1.
  - intros v Hv. rewrite Hv in E1. simpl in E1.
    destruct (store_payload (j_artifacts j) v) as [p a] eqn:Hp. injection E1 as <- <-.
    exists p. split; [done|]. by eapply store_payload_kept.
  - intros v Hv. rewrite Hv in E2. simpl in E2.
    destruct (store_payload a1 v) as [p a] eqn:Hp. injection E2 as <- Ha. subst a.
    exists p. split; [done|]. eapply store_payload_kept; [exact Hp|]. by intros ? ?.
Qed.

Lemma stretch_snoc (j : Journal) pre mid cs (e : RunEvent) :
  loud (ev_kind e) = false -> stretch j pre mid cs -> stretch j pre (mid ++ [e]) cs.
Proof.
  intros Hl [Hp Hm Hh]. split; [done| |].
  - apply Forall_app. split; [done|]. constructor; [|constructor].
    unfold is_barrier. apply bool_decide_eq_false. intros Hk. by rewrite Hk in Hl.
  - rewrite List.filter_app. simpl. unfold is_consumed at 2.
    rewrite bool_decide_false by (intros Hk; by rewrite Hk in Hl). by rewrite app_nil_r.
Qed.

Section Laws.
Context `{!CodecLaws}.

Lemma hushed_ok (j j' : Journal) : hushed j j' -> journal_ok j -> journal_ok j'.
Proof.
  induction 1 as [|j j1 j' (t & d & id & _ & Ha) _ IH]; [done|]. intros. apply IH.
  by eapply append_event_ok.
Qed.

Lemma logged_hushed (j j' : Journal) (ms : list InboxMessage) :
  hushed j j' -> journal_ok j -> logged j ms -> logged j' ms.
Proof.
  induction 1 as [|j j1 j' (t & d & id & Hl & Ha) _ IH]; [done|].
  intros Hok (pre & mid & cs & Hev & Hst & Hms). apply IH; [by eapply append_event_ok|].
  apply append_adds in Ha as (e & He & Hk & _ & Hg & _); [|done].
  exists pre, (mid ++ [e])%list, cs. rewrite He, Hev, <- app_assoc. split_and!; [done| |done].
  apply stretch_snoc; [by rewrite Hk|]. by eapply grows_stretch.
Qed.

Lemma logged_barrier (j j' : Journal) (t : DateTime) (d : EventDraft) (id : string) :
  journal_ok j -> d_kind d = KSuperStepEnd -> append_event t d j = (id, j') -> logged j' [].
Proof.
  intros Hok Hk Ha. apply append_adds in Ha as (e & He & Hk' & _); [|done].
  exists (j_events j'), [], []. rewrite app_nil_r. split_and!; [done| |done].
  split; [|constructor|constructor]. right. exists (j_events j), e. split; [done|].
  unfold is_barrier. apply bool_decide_eq_true. congruence.
Qed.

Lemma logged_consumed (j j' : Journal) (t : DateTime) (d : EventDraft) (id : string)
    (c : InboxConsumption) (ms : list InboxMessage) :
  journal_ok j -> d_kind d = KInboxConsumed -> d_output d = Some (consumption_value c) ->
  append_event t d j = (id, j') -> logged j ms -> logged j' (ms ++ con_messages c)%list.
Proof.
  intros Hok Hk Hd Ha (pre & mid & cs & Hev & Hst & Hms).
  apply append_adds in Ha as (e & He & Hk' & _ & Hg & _ & Ho); [|done].
  destruct (Ho _ Hd) as (p & Hp & Hs).
  exists pre, (mid ++ [e])%list, (cs ++ [c])%list. rewrite He, Hev, <- app_assoc.
  split_and!; [done| |].
  2:{ by rewrite map_app, concat_app, Hms, <- (app_nil_r (con_messages c)). }
  eapply grows_stretch in Hst as [Hp' Hm Hh]; [|exact Hg]. split; [done| |].
  - apply Forall_app. split; [done|]. constructor; [|constructor].
    unfold is_barrier. apply bool_decide_eq_false. congruence.
  - rewrite List.filter_app. simpl. unfold is_consumed at 2.
    rewrite bool_decide_true by congruence. apply Forall2_app; [done|].
    constructor; [|constructor]. by exists p.
Qed.

Lemma logged_anchored (j j' : Journal) (t : DateTime) (d : EventDraft) (inv : Invocation)
    (ms : list InboxMessage) :
  journal_ok j -> d_kind d = KNodeInput -> d_input d = Some (to_value (inv_state inv)) ->
  append_event t d j = (inv_input_event inv, j') -> logged j ms -> anchored j' inv ms.
Proof.
  intros Hok Hk Hd Ha (pre & mid & cs & Hev & Hst & Hms).
  apply append_adds in Ha as (e & He & Hk' & Hid & Hg & Hi & _); [|done].
  destruct (Hi _ Hd) as (p & Hp & Hs).
  exists pre, mid, e, [], cs, p. rewrite He, Hev, <- app_assoc.
  split_and!; try done; [by eapply grows_stretch|congruence].
Qed.

Lemma anchored_appends (j j' : Journal) (inv : Invocation) (ms : list InboxMessage) :
  appends j j' -> journal_ok j -> anchored j inv ms -> anchored j' inv ms.
Proof.
  induction 1 as [|j j1 j' (t & d & id & Ha) _ IH]; [done|].
  intros Hok (pre & mid & parent & post & cs & p & Hev & Hst & Hms & Hid & Hk & Hp & Hs).
  apply IH; [by eapply append_event_ok|].
  apply append_adds in Ha as (e & He & _ & _ & Hg & _); [|done].
  exists pre, mid, parent, (post ++ [e])%list, cs, p. rewrite He, Hev, <- !app_assoc.
  split_and!; try done; [by eapply grows_stretch|by eapply grows_kept].
Qed.

(** ** The derived window is the agent's *)

Lemma held_batches (j : Journal) (es : list RunEvent) (cs : list InboxConsumption) :
  Forall2 (holds j) es cs ->
  mapM (batch_of j) es = Some (map con_messages cs)
  \/ exists c, c ∈ cs /\ clashes j (consumption_value c).
Proof.
  induction 1 as [|e c es cs (p & Hp & Hk) _ IH]; [by left|].
  destruct Hk as [Hr|Hc]; [|right; exists c; split; [left|done]].
  destruct IH as [IH|(c' & Hin & Hc)]; [|right; exists c'; split; [by right|done]].
  left. apply mapM_Some. apply mapM_Some in IH. cbn [map]. constructor; [|done].
  unfold batch_of. rewrite Hp. cbn [mbind option_bind]. rewrite Hr. cbn [mbind option_bind].
  by rewrite consumption_roundtrip.
Qed.

Lemma snapshot_of_state (s : State) (h : list ChatMessage) :
  wf_state s -> read_messages s = Ok h -> snapshot_history (to_value s) = Some h.
Proof.
  unfold wf_state, read_messages, snapshot_history, to_value, state_get. intros Hs.
  cbn [vget]. rewrite BTree.from_list_id by done.
  destruct (BTree.get HISTORY_CHANNEL (inner s)); [|by intros [= <-]].
  by destruct (history_from_value _); intros [= <-].
Qed.

(** The payloads a clash among which would hide what was delivered. *)
Definition seam_payload (inv : Invocation) (ms : list InboxMessage) (v : Value) : Prop :=
  v = to_value (inv_state inv)
  \/ exists c, v = consumption_value c /\ forall m, m ∈ con_messages c -> m ∈ ms.

Lemma anchored_derives (j : Journal) (inv : Invocation) (ms : list InboxMessage)
    (h : list ChatMessage) :
  journal_ok j -> anchored j inv ms -> wf_state (inv_state inv) ->
  read_messages (inv_state inv) = Ok h ->
  derive_expected_messages j (inv_input_event inv) = Ok (h ++ map consumed_message ms)%list
  \/ exists v, clashes j v /\ seam_payload inv ms v.
Proof.
  intros Hok (pre & mid & parent & post & cs & p & Hev & [Hp Hm Hh] & Hms & Hid & Hk & Hi & Hs) Hwf Hr.
  destruct Hs as [Hs|Hs]; [|right; eexists; split; [exact Hs|by left]].
  destruct (held_batches _ _ _ Hh) as [Hb|(c & Hc & Hcl)].
  - left. rewrite <- Hid, <- Hms. eapply derive_window; try done.
    + by rewrite Hi.
    + by apply snapshot_of_state.
  - right. eexists. split; [exact Hcl|]. right. exists c. split; [done|]. intros m Hin.
    rewrite <- Hms. apply list_elem_of_In, in_concat. exists (con_messages c).
    split; [by apply in_map, list_elem_of_In|by apply list_elem_of_In].
Qed.
End Laws.
End Agent.

(** ** Computations that leave the barrier and the batches alone *)
Section Hush.
Context `{Codec} {St : Type} `{!Checkpointer St}.
Context {Node : Type} (node_effect : Node -> Effect) (uniq : Sharing) (uuid : nat -> string).

(** The journal grows by quiet events only, and an attached inbox stays. *)
Definition calm (w w' : World St) : Prop :=
  hushed (w_journal w) (w_journal w') /\ (is_Some (w_inbox w) -> is_Some (w_inbox w')).

Definition hushes {A : Type} (m : M St A) : Prop := forall w, calm w (m w).2.

Lemma calm_trans (w w1 w' : World St) : calm w w1 -> calm w1 w' -> calm w w'.
Proof. intros [H1 H2] [H3 H4]. split; [unfold hushed in *; by etrans|auto]. Qed.

Definition quiet_act (a : EnvAction) : bool :=
  match a with EnvRecord d => negb (loud (d_kind d)) | _ => true end.

(** Node code and outside code record no barrier and no consumption. *)
Record quiet_env (env : StepEnv) : Prop := {
  qe_boundary : forallb quiet_act (se_boundary env) = true;
  qe_settled : forallb quiet_act (se_settled env) = true;
  qe_compute : forall i, forallb quiet_act (se_compute env i) = true;
  qe_barrier : forall invs, forallb quiet_act (se_barrier env invs) = true;
  qe_route : forallb quiet_act (se_route env) = true;
}.

Lemma hushes_bind {A B : Type} (m : M St A) (f : A -> M St B) :
  hushes m -> (forall a, hushes (f a)) -> hushes (m ≫= f).
Proof.
  intros Hm Hf w. rewrite bind_world. specialize (Hm w).
  destruct (m w) as [[a|e|] w']; simpl in *; [|done|done]. eapply calm_trans; [exact Hm|apply Hf].
Qed.

Lemma hushes_same {A : Type} (m : M St A) :
  (forall w, w_journal (m w).2 = w_journal w
             /\ (is_Some (w_inbox w) -> is_Some (w_inbox (m w).2))) -> hushes m.
Proof. intros Hm w. destruct (Hm w) as [Hj Hi]. split; [rewrite Hj; apply rtc_refl|done]. Qed.

Lemma hushes_ret {A : Type} (a : A) : hushes (mret a : M St A).
Proof. by apply hushes_same. Qed.

Lemma hushes_lift {A : Type} (r : res A) : hushes (lift r : M St A).
Proof. by apply hushes_same. Qed.

Lemma hushes_fail {A : Type} (e : RustyError) : hushes (fail e : M St A).
Proof. by apply hushes_same. Qed.

Lemma hushes_gets {A : Type} (f : World St -> A) : hushes (gets f).
Proof. by apply hushes_same. Qed.

Lemma hushes_clock h : hushes (clock_now h : M St DateTime).
Proof. apply hushes_same. intros w. unfold clock_now. by destruct (read_clock _ _). Qed.

Lemma hushes_uuid : hushes (uuid_string uuid : M St string).
Proof. by apply hushes_same. Qed.

Lemma hushes_emit config e : hushes (emit config e : M St unit).
Proof.
  apply hushes_same. intros w. unfold emit. simpl. destruct (cf_event_tx config) as [room|]; [|done].
  by destruct (room _).
Qed.

Lemma hushes_set_inbox ib : hushes (set_inbox ib : M St unit).
Proof. apply hushes_same. simpl. eauto. Qed.

Lemma hushes_put c : hushes (put_checkpoint c : M St unit).
Proof.
  apply hushes_same. intros w. unfold put_checkpoint. destruct (w_store w) as [st|]; [|done].
  by destruct (put c st).
Qed.

Lemma record_hushed (d : EventDraft) (cs cs' : Clocks) (j j' : Journal) (id : string) :
  loud (d_kind d) = false -> record d cs j = (id, cs', j') -> hushed j j'.
Proof.
  intros Hl. unfold record. destruct (read_clock (j_clock j) cs) as [t cs2].
  destruct (append_event t d j) as [id' j2] eqn:E. intros [= <- <- <-].
  apply rtc_once. by exists t, d, id'.
Qed.

Lemma hushes_record d : loud (d_kind d) = false -> hushes (record_event d : M St string).
Proof.
  intros Hl w. unfold record_event. destruct (record _ _ _) as [[id cs] j] eqn:E.
  split; [by eapply record_hushed|done].
Qed.

Lemma settle_one_hushed (parent : option string) (s : Settling) (m : InboxMessage) :
  hushed (st_journal s) (st_journal (settle_one parent s m)).
Proof.
  unfold settle_one. destruct (record _ _ _) as [[id cs] j] eqn:E. simpl.
  eapply record_hushed; [|exact E]. by destruct (st_last s), parent.
Qed.

Lemma settle_hushed (parent : option string) (ib : Inbox) cs j :
  hushed j (st_journal (settle parent ib cs j)).
Proof.
  unfold settle. set (s := mkSettling None ib cs j).
  change j with (st_journal s) at 1. clearbody s. unfold hushed.
  destruct (ib_source ib) as [|points].
  - revert s. induction (ib_pending ib) as [|m p IH]; intros s; [apply rtc_refl|].
    simpl. etrans; [|apply IH].
    apply (settle_one_hushed parent (mkSettling (st_last s) (set_pending p (st_inbox s))
                                       (st_clocks s) (st_journal s))).
  - revert s. induction points as [|[seq m|] p IH]; intros s; [apply rtc_refl| |apply rtc_refl].
    simpl. destruct (_ <=? _)%N; [|apply rtc_refl]. etrans; [|apply IH].
    apply (settle_one_hushed parent (mkSettling (st_last s) (set_source (Inbox.Replay p) (st_inbox s))
                                       (st_clocks s) (st_journal s))).
Qed.

Lemma hushes_settle parent ib : hushes (settle_inbox parent ib : M St _).
Proof. intros w. split; [apply settle_hushed|simpl; eauto]. Qed.

Lemma hushes_store {A : Type} (yes no : M St A) :
  hushes yes -> hushes no -> hushes (with_store yes no).
Proof. intros Hy Hn w. unfold with_store. destruct (w_store w); [apply Hy|apply Hn]. Qed.

Hint Resolve hushes_ret hushes_lift hushes_fail hushes_gets hushes_clock hushes_uuid
  hushes_emit hushes_set_inbox hushes_put hushes_settle : executor.

Ltac hushes :=
  repeat lazymatch goal with
  | |- forall _, _ => intro
  | |- hushes (_ ≫= _) => apply hushes_bind
  | |- hushes (with_store _ _) => apply hushes_store
  | |- hushes (record_event (opt_parent ?p _)) => apply hushes_record; by destruct p
  | |- hushes (record_event _) => apply hushes_record; done
  | |- hushes (match ?x with _ => _ end) => destruct x
  | |- hushes _ => solve [eauto with executor]
  end.

Lemma hushes_mint rc thread step s next ibx :
  hushes (mint_checkpoint uuid rc thread step s next ibx : M St Checkpoint).
Proof. unfold mint_checkpoint, clock_now_ms. hushes. Qed.

Lemma hushes_env_act rc n a ts : quiet_act a = true -> hushes (env_act rc n a ts : M St Tasks).
Proof.
  intros Hq. unfold env_act. destruct a; hushes.
  apply hushes_record. by apply negb_true_iff in Hq.
Qed.

Lemma hushes_env_run rc n acts : forallb quiet_act acts = true ->
  forall ts, hushes (env_run rc n acts ts : M St Tasks).
Proof.
  induction acts as [|a acts IH]; intros Hq ts; simpl; [hushes|].
  simpl in Hq. apply andb_prop in Hq as [Ha Hq].
  apply hushes_bind; [by apply hushes_env_act|]. intros. by apply IH.
Qed.

Hint Resolve hushes_mint : executor.

Lemma hushes_barrier config rc step invs acts : forallb quiet_act acts = true ->
  forall left ts joined c, hushes (barrier config rc step invs acts left ts joined c : M St _).
Proof.
  induction acts as [|a acts IH]; intros Hq [|left] ts joined c; simpl; try apply hushes_ret.
  { by apply hushes_same. }
  simpl in Hq. apply andb_prop in Hq as [Ha Hq]. specialize (IH Hq).
  assert (Hj : forall f, hushes (join_one config step invs f c : M St _))
    by (intros f; unfold join_one; hushes).
  destruct a; try (apply hushes_bind; [by apply hushes_env_act|intros; apply IH]).
  hushes.
Qed.

Lemma hushes_outputs invs completed :
  forall last, hushes (journal_outputs invs completed last : M St _).
Proof. induction completed as [|[[[? ?] ?] ?] ? IH]; simpl; hushes. Qed.

Lemma hushes_suspend config rc s active step d invs i name v :
  hushes (suspend_step uuid config rc s active step d invs i name v : M St _).
Proof. unfold suspend_step. hushes. Qed.

Lemma hushes_declare config rc : hushes (declare config rc : M St _).
Proof. unfold declare. hushes. Qed.

Lemma hushes_start (g : Graph Node) config rc s0 : hushes (start g config rc s0 : M St _).
Proof.
  unfold start. assert (hushes (restore_point config : M St Checkpoint)).
  { apply hushes_same. intros w. unfold restore_point. by destruct (w_store w). }
  hushes.
Qed.

(** ** The carried batch over a run *)
Section Tracking.
Context `{!CodecLaws}.

(** The journal is sound and shows [ms] as consumed since the last barrier. *)
Definition tracked (w : World St) (ms : list InboxMessage) : Prop :=
  journal_ok (w_journal w) /\ logged (w_journal w) ms.

Lemma tracked_calm (w w' : World St) ms : calm w w' -> tracked w ms -> tracked w' ms.
Proof. intros [Hh _] [Hok Hl]. split; [by eapply hushed_ok|by eapply logged_hushed]. Qed.

Lemma hushes_calm {A : Type} (m : M St A) (w w' : World St) r :
  hushes m -> m w = (r, w') -> calm w w'.
Proof. intros Hm E. specialize (Hm w). by rewrite E in Hm. Qed.

Lemma record_appends (d : EventDraft) (w w' : World St) id :
  record_event d w = (Ret id, w') ->
  w_inbox w' = w_inbox w
  /\ exists t, append_event t d (w_journal w) = (id, w_journal w').
Proof.
  unfold record_event, record. destruct (read_clock _ _) as [t cs].
  destruct (append_event t d (w_journal w)) as [id' j'] eqn:E. intros [= <- <-].
  split; [done|]. by exists t.
Qed.

Lemma tracked_barrier d (w w' : World St) id :
  d_kind d = KSuperStepEnd -> record_event d w = (Ret id, w') -> journal_ok (w_journal w) ->
  tracked w' [].
Proof.
  intros Hk [_ [t Ha]]%record_appends Hok. split; [by eapply append_event_ok|].
  by eapply logged_barrier.
Qed.

Lemma tracked_consumed d c (w w' : World St) id ms :
  d_kind d = KInboxConsumed -> d_output d = Some (consumption_value c) ->
  record_event d w = (Ret id, w') -> tracked w ms -> tracked w' (ms ++ con_messages c)%list.
Proof.
  intros Hk Ho [_ [t Ha]]%record_appends [Hok Hl]. split; [by eapply append_event_ok|].
  by eapply logged_consumed.
Qed.

(** The batch carried by the loop: what the journal shows, and only with an
    inbox attached. *)
Definition carries (w : World St) (ms : list InboxMessage) : Prop :=
  tracked w ms /\ (ms = [] \/ is_Some (w_inbox w)).

Lemma carries_calm (w w' : World St) ms : calm w w' -> carries w ms -> carries w' ms.
Proof.
  intros Hc [Ht Hi]. split; [by eapply tracked_calm|]. destruct Hc as [_ Hc]. naive_solver.
Qed.

Lemma turn_end_carries (g : Graph Node) step ev next (w w' : World St) next' ext p :
  turn_end g step ev next w = (Ret (next', ext, p), w') -> tracked w [] -> carries w' ext.
Proof.
  intros Hte Ht. unfold turn_end in Hte. destruct next as [|t ts];
    [|simplify_run; split; [done|by left]].
  apply bind_Ret in Hte as (o & w1 & Hg & Hte). injection Hg as <- <-.
  destruct (w_inbox w) as [ib|]; [|simplify_run; split; [done|by left]].
  apply bind_Ret in Hte as (last & w1 & H1 & Hte).
  apply (tracked_calm _ w1) in Ht; [|eapply hushes_calm; [apply hushes_settle|exact H1]].
  apply bind_Ret in Hte as (ib1 & w2 & Hg & Hte). injection Hg as <- <-.
  destruct (drain_followups _) as [followups ib2].
  apply bind_Ret in Hte as ([] & w3 & H3 & Hte).
  apply (tracked_calm _ w3) in Ht; [|eapply hushes_calm; [apply hushes_set_inbox|exact H3]].
  destruct followups as [|f fs]; [simplify_run; split; [done|by left]|].
  destruct (drain_staged ib2) as [staged ib3].
  apply bind_Ret in Hte as ([] & w4 & H4 & Hte).
  assert (Hib : is_Some (w_inbox w4)) by (injection H4 as <-; simpl; eauto).
  apply (tracked_calm _ w4) in Ht; [|eapply hushes_calm; [apply hushes_set_inbox|exact H4]].
  apply bind_Ret in Hte as (id & w5 & H5 & Hte). injection Hte as <- <- <- <-.
  split.
  - eapply (tracked_consumed _ (mkConsumption TurnExtension step ((f :: fs) ++ staged)%list)
              _ _ _ []); [| |exact H5|exact Ht]; done.
  - right. apply record_appends in H5 as [-> _]. done.
Qed.

Lemma inbox_boundary_delivers config rc ls n acts (w w' : World St) d ls1 :
  forallb quiet_act acts = true ->
  inbox_boundary uuid config rc ls n acts w = (Ret (d, ls1), w') ->
  carries w (ls_carried ls) -> tracked w' d /\ ls_carried ls1 = [].
Proof.
  intros Hq Hb [Ht Hi]. unfold inbox_boundary in Hb.
  apply bind_Ret in Hb as (o & w1 & Hg & Hb). injection Hg as <- <-.
  destruct (w_inbox w) as [ib|]; [|destruct Hi as [Hi|[? Hi]]; [|done]; rewrite Hi in Ht;
    simplify_run; done].
  apply bind_Ret in Hb as (last & w1 & H1 & Hb).
  apply (tracked_calm _ w1) in Ht; [|eapply hushes_calm; [apply hushes_settle|exact H1]].
  apply bind_Ret in Hb as (ts & w2 & H2 & Hb).
  apply (tracked_calm _ w2) in Ht; [|eapply hushes_calm; [by apply hushes_env_run|exact H2]].
  apply bind_Ret in Hb as (ib1 & w3 & Hg & Hb). injection Hg as <- <-.
  apply bind_Ret in Hb as (len & w3 & Hg & Hb). injection Hg as <- <-.
  destruct (take_cancel _ _) as [request ib2].
  apply bind_Ret in Hb as ([] & w4 & H4 & Hb).
  apply (tracked_calm _ w4) in Ht; [|eapply hushes_calm; [apply hushes_set_inbox|exact H4]].
  destruct request as [[cause keep]|].
  { unfold cancel_run in Hb. case_match. by simplify_run. }
  destruct (drain_steering ib2) as [steering ib3].
  destruct (if _ || _ then _ else _) as [staged ib4].
  apply bind_Ret in Hb as ([] & w5 & H5 & Hb).
  apply (tracked_calm _ w5) in Ht; [|eapply hushes_calm; [apply hushes_set_inbox|exact H5]].
  apply bind_Ret in Hb as ([] & w6 & H6 & Hb). injection Hb as <- <- <-.
  split; [|done]. destruct (steering ++ staged)%list as [|m ms] eqn:Hm.
  - injection H6 as <-. by rewrite app_nil_r.
  - apply bind_Ret in H6 as (id & w7 & H6 & Hr). injection Hr as <-.
    eapply (tracked_consumed _ (mkConsumption _ (ls_step ls) (m :: ms)));
      [| |exact H6|exact Ht]; by destruct last, (ls_step_parent ls).
Qed.

(** *** The invocations of a super-step *)

Lemma node_extra_delivery config ev started (d : list InboxMessage) :
  BTree.get INBOX_DELIVERY_KEY (node_extra config ev started d)
  = match d with [] => None | _ => Some (Array (map message_value d)) end.
Proof.
  unfold node_extra. rewrite !get_from_list_app, !get_jopt.
  destruct (cf_compaction_state config), d; reflexivity.
Qed.

(** What a spawned invocation is handed. *)
Record handed (j : Journal) (d : list InboxMessage) (inv : Invocation) : Prop := {
  hd_anchored : anchored j inv d;
  hd_wf : wf_state (inv_state inv);
  hd_window : forall h, read_messages (inv_state inv) = Ok h ->
    agent_window (inv_state inv) (inv_config inv) = Ok (h ++ map consumed_message d)%list;
}.

Lemma window_of config ev started thread step resume (d : list InboxMessage) (s : State) h :
  read_messages s = Ok h ->
  agent_window s (mkNodeConfig thread step resume (node_extra config ev started d))
  = Ok (h ++ map consumed_message d)%list.
Proof.
  intros Hr. unfold agent_window. rewrite Hr. cbn [cfg_extra]. rewrite node_extra_delivery.
  destruct d as [|m d]; [done|]. cbn [mbind]. by rewrite inbox_messages_roundtrip.
Qed.

Lemma overlay_wf (task : ActiveTask) (s s' : State) :
  overlay task s = Ok s' -> wf_state s -> wf_state s'.
Proof.
  unfold overlay. destruct (task_scoped task) as [[| | | | |m]|]; try done;
    [|by intros [= <-]]. intros [= <-]. revert s.
  induction m as [|kv m IH]; intros s Hs; simpl; [done|]. apply IH.
  unfold wf_state, state_insert in *. simpl. auto with rusty.
Qed.

Lemma handed_appends (j j' : Journal) d inv :
  appends j j' -> journal_ok j -> handed j d inv -> handed j' d inv.
Proof. intros Ha Hok [H1 H2 H3]. split; [by eapply anchored_appends|done|done]. Qed.

Lemma hushed_appends (j j' : Journal) : hushed j j' -> appends j j'.
Proof. apply rtc_subrel. intros x y (t & d & id & _ & Ha). eauto. Qed.

Lemma spawn_all_handed (g : Graph Node) config rc s step resume ev started d env tasks :
  (forall i, forallb quiet_act (env i) = true) -> wf_state s ->
  forall i ts (w w' : World St) invs ts',
    spawn_all node_effect g config rc s step resume ev started d env tasks i ts w
      = (Ret (invs, ts'), w') ->
    tracked w d -> tracked w' d /\ Forall (handed (w_journal w') d) invs.
Proof.
  intros Hq Hs. induction tasks as [|task tasks IH]; intros i ts w w' invs ts' Hsp Ht.
  { injection Hsp as <- <- <-. split; [done|constructor]. }
  cbn [spawn_all] in Hsp. apply bind_Ret in Hsp as (ts1 & w1 & H1 & Hsp).
  apply (tracked_calm _ w1) in Ht; [|eapply hushes_calm; [by apply hushes_env_run|exact H1]].
  apply bind_Ret in Hsp as (nd & w2 & H2 & Hsp).
  assert (w2 = w1) as -> by (unfold lift in H2; congruence).
  apply bind_Ret in Hsp as (ns & w3 & H3 & Hsp). unfold lift in H3.
  destruct (overlay task s) as [s'|] eqn:Ho; [|done]. injection H3 as <- <-.
  apply bind_Ret in Hsp as (id & w4 & H4 & Hsp).
  pose proof H4 as Hrec. apply record_appends in Hrec as [_ [t Ha]].
  assert (Ht4 : tracked w4 d)
    by (eapply tracked_calm; [eapply hushes_calm; [|exact H4]; by apply hushes_record|done]).
  apply bind_Ret in Hsp as ([] & w5 & H5 & Hsp).
  apply bind_Ret in Hsp as ([more ts2] & w6 & H6 & Hsp). injection Hsp as <- <- <-.
  assert (Hc5 : calm w4 w5) by (eapply hushes_calm; [apply hushes_emit|exact H5]).
  destruct (IH _ _ _ _ _ _ H6) as [Ht6 Hmore]; [by eapply tracked_calm|].
  split; [done|]. constructor; [|done].
  apply (handed_appends (w_journal w4)); [|apply Ht4|].
  - unfold appends. etrans; [apply hushed_appends, Hc5|].
    pose proof (keeps_spawn_all node_effect rc rc (cf_thread_id config) g config s step resume ev
                  started d env tasks (S i) ts1 w5) as Hk.
    rewrite H6 in Hk. by apply wsteps_effects in Hk as [Hk _].
  - split; simpl; [|eapply overlay_wf; [exact Ho|done]|intros h; apply window_of].
    eapply (logged_anchored (w_journal w1)); [apply Ht|..|exact Ha|apply Ht]; done.
Qed.

(** *** The loop *)

Lemma complete_step_carries (g : Graph Node) spec config rc s step env ev invs c
    (w w' : World St) s' next route ext ms :
  forallb quiet_act env = true ->
  complete_step uniq uuid g spec config rc s step env ev invs c w
    = (Ret (s', Next next route ext), w') ->
  tracked w ms -> wf_state s -> carries w' ext /\ wf_state s'.
Proof.
  intros Hq Hc Ht Hs. unfold complete_step in Hc.
  apply bind_Ret in Hc as (last & w1 & H1 & Hc).
  apply (tracked_calm _ w1) in Ht; [|eapply hushes_calm; [apply hushes_outputs|exact H1]].
  apply bind_Ret in Hc as (st & w2 & H2 & Hc). unfold lift in H2.
  assert (wf_state st /\ w2 = w1) as [Hwf ->].
  { unfold apply_super_step in H2. destruct (check_writes _ _ _ _); [|done].
    injection H2 as <- <-. split; [by apply merge_writes_wf|done]. }
  clear H2. apply bind_Ret in Hc as (id & w3 & H3 & Hc).
  assert (Ht3 : tracked w3 []) by (eapply tracked_barrier; [|exact H3|apply Ht]; done).
  apply bind_Ret in Hc as ([] & w4 & H4 & Hc).
  apply (tracked_calm _ w4) in Ht3.
  2:{ eapply hushes_calm; [|exact H4].
      destruct (merged_updates _ _); [apply hushes_ret|apply hushes_emit]. }
  apply bind_Ret in Hc as (routed & w5 & H5 & Hc).
  apply (tracked_calm _ w5) in Ht3; [|eapply hushes_calm; [apply hushes_lift|exact H5]].
  apply bind_Ret in Hc as (ts & w6 & H6 & Hc).
  apply (tracked_calm _ w6) in Ht3; [|eapply hushes_calm; [|exact H6]; by apply hushes_env_run].
  apply bind_Ret in Hc as ([[next' ext'] p] & w7 & H7 & Hc).
  pose proof (turn_end_carries _ _ _ _ _ _ _ _ _ H7 Ht3) as Hcar.
  apply bind_Ret in Hc as (rev & w8 & H8 & Hc).
  apply (carries_calm _ w8) in Hcar; [|eapply hushes_calm; [|exact H8]; by apply hushes_record].
  apply bind_Ret in Hc as ([] & w9 & H9 & Hc).
  apply (carries_calm _ w9) in Hcar.
  2:{ eapply hushes_calm; [|exact H9]. unfold clock_now_ms. hushes. }
  destruct next' as [|x xs]; [by simplify_run|]. injection Hc as <- <- <- <- <-. done.
Qed.

Lemma super_step_carries (g : Graph Node) spec config rc s active step resume parent d started
    env (w w' : World St) s' next route ext invs :
  quiet_env env ->
  execute_super_step node_effect uniq uuid g spec config rc s active step resume parent d started
    env w = (Ret (s', Next next route ext, invs), w') ->
  tracked w d -> wf_state s -> carries w' ext /\ wf_state s'.
Proof.
  intros [Hq1 Hq2 Hq3 Hq4 Hq5] Hx Ht Hs. unfold execute_super_step in Hx.
  apply bind_Ret in Hx as ([] & w1 & H1 & Hx).
  apply (tracked_calm _ w1) in Ht; [|eapply hushes_calm; [apply hushes_emit|exact H1]].
  apply bind_Ret in Hx as (ev & w2 & H2 & Hx).
  apply (tracked_calm _ w2) in Ht;
    [|eapply hushes_calm; [|exact H2]; apply hushes_record; by destruct parent].
  apply bind_Ret in Hx as ([spawned ts] & w3 & H3 & Hx).
  eapply spawn_all_handed in H3 as [Ht3 _]; [|done..|exact Ht].
  apply bind_Ret in Hx as (b & w4 & H4 & Hx).
  apply (tracked_calm _ w4) in Ht3; [|eapply hushes_calm; [|exact H4]; by apply hushes_barrier].
  destruct b as [c|i n v].
  - apply bind_Ret in Hx as ([st t] & w5 & H5 & Hx). injection Hx as -> -> <- <-.
    by eapply complete_step_carries.
  - apply bind_Ret in Hx as (t & w5 & H5 & Hx). injection Hx as <- -> <- <-.
    unfold suspend_step in H5. by simplify_run.
Qed.

Lemma loop_step_carries (g : Graph Node) spec config rc started ls n env (w w' : World St) ls' :
  quiet_env env -> carries w (ls_carried ls) -> wf_state (ls_state ls) ->
  loop_step node_effect uniq uuid g spec config rc started ls n env w = (Ret (inr ls'), w') ->
  carries w' (ls_carried ls') /\ wf_state (ls_state ls').
Proof.
  intros Hq Hc Hs Hl. unfold loop_step in Hl. apply bind_Ret in Hl as (ts & w1 & H1 & Hl).
  apply (carries_calm _ w1) in Hc;
    [|eapply hushes_calm; [|exact H1]; apply hushes_env_run; apply Hq].
  apply bind_Ret in Hl as ([d ls1] & w2 & H2 & Hl). destruct (se_cancelled env); [done|].
  destruct (RunLoop.boundary_keeps _ _ _ _ _ _ _ _ _ _ H2) as (Hst & _).
  eapply inbox_boundary_delivers in H2 as [Ht2 Hd]; [|apply Hq|done].
  apply bind_Ret in Hl as ([[s' t] invs] & w3 & H3 & Hl).
  apply bind_Ret in Hl as ([[verdict spend'] seen'] & w4 & H4 & Hl). injection H4 as Hv <-.
  apply bind_Ret in Hl as ([] & w5 & H5 & Hl). unfold lift in H5.
  destruct verdict as [[]|]; [|done]. injection H5 as <-.
  destruct t as [next route ext|o]; [|by simplify_run]. injection Hl as <- <-. simpl.
  eapply super_step_carries in H3 as [Hc3 Hs3]; [|done..|by rewrite Hst]. rewrite Hd.
  by destruct ext.
Qed.

(** *** Whole runs *)
Section Runs.
Context (g : Graph Node) (spec : StateSpec) (config : RunConfig) (env : nat -> StepEnv).

(** The run up to its loop: setup, start or restore, declaration. *)
Definition enters (s0 : State) (w : World St) (rc : Recorder) (started : option DateTime)
    (ls : LoopState) (w' : World St) : Prop :=
  exists rc0 w1 w2,
    setup uuid g config w = (Ret rc0, w1) /\ start g config rc0 s0 w1 = (Ret (rc, ls), w2)
    /\ declare config rc w2 = (Ret started, w').

(** The loop after [n] super-steps, as [run_loop] iterates it. *)
Inductive loop_at (rc : Recorder) (started : option DateTime) (ls0 : LoopState) (w0 : World St) :
    nat -> LoopState -> World St -> Prop :=
| at_entry : loop_at rc started ls0 w0 0 ls0 w0
| at_next n ls w spend seen ls' w' :
    loop_at rc started ls0 w0 n ls w ->
    check_spend config (w_journal w) (ls_spend ls) (ls_seen ls) = (Ok (), spend, seen) ->
    loop_step node_effect uniq uuid g spec config rc started
      (mkLoop (ls_state ls) (ls_active ls) (ls_step ls) (ls_pending_resume ls)
         (ls_step_parent ls) (ls_carried ls) (ls_turn_start ls) spend seen) n (env n) w
      = (Ret (inr ls'), w') ->
    loop_at rc started ls0 w0 (S n) ls' w'.

(** The opening of an iteration: everything before the spawned tasks run. *)
Definition step_opening (rc : Recorder) (started : option DateTime) (ls : LoopState) (n : nat) :
    M St (list InboxMessage * list Invocation) :=
  env_run rc 0 (se_boundary (env n)) no_tasks;;
  b ← inbox_boundary uuid config rc ls n (se_settled (env n));
  let '(delivery, ls1) := b : list InboxMessage * LoopState in
  emit config (SuperStep (ls_step ls1) (map task_name (ls_active ls1)));;
  ev ← record_event
    (opt_parent (ls_step_parent ls1)
       (with_input (jobj [("step", jnat (ls_step ls1));
                          ("active_nodes", jstrs (map task_name (ls_active ls1)))])
          (draft_new KSuperStepStart Pure)));
  spawned ← spawn_all node_effect g config rc (ls_state ls1) (ls_step ls1)
              (ls_pending_resume ls1) ev started delivery (se_compute (env n)) (ls_active ls1) 0
              no_tasks;
  mret (delivery, spawned.1).

(** The attached journal shows nothing consumed since its last barrier. *)
Definition settled_journal : Prop :=
  forall j, cf_journal config = Some j -> journal_ok j /\ logged j [].

Lemma enters_carries s0 (w w' : World St) rc started ls :
  settled_journal -> enters s0 w rc started ls w' -> tracked w' [].
Proof.
  intros Hj (rc0 & w1 & w2 & H1 & H2 & H3).
  destruct (setup_spec uuid g config w) as (rc1 & w1' & H1' & _ & Hj1 & _).
  rewrite H1 in H1'. injection H1' as <- <-.
  assert (Ht : tracked w1 []).
  { unfold tracked. rewrite Hj1. unfold run_journal. destruct (cf_journal config) as [j|] eqn:Ej.
    - by apply Hj.
    - split; [apply journal_new_ok|]. exists [], [], []. split_and!; [done| |done].
      split; [by left|constructor|constructor]. }
  apply (tracked_calm _ w2) in Ht; [|eapply hushes_calm; [apply hushes_start|exact H2]].
  eapply tracked_calm; [|exact Ht]. eapply hushes_calm; [apply hushes_declare|exact H3].
Qed.

Lemma loop_at_carries rc started ls0 (w0 : World St) n ls w :
  (forall k, quiet_env (env k)) -> carries w0 (ls_carried ls0) -> wf_state (ls_state ls0) ->
  loop_at rc started ls0 w0 n ls w -> carries w (ls_carried ls) /\ wf_state (ls_state ls).
Proof.
  intros Hq Hc Hs. induction 1 as [|n ls w spend seen ls' w' _ IH _ Hl]; [done|].
  destruct IH as [Hc' Hs']. by eapply loop_step_carries in Hl.
Qed.

Lemma opening_handed rc started ls n (w w' : World St) d invs :
  quiet_env (env n) -> carries w (ls_carried ls) -> wf_state (ls_state ls) ->
  step_opening rc started ls n w = (Ret (d, invs), w') ->
  journal_ok (w_journal w') /\ Forall (handed (w_journal w') d) invs.
Proof.
  intros Hq Hc Hs Ho. unfold step_opening in Ho. apply bind_Ret in Ho as (ts & w1 & H1 & Ho).
  apply (carries_calm _ w1) in Hc;
    [|eapply hushes_calm; [|exact H1]; apply hushes_env_run; apply Hq].
  apply bind_Ret in Ho as ([d' ls1] & w2 & H2 & Ho).
  destruct (RunLoop.boundary_keeps _ _ _ _ _ _ _ _ _ _ H2) as (Hst & _).
  eapply inbox_boundary_delivers in H2 as [Ht Hd]; [|apply Hq|done].
  apply bind_Ret in Ho as ([] & w3 & H3 & Ho).
  apply (tracked_calm _ w3) in Ht; [|eapply hushes_calm; [apply hushes_emit|exact H3]].
  apply bind_Ret in Ho as (ev & w4 & H4 & Ho).
  apply (tracked_calm _ w4) in Ht;
    [|eapply hushes_calm; [|exact H4]; apply hushes_record; by destruct (ls_step_parent ls1)].
  apply bind_Ret in Ho as ([spawned ts'] & w5 & H5 & Ho). injection Ho as <- <- <-. simpl.
  eapply spawn_all_handed in H5 as [[Hok _] Hh]; [done|apply Hq|by rewrite Hst|done].
Qed.

End Runs.
End Tracking.
End Hush.

(** ** Concrete requests through the checker

    A one-step run with a steering message, the request its agent sends, a
    tampered request, a refusal whose report panics, and the two ways a resumed
    run disagrees with its journal about the batch of the suspended step. *)

From Stdlib Require Import Ascii.
From S2P Require Import ExecutorExamples.

Module SeamExamples.
Import Sample ExecutorExamples.

(** A conversation of one message, and a steering message on its way. *)
Definition hello : State := mkState [("messages", Array [chat_message_value (msg_user "hi")])].
Definition boxed : Inbox := (send "ops" NextStep true (Str "hurry") inbox_new).2.
Definition boxed_world : World InMemoryCheckpointer :=
  mkWorld clocks (journal_new "run" "thread" 0) 0 (Some boxed) (Some (mkMem ∅)) [].

Definition plain (resume : option Value) (journal : option Journal) : RunConfig :=
  mkRunConfig "thread" 5 resume None None None journal None None None None None None None None
    None None None None None None None None None None false None.

Definition quiet (k : nat) : StepEnv :=
  schedule (fun _ => [EnvStart 0; EnvFinish 0 (asks 0); EnvJoin]).

Lemma quiet_ok (k : nat) : quiet_env (quiet k).
Proof. by split. Qed.

(** A run up to its loop, and the opening of its first super-step. *)
Definition entry (config : RunConfig) (w : World InMemoryCheckpointer) :
    Run (Recorder * LoopState * option DateTime) * World InMemoryCheckpointer :=
  (rc0 ← setup uuid graph config;
   started ← start graph config rc0 hello;
   let '(rc, ls) := started : Recorder * LoopState in
   at_ ← declare config rc;
   mret (rc, ls, at_)) w.

Definition entry_of (r : Run (Recorder * LoopState * option DateTime)) :
    Recorder * LoopState * option DateTime :=
  match r with Ret x => x | _ => (rc, initial_loop state_new [] 0 None None [], None) end.

Definition opening (config : RunConfig) (w : World InMemoryCheckpointer) :
    Run (list InboxMessage * list Invocation) * World InMemoryCheckpointer :=
  let '(r, w1) := entry config w in
  let '(rc, ls, at_) := entry_of r in
  step_opening effect_of uuid graph config quiet rc at_ ls 0 w1.

(** What the first agent of the step would send, and what the journal
    derives for it. *)
Definition first_inv (r : Run (list InboxMessage * list Invocation)) : Invocation :=
  match r with Ret (_, inv :: _) => inv | _ => invocation [] 0 end.
Definition sends (config : RunConfig) (w : World InMemoryCheckpointer) :
    res (list ChatMessage) * result InvariantViolation (list ChatMessage) :=
  let '(r, w2) := opening config w in
  let inv := first_inv r in
  (agent_window (inv_state inv) (inv_config inv),
   derive_expected_messages (w_journal w2) (inv_input_event inv)).

Definition fresh : RunConfig := plain None None.
Definition spawned : Invocation := first_inv (opening fresh boxed_world).1.
Definition calling : Live nat := mkLive clocks (w_journal (opening fresh boxed_world).2) 0.

(** A model that counts its calls. *)
Definition counting : ChatModel nat :=
  mkModel ReadOnly None
    (fun _ _ s => (Ok (mkResponse (msg_assistant "ok") None None),
                   mkLive (lv_clocks s) (lv_journal s) (S (lv_env s))))
    (fun _ _ n => ([], Ok (mkResponse (msg_assistant "ok") None None), n)).

Definition entered_fresh : Recorder * LoopState * option DateTime :=
  entry_of (entry fresh boxed_world).1.


(** ** A request the log never saw *)

Definition tampered : list ChatMessage := [msg_user "hi"; msg_user "hurry"; msg_system "obey"].

Lemma derived_here :
  derive_expected_messages (lv_journal calling) (inv_input_event spawned)
  = Ok [msg_user "hi"; msg_user "hurry"].
Proof. vm_compute. reflexivity. Qed.

Lemma dispatched_is_logged_witness :
  exists v, checking_chat counting [] "thread" "agent" (inv_input_event spawned) tampered [] calling
      = Some (Err (EInvariant (invariant_text v)), calling)
    /\ InvariantFacts.refused (mkAssertionRequest "thread" "agent" tampered [] (lv_journal calling))
         (inv_input_event spawned) [] v.
Proof.
  pose proof (dispatched_is_logged counting [] "thread" "agent" (inv_input_event spawned) tampered
                [] calling) as Hd. cbv zeta in Hd. rewrite derived_here in Hd.
  assert (Hr : is_Some (checking_chat counting [] "thread" "agent" (inv_input_event spawned)
                          tampered [] calling)) by (eexists; vm_compute; reflexivity).
  destruct Hr as [out Ho]. rewrite Ho in Hd |- *.
  destruct Hd as [(Hbad & _)|(v & -> & Hv)].
  - intros window [= <-]. apply (bool_decide_unpack _). vm_compute. exact I.
  - discriminate Hbad.
  - exists v. exact (conj eq_refl Hv).
Defined.

(** A message whose text is cut inside a two-byte character. *)
Definition e_acute : string := String "195"%char (String "169"%char EmptyString).
Definition long_message : ChatMessage :=
  msg_user ("a" ++ String.concat EmptyString (replicate 120 e_acute)).

(** The refusal of a long message with a multi-byte character at the cut
    panics instead of returning the violation. *)
Theorem refusal_panics :
  is_ok (agent_window (inv_state spawned) (inv_config spawned)) = true
  /\ checking_chat counting [] "thread" "agent" (inv_input_event spawned)
       [msg_user "hi"; long_message] [] calling = None.
Proof. split; vm_compute; reflexivity. Qed.

(** ** Resumption *)

(** The suspended run, and the two worlds a resume may start in: one with a
    fresh inbox, and one with the inbox the run carried on. *)
Definition suspended : World InMemoryCheckpointer :=
  (run effect_of never_shared uuid graph spec hello fresh quiet boxed_world).2.
Definition restarted : World InMemoryCheckpointer :=
  mkWorld clocks (journal_new "run" "thread" 0) 10 (Some inbox_new) (w_store suspended) [].
Definition continued : World InMemoryCheckpointer :=
  mkWorld clocks (journal_new "run" "thread" 0) 10 (w_inbox suspended) (w_store suspended) [].

(** A fresh inbox restores the batch of the suspended step, but the journal
    of the resumed run does not show it consumed: the window the agent sends
    is refused. *)
Theorem resumed_batch_unlogged :
  sends (plain (Some (Bool true)) None) restarted
  = (Ok [msg_user "hi"; msg_user "hurry"], Ok [msg_user "hi"]).
Proof. vm_compute. reflexivity. Qed.

(** The inbox handle of the suspended run does not restore it: the batch is
    gone, although the checkpoint carries it; and in a journal that
    continues the suspended run's the checker still expects it. *)
Theorem continued_batch_lost :
  sends (plain (Some (Bool true)) None) continued = (Ok [msg_user "hi"], Ok [msg_user "hi"])
  /\ sends (plain (Some (Bool true)) (Some (w_journal suspended))) continued
     = (Ok [msg_user "hi"], Ok [msg_user "hi"; msg_user "hurry"]).
Proof. split; vm_compute; reflexivity. Qed.
End SeamExamples.
