(* ===== verification/Text.v ===== *)
(** * Text

    What the runtime uses of Rust's [str]: prefixes, character counts and
    cuts, trimming and the control-character test. A [String] is the list of
    its UTF-8 bytes, so a character is a lead byte with the continuation
    bytes after it, and the white space beyond ASCII is spelled out as its
    byte sequences. *)

From Stdlib Require Import String.
From S2P Require Import Prelude.
Local Open Scope string_scope.

(** ** Prefixes *)

(** [str::strip_prefix]. *)
Fixpoint strip_prefix (p s : string) : option string :=
  match p, s with
  | EmptyString, _ => Some s
  | String a p', String b s' => if Ascii.eqb a b then strip_prefix p' s' else None
  | String _ _, EmptyString => None
  end.

(** [str::starts_with]. *)
Definition starts_with (p s : string) : bool :=
  match strip_prefix p s with Some _ => true | None => false end.

(** ** Characters *)

(** A continuation byte [10xxxxxx]. *)
Definition is_continuation (c : Ascii.ascii) : bool :=
  let n := Ascii.nat_of_ascii c in (128 <=? n)%nat && (n <? 192)%nat.

(** [s.chars().count()]. *)
Fixpoint chars_count (s : string) : nat :=
  match s with
  | EmptyString => 0
  | String c s' => if is_continuation c then chars_count s' else S (chars_count s')
  end.

(** [s.chars().take(n).collect()]. *)
Fixpoint take_chars (n : nat) (s : string) : string :=
  match s with
  | EmptyString => EmptyString
  | String c s' =>
      if is_continuation c then String c (take_chars n s')
      else match n with O => EmptyString | S n' => String c (take_chars n' s') end
  end.

(** ** White space *)

Fixpoint bytes (l : list nat) : string :=
  match l with [] => EmptyString | n :: l' => String (Ascii.ascii_of_nat n) (bytes l') end.

(** The characters with the [White_Space] property, as bytes. *)
Definition white_space : list (list nat) :=
  [[9]; [10]; [11]; [12]; [13]; [32]; [194; 133]; [194; 160]; [225; 154; 128];
   [226; 128; 128]; [226; 128; 129]; [226; 128; 130]; [226; 128; 131]; [226; 128; 132];
   [226; 128; 133]; [226; 128; 134]; [226; 128; 135]; [226; 128; 136]; [226; 128; 137];
   [226; 128; 138]; [226; 128; 168]; [226; 128; 169]; [226; 128; 175]; [226; 129; 159];
   [227; 128; 128]].

(** The text after one leading character of [ws]. *)
Fixpoint strip_one (ws : list (list nat)) (s : string) : option string :=
  match ws with
  | [] => None
  | w :: ws' => match strip_prefix (bytes w) s with Some r => Some r | None => strip_one ws' s end
  end.

Fixpoint strip_all (fuel : nat) (ws : list (list nat)) (s : string) : string :=
  match fuel with
  | O => s
  | S fuel' => match strip_one ws s with Some r => strip_all fuel' ws r | None => s end
  end.

Fixpoint string_rev_onto (s acc : string) : string :=
  match s with EmptyString => acc | String c s' => string_rev_onto s' (String c acc) end.

Definition string_rev (s : string) : string := string_rev_onto s EmptyString.

(** [str::trim_start], [trim_end], [trim]. Every character stripped is at
    least one byte. *)
Definition str_trim_start (s : string) : string := strip_all (String.length s) white_space s.

Definition str_trim_end (s : string) : string :=
  string_rev (strip_all (String.length s) (map (@reverse nat) white_space) (string_rev s)).

Definition str_trim (s : string) : string := str_trim_end (str_trim_start s).

(** ** Classes *)

(** [s.chars().any(char::is_control)]: the C0 controls, DEL, and the C1
    controls, two bytes from [C2 80] to [C2 9F]. *)
Fixpoint has_control (s : string) : bool :=
  match s with
  | EmptyString => false
  | String c s' =>
      let n := Ascii.nat_of_ascii c in
      (n <? 32)%nat || (n =? 127)%nat
      || ((n =? 194)%nat
          && match s' with
             | String d _ => let m := Ascii.nat_of_ascii d in (128 <=? m)%nat && (m <? 160)%nat
             | EmptyString => false
             end)
      || has_control s'
  end.

(** [byte.is_ascii_alphanumeric()]. *)
Definition is_alphanumeric (c : Ascii.ascii) : bool :=
  let n := Ascii.nat_of_ascii c in
  ((48 <=? n) && (n <=? 57) || (65 <=? n) && (n <=? 90) || (97 <=? n) && (n <=? 122))%nat.

(** [str::eq_ignore_ascii_case]. *)
Definition ascii_lower (c : Ascii.ascii) : Ascii.ascii :=
  let n := Ascii.nat_of_ascii c in
  if ((65 <=? n) && (n <=? 90))%nat then Ascii.ascii_of_nat (n + 32) else c.

Fixpoint eq_ignore_ascii_case (a b : string) : bool :=
  match a, b with
  | EmptyString, EmptyString => true
  | String x a', String y b' =>
      Ascii.eqb (ascii_lower x) (ascii_lower y) && eq_ignore_ascii_case a' b'
  | _, _ => false
  end.

(** ** Characters and pieces *)

(** The characters of a text, each as its bytes. *)
Fixpoint chars_onto (current s : string) : list string :=
  match s with
  | EmptyString => match current with EmptyString => [] | _ => [current] end
  | String c s' =>
      if is_continuation c then chars_onto (current ++ String c EmptyString) s'
      else match current with
           | EmptyString => chars_onto (String c EmptyString) s'
           | _ => current :: chars_onto (String c EmptyString) s'
           end
  end.

Definition chars (s : string) : list string := chars_onto EmptyString s.

(** [char::is_whitespace]. *)
Definition is_whitespace (c : string) : bool := existsb (fun w => String.eqb c (bytes w)) white_space.

(** [str::split] at every character satisfying a predicate. *)
Fixpoint split_chars (sep : string -> bool) (current : string) (cs : list string) : list string :=
  match cs with
  | [] => [current]
  | c :: cs' =>
      if sep c then current :: split_chars sep EmptyString cs'
      else split_chars sep (current ++ c) cs'
  end.

Definition split_by (sep : string -> bool) (s : string) : list string :=
  split_chars sep EmptyString (chars s).

(** [str::split_whitespace]. *)
Definition split_whitespace (s : string) : list string :=
  List.filter (fun w => negb (String.eqb w EmptyString)) (split_by is_whitespace s).

(** [str::find] and [str::contains] of a text; what follows the occurrence. *)
Fixpoint find_after (p s : string) : option string :=
  match strip_prefix p s with
  | Some rest => Some rest
  | None => match s with EmptyString => None | String _ s' => find_after p s' end
  end.

(** The text before the first occurrence, all of it when there is none. *)
Fixpoint find_before (p s : string) : string :=
  match strip_prefix p s with
  | Some _ => EmptyString
  | None => match s with EmptyString => EmptyString | String c s' => String c (find_before p s') end
  end.

Definition str_contains (p s : string) : bool :=
  match find_after p s with Some _ => true | None => false end.

(** The tables of Unicode properties the standard library consults:
    [str::to_lowercase], [char::is_alphanumeric], [char::is_lowercase]. *)
Class Unicode : Type := {
  to_lowercase : string -> string;
  char_alphanumeric : string -> bool;
  char_lowercase : string -> bool;
}.

(** The tables on ASCII text. *)
Fixpoint ascii_lowercase (s : string) : string :=
  match s with EmptyString => EmptyString | String c s' => String (ascii_lower c) (ascii_lowercase s') end.

Definition ascii_tables : Unicode := {|
  to_lowercase := ascii_lowercase;
  char_alphanumeric c := match c with String a EmptyString => is_alphanumeric a | _ => false end;
  char_lowercase c :=
    match c with
    | String a EmptyString => let n := Ascii.nat_of_ascii a in (97 <=? n)%nat && (n <=? 122)%nat
    | _ => false
    end;
|}.

(** ** Facts *)

Lemma strip_prefix_spec (p s r : string) : strip_prefix p s = Some r <-> s = p ++ r.
Proof.
  revert s. induction p as [|a p IH]; intros s; simpl; [split; [by intros [= ->]|by intros ->]|].
  destruct s as [|b s]; [split; [done|discriminate]|].
  destruct (Ascii.eqb_spec a b) as [->|Hne].
  - rewrite IH. split; [by intros ->|by intros [= ->]].
  - split; [done|by intros [= ? ?]].
Qed.

Lemma strip_prefix_app (p s : string) : strip_prefix p (p ++ s) = Some s.
Proof. by apply strip_prefix_spec. Qed.

Lemma starts_with_app (p s : string) : starts_with p (p ++ s) = true.
Proof. unfold starts_with. by rewrite strip_prefix_app. Qed.

(** A character that is not white space stops the trimming. *)
Lemma str_trim_start_id (s : string) : strip_one white_space s = None -> str_trim_start s = s.
Proof. unfold str_trim_start. by destruct (String.length s); simpl; [|intros ->]. Qed.
