(* ===== verification/Shaping.v ===== *)
(** * Result shaping ([rusty-core/src/tool.rs])

    What the model is shown of a tool's result: small results whole, long
    texts by their head, large values as a digest of their items, fields and
    counts. *)

From Stdlib Require Import String.
From S2P Require Import Prelude Containers Json Graph Record Invariant Text.
Local Open Scope string_scope.

(** [TOOL_RESULT_INLINE_BYTES], [TELLING_KEYS], [MAX_ITEM_KEYS],
    [MAX_VALUE_CHARS]. *)
Definition TOOL_RESULT_INLINE_BYTES : nat := 24 * 1024.

Definition TELLING_KEYS : list string :=
  ["number"; "id"; "key"; "name"; "title"; "subject"; "summary"; "short_description";
   "description"; "priority"; "severity"; "urgency"; "state"; "status"; "category"; "type";
   "kind"; "assigned_to"; "assignment_group"; "owner"; "requester"; "caller_id"; "author";
   "login"; "opened_at"; "created_at"; "created_on"; "sys_created_on"; "updated_at";
   "sys_updated_on"; "closed_at"; "due_date"; "url"; "html_url"; "link"; "email"; "count";
   "total"; "active"].

Definition MAX_ITEM_KEYS : nat := 12.
Definition MAX_VALUE_CHARS : nat := 160.

(** The [while !text.is_char_boundary(cut) { cut -= 1 }] loop. *)
Fixpoint floor_boundary (text : string) (cut : nat) : nat :=
  match cut with
  | O => O
  | S c => if is_char_boundary text (S c) then S c else floor_boundary text c
  end.

(** [shape_text]. *)
Definition shape_text (text : string) : string :=
  if (String.length text <=? TOOL_RESULT_INLINE_BYTES)%nat then text
  else
    let cut := floor_boundary text TOOL_RESULT_INLINE_BYTES in
    "SHAPED RESULT — " ++ pretty (String.length text)
    ++ " bytes, too large to show whole; the first " ++ pretty cut
    ++ " are below. Ask the tool for less (a limit, a page, specific fields) to see the rest."
    ++ newline ++ String.substring 0 cut text.

(** [clip_to], [clip]. *)
Definition clip_to (text : string) (max : nat) : string :=
  if (chars_count text <=? max)%nat then text else take_chars max text ++ "…".

Definition clip (text : string) : string := clip_to text MAX_VALUE_CHARS.

Definition as_object (v : Value) : option (list (string * Value)) :=
  match v with Object m => Some m | _ => None end.

(** [is_blank]. *)
Fixpoint is_blank (v : Value) : bool :=
  match v with
  | Null => true
  | Str s => String.eqb (str_trim s) EmptyString
  | Array l => match l with [] => true | _ => false end
  | Object m =>
      match m with [] => true | _ => false end
      || existsb (fun kv => String.eqb kv.1 "display_value" && is_blank kv.2) m
  | _ => false
  end.

Definition is_collection (v : Value) : bool :=
  match v with Object _ | Array _ => true | _ => false end.

Section Shaping.
Context `{Codec}.

(** [scalar_text]; an object is read by an inner value that is no
    collection, so one level is enough. *)
Definition scalar_leaf (v : Value) : string :=
  match v with
  | Str s => s
  | Null => EmptyString
  | Array l => "[" ++ pretty (length l) ++ " items]"
  | Object m => "{" ++ pretty (length m) ++ " fields}"
  | _ => value_text v
  end.

Fixpoint first_readable (keys : list string) (m : list (string * Value)) : option Value :=
  match keys with
  | [] => None
  | k :: rest =>
      match BTree.get k m with
      | Some inner =>
          if negb (is_blank inner) && negb (is_collection inner) then Some inner
          else first_readable rest m
      | None => first_readable rest m
      end
  end.

Definition scalar_text (v : Value) : string :=
  match v with
  | Object m =>
      match first_readable ["display_value"; "name"; "title"; "value"; "href"; "url"; "id"] m with
      | Some inner => scalar_leaf inner
      | None => scalar_leaf v
      end
  | _ => scalar_leaf v
  end.

(** [trim_item]: the telling keys first, then the others, up to twelve. *)
Fixpoint choose_telling (keys : list string) (m : list (string * Value)) (chosen : list string) :
    list string :=
  match keys with
  | [] => chosen
  | k :: rest =>
      match BTree.get k m with
      | Some v =>
          if negb (is_blank v) && (length chosen <? MAX_ITEM_KEYS)%nat
          then choose_telling rest m (chosen ++ [k])%list
          else choose_telling rest m chosen
      | None => choose_telling rest m chosen
      end
  end.

Fixpoint choose_others (m : list (string * Value)) (chosen : list string) : list string :=
  match m with
  | [] => chosen
  | (k, v) :: rest =>
      if (MAX_ITEM_KEYS <=? length chosen)%nat then chosen
      else if negb (bool_decide (k ∈ chosen)) && negb (is_blank v)
      then choose_others rest (chosen ++ [k])%list
      else choose_others rest chosen
  end.

Definition trim_item (item : Value) : Value :=
  match item with
  | Object m =>
      let chosen := choose_others m (choose_telling TELLING_KEYS m []) in
      jobj (map (fun k => (k, Str (clip (scalar_text (default Null (BTree.get k m)))))) chosen)
  | _ => Str (clip (scalar_text item))
  end.

(** [all_keys]. *)
Definition all_keys (items : list Value) : list string :=
  fold_left (fun keys item =>
    fold_left (fun keys kv => if decide (kv.1 ∈ keys) then keys else (keys ++ [kv.1])%list)
      (default [] (as_object item)) keys)
    (firstn 20 items) [].

(** [tally]. *)
Definition MAX_DISTINCT : nat := 12.
Definition MAX_FIELDS : nat := 6.

Fixpoint count_label (label : string) (counts : list (string * nat)) : list (string * nat) :=
  match counts with
  | [] => [(label, 1)]
  | (l, n) :: rest =>
      if String.eqb l label then (l, S n) :: rest else (l, n) :: count_label label rest
  end.

Fixpoint tally_items (key : string) (items : list Value) (counts : list (string * nat))
    (present : nat) : list (string * nat) * nat :=
  match items with
  | [] => (counts, present)
  | item :: rest =>
      match as_object item ≫= BTree.get key with
      | None => tally_items key rest counts present
      | Some v =>
          let text := scalar_text v in
          let label := if String.eqb (str_trim text) EmptyString then "(blank)" else clip_to text 40 in
          let counts' := count_label label counts in
          if (MAX_DISTINCT <? length counts')%nat then (counts', S present)
          else tally_items key rest counts' (S present)
      end
  end.

Definition tally_leb (a b : string * nat) : bool :=
  (b.2 <? a.2)%nat || ((a.2 =? b.2)%nat && str_leb a.1 b.1).

Definition tally_field (key : string) (items : list Value) : option string :=
  let '(counts, present) := tally_items key items [] 0 in
  if ((present <? 2) || (MAX_DISTINCT <? length counts)
      || (length counts <? 2) && (present <? length items))%nat
  then None
  else if existsb (fun c => (40 <? String.length c.1)%nat) counts then None
  else Some (key ++ ": " ++ String.concat ", "
               (map (fun c => c.1 ++ " ×" ++ pretty c.2) (sort_by tally_leb counts))).

Fixpoint tally_from (keys : list string) (items : list Value) (out : list string) : list string :=
  match keys with
  | [] => out
  | k :: rest =>
      if (MAX_FIELDS <=? length out)%nat then out
      else match tally_field k items with
           | Some line => tally_from rest items (out ++ [line])%list
           | None => tally_from rest items out
           end
  end.

Definition tally (items : list Value) : list string := tally_from TELLING_KEYS items [].

(** The items shown: the longest head within the budget. *)
Fixpoint show_items (items : list Value) (used : nat) (shown : list Value) : list Value :=
  match items with
  | [] => shown
  | item :: rest =>
      let trimmed := trim_item item in
      let size := String.length (value_text trimmed) + 2 in
      if (TOOL_RESULT_INLINE_BYTES - 1024 <? used + size)%nat then shown
      else show_items rest (used + size) (shown ++ [trimmed])%list
  end.

(** The list a large result is about, and the envelope key it sits under. *)
Definition payload_list (v : Value) (whole : nat) : option (list Value * option string) :=
  match v with
  | Array items => Some (items, None)
  | Object m =>
      match omap (fun kv => match kv.2 with Array a => Some (kv.1, a) | _ => None end) m with
      | [(key, items)] =>
          if (whole <=? String.length (value_text (Array items)) * 2)%nat
          then Some (items, Some key) else None
      | _ => None
      end
  | _ => None
  end.

Definition field_count (o : option Value) : nat :=
  match o with Some (Object m) => length m | _ => 0 end.

Definition shape_list (v : Value) (whole : nat) (items : list Value) (envelope : option string) :
    string :=
  let keys := all_keys items in
  let shown := show_items items 0 [] in
  let fields := field_count (hd_error items) in
  let per_item := field_count (hd_error shown) in
  let siblings :=
    match v with
    | Object m =>
        map (fun kv => kv.1 ++ ": " ++ clip (scalar_text kv.2))
          (List.filter (fun kv => negb (is_array kv.2)) m)
    | _ => []
    end in
  let tallies := tally items in
  "SHAPED RESULT — " ++ pretty whole ++ " bytes, too large to show whole. A list of "
  ++ pretty (length items) ++ " items"
  ++ match envelope with Some k => " under `" ++ k ++ "`" | None => EmptyString end
  ++ "; showing the first " ++ pretty (length shown)
  ++ (if ((per_item <? fields) && (0 <? per_item))%nat
      then " with " ++ pretty per_item ++ " of " ++ pretty fields ++ " fields each"
      else EmptyString)
  ++ "."
  ++ match siblings with [] => EmptyString | _ => " Also: " ++ String.concat ", " siblings ++ "." end
  ++ match tallies with
     | [] => EmptyString
     | _ => " Counts over all " ++ pretty (length items) ++ " items — "
            ++ String.concat " · " tallies ++ "."
     end
  ++ match keys with
     | [] => EmptyString
     | _ => " Every field an item has: " ++ String.concat ", " keys ++ "."
     end
  ++ " Ask the tool for fewer items or specific fields (a limit, a page, a fields argument) to see the rest — do not conclude the rest is empty, and do not count what is not shown except from the counts above."
  ++ newline ++ value_text (Array shown).

(** [shape_result]. *)
Definition shape_result (v : Value) : string :=
  let whole := value_text v in
  if (String.length whole <=? TOOL_RESULT_INLINE_BYTES)%nat then whole
  else
    match payload_list v (String.length whole) with
    | Some (items, envelope) => shape_list v (String.length whole) items envelope
    | None =>
        "SHAPED RESULT — " ++ pretty (String.length whole)
        ++ " bytes, too large to show whole. Its fields, with long or nested values cut short: "
        ++ String.concat ", " (map fst (default [] (as_object v)))
        ++ ". Ask the tool for a narrower read to see any of them whole." ++ newline
        ++ value_text (trim_item v)
    end.
End Shaping.
