(* ===== verification/Middleware.v ===== *)
(** * The middleware onion ([rusty-core/src/middleware.rs])

    Layers around an intercepted operation: before-hooks inward, the
    operation, after-hooks outward. [run_node], [run_model] and [run_tool] are
    one loop at three types; [run_layers] is that loop over the call type,
    the result type and the state the hooks act on. Hooks and operations may
    panic. The nested [onion] is the reference it is proved equal to. *)

From Stdlib Require Import String.
From S2P Require Import Prelude Json Error.
Local Open Scope string_scope.

(** ** Code that may unwind *)

(** A panic payload, as far as [panic_message] tells them apart. *)
Inductive PanicPayload : Type := PayloadStr (s : string) | PayloadString (s : string) | PayloadOther.

Definition panic_message (p : PanicPayload) : string :=
  match p with PayloadStr s | PayloadString s => s | PayloadOther => "<non-string payload>" end.

Inductive Unwind (A : Type) : Type := Returns (a : A) | Panics (p : PanicPayload).
Arguments Returns {A} _.
Arguments Panics {A} _.

(** Code acting on a state; a panic leaves what was done so far. *)
Definition Act (S A : Type) : Type := S -> Unwind A * S.

#[export] Instance act_ret (S : Type) : MRet (Act S) := fun A a s => (Returns a, s).

#[export] Instance act_bind (S : Type) : MBind (Act S) := fun A B f m s =>
  match m s with
  | (Returns a, s') => f a s'
  | (Panics p, s') => (Panics p, s')
  end.

(** Changing the state, total code, a panic, reading the state. *)
Definition act_modify {S : Type} (f : S -> S) : Act S unit := fun s => (Returns (), f s).
Definition acts {S A : Type} (f : S -> A * S) : Act S A := fun s =>
  let '(a, s') := f s in (Returns a, s').
Definition panic {S A : Type} (p : PanicPayload) : Act S A := fun s => (Panics p, s).
Definition reads {S A : Type} (f : S -> A) : Act S A := fun s => (Returns (f s), s).

Lemma act_bind_assoc {S A B C : Type} (m : Act S A) (f : A -> Act S B) (g : B -> Act S C) (s : S) :
  ((m ≫= f) ≫= g) s = (m ≫= (fun a => f a ≫= g)) s.
Proof. unfold mbind, act_bind. by destruct (m s) as [[a|p] s']. Qed.

Lemma act_bind_ext {S A B : Type} (m : Act S A) (f g : A -> Act S B) (s : S) :
  (forall a s', f a s' = g a s') -> (m ≫= f) s = (m ≫= g) s.
Proof. intros Hfg. unfold mbind, act_bind. destruct (m s) as [[a|p] s']; auto. Qed.

(** A bind is its two halves, or the first half's panic. *)
Lemma bind_cases {S A B : Type} (m : Act S A) (f : A -> Act S B) (s s' : S) out :
  (m ≫= f) s = (out, s') ->
  (exists a s1, m s = (Returns a, s1) /\ f a s1 = (out, s'))
  \/ (exists p, m s = (Panics p, s') /\ out = Panics p).
Proof.
  unfold mbind, act_bind. destruct (m s) as [[a|p] s1] eqn:Em; intros Hf.
  - left. eauto.
  - right. injection Hf as <- <-. eauto.
Qed.

(** ** Rejections and decisions *)

(** [InterceptPoint] and its [Display]. *)
Inductive InterceptPoint : Type := NodeRun | ModelCallPoint | ToolCallPoint.

Definition point_text (p : InterceptPoint) : string :=
  match p with NodeRun => "node_run" | ModelCallPoint => "model_call" | ToolCallPoint => "tool_call" end.

(** [Rejection], its [Display] and [into_error]. *)
Record Rejection : Type := mkRejection {
  rj_middleware : string;
  rj_point : InterceptPoint;
  rj_reason : string;
  rj_detail : option string;
}.

Definition rejection_text (r : Rejection) : string :=
  "rejected by middleware `" ++ rj_middleware r ++ "` at " ++ point_text (rj_point r) ++ ": "
  ++ rj_reason r.

Definition rejection_error (r : Rejection) : RustyError :=
  match rj_point r with
  | NodeRun => ENode (rejection_text r)
  | ModelCallPoint => ELlm (rejection_text r)
  | ToolCallPoint => ETool (rejection_text r)
  end.

(** [Decision]. *)
Inductive Decision (R : Type) : Type :=
| Continue
| Reject (r : Rejection)
| ShortCircuit (v : R).
Arguments Continue {R}.
Arguments Reject {R} _.
Arguments ShortCircuit {R} _.

(** The hooks of a [Middleware] at one interception point: a before-hook may
    rewrite the call, an after-hook the result. *)
Record Layer (S C R : Type) : Type := mkLayer {
  ly_name : string;
  ly_before : C -> Act S (Decision R * C);
  ly_after : C -> R -> Act S (Decision R * R);
}.
Arguments mkLayer {S C R} _ _ _.
Arguments ly_name {S C R} _.
Arguments ly_before {S C R} _ _.
Arguments ly_after {S C R} _ _ _.

Section Onion.
Context {S C R : Type}.
Implicit Types (layers : list (Layer S C R)) (op : C -> Act S (res R)).

(** How the way in ended. *)
Inductive Entry : Type :=
| EntryRejected (r : Rejection)
| EntrySubstitute (v : R) (entered : nat)
| EntryAll.

(** The first loop of [run_node]. *)
Fixpoint enter (layers : list (Layer S C R)) (entered : nat) (c : C) : Act S (Entry * C) :=
  match layers with
  | [] => mret (EntryAll, c)
  | l :: rest =>
      '(d, c') ← ly_before l c;
      match d with
      | Continue => enter rest (Datatypes.S entered) c'
      | Reject r => mret (EntryRejected r, c')
      | ShortCircuit v => mret (EntrySubstitute v entered, c')
      end
  end.

(** The second loop. *)
Fixpoint leave (layers : list (Layer S C R)) (c : C) (result : R) : Act S (res R) :=
  match layers with
  | [] => mret (Ok result)
  | l :: rest =>
      '(d, result') ← ly_after l c result;
      match d with
      | Continue => leave rest c result'
      | Reject r => mret (Err (rejection_error r))
      | ShortCircuit v => mret (Ok v)
      end
  end.

(** [run_node], [run_model], [run_tool]. *)
Definition run_layers layers op (c : C) : Act S (res R) :=
  '(e, c') ← enter layers 0 c;
  match e with
  | EntryRejected r => mret (Err (rejection_error r))
  | EntrySubstitute v entered => leave (rev (firstn entered layers)) c' v
  | EntryAll =>
      out ← op c';
      match out with Ok v => leave (rev layers) c' v | Err e => mret (Err e) end
  end.

(** ** The nested reference *)

(** What a layer hands outward: a result to unwind, one no outer hook may
    touch, a failure. *)
Inductive Flow : Type := Flowing (v : R) | Settled (v : R) | Failed (e : RustyError).

Definition flow_result (f : Flow) : res R :=
  match f with Flowing v | Settled v => Ok v | Failed e => Err e end.

Fixpoint onion layers op (c : C) : Act S (Flow * C) :=
  match layers with
  | [] =>
      out ← op c;
      mret (match out with Ok v => Flowing v | Err e => Failed e end, c)
  | l :: inner =>
      '(d, c1) ← ly_before l c;
      match d with
      | Reject r => mret (Failed (rejection_error r), c1)
      | ShortCircuit v => mret (Flowing v, c1)
      | Continue =>
          '(f, c2) ← onion inner op c1;
          match f with
          | Flowing v =>
              '(d', v') ← ly_after l c2 v;
              mret (match d' with
                    | Continue => Flowing v'
                    | Reject r => Failed (rejection_error r)
                    | ShortCircuit o => Settled o
                    end, c2)
          | _ => mret (f, c2)
          end
      end
  end.

(** Unwinding the layers already entered. *)
Definition finish (outer : list (Layer S C R)) (p : Flow * C) : Act S (res R) :=
  match p.1 with Flowing v => leave outer p.2 v | f => mret (flow_result f) end.

Lemma finish_snoc (outer : list (Layer S C R)) (l : Layer S C R) (m : Act S (Flow * C)) (s : S) :
  ('(f, c2) ← m;
   match f with
   | Flowing v =>
       '(d', v') ← ly_after l c2 v;
       mret (match d' with
             | Continue => Flowing v'
             | Reject r => Failed (rejection_error r)
             | ShortCircuit o => Settled o
             end, c2)
   | _ => mret (f, c2)
   end ≫= finish outer) s = (m ≫= finish (l :: outer)) s.
Proof.
  apply act_bind_ext. intros [[v|v|e] c2] s'; [|done..].
  rewrite act_bind_assoc. unfold finish at 2. cbn [leave fst snd].
  apply act_bind_ext. by intros [[|r|o] v'] s2.
Qed.

Lemma enter_onion layers : forall (pre : list (Layer S C R)) op c s,
  ('(e, c') ← enter layers (length pre) c;
   match e with
   | EntryRejected r => mret (Err (rejection_error r))
   | EntrySubstitute v entered => leave (rev (firstn entered (pre ++ layers))) c' v
   | EntryAll =>
       out ← op c';
       match out with Ok v => leave (rev (pre ++ layers)) c' v | Err e => mret (Err e) end
   end) s
  = (onion layers op c ≫= finish (rev pre)) s.
Proof.
  induction layers as [|l layers IH]; intros pre op c s; cbn [enter onion].
  - unfold mbind at 1, act_bind at 1. cbn. rewrite app_nil_r, act_bind_assoc.
    apply act_bind_ext. by intros [v|e] s'.
  - rewrite !act_bind_assoc. apply act_bind_ext. intros [[|r|v] c1] s1.
    + replace (Datatypes.S (length pre)) with (length (pre ++ [l])) by (rewrite length_app; simpl; lia).
      replace (pre ++ l :: layers)%list with ((pre ++ [l]) ++ layers)%list by by rewrite <- app_assoc.
      rewrite IH, rev_app_distr. cbn [rev app]. rewrite <- finish_snoc, act_bind_assoc.
      apply act_bind_ext. by intros [f c2] s2.
    + done.
    + unfold mbind, act_bind, mret, act_ret, finish. cbn [fst snd].
      by rewrite firstn_app, Nat.sub_diag, firstn_all, app_nil_r.
Qed.

(** Running a call through the chain is nesting it. The two loops over
    the layers, with the count of entered ones, do what one layer wrapped
    around the rest does: a before-hook that rejects or substitutes keeps
    everything inside it from running, an after-hook that rejects or
    substitutes keeps everything outside it from seeing the result, and
    state, effects and panics come in the nested order. *)
Theorem run_layers_onion layers op (c : C) (s : S) :
  run_layers layers op c s = (onion layers op c ≫= (fun p => mret (flow_result p.1))) s.
Proof.
  etrans; [apply (enter_onion layers [] op c s)|]. apply act_bind_ext.
  by intros [[v|v|e] c'] s'.
Qed.
End Onion.
