(* ===== verification/SampleReader.v ===== *)
(** * A sample codec that reads what it prints

    The sample codec with a reader for compact JSON, at which the examples
    that parse structured text evaluate. *)

From Stdlib Require Import String Ascii.
From S2P Require Import Prelude Containers Json Error Record SampleCodec.
Local Open Scope string_scope.

Module Reader.

(** The text of a string literal after its opening quote, and the rest. *)
Fixpoint read_text (s : string) : option (string * string) :=
  match s with
  | EmptyString => None
  | String "034"%char rest => Some (EmptyString, rest)
  | String "092"%char (String c rest) =>
      '(text, rest') ← read_text rest;
      let c' := if Ascii.eqb c "n"%char then "010"%char
                else if Ascii.eqb c "r"%char then "013"%char
                else if Ascii.eqb c "t"%char then "009"%char else c in
      Some (String c' text, rest')
  | String c rest => '(text, rest') ← read_text rest; Some (String c text, rest')
  end.

Definition digit (c : ascii) : option N :=
  let n := N_of_ascii c in if (48 <=? n)%N && (n <=? 57)%N then Some (n - 48)%N else None.

Fixpoint read_digits (s : string) (acc : N) : N * string :=
  match s with
  | String c rest =>
      match digit c with Some d => read_digits rest (10 * acc + d)%N | None => (acc, s) end
  | EmptyString => (acc, s)
  end.

Fixpoint drop_prefix (p s : string) : option string :=
  match p, s with
  | EmptyString, _ => Some s
  | String a p', String b s' => if Ascii.eqb a b then drop_prefix p' s' else None
  | _, _ => None
  end.

(** One value; [items] and [members] read what follows an opening bracket. *)
Fixpoint read_value (fuel : nat) (s : string) : option (Value * string) :=
  match fuel with
  | O => None
  | S fuel =>
      match s with
      | String "034"%char rest => '(t, rest') ← read_text rest; Some (Str t, rest')
      | String "["%char rest =>
          match drop_prefix "]" rest with
          | Some rest' => Some (Array [], rest')
          | None => '(l, rest') ← read_items fuel rest; Some (Array l, rest')
          end
      | String "{"%char rest =>
          match drop_prefix "}" rest with
          | Some rest' => Some (Object [], rest')
          | None => '(m, rest') ← read_members fuel rest; Some (jobj m, rest')
          end
      | String "n"%char _ => rest ← drop_prefix "null" s; Some (Null, rest)
      | String "t"%char _ => rest ← drop_prefix "true" s; Some (Bool true, rest)
      | String "f"%char _ => rest ← drop_prefix "false" s; Some (Bool false, rest)
      | String c _ =>
          _ ← digit c; let '(n, rest) := read_digits s 0 in Some (Num (PosInt n), rest)
      | EmptyString => None
      end
  end
with read_items (fuel : nat) (s : string) : option (list Value * string) :=
  match fuel with
  | O => None
  | S fuel =>
      '(v, rest) ← read_value fuel s;
      match rest with
      | String "]"%char rest' => Some ([v], rest')
      | String ","%char rest' => '(l, rest'') ← read_items fuel rest'; Some (v :: l, rest'')
      | _ => None
      end
  end
with read_members (fuel : nat) (s : string) : option (list (string * Value) * string) :=
  match fuel with
  | O => None
  | S fuel =>
      match s with
      | String "034"%char rest =>
          '(k, rest1) ← read_text rest;
          rest2 ← drop_prefix ":" rest1;
          '(v, rest3) ← read_value fuel rest2;
          match rest3 with
          | String "}"%char rest' => Some ([(k, v)], rest')
          | String ","%char rest' => '(m, rest'') ← read_members fuel rest'; Some ((k, v) :: m, rest'')
          | _ => None
          end
      | _ => None
      end
  end.

Definition read (s : string) : result string Value :=
  match read_value (S (String.length s)) s with
  | Some (v, EmptyString) => Ok v
  | _ => Err "expected value"
  end.

#[export] Instance reading_codec : Codec := {
  sha256_hex := @sha256_hex Sample.codec;
  to_vec v := Some (Sample.print v);
  from_slice := read;
  fixed4 := @fixed4 Sample.codec;
  decode_error := @decode_error Sample.codec;
  time_text := @time_text Sample.codec;
  time_text_millis := @time_text_millis Sample.codec;
  max_millis := @max_millis Sample.codec;
}.

#[export] Instance reading_codec_laws : CodecLaws.
Proof. split; [intros; apply Sample.hex_length|by eexists|done]. Qed.

Example reader_reads_back :
  let v := jobj [("a", Array [Str "x"; Num (PosInt 12); Null]); ("b", jobj [("c", Bool true)])] in
  read (Sample.print v) = Ok v.
Proof. vm_compute. reflexivity. Qed.

End Reader.
