(* ===== verification/ToolSelect.v ===== *)
(** * Tool selection ([rusty-core/src/tool_select.rs])

    The deterministic shortlist: which of a registry's tools the model is
    offered. Two gates (the effect ceiling, transitive prerequisites), an
    integer score, a ranking, and a greedy top-k that takes a tool only with
    the whole closure of its prerequisites. The prerequisite walks are loops
    over a stack; here they recurse on fuel, [None] when it runs out. *)

From Stdlib Require Import String.
From S2P Require Import Prelude Containers Json Record Meter.
Local Open Scope string_scope.

(** ** Data *)

(** [CostClass]. *)
Inductive CostClass : Type := CostLow | CostMedium | CostHigh.

(** [ToolManifest]. *)
Record ToolManifest : Type := mkToolManifest {
  tm_name : string;
  tm_description : string;
  tm_parameters_schema : Value;
  tm_effect : Effect;
  tm_tags : list string;
  tm_when_to_use : option string;
  tm_cost_class : CostClass;
  tm_parallel_safe : bool;
  tm_batchable : bool;
  tm_prerequisites : list string;
}.

(** [ToolOutcomeStats] and [success_bps]. *)
Record ToolOutcomeStats : Type := mkOutcomeStats {
  os_calls : N;
  os_successes : N;
  os_validation_failures : N;
}.

Definition u32_wrap (n : N) : N := (n mod 4294967296)%N.
Definition u64_wrap (n : N) : N := (n mod 18446744073709551616)%N.

Definition success_bps (s : ToolOutcomeStats) : option N :=
  if (os_calls s =? 0)%N then None
  else Some (u32_wrap (saturating_mul (os_successes s) 10000 / os_calls s))%N.

(** [SelectionFeatures], [SelectionWeights], [ToolSelectionPolicy]. *)
Record SelectionFeatures : Type := mkFeatures {
  sf_task_tags : list string;
  sf_effect_ceiling : Effect;
  sf_outcomes : list (string * ToolOutcomeStats);
}.

Record SelectionWeights : Type := mkWeights { sw_tag_match : N; sw_outcome_success : N }.
Definition default_weights : SelectionWeights := mkWeights 1 1.

Record ToolSelectionPolicy : Type := mkSelectionPolicy {
  sp_cutoff : nat;
  sp_k : nat;
  sp_weights : SelectionWeights;
}.

Definition DEFAULT_SHORTLIST_CUTOFF : nat := 20.
Definition default_selection : ToolSelectionPolicy :=
  mkSelectionPolicy DEFAULT_SHORTLIST_CUTOFF 8 default_weights.

(** [RankedManifest], [ExclusionReason], [ExcludedManifest],
    [ToolShortlist]. *)
Record RankedManifest : Type := mkRanked {
  rm_name : string;
  rm_score : N;
  rm_matched_tags : list string;
}.

Inductive ExclusionReason : Type :=
| EffectAboveCeiling
| UnsatisfiedPrerequisites (missing : list string).

Record ExcludedManifest : Type := mkExcluded { xm_name : string; xm_reason : ExclusionReason }.

Record ToolShortlist : Type := mkShortlist {
  sl_selected : list RankedManifest;
  sl_ranking : list RankedManifest;
  sl_excluded : list ExcludedManifest;
}.

(** ** The prerequisite walks *)

(** [if seen.insert(next) { stack.push(next) }] over a list of names; the
    top of the stack is the head. *)
Definition push_unseen (names : list string) (s : list string * list string) :
    list string * list string :=
  fold_left (fun s next => if decide (next ∈ s.1) then s else (next :: s.1, next :: s.2)) names s.

(** [manifests.iter().find(|m| m.name == name)]. *)
Definition find_manifest (manifests : list ToolManifest) (name : string) : option ToolManifest :=
  List.find (fun m => String.eqb (tm_name m) name) manifests.

(** [BTreeMap] of manifests by name. *)
Definition by_name (manifests : list ToolManifest) : list (string * ToolManifest) :=
  BTree.from_list (map (fun m => (tm_name m, m)) manifests).

Definition prereqs_of (o : option ToolManifest) : list string :=
  match o with Some m => tm_prerequisites m | None => [] end.

(** Gate 2's walk: the prerequisites outside the eligible pool. *)
Fixpoint gate_walk (fuel : nat) (manifests : list ToolManifest) (eligible : list string)
    (seen stack : list string) (missing : list (string * unit)) : option (list (string * unit)) :=
  match fuel with
  | O => None
  | S fuel' =>
      match stack with
      | [] => Some missing
      | p :: rest =>
          if decide (p ∈ eligible) then
            let '(seen', stack') := push_unseen (prereqs_of (find_manifest manifests p)) (seen, rest) in
            gate_walk fuel' manifests eligible seen' stack' missing
          else gate_walk fuel' manifests eligible seen rest (BTree.insert p () missing)
      end
  end.

(** The greedy pass's walk: the prerequisites still to be selected. *)
Fixpoint closure_walk (fuel : nat) (names : list (string * ToolManifest))
    (selected seen stack closure : list string) : option (list string) :=
  match fuel with
  | O => None
  | S fuel' =>
      match stack with
      | [] => Some closure
      | p :: rest =>
          if decide (p ∈ selected \/ p ∈ closure)
          then closure_walk fuel' names selected seen rest closure
          else
            let '(seen', stack') := push_unseen (prereqs_of (BTree.get p names)) (seen, rest) in
            closure_walk fuel' names selected seen' stack' (closure ++ [p])%list
      end
  end.

(** Enough for every walk: each stack entry is a prerequisite written in
    some manifest. *)
Definition walk_fuel (manifests : list ToolManifest) : nat :=
  S (2 * length (concat (map tm_prerequisites manifests))).

(** ** Gates and scores *)

Definition above_ceiling (features : SelectionFeatures) (m : ToolManifest) : bool :=
  (effect_rank (sf_effect_ceiling features) <? effect_rank (tm_effect m))%nat.

Definition missing_of (manifests : list ToolManifest) (eligible : list string) (m : ToolManifest) :
    option (list string) :=
  let stack := reverse (tm_prerequisites m) in
  map fst <$> gate_walk (walk_fuel manifests) manifests eligible stack stack [].

(** Gate 2 over the eligible manifests. *)
Fixpoint gate_prerequisites (manifests : list ToolManifest) (eligible : list string)
    (ms : list ToolManifest) (kept : list ToolManifest) (excluded : list ExcludedManifest) :
    option (list ToolManifest * list ExcludedManifest) :=
  match ms with
  | [] => Some (kept, excluded)
  | m :: rest =>
      missing ← missing_of manifests eligible m;
      match missing with
      | [] => gate_prerequisites manifests eligible rest (kept ++ [m])%list excluded
      | _ => gate_prerequisites manifests eligible rest kept
               (excluded ++ [mkExcluded (tm_name m) (UnsatisfiedPrerequisites missing)])%list
      end
  end.

Definition score (features : SelectionFeatures) (weights : SelectionWeights) (m : ToolManifest) :
    RankedManifest :=
  let matched := sort_by str_leb (List.filter (fun t => bool_decide (t ∈ sf_task_tags features)) (tm_tags m)) in
  let tag_score := u64_wrap (sw_tag_match weights * N.of_nat (length matched) * 10000) in
  let outcome_score :=
    (default 0 (BTree.get (tm_name m) (sf_outcomes features) ≫= success_bps)
     * sw_outcome_success weights)%N in
  mkRanked (tm_name m) (u64_wrap (tag_score + outcome_score)) matched.

(** The ranking's order: score descending, name ascending. *)
Definition rank_leb (a b : RankedManifest) : bool :=
  (rm_score b <? rm_score a)%N || ((rm_score a =? rm_score b)%N && str_leb (rm_name a) (rm_name b)).

(** ** The greedy top-k *)

(** [rank_key]. *)
Definition rank_key (ranked : list (string * RankedManifest)) (name : string) : N * string :=
  match BTree.get name ranked with Some r => (rm_score r, rm_name r) | None => (0%N, name) end.

Definition key_leb (ranked : list (string * RankedManifest)) (a b : string) : bool :=
  let ka := rank_key ranked a in
  let kb := rank_key ranked b in
  (kb.1 <? ka.1)%N || ((ka.1 =? kb.1)%N && str_leb ka.2 kb.2).

Definition closure_of (manifests : list ToolManifest) (ranked : list (string * RankedManifest))
    (selected : list string) (name : string) : option (list string) :=
  let names := by_name manifests in
  let stack := reverse (prereqs_of (BTree.get name names)) in
  sort_by (key_leb ranked) <$> closure_walk (walk_fuel manifests) names selected stack stack [].

Fixpoint greedy (manifests : list ToolManifest) (ranked : list (string * RankedManifest))
    (k : nat) (candidates : list RankedManifest) (selected : list RankedManifest)
    (selected_names : list string) : option (list RankedManifest) :=
  match candidates with
  | [] => Some selected
  | c :: rest =>
      if decide (rm_name c ∈ selected_names)
      then greedy manifests ranked k rest selected selected_names
      else
        closure ← closure_of manifests ranked selected_names (rm_name c);
        if (k <? length selected + (length closure + 1))%nat
        then greedy manifests ranked k rest selected selected_names
        else
          let taken := omap (fun p => BTree.get p ranked) closure in
          let names := List.filter (fun p => BTree.contains_key p ranked) closure in
          greedy manifests ranked k rest (selected ++ taken ++ [c])%list
            (rm_name c :: names ++ selected_names)%list
  end.

(** [select_weighted]. *)
Definition excluded_leb (a b : ExcludedManifest) : bool := str_leb (xm_name a) (xm_name b).

Definition select_weighted (features : SelectionFeatures) (manifests : list ToolManifest) (k : nat)
    (weights : SelectionWeights) : option ToolShortlist :=
  let eligible := List.filter (fun m => negb (above_ceiling features m)) manifests in
  let excluded := map (fun m => mkExcluded (tm_name m) EffectAboveCeiling)
                    (List.filter (above_ceiling features) manifests) in
  gated ← gate_prerequisites manifests (map tm_name eligible) eligible [] excluded;
  let '(still_eligible, excluded') := gated : list ToolManifest * list ExcludedManifest in
  let ranking := sort_by rank_leb (map (score features weights) still_eligible) in
  let ranked := BTree.from_list (map (fun r => (rm_name r, r)) ranking) in
  selected ← greedy manifests ranked k ranking [] [];
  Some (mkShortlist selected ranking (sort_by excluded_leb excluded')).

(** [shortlist]. *)
Definition shortlist (features : SelectionFeatures) (manifests : list ToolManifest)
    (policy : ToolSelectionPolicy) : option ToolShortlist :=
  if (length manifests <=? sp_cutoff policy)%nat
  then select_weighted features manifests (length manifests) (sp_weights policy)
  else select_weighted features manifests (sp_k policy) (sp_weights policy).
