(* ===== verification/ToolSelectFacts.v ===== *)
(** * What the shortlist guarantees

    The walks terminate within their fuel and compute the prerequisite
    closures; the shortlist partitions the tools, ranks the eligible ones,
    stays within its bound and is closed under prerequisites; it does not
    depend on the order the tools are handed in. *)

From Stdlib Require Import String.
From S2P Require Import Prelude Containers Json Record Meter ToolSelect.
Local Open Scope string_scope.

(** ** Stacks *)

Lemma push_unseen_elem (names : list string) :
  forall seen stack seen' stack', push_unseen names (seen, stack) = (seen', stack') ->
    (forall x, x ∈ seen' <-> x ∈ seen \/ x ∈ names)
    /\ (forall x, x ∈ stack' -> x ∈ stack \/ x ∈ names)
    /\ (forall x, x ∈ stack -> x ∈ stack')
    /\ (forall x, x ∈ names -> x ∈ seen \/ x ∈ stack').
Proof.
  induction names as [|n names IH]; intros seen stack seen' stack' Hp.
  { injection Hp as <- <-. set_solver. }
  cbn [push_unseen fold_left fst snd] in Hp. destruct (decide (n ∈ seen)) as [Hn|Hn].
  - destruct (IH _ _ _ _ Hp) as (H1 & H2 & H3 & H4). set_solver.
  - destruct (IH _ _ _ _ Hp) as (H1 & H2 & H3 & H4).
    split_and!; intros x; specialize (H1 x); specialize (H2 x); specialize (H3 x);
      specialize (H4 x); set_solver.
Qed.

(** The steps a walk has left: the stack, and the names not seen yet. *)
Definition work (universe seen stack : list string) : nat :=
  length stack + length (filter (fun x => x ∉ seen) universe).

Lemma filter_drop (universe seen : list string) (n : string) :
  n ∈ universe -> n ∉ seen ->
  S (length (filter (fun x => x ∉ n :: seen) universe))
  <= length (filter (fun x => x ∉ seen) universe).
Proof.
  induction universe as [|y universe IH]; intros Hin Hn; [by apply elem_of_nil in Hin|].
  rewrite !filter_cons. apply elem_of_cons in Hin as [->|Hin].
  - rewrite (decide_False (P := y ∉ y :: seen)) by set_solver.
    rewrite (decide_True (P := y ∉ seen)) by done. simpl. apply le_n_S.
    clear. induction universe as [|z u IH]; [done|]. rewrite !filter_cons.
    destruct (decide (z ∉ y :: seen)), (decide (z ∉ seen)); simpl; try lia. set_solver.
  - specialize (IH Hin Hn). destruct (decide (y ∉ n :: seen)), (decide (y ∉ seen));
      simpl; try lia. set_solver.
Qed.

Lemma push_unseen_work (universe names : list string) :
  (forall x, x ∈ names -> x ∈ universe) ->
  forall seen stack seen' stack', push_unseen names (seen, stack) = (seen', stack') ->
    work universe seen' stack' <= work universe seen stack.
Proof.
  induction names as [|n names IH]; intros Hu seen stack seen' stack' Hp.
  { by injection Hp as <- <-. }
  cbn [push_unseen fold_left fst snd] in Hp. destruct (decide (n ∈ seen)) as [Hn|Hn].
  - eapply IH; [|exact Hp]. set_solver.
  - etrans; [eapply IH; [|exact Hp]; set_solver|]. unfold work. simpl.
    pose proof (filter_drop universe seen n ltac:(set_solver) Hn). lia.
Qed.

(** ** Manifests by name *)
Section Selection.
Context (manifests : list ToolManifest).
Hypothesis names_distinct : NoDup (map tm_name manifests).

Definition universe : list string := concat (map tm_prerequisites manifests).

(** The prerequisites of a tool, by name. *)
Definition needs (a b : string) : Prop :=
  exists m, m ∈ manifests /\ tm_name m = a /\ b ∈ tm_prerequisites m.

Lemma manifest_unique (m m' : ToolManifest) :
  m ∈ manifests -> m' ∈ manifests -> tm_name m = tm_name m' -> m = m'.
Proof.
  intros Hm Hm' He. apply list_elem_of_lookup in Hm as [i Hi].
  apply list_elem_of_lookup in Hm' as [k Hk].
  assert (i = k) as ->; [|congruence].
  apply (NoDup_lookup (map tm_name manifests) i k (tm_name m)); [done|..].
  - by rewrite list_lookup_fmap, Hi.
  - by rewrite list_lookup_fmap, Hk, He.
Qed.

Lemma find_manifest_spec (p : string) (m : ToolManifest) :
  find_manifest manifests p = Some m <-> m ∈ manifests /\ tm_name m = p.
Proof.
  unfold find_manifest. split.
  - intros [Hm He]%List.find_some. apply String.eqb_eq in He. by rewrite list_elem_of_In.
  - intros [Hm <-]. destruct (List.find _ manifests) as [m'|] eqn:Hf.
    + apply List.find_some in Hf as [Hm' He%String.eqb_eq]. f_equal.
      apply manifest_unique; [by apply list_elem_of_In|done|done].
    + eapply List.find_none in Hf; [|by apply list_elem_of_In]. by rewrite String.eqb_refl in Hf.
Qed.

Lemma get_from_list_In {V : Type} (l : list (string * V)) (k : string) (v : V) :
  BTree.get k (BTree.from_list l) = Some v -> (k, v) ∈ l.
Proof.
  unfold BTree.from_list. rewrite BTree.get_fold_insert. simpl.
  destruct (BTree.get k (reverse l)) eqn:Hg; [|done]. intros [= ->].
  apply BTree.get_Some_In in Hg. by rewrite elem_of_reverse in Hg.
Qed.

Lemma get_from_list_NoDup {V : Type} (l : list (string * V)) (k : string) (v : V) :
  NoDup l.*1 -> (k, v) ∈ l -> BTree.get k (BTree.from_list l) = Some v.
Proof.
  intros Hnd Hin. unfold BTree.from_list. rewrite BTree.get_fold_insert.
  rewrite (BTree.get_In_NoDup k v (reverse l)); [done| |by apply elem_of_reverse].
  rewrite fmap_reverse. by rewrite reverse_Permutation.
Qed.

Lemma by_name_spec (p : string) (m : ToolManifest) :
  BTree.get p (by_name manifests) = Some m <-> m ∈ manifests /\ tm_name m = p.
Proof.
  unfold by_name. split.
  - intros Hg%get_from_list_In. apply list_elem_of_fmap in Hg as (m' & [= -> ->] & Hm). done.
  - intros [Hm <-]. apply get_from_list_NoDup.
    + rewrite <- list_fmap_compose. done.
    + apply list_elem_of_fmap. by exists m.
Qed.

Lemma prereqs_find (a b : string) : b ∈ prereqs_of (find_manifest manifests a) <-> needs a b.
Proof.
  unfold needs. destruct (find_manifest manifests a) as [m|] eqn:Hf; simpl.
  - apply find_manifest_spec in Hf as [Hm <-]. split; [by exists m|].
    intros (m' & Hm' & He & Hb). by rewrite (manifest_unique m m').
  - split; [by intros ?%elem_of_nil|]. intros (m & Hm & He & _).
    assert (find_manifest manifests a = Some m) by by apply find_manifest_spec. congruence.
Qed.

Lemma prereqs_get (a b : string) : b ∈ prereqs_of (BTree.get a (by_name manifests)) <-> needs a b.
Proof.
  rewrite <- prereqs_find. do 2 f_equiv.
  destruct (find_manifest manifests a) as [m|] eqn:Hf.
  - apply find_manifest_spec in Hf. by apply by_name_spec.
  - destruct (BTree.get a (by_name manifests)) as [m|] eqn:Hg; [|done].
    apply by_name_spec, find_manifest_spec in Hg. congruence.
Qed.

Lemma needs_universe (a b : string) : needs a b -> b ∈ universe.
Proof.
  intros (m & Hm & _ & Hb). apply list_elem_of_In, in_concat. exists (tm_prerequisites m).
  split; [by apply in_map, list_elem_of_In|by apply list_elem_of_In].
Qed.

Lemma start_work (start : list string) :
  length start <= length universe -> work universe start start < walk_fuel manifests.
Proof.
  intros Hs. unfold work, walk_fuel. fold universe.
  pose proof (length_filter (fun x => x ∉ start) universe). lia.
Qed.

Lemma prereqs_length (m : ToolManifest) :
  m ∈ manifests -> length (tm_prerequisites m) <= length universe.
Proof.
  unfold universe. clear. induction manifests as [|m' ms IH]; intros Hm; [by apply elem_of_nil in Hm|].
  simpl. rewrite length_app. apply elem_of_cons in Hm as [->|Hm]; [lia|]. specialize (IH Hm). lia.
Qed.

(** ** The gate's walk *)

(** What a tool demands: its prerequisites, and those of demanded eligible
    tools. *)
Inductive demanded (eligible start : list string) : string -> Prop :=
| demanded_start x : x ∈ start -> demanded eligible start x
| demanded_next x y :
    demanded eligible start x -> x ∈ eligible -> needs x y -> demanded eligible start y.

Definition keys {V : Type} (m : list (string * V)) : list string := map fst m.

Lemma keys_insert (p x : string) (m : list (string * unit)) :
  x ∈ keys (BTree.insert p () m) <-> x = p \/ x ∈ keys m.
Proof.
  unfold keys. induction m as [|[k []] m IH]; simpl; [set_solver|].
  destruct (String.compare p k) eqn:Hc; simpl; [|set_solver|].
  - apply str_compare_eq in Hc as ->. set_solver.
  - rewrite !elem_of_cons, IH. set_solver.
Qed.

Record gate_inv (eligible start seen stack : list string) (missing : list (string * unit)) : Prop := {
  gi_start : forall x, x ∈ start -> x ∈ seen;
  gi_stack : forall x, x ∈ stack -> x ∈ seen;
  gi_sound : forall x, x ∈ seen -> demanded eligible start x;
  gi_done : forall x, x ∈ seen -> x ∉ stack ->
    if decide (x ∈ eligible) then forall y, needs x y -> y ∈ seen else x ∈ keys missing;
  gi_missing : forall x, x ∈ keys missing -> demanded eligible start x /\ x ∉ eligible;
}.

Lemma gate_walk_inv (eligible start : list string) (fuel : nat) :
  forall seen stack missing, gate_inv eligible start seen stack missing ->
    work universe seen stack < fuel ->
    exists out seen', gate_walk fuel manifests eligible seen stack missing = Some out
      /\ gate_inv eligible start seen' [] out.
Proof.
  induction fuel as [|fuel IH]; intros seen stack missing Hi Hw; [lia|].
  destruct stack as [|p rest]; simpl; [by exists missing, seen|].
  destruct Hi as [Hs Hst Hso Hd Hm]. destruct (decide (p ∈ eligible)) as [Hp|Hp].
  - destruct (push_unseen _ (seen, rest)) as [seen' stack'] eqn:Hpu.
    pose proof (push_unseen_elem _ _ _ _ _ Hpu) as (E1 & E2 & E3 & E4).
    assert (Hpre : forall y, y ∈ prereqs_of (find_manifest manifests p) <-> needs p y)
      by (intros; apply prereqs_find).
    apply IH.
    + split.
      * intros x Hx. apply E1. left. auto.
      * intros x [Hx|Hx]%E2; apply E1; [left; apply Hst; by right|by right].
      * intros x [Hx|Hx]%E1; [auto|]. apply (demanded_next _ _ p); [|done|by apply Hpre].
        apply Hso, Hst. left.
      * intros x Hx Hn. apply E1 in Hx as [Hx|Hx].
        -- destruct (decide (x = p)) as [->|Hne].
           ++ rewrite decide_True by done. intros y Hy. apply E1. right. by apply Hpre.
           ++ assert (Hnr : x ∉ p :: rest) by (intros [?|?]%elem_of_cons; auto).
              specialize (Hd x Hx Hnr). destruct (decide (x ∈ eligible)); [|done].
              intros y Hy. apply E1. left. auto.
        -- destruct (E4 x Hx) as [Hx'|]; [|done]. destruct (decide (x = p)) as [->|Hne].
           ++ rewrite decide_True by done. intros y Hy. apply E1. right. by apply Hpre.
           ++ assert (Hnr : x ∉ p :: rest) by (intros [?|?]%elem_of_cons; auto).
              specialize (Hd x Hx' Hnr). destruct (decide (x ∈ eligible)); [|done].
              intros y Hy. apply E1. left. auto.
      * done.
    + pose proof (push_unseen_work universe (prereqs_of (find_manifest manifests p))
        ltac:(intros y Hy; apply (needs_universe p), Hpre, Hy) _ _ _ _ Hpu).
      unfold work in *. simpl in Hw. lia.
  - apply IH.
    + split; [done| |done| |].
      * intros x Hx. apply Hst. by right.
      * intros x Hx Hn. destruct (decide (x = p)) as [->|Hne].
        -- rewrite decide_False by done. apply keys_insert. by left.
        -- assert (Hnr : x ∉ p :: rest) by (intros [?|?]%elem_of_cons; auto).
           specialize (Hd x Hx Hnr). destruct (decide (x ∈ eligible)); [done|].
           apply keys_insert. by right.
      * intros x [->|Hx]%keys_insert; [|auto]. split; [|done]. apply Hso, Hst. left.
    + unfold work in *. simpl in Hw. lia.
Qed.

(** The walk returns exactly the demanded names outside the pool. *)
Lemma missing_of_spec (eligible : list string) (m : ToolManifest) :
  m ∈ manifests ->
  exists missing, missing_of manifests eligible m = Some missing
    /\ forall x, x ∈ missing <-> demanded eligible (tm_prerequisites m) x /\ x ∉ eligible.
Proof.
  intros Hm. unfold missing_of.
  destruct (gate_walk_inv eligible (tm_prerequisites m) (walk_fuel manifests)
              (reverse (tm_prerequisites m)) (reverse (tm_prerequisites m)) [])
    as (out & seen & -> & [Hs _ Hso Hd Hmi]).
  - split; try (intros x; rewrite ?elem_of_reverse; try done; intros Hx).
    + by constructor.
    + by apply elem_of_nil in Hx.
  - apply start_work. rewrite length_reverse. by apply prereqs_length.
  - exists (keys out). split; [done|]. intros x. split; [apply Hmi|]. intros [Hx Hn].
    assert (Hall : forall y, demanded eligible (tm_prerequisites m) y -> y ∈ seen).
    { intros y. induction 1 as [y Hy|y z _ IH Hy Hz]; [auto|].
      specialize (Hd y IH (not_elem_of_nil y)). rewrite decide_True in Hd by done. auto. }
    specialize (Hd x (Hall x Hx) (not_elem_of_nil x)). by rewrite decide_False in Hd.
Qed.

(** ** The closure's walk *)

(** Reachable over one or more prerequisites. *)
Definition depends : string -> string -> Prop := tc needs.

Record closure_inv (selected start seen stack closure : list string) : Prop := {
  ci_start : forall x, x ∈ start -> x ∈ seen;
  ci_stack : forall x, x ∈ stack -> x ∈ seen;
  ci_sound : forall x, x ∈ seen -> x ∈ start \/ exists y, y ∈ start /\ depends y x;
  ci_done : forall x, x ∈ seen -> x ∉ stack -> x ∈ selected \/ x ∈ closure;
  ci_closure : forall x, x ∈ closure -> x ∈ seen /\ (x ∉ selected)
                 /\ forall y, needs x y -> y ∈ seen;
  ci_nodup : NoDup closure;
}.

Lemma closure_walk_inv (selected start : list string) (fuel : nat) :
  forall seen stack closure, closure_inv selected start seen stack closure ->
    work universe seen stack < fuel ->
    exists out seen', closure_walk fuel (by_name manifests) selected seen stack closure = Some out
      /\ closure_inv selected start seen' [] out.
Proof.
  induction fuel as [|fuel IH]; intros seen stack closure Hi Hw; [lia|].
  destruct stack as [|p rest]; simpl; [by exists closure, seen|].
  destruct Hi as [Hs Hst Hso Hd Hc Hn]. destruct (decide (p ∈ selected \/ p ∈ closure)) as [Hp|Hp].
  - apply IH; [|unfold work in *; simpl in Hw; lia]. split; try done.
    + intros x Hx. apply Hst. by right.
    + intros x Hx Hx'. destruct (decide (x = p)) as [->|Hne]; [done|].
      apply Hd; [done|]. intros [?|?]%elem_of_cons; auto.
  - destruct (push_unseen _ (seen, rest)) as [seen' stack'] eqn:Hpu.
    pose proof (push_unseen_elem _ _ _ _ _ Hpu) as (E1 & E2 & E3 & E4).
    assert (Hpre : forall y, y ∈ prereqs_of (BTree.get p (by_name manifests)) <-> needs p y)
      by (intros; apply prereqs_get).
    assert (Hps : p ∈ seen) by (apply Hst; left). apply IH.
    + split.
      * intros x Hx. apply E1. left. auto.
      * intros x [Hx|Hx]%E2; apply E1; [left; apply Hst; by right|by right].
      * intros x [Hx|Hx]%E1; [auto|]. right. apply Hpre in Hx.
        destruct (Hso p Hps) as [Hp'|(y & Hy & Hyp)].
        -- exists p. split; [done|by apply tc_once].
        -- exists y. split; [done|]. eapply tc_r; [exact Hyp|done].
      * intros x Hx Hx'. rewrite elem_of_app, list_elem_of_singleton.
        destruct (decide (x = p)) as [->|Hne]; [auto|].
        assert (Hxs : x ∈ seen) by (apply E1 in Hx as [?|Hx]; [done|by destruct (E4 x Hx)]).
        destruct (Hd x Hxs) as [?|?]; auto. intros [?|?]%elem_of_cons; auto.
      * intros x [Hx| ->%list_elem_of_singleton]%elem_of_app.
        -- destruct (Hc x Hx) as (H1 & H2 & H3). split_and!; [apply E1; auto|done|].
           intros y Hy. apply E1. auto.
        -- split_and!; [apply E1; auto|naive_solver|]. intros y Hy. apply E1. right. by apply Hpre.
      * apply NoDup_app. split_and!; [done| |apply NoDup_singleton].
        intros x Hx ->%list_elem_of_singleton. naive_solver.
    + pose proof (push_unseen_work universe (prereqs_of (BTree.get p (by_name manifests)))
        ltac:(intros y Hy; apply (needs_universe p), Hpre, Hy) _ _ _ _ Hpu).
      unfold work in *. simpl in Hw. lia.
Qed.

Lemma closure_of_spec (ranked : list (string * RankedManifest)) (selected : list string)
    (m : ToolManifest) :
  m ∈ manifests ->
  exists closure, closure_of manifests ranked selected (tm_name m) = Some closure
    /\ NoDup closure /\ (forall x, x ∈ closure -> (x ∉ selected) /\ depends (tm_name m) x)
    /\ (forall x, x ∈ tm_prerequisites m -> x ∈ selected \/ x ∈ closure)
    /\ (forall x y, x ∈ closure -> needs x y -> y ∈ selected \/ y ∈ closure).
Proof.
  intros Hm. assert (Hget : BTree.get (tm_name m) (by_name manifests) = Some m) by by apply by_name_spec.
  unfold closure_of. rewrite Hget. cbn [prereqs_of].
  destruct (closure_walk_inv selected (tm_prerequisites m) (walk_fuel manifests)
              (reverse (tm_prerequisites m)) (reverse (tm_prerequisites m)) [])
    as (out & seen & -> & [Hs _ Hso Hd Hc Hn]).
  - split; try (intros x; rewrite ?elem_of_reverse; try done; intros Hx).
    + by left.
    + by apply elem_of_nil in Hx.
    + constructor.
  - apply start_work. rewrite length_reverse. by apply prereqs_length.
  - exists (sort_by (key_leb ranked) out). split; [done|].
    assert (Hfin : forall x, x ∈ seen -> x ∈ selected \/ x ∈ sort_by (key_leb ranked) out).
    { intros x Hx. rewrite sort_by_elem. apply Hd; [done|apply not_elem_of_nil]. }
    split_and!.
    + by rewrite sort_by_perm.
    + intros x Hx. rewrite sort_by_elem in Hx. destruct (Hc x Hx) as (Hx' & Hns & _).
      split; [done|]. destruct (Hso x Hx') as [Hst|(y & Hy & Hyx)].
      * apply tc_once. by exists m.
      * eapply tc_l; [|exact Hyx]. by exists m.
    + auto.
    + intros x y Hx Hy. rewrite sort_by_elem in Hx. apply Hfin. by apply (Hc x Hx).
Qed.

(** ** Gates and ranking *)
Section Ranking.
Context (features : SelectionFeatures) (weights : SelectionWeights).

Definition eligible_tools : list ToolManifest :=
  List.filter (fun m => negb (above_ceiling features m)) manifests.
Definition pool : list string := map tm_name eligible_tools.

Definition clears (m : ToolManifest) : bool :=
  match missing_of manifests pool m with Some [] => true | _ => false end.

Definition cleared : list ToolManifest := List.filter clears eligible_tools.
Definition ranking : list RankedManifest := sort_by rank_leb (map (score features weights) cleared).
Definition ranked : list (string * RankedManifest) :=
  BTree.from_list (map (fun r => (rm_name r, r)) ranking).

Lemma eligible_elem (m : ToolManifest) :
  m ∈ eligible_tools <-> m ∈ manifests /\ above_ceiling features m = false.
Proof.
  unfold eligible_tools. rewrite !list_elem_of_In, List.filter_In, negb_true_iff. done.
Qed.

Lemma cleared_elem (m : ToolManifest) : m ∈ cleared <-> m ∈ eligible_tools /\ clears m = true.
Proof. unfold cleared. by rewrite !list_elem_of_In, List.filter_In. Qed.

(** How gate 2 excludes a tool. *)
Definition unsatisfied (m : ToolManifest) : ExcludedManifest :=
  mkExcluded (tm_name m) (UnsatisfiedPrerequisites (default [] (missing_of manifests pool m))).

Lemma gate_spec (ms : list ToolManifest) :
  (forall m, m ∈ ms -> m ∈ manifests) ->
  forall kept excluded,
    gate_prerequisites manifests pool ms kept excluded
    = Some (kept ++ List.filter clears ms,
            excluded ++ map unsatisfied (List.filter (fun m => negb (clears m)) ms))%list.
Proof.
  induction ms as [|m ms IH]; intros Hin kept excluded; [simpl; by rewrite !app_nil_r|].
  assert (Hin' : forall m, m ∈ ms -> m ∈ manifests) by (intros; apply Hin; by right).
  destruct (missing_of_spec pool m) as (missing & Hmiss & _); [apply Hin; left|].
  cbn [gate_prerequisites List.filter]. rewrite Hmiss. cbn [mbind option_bind].
  destruct missing as [|x xs].
  - assert (clears m = true) as -> by (unfold clears; by rewrite Hmiss).
    by rewrite IH, <- app_assoc by done.
  - assert (clears m = false) as -> by (unfold clears; by rewrite Hmiss).
    rewrite IH, <- app_assoc by done. cbn [negb map app]. unfold unsatisfied at 2.
    by rewrite Hmiss.
Qed.

Lemma filter_partition {A : Type} (f : A -> bool) (l : list A) :
  List.filter f l ++ List.filter (fun x => negb (f x)) l ≡ₚ l.
Proof.
  induction l as [|x l IH]; simpl; [done|]. destruct (f x); simpl; [by rewrite IH|].
  rewrite <- Permutation_middle. by rewrite IH.
Qed.

Lemma cleared_names : NoDup (map tm_name cleared).
Proof.
  unfold cleared, eligible_tools.
  assert (Hsub : forall (f : ToolManifest -> bool) l, NoDup (map tm_name l) ->
            NoDup (map tm_name (List.filter f l))).
  { intros f l Hl. rewrite <- (filter_partition f l), map_app in Hl. by apply NoDup_app in Hl as [? _]. }
  by apply Hsub, Hsub.
Qed.

Lemma ranking_elem (r : RankedManifest) :
  r ∈ ranking <-> exists m, m ∈ cleared /\ r = score features weights m.
Proof.
  unfold ranking. rewrite sort_by_elem, list_elem_of_fmap. naive_solver.
Qed.

Lemma ranking_names : map rm_name ranking ≡ₚ map tm_name cleared.
Proof. unfold ranking. rewrite sort_by_perm, map_map. done. Qed.

Lemma ranked_spec (p : string) (r : RankedManifest) :
  BTree.get p ranked = Some r <-> r ∈ ranking /\ rm_name r = p.
Proof.
  unfold ranked. split.
  - intros Hg%get_from_list_In. by apply list_elem_of_fmap in Hg as (r' & [= -> ->] & Hr).
  - intros [Hr <-]. apply get_from_list_NoDup.
    + rewrite <- list_fmap_compose. change (NoDup (map rm_name ranking)).
      rewrite ranking_names. apply cleared_names.
    + apply list_elem_of_fmap. by exists r.
Qed.

(** What a cleared tool demands is cleared. *)
Lemma cleared_closed (m : ToolManifest) (p : string) :
  m ∈ cleared -> p ∈ tm_prerequisites m -> exists m', m' ∈ cleared /\ tm_name m' = p.
Proof.
  intros [He Hc]%cleared_elem Hp. apply eligible_elem in He as [Hm _].
  destruct (missing_of_spec pool m Hm) as (missing & Hmiss & Hspec).
  unfold clears in Hc. rewrite Hmiss in Hc. destruct missing; [|done].
  assert (Hall : forall x, demanded pool (tm_prerequisites m) x -> x ∈ pool).
  { intros x Hx. destruct (decide (x ∈ pool)) as [|Hn]; [done|].
    exfalso. apply (not_elem_of_nil x). by apply Hspec. }
  pose proof (Hall p (demanded_start _ _ _ Hp)) as Hpool.
  apply list_elem_of_fmap in Hpool as (m' & Hn & He'). exists m'. split; [|done].
  apply cleared_elem. split; [done|]. apply eligible_elem in He' as [Hm' _].
  destruct (missing_of_spec pool m' Hm') as (missing' & Hmiss' & Hspec').
  unfold clears. rewrite Hmiss'. destruct missing' as [|x xs]; [done|]. exfalso.
  destruct (proj1 (Hspec' x) (list_elem_of_here x xs)) as [Hd Hnx]. apply Hnx, Hall.
  assert (Hpp : p ∈ pool) by by apply Hall, demanded_start.
  clear -Hd Hm' Hn Hp Hpp. induction Hd as [x Hx|x y _ IH Hx Hy].
  - apply (demanded_next _ _ p); [by apply demanded_start|done|by exists m'].
  - by apply (demanded_next _ _ x).
Qed.

(** ** The greedy pass *)

Record greedy_inv (k : nat) (selected : list RankedManifest) (names : list string) : Prop := {
  gv_names : forall x, x ∈ names <-> x ∈ map rm_name selected;
  gv_ranked : forall r, r ∈ selected -> r ∈ ranking;
  gv_closed : forall x y, x ∈ names -> needs x y -> y ∈ names;
  gv_bound : length selected <= k;
}.

(** The tools a closure brings are all ranked. *)
Lemma depends_cleared (m : ToolManifest) (x : string) :
  m ∈ cleared -> depends (tm_name m) x -> exists m', m' ∈ cleared /\ tm_name m' = x.
Proof.
  intros Hm Hd. remember (tm_name m) as a eqn:Ha. revert m Hm Ha.
  induction Hd as [a x Hn|a b x Hn _ IH]; intros m Hm ->;
    destruct Hn as (m' & Hm' & He & Hx);
    assert (m' = m) as -> by (apply manifest_unique; [done|by apply cleared_elem, proj1, eligible_elem in Hm as [? _]|done]).
  - by apply (cleared_closed m).
  - destruct (cleared_closed m b Hm Hx) as (mb & Hmb & Hb). by apply (IH mb).
Qed.

Lemma taken_names (closure : list string) :
  (forall x, x ∈ closure -> exists m, m ∈ cleared /\ tm_name m = x) ->
  map rm_name (omap (fun p => BTree.get p ranked) closure) = closure
  /\ List.filter (fun p => BTree.contains_key p ranked) closure = closure.
Proof.
  induction closure as [|x closure IH]; intros Hall; simpl; [done|].
  destruct (Hall x) as (m & Hm & Hx); [left|].
  assert (Hg : BTree.get x ranked = Some (score features weights m)).
  { apply ranked_spec. split; [|done]. apply ranking_elem. by exists m. }
  destruct IH as [IH1 IH2]; [intros y Hy; apply Hall; by right|].
  assert (Hk : BTree.contains_key x ranked = true) by (unfold BTree.contains_key; by rewrite Hg).
  rewrite Hg, Hk. simpl. split; f_equal; [exact Hx|exact IH1|exact IH2].
Qed.

(** One candidate: skipped, or taken with its closure. *)
Lemma greedy_step (k : nat) (c : RankedManifest) (rest selected : list RankedManifest)
    (names : list string) :
  greedy_inv k selected names -> c ∈ ranking ->
  exists selected' names',
    greedy manifests ranked k (c :: rest) selected names
      = greedy manifests ranked k rest selected' names'
    /\ greedy_inv k selected' names' /\ (forall r, r ∈ selected -> r ∈ selected')
    /\ ((forall x, ~ depends x x) -> NoDup (map rm_name selected) ->
        NoDup (map rm_name selected') /\ (length ranking <= k -> c ∈ selected')).
Proof.
  intros [Hn Hr Hc Hb] Hcr. cbn [greedy].
  destruct (decide (rm_name c ∈ names)) as [Hin|Hout].
  { exists selected, names. split_and!; try done. intros _ Hnd. split; [done|]. intros _.
    apply Hn, list_elem_of_fmap in Hin as (r & Hrc & Hrs).
    assert (r = c) as ->; [|done].
    assert (Some r = Some c) as [= ->]; [|done].
    rewrite <- (proj2 (ranked_spec (rm_name c) c)) by done. symmetry. apply ranked_spec. auto. }
  pose proof Hcr as (m & Hm & Hcm)%ranking_elem. subst c.
  destruct (closure_of_spec ranked names m) as (closure & Hcl & Hnd & Hsnd & Hpre & Hcc);
    [by apply cleared_elem, proj1, eligible_elem in Hm as [? _]|].
  cbn [rm_name score] in *. rewrite Hcl. cbn [mbind option_bind].
  destruct (taken_names closure) as [Ht Hf].
  { intros x Hx. apply (depends_cleared m); [done|]. by apply Hsnd. }
  set (c := score features weights m) in *. set (taken := omap _ closure) in *.
  assert (Hlt : length taken = length closure) by (rewrite <- (length_map rm_name taken), Ht; done).
  assert (Hnew : map rm_name (selected ++ taken ++ [c])%list
                 = (map rm_name selected ++ closure ++ [tm_name m])%list)
    by (rewrite !map_app, Ht; done).
  assert (Hdup : (forall x, ~ depends x x) -> NoDup (map rm_name selected) ->
            NoDup (map rm_name (selected ++ taken ++ [c])%list)).
  { intros Hacyc Hsd. rewrite Hnew. apply NoDup_app. split_and!; [done| |].
    - intros x Hx [Hx'|Hx'%list_elem_of_singleton]%elem_of_app.
      + destruct (Hsnd x Hx') as [Hns _]. by apply Hns, Hn.
      + subst x. by apply Hout, Hn.
    - apply NoDup_app. split_and!; [done| |apply NoDup_singleton].
      intros x Hx ->%list_elem_of_singleton. destruct (Hsnd _ Hx) as [_ Hd]. by apply (Hacyc _ Hd). }
  assert (Hrk : forall r, r ∈ (selected ++ taken ++ [c])%list -> r ∈ ranking).
  { intros r [Hrs|[Hrs| ->%list_elem_of_singleton]%elem_of_app]%elem_of_app; [auto| |done].
    apply list_elem_of_omap in Hrs as (p & _ & Hp). by apply ranked_spec in Hp as [? _]. }
  destruct (Nat.ltb_spec k (length selected + (length closure + 1))) as [Hk|Hk].
  - exists selected, names. split_and!; try done. intros Hacyc Hsd. split; [done|]. intros Hlr.
    exfalso. specialize (Hdup Hacyc Hsd). rewrite Hnew in Hdup.
    assert (Hsub : length (map rm_name selected ++ closure ++ [tm_name m]) <= length (map rm_name ranking)).
    { apply submseteq_length, NoDup_submseteq; [done|]. intros x Hx. rewrite <- Hnew in Hx.
      apply list_elem_of_fmap in Hx as (r & -> & Hrs). by apply list_elem_of_fmap_2, Hrk. }
    rewrite !length_app, !length_map in Hsub. simpl in Hsub. lia.
  - rewrite Hf. exists (selected ++ taken ++ [c])%list, (tm_name m :: closure ++ names)%list.
    split; [done|]. split; [|split].
    + split.
      * intros x. rewrite Hnew. specialize (Hn x). set_solver.
      * done.
      * intros x y Hx Hxy.
        assert (Hy : y ∈ names \/ y ∈ closure); [|set_solver].
        apply elem_of_cons in Hx as [->|[Hx|Hx]%elem_of_app]; [|by apply (Hcc x)|left; by apply (Hc x)].
        destruct Hxy as (m' & Hm' & He & Hy). apply Hpre.
        assert (m = m') as ->; [|done]. apply manifest_unique; [|done|done].
        by apply cleared_elem, proj1, eligible_elem in Hm as [? _].
      * rewrite !length_app, Hlt. simpl. lia.
    + intros r Hrs. apply elem_of_app. by left.
    + intros Hacyc Hsd. split; [auto|]. intros _. rewrite !elem_of_app. right. right.
      by apply list_elem_of_singleton.
Qed.

Lemma greedy_spec (k : nat) (candidates : list RankedManifest) :
  (forall c, c ∈ candidates -> c ∈ ranking) ->
  forall selected names, greedy_inv k selected names ->
    exists out names', greedy manifests ranked k candidates selected names = Some out
      /\ greedy_inv k out names' /\ (forall r, r ∈ selected -> r ∈ out)
      /\ ((forall x, ~ depends x x) -> NoDup (map rm_name selected) ->
          NoDup (map rm_name out)
          /\ (length ranking <= k -> forall c, c ∈ candidates -> c ∈ out)).
Proof.
  induction candidates as [|c rest IH]; intros Hin selected names Hi.
  { exists selected, names. split_and!; try done. intros _ Hnd. split; [done|].
    intros _ c Hc. by apply elem_of_nil in Hc. }
  destruct (greedy_step k c rest selected names Hi) as (s' & n' & -> & Hi' & Hsub & Hnd);
    [apply Hin; left|].
  destruct (IH ltac:(intros; apply Hin; by right) s' n' Hi') as (out & n2 & -> & Hi2 & Hsub2 & Hnd2).
  exists out, n2. split_and!; try done; [auto|]. intros Hacyc Hsd.
  destruct (Hnd Hacyc Hsd) as [Hsd' Hc]. destruct (Hnd2 Hacyc Hsd') as [Hout Hall].
  split; [done|]. intros Hk x [->|Hx]%elem_of_cons; auto.
Qed.

(** ** The shortlist *)

Lemma rank_leb_total (a b : RankedManifest) : rank_leb a b = true \/ rank_leb b a = true.
Proof.
  unfold rank_leb. destruct (N.ltb_spec (rm_score b) (rm_score a)); [by left|].
  destruct (N.ltb_spec (rm_score a) (rm_score b)); [by right|].
  assert (rm_score a = rm_score b) as -> by lia. rewrite N.eqb_refl. simpl.
  apply str_leb_total.
Qed.

Lemma rank_leb_spec (a b : RankedManifest) :
  rank_leb a b = true <->
  (rm_score b < rm_score a)%N \/ rm_score a = rm_score b /\ str_leb (rm_name a) (rm_name b) = true.
Proof.
  unfold rank_leb. rewrite orb_true_iff, andb_true_iff, N.ltb_lt, N.eqb_eq. done.
Qed.

Lemma rank_leb_trans (a b c : RankedManifest) :
  rank_leb a b = true -> rank_leb b c = true -> rank_leb a c = true.
Proof.
  rewrite !rank_leb_spec. intros [H1|[H1 N1]] [H2|[H2 N2]]; [left; lia..|].
  right. split; [congruence|]. apply str_leb_spec in N1, N2. apply str_leb_spec.
  destruct N1 as [N1|N1], N2 as [N2|N2]; try (rewrite ?N1, <- ?N2; by auto).
  left. by eapply str_lt_trans.
Qed.

(** The tools left out, in input order. *)
Definition left_out : list ExcludedManifest :=
  (map (fun m => mkExcluded (tm_name m) EffectAboveCeiling)
     (List.filter (above_ceiling features) manifests)
   ++ map unsatisfied (List.filter (fun m => negb (clears m)) eligible_tools))%list.

Lemma select_weighted_unfold (k : nat) :
  select_weighted features manifests k weights
  = (selected ← greedy manifests ranked k ranking [] [];
     Some (mkShortlist selected ranking (sort_by excluded_leb left_out))).
Proof.
  unfold select_weighted. cbv zeta. fold eligible_tools. fold pool.
  by rewrite (gate_spec eligible_tools ltac:(intros m Hm; by apply eligible_elem in Hm as [? _])).
Qed.

Lemma partitioned :
  map rm_name ranking ++ map xm_name left_out ≡ₚ map tm_name manifests.
Proof.
  unfold left_out. rewrite ranking_names, map_app, !map_map. cbn [xm_name unsatisfied].
  rewrite (Permutation_app_comm (map _ (List.filter (above_ceiling features) manifests))), app_assoc.
  rewrite <- (map_app tm_name cleared). unfold cleared. rewrite filter_partition.
  rewrite <- map_app. unfold eligible_tools.
  rewrite (Permutation_app_comm (List.filter (fun m => negb _) manifests)).
  by rewrite filter_partition.
Qed.

(** What a shortlist of at most [k] tools is. *)
Record shortlisted (k : nat) (sl : ToolShortlist) : Prop := {
  sh_partition : map rm_name (sl_ranking sl) ++ map xm_name (sl_excluded sl) ≡ₚ map tm_name manifests;
  sh_sorted : LebSorted rank_leb (sl_ranking sl);
  sh_ranking : forall r, r ∈ sl_ranking sl <->
    exists m, m ∈ manifests /\ effect_rank (tm_effect m) <= effect_rank (sf_effect_ceiling features)
              /\ (forall x, demanded pool (tm_prerequisites m) x -> x ∈ pool)
              /\ r = score features weights m;
  sh_selected : forall r, r ∈ sl_selected sl -> r ∈ sl_ranking sl;
  sh_bound : length (sl_selected sl) <= k;
  sh_closed : forall r y, r ∈ sl_selected sl -> needs (rm_name r) y ->
    y ∈ map rm_name (sl_selected sl);
  sh_distinct : (forall x, ~ depends x x) -> NoDup (map rm_name (sl_selected sl));
  sh_complete : (forall x, ~ depends x x) -> length manifests <= k ->
    sl_selected sl ≡ₚ sl_ranking sl;
}.

Lemma clears_spec (m : ToolManifest) :
  m ∈ manifests ->
  clears m = true <-> forall x, demanded pool (tm_prerequisites m) x -> x ∈ pool.
Proof.
  intros Hm. destruct (missing_of_spec pool m Hm) as (missing & Hmiss & Hspec).
  unfold clears. rewrite Hmiss. destruct missing as [|y ys]; split; try done.
  - intros _ x Hx. destruct (decide (x ∈ pool)) as [|Hn]; [done|]. exfalso.
    apply (not_elem_of_nil x). by apply Hspec.
  - intros Hall. destruct (proj1 (Hspec y) (list_elem_of_here y ys)) as [Hd Hn].
    by destruct (Hn (Hall y Hd)).
Qed.

Lemma select_weighted_shortlists (k : nat) :
  exists sl, select_weighted features manifests k weights = Some sl /\ shortlisted k sl.
Proof.
  rewrite select_weighted_unfold.
  destruct (greedy_spec k ranking ltac:(done) [] []) as (out & names & -> & [Hn Hr Hc Hb] & _ & Hac).
  { split; simpl; try done; try lia; intros ? ?; set_solver. }
  eexists. split; [reflexivity|].
  assert (Hrn : NoDup (map rm_name ranking)) by (rewrite ranking_names; apply cleared_names).
  split; simpl.
  - rewrite (sort_by_perm excluded_leb). apply partitioned.
  - apply sort_by_sorted; [apply rank_leb_total|apply rank_leb_trans].
  - intros r. rewrite ranking_elem. split.
    + intros (m & [He Hcl]%cleared_elem & ->). apply eligible_elem in He as [Hm Ha].
      exists m. split_and!; [done|by apply Nat.ltb_ge|by apply clears_spec|done].
    + intros (m & Hm & Ha & Hd & ->). exists m. split; [|done]. apply cleared_elem.
      split; [by apply eligible_elem; split; [|apply Nat.ltb_ge]|by apply clears_spec].
  - done.
  - done.
  - intros r y Hrs Hy. apply Hn. apply (Hc (rm_name r)); [|done]. apply Hn.
    by apply list_elem_of_fmap_2.
  - intros Hacyc. by apply Hac; [|constructor].
  - intros Hacyc Hk. destruct (Hac Hacyc ltac:(constructor)) as [Hnd Hall].
    assert (Hlen : length ranking <= k).
    { rewrite <- (length_map rm_name ranking), ranking_names, length_map. unfold cleared, eligible_tools.
      etrans; [apply filter_length_le|]. etrans; [apply filter_length_le|done]. }
    apply NoDup_Permutation; [by apply NoDup_fmap_1 in Hnd|by apply NoDup_fmap_1 in Hrn|].
    intros r. split; [apply Hr|by apply Hall].
Qed.
End Ranking.

(** The bound a policy sets. *)
Definition limit (policy : ToolSelectionPolicy) : nat :=
  if (length manifests <=? sp_cutoff policy)%nat then length manifests else sp_k policy.
End Selection.

(** C35: the shortlist. For tools with distinct names the selection returns:
    every tool is ranked or excluded, once; the ranked ones are exactly those
    within the effect ceiling all of whose transitive prerequisites are too,
    in descending score and ascending name; the selected ones are ranked, at
    most as many as the policy allows, and contain the prerequisites of each
    of them. When no tool depends on itself none is selected twice, and up to
    the cutoff every ranked tool is selected. *)
Theorem shortlist_sound (features : SelectionFeatures) (manifests : list ToolManifest)
    (policy : ToolSelectionPolicy) :
  NoDup (map tm_name manifests) ->
  exists sl, shortlist features manifests policy = Some sl
    /\ shortlisted manifests features (sp_weights policy) (limit manifests policy) sl.
Proof.
  intros Hnd. unfold shortlist, limit. destruct (_ <=? _)%nat;
    by apply select_weighted_shortlists.
Qed.

(** ** Order *)
Section Order.
Context (ms ms' : list ToolManifest).
Hypothesis distinct : NoDup (map tm_name ms).
Hypothesis same : ms ≡ₚ ms'.

Lemma distinct' : NoDup (map tm_name ms').
Proof. by rewrite <- same. Qed.

Lemma find_manifest_same (p : string) : find_manifest ms p = find_manifest ms' p.
Proof.
  apply option_eq. intros m. rewrite (find_manifest_spec ms), (find_manifest_spec ms');
    [by rewrite same|apply distinct'|done].
Qed.

Lemma by_name_same : by_name ms = by_name ms'.
Proof.
  apply BTree.ext; [apply BTree.from_list_Sorted..|]. intros p. apply option_eq. intros m.
  rewrite (by_name_spec ms), (by_name_spec ms'); [by rewrite same|apply distinct'|done].
Qed.

Lemma walk_fuel_same : walk_fuel ms = walk_fuel ms'.
Proof.
  assert (Hl : forall l l' : list ToolManifest, l ≡ₚ l' ->
    length (concat (map tm_prerequisites l)) = length (concat (map tm_prerequisites l'))).
  { induction 1; simpl; rewrite ?length_app; lia. }
  unfold walk_fuel. by rewrite (Hl ms ms' same).
Qed.

Lemma gate_walk_same (pool pool' : list string) (fuel : nat) :
  pool ≡ₚ pool' ->
  forall seen stack missing,
    gate_walk fuel ms pool seen stack missing = gate_walk fuel ms' pool' seen stack missing.
Proof.
  intros Hp. induction fuel as [|fuel IH]; intros seen [|p rest] missing; simpl; [done..|].
  rewrite <- find_manifest_same. destruct (push_unseen _ _) as [seen' stack'].
  destruct (decide (p ∈ pool)) as [Hin|Hin], (decide (p ∈ pool')) as [Hin'|Hin']; try apply IH;
    rewrite Hp in Hin; done.
Qed.

Lemma missing_of_same (pool pool' : list string) (m : ToolManifest) :
  pool ≡ₚ pool' -> missing_of ms pool m = missing_of ms' pool' m.
Proof.
  intros Hp. unfold missing_of. rewrite walk_fuel_same. by erewrite gate_walk_same.
Qed.

Lemma filter_permutes {A : Type} (f g : A -> bool) (l l' : list A) :
  (forall x, f x = g x) -> l ≡ₚ l' -> List.filter f l ≡ₚ List.filter g l'.
Proof.
  intros Hfg. induction 1 as [|x l l' _ IH|x y l|l l1 l2 _ IH1 _ IH2]; simpl; rewrite <- ?Hfg.
  - done.
  - destruct (f x); by rewrite IH.
  - rewrite (List.filter_ext _ _ Hfg). destruct (f x), (f y); by try constructor.
  - etrans; [exact IH1|]. etrans; [|exact IH2]. by rewrite (List.filter_ext _ _ Hfg).
Qed.

Context (features : SelectionFeatures) (weights : SelectionWeights).

Lemma eligible_same : eligible_tools ms features ≡ₚ eligible_tools ms' features.
Proof. by apply filter_permutes. Qed.

Lemma pool_same : pool ms features ≡ₚ pool ms' features.
Proof. unfold pool. by rewrite eligible_same. Qed.

Lemma clears_same (m : ToolManifest) : clears ms features m = clears ms' features m.
Proof. unfold clears. by rewrite (missing_of_same _ _ m pool_same). Qed.

Lemma cleared_same : cleared ms features ≡ₚ cleared ms' features.
Proof. apply filter_permutes; [apply clears_same|apply eligible_same]. Qed.

Lemma named_unique {A : Type} (name : A -> string) (l : list A) (x y : A) :
  NoDup (map name l) -> x ∈ l -> y ∈ l -> name x = name y -> x = y.
Proof.
  intros Hnd [i Hi]%list_elem_of_lookup [k Hk]%list_elem_of_lookup He.
  assert (i = k) as ->; [|congruence].
  apply (NoDup_lookup (map name l) i k (name x)); [done|by rewrite list_lookup_fmap, Hi|].
  by rewrite list_lookup_fmap, Hk, He.
Qed.

Lemma ranking_same : ranking ms features weights = ranking ms' features weights.
Proof.
  unfold ranking. apply sort_by_unique; [apply rank_leb_total|apply rank_leb_trans| |].
  - by rewrite cleared_same.
  - intros x y Hx Hy Hxy Hyx. apply (named_unique rm_name (map (score features weights) (cleared ms features)));
      [|done|done|].
    + rewrite map_map. change (NoDup (map tm_name (cleared ms features))).
      by apply cleared_names.
    + apply rank_leb_spec in Hxy, Hyx. destruct Hxy as [?|[? Hxy]], Hyx as [?|[? Hyx]]; try lia.
      by apply str_leb_antisym.
Qed.

Lemma excluded_leb_total (a b : ExcludedManifest) : excluded_leb a b = true \/ excluded_leb b a = true.
Proof. apply str_leb_total. Qed.

Lemma left_out_same :
  sort_by excluded_leb (left_out ms features) = sort_by excluded_leb (left_out ms' features).
Proof.
  apply sort_by_unique; [apply excluded_leb_total|intros ? ? ?; apply str_leb_trans| |].
  - unfold left_out. f_equiv; [by rewrite (filter_permutes (above_ceiling features) _ _ _ (fun _ => eq_refl) same)|].
    rewrite (filter_permutes (fun m => negb (clears ms features m)) (fun m => negb (clears ms' features m))
               _ (eligible_tools ms' features)); [|intros x; by rewrite clears_same|apply eligible_same].
    erewrite map_ext; [done|]. intros m. unfold unsatisfied.
    by rewrite (missing_of_same _ _ m pool_same).
  - intros x y Hx Hy Hxy Hyx. apply (named_unique xm_name (left_out ms features)); [|done|done|].
    + pose proof (partitioned ms features weights) as Hp.
      assert (Hnd : NoDup (map rm_name (ranking ms features weights) ++ map xm_name (left_out ms features))%list)
        by by rewrite Hp.
      by apply NoDup_app in Hnd as (_ & _ & ?).
    + by apply str_leb_antisym.
Qed.

Lemma greedy_same (rk : list (string * RankedManifest)) (k : nat) (cs : list RankedManifest) :
  forall selected names, greedy ms rk k cs selected names = greedy ms' rk k cs selected names.
Proof.
  induction cs as [|c cs IH]; intros selected names; cbn [greedy]; [done|].
  unfold closure_of. rewrite by_name_same, walk_fuel_same. destruct (decide _); [apply IH|].
  destruct (_ <$> _) as [closure|]; [|done]. cbn [mbind option_bind].
  destruct (_ <? _)%nat; apply IH.
Qed.

Lemma select_weighted_same (k : nat) :
  select_weighted features ms k weights = select_weighted features ms' k weights.
Proof.
  rewrite (select_weighted_unfold ms distinct), (select_weighted_unfold ms' distinct').
  unfold ranked. rewrite ranking_same, left_out_same, greedy_same. done.
Qed.
End Order.

(** The shortlist is a function of the set of tools: handing the same
    distinct tools in another order selects, ranks and excludes the same
    ones in the same order. *)
Theorem shortlist_order_free (features : SelectionFeatures) (ms ms' : list ToolManifest)
    (policy : ToolSelectionPolicy) :
  NoDup (map tm_name ms) -> ms ≡ₚ ms' ->
  shortlist features ms policy = shortlist features ms' policy.
Proof.
  intros Hnd Hp. unfold shortlist. rewrite (Permutation_length Hp).
  destruct (_ <=? _)%nat; by apply select_weighted_same.
Qed.

Module SelectExamples.
Definition tool (name : string) (e : Effect) (tags prereqs : list string) : ToolManifest :=
  mkToolManifest name "does things" Null e tags None CostMedium true false prereqs.

Definition asked : SelectionFeatures :=
  mkFeatures ["web"] Idempotent [("fetch", mkOutcomeStats 4 3 0)].

Definition tools : list ToolManifest :=
  [tool "search" ReadOnly ["web"] ["login"]; tool "login" Idempotent [] [];
   tool "fetch" ReadOnly [] []; tool "wipe" NonIdempotent ["web"] [];
   tool "post" Idempotent ["web"] ["wipe"]].

Definition top_two : ToolSelectionPolicy := mkSelectionPolicy 1 2 default_weights.

Lemma tools_distinct : NoDup (map tm_name tools).
Proof. apply (bool_decide_unpack _). vm_compute. exact I. Qed.

Lemma shortlist_sound_witness :
  exists sl, shortlist asked tools top_two = Some sl
    /\ length (sl_selected sl) <= 2
    /\ map rm_name (sl_selected sl) = ["login"; "search"].
Proof.
  destruct (shortlist_sound asked tools top_two tools_distinct) as (sl & Hs & Hp).
  exists sl. split; [exact Hs|]. split; [apply (sh_bound _ _ _ _ _ Hp)|].
  assert (Some sl = shortlist asked tools top_two) as He by done.
  vm_compute in He. injection He as ->. reflexivity.
Defined.

Lemma shortlist_order_free_witness :
  shortlist asked tools top_two = shortlist asked (reverse tools) top_two.
Proof.
  apply (shortlist_order_free asked tools (reverse tools) top_two tools_distinct).
  symmetry. apply reverse_Permutation.
Defined.

(** Two tools that need each other: with room for three the candidate is
    selected twice; within the cutoff, where every eligible tool should be
    selected, neither is. *)
Definition cyclic : list ToolManifest :=
  [tool "a" ReadOnly [] ["b"]; tool "b" ReadOnly [] ["a"]].

Theorem cyclic_prerequisites_misselected :
  (map rm_name <$> (sl_selected <$> shortlist asked cyclic (mkSelectionPolicy 1 3 default_weights)))
    = Some ["a"; "b"; "a"]
  /\ (map rm_name <$> (sl_selected <$> shortlist asked cyclic default_selection)) = Some []
  /\ (map rm_name <$> (sl_ranking <$> shortlist asked cyclic default_selection)) = Some ["a"; "b"].
Proof. split_and!; vm_compute; reflexivity. Qed.
End SelectExamples.
