(* ===== verification/Tools.v ===== *)
(** * Tools and their dispatch ([rusty-core/src/tool.rs])

    The tool contract, the registry with its live sources, placement, the
    deny-only guards, and the dispatch of one call: lookup, guards, placement,
    effect admission, then the body in process or in a sandbox; the executor
    around it with its middleware, its containment of panics and its batch.
    Tool bodies, hooks, guards and backends act on the run's clocks, journal
    and world ([Live]); only dispatch itself reaches the admission ledger. *)

From Stdlib Require Import String.
From S2P Require Import Prelude Containers Json Error Graph Record Journal Meter Chat Declaration Replay Invariant Effects ReplayRun Text Shaping Middleware.
Local Open Scope string_scope.

(** ** Placement *)

(** [EffectClass], [SandboxRequirement], [Placement], [PlacementError]. *)
Inductive EffectClass : Type := ClassRead | ClassExecute | ClassEgress.
Inductive SandboxRequirement : Type := SandboxNone | SandboxRequired.
Inductive Placement : Type := InProcess | Sandboxed.

#[export] Instance SandboxRequirement_eq_dec : EqDecision SandboxRequirement.
Proof. solve_decision. Defined.

Inductive PlacementError : Type :=
| InvalidDeclaration (tool : string) (effect_class : EffectClass) (req : SandboxRequirement)
| NoBackendAvailable (tool : string) (required : SandboxRequirement).

Definition effect_class_debug (c : EffectClass) : string :=
  match c with ClassRead => "Read" | ClassExecute => "Execute" | ClassEgress => "Egress" end.

Definition requirement_debug (r : SandboxRequirement) : string :=
  match r with SandboxNone => "None" | SandboxRequired => "Required" end.

(** [Display for PlacementError]. *)
Definition placement_text (e : PlacementError) : string :=
  match e with
  | InvalidDeclaration tool c r =>
      "tool `" ++ tool ++ "` declares effect class `" ++ effect_class_debug c
      ++ "` with sandbox requirement " ++ quote ++ requirement_debug r ++ quote
      ++ ": Execute/Egress tools must require a sandbox"
  | NoBackendAvailable tool r =>
      "tool `" ++ tool ++ "` requires sandbox " ++ quote ++ requirement_debug r ++ quote
      ++ " but no sandbox backend is available"
  end.

(** ** The run a tool acts in *)

(** [RunContext]; the journal handle is the run's own, present or not. *)
Record RunContext : Type := mkRunContext {
  rc_run_id : string;
  rc_thread_id : string;
  rc_attribution : option Value;
  rc_execution : option Value;
  rc_agent_id : option string;
  rc_counterpart : option Counterpart;
  rc_journal : bool;
}.

(** [RunContext::tenant], [actor], [person_id]. *)
Definition tenant (c : RunContext) : option string :=
  (rc_execution c ≫= vget "tenant") ≫= as_str.

Definition is_object (v : Value) : bool := match v with Object _ => true | _ => false end.

Definition actor (c : RunContext) : option Value :=
  match a ← (rc_execution c ≫= vget "actor"); if is_object a then Some a else None with
  | Some a => Some a
  | None => rc_attribution c
  end.

Definition person_id (c : RunContext) : option string :=
  match rc_counterpart c with
  | Some (Person p) => Some p
  | Some Nobody => None
  | None =>
      attribution ← rc_attribution c;
      if decide ((vget "kind" attribution ≫= as_str) = Some "user")
      then vget "principal_id" attribution ≫= as_str
      else None
  end.

(** ** The contract *)

(** The [Tool] trait. [ti_call] gets the run in scope ([current_run]);
    [None] from [ti_effect_request] is the [expect] of [EffectRequest::new]. *)
Record ToolImpl (E : Type) : Type := mkToolImpl {
  ti_name : string;
  ti_description : string;
  ti_schema : Value;
  ti_effect : Effect;
  ti_carries_approval : ToolCall -> bool;
  ti_effect_class : EffectClass;
  ti_sandbox_requirement : SandboxRequirement;
  ti_effect_kind : string;
  ti_idempotency_key : Value -> option string;
  ti_effect_request : ToolCall -> option EffectRequest;
  ti_call : option RunContext -> Value -> Act (Live E) (res Value);
}.
Arguments mkToolImpl {E} _ _ _ _ _ _ _ _ _ _ _.
Arguments ti_name {E} _.
Arguments ti_description {E} _.
Arguments ti_schema {E} _.
Arguments ti_effect {E} _.
Arguments ti_carries_approval {E} _ _.
Arguments ti_effect_class {E} _.
Arguments ti_sandbox_requirement {E} _.
Arguments ti_effect_kind {E} _.
Arguments ti_idempotency_key {E} _ _.
Arguments ti_effect_request {E} _ _.
Arguments ti_call {E} _ _ _.

(** [resolve_placement]. *)
Definition resolve_placement {E : Type} (tool : ToolImpl E) (sandbox_available : bool) :
    result PlacementError Placement :=
  match ti_effect_class tool, ti_sandbox_requirement tool with
  | (ClassExecute | ClassEgress) as c, SandboxNone =>
      Err (InvalidDeclaration (ti_name tool) c SandboxNone)
  | ClassRead, SandboxNone => Ok InProcess
  | _, r => if sandbox_available then Ok Sandboxed else Err (NoBackendAvailable (ti_name tool) r)
  end.

(** [ToolRegistry]: a source is read anew at each use. *)
Record ToolRegistry (E : Type) : Type := mkRegistry {
  rg_tools : gmap string (ToolImpl E);
  rg_sources : list (E -> list (ToolImpl E));
}.
Arguments mkRegistry {E} _ _.
Arguments rg_tools {E} _.
Arguments rg_sources {E} _.

(** [ToolCapability]. *)
Record ToolCapability : Type := mkCapability {
  tcp_name : string;
  tcp_description : string;
  tcp_parameters_schema : Value;
  tcp_effect : Effect;
  tcp_reconcile : option string;
}.

(** [MAX_TOOL_SCHEMA_BYTES], [MAX_TOOL_DESCRIPTION_BYTES]. *)
Definition MAX_TOOL_SCHEMA_BYTES : N := 65536.
Definition MAX_TOOL_DESCRIPTION_BYTES : nat := 4 * 1024.

(** The name rule: [1..=128] letters, digits and [._:-]. *)
Definition name_byte (c : Ascii.ascii) : bool :=
  is_alphanumeric c || existsb (Ascii.eqb c) (list_ascii_of_string "._:-").

Definition valid_tool_name (name : string) : bool :=
  negb (String.eqb name EmptyString) && (String.length name <=? 128)%nat
  && forallb name_byte (list_ascii_of_string name).

(** A label: non-empty, trimmed, control-free, bounded. *)
Definition valid_label (value : string) (max : nat) : bool :=
  negb (String.eqb value EmptyString) && String.eqb value (str_trim value)
  && (String.length value <=? max)%nat && negb (has_control value).

Definition tool_name_error (name : string) : RustyError :=
  ETool ("tool name `" ++ name
         ++ "` must use 1..=128 ASCII letters, digits, `.`, `_`, `:`, or `-`").

Section Registry.
Context `{Codec} {E : Type}.

(** [validate_tool_contract]. *)
Definition validate_tool_contract (name description : string) (schema : Value) : res unit :=
  if negb (valid_tool_name name) then Err (tool_name_error name)
  else if negb (valid_label description MAX_TOOL_DESCRIPTION_BYTES)
  then Err (ETool ("tool `" ++ name ++ "` description must be non-empty, trimmed, control-free, and at most "
                   ++ pretty MAX_TOOL_DESCRIPTION_BYTES ++ " bytes"))
  else if negb (is_object schema)
  then Err (ETool ("tool `" ++ name ++ "` parameters schema must be a JSON object"))
  else
    text ← ok_or (to_vec schema)
             (ETool ("tool `" ++ name ++ "` parameters schema did not serialize: "
                     ++ decode_error "Value" schema));
    if (MAX_TOOL_SCHEMA_BYTES <? N.of_nat (String.length text))%N
    then Err (ETool ("tool `" ++ name ++ "` parameters schema exceeds "
                     ++ pretty MAX_TOOL_SCHEMA_BYTES ++ " bytes"))
    else Ok ().

(** [ToolCapability::from_tool]. *)
Definition capability_of (tool : ToolImpl E) : res ToolCapability :=
  validate_tool_contract (ti_name tool) (ti_description tool) (ti_schema tool);;
  Ok (mkCapability (ti_name tool) (ti_description tool) (ti_schema tool) (ti_effect tool) None).

(** The default [Tool::effect_request]. *)
Definition default_effect_request (kind : string) (effect : Effect)
    (key : Value -> option string) (call : ToolCall) : option EffectRequest :=
  request_new kind effect
    (jobj [("arguments", tc_arguments call); ("tool_call_id", Str (tc_id call))])
    (key (tc_arguments call)).

(** [ToolRegistry::new], [register], [register_shared], [unregister],
    [attach]. *)
Definition tools_new : ToolRegistry E := mkRegistry ∅ [].

Definition register_shared (tool : ToolImpl E) (r : ToolRegistry E) : Unwind (ToolRegistry E) :=
  match resolve_placement tool false with
  | Err (InvalidDeclaration _ _ _) =>
      Panics (PayloadString ("tool `" ++ ti_name tool
        ++ "` declares an invalid placement: Execute/Egress tools must require a sandbox"))
  | _ => Returns (mkRegistry (<[ti_name tool := tool]> (rg_tools r)) (rg_sources r))
  end.

Definition unregister (name : string) (r : ToolRegistry E) :
    option (ToolImpl E) * ToolRegistry E :=
  (rg_tools r !! name, mkRegistry (delete name (rg_tools r)) (rg_sources r)).

Definition attach (source : E -> list (ToolImpl E)) (r : ToolRegistry E) : ToolRegistry E :=
  mkRegistry (rg_tools r) (rg_sources r ++ [source]).

(** What the sources provide right now, in order. *)
Definition sourced (r : ToolRegistry E) (env : E) : list (ToolImpl E) :=
  concat (map (fun source => source env) (rg_sources r)).

(** [ToolRegistry::all]. *)
Definition all (r : ToolRegistry E) (env : E) : list (string * ToolImpl E) :=
  fold_left (fun m kv => BTree.insert kv.1 kv.2 m) (map_to_list (rg_tools r))
    (BTree.from_list (map (fun t => (ti_name t, t)) (sourced r env))).

(** [get], [contains], [names], [len], [is_empty], [tools]. *)
Definition registry_get (r : ToolRegistry E) (env : E) (name : string) : option (ToolImpl E) :=
  match rg_tools r !! name with
  | Some t => Some t
  | None => List.find (fun t => String.eqb (ti_name t) name) (sourced r env)
  end.

Definition registry_contains (r : ToolRegistry E) (env : E) (name : string) : bool :=
  match registry_get r env name with Some _ => true | None => false end.

Definition registry_names (r : ToolRegistry E) (env : E) : list string := map fst (all r env).
Definition registry_len (r : ToolRegistry E) (env : E) : nat := length (all r env).
Definition registry_tools (r : ToolRegistry E) (env : E) : list (ToolImpl E) := map snd (all r env).
Definition registry_is_empty (r : ToolRegistry E) (env : E) : bool :=
  bool_decide (rg_tools r = ∅) && forallb (fun source => match source env with [] => true | _ => false end)
                                    (rg_sources r).

(** [schemas]. *)
Definition tool_schema (t : ToolImpl E) : Value :=
  jobj [("type", Str "function");
        ("function", jobj [("name", Str (ti_name t)); ("description", Str (ti_description t));
                           ("parameters", ti_schema t)])].

Definition schemas (r : ToolRegistry E) (env : E) : list Value := map tool_schema (registry_tools r env).

(** [capabilities]. *)
Definition capability_leb (a b : ToolCapability) : bool := str_leb (tcp_name a) (tcp_name b).

Definition capabilities (r : ToolRegistry E) (env : E) : res (list ToolCapability) :=
  caps ← mapM capability_of (registry_tools r env); Ok (sort_by capability_leb caps).

(** [restricted_to]. *)
Fixpoint restrict (r : ToolRegistry E) (env : E) (allowlist seen : list string)
    (selected : ToolRegistry E) : Unwind (res (ToolRegistry E)) :=
  match allowlist with
  | [] => Returns (Ok selected)
  | name :: rest =>
      if decide (name ∈ seen)
      then Returns (Err (ETool ("tool allowlist contains duplicate `" ++ name ++ "`")))
      else
        match registry_get r env name with
        | None => Returns (Err (ETool ("tool allowlist names `" ++ name ++ "`, which is not registered")))
        | Some tool =>
            match register_shared tool selected with
            | Returns selected' => restrict r env rest (name :: seen) selected'
            | Panics p => Panics p
            end
        end
  end.

Definition restricted_to (r : ToolRegistry E) (env : E) (allowlist : list string) :
    Unwind (res (ToolRegistry E)) := restrict r env allowlist [] tools_new.
End Registry.
