(* ===== verification/ArgumentCheck.v ===== *)
(** * Argument validation ([rusty-core/src/tool_select.rs])

    The JSON-schema subset tool arguments are checked against before
    dispatch, the structured refusal a violation becomes and its parser, and
    the specification: a value conforms to a schema. *)

From Stdlib Require Import String Ascii SpecFloat.
From S2P Require Import Prelude Containers Json Error Graph Record Meter Chat Declaration Invariant Text.
Local Open Scope string_scope.
Local Infix "+++" := (@List.app _) (at level 60, right associativity).

(** [ARGUMENT_VALIDATION_KIND], [ERROR_PREFIX]. *)
Definition ARGUMENT_VALIDATION_KIND : string := "argument_validation".
Definition ERROR_PREFIX : string := "ERROR: ".

(** [ArgumentViolation] with its JSON shape. *)
Record ArgumentViolation : Type := mkViolation {
  av_path : string;
  av_rule : string;
  av_message : string;
}.

Definition argument_violation_value (v : ArgumentViolation) : Value :=
  jobj [("path", Str (av_path v)); ("rule", Str (av_rule v)); ("message", Str (av_message v))].

Definition argument_violation_from_value (v : Value) : option ArgumentViolation :=
  fields ← struct_fields ["path"; "rule"; "message"] 3 v;
  match fields with
  | [p; r; m] =>
      path ← p ≫= as_str; rule ← r ≫= as_str; message ← m ≫= as_str;
      Some (mkViolation path rule message)
  | _ => None
  end.

Definition violations_from_value (v : Value) : option (list ArgumentViolation) :=
  match v with Array l => mapM argument_violation_from_value l | _ => None end.

(** ** Types *)

(** The [json_type_name] of this file: integers apart. *)
Definition schema_type_name (v : Value) : string :=
  match v with
  | Null => "null"
  | Bool _ => "boolean"
  | Num (PosInt _) | Num (NegInt _) => "integer"
  | Num (Float _) => "number"
  | Str _ => "string"
  | Array _ => "array"
  | Object _ => "object"
  end.

(** [f.fract() == 0.0]. *)
Definition is_whole (f : Float64) : bool :=
  match f with
  | FZero _ => true
  | FFinite _ m e => (0 <=? e)%Z || (Z.pos m mod 2 ^ (- e) =? 0)%Z
  end.

(** [type_matches]. *)
Definition type_matches (expected : string) (v : Value) : bool :=
  if String.eqb expected "integer" then
    match v with
    | Num (PosInt _) | Num (NegInt _) => true
    | Num (Float f) => is_whole f
    | _ => false
    end
  else if String.eqb expected "number" then match v with Num _ => true | _ => false end
  else String.eqb (schema_type_name v) expected.

Definition type_ok (expected v : Value) : bool :=
  match expected with
  | Str one => type_matches one v
  | Array many => existsb (fun one => type_matches one v) (omap as_str many)
  | _ => true
  end.

(** Comparing floats. *)
Definition f64_ltb (a b : Float64) : bool := SFltb (f64_of a) (f64_of b).

(** [escape_pointer]. *)
Fixpoint escape_pointer (s : string) : string :=
  match s with
  | EmptyString => EmptyString
  | String c s' =>
      if Ascii.eqb c "~"%char then "~0" ++ escape_pointer s'
      else if Ascii.eqb c "/"%char then "~1" ++ escape_pointer s'
      else String c (escape_pointer s')
  end.

Definition as_array (v : Value) : option (list Value) := match v with Array l => Some l | _ => None end.
Definition as_map (v : Value) : option (list (string * Value)) :=
  match v with Object m => Some m | _ => None end.

Definition check_if (bad : bool) (path rule message : string) : list ArgumentViolation :=
  if bad then [mkViolation path rule message] else [].

(** The schema a member is checked against, and whether it is forbidden. *)
Definition child_schema (schema : Value) (key : string) : option Value :=
  match (vget "properties" schema ≫= as_map) ≫= BTree.get key with
  | Some child => Some child
  | None => match vget "additionalProperties" schema with
            | Some (Object m) => Some (Object m)
            | _ => None
            end
  end.

Definition forbidden (schema : Value) (key : string) : bool :=
  match (vget "properties" schema ≫= as_map) ≫= BTree.get key with
  | Some _ => false
  | None => match vget "additionalProperties" schema with Some (Bool false) => true | _ => false end
  end.

Definition required_names (schema : Value) : list string :=
  omap as_str (default [] (vget "required" schema ≫= as_array)).

Section Validation.
Context `{Codec}.

(** [Display for f64]. *)
Variable f64_text : Float64 -> string.

Definition type_check (schema v : Value) (path : string) : list ArgumentViolation :=
  match vget "type" schema with
  | Some expected =>
      check_if (negb (type_ok expected v)) path "type"
        ("expected " ++ value_text expected ++ ", found " ++ schema_type_name v)
  | None => []
  end.

Definition enum_check (schema v : Value) (path : string) : list ArgumentViolation :=
  match vget "enum" schema ≫= as_array with
  | Some variants =>
      check_if (negb (existsb (fun w => value_eqb w v) variants)) path "enum"
        "value is not one of the declared enum variants"
  | None => []
  end.

Definition const_check (schema v : Value) (path : string) : list ArgumentViolation :=
  match vget "const" schema with
  | Some constant =>
      check_if (negb (value_eqb constant v)) path "const" "value does not equal the declared const"
  | None => []
  end.

Definition required_check (schema : Value) (m : list (string * Value)) (path : string) :
    list ArgumentViolation :=
  concat (map (fun name =>
    check_if (negb (BTree.contains_key name m)) path "required"
      ("missing required property `" ++ name ++ "`")) (required_names schema)).

Definition bound_check (schema : Value) (key : string) (bad : N -> bool) (path rule : string)
    (message : N -> string) : list ArgumentViolation :=
  match vget key schema ≫= as_u64 with
  | Some bound => check_if (bad bound) path rule (message bound)
  | None => []
  end.

Definition array_check (schema : Value) (n : N) (path : string) : list ArgumentViolation :=
  bound_check schema "minItems" (fun min => n <? min)%N path "min_items"
     (fun min => "array has " ++ pretty n ++ " items, fewer than the minimum " ++ pretty min)
  +++ bound_check schema "maxItems" (fun max => max <? n)%N path "max_items"
        (fun max => "array has " ++ pretty n ++ " items, more than the maximum " ++ pretty max).

Definition string_check (schema : Value) (n : N) (path : string) : list ArgumentViolation :=
  bound_check schema "minLength" (fun min => n <? min)%N path "min_length"
     (fun min => "string length " ++ pretty n ++ " is below the minimum " ++ pretty min)
  +++ bound_check schema "maxLength" (fun max => max <? n)%N path "max_length"
        (fun max => "string length " ++ pretty n ++ " exceeds the maximum " ++ pretty max).

Definition limit_check (schema v : Value) (key : string) (bad : Float64 -> Float64 -> bool)
    (path rule text : string) : list ArgumentViolation :=
  match vget key schema ≫= as_f64 with
  | Some bound =>
      check_if (match as_f64 v with Some n => bad n bound | None => false end) path rule
        ("value " ++ value_text v ++ text ++ f64_text bound)
  | None => []
  end.

Definition number_check (schema v : Value) (path : string) : list ArgumentViolation :=
  limit_check schema v "minimum" (fun n min => f64_ltb n min) path "minimum" " is below the minimum "
  +++ limit_check schema v "maximum" (fun n max => f64_ltb max n) path "maximum"
        " exceeds the maximum ".

(** [validate_value]. *)
Fixpoint validate_value (v schema : Value) (path : string) : list ArgumentViolation :=
  match type_check schema v path with
  | (_ :: _) as wrong => wrong
  | [] =>
      enum_check schema v path +++ const_check schema v path
      +++ match v with
          | Object m =>
              required_check schema m path
              +++ concat (map (fun kv =>
                   match child_schema schema kv.1 with
                   | Some child => validate_value kv.2 child (path ++ "/" ++ escape_pointer kv.1)
                   | None =>
                       check_if (forbidden schema kv.1) path "additional_properties"
                         ("unexpected property `" ++ kv.1 ++ "`")
                   end) m)
          | Array l =>
              array_check schema (N.of_nat (length l)) path
              +++ match vget "items" schema with
                 | Some item_schema =>
                     (fix items (i : nat) (l : list Value) : list ArgumentViolation :=
                        match l with
                        | [] => []
                        | item :: rest =>
                            validate_value item item_schema (path ++ "/" ++ pretty i)
                            +++ items (S i) rest
                        end) 0 l
                 | None => []
                 end
          | Str text => string_check schema (N.of_nat (chars_count text)) path
          | Num _ => number_check schema v path
          | _ => []
          end
  end.

(** [validate_arguments]. *)
Definition validate_arguments (schema args : Value) : list ArgumentViolation :=
  validate_value args schema EmptyString.

(** [argument_validation_refusal]. *)
Definition argument_validation_refusal (violations : list ArgumentViolation) : string :=
  ERROR_PREFIX
  ++ value_text (jobj [("kind", Str ARGUMENT_VALIDATION_KIND);
                       ("violations", Array (map argument_violation_value violations))]).

(** [parse_argument_validation_refusal]. *)
Definition parse_argument_validation_refusal (content : string) : option (list ArgumentViolation) :=
  body ← strip_prefix ERROR_PREFIX content;
  match from_slice body with
  | Ok value =>
      kind ← vget "kind" value ≫= as_str;
      if String.eqb kind ARGUMENT_VALIDATION_KIND
      then vget "violations" value ≫= violations_from_value
      else None
  | Err _ => None
  end.
End Validation.
