(* ===== verification/ToolWrappers.v ===== *)
(** * Wrapped tools and toolsets ([rusty-core/src/tool_select.rs], [replay.rs])

    The tool decorators (validating, prefixed, prepared, recording), the
    registry transformations and the serializable toolset description, and
    the manifests selection reads: capabilities under operator overlays.
    A decorator defines the trait methods its [impl] lists; the others are
    the trait's defaults. *)

From Stdlib Require Import String.
From S2P Require Import Prelude Containers Json Error Graph Record Journal Meter Chat Declaration Replay Effects ReplayRun Text ArgumentCheck Middleware Tools ToolSelect.
Local Open Scope string_scope.

(** ** Manifests *)

(** [ToolSelectionOverlay], [MAX_TAG_BYTES], [MAX_WHEN_TO_USE_BYTES]. *)
Record ToolSelectionOverlay : Type := mkOverlay {
  ov_tags : list string;
  ov_when_to_use : option string;
  ov_cost_class : option CostClass;
  ov_parallel_safe : option bool;
  ov_batchable : option bool;
  ov_prerequisites : list string;
}.

Definition MAX_TAG_BYTES : nat := 64.
Definition MAX_WHEN_TO_USE_BYTES : nat := 1024.

(** [validate_label], [validate_tool_name]. *)
Definition validate_label (what value : string) (max : nat) : res unit :=
  if valid_label value max then Ok ()
  else Err (ETool (what ++ " `" ++ value ++ "` must be non-empty, trimmed, control-free, and at most "
                   ++ pretty max ++ " bytes")).

Definition validate_tool_name (name : string) : res unit :=
  if valid_tool_name name then Ok () else Err (tool_name_error name).

(** The loops of [ToolSelectionOverlay::validate]. *)
Fixpoint validate_tags (tags seen : list string) : res unit :=
  match tags with
  | [] => Ok ()
  | tag :: rest =>
      validate_label "tag" tag MAX_TAG_BYTES;;
      if decide (tag ∈ seen)
      then Err (ETool ("tool selection overlay has duplicate tag `" ++ tag ++ "`"))
      else validate_tags rest (tag :: seen)
  end.

Fixpoint validate_prerequisites (names seen : list string) : res unit :=
  match names with
  | [] => Ok ()
  | name :: rest =>
      validate_tool_name name;;
      if decide (name ∈ seen)
      then Err (ETool ("tool selection overlay lists prerequisite `" ++ name ++ "` twice"))
      else validate_prerequisites rest (name :: seen)
  end.

(** [ToolSelectionOverlay::validate]. *)
Definition overlay_validate (o : ToolSelectionOverlay) : res unit :=
  validate_tags (ov_tags o) [];;
  match ov_when_to_use o with
  | Some note =>
      if valid_label note MAX_WHEN_TO_USE_BYTES then Ok ()
      else Err (ETool ("when_to_use note must be non-empty, trimmed, control-free, and at most "
                       ++ pretty MAX_WHEN_TO_USE_BYTES ++ " bytes"))
  | None => Ok ()
  end;;
  validate_prerequisites (ov_prerequisites o) [].

(** [ToolManifest::from_capability], [with_overlay]. *)
Definition from_capability (c : ToolCapability) : ToolManifest :=
  mkToolManifest (tcp_name c) (tcp_description c) (tcp_parameters_schema c) (tcp_effect c) [] None
    CostMedium (is_freely_repeatable (tcp_effect c)) false [].

Definition with_overlay (m : ToolManifest) (o : ToolSelectionOverlay) : res ToolManifest :=
  overlay_validate o;;
  Ok (mkToolManifest (tm_name m) (tm_description m) (tm_parameters_schema m) (tm_effect m)
        (ov_tags o) (ov_when_to_use o) (default (tm_cost_class m) (ov_cost_class o))
        (default (tm_parallel_safe m) (ov_parallel_safe o))
        (default (tm_batchable m) (ov_batchable o)) (ov_prerequisites o)).

Section Wrappers.
Context `{Codec} {E : Type}.
Implicit Types (inner : ToolImpl E) (r : ToolRegistry E).

(** [manifests_for_registry]. *)
Definition manifests_for_registry r (env : E) (overlays : list (string * ToolSelectionOverlay)) :
    res (list ToolManifest) :=
  caps ← capabilities r env;
  match List.find (fun name => negb (registry_contains r env name)) (map fst overlays) with
  | Some name => Err (ETool ("tool selection overlay names `" ++ name ++ "`, which is not registered"))
  | None =>
      mapM (fun c =>
        match BTree.get (tcp_name c) overlays with
        | Some o => with_overlay (from_capability c) o
        | None => Ok (from_capability c)
        end) caps
  end.

(** ** Decorators *)

(** [f64]'s [Display], as in the validator. *)
Variable f64_text : Float64 -> string.

(** [impl Tool for ValidatingTool]. *)
Definition validating_call inner (context : option RunContext) (args : Value) : Act (Live E) (res Value) :=
  match validate_arguments f64_text (ti_schema inner) args with
  | [] => ti_call inner context args
  | violations => mret (Ok (Str (argument_validation_refusal violations)))
  end.

Definition validating_tool inner : ToolImpl E :=
  mkToolImpl (ti_name inner) (ti_description inner) (ti_schema inner) (ti_effect inner)
    (ti_carries_approval inner) ClassRead SandboxNone (ti_effect_kind inner)
    (ti_idempotency_key inner) (ti_effect_request inner) (validating_call inner).

(** [PrefixedTool]. *)
Definition prefixed_tool (prefix : string) inner : ToolImpl E :=
  let name := prefix ++ ti_name inner in
  mkToolImpl name (ti_description inner) (ti_schema inner) (ti_effect inner)
    (ti_carries_approval inner) ClassRead SandboxNone name
    (ti_idempotency_key inner) (ti_effect_request inner) (ti_call inner).

(** [PreparedTool]. *)
Definition prepared_tool inner (name description : string) (schema : Value) : res (ToolImpl E) :=
  validate_tool_contract name description schema;;
  Ok (mkToolImpl name description schema (ti_effect inner)
        (ti_carries_approval inner) ClassRead SandboxNone name
        (ti_idempotency_key inner) (ti_effect_request inner) (validating_call inner)).

(** [RecordingTool]: the call with the event it journals. *)
Definition recording_draft inner (parent : string) (node : option string) (args : Value)
    (latency_ms : N) (result : res Value) : EventDraft :=
  let draft :=
    node_opt node
      (with_parent parent
         (with_latency_ms latency_ms
            (with_input (tool_call_request (ti_name inner) args)
               (draft_new KToolCall (ti_effect inner))))) in
  match result with
  | Ok v => with_output v draft
  | Err e => with_output (error_output e) (with_status StatusError draft)
  end.

Definition recording_call inner (parent : string) (node : option string)
    (context : option RunContext) (args : Value) : Act (Live E) (res Value) :=
  started ← (fun l => let '(t, l') := live_now l in (Returns t, l'));
  result ← ti_call inner context args;
  act_modify (fun l =>
    let '(ended, l') := live_now l in
    (live_record (recording_draft inner parent node args (latency started ended) result) l').2);;
  mret result.

Definition recording_tool inner (parent : string) (node : option string) : ToolImpl E :=
  mkToolImpl (ti_name inner) (ti_description inner) (ti_schema inner) (ti_effect inner)
    (ti_carries_approval inner) ClassRead SandboxNone (ti_effect_kind inner)
    (ti_idempotency_key inner) (ti_effect_request inner) (recording_call inner parent node).

(** ** Registry transformations *)

(** Registering, name by name, what [wrap] makes of each offered tool. *)
Fixpoint register_each r (env : E) (wrap : string -> ToolImpl E -> res (option (ToolImpl E)))
    (names : list string) (out : ToolRegistry E) : Unwind (res (ToolRegistry E)) :=
  match names with
  | [] => Returns (Ok out)
  | name :: rest =>
      match registry_get r env name with
      | None => Panics (PayloadString "name came from the registry")
      | Some tool =>
          match wrap name tool with
          | Err e => Returns (Err e)
          | Ok None => register_each r env wrap rest out
          | Ok (Some wrapped) =>
              match register_shared wrapped out with
              | Returns out' => register_each r env wrap rest out'
              | Panics p => Panics p
              end
          end
      end
  end.

Definition transformed r (env : E) (wrap : string -> ToolImpl E -> res (option (ToolImpl E))) :
    Unwind (res (ToolRegistry E)) :=
  register_each r env wrap (sort_by str_leb (registry_names r env)) tools_new.

(** [ValidatingTool::wrap_registry], [filtered], [prefixed], [prepared]. *)
Definition wrap_registry r (env : E) : Unwind (res (ToolRegistry E)) :=
  transformed r env (fun _ t => Ok (Some (validating_tool t))).

Definition filtered (names : list string) r (env : E) : Unwind (res (ToolRegistry E)) :=
  transformed r env (fun name t => Ok (if decide (name ∈ names) then Some t else None)).

Definition prefixed (prefix : string) r (env : E) : Unwind (res (ToolRegistry E)) :=
  transformed r env (fun _ t => Ok (Some (prefixed_tool prefix t))).

(** [PreparedOverride]. *)
Record PreparedOverride : Type := mkOverride {
  po_name : string;
  po_description : string;
  po_parameters_schema : Value;
}.

Definition prepared (overrides : list (string * PreparedOverride)) r (env : E) :
    Unwind (res (ToolRegistry E)) :=
  transformed r env (fun name t =>
    match BTree.get name overrides with
    | Some o => w ← prepared_tool t (po_name o) (po_description o) (po_parameters_schema o); Ok (Some w)
    | None => Ok (Some t)
    end).

(** [ToolsetSpec] and [apply_spec]. *)
Inductive ToolsetSpec : Type :=
| SpecBase
| SpecFiltered (names : list string) (inner : ToolsetSpec)
| SpecPrefixed (prefix : string) (inner : ToolsetSpec)
| SpecPrepared (overrides : list (string * PreparedOverride)) (inner : ToolsetSpec)
| SpecDeferLoading (inner : ToolsetSpec).

Definition and_then (m : Unwind (res (ToolRegistry E)))
    (f : ToolRegistry E -> Unwind (res (ToolRegistry E))) : Unwind (res (ToolRegistry E)) :=
  match m with Returns (Ok r) => f r | other => other end.

Fixpoint apply_spec (base : ToolRegistry E) (env : E) (spec : ToolsetSpec) :
    Unwind (res (ToolRegistry E)) :=
  match spec with
  | SpecBase => Returns (Ok base)
  | SpecFiltered names inner => and_then (apply_spec base env inner) (fun r => filtered names r env)
  | SpecPrefixed prefix inner => and_then (apply_spec base env inner) (fun r => prefixed prefix r env)
  | SpecPrepared overrides inner =>
      and_then (apply_spec base env inner) (fun r => prepared overrides r env)
  | SpecDeferLoading _ =>
      Returns (Err (ETool "DeferLoading spec must be resolved through DeferLoadingRegistry, not apply_spec"))
  end.
End Wrappers.
