(* ===== verification/Dispatch.v ===== *)
(** * Dispatching tool calls ([rusty-core/src/tool.rs], [middleware.rs])

    One finalized call through the whole pipeline: lookup, guards,
    placement, effect admission, the body; and the executor around it.
    [ds_ran] keeps what reached a body or a backend, in order. *)

From Stdlib Require Import String.
From S2P Require Import Prelude Containers Json Error Graph Record Journal Meter Chat Declaration Replay Invariant Effects ReplayRun Text Shaping Middleware Tools.
Local Open Scope string_scope.

(** ** Guards *)

(** [GuardedCall], [GuardDenial], [GuardDenialRecord]. *)
Record GuardedCall : Type := mkGuarded {
  gc_tool : string;
  gc_arguments : Value;
  gc_effect : Effect;
  gc_scope : string;
}.

Record GuardDenial : Type := mkDenial { gd_guard : string; gd_reason : string }.

Record GuardDenialRecord : Type := mkDenialRecord {
  dr_tool : string;
  dr_effect : Effect;
  dr_scope : string;
  dr_denials : list GuardDenial;
}.

Definition denial_value (d : GuardDenial) : Value :=
  jobj [("guard", Str (gd_guard d)); ("reason", Str (gd_reason d))].

Definition denial_record_value (r : GuardDenialRecord) : Value :=
  jobj [("tool", Str (dr_tool r)); ("effect", Str (effect_name (dr_effect r)));
        ("scope", Str (dr_scope r)); ("denials", Array (map denial_value (dr_denials r)))].

(** [ToolGuard]. *)
Record ToolGuard (E : Type) : Type := mkGuard {
  tg_name : string;
  tg_check : GuardedCall -> Act (Live E) (option GuardDenial);
}.
Arguments mkGuard {E} _ _.
Arguments tg_name {E} _.
Arguments tg_check {E} _ _.

(** ** The sandbox seam ([sandbox.rs]) *)

(** [EnforcementLevel], [SandboxResult], [SandboxExecutor]. *)
Inductive EnforcementLevel : Type := Full | Partial.

#[export] Instance EnforcementLevel_eq_dec : EqDecision EnforcementLevel.
Proof. solve_decision. Defined.

Record SandboxResult : Type := mkSandboxResult {
  sx_stdout : string;
  sx_stderr : string;
  sx_exit_code : option Z;
  sx_timed_out : bool;
  sx_truncated : bool;
  sx_duration_ms : N;
}.

Definition sandbox_value (r : SandboxResult) : Value :=
  jobj [("stdout", Str (sx_stdout r)); ("stderr", Str (sx_stderr r));
        ("exit_code", jnull (jZ <$> sx_exit_code r)); ("timed_out", Bool (sx_timed_out r));
        ("truncated", Bool (sx_truncated r)); ("duration_ms", jN (sx_duration_ms r))].

Record SandboxExecutor (E : Type) : Type := mkSandbox {
  sb_execute : string -> list string -> Act (Live E) (res SandboxResult);
  sb_enforcement : EnforcementLevel;
  sb_backend_id : string;
}.
Arguments mkSandbox {E} _ _ _.
Arguments sb_execute {E} _ _ _.
Arguments sb_enforcement {E} _.
Arguments sb_backend_id {E} _.

(** ** The state of a dispatch *)

(** A call that reached its body or a backend, with the permit it held. *)
Record Ran (E : Type) : Type := mkRan {
  rn_tool : ToolImpl E;
  rn_call : ToolCall;
  rn_placement : Placement;
  rn_permit : option EffectPermit;
}.
Arguments mkRan {E} _ _ _ _.
Arguments rn_tool {E} _.
Arguments rn_call {E} _.
Arguments rn_placement {E} _.
Arguments rn_permit {E} _.

(** The run's shared state, the admission context with its ledger, and what
    ran. *)
Record Dispatch (E : Type) : Type := mkDispatch {
  ds_live : Live E;
  ds_admission : option EffectAdmissionContext;
  ds_ran : list (Ran E);
}.
Arguments mkDispatch {E} _ _ _.
Arguments ds_live {E} _.
Arguments ds_admission {E} _.
Arguments ds_ran {E} _.

(** [ToolInvocation]. *)
Record ToolInvocation : Type := mkToolInvocation {
  tiv_thread_id : string;
  tiv_node : string;
  tiv_call : ToolCall;
  tiv_effect : option Effect;
}.

(** [ToolExecutor]; the guard journal is the run's, under [tx_evidence]'s
    parent, and the admission context is in the state. *)
Record ToolExecutor (E : Type) : Type := mkToolExecutor {
  tx_registry : ToolRegistry E;
  tx_middleware : list (Layer (Live E) ToolInvocation Value);
  tx_guards : list (ToolGuard E);
  tx_evidence : option string;
  tx_thread_id : string;
  tx_node : string;
  tx_sandbox : option (SandboxExecutor E);
  tx_run_context : option RunContext;
}.
Arguments mkToolExecutor {E} _ _ _ _ _ _ _ _.
Arguments tx_registry {E} _.
Arguments tx_middleware {E} _.
Arguments tx_guards {E} _.
Arguments tx_evidence {E} _.
Arguments tx_thread_id {E} _.
Arguments tx_node {E} _.
Arguments tx_sandbox {E} _.
Arguments tx_run_context {E} _.

Section Dispatching.
Context `{Codec} {E : Type}.

Definition on_live {A : Type} (m : Act (Live E) A) : Act (Dispatch E) A := fun s =>
  let '(out, l) := m (ds_live s) in (out, mkDispatch l (ds_admission s) (ds_ran s)).

Definition set_live (f : Live E -> Live E) : Act (Dispatch E) unit :=
  on_live (act_modify f).

Definition note_ran (r : Ran E) : Act (Dispatch E) unit :=
  act_modify (fun s => mkDispatch (ds_live s) (ds_admission s) (ds_ran s ++ [r])).

(** Every guard is asked, in order. *)
Fixpoint check_guards (guards : list (ToolGuard E)) (call : GuardedCall) :
    Act (Live E) (list GuardDenial) :=
  match guards with
  | [] => mret []
  | g :: rest =>
      d ← tg_check g call;
      ds ← check_guards rest call;
      mret (match d with Some d => d :: ds | None => ds end)
  end.

Definition guarded (x : ToolExecutor E) (tool : ToolImpl E) (call : ToolCall) : GuardedCall :=
  mkGuarded (tc_name call) (tc_arguments call) (ti_effect tool) (tx_thread_id x).

Definition node_label (node : string) (d : EventDraft) : EventDraft :=
  if String.eqb node EmptyString then d else with_node node d.

(** The evidence of a denial. *)
Definition denial_draft (x : ToolExecutor E) (parent : string) (tool : ToolImpl E) (call : ToolCall)
    (denials : list GuardDenial) : EventDraft :=
  node_label (tx_node x)
    (with_parent parent
       (with_output (denial_record_value
                       (mkDenialRecord (tc_name call) (ti_effect tool) (tx_thread_id x) denials))
          (with_input (tool_call_request (tc_name call) (tc_arguments call))
             (draft_new KToolCallDenied Pure)))).

Definition denial_error (call : ToolCall) (denials : list GuardDenial) : RustyError :=
  ETool ("tool guard denied `" ++ tc_name call ++ "`: "
         ++ String.concat "; "
              (map (fun d => "guard `" ++ gd_guard d ++ "`: " ++ gd_reason d) denials)).

(** Placement, and the refusal of a backend that only partly enforces; a
    sandboxed placement has a backend. *)
Definition place (x : ToolExecutor E) (tool : ToolImpl E) (call : ToolCall) :
    res (Placement * option (SandboxExecutor E)) :=
  match resolve_placement tool (match tx_sandbox x with Some _ => true | None => false end) with
  | Err e => Err (ETool (placement_text e))
  | Ok InProcess => Ok (InProcess, None)
  | Ok Sandboxed =>
      match tx_sandbox x with
      | None => Err (ETool "sandbox available verified by resolve_placement")
      | Some backend =>
          if bool_decide (ti_sandbox_requirement tool = SandboxRequired)
             && bool_decide (sb_enforcement backend = Partial)
          then Err (ETool ("tool `" ++ tc_name call
                           ++ "` requires full sandbox enforcement but backend `"
                           ++ sb_backend_id backend ++ "` reports partial"))
          else Ok (Sandboxed, Some backend)
      end
  end.

(** The effect boundary: admitted with its permit, or answered. *)
Inductive Verdict : Type :=
| Cleared (permit : option EffectPermit)
| Answered (out : res Value).

Definition expect_request : PanicPayload :=
  PayloadString "a serde_json::Value always serializes".

Definition admit_call (tool : ToolImpl E) (call : ToolCall) : Act (Dispatch E) Verdict := fun s =>
  match ds_admission s with
  | None => (Returns (Cleared None), s)
  | Some context =>
      match ti_effect_request tool call with
      | None => (Panics expect_request, s)
      | Some request =>
          match admit_effect context request with
          | (Ok permit, context') =>
              (Returns (Cleared (Some permit)), mkDispatch (ds_live s) (Some context') (ds_ran s))
          | (Err violation, context') =>
              let '(served, context'') :=
                serve_shadow context' request
                  (tool_call_request (tc_name call) (tc_arguments call)) violation in
              (Returns (Answered
                 match served with
                 | Some recorded => Ok recorded
                 | None => Err (ETool ("effect admission denied: " ++ violation_text violation))
                 end), mkDispatch (ds_live s) (Some context'') (ds_ran s))
          end
      end
  end.

(** The event of a sandboxed call. *)
Definition sandbox_draft (x : ToolExecutor E) (parent : string) (tool : ToolImpl E) (call : ToolCall)
    (latency_ms : N) (out : res Value) : EventDraft :=
  let draft :=
    node_label (tx_node x)
      (with_parent parent
         (with_latency_ms latency_ms
            (with_input (tool_call_request (tc_name call) (tc_arguments call))
               (draft_new KToolCall (ti_effect tool))))) in
  match out with
  | Ok v => with_output v draft
  | Err e => with_output (error_output e) (with_status StatusError draft)
  end.

Definition sandbox_call (x : ToolExecutor E) (backend : SandboxExecutor E) (tool : ToolImpl E)
    (call : ToolCall) (permit : option EffectPermit) : Act (Dispatch E) (res Value) :=
  started ← match tx_evidence x with
            | Some _ => on_live (fun l => let '(t, l') := live_now l in (Returns (Some t), l'))
            | None => mret None
            end;
  match to_vec (tc_arguments call) with
  | None => mret (Err (ESerialization "value"))
  | Some text =>
      note_ran (mkRan tool call Sandboxed permit);;
      ran ← on_live (sb_execute backend (tc_name call) [text]);
      let out := r ← ran; Ok (sandbox_value r) in
      match tx_evidence x, started with
      | Some parent, Some started =>
          set_live (fun l =>
            let '(ended, l') := live_now l in
            (live_record (sandbox_draft x parent tool call (latency started ended) out) l').2);;
          mret out
      | _, _ => mret out
      end
  end.

(** [dispatch_tool]. *)
Definition dispatch_tool (x : ToolExecutor E) (call : ToolCall) : Act (Dispatch E) (res Value) :=
  found ← reads (fun s => registry_get (tx_registry x) (lv_env (ds_live s)) (tc_name call));
  match found with
  | None => mret (Err (ETool ("unknown tool `" ++ tc_name call ++ "`")))
  | Some tool =>
      denials ← on_live (check_guards (tx_guards x) (guarded x tool call));
      match denials with
      | _ :: _ =>
          match tx_evidence x with
          | Some parent => set_live (fun l => (live_record (denial_draft x parent tool call denials) l).2)
          | None => mret ()
          end;;
          mret (Err (denial_error call denials))
      | [] =>
          match place x tool call with
          | Err e => mret (Err e)
          | Ok (placement, backend) =>
              verdict ← admit_call tool call;
              match verdict with
              | Answered out => mret out
              | Cleared permit =>
                  match backend with
                  | Some b => sandbox_call x b tool call permit
                  | None =>
                      note_ran (mkRan tool call placement permit);;
                      on_live (ti_call tool (tx_run_context x) (tc_arguments call))
                  end
              end
          end
      end
  end.

(** ** The executor *)

Definition lift_layer (l : Layer (Live E) ToolInvocation Value) :
    Layer (Dispatch E) ToolInvocation Value :=
  mkLayer (ly_name l) (fun c => on_live (ly_before l c)) (fun c v => on_live (ly_after l c v)).

(** The body of [execute_one], before the panic is caught. *)
Definition execute_body (x : ToolExecutor E) (call : ToolCall) : Act (Dispatch E) (res Value) :=
  match tx_middleware x with
  | [] => dispatch_tool x call
  | layers =>
      found ← reads (fun s => registry_get (tx_registry x) (lv_env (ds_live s)) (tc_name call));
      run_layers (map lift_layer layers) (fun inv => dispatch_tool x (tiv_call inv))
        (mkToolInvocation (tx_thread_id x) (tx_node x) call (ti_effect <$> found))
  end.

(** [ToolExecutor::execute_one]. *)
Definition execute_one (x : ToolExecutor E) (call : ToolCall) (s : Dispatch E) :
    res Value * Dispatch E :=
  match execute_body x call s with
  | (Returns out, s') => (out, s')
  | (Panics p, s') =>
      (Err (ETool ("tool `" ++ tc_name call ++ "` panicked: " ++ panic_message p)), s')
  end.

(** The message a call's outcome becomes. *)
Definition result_message (call : ToolCall) (out : res Value) : ChatMessage :=
  match out with
  | Ok (Str content) => tool_result (tc_id call) (shape_text content)
  | Ok other => tool_result (tc_id call) (shape_result other)
  | Err e => tool_result (tc_id call) ("ERROR: " ++ error_text e)
  end.

(** The calls at the positions of [order] run one after the other. *)
Fixpoint run_scheduled (x : ToolExecutor E) (calls : list ToolCall) (order : list nat)
    (s : Dispatch E) : list (nat * ChatMessage) * Dispatch E :=
  match order with
  | [] => ([], s)
  | i :: rest =>
      match calls !! i with
      | None => run_scheduled x calls rest s
      | Some call =>
          let '(out, s1) := execute_one x call s in
          let '(done, s2) := run_scheduled x calls rest s1 in
          ((i, result_message call out) :: done, s2)
      end
  end.

(** [ToolExecutor::execute_batch]: one message per call in the order of
    [calls], whatever the order the calls ran in. *)
Definition execute_batch (x : ToolExecutor E) (order : list nat) (calls : list ToolCall)
    (s : Dispatch E) : list ChatMessage * Dispatch E :=
  let '(done, s') := run_scheduled x calls order s in
  (omap (fun i => snd <$> List.find (fun p => (p.1 =? i)%nat) done) (seq 0 (length calls)), s').

(** [ApprovalNeeded] and [ToolExecutor::approvals_needed]. *)
Record ApprovalNeeded : Type := mkNeeded {
  an_call_id : string;
  an_tool : string;
  an_arguments : Value;
  an_kind : string;
  an_effect_id : string;
}.

Definition approval_for (x : ToolExecutor E) (env : E) (gate : EffectAdmissionContext)
    (call : ToolCall) : option (option ApprovalNeeded) :=
  match registry_get (tx_registry x) env (tc_name call) with
  | None => Some None
  | Some tool =>
      if ti_carries_approval tool call then Some None
      else
        request ← ti_effect_request tool call;
        Some (id ← approval_required gate request;
              Some (mkNeeded (tc_id call) (tc_name call) (tc_arguments call) (rq_kind request) id))
  end.

(** [None] is the panic of a request that cannot be hashed. *)
Definition approvals_needed (x : ToolExecutor E) (env : E) (gate : EffectAdmissionContext)
    (calls : list ToolCall) : option (list ApprovalNeeded) :=
  found ← mapM (approval_for x env gate) calls; Some (omap id found).
End Dispatching.
