(* ===== verification/DispatchFacts.v ===== *)
(** * Dispatch: what reaches a tool

    A call reaches a body only when the registry holds the tool, no guard
    denies the finalized call, its placement is satisfied and admission
    granted it a permit; over a batch no approval is spent twice. *)

From Stdlib Require Import String.
From S2P Require Import Prelude Containers Json Error Graph Record SampleCodec Journal Meter Chat Declaration Replay Invariant Effects EffectsFacts ReplayRun Text Shaping Middleware Tools Dispatch.
Local Open Scope string_scope.

Section Facts.
Context `{Codec} `{!CodecLaws} {E : Type}.
Implicit Types (x : ToolExecutor E) (s : Dispatch E) (r : Ran E).

(** ** Code that leaves the ledger and the log alone *)

Definition quiet (s s' : Dispatch E) : Prop :=
  ds_admission s' = ds_admission s /\ ds_ran s' = ds_ran s.

#[local] Instance quiet_preorder : PreOrder quiet.
Proof. split; [done|]. intros s1 s2 s3 [H1 H2] [H3 H4]. split; congruence. Qed.

Lemma on_live_quiet {A : Type} (m : Act (Live E) A) s out s' :
  on_live m s = (out, s') -> quiet s s'.
Proof. unfold on_live. destruct (m (ds_live s)) as [o l]. by intros [= <- <-]. Qed.

Lemma check_guards_split (g : ToolGuard E) guards call l l' :
  check_guards (g :: guards) call l = (Returns [], l') ->
  exists l1, tg_check g call l = (Returns None, l1) /\ check_guards guards call l1 = (Returns [], l').
Proof.
  cbn [check_guards]. intros [(d & l1 & Hg & Hr)|(p & _ & ?)]%bind_cases; [|done].
  apply bind_cases in Hr as [(ds & l2 & Hc & Hr)|(p & _ & ?)]; [|done].
  destruct d as [d|]; [done|]. unfold mret, act_ret in Hr. injection Hr as -> ->. eauto.
Qed.

(** ** One dispatch *)

Definition ledger_kept (a b : option EffectAdmissionContext) : Prop :=
  match a, b with
  | None, None => True
  | Some c, Some c' =>
      ac_approvals c' = ac_approvals c /\ ac_scope c' = ac_scope c
      /\ ac_compensations c' = ac_compensations c /\ ac_shadow c' = ac_shadow c
  | _, _ => False
  end.

Lemma ledger_kept_refl a : ledger_kept a a.
Proof. by destruct a. Qed.

(** What a call that ran had behind it. *)
Record dispatched x (before after : option EffectAdmissionContext) r : Prop := {
  dp_registered : exists env,
    registry_get (tx_registry x) env (tc_name (rn_call r)) = Some (rn_tool r);
  dp_unguarded : exists l l',
    check_guards (tx_guards x) (guarded x (rn_tool r) (rn_call r)) l = (Returns [], l');
  dp_placed :
    match rn_placement r with
    | InProcess => ti_effect_class (rn_tool r) = ClassRead
                   /\ ti_sandbox_requirement (rn_tool r) = SandboxNone
    | Sandboxed => exists b, tx_sandbox x = Some b /\ sb_enforcement b = Full
    end;
  dp_admitted :
    match before with
    | None => rn_permit r = None /\ after = None
    | Some c => exists rq p c',
        ti_effect_request (rn_tool r) (rn_call r) = Some rq /\ rn_permit r = Some p
        /\ admit_effect c rq = (Ok p, c') /\ after = Some c'
    end;
}.

(** The two ways a dispatch ends. *)
Definition settles x (call : option ToolCall) (s s' : Dispatch E) : Prop :=
  ds_ran s' = ds_ran s /\ ledger_kept (ds_admission s) (ds_admission s')
  \/ exists r, ds_ran s' = (ds_ran s ++ [r])%list
       /\ dispatched x (ds_admission s) (ds_admission s') r
       /\ (forall c, call = Some c -> rn_call r = c).

Lemma settles_quiet x call s1 s2 s3 s4 :
  quiet s1 s2 -> settles x call s2 s3 -> quiet s3 s4 -> settles x call s1 s4.
Proof. unfold settles, quiet. intros [-> ->] Hs [-> ->]. exact Hs. Qed.

Lemma quiet_settles x call s s' : quiet s s' -> settles x call s s'.
Proof. intros [Ha Hr]. left. rewrite Ha. split; [done|apply ledger_kept_refl]. Qed.

Lemma place_ok x tool call placement backend :
  place x tool call = Ok (placement, backend) ->
  match placement, backend with
  | InProcess, None => ti_effect_class tool = ClassRead
                       /\ ti_sandbox_requirement tool = SandboxNone
  | Sandboxed, Some b => tx_sandbox x = Some b /\ sb_enforcement b = Full
  | _, _ => False
  end.
Proof.
  unfold place, resolve_placement.
  destruct (ti_effect_class tool), (ti_sandbox_requirement tool), (tx_sandbox x) as [b|]; simpl;
    try discriminate; try (intros [= <- <-]; done).
  all: destruct (sb_enforcement b) eqn:Eb; simpl; try discriminate; by intros [= <- <-].
Qed.

Lemma serve_shadow_kept c rq req v served c' :
  serve_shadow c rq req v = (served, c') -> ledger_kept (Some c) (Some c').
Proof.
  unfold serve_shadow. destruct (ac_shadow c) eqn:Es; [destruct v|];
    intros [= <- <-]; simpl; by rewrite ?Es.
Qed.

Lemma refused_kept c rq v c' : admit_effect c rq = (Err v, c') -> c' = c.
Proof.
  unfold admit_effect. repeat case_match; by intros [= _ <-].
Qed.

Lemma admit_call_cases tool call s v s' :
  admit_call tool call s = (v, s') ->
  ds_live s' = ds_live s /\ ds_ran s' = ds_ran s
  /\ match v with
     | Returns (Cleared permit) =>
         match ds_admission s with
         | None => permit = None /\ ds_admission s' = None
         | Some c => exists rq p c', ti_effect_request tool call = Some rq /\ permit = Some p
             /\ admit_effect c rq = (Ok p, c') /\ ds_admission s' = Some c'
         end
     | _ => ledger_kept (ds_admission s) (ds_admission s')
     end.
Proof.
  unfold admit_call. destruct (ds_admission s) as [c|] eqn:Ea.
  - destruct (ti_effect_request tool call) as [rq|].
    + destruct (admit_effect c rq) as [[p|viol] c'] eqn:Ec.
      * intros [= <- <-]. simpl. eauto 10.
      * pose proof (refused_kept _ _ _ _ Ec) as ->.
        destruct (serve_shadow c rq _ viol) as [served c''] eqn:Es. intros [= <- <-]. simpl.
        split; [done|]. split; [done|]. exact (serve_shadow_kept _ _ _ _ _ _ Es).
    + intros [= <- <-]. rewrite Ea. split; [done|]. split; [done|]. apply (ledger_kept_refl (Some c)).
  - intros [= <- <-]. by rewrite Ea.
Qed.

(** A call that runs: noting it, then code that keeps quiet. *)
Lemma ran_settles x tool call placement permit s s1 s' env l l' :
  registry_get (tx_registry x) env (tc_name call) = Some tool ->
  check_guards (tx_guards x) (guarded x tool call) l = (Returns [], l') ->
  match placement with
  | InProcess => ti_effect_class tool = ClassRead /\ ti_sandbox_requirement tool = SandboxNone
  | Sandboxed => exists b, tx_sandbox x = Some b /\ sb_enforcement b = Full
  end ->
  match ds_admission s with
  | None => permit = None /\ ds_admission s1 = None
  | Some c => exists rq p c', ti_effect_request tool call = Some rq /\ permit = Some p
      /\ admit_effect c rq = (Ok p, c') /\ ds_admission s1 = Some c'
  end ->
  ds_ran s1 = ds_ran s ->
  quiet (mkDispatch (ds_live s1) (ds_admission s1) (ds_ran s1 ++ [mkRan tool call placement permit])) s' ->
  settles x (Some call) s s'.
Proof.
  intros Hg Hd Hp Hv Hr [Ha Hran]. right. exists (mkRan tool call placement permit). simpl in *.
  rewrite Hran, Ha, Hr. split; [done|]. split; [|by intros c [= <-]]. split; simpl; eauto.
Qed.

Lemma sandbox_call_quiet x b tool call permit s out s' :
  sandbox_call x b tool call permit s = (out, s') ->
  exists s1, quiet s s1
    /\ quiet (mkDispatch (ds_live s1) (ds_admission s1) (ds_ran s1 ++ [mkRan tool call Sandboxed permit])) s'.
Proof.
  unfold sandbox_call. intros Hr. destruct (to_vec_total (tc_arguments call)) as [text Ht].
  rewrite Ht in Hr.
  apply bind_cases in Hr as [(st & s1 & Hst & Hr)|(p & Hst & ->)].
  2: { by destruct (tx_evidence x); [|done]; unfold on_live in Hst; destruct (live_now _). }
  exists s1. split.
  { destruct (tx_evidence x); [by apply on_live_quiet in Hst|by injection Hst as <- <-]. }
  apply bind_cases in Hr as [(u & s2 & Hn & Hr)|(p & Hn & ->)]; [|done].
  unfold note_ran, act_modify in Hn. injection Hn as _ <-.
  apply bind_cases in Hr as [(ran & s3 & Hx & Hr)|(p & Hx & ->)]; [|by apply on_live_quiet in Hx].
  apply on_live_quiet in Hx. etrans; [exact Hx|]. clear Hx Ht Hst.
  destruct (tx_evidence x) as [parent|], st as [st|]; by injection Hr as <- <-.
Qed.

Lemma dispatch_settles x call s out s' :
  dispatch_tool x call s = (out, s') -> settles x (Some call) s s'.
Proof.
  unfold dispatch_tool. intros Hr.
  apply bind_cases in Hr as [(found & s1 & Hf & Hr)|(p & Hf & _)]; [|done].
  unfold reads in Hf. injection Hf as Hf <-.
  destruct found as [tool|]; [|injection Hr as <- <-; by apply quiet_settles].
  apply bind_cases in Hr as [(denials & s1 & Hd & Hr)|(p & Hd & _)];
    [|by apply quiet_settles, (on_live_quiet _ _ _ _ Hd)].
  pose proof (on_live_quiet _ _ _ _ Hd) as Hq.
  destruct denials as [|d ds].
  - apply (settles_quiet x _ s s1 s' s' Hq); [|done].
    destruct (place x tool call) as [[placement backend]|e] eqn:Ep;
      [|injection Hr as <- <-; by apply quiet_settles].
    apply place_ok in Ep.
    assert (Hd' : exists l l', check_guards (tx_guards x) (guarded x tool call) l = (Returns [], l')).
    { unfold on_live in Hd. destruct (check_guards _ _ _) as [o l'] eqn:Eg. injection Hd as <- _. eauto. }
    destruct Hd' as (l & l' & Hd').
    apply bind_cases in Hr as [(v & s2 & Hv & Hr)|(p & Hv & ->)].
    + pose proof (admit_call_cases _ _ _ _ _ Hv) as (_ & Hran & Hcase).
      destruct v as [permit|o]; [|injection Hr as <- <-; left; by rewrite Hran].
      destruct placement, backend as [b|]; try done.
      * apply bind_cases in Hr as [(u & s3 & Hn & Hr)|(p & Hn & _)]; [|done].
        unfold note_ran, act_modify in Hn. injection Hn as _ <-.
        apply on_live_quiet in Hr.
        by apply (ran_settles x tool call InProcess permit s1 s2 s' _ l l' Hf).
      * apply sandbox_call_quiet in Hr as (s3 & Hq3 & Hr).
        apply (ran_settles x tool call Sandboxed permit s1 s3 s' _ l l' Hf); eauto.
        -- by rewrite (proj1 Hq3).
        -- by rewrite (proj2 Hq3).
    + pose proof (admit_call_cases _ _ _ _ _ Hv) as (_ & Hran & Hcase). left. by rewrite Hran.
  - apply quiet_settles. etrans; [exact Hq|].
    apply bind_cases in Hr as [(u & s2 & Hl & Hr)|(p & Hl & ->)].
    + injection Hr as <- <-. destruct (tx_evidence x); [by apply on_live_quiet in Hl|by injection Hl as _ <-].
    + by destruct (tx_evidence x); [apply on_live_quiet in Hl|].
Qed.

(** ** Through the middleware *)

Lemma enter_quiet (layers : list (Layer (Live E) ToolInvocation Value)) :
  forall n c s out s', enter (map lift_layer layers) n c s = (out, s') -> quiet s s'.
Proof.
  induction layers as [|l layers IH]; intros n c s out s' Hr; cbn [map enter] in Hr.
  { by injection Hr as <- <-. }
  apply bind_cases in Hr as [([d c'] & s1 & Hb & Hr)|(p & Hb & ->)]; apply on_live_quiet in Hb; [|done].
  etrans; [exact Hb|]. destruct d; [by eapply IH|by injection Hr as <- <-..].
Qed.

Lemma leave_quiet (layers : list (Layer (Dispatch E) ToolInvocation Value)) :
  (forall l c v s out s', l ∈ layers -> ly_after l c v s = (out, s') -> quiet s s') ->
  forall c v s out s', leave layers c v s = (out, s') -> quiet s s'.
Proof.
  induction layers as [|l layers IH]; intros Hq c v s out s' Hr; cbn [leave] in Hr.
  { by injection Hr as <- <-. }
  apply bind_cases in Hr as [([d v'] & s1 & Ha & Hr)|(p & Ha & ->)];
    apply Hq in Ha; try (by apply list_elem_of_here); [|done].
  etrans; [exact Ha|]. destruct d; [|by injection Hr as <- <-..].
  eapply IH; [|exact Hr]. intros l' c0 v0 s0 o0 s0' Hl. apply Hq. by apply list_elem_of_further.
Qed.

Lemma lifted_after_quiet (layers ls : list (Layer (Dispatch E) ToolInvocation Value)) raw :
  layers = map lift_layer raw -> (forall l, l ∈ ls -> l ∈ layers) ->
  forall l c v s out s', l ∈ ls -> ly_after l c v s = (out, s') -> quiet s s'.
Proof.
  intros -> Hsub l c v s out s' Hl Ha. apply Hsub in Hl. apply list_elem_of_fmap in Hl as (l0 & -> & _).
  simpl in Ha. by apply on_live_quiet in Ha.
Qed.

Lemma run_layers_settles x raw inv s out s' :
  run_layers (map lift_layer raw) (fun inv => dispatch_tool x (tiv_call inv)) inv s = (out, s') ->
  settles x None s s'.
Proof.
  unfold run_layers. intros Hr.
  apply bind_cases in Hr as [([e c] & s1 & He & Hr)|(p & He & ->)]; apply enter_quiet in He;
    [|by apply quiet_settles].
  apply (settles_quiet x None s s1 s' s' He); [|done].
  assert (Hleave : forall ls c v s2 o s3, (forall l, l ∈ ls -> l ∈ map lift_layer raw) ->
    leave ls c v s2 = (o, s3) -> quiet s2 s3).
  { intros ls c0 v s2 o s3 Hsub. apply leave_quiet. by apply (lifted_after_quiet (map lift_layer raw) ls raw). }
  destruct e as [r|v n|].
  - injection Hr as <- <-. by apply quiet_settles.
  - apply quiet_settles. eapply Hleave; [|exact Hr]. intros l Hl.
    apply list_elem_of_In, in_rev in Hl. apply list_elem_of_In. rewrite <- (firstn_skipn n).
    by apply in_or_app; left.
  - apply bind_cases in Hr as [(o & s2 & Hop & Hr)|(p & Hop & ->)].
    + apply dispatch_settles in Hop. destruct o as [v|e].
      * apply (settles_quiet x None s1 s1 s2 s' ltac:(done)).
        -- destruct Hop as [Hop|(r & Hran & Hd & _)]; [by left|right; exists r; by split_and!].
        -- eapply Hleave; [|exact Hr]. intros l Hl. by apply list_elem_of_In, in_rev, list_elem_of_In in Hl.
      * injection Hr as <- <-. destruct Hop as [Hop|(r & Hran & Hd & _)]; [by left|right; exists r; by split_and!].
    + apply dispatch_settles in Hop. destruct Hop as [Hop|(r & Hran & Hd & _)];
        [by left|right; exists r; by split_and!].
Qed.

Lemma execute_one_settles x call s out s' :
  execute_one x call s = (out, s') ->
  settles x (match tx_middleware x with [] => Some call | _ => None end) s s'.
Proof.
  unfold execute_one. destruct (execute_body x call s) as [o s1] eqn:Eb.
  intros Hr. assert (s1 = s') as -> by (destruct o; by injection Hr).
  unfold execute_body in Eb. destruct (tx_middleware x) as [|l ls] eqn:Em.
  - by apply dispatch_settles in Eb.
  - apply bind_cases in Eb as [(found & s2 & Hf & Eb)|(p & Hf & _)]; [|done].
    unfold reads in Hf. injection Hf as _ <-. rewrite <- Em in Eb. by apply run_layers_settles in Eb.
Qed.
End Facts.

(** C12: whatever the middleware, the guards and the tools do, one executed
    call reaches at most one body; the tool is the one the registry holds
    under the finalized name, no guard denied that call, a body in process
    belongs to a reading tool that asks for no sandbox and any other to a
    fully enforcing backend, and admission granted exactly this request the
    permit the ledger now reflects. A call that reaches no body spends no
    approval. *)
Theorem execute_one_guarded `{Codec} `{!CodecLaws} {E : Type} (x : ToolExecutor E) (call : ToolCall)
    (s : Dispatch E) (out : res Value) (s' : Dispatch E) :
  execute_one x call s = (out, s') ->
  ds_ran s' = ds_ran s /\ ledger_kept (ds_admission s) (ds_admission s')
  \/ exists r, ds_ran s' = (ds_ran s ++ [r])%list
       /\ dispatched x (ds_admission s) (ds_admission s') r
       /\ (tx_middleware x = [] -> rn_call r = call).
Proof.
  intros Hx. destruct (execute_one_settles x call s out s' Hx) as [Hs|(r & Hr & Hd & Hc)];
    [by left|right]. exists r. split_and!; [done..|]. intros Hm. apply Hc. by rewrite Hm.
Qed.

(** ** Batches *)
Section Batch.
Context `{Codec} `{!CodecLaws} {E : Type}.
Implicit Types (x : ToolExecutor E) (s : Dispatch E) (r : Ran E) (c : EffectAdmissionContext).

(** The approval a call that ran had to spend. *)
Definition spent_id (scope : string) r : option EffectId :=
  rq ← ti_effect_request (rn_tool r) (rn_call r);
  if decide (rq_effect rq = NonIdempotent) then Some (effect_id scope rq) else None.

Definition spent_ids (scope : string) (ran : list (Ran E)) : list EffectId := omap (spent_id scope) ran.

(** The ledger after the calls of [ran]: each spent a token of its own. *)
Record spends c (ran : list (Ran E)) c' : Prop := {
  sp_scope : ac_scope c' = ac_scope c;
  sp_once : NoDup (spent_ids (ac_scope c) ran);
  sp_held : forall id, id ∈ spent_ids (ac_scope c) ran -> is_Some (ac_approvals c !! id);
  sp_left : forall id, ac_approvals c' !! id
    = if decide (id ∈ spent_ids (ac_scope c) ran) then None else ac_approvals c !! id;
}.

Lemma spends_nil c c' : ac_approvals c' = ac_approvals c -> ac_scope c' = ac_scope c -> spends c [] c'.
Proof.
  intros Ha Hs. split; [done|constructor|by intros id ?%not_elem_of_nil|].
  intros id. by rewrite Ha, decide_False by apply not_elem_of_nil.
Qed.

Lemma spends_app c c1 c2 ran ran' : spends c ran c1 -> spends c1 ran' c2 -> spends c (ran ++ ran') c2.
Proof.
  intros [Hs1 Ho1 Hh1 Hl1] [Hs2 Ho2 Hh2 Hl2]. rewrite Hs1 in Ho2, Hh2, Hl2.
  unfold spent_ids in *.
  assert (Hfresh : forall id, id ∈ omap (spent_id (ac_scope c)) ran' ->
            (id ∉ omap (spent_id (ac_scope c)) ran) /\ is_Some (ac_approvals c !! id)).
  { intros id Hid. destruct (Hh2 id Hid) as [t Ht]. rewrite Hl1 in Ht. case_decide; [done|eauto]. }
  split.
  - congruence.
  - unfold spent_ids. rewrite omap_app. apply NoDup_app. split_and!; [done| |done].
    intros id H1 H2. by apply Hfresh in H2 as [? _].
  - unfold spent_ids. intros id. rewrite omap_app, elem_of_app. intros [?|?]; [auto|by apply Hfresh].
  - unfold spent_ids. intros id. rewrite Hl2, Hl1, omap_app.
    repeat case_decide; try done; set_solver.
Qed.

Lemma admit_spends c rq p c' r :
  admit_effect c rq = (Ok p, c') -> ti_effect_request (rn_tool r) (rn_call r) = Some rq ->
  spends c [r] c'.
Proof.
  intros Ha Hq. set (id := effect_id (ac_scope c) rq).
  destruct (decide (rq_effect rq = NonIdempotent)) as [Hn|Hn].
  - assert (is_Some (ac_approvals c !! id) /\ ac_scope c' = ac_scope c
            /\ ac_approvals c' = delete id (ac_approvals c)) as (Ht & Hs & Hd).
    { unfold admit_effect in Ha. rewrite Hn in Ha. repeat case_match; try discriminate.
      injection Ha as _ <-. simpl. by eauto. }
    assert (Hids : spent_ids (ac_scope c) [r] = [id]).
    { cbn. unfold spent_id. by rewrite Hq; simpl; rewrite decide_True. }
    split; rewrite ?Hids; [done|apply NoDup_singleton|by intros i ->%list_elem_of_singleton|].
    intros i. rewrite Hd. destruct (decide (i ∈ [id])) as [->%list_elem_of_singleton|Hi].
    + by rewrite lookup_delete_eq.
    + rewrite lookup_delete_ne; [done|]. intros ->. apply Hi. by apply list_elem_of_singleton.
  - assert (c' = c) as ->.
    { unfold admit_effect in Ha. repeat case_match; try discriminate; try congruence; by injection Ha as _ <-. }
    assert (Hids : spent_ids (ac_scope c) [r] = []).
    { cbn. unfold spent_id. by rewrite Hq; simpl; rewrite decide_False. }
    split; rewrite ?Hids; [done|constructor|by intros i ?%not_elem_of_nil|].
    intros i. by rewrite decide_False by apply not_elem_of_nil.
Qed.

Lemma execute_one_spends x call s c out s' :
  ds_admission s = Some c -> execute_one x call s = (out, s') ->
  exists ran c', ds_ran s' = (ds_ran s ++ ran)%list /\ length ran <= 1
    /\ ds_admission s' = Some c' /\ spends c ran c'.
Proof.
  intros Hc Hx. apply execute_one_settles in Hx as [[Hr Hl]|(r & Hr & [_ _ _ Hd] & _)]; rewrite Hc in *.
  - destruct (ds_admission s') as [c'|]; [|done]. destruct Hl as (Ha & Hs & _). exists [], c'.
    rewrite app_nil_r. split_and!; [done|simpl; lia|done|by apply spends_nil].
  - destruct Hd as (rq & p & c' & Hq & _ & Ha & ->). exists [r], c'.
    split_and!; [done|simpl; lia|done|by eapply admit_spends].
Qed.

Lemma run_scheduled_spends x calls order : forall s c done s',
  ds_admission s = Some c -> run_scheduled x calls order s = (done, s') ->
  exists ran c', ds_ran s' = (ds_ran s ++ ran)%list /\ length ran <= length order
    /\ ds_admission s' = Some c' /\ spends c ran c'.
Proof.
  induction order as [|i order IH]; intros s c done s' Hc Hr; cbn [run_scheduled] in Hr.
  { injection Hr as <- <-. exists [], c. rewrite app_nil_r. split_and!; [done|simpl; lia|done|by apply spends_nil]. }
  destruct (calls !! i) as [call|].
  - destruct (execute_one x call s) as [out s1] eqn:Ex.
    destruct (run_scheduled x calls order s1) as [done1 s2] eqn:Es. injection Hr as <- <-.
    destruct (execute_one_spends _ _ _ _ _ _ Hc Ex) as (ran1 & c1 & Hr1 & Hn1 & Hc1 & Hs1).
    destruct (IH _ _ _ _ Hc1 Es) as (ran2 & c2 & Hr2 & Hn2 & Hc2 & Hs2).
    exists (ran1 ++ ran2)%list, c2. rewrite Hr2, Hr1, app_assoc, length_app. simpl.
    split_and!; [done|lia|done|by eapply spends_app].
  - destruct (IH _ _ _ _ Hc Hr) as (ran2 & c2 & Hr2 & Hn2 & Hc2 & Hs2). exists ran2, c2.
    simpl. split_and!; [done|lia|done..].
Qed.

(** The message at each position is the one for its call. *)
Definition answers (call : ToolCall) (m : ChatMessage) : Prop :=
  cm_role m = RoleTool /\ cm_tool_call_id m = Some (tc_id call) /\ exists text, cm_content m = Some text.

Lemma result_message_answers (call : ToolCall) (out : res Value) : answers call (result_message call out).
Proof. unfold result_message, answers. destruct out as [[]|]; simpl; eauto. Qed.

Lemma run_scheduled_done x calls order : forall s done s',
  run_scheduled x calls order s = (done, s') ->
  Forall (fun p => exists call, calls !! p.1 = Some call /\ answers call p.2) done
  /\ (forall i, i ∈ order -> i < length calls -> i ∈ map fst done).
Proof.
  induction order as [|i order IH]; intros s done s' Hr; cbn [run_scheduled] in Hr.
  { injection Hr as <- <-. split; [constructor|by intros j ?%not_elem_of_nil]. }
  destruct (calls !! i) as [call|] eqn:Ei.
  - destruct (execute_one x call s) as [out s1].
    destruct (run_scheduled x calls order s1) as [done1 s2] eqn:Es. injection Hr as <- <-.
    destruct (IH _ _ _ Es) as [Hf Hin]. split.
    + constructor; [|done]. exists call. split; [done|apply result_message_answers].
    + intros j [->|Hj]%elem_of_cons Hlt; [by left|right; by apply Hin].
  - destruct (IH _ _ _ Hr) as [Hf Hin]. split; [done|]. intros j [->|Hj]%elem_of_cons Hlt; [|by apply Hin].
    by apply lookup_ge_None in Ei; lia.
Qed.

Lemma collect_answers calls (done : list (nat * ChatMessage)) :
  Forall (fun p => exists call, calls !! p.1 = Some call /\ answers call p.2) done ->
  forall n k, n + k = length calls -> (forall i, n <= i < length calls -> i ∈ map fst done) ->
  Forall2 answers (drop n calls)
    (omap (fun i => snd <$> List.find (fun p => (p.1 =? i)%nat) done) (seq n k)).
Proof.
  intros Hf n k. revert n. induction k as [|k IH]; intros n Hn Hin.
  { rewrite drop_ge by lia. constructor. }
  destruct (lookup_lt_is_Some_2 calls n ltac:(lia)) as [call Hc].
  rewrite (drop_S _ _ _ Hc). cbn [seq omap list_omap].
  destruct (List.find (fun p => (p.1 =? n)%nat) done) as [[i m]|] eqn:Ef.
  - apply List.find_some in Ef as [Hp Hi]. simpl in Hi. apply Nat.eqb_eq in Hi as ->. simpl. constructor.
    + rewrite Forall_forall in Hf. destruct (Hf _ (proj2 (list_elem_of_In _ _) Hp)) as (call' & Hc' & Ha).
      simpl in Hc'. rewrite Hc in Hc'. by injection Hc' as <-.
    + apply IH; [lia|]. intros i ?. apply Hin. lia.
  - exfalso. pose proof (Hin n ltac:(lia)) as Hd. apply list_elem_of_In, in_map_iff in Hd as (p & Hp & Hd).
    apply (List.find_none _ _ Ef) in Hd. by rewrite Hp, Nat.eqb_refl in Hd.
Qed.
End Batch.

(** C24: a batch answers every call, in the order asked and whatever order
    the calls ran in, each with a message under its own call id; and the
    approvals of the calls that ran with an irreversible request were held
    before, are pairwise distinct, and are exactly the ones gone from the
    ledger. *)
Theorem batch_spends_once `{Codec} `{!CodecLaws} {E : Type} (x : ToolExecutor E) (order : list nat)
    (calls : list ToolCall) (s : Dispatch E) (c : EffectAdmissionContext)
    (results : list ChatMessage) (s' : Dispatch E) :
  ds_admission s = Some c -> order ≡ₚ seq 0 (length calls) ->
  execute_batch x order calls s = (results, s') ->
  Forall2 answers calls results
  /\ exists ran c', ds_ran s' = (ds_ran s ++ ran)%list /\ length ran <= length calls
       /\ ds_admission s' = Some c' /\ spends c ran c'.
Proof.
  intros Hc Ho. unfold execute_batch.
  destruct (run_scheduled x calls order s) as [done s1] eqn:Er. intros [= <- <-].
  destruct (run_scheduled_done _ _ _ _ _ _ Er) as [Hf Hin]. split.
  - apply (collect_answers calls done Hf 0 (length calls)); [done|]. intros i Hi. apply Hin; [|lia].
    rewrite Ho. apply elem_of_seq. lia.
  - replace (length calls) with (length order) by (by rewrite Ho, length_seq).
    by eapply run_scheduled_spends.
Qed.
