(* ===== verification/ToolFacts.v ===== *)
(** * Registries, wrapped tools and argument checks: facts

    An allowlist resolves exactly the names it lists; the validator accepts
    exactly the conforming values; a wrapped tool runs in process. *)

From Stdlib Require Import String.
From S2P Require Import Prelude Containers Json Error Graph Record SampleCodec Journal Meter Chat Declaration Replay Invariant Effects ReplayRun Text ArgumentCheck Middleware Tools ToolSelect ToolWrappers Dispatch DispatchFacts.
Local Open Scope string_scope.

(** ** Registries *)
Section Registries.
Context `{Codec} {E : Type}.
Implicit Types (r : ToolRegistry E) (t : ToolImpl E).

(** Tools sit under their own names, none declared unplaceable. *)
Definition placeable t : bool :=
  match resolve_placement t false with Err (InvalidDeclaration _ _ _) => false | _ => true end.

Record wf_registry r : Prop := {
  wr_names : forall name t, rg_tools r !! name = Some t -> ti_name t = name;
  wr_placeable : forall name t, rg_tools r !! name = Some t -> placeable t = true;
}.

Lemma wf_new : wf_registry tools_new.
Proof. split; intros name t; simpl; by rewrite lookup_empty. Qed.

Lemma register_cases t r :
  register_shared t r
  = if placeable t then Returns (mkRegistry (<[ti_name t := t]> (rg_tools r)) (rg_sources r))
    else Panics (PayloadString ("tool `" ++ ti_name t
           ++ "` declares an invalid placement: Execute/Egress tools must require a sandbox")).
Proof. unfold register_shared, placeable. by repeat case_match. Qed.

Lemma wf_register t r r' : wf_registry r -> register_shared t r = Returns r' -> wf_registry r'.
Proof.
  intros [Hn Hp]. rewrite register_cases. destruct (placeable t) eqn:Et; [|done]. intros [= <-].
  split; intros name u; simpl; rewrite lookup_insert_Some; intros [[<- <-]|[_ ?]]; eauto.
Qed.

Lemma wf_unregister name r : wf_registry r -> wf_registry (unregister name r).2.
Proof.
  intros [Hn Hp]. split; intros k u; simpl; rewrite lookup_delete_Some; intros [_ ?]; eauto.
Qed.

Lemma wf_attach source r : wf_registry r -> wf_registry (attach source r).
Proof. by intros []. Qed.

Lemma get_named r env name t : wf_registry r -> registry_get r env name = Some t -> ti_name t = name.
Proof.
  intros Hwf. unfold registry_get. destruct (rg_tools r !! name) as [u|] eqn:Eu.
  - intros [= <-]. by apply (wr_names r Hwf).
  - intros [_ ?%String.eqb_eq]%List.find_some. done.
Qed.

(** What a registry built from tools alone offers. *)
Lemma restrict_exact r env (Hwf : wf_registry r) allow : forall seen selected,
  match restrict r env allow seen selected with
  | Returns (Ok out) =>
      NoDup allow /\ (forall name, name ∈ allow -> name ∉ seen) /\ rg_sources out = rg_sources selected
      /\ (forall name, name ∈ allow -> exists t, registry_get r env name = Some t /\ placeable t = true)
      /\ (forall name, rg_tools out !! name
            = if decide (name ∈ allow) then registry_get r env name else rg_tools selected !! name)
  | Returns (Err _) =>
      ~ NoDup allow \/ (exists name, name ∈ allow /\ (name ∈ seen \/ registry_get r env name = None))
  | Panics _ => exists name t, name ∈ allow /\ registry_get r env name = Some t /\ placeable t = false
  end.
Proof.
  induction allow as [|name allow IH]; intros seen selected; cbn [restrict].
  { split_and!; [constructor|set_solver|done|set_solver|]. intros name.
    by rewrite decide_False by apply not_elem_of_nil. }
  destruct (decide (name ∈ seen)) as [Hs|Hs].
  { right. exists name. split; [by left|by left]. }
  destruct (registry_get r env name) as [t|] eqn:Eg.
  2: { right. exists name. split; [by left|by right]. }
  rewrite register_cases. destruct (placeable t) eqn:Ep.
  2: { exists name, t. split_and!; [by left|done|done]. }
  pose proof (get_named r env name t Hwf Eg) as Hname.
  specialize (IH (name :: seen) (mkRegistry (<[ti_name t := t]> (rg_tools selected)) (rg_sources selected))).
  destruct (restrict r env allow _ _) as [[out|e]|p].
  - destruct IH as (Hnd & Hfresh & Hsrc & Hall & Hget). rewrite Hname in Hget. split_and!.
    + constructor; [|done]. intros Hin. apply (Hfresh name Hin). by left.
    + intros k [->|Hk]%elem_of_cons; [done|]. intros Hks. apply (Hfresh k Hk). by right.
    + done.
    + intros k [->|Hk]%elem_of_cons; eauto.
    + intros k. rewrite Hget. simpl. destruct (decide (k ∈ allow)).
      * by rewrite decide_True by (by right).
      * destruct (decide (k = name)) as [->|Hne].
        -- by rewrite lookup_insert_eq, decide_True by (by left).
        -- rewrite lookup_insert_ne by done. rewrite decide_False; [done|]. by intros [?|?]%elem_of_cons.
  - destruct IH as [IH|(k & Hk & [Hks|Hg])].
    + left. by intros [_ ?]%NoDup_cons.
    + apply elem_of_cons in Hks as [->|Hks].
      * left. by intros [? _]%NoDup_cons.
      * right. exists k. split; [by right|by left].
    + right. exists k. split; [by right|by right].
  - destruct IH as (k & u & Hk & Hg & Hp). exists k, u. split_and!; [by right|done|done].
Qed.
End Registries.

(** An allowlist confines. When restricting a registry to it succeeds,
    every listed name resolves to the very tool the full registry offered,
    whatever its live sources later provide, and no other name resolves; it
    is refused exactly for a repeated or unknown name. *)
Theorem allowlist_confines `{Codec} {E : Type} (r : ToolRegistry E) (env : E) (allow : list string) :
  wf_registry r -> Forall (fun t => placeable t = true) (sourced r env) ->
  (exists out, restricted_to r env allow = Returns (Ok out)
     /\ (forall env' name, registry_get out env' name
           = if decide (name ∈ allow) then registry_get r env name else None))
  /\ NoDup allow /\ (forall name, name ∈ allow -> is_Some (registry_get r env name))
  \/ (exists e, restricted_to r env allow = Returns (Err e))
     /\ (~ NoDup allow \/ exists name, name ∈ allow /\ registry_get r env name = None).
Proof.
  intros Hwf Hsrc. pose proof (restrict_exact r env Hwf allow [] tools_new) as Hx.
  unfold restricted_to. destruct (restrict r env allow [] tools_new) as [[out|e]|p].
  - left. destruct Hx as (Hnd & _ & Hs & Hall & Hget). split_and!; [|done|].
    + exists out. split; [done|]. intros env' name. unfold registry_get at 1, sourced.
      rewrite Hget, Hs. simpl. rewrite lookup_empty. case_decide as Hin; [|done].
      destruct (Hall name Hin) as (t & -> & _). done.
    + intros name Hin. destruct (Hall name Hin) as (t & -> & _). eauto.
  - right. split; [eauto|]. destruct Hx as [?|(name & Hin & [?%not_elem_of_nil|?])]; [by left|done|eauto].
  - exfalso. destruct Hx as (name & t & _ & Hg & Hp). unfold registry_get in Hg.
    destruct (rg_tools r !! name) as [u|] eqn:Eu.
    + injection Hg as ->. by rewrite (wr_placeable r Hwf name t Eu) in Hp.
    + apply List.find_some in Hg as [Hin _]. rewrite Forall_forall in Hsrc.
      by rewrite (Hsrc t (proj2 (list_elem_of_In _ _) Hin)) in Hp.
Qed.

(** ** Argument validation *)

(** A value conforms to a schema, keyword by keyword. *)
Inductive conforms : Value -> Value -> Prop :=
| conforms_intro (schema v : Value) :
    (forall t, vget "type" schema = Some t -> type_ok t v = true) ->
    (forall l, (vget "enum" schema ≫= as_array) = Some l -> exists w, w ∈ l /\ w ≡ v) ->
    (forall w, vget "const" schema = Some w -> w ≡ v) ->
    (forall m, v = Object m ->
       (forall name, name ∈ required_names schema -> is_Some (BTree.get name m))
       /\ (forall k w, (k, w) ∈ m -> forbidden schema k = false)) ->
    (forall m k w child, v = Object m -> (k, w) ∈ m -> child_schema schema k = Some child ->
       conforms child w) ->
    (forall l, v = Array l ->
       (forall n, (vget "minItems" schema ≫= as_u64) = Some n -> (n <= N.of_nat (length l))%N)
       /\ (forall n, (vget "maxItems" schema ≫= as_u64) = Some n -> (N.of_nat (length l) <= n)%N)) ->
    (forall l w items, v = Array l -> w ∈ l -> vget "items" schema = Some items -> conforms items w) ->
    (forall s, v = Str s ->
       (forall n, (vget "minLength" schema ≫= as_u64) = Some n -> (n <= N.of_nat (chars_count s))%N)
       /\ (forall n, (vget "maxLength" schema ≫= as_u64) = Some n -> (N.of_nat (chars_count s) <= n)%N)) ->
    (forall n x, v = Num n -> as_f64 v = Some x ->
       (forall b, (vget "minimum" schema ≫= as_f64) = Some b -> f64_ltb x b = false)
       /\ (forall b, (vget "maximum" schema ≫= as_f64) = Some b -> f64_ltb b x = false)) ->
    conforms schema v.

Section Validating.
Context `{Codec} (f64_text : Float64 -> string).

Lemma check_if_nil (bad : bool) (path rule message : string) :
  check_if bad path rule message = [] <-> bad = false.
Proof. by destruct bad. Qed.

Lemma concat_nil {A B : Type} (f : A -> list B) (l : list A) :
  concat (map f l) = [] <-> forall x, x ∈ l -> f x = [].
Proof.
  induction l as [|a l IH]; simpl; [set_solver|].
  split.
  - intros [Ha Hl]%app_eq_nil x [->|Hx]%elem_of_cons; [done|by apply IH].
  - intros Hall. rewrite (Hall a) by by left. apply IH. intros x Hx. apply Hall. by right.
Qed.

Lemma bound_check_nil (schema : Value) (key : string) (bad : N -> bool) (path rule : string)
    (message : N -> string) :
  bound_check schema key bad path rule message = []
  <-> forall n, (vget key schema ≫= as_u64) = Some n -> bad n = false.
Proof.
  unfold bound_check. destruct (vget key schema ≫= as_u64) as [n|]; [|naive_solver].
  rewrite check_if_nil. naive_solver.
Qed.

Lemma limit_check_nil (schema v : Value) (key : string) (bad : Float64 -> Float64 -> bool)
    (path rule text : string) :
  limit_check f64_text schema v key bad path rule text = []
  <-> forall x, as_f64 v = Some x -> forall b, (vget key schema ≫= as_f64) = Some b -> bad x b = false.
Proof.
  unfold limit_check. destruct (vget key schema ≫= as_f64) as [b|]; [|naive_solver].
  rewrite check_if_nil. destruct (as_f64 v); naive_solver.
Qed.

Lemma enum_check_nil (schema v : Value) (path : string) :
  enum_check schema v path = []
  <-> forall l, (vget "enum" schema ≫= as_array) = Some l -> exists w, w ∈ l /\ w ≡ v.
Proof.
  unfold enum_check. destruct (vget "enum" schema ≫= as_array) as [l|]; [|naive_solver].
  rewrite check_if_nil, negb_false_iff, existsb_exists. split.
  - intros (w & Hw & He%value_eqb_spec) l' [= <-]. exists w. by rewrite list_elem_of_In.
  - intros Hl. destruct (Hl l eq_refl) as (w & Hw & He). exists w.
    rewrite list_elem_of_In in Hw. by rewrite value_eqb_spec.
Qed.

Lemma const_check_nil (schema v : Value) (path : string) :
  const_check schema v path = [] <-> forall w, vget "const" schema = Some w -> w ≡ v.
Proof.
  unfold const_check. destruct (vget "const" schema) as [w|]; [|naive_solver].
  rewrite check_if_nil, negb_false_iff, value_eqb_spec. naive_solver.
Qed.

Lemma type_check_nil (schema v : Value) (path : string) :
  type_check schema v path = [] <-> forall t, vget "type" schema = Some t -> type_ok t v = true.
Proof.
  unfold type_check. destruct (vget "type" schema) as [t|]; [|naive_solver].
  rewrite check_if_nil, negb_false_iff. naive_solver.
Qed.

Lemma required_check_nil (schema : Value) (m : list (string * Value)) (path : string) :
  required_check schema m path = []
  <-> forall name, name ∈ required_names schema -> is_Some (BTree.get name m).
Proof.
  unfold required_check. rewrite concat_nil. unfold BTree.contains_key.
  split; intros Hall name Hn; specialize (Hall name Hn).
  - apply check_if_nil in Hall. destruct (BTree.get name m); [eauto|done].
  - apply check_if_nil. by destruct (BTree.get name m); [|destruct Hall].
Qed.

Lemma ltb_false_iff (a b : N) : (a <? b)%N = false <-> (b <= a)%N.
Proof. apply N.ltb_ge. Qed.

Lemma validate_children (path : string) (schema : Value) (m : list (string * Value)) :
  Forall (fun kv => forall schema path, validate_value f64_text kv.2 schema path = [] <-> conforms schema kv.2) m ->
  concat (map (fun kv =>
    match child_schema schema kv.1 with
    | Some child => validate_value f64_text kv.2 child (path ++ "/" ++ escape_pointer kv.1)
    | None => check_if (forbidden schema kv.1) path "additional_properties"
                ("unexpected property `" ++ kv.1 ++ "`")
    end) m) = []
  <-> (forall k w, (k, w) ∈ m -> forbidden schema k = false)
      /\ (forall k w child, (k, w) ∈ m -> child_schema schema k = Some child -> conforms child w).
Proof.
  rewrite Forall_forall. intros IH. rewrite concat_nil. split.
  - intros Hall. split; intros k w.
    + intros Hin. specialize (Hall _ Hin). simpl in Hall.
      destruct (child_schema schema k) as [child|] eqn:Ec; [|by apply check_if_nil in Hall].
      unfold child_schema in Ec. unfold forbidden. by repeat case_match.
    + intros child Hin Hc. specialize (Hall _ Hin). simpl in Hall. rewrite Hc in Hall.
      by apply (IH (k, w) Hin) in Hall.
  - intros [Hf Hc] [k w] Hin. simpl. destruct (child_schema schema k) as [child|] eqn:Ec.
    + apply (IH (k, w) Hin). by apply (Hc k w child).
    + apply check_if_nil. by apply (Hf k w).
Qed.

Lemma validate_items (path : string) (schema : Value) (l : list Value) :
  Forall (fun w => forall schema path, validate_value f64_text w schema path = [] <-> conforms schema w) l ->
  forall i,
  ((fix items (i : nat) (l : list Value) : list ArgumentViolation :=
      match l with
      | [] => []
      | item :: rest =>
          (validate_value f64_text item schema (path ++ "/" ++ pretty i) ++ items (S i) rest)%list
      end) i l = [])
  <-> forall w, w ∈ l -> conforms schema w.
Proof.
  induction 1 as [|w l Hw _ IH]; intros i; [set_solver|]. split.
  - intros [H1 H2]%app_eq_nil u [->|Hu]%elem_of_cons; [by apply Hw in H1|by apply (IH (S i))].
  - intros Hall. apply app_nil. split.
    + apply Hw, Hall. by left.
    + apply (IH (S i)). intros u Hu. apply Hall. by right.
Qed.

Lemma validate_value_conforms (v : Value) : forall schema path,
  validate_value f64_text v schema path = [] <-> conforms schema v.
Proof.
  induction v as [|b|n|s|l IH|m IH] using Value_ind; intros schema path; cbn [validate_value].
  all: destruct (type_check schema _ path) as [|t0 ts] eqn:Et;
    [|split; [discriminate|]; intros Hc; inversion Hc as [? ? Ht]; subst;
      rewrite (proj2 (type_check_nil _ _ path) Ht) in Et; discriminate].
  all: pose proof (proj1 (type_check_nil _ _ _) Et) as Ht.
  all: rewrite !app_nil, enum_check_nil, const_check_nil.
  - split; [intros (He & Hc & _); constructor; naive_solver|inversion 1; naive_solver].
  - split; [intros (He & Hc & _); constructor; naive_solver|inversion 1; naive_solver].
  - unfold number_check. rewrite app_nil, !limit_check_nil.
    split; [intros (He & Hc & Hmin & Hmax); constructor; naive_solver|inversion 1; naive_solver].
  - unfold string_check. rewrite app_nil, !bound_check_nil. setoid_rewrite ltb_false_iff.
    split; [intros (He & Hc & Hmin & Hmax); constructor; naive_solver|inversion 1; naive_solver].
  - unfold array_check. rewrite app_nil, !bound_check_nil. setoid_rewrite ltb_false_iff.
    destruct (vget "items" schema) as [items|] eqn:Ei.
    + rewrite (validate_items path items l IH 0).
      split; [intros (He & Hc & (Hmin & Hmax) & Hi); constructor; naive_solver|inversion 1; naive_solver].
    + split; [intros (He & Hc & (Hmin & Hmax) & _); constructor; naive_solver|inversion 1; naive_solver].
  - rewrite required_check_nil, (validate_children path schema m IH).
    split; [intros (He & Hc & Hr & Hf & Hk); constructor; naive_solver|inversion 1; naive_solver].
Qed.
End Validating.

(** ** The refusal *)

Lemma violation_roundtrip (v : ArgumentViolation) :
  argument_violation_from_value (argument_violation_value v) = Some v.
Proof. by destruct v. Qed.

Lemma violations_roundtrip (vs : list ArgumentViolation) :
  mapM argument_violation_from_value (map argument_violation_value vs) = Some vs.
Proof.
  apply mapM_Some. induction vs as [|v vs IH]; constructor; [apply violation_roundtrip|done].
Qed.

Lemma refusal_parsed `{Codec} (vs : list ArgumentViolation) :
  let body := jobj [("kind", Str ARGUMENT_VALIDATION_KIND);
                    ("violations", Array (map argument_violation_value vs))] in
  from_slice (value_text body) = Ok body ->
  parse_argument_validation_refusal (argument_validation_refusal vs) = Some vs.
Proof.
  intros body Hb. unfold parse_argument_validation_refusal, argument_validation_refusal.
  rewrite strip_prefix_app. fold body. cbn [mbind option_bind]. rewrite Hb. cbn.
  apply violations_roundtrip.
Qed.

(** The validator is exact. *)
Lemma validation_exact `{Codec} (f64_text : Float64 -> string) (schema args : Value) :
  validate_arguments f64_text schema args = [] <-> conforms schema args.
Proof. apply validate_value_conforms. Qed.

(** A validated tool is called exactly on conforming arguments. When the
    arguments conform to the tool's schema in every supported keyword, at
    every depth, the call is the tool's own; otherwise the tool is not
    called, nothing changes, and the answer is a refusal the roll-up parses
    back to the violations, at least one. *)
Theorem validating_tool_exact `{Codec} {E : Type} (f64_text : Float64 -> string) (inner : ToolImpl E)
    (context : option RunContext) (args : Value) (l : Live E) :
  (forall vs, let body := jobj [("kind", Str ARGUMENT_VALIDATION_KIND);
                                ("violations", Array (map argument_violation_value vs))] in
     vs = validate_arguments f64_text (ti_schema inner) args -> from_slice (value_text body) = Ok body) ->
  conforms (ti_schema inner) args
    /\ ti_call (validating_tool f64_text inner) context args l = ti_call inner context args l
  \/ ~ conforms (ti_schema inner) args
    /\ exists text vs, ti_call (validating_tool f64_text inner) context args l = (Returns (Ok (Str text)), l)
         /\ parse_argument_validation_refusal text = Some vs /\ vs <> [].
Proof.
  intros Hcodec. simpl. unfold validating_call. pose proof (validation_exact f64_text (ti_schema inner) args) as Hx.
  destruct (validate_arguments f64_text (ti_schema inner) args) as [|v vs] eqn:Ev.
  - left. split; [by apply Hx|done].
  - right. split; [by intros ?%Hx|]. exists (argument_validation_refusal (v :: vs)), (v :: vs).
    split; [done|]. split; [|done]. by apply refusal_parsed, Hcodec.
Qed.

(** ** Concrete dispatches

    Executors at the sample codec: an approved payment, a batch, an
    allowlist, refused arguments; and where the code departs from its
    documentation: wrapped tools leave the sandbox, prefixed tools ask under
    the inner name, colliding sources advertise one tool and run another,
    and a toolset drops the names it does not know. *)

From S2P Require Import SampleReader Shaping.

Module ToolExamples.
Import Reader.

Definition live : Live nat := mkLive [Logical 1000 5] (journal_new "run" "thread" 0) 0.

(** The world counts the bodies that ran. *)
Definition counting (answer : Value) (context : option RunContext) (args : Value) :
    Act (Live nat) (res Value) :=
  fun l => (Returns (Ok answer), mkLive (lv_clocks l) (lv_journal l) (S (lv_env l))).

Definition tool (name : string) (effect : Effect) (class : EffectClass) (req : SandboxRequirement) :
    ToolImpl nat :=
  mkToolImpl name "does things"
    (jobj [("type", Str "object"); ("required", Array [Str "to"]);
           ("properties", jobj [("to", jobj [("type", Str "string"); ("minLength", jnat 1)])])])
    effect (fun _ => false) class req name (fun _ => None)
    (default_effect_request name effect (fun _ => None)) (counting (Str "done")).

Definition pay : ToolImpl nat := tool "pay" NonIdempotent ClassRead SandboxNone.
Definition search : ToolImpl nat := tool "search" ReadOnly ClassRead SandboxNone.
Definition shell : ToolImpl nat := tool "shell" ReadOnly ClassExecute SandboxRequired.

Definition registry_of (tools : list (ToolImpl nat)) : ToolRegistry nat :=
  mkRegistry (list_to_map (map (fun t => (ti_name t, t)) tools)) [].

Definition call (id name : string) : ToolCall := mkToolCall id name (jobj [("to", Str "ada")]).

(** A layer that renames the target. *)
Definition renaming (target : string) : Layer (Live nat) ToolInvocation Value :=
  mkLayer "renaming"
    (fun inv l => (Returns (Continue,
       mkToolInvocation (tiv_thread_id inv) (tiv_node inv)
         (mkToolCall (tc_id (tiv_call inv)) target (tc_arguments (tiv_call inv))) (tiv_effect inv)), l))
    (fun _ v l => (Returns (Continue, v), l)).

Definition executor (tools : list (ToolImpl nat)) (layers : list (Layer (Live nat) ToolInvocation Value)) :
    ToolExecutor nat :=
  mkToolExecutor (registry_of tools) layers
    [mkGuard "quiet" (fun _ l => (Returns None, l))] (Some "run:0") "thread" "tools" None None.

(** The context with an approval for the payment of call [c1]. *)
Definition admission : EffectAdmissionContext :=
  match ti_effect_request pay (call "c1" "pay") with
  | Some rq => with_approvals [approve (effect_id "thread" rq) "ops:ada"] (context_new "thread")
  | None => context_new "thread"
  end.

Definition start_state : Dispatch nat := mkDispatch live (Some admission) [].

Definition after (x : ToolExecutor nat) (c : ToolCall) : Dispatch nat := (execute_one x c start_state).2.

(** The call asks for [search]; the layer turns it into the approved payment. *)
Lemma execute_one_guarded_witness :
  exists r, ds_ran (after (executor [pay; search] [renaming "pay"]) (call "c1" "search")) = [r]
    /\ dispatched (executor [pay; search] [renaming "pay"]) (Some admission)
         (ds_admission (after (executor [pay; search] [renaming "pay"]) (call "c1" "search"))) r.
Proof.
  destruct (execute_one_guarded (executor [pay; search] [renaming "pay"]) (call "c1" "search") start_state
              _ _ (surjective_pairing _)) as [[Hr _]|(r & Hr & Hd & _)].
  - exfalso. apply (f_equal length) in Hr. vm_compute in Hr. discriminate Hr.
  - exists r. split; [exact Hr|exact Hd].
Defined.

(** Three calls finishing backwards; the second payment has no approval. *)
Definition calls : list ToolCall := [call "c1" "pay"; call "c2" "pay"; call "c3" "search"].

Lemma batch_spends_once_witness :
  let out := execute_batch (executor [pay; search] []) [2; 1; 0] calls start_state in
  Forall2 answers calls out.1
  /\ length (ds_ran out.2) = 2
  /\ exists ran c', ds_ran out.2 = ran /\ ds_admission out.2 = Some c' /\ spends admission ran c'.
Proof.
  intros out.
  destruct (batch_spends_once (executor [pay; search] []) [2; 1; 0] calls start_state admission
              out.1 out.2 eq_refl) as (Ha & ran & c' & Hr & _ & Hc & Hs).
  - apply (bool_decide_unpack _). vm_compute. exact I.
  - apply surjective_pairing.
  - split; [exact Ha|]. split; [vm_compute; reflexivity|].
    exists ran, c'. split; [exact Hr|]. split; [exact Hc|exact Hs].
Defined.

Lemma registry_wf : wf_registry (registry_of [pay; search]).
Proof.
  split; intros name t Ht; apply elem_of_list_to_map_2 in Ht; cbn [map] in Ht;
    repeat (apply elem_of_cons in Ht as [[= -> ->]|Ht]; [reflexivity|]); by apply not_elem_of_nil in Ht.
Qed.

Lemma allowlist_confines_witness :
  exists out, restricted_to (registry_of [pay; search]) 0 ["search"] = Returns (Ok out)
    /\ (ti_name <$> registry_get out 0 "pay") = None
    /\ (ti_name <$> registry_get out 0 "search") = Some "search".
Proof.
  destruct (allowlist_confines (registry_of [pay; search]) 0 ["search"] registry_wf)
    as [[(out & Hr & Hg) _]|[(e & He) _]].
  - constructor.
  - exists out. split; [exact Hr|]. rewrite !Hg. split; vm_compute; reflexivity.
  - exfalso. apply (f_equal (fun u => match u with Returns (Ok _) => true | _ => false end)) in He.
    vm_compute in He. discriminate He.
Defined.

Definition no_text (f : Float64) : string := "?".

Lemma validating_tool_exact_witness :
  ~ conforms (ti_schema search) (jobj [("to", Str EmptyString)])
  /\ exists text vs, ti_call (validating_tool no_text search) None (jobj [("to", Str EmptyString)]) live
       = (Returns (Ok (Str text)), live)
     /\ parse_argument_validation_refusal text = Some vs /\ vs <> [].
Proof.
  destruct (validating_tool_exact no_text search None (jobj [("to", Str EmptyString)]) live) as [[Hc _]|Hw].
  - intros vs body ->. vm_compute. reflexivity.
  - exfalso. apply (validation_exact no_text) in Hc. vm_compute in Hc. discriminate Hc.
  - exact Hw.
Defined.

(** ** Wrapped tools leave the sandbox *)

(** The decorators keep the trait's defaults for the placement methods, so
    every wrapped tool is placed in process, whatever the tool asks for. *)
Theorem wrapped_placed_in_process {E : Type} (inner : ToolImpl E) (parent prefix : string)
    (node : option string) (available : bool) :
  resolve_placement (recording_tool inner parent node) available = Ok InProcess
  /\ resolve_placement (validating_tool no_text inner) available = Ok InProcess
  /\ resolve_placement (prefixed_tool prefix inner) available = Ok InProcess.
Proof. split_and!; reflexivity. Qed.

(** Without a sandbox the executor refuses the shell; recorded, as the tools
    node wires it, the same tool runs in process. *)
Theorem recorded_shell_escapes_sandbox :
  map rn_placement (ds_ran (after (executor [shell] []) (call "c1" "shell"))) = []
  /\ map rn_placement
       (ds_ran (after (executor [recording_tool shell "run:0" (Some "tools")] []) (call "c1" "shell")))
     = [InProcess].
Proof. split; vm_compute; reflexivity. Qed.

(** ** Prefixed tools ask for effects under the inner name *)
Theorem prefixed_request_unprefixed :
  ti_effect_kind (prefixed_tool "crm_" pay) = "crm_pay"
  /\ (rq_kind <$> ti_effect_request (prefixed_tool "crm_" pay) (call "c1" "crm_pay")) = Some "pay".
Proof. split; vm_compute; reflexivity. Qed.

(** ** Colliding sources *)

(** Two sources offer [lookup]: the catalog shows the second one's class,
    dispatch resolves the first. *)
Definition colliding : ToolRegistry nat :=
  attach (fun _ => [tool "lookup" ReadOnly ClassRead SandboxNone])
    (attach (fun _ => [tool "lookup" NonIdempotent ClassRead SandboxNone]) tools_new).

Theorem colliding_sources_disagree :
  match capabilities colliding 0 with Ok caps => map tcp_effect caps | Err _ => [] end = [ReadOnly]
  /\ (ti_effect <$> registry_get colliding 0 "lookup") = Some NonIdempotent.
Proof. split; vm_compute; reflexivity. Qed.

(** ** Unknown names in a toolset *)
Theorem toolset_drops_unknown :
  match apply_spec no_text (registry_of [pay; search]) 0
          (SpecPrepared [("absent", mkOverride "x" "y" (jobj []))] (SpecFiltered ["absent"; "pay"] SpecBase)) with
  | Returns (Ok r) => Some (registry_names r 0)
  | _ => None
  end = Some ["pay"].
Proof. vm_compute. reflexivity. Qed.
End ToolExamples.
