(* ===== verification/Progress.v ===== *)
(** * Failures and progress ([rusty-core/src/tool.rs], [react.rs])

    What the agent loop reads off the conversation before it dispatches a
    batch: structured tool failures, the failure policy, repeated requests,
    reads that answer nothing new, denied calls; and the repair of a thread
    whose last calls were never answered. All are pure functions of the
    messages, so a recording and its replay agree. *)

From Stdlib Require Import String.
From S2P Require Import Prelude Containers Json Error Graph Record Meter Chat Declaration Invariant Text.
Local Open Scope string_scope.

(** ** Structured failures *)

(** [ToolFailure]. *)
Record ToolFailure : Type := mkFailure {
  tf_kind : string;
  tf_class : string;
  tf_tool : string;
  tf_detail : string;
  tf_sent : bool;
  tf_retry_safe : bool;
  tf_next : string;
}.

Definition FAILURE_KIND : string := "tool_failure".

(** [ToolFailure::new]. *)
Definition failure_new (class tool detail : string) (sent retry_safe : bool) (next : string) :
    ToolFailure :=
  mkFailure FAILURE_KIND class tool detail sent retry_safe next.

(** The object [serde_json::to_string] writes, in field order. *)
Definition failure_value (f : ToolFailure) : Value :=
  Object [("kind", Str (tf_kind f)); ("class", Str (tf_class f)); ("tool", Str (tf_tool f));
          ("detail", Str (tf_detail f)); ("sent", Bool (tf_sent f));
          ("retry_safe", Bool (tf_retry_safe f)); ("next", Str (tf_next f))].

Definition failure_from_value (v : Value) : option ToolFailure :=
  fields ← struct_fields ["kind"; "class"; "tool"; "detail"; "sent"; "retry_safe"; "next"] 7 v;
  match fields with
  | [k; c; t; d; s; r; n] =>
      kind ← k ≫= as_str; class ← c ≫= as_str; tool ← t ≫= as_str; detail ← d ≫= as_str;
      sent ← s ≫= as_bool; retry_safe ← r ≫= as_bool; next ← n ≫= as_str;
      Some (mkFailure kind class tool detail sent retry_safe next)
  | _ => None
  end.

(** [rposition]. *)
Fixpoint rposition {A : Type} (f : A -> bool) (l : list A) : option nat :=
  match l with
  | [] => None
  | a :: rest =>
      match rposition f rest with
      | Some i => Some (S i)
      | None => if f a then Some 0 else None
      end
  end.

Definition after_last {A : Type} (f : A -> bool) (l : list A) : nat :=
  match rposition f l with Some i => S i | None => 0 end.

Section Loop.
Context `{Codec}.

(** [ToolFailure::into_error]; a serialization failure leaves the detail. *)
Definition failure_text (f : ToolFailure) : string := default (tf_detail f) (to_vec (failure_value f)).
Definition into_failure_error (f : ToolFailure) : RustyError := ETool (failure_text f).

(** [ToolFailure::parse]. *)
Definition stripped (prefix text : string) : string :=
  match strip_prefix prefix text with Some rest => str_trim rest | None => text end.

Definition failure_parse (content : string) : option ToolFailure :=
  match from_slice (stripped "tool error:" (stripped "ERROR:" (str_trim content))) with
  | Ok v =>
      f ← failure_from_value v;
      if String.eqb (tf_kind f) FAILURE_KIND then Some f else None
  | Err _ => None
  end.

(** A failure of the world: an error that is none of the loop's own
    refusals ([real_failure], [world_failed]). *)
Definition own_refusal (content : string) : bool :=
  match failure_parse content with
  | Some f => String.eqb (tf_class f) "bounded" || String.eqb (tf_class f) "reconcile_first"
  | None => false
  end.

Definition world_failed (content : string) : bool :=
  starts_with "ERROR:" (str_trim_start content) && negb (own_refusal content).

(** ** The failure policy *)

(** [FAILURE_BOUND]. *)
Definition FAILURE_BOUND : nat := 2.

(** The content answering call [id] in the messages from its request on. *)
Definition result_in (messages : list ChatMessage) (id : string) : option string :=
  List.find (fun m => bool_decide (cm_tool_call_id m = Some id)) messages ≫= cm_content.

(** Every call of the thread with its position and result. *)
Fixpoint attempts_from (i : nat) (history : list ChatMessage) : list (nat * ToolCall * option string) :=
  match history with
  | [] => []
  | m :: rest =>
      (map (fun tc => (i, tc, result_in history (tc_id tc))) (cm_tool_calls m)
       ++ attempts_from (S i) rest)%list
  end.

Definition attempts (history : list ChatMessage) : list (nat * ToolCall * option string) :=
  attempts_from 0 history.

Definition identical (call tc : ToolCall) : bool :=
  String.eqb (tc_name tc) (tc_name call) && value_eqb (tc_arguments tc) (tc_arguments call).

Definition is_some_and {A : Type} (f : A -> bool) (o : option A) : bool :=
  match o with Some a => f a | None => false end.

Definition failures_of (history : list ChatMessage) (call : ToolCall) : nat :=
  length (List.filter (fun '(_, tc, r) => identical call tc && is_some_and world_failed r)
            (attempts history)).

Definition reads_only (e : option Effect) : bool :=
  match e with Some ReadOnly | Some Pure => true | _ => false end.

(** [max_by_key]: the last of the greatest. *)
Definition max_by_key {A : Type} (key : A -> nat) (l : list A) : option A :=
  fold_left (fun best a =>
    match best with Some b => if (key b <=? key a)%nat then Some a else Some b | None => Some a end)
    l None.

(** The latest identical attempt whose outcome is unknown. *)
Definition uncertain (history : list ChatMessage) (call : ToolCall) : option (nat * bool) :=
  max_by_key fst
    (omap (fun '(i, tc, r) =>
       f ← r ≫= failure_parse;
       if identical call tc && String.eqb (tf_class f) "unknown_outcome"
       then Some (i, tf_retry_safe f) else None) (attempts history)).

Definition resent_since (history : list ChatMessage) (call : ToolCall) (at' : nat) : bool :=
  existsb (fun '(i, tc, _) => (at' <? i)%nat && identical call tc) (attempts history).

Definition read_since (effect_of : string -> option Effect) (history : list ChatMessage) (at' : nat) : bool :=
  existsb (fun '(i, tc, r) =>
    (at' <? i)%nat && reads_only (effect_of (tc_name tc))
    && is_some_and (fun c => negb (starts_with "ERROR:" (str_trim_start c))) r) (attempts history).

Definition bounded_failure (call : ToolCall) (failures : nat) : ToolFailure :=
  failure_new "bounded" (tc_name call)
    ("this exact call already failed " ++ pretty failures ++ " times in this conversation")
    false false
    "change the arguments or the approach, or say what you need — the same call again is not tried".

Definition reconcile_failure (call : ToolCall) : ToolFailure :=
  failure_new "reconcile_first" (tc_name call)
    "an identical write was sent earlier and its answer was lost — it may have happened"
    false false
    "read the record back with a read-only tool first; send the write again only if it is not there".

(** [failure_policy]. *)
Definition failure_policy (effect_of : string -> option Effect) (history : list ChatMessage)
    (call : ToolCall) : option ToolFailure :=
  let failures := failures_of history call in
  if (FAILURE_BOUND <=? failures)%nat then Some (bounded_failure call failures)
  else if reads_only (effect_of (tc_name call)) then None
  else
    let lost := uncertain history call in
    if match lost with Some (at', true) => negb (resent_since history call at') | _ => false end
    then None
    else
      match lost with
      | Some (at', false) =>
          if read_since effect_of history at' then None else Some (reconcile_failure call)
      | _ => None
      end.

(** ** Repeated requests *)

(** [STUCK_TURN_LIMIT], [NO_NEW_FACT_LIMIT] and the notices. *)
Definition STUCK_TURN_LIMIT : nat := 3.
Definition NO_NEW_FACT_LIMIT : nat := 3.

Definition NO_NEW_FACT_NOTICE : string :=
  "NOTHING NEW — not run. The last reads answered nothing this conversation had not already seen: each result was empty, or the same answer an earlier read already gave under another phrasing. Reading again the same way will not help. Change the approach — a different query, source or tool — or answer with what you have and say what you need. One more read that answers nothing new ends the run.".

Definition REPEATED_CALL_NOTICE : string :=
  "REPEATED CALL — not run. This exact call, with these exact arguments, already ran in this turn and its result is above. Use that result, or change the arguments or the approach. One more identical request ends the run.".

Definition UNRECORDED_READ_NOTICE : string :=
  "NO RESULT RECORDED — the run ended before this call's result was recorded. The call changes nothing, so make it again if the result is still needed.".

Definition UNKNOWN_OUTCOME_NOTICE : string :=
  "OUTCOME UNKNOWN — the run ended before this call's result was recorded, and this call changes things, so it may have taken effect. It was not repeated. Check the current state of what it touches before acting again.".

(** [canonical]. *)
Fixpoint sort_keys (v : Value) : Value :=
  match v with
  | Object m => Object (BTree.from_list (map (fun kv => (kv.1, sort_keys kv.2)) m))
  | Array l => Array (map sort_keys l)
  | _ => v
  end.

Definition canonical (v : Value) : string := value_text (sort_keys v).

(** [call_signature]. *)
Definition call_signature (calls : list ToolCall) : list string :=
  sort_by str_leb (map (fun c => tc_name c ++ "(" ++ canonical (tc_arguments c) ++ ")") calls).

Definition is_role (r : Role) (m : ChatMessage) : bool := bool_decide (cm_role m = r).

(** An earlier request that counts as one: the same batch, neither wholly
    failed nor wholly unrecorded. [rest] starts with the request. *)
Definition counts_as_repeat (signature : list string) (m : ChatMessage) (rest : list ChatMessage) : bool :=
  is_role RoleAssistant m && has_tool_calls m
  && bool_decide (call_signature (cm_tool_calls m) = signature)
  && negb (forallb (fun tc =>
       match result_in rest (tc_id tc) ≫= failure_parse with
       | Some f => negb (String.eqb (tf_class f) "bounded")
       | None => false
       end) (cm_tool_calls m))
  && negb (forallb (fun tc => bool_decide (result_in rest (tc_id tc) = Some UNRECORDED_READ_NOTICE))
             (cm_tool_calls m)).

Fixpoint count_repeats (signature : list string) (messages : list ChatMessage) : nat :=
  match messages with
  | [] => 0
  | m :: rest =>
      (if counts_as_repeat signature m messages then 1 else 0) + count_repeats signature rest
  end.

(** Where the requests that count begin. *)
Definition window_start (earlier : list ChatMessage) (rereadable : bool) : nat :=
  let turn_start := after_last (is_role RoleUser) earlier in
  if rereadable
  then Nat.max turn_start
         (after_last (fun m => is_role RoleTool m && is_some_and world_failed (cm_content m)) earlier)
  else turn_start.

(** [identical_requests_this_turn]. *)
Definition identical_requests_this_turn (messages : list ChatMessage) (rereadable : bool) : nat :=
  match last messages with
  | None => 0
  | Some m =>
      let earlier := removelast messages in
      count_repeats (call_signature (cm_tool_calls m)) (skipn (window_start earlier rereadable) earlier)
  end.

(** ** Reads that answer nothing new *)

Definition ECHO_KEYS : list string := ["asked"; "query"; "for"; "limit"; "scope"; "table"; "fields"].

(** [n.as_f64() == Some(0.0)]. *)
Definition is_zero (n : Number) : bool :=
  match as_f64 (Num n) with Some (FZero _) => true | _ => false end.

Fixpoint empty_answer (v : Value) : bool :=
  match v with
  | Null => true
  | Bool b => negb b
  | Num n => is_zero n
  | Str s => String.eqb (str_trim s) EmptyString || eq_ignore_ascii_case (str_trim s) "no result"
  | Array l => match l with [] => true | _ => false end
  | Object m => forallb (fun kv => empty_answer kv.2) m
  end.

(** [fact_body]. *)
Definition fact_body (content : string) : option string :=
  let trimmed := str_trim content in
  if String.eqb trimmed EmptyString || eq_ignore_ascii_case trimmed "no result"
     || eq_ignore_ascii_case trimmed "no results" || String.eqb trimmed "null"
  then None
  else
    match from_slice trimmed with
    | Err _ => Some trimmed
    | Ok v =>
        let answered :=
          match v with
          | Object m => Object (List.filter (fun kv => negb (bool_decide (kv.1 ∈ ECHO_KEYS))) m)
          | other => other
          end in
        if empty_answer answered then None else Some (canonical answered)
    end.

(** The results answering each request. *)
Fixpoint push_last (batches : list (list string)) (content : string) : list (list string) :=
  match batches with
  | [] => []
  | [b] => [(b ++ [content])%list]
  | b :: rest => b :: push_last rest content
  end.

Definition batches_of (messages : list ChatMessage) : list (list string) :=
  fold_left (fun batches m =>
    if is_role RoleAssistant m && has_tool_calls m then (batches ++ [[]])%list
    else if is_role RoleTool m
    then match cm_content m with Some c => push_last batches c | None => batches end
    else batches) messages [].

Definition is_result (content : string) : bool :=
  negb (starts_with "ERROR:" (str_trim_start content))
  && negb (String.eqb content REPEATED_CALL_NOTICE) && negb (String.eqb content NO_NEW_FACT_NOTICE).

Fixpoint stale_verdicts (batches : list (list string)) (seen : list string) : list (option bool) :=
  match batches with
  | [] => []
  | batch :: rest =>
      match List.filter is_result batch with
      | [] => None :: stale_verdicts rest seen
      | results =>
          let facts := omap fact_body results in
          Some (forallb (fun f => bool_decide (f ∈ seen)) facts)
          :: stale_verdicts rest (seen ++ facts)
      end
  end.

Fixpoint streak_of (verdicts : list (option bool)) : nat :=
  match verdicts with
  | [] => 0
  | Some true :: rest => S (streak_of rest)
  | Some false :: _ => 0
  | None :: rest => streak_of rest
  end.

(** [stale_results_in_a_row]. *)
Definition stale_results_in_a_row (messages : list ChatMessage) : nat :=
  let verdicts := stale_verdicts (batches_of messages) [] in
  let turn := skipn (after_last (is_role RoleUser) messages) messages in
  let turn_batches := length (List.filter (fun m => is_role RoleAssistant m && has_tool_calls m) turn) in
  let this_turn := firstn turn_batches (rev verdicts) in
  let streak := streak_of this_turn in
  let stale_this_turn := length (List.filter (fun v => bool_decide (v = Some true)) this_turn) in
  if (NO_NEW_FACT_LIMIT * 2 <=? stale_this_turn)%nat then Nat.max streak stale_this_turn else streak.

(** [refused_for_nothing_new_since_last_fact]: the loop over the tool
    messages, newest first. *)
Fixpoint refused_before (messages : list ChatMessage) : bool :=
  match messages with
  | [] => false
  | m :: rest =>
      if negb (is_role RoleTool m) then refused_before rest
      else if is_some_and (fun c => String.eqb c NO_NEW_FACT_NOTICE) (cm_content m) then true
      else refused_before rest
  end.

Definition refused_for_nothing_new_since_last_fact (messages : list ChatMessage) : bool :=
  refused_before (rev messages).

(** ** Denied calls *)

(** [APPROVAL_INTERRUPT_KIND], [DENIED_NOTICE], [denied_calls]. *)
Definition APPROVAL_INTERRUPT_KIND : string := "approval".
Definition DENIED_NOTICE : string := "DENIED: a person declined this action".

Definition denied_calls (resume : option Value) : gmap string string :=
  match resume with
  | None => ∅
  | Some v =>
      if bool_decide ((vget "kind" v ≫= as_str) = Some APPROVAL_INTERRUPT_KIND)
         && bool_decide ((vget "decision" v ≫= as_str) = Some "deny")
      then
        let who := default "a person" (vget "by" v ≫= as_str) in
        let reason :=
          match vget "reason" v ≫= as_str with
          | Some r => if String.eqb (str_trim r) EmptyString then EmptyString else ": " ++ r
          | None => EmptyString
          end in
        let notice := DENIED_NOTICE ++ " (" ++ who ++ reason
          ++ "). Do not retry it or work around it; say what you would have done and finish." in
        match vget "call_ids" v with
        | Some (Array ids) =>
            fold_left (fun m id => match as_str id with Some s => <[s := notice]> m | None => m end) ids ∅
        | _ => ∅
        end
      else ∅
  end.

(** ** Repairing a thread *)

(** [RepairedCall]. *)
Record RepairedCall : Type := mkRepaired {
  rp_tool_call_id : string;
  rp_tool : string;
  rp_repeatable : bool;
}.

(** The results right after a batch, and what follows them. *)
Fixpoint split_results (messages : list ChatMessage) : list ChatMessage * list ChatMessage :=
  match messages with
  | m :: rest =>
      if is_role RoleTool m then let '(rs, after) := split_results rest in (m :: rs, after)
      else ([], messages)
  | [] => ([], [])
  end.

Definition unanswered (calls : list ToolCall) (results : list ChatMessage) : list ToolCall :=
  let answered := omap cm_tool_call_id results in
  List.filter (fun c => negb (bool_decide (tc_id c ∈ answered))) calls.

Definition notice_for (repeatable : string -> bool) (c : ToolCall) : ChatMessage :=
  tool_result (tc_id c) (if repeatable (tc_name c) then UNRECORDED_READ_NOTICE else UNKNOWN_OUTCOME_NOTICE).

Definition repaired_call (repeatable : string -> bool) (c : ToolCall) : RepairedCall :=
  mkRepaired (tc_id c) (tc_name c) (repeatable (tc_name c)).

(** [repair_unpaired_tool_calls]; the fuel is the number of messages. *)
Fixpoint repair_from (fuel : nat) (repeatable : string -> bool) (messages : list ChatMessage) :
    list ChatMessage * list RepairedCall :=
  match fuel, messages with
  | S fuel, m :: rest =>
      if is_role RoleAssistant m && has_tool_calls m then
        let '(results, after) := split_results rest in
        let missing := unanswered (cm_tool_calls m) results in
        let '(tail, repaired) := repair_from fuel repeatable after in
        ((m :: results ++ map (notice_for repeatable) missing ++ tail)%list,
         (map (repaired_call repeatable) missing ++ repaired)%list)
      else
        let '(tail, repaired) := repair_from fuel repeatable rest in (m :: tail, repaired)
  | _, _ => (messages, [])
  end.

Definition repair_unpaired_tool_calls (messages : list ChatMessage) (repeatable : string -> bool) :
    list ChatMessage * list RepairedCall :=
  repair_from (length messages) repeatable messages.
End Loop.
