(* ===== verification/ProgressFacts.v ===== *)
(** * Failures and progress: facts

    The failure policy lets a write through only when a lost answer was
    reconciled; repairing a thread answers exactly the calls that had no
    result. *)

From Stdlib Require Import String.
From S2P Require Import Prelude Containers Json Error Graph Record SampleCodec SampleReader Meter Chat Declaration Invariant Text Progress.
Local Open Scope string_scope.

(** ** The failure policy *)

Lemma max_by_key_spec {A : Type} (key : A -> nat) (l : list A) :
  match max_by_key key l with
  | Some b => b ∈ l /\ forall a, a ∈ l -> key a <= key b
  | None => l = []
  end.
Proof.
  unfold max_by_key.
  assert (Hgen : forall l best,
    match fold_left (fun best a =>
            match best with Some b => if (key b <=? key a)%nat then Some a else Some b | None => Some a end)
            l best with
    | Some b => (Some b = best \/ b ∈ l) /\ (forall a, a ∈ l \/ Some a = best -> key a <= key b)
    | None => l = [] /\ best = None
    end).
  { clear l. induction l as [|a l IH]; intros best; simpl.
    - destruct best as [b|]; [|done]. split; [by left|]. intros a [?%not_elem_of_nil|[= ->]]; done.
    - specialize (IH match best with Some b => if (key b <=? key a)%nat then Some a else Some b | None => Some a end).
      destruct (fold_left _ l _) as [b|]; [|destruct IH as [_ IH]; by repeat case_match].
      destruct IH as [Hin Hmax]. split.
      + destruct Hin as [Hb|Hb]; [|right; by right]. destruct best as [b0|]; [|injection Hb as ->; right; by left].
        destruct (key b0 <=? key a)%nat; injection Hb as ->; [right; by left|by left].
      + intros y [[->|Hy]%elem_of_cons|<-].
        * destruct best as [b0|]; [|apply Hmax; by right].
          destruct (Nat.leb_spec (key b0) (key a)); [apply Hmax; by right|].
          etrans; [|apply (Hmax b0); by right]. lia.
        * apply Hmax. by left.
        * destruct (Nat.leb_spec (key y) (key a)); [|apply Hmax; by right].
          etrans; [eassumption|]. apply Hmax. by right. }
  specialize (Hgen l None). destruct (fold_left _ l None) as [b|]; [|by destruct Hgen].
  destruct Hgen as [[?|Hin] Hmax]; [done|]. split; [done|]. intros a Ha. apply Hmax. by left.
Qed.

Section Policy.
Context `{Codec}.
Implicit Types (history : list ChatMessage) (call tc : ToolCall).

(** An identical attempt whose answer was lost. *)
Definition lost history call (i : nat) (retry_safe : bool) : Prop :=
  exists tc text f, (i, tc, Some text) ∈ attempts history /\ identical call tc = true
    /\ failure_parse text = Some f /\ tf_class f = "unknown_outcome" /\ tf_retry_safe f = retry_safe.

Lemma lost_spec history call i b :
  lost history call i b <->
  (i, b) ∈ omap (fun '(i, tc, r) =>
     f ← r ≫= failure_parse;
     if identical call tc && String.eqb (tf_class f) "unknown_outcome"
     then Some (i, tf_retry_safe f) else None) (attempts history).
Proof.
  rewrite list_elem_of_omap. split.
  - intros (tc & text & f & Hin & Hid & Hf & Hc & Hb). exists (i, tc, Some text). split; [done|].
    simpl. rewrite Hf. simpl. by rewrite Hid, Hc, Hb.
  - intros ([[j tc] [text|]] & Hin & Heq); [|done]. simpl in Heq.
    destruct (failure_parse text) as [f|] eqn:Ef; [|done]. simpl in Heq.
    destruct (identical call tc) eqn:Ei; [|done]. destruct (String.eqb_spec (tf_class f) "unknown_outcome"); [|done].
    simpl in Heq. injection Heq as -> <-. by exists tc, text, f.
Qed.

Lemma read_since_spec (effect_of : string -> option Effect) history i :
  read_since effect_of history i = true ->
  exists j tc text, i < j /\ (j, tc, Some text) ∈ attempts history
    /\ reads_only (effect_of (tc_name tc)) = true /\ starts_with "ERROR:" (str_trim_start text) = false.
Proof.
  unfold read_since. rewrite existsb_exists. intros ([[j tc] r] & Hin & Hr).
  apply andb_true_iff in Hr as [Hr Ht]. apply andb_true_iff in Hr as [Hlt Hro].
  destruct r as [text|]; [|done]. simpl in Ht. apply negb_true_iff in Ht. apply Nat.ltb_lt in Hlt.
  exists j, tc, text. by rewrite list_elem_of_In.
Qed.
End Policy.

(** The failure policy. A call it lets through failed fewer than twice in
    the conversation with the same arguments; and when it writes, every
    identical attempt whose answer was lost and that is not known safe to
    repeat was followed by a read that answered, or by a later lost attempt
    the tool itself found not to have happened. *)
Theorem failure_policy_admits `{Codec} (effect_of : string -> option Effect)
    (history : list ChatMessage) (call : ToolCall) :
  failure_policy effect_of history call = None ->
  failures_of history call < FAILURE_BOUND
  /\ (reads_only (effect_of (tc_name call)) = false ->
      forall i, lost history call i false ->
      (exists j tc text, i < j /\ (j, tc, Some text) ∈ attempts history
         /\ reads_only (effect_of (tc_name tc)) = true /\ starts_with "ERROR:" (str_trim_start text) = false)
      \/ exists j, i <= j /\ lost history call j true).
Proof.
  unfold failure_policy. destruct (Nat.leb_spec FAILURE_BOUND (failures_of history call)); [done|].
  intros Hp. split; [done|]. intros Hw i Hi. rewrite Hw in Hp.
  pose proof (max_by_key_spec fst (omap (fun '(i, tc, r) =>
     f ← r ≫= failure_parse;
     if identical call tc && String.eqb (tf_class f) "unknown_outcome"
     then Some (i, tf_retry_safe f) else None) (attempts history))) as Hmax.
  fold (uncertain history call) in Hmax. apply lost_spec in Hi as Hi'.
  destruct (uncertain history call) as [[j b]|]; [|rewrite Hmax in Hi'; by apply not_elem_of_nil in Hi'].
  destruct Hmax as [Hj Hmax]. apply Hmax in Hi'. simpl in Hi'. apply lost_spec in Hj.
  destruct b; [right; by exists j|]. left. simpl in Hp.
  destruct (read_since effect_of history j) eqn:Er; [|done].
  destruct (read_since_spec _ _ _ Er) as (k & tc & text & Hk & Hrest). exists k, tc, text. split; [lia|done].
Qed.

(** ** Repairing a thread *)
Section Repair.
Context (repeatable : string -> bool).
Implicit Types (ms : list ChatMessage).

(** Every batch is followed by a result for each of its calls. *)
Definition is_batch (m : ChatMessage) : bool := is_role RoleAssistant m && has_tool_calls m.

Fixpoint paired ms : Prop :=
  match ms with
  | [] => True
  | m :: rest =>
      (is_batch m = true ->
       Forall (fun c => tc_id c ∈ omap cm_tool_call_id (split_results rest).1) (cm_tool_calls m))
      /\ paired rest
  end.

Lemma split_results_app ms : forall rs after, split_results ms = (rs, after) ->
  ms = (rs ++ after)%list /\ Forall (fun m => is_role RoleTool m = true) rs
  /\ (forall a rest, after = a :: rest -> is_role RoleTool a = false).
Proof.
  induction ms as [|m ms IH]; intros rs after; simpl; [by intros [= <- <-]|].
  destruct (is_role RoleTool m) eqn:Er.
  - destruct (split_results ms) as [rs' after'] eqn:Es. intros [= <- <-].
    destruct (IH _ _ eq_refl) as (-> & Hf & Ha). split_and!; [done|by constructor|done].
  - intros [= <- <-]. split_and!; [done|constructor|]. by intros a rest [= -> ->].
Qed.

Lemma split_results_of rs after :
  Forall (fun m => is_role RoleTool m = true) rs ->
  (forall a rest, after = a :: rest -> is_role RoleTool a = false) ->
  split_results (rs ++ after)%list = (rs, after).
Proof.
  intros Hf Ha. induction Hf as [|m rs Hm _ IH]; simpl.
  - destruct after as [|a rest]; [done|]. simpl. by rewrite (Ha a rest eq_refl).
  - by rewrite Hm, IH.
Qed.

Lemma tool_not_batch m : is_role RoleTool m = true -> is_batch m = false.
Proof. unfold is_batch, is_role. by destruct (cm_role m). Qed.

Lemma paired_app rs ms : Forall (fun m => is_role RoleTool m = true) rs -> paired ms -> paired (rs ++ ms)%list.
Proof.
  induction 1 as [|m rs Hm _ IH]; intros Hp; simpl; [done|]. split; [|by apply IH].
  by rewrite (tool_not_batch m Hm).
Qed.

Lemma notices_tool calls : Forall (fun m => is_role RoleTool m = true) (map (notice_for repeatable) calls).
Proof. induction calls; by constructor. Qed.

Lemma answered_all calls rs :
  Forall (fun c => tc_id c ∈ omap cm_tool_call_id (rs ++ map (notice_for repeatable) (unanswered calls rs))%list) calls.
Proof.
  apply Forall_forall. intros c Hc. rewrite omap_app, elem_of_app.
  destruct (decide (tc_id c ∈ omap cm_tool_call_id rs)) as [?|Hn]; [by left|right].
  apply list_elem_of_omap. exists (notice_for repeatable c). split; [|done].
  apply list_elem_of_fmap. exists c. split; [done|]. unfold unanswered.
  apply list_elem_of_In, List.filter_In. split; [by apply list_elem_of_In|]. by rewrite bool_decide_eq_false_2.
Qed.

Lemma unanswered_nil calls rs :
  Forall (fun c => tc_id c ∈ omap cm_tool_call_id rs) calls -> unanswered calls rs = [].
Proof.
  unfold unanswered. induction 1 as [|c calls Hc _ IH]; [done|]. simpl. by rewrite bool_decide_eq_true_2.
Qed.

(** What repairing does, for enough fuel. *)
Record repairs ms out (rep : list RepairedCall) : Prop := {
  re_paired : paired out;
  re_kept : sublist ms out;
  re_head : forall a rest, out = a :: rest -> exists rest', ms = a :: rest';
  re_only : paired ms -> out = ms /\ rep = [];
}.

Lemma repair_repairs fuel : forall ms out rep, length ms <= fuel ->
  repair_from fuel repeatable ms = (out, rep) -> repairs ms out rep.
Proof.
  induction fuel as [|fuel IH]; intros [|m ms] out rep Hl; try (simpl in Hl; lia);
    cbn [repair_from]; try (intros [= <- <-]; split; [done|constructor|done|done]).
  fold (is_batch m). simpl in Hl. destruct (is_batch m) eqn:Eb.
  - destruct (split_results ms) as [rs after] eqn:Es.
    destruct (split_results_app _ _ _ Es) as (-> & Hrs & Hafter). rewrite length_app in Hl.
    destruct (repair_from fuel repeatable after) as [tail rep'] eqn:Er. intros [= <- <-].
    destruct (IH after tail rep' ltac:(lia) Er) as [Hp Hs Hh Ho].
    set (ns := map (notice_for repeatable) (unanswered (cm_tool_calls m) rs)).
    assert (Htail : forall a rest, tail = a :: rest -> is_role RoleTool a = false).
    { intros a rest Ht. destruct (Hh a rest Ht) as [rest' Ha]. by apply (Hafter a rest'). }
    assert (Htool : Forall (fun m => is_role RoleTool m = true) (rs ++ ns)%list).
    { apply Forall_app. split; [done|apply notices_tool]. }
    split.
    + rewrite app_assoc. simpl. split; [|by apply paired_app].
      intros _. rewrite split_results_of by done. simpl. apply answered_all.
    + apply sublist_skip. apply sublist_app; [done|]. by apply sublist_inserts_l.
    + intros a rest [= <- _]. eauto.
    + intros [Hall Hrest]. rewrite Es in Hall. simpl in Hall.
      assert (paired after) as Hpa.
      { clear -Hrest. induction rs as [|r rs IH]; [done|]. by destruct Hrest as [_ ?]; apply IH. }
      destruct (Ho Hpa) as [-> ->]. unfold ns. rewrite (unanswered_nil _ _ (Hall Eb)). done.
  - destruct (repair_from fuel repeatable ms) as [tail rep'] eqn:Er. intros [= <- <-].
    destruct (IH ms tail rep' ltac:(lia) Er) as [Hp Hs Hh Ho]. split.
    + simpl. by rewrite Eb.
    + by apply sublist_skip.
    + intros a rest [= <- _]. eauto.
    + intros [_ Hrest]. by destruct (Ho Hrest) as [-> ->].
Qed.
End Repair.

(** Repairing a thread. Afterwards every assistant batch is directly
    followed by a result for each of its calls; every message is kept in
    order; and a thread that is paired, a repaired one included, is left as
    it is with nothing reported. *)
Theorem repair_pairs (ms : list ChatMessage) (repeatable : string -> bool) :
  let '(out, rep) := repair_unpaired_tool_calls ms repeatable in
  paired out /\ sublist ms out /\ (paired ms -> out = ms /\ rep = [])
  /\ repair_unpaired_tool_calls out repeatable = (out, []).
Proof.
  unfold repair_unpaired_tool_calls.
  destruct (repair_from (length ms) repeatable ms) as [out rep] eqn:Er.
  destruct (repair_repairs repeatable _ _ _ _ (le_n _) Er) as [Hp Hs _ Ho]. split_and!; [done..|].
  destruct (repair_from (length out) repeatable out) as [out' rep'] eqn:Er'.
  destruct (repair_repairs repeatable _ _ _ _ (le_n _) Er') as [_ _ _ Ho']. by destruct (Ho' Hp) as [-> ->].
Qed.
