(* ===== verification/ToolsNode.v ===== *)
(** * The tools node of the ReAct agent ([rusty-core/src/react.rs])

    One invocation of the node that answers the assistant's tool calls: the
    checks on the conversation, the run's allowlist and evidence wiring, the
    approval pause, the batch, and the results put back in order. The
    recording modes are modelled; the replaying wrapper is not wired here.
    The order in which the calls of the batch run is an argument. *)

From Stdlib Require Import String.
From S2P Require Import Prelude Containers Json Error State Graph Record Journal Meter Chat Declaration Replay Invariant Effects Executor ReplayRun ModelSeam Text Shaping ArgumentCheck Middleware Tools ToolSelect ToolWrappers Dispatch Progress.
Local Open Scope string_scope.

(** [TOOLS_NODE], [PARENT_EVENT_KEY], [TOOL_ALLOWLIST_KEY] and the keys the
    run context is read from. *)
Definition TOOLS_NODE : string := "tools".
Definition PARENT_EVENT_KEY : string := "rusty.parent_event".
Definition TOOL_ALLOWLIST_KEY : string := "__rusty_tool_allowlist".
Definition ATTRIBUTION_KEY : string := "rusty.attribution".
Definition EXECUTION_KEY : string := "rusty.execution".
Definition AGENT_ID_KEY : string := "rusty.agent_id".
Definition COUNTERPART_KEY : string := "rusty.counterpart".

(** [EvidenceMode], the modes that record. *)
Inductive EvidenceMode : Type :=
| EvidenceNone (effect_journal : bool)
| EvidenceRecord.

Definition records (e : EvidenceMode) : bool :=
  match e with EvidenceNone j => j | EvidenceRecord => true end.

(** An episode [record_stuck_turn] puts on the repair ledger. *)
Inductive RepairOutcome : Type := Repaired | Escalated | RepairFailed.

Record StuckTurn : Type := mkStuckTurn {
  su_session_id : string;
  su_step : nat;
  su_attempt_count : N;
  su_outcome : RepairOutcome;
}.

(** The node's context and what the graph closed over. *)
Record ToolsContext (E : Type) : Type := mkToolsContext {
  tn_registry : ToolRegistry E;
  tn_evidence : EvidenceMode;
  tn_state : State;
  tn_config : NodeConfig;
  tn_middleware : list (Layer (Live E) ToolInvocation Value);
  tn_guards : list (ToolGuard E);
  tn_approval_gate : option EffectAdmissionContext;
  tn_repair_ledger : option (StuckTurn -> Live E -> Live E);
}.
Arguments mkToolsContext {E} _ _ _ _ _ _ _ _.
Arguments tn_registry {E} _.
Arguments tn_evidence {E} _.
Arguments tn_state {E} _.
Arguments tn_config {E} _.
Arguments tn_middleware {E} _.
Arguments tn_guards {E} _.
Arguments tn_approval_gate {E} _.
Arguments tn_repair_ledger {E} _.

Section ToolsNode.
Context `{Codec} {E : Type}.
Implicit Types (c : ToolsContext E).

Definition extra c (key : string) : option Value := BTree.get key (cfg_extra (tn_config c)).

(** [invocation_parent]. *)
Definition invocation_parent c : res string :=
  ok_or (extra c PARENT_EVENT_KEY ≫= as_str)
    (ENode ("node `" ++ TOOLS_NODE ++ "` is wired for Flight Recorder evidence but the run supplied no `"
            ++ PARENT_EVENT_KEY ++ "` — drive the graph through `Executor::run`, which hands each invocation its node-input event id as the causal parent")).

(** [invocation_tools]. *)
Definition invocation_tools c (env : E) : Unwind (res (ToolRegistry E)) :=
  match extra c TOOL_ALLOWLIST_KEY with
  | None => Returns (Ok (tn_registry c))
  | Some v =>
      match strings_from_value v with
      | None => Returns (Err (ENode ("run tool allowlist is malformed: " ++ decode_error "String" v)))
      | Some allowlist => restricted_to (tn_registry c) env allowlist
      end
  end.

(** The registry of recording wrappers. *)
Definition recorded_tools (r : ToolRegistry E) (env : E) (parent : string) :
    Unwind (res (ToolRegistry E)) :=
  register_each r env (fun _ t => Ok (Some (recording_tool t parent (Some TOOLS_NODE))))
    (registry_names r env) tools_new.

(** The registry dispatched against, and the evidence parent. *)
Definition evidence_tools c (env : E) : Unwind (res (ToolRegistry E * option string)) :=
  match invocation_tools c env with
  | Panics p => Panics p
  | Returns (Err e) => Returns (Err e)
  | Returns (Ok r) =>
      if records (tn_evidence c) then
        match invocation_parent c with
        | Err e => Returns (Err e)
        | Ok parent =>
            match recorded_tools r env parent with
            | Panics p => Panics p
            | Returns (Err e) => Returns (Err e)
            | Returns (Ok r') => Returns (Ok (r', Some parent))
            end
        end
      else Returns (Ok (r, None))
  end.

(** The [RunContext] every dispatched tool may ask for. *)
Definition node_run_context c (s : Dispatch E) : RunContext :=
  let journaled := records (tn_evidence c) in
  mkRunContext (if journaled then j_run_id (lv_journal (ds_live s)) else EmptyString)
    (cfg_thread_id (tn_config c)) (extra c ATTRIBUTION_KEY) (extra c EXECUTION_KEY)
    (extra c AGENT_ID_KEY ≫= as_str) (counterpart_from_value <$> extra c COUNTERPART_KEY) journaled.

Definition node_executor c (s : Dispatch E) (r : ToolRegistry E) (parent : option string) :
    ToolExecutor E :=
  mkToolExecutor r (tn_middleware c) (tn_guards c) parent (cfg_thread_id (tn_config c)) TOOLS_NODE
    None (Some (node_run_context c s)).

(** [NodeContext::approval_gate]. *)
Definition approval_gate c (s : Dispatch E) : option EffectAdmissionContext :=
  match ds_admission s with Some a => Some a | None => tn_approval_gate c end.

(** [record_stuck_turn]. *)
Definition record_stuck_turn c (requests : nat) (outcome : RepairOutcome) : Act (Dispatch E) unit :=
  match tn_repair_ledger c with
  | None => mret ()
  | Some append =>
      set_live (append (mkStuckTurn (cfg_thread_id (tn_config c)) (cfg_step (tn_config c))
                          (u32_wrap (N.of_nat requests)) outcome))
  end.

Definition messages_update (messages : list ChatMessage) : NodeOutput :=
  mkOutput [(HISTORY_CHANNEL, Array (map chat_message_value messages))] None.

Definition refusal_text (f : ToolFailure) : string :=
  "ERROR: " ++ default EmptyString (to_vec (failure_value f)).

Definition node_effect_of c (env : E) (name : string) : option Effect :=
  ti_effect <$> registry_get (tn_registry c) env name.

(** The refusals of the failure policy over the batch. *)
Definition refusals_of c (env : E) (messages : list ChatMessage) (calls : list ToolCall) :
    list (option ToolFailure) :=
  map (failure_policy (node_effect_of c env) messages) calls.

(** The denied calls: by a person, or refused by the failure policy. *)
Fixpoint add_refusals (calls : list ToolCall) (refusals : list (option ToolFailure))
    (denied : gmap string string) : gmap string string :=
  match calls, refusals with
  | call :: calls', refusal :: refusals' =>
      add_refusals calls' refusals'
        match refusal with
        | Some f =>
            match denied !! tc_id call with
            | Some _ => denied
            | None => <[tc_id call := refusal_text f]> denied
            end
        | None => denied
        end
  | _, _ => denied
  end.

Definition needed_value (n : ApprovalNeeded) : Value :=
  jobj [("call_id", Str (an_call_id n)); ("tool", Str (an_tool n)); ("arguments", an_arguments n);
        ("kind", Str (an_kind n)); ("effect_id", Str (an_effect_id n))].

Definition is_denied (denied : gmap string string) (id : string) : bool :=
  match denied !! id with Some _ => true | None => false end.

(** The results in the order of the calls; [None] is the [expect]. *)
Fixpoint merge_results (calls : list ToolCall) (denied : gmap string string) (ran : list ChatMessage) :
    option (list ChatMessage) :=
  match calls with
  | [] => Some []
  | call :: rest =>
      match denied !! tc_id call with
      | Some notice => ms ← merge_results rest denied ran; Some (tool_result (tc_id call) notice :: ms)
      | None =>
          match ran with
          | [] => None
          | m :: ran' => ms ← merge_results rest denied ran'; Some (m :: ms)
          end
      end
  end.

(** The batch: approvals, then the calls that are not denied. *)
Definition run_batch c (x : ToolExecutor E) (order : list nat) (calls : list ToolCall)
    (denied : gmap string string) : Act (Dispatch E) (res NodeOutput) :=
  found ← reads (fun s =>
    match approval_gate c s with
    | Some gate =>
        List.filter (fun n => negb (is_denied denied (an_call_id n)))
        <$> approvals_needed x (lv_env (ds_live s)) gate calls
    | None => Some []
    end);
  match found with
  | None => panic expect_request
  | Some (n :: needed) =>
      mret (Err (EInterrupt (jobj [("kind", Str APPROVAL_INTERRUPT_KIND);
                                   ("requests", Array (map needed_value (n :: needed)))])))
  | Some [] =>
      let to_run := List.filter (fun call => negb (is_denied denied (tc_id call))) calls in
      ran ← acts (execute_batch x order to_run);
      match merge_results calls denied ran with
      | Some results => mret (Ok (messages_update results))
      | None => panic (PayloadStr "one result per call that ran")
      end
  end.

(** What the node does with the batch once no check stopped it. *)
Definition dispatch_batch c (order : list nat) (calls : list ToolCall)
    (refusals : list (option ToolFailure)) : Act (Dispatch E) (res NodeOutput) := fun s =>
  match evidence_tools c (lv_env (ds_live s)) with
  | Panics p => (Panics p, s)
  | Returns (Err e) => (Returns (Err e), s)
  | Returns (Ok (r, parent)) =>
      let denied := add_refusals calls refusals (denied_calls (cfg_resume (tn_config c))) in
      run_batch c (node_executor c s r parent) order calls denied s
  end.

Definition notices (calls : list ToolCall) (notice : string) : NodeOutput :=
  messages_update (map (fun call => tool_result (tc_id call) notice) calls).

(** The tools node. *)
Definition tools_node c (order : list nat) : Act (Dispatch E) (res NodeOutput) := fun s =>
  match read_messages (tn_state c) with
  | Err e => (Returns (Err e), s)
  | Ok messages =>
      match last messages with
      | None =>
          (Returns (Err (ENode ("node `" ++ TOOLS_NODE ++ "` ran with an empty `" ++ HISTORY_CHANNEL
                                ++ "` channel"))), s)
      | Some request =>
          let calls := cm_tool_calls request in
          if negb (has_tool_calls request)
          then (Returns (Err (ENode ("node `" ++ TOOLS_NODE
                                     ++ "` expected the last message to carry tool calls"))), s)
          else
            let env := lv_env (ds_live s) in
            let names := String.concat ", " (map tc_name calls) in
            let all_reads := forallb (fun call => reads_only (node_effect_of c env (tc_name call))) calls in
            let repeats := identical_requests_this_turn messages all_reads in
            if (STUCK_TURN_LIMIT <=? repeats + 1)%nat then
              (record_stuck_turn c (repeats + 1) RepairFailed;;
               mret (Err (ENode ("no progress: " ++ names ++ " requested " ++ pretty (repeats + 1)
                 ++ " times in this turn with identical arguments — the run stops rather than loop")))) s
            else
              let refusals := refusals_of c env messages calls in
              if forallb (fun r => match r with Some _ => true | None => false end) refusals then
                (Returns (Ok (messages_update
                   (zip_with (fun call r =>
                      tool_result (tc_id call) match r with Some f => refusal_text f | None => EmptyString end)
                      calls refusals))), s)
              else
                let stale := stale_results_in_a_row messages in
                if all_reads && (NO_NEW_FACT_LIMIT <=? stale)%nat then
                  if refused_for_nothing_new_since_last_fact messages then
                    (record_stuck_turn c stale RepairFailed;;
                     mret (Err (ENode ("no progress: " ++ pretty stale
                       ++ " reads in a row answered nothing new (" ++ names
                       ++ " last) — the run stops rather than loop")))) s
                  else
                    (record_stuck_turn c stale Repaired;;
                     mret (Ok (notices calls NO_NEW_FACT_NOTICE))) s
                else if (1 <=? repeats)%nat then
                  (record_stuck_turn c (repeats + 1) Repaired;;
                   mret (Ok (notices calls REPEATED_CALL_NOTICE))) s
                else dispatch_batch c order calls refusals s
      end
  end.
End ToolsNode.
