(* ===== verification/ToolsNodeFacts.v ===== *)
(** * The tools node: what it runs and what it answers

    A call runs only when the conversation and the people allow it, a batch
    that needs an approval pauses before any of it runs, and every call is
    answered in order. *)

From Stdlib Require Import String.
From S2P Require Import Prelude Containers Json Error State Graph Record SampleCodec Journal Meter Chat Declaration Replay Invariant Effects EffectsFacts Executor ReplayRun ModelSeam Text Shaping ArgumentCheck Middleware Tools ToolSelect ToolWrappers Dispatch DispatchFacts Progress ToolsNode.
Local Open Scope string_scope.

Section Facts.
Context `{Codec} `{!CodecLaws} {E : Type}.
Implicit Types (c : ToolsContext E) (s : Dispatch E) (x : ToolExecutor E).

(** ** What a batch may run *)

Lemma run_scheduled_ran x calls order : forall s done s',
  run_scheduled x calls order s = (done, s') ->
  exists ran, ds_ran s' = (ds_ran s ++ ran)%list /\ length ran <= length order
    /\ (tx_middleware x = [] -> Forall (fun r => rn_call r ∈ calls) ran).
Proof.
  induction order as [|i order IH]; intros s done s' Hr; cbn [run_scheduled] in Hr.
  { injection Hr as <- <-. exists []. rewrite app_nil_r. split_and!; [done|simpl; lia|by constructor]. }
  destruct (calls !! i) as [call|] eqn:Ei.
  - destruct (execute_one x call s) as [out s1] eqn:Ex.
    destruct (run_scheduled x calls order s1) as [done1 s2] eqn:Es. injection Hr as <- <-.
    destruct (IH _ _ _ Es) as (ran & Hran & Hlen & Hall).
    apply execute_one_settles in Ex as [[Hs _]|(r & Hs & _ & Hc)].
    + exists ran. rewrite Hran, Hs. simpl. split_and!; [done|lia|done].
    + exists (r :: ran). rewrite Hran, Hs, <- app_assoc. simpl. split_and!; [done|lia|].
      intros Hm. constructor; [|by apply Hall]. rewrite Hm in Hc. rewrite (Hc call eq_refl).
      by eapply list_elem_of_lookup_2.
  - destruct (IH _ _ _ Hr) as (ran & Hran & Hlen & Hall). exists ran. simpl. split_and!; [done|lia|done].
Qed.

(** ** Denials *)

Lemma add_refusals_spec calls : forall refusals denied id,
  is_Some (add_refusals calls refusals denied !! id) <->
  is_Some (denied !! id)
  \/ exists i call f, calls !! i = Some call /\ refusals !! i = Some (Some f) /\ tc_id call = id.
Proof.
  induction calls as [|call calls IH]; intros refusals denied id.
  { simpl. split; [by left|]. by intros [?|(i & call & f & Hc & _)]. }
  destruct refusals as [|refusal refusals].
  { simpl. split; [by left|]. by intros [?|(i & call' & f & _ & Hr & _)]. }
  cbn [add_refusals]. rewrite IH. split.
  - intros [Hd|(i & call' & f & Hc & Hr & Hid)]; [|right; exists (S i), call', f; done].
    destruct refusal as [f|]; [|by left]. destruct (denied !! tc_id call) eqn:Ed; [by left|].
    destruct (decide (tc_id call = id)) as [<-|Hne]; [right; by exists 0, call, f|].
    left. by rewrite lookup_insert_ne in Hd.
  - intros [Hd|([|i] & call' & f & Hc & Hr & Hid)].
    + left. destruct refusal as [f|]; [|done]. destruct (denied !! tc_id call) eqn:Ed; [done|].
      rewrite lookup_insert_ne; [done|]. intros <-. rewrite Ed in Hd. by destruct Hd.
    + simpl in Hc, Hr. injection Hc as ->. injection Hr as ->. left.
      destruct (denied !! tc_id call') eqn:Ed; [rewrite <- Hid, Ed; eauto|].
      rewrite <- Hid, lookup_insert_eq. eauto.
    + right. exists i, call', f. done.
Qed.

Definition denied_of c (env : E) (messages : list ChatMessage) (calls : list ToolCall) : gmap string string :=
  add_refusals calls (refusals_of c env messages calls) (denied_calls (cfg_resume (tn_config c))).

Lemma undenied c env messages calls call :
  call ∈ calls -> is_denied (denied_of c env messages calls) (tc_id call) = false ->
  denied_calls (cfg_resume (tn_config c)) !! tc_id call = None
  /\ failure_policy (node_effect_of c env) messages call = None.
Proof.
  intros [i Hi]%list_elem_of_lookup Hd. unfold is_denied in Hd.
  destruct (denied_of c env messages calls !! tc_id call) eqn:Ed; [done|]. clear Hd.
  assert (Hno : ~ is_Some (denied_of c env messages calls !! tc_id call)) by (rewrite Ed; by intros []).
  unfold denied_of in Hno. rewrite add_refusals_spec in Hno. split.
  - apply eq_None_not_Some. intros Hs. by apply Hno; left.
  - destruct (failure_policy (node_effect_of c env) messages call) as [f|] eqn:Ef; [|done].
    exfalso. apply Hno. right. exists i, call, f. unfold refusals_of.
    by rewrite list_lookup_fmap, Hi; simpl; rewrite Ef.
Qed.

(** ** Approvals *)

(** A call the gate asks nobody about. *)
Definition approved_by (gate : EffectAdmissionContext) (tool : ToolImpl E) (call : ToolCall) : Prop :=
  ti_carries_approval tool call = true
  \/ forall rq, ti_effect_request tool call = Some rq -> rq_effect rq = NonIdempotent ->
     is_shadow gate = false -> is_Some (ac_approvals gate !! effect_id (ac_scope gate) rq).

Lemma approval_for_none x env gate call tool :
  registry_get (tx_registry x) env (tc_name call) = Some tool ->
  approval_for x env gate call = Some None -> approved_by gate tool call.
Proof.
  unfold approval_for, approved_by. intros ->. destruct (ti_carries_approval tool call); [by left|].
  intros Ha. right. intros rq Hq Hn Hs. rewrite Hq in Ha. simpl in Ha. unfold approval_required in Ha.
  rewrite Hn, Hs in Ha. simpl in Ha. by case_bool_decide.
Qed.

Lemma nothing_needed x env gate calls needed denied call :
  approvals_needed x env gate calls = Some needed ->
  List.filter (fun n => negb (is_denied denied (an_call_id n))) needed = [] ->
  call ∈ calls -> is_denied denied (tc_id call) = false ->
  approval_for x env gate call = Some None.
Proof.
  unfold approvals_needed. intros (found & Hf & Hn)%bind_Some Hnil Hin Hd. injection Hn as <-.
  apply mapM_Some in Hf. apply list_elem_of_lookup in Hin as [i Hi].
  destruct (Forall2_lookup_l _ _ _ _ _ Hf Hi) as (o & Ho & Ha). rewrite Ha.
  destruct o as [n|]; [exfalso|done].
  assert (Hid : an_call_id n = tc_id call).
  { unfold approval_for in Ha. repeat case_match; try done.
    apply bind_Some in Ha as (rq & _ & Ha). injection Ha as Ha.
    apply bind_Some in Ha as (id & _ & Ha). by injection Ha as <-. }
  assert (Hn : In n (List.filter (fun n => negb (is_denied denied (an_call_id n))) (omap id found))).
  { apply List.filter_In. rewrite Hid, Hd. split; [|done]. apply list_elem_of_In, list_elem_of_omap.
    exists (Some n). split; [by eapply list_elem_of_lookup_2|done]. }
  by rewrite Hnil in Hn.
Qed.

(** ** The node *)

(** What lets a call of the batch run. *)
Record warranted c s (messages : list ChatMessage) (calls : list ToolCall) (call : ToolCall) : Prop := {
  wa_asked : call ∈ calls;
  wa_fresh : identical_requests_this_turn messages
    (forallb (fun call => reads_only (node_effect_of c (lv_env (ds_live s)) (tc_name call))) calls) = 0;
  wa_policy : failure_policy (node_effect_of c (lv_env (ds_live s))) messages call = None;
  wa_undeclined : denied_calls (cfg_resume (tn_config c)) !! tc_id call = None;
  wa_approved : forall r parent gate tool, evidence_tools c (lv_env (ds_live s)) = Returns (Ok (r, parent)) ->
    approval_gate c s = Some gate -> registry_get r (lv_env (ds_live s)) (tc_name call) = Some tool ->
    approved_by gate tool call;
}.

Definition paused (out : Unwind (res NodeOutput)) : Prop :=
  exists v, out = Returns (Err (EInterrupt v)).

(** How an invocation leaves what ran. *)
Definition node_settles c s (out : Unwind (res NodeOutput)) s' : Prop :=
  ds_ran s' = ds_ran s /\ ds_admission s' = ds_admission s
  \/ ~ paused out /\ exists messages request ran,
       read_messages (tn_state c) = Ok messages /\ last messages = Some request
       /\ ds_ran s' = (ds_ran s ++ ran)%list
       /\ (tn_middleware c = [] ->
           Forall (fun r => warranted c s messages (cm_tool_calls request) (rn_call r)) ran).

Lemma record_stuck_quiet c n o (out : res NodeOutput) s r s' :
  (record_stuck_turn c n o;; mret out) s = (r, s') ->
  ds_ran s' = ds_ran s /\ ds_admission s' = ds_admission s.
Proof.
  unfold record_stuck_turn. destruct (tn_repair_ledger c); intros [= <- <-]; done.
Qed.

Lemma run_batch_settles c x order messages calls s out s' r parent :
  evidence_tools c (lv_env (ds_live s)) = Returns (Ok (r, parent)) ->
  tx_registry x = r -> tx_middleware x = tn_middleware c ->
  identical_requests_this_turn messages
    (forallb (fun call => reads_only (node_effect_of c (lv_env (ds_live s)) (tc_name call))) calls) = 0 ->
  run_batch c x order calls (denied_of c (lv_env (ds_live s)) messages calls) s = (out, s') ->
  ds_ran s' = ds_ran s /\ ds_admission s' = ds_admission s
  \/ ~ paused out /\ exists ran, ds_ran s' = (ds_ran s ++ ran)%list
       /\ (tn_middleware c = [] -> Forall (fun r => warranted c s messages calls (rn_call r)) ran).
Proof.
  intros He Hreg Hmid Hfresh Hr. set (denied := denied_of c _ messages calls) in *.
  unfold run_batch in Hr.
  apply bind_cases in Hr as [(found & s1 & Hf & Hr)|(p & Hf & _)]; [|done].
  unfold reads in Hf. injection Hf as Hf <-.
  destruct found as [[|n ns]|]; [|left; by injection Hr as <- <-|left; by injection Hr as <- <-].
  set (to_run := List.filter (fun call => negb (is_denied denied (tc_id call))) calls) in *.
  apply bind_cases in Hr as [(ran & s1 & Hx & Hr)|(p & Hx & _)].
  2: { unfold acts in Hx. destruct (execute_batch x order to_run s); done. }
  right. unfold acts, execute_batch in Hx.
  destruct (run_scheduled x to_run order s) as [done s2] eqn:Es. injection Hx as _ ->.
  assert (s' = s1 /\ ~ paused out) as [-> Hp].
  { destruct (merge_results calls denied ran); injection Hr as <- <-; split; try done; by intros [v ?]. }
  split; [done|]. destruct (run_scheduled_ran _ _ _ _ _ _ Es) as (runs & Hran & _ & Hall).
  exists runs. split; [done|]. intros Hm. rewrite Hmid in Hall. specialize (Hall Hm).
  eapply Forall_impl; [exact Hall|]. intros rn Hin. simpl in Hin.
  apply list_elem_of_In, List.filter_In in Hin as [Hin Hd]. apply list_elem_of_In in Hin.
  apply negb_true_iff in Hd. destruct (undenied c _ messages calls _ Hin Hd) as [Hun Hpol].
  split; [done..|]. intros r' parent' gate tool He' Hg Ht. rewrite He in He'. injection He' as <- <-.
  rewrite Hg in Hf. destruct (approvals_needed x _ gate calls) as [needed|] eqn:En; [|done].
  simpl in Hf. injection Hf as Hf.
  eapply (approval_for_none x); [by rewrite Hreg|]. by eapply nothing_needed.
Qed.

Lemma tools_node_settles c order s out s' : tools_node c order s = (out, s') -> node_settles c s out s'.
Proof.
  unfold tools_node, node_settles. intros Hr.
  destruct (read_messages (tn_state c)) as [messages|e] eqn:Em; [|left; by injection Hr as <- <-].
  destruct (last messages) as [request|] eqn:El; [|left; by injection Hr as <- <-].
  destruct (negb (has_tool_calls request)); [left; by injection Hr as <- <-|].
  destruct (_ <=? _)%nat; [left; by eapply record_stuck_quiet|].
  destruct (forallb _ (refusals_of _ _ _ _)); [left; by injection Hr as <- <-|].
  destruct (_ && _); [destruct (refused_for_nothing_new_since_last_fact messages);
    left; by eapply record_stuck_quiet|].
  destruct (1 <=? _)%nat eqn:E1; [left; by eapply record_stuck_quiet|].
  apply Nat.leb_gt in E1. unfold dispatch_batch in Hr.
  destruct (evidence_tools c (lv_env (ds_live s))) as [[[r parent]|e]|p] eqn:Ee;
    [|left; by injection Hr as <- <-..].
  destruct (run_batch_settles c (node_executor c s r parent) order messages (cm_tool_calls request)
              s out s' r parent Ee eq_refl eq_refl ltac:(lia) Hr) as [Hq|(Hp & ran & Hran & Hall)];
    [by left|right]. split; [done|]. by exists messages, request, ran.
Qed.
End Facts.


(** ** Answers *)
Section Answers.
Context `{Codec} {E : Type}.
Implicit Types (c : ToolsContext E) (s : Dispatch E) (x : ToolExecutor E).

Lemma execute_batch_answers x order calls s results s' :
  order ≡ₚ seq 0 (length calls) -> execute_batch x order calls s = (results, s') ->
  Forall2 answers calls results.
Proof.
  intros Ho. unfold execute_batch. destruct (run_scheduled x calls order s) as [done s1] eqn:Er.
  intros [= <- <-]. destruct (run_scheduled_done _ _ _ _ _ _ Er) as [Hf Hin].
  apply (collect_answers calls done Hf 0 (length calls)); [done|]. intros i Hi. apply Hin; [|lia].
  rewrite Ho. apply elem_of_seq. lia.
Qed.

Lemma tool_result_answers (call : ToolCall) (text : string) : answers call (tool_result (tc_id call) text).
Proof. unfold answers. simpl. eauto. Qed.

Lemma merge_answers calls denied : forall ran,
  Forall2 answers (List.filter (fun call => negb (is_denied denied (tc_id call))) calls) ran ->
  exists results, merge_results calls denied ran = Some results /\ Forall2 answers calls results.
Proof.
  induction calls as [|call calls IH]; intros ran Hf; cbn [merge_results].
  { exists []. split; [done|constructor]. }
  cbn [List.filter] in Hf. unfold is_denied at 1 in Hf. destruct (denied !! tc_id call) as [notice|]; simpl in Hf.
  - destruct (IH _ Hf) as (results & -> & Hr). eexists. split; [reflexivity|].
    constructor; [apply tool_result_answers|done].
  - inversion Hf as [|? m ? ran' Hm Hrest]; subst. destruct (IH _ Hrest) as (results & -> & Hr).
    eexists. split; [reflexivity|]. by constructor.
Qed.

Lemma notices_answers (calls : list ToolCall) (notice : string) :
  Forall2 answers calls (map (fun call => tool_result (tc_id call) notice) calls).
Proof. induction calls; constructor; [apply tool_result_answers|done]. Qed.

Lemma refusals_answers (g : option ToolFailure -> string) (calls : list ToolCall) : forall refusals,
  length refusals = length calls ->
  Forall2 answers calls (zip_with (fun call r => tool_result (tc_id call) (g r)) calls refusals).
Proof.
  induction calls as [|call calls IH]; intros [|r refusals] Hl; try discriminate; simpl; constructor.
  - apply tool_result_answers.
  - apply IH. simpl in Hl. lia.
Qed.

(** The calls of the last message nobody denies. *)
Definition to_run_of c (env : E) (messages : list ChatMessage) (calls : list ToolCall) : list ToolCall :=
  List.filter (fun call => negb (is_denied (denied_of c env messages calls) (tc_id call))) calls.

(** Every position of the batch exactly once. *)
Definition schedule_ok c s (order : list nat) : Prop :=
  forall messages request, read_messages (tn_state c) = Ok messages -> last messages = Some request ->
  order ≡ₚ seq 0 (length (to_run_of c (lv_env (ds_live s)) messages (cm_tool_calls request))).

Definition no_result_missing : PanicPayload := PayloadStr "one result per call that ran".

(** A node's outcome that answers the calls of [request], if it answers. *)
Definition answered (request : ChatMessage) (out : Unwind (res NodeOutput)) : Prop :=
  match out with
  | Returns (Ok o) => exists results, o = messages_update results /\ Forall2 answers (cm_tool_calls request) results
  | Panics p => p <> no_result_missing
  | _ => True
  end.

Lemma stuck_answered c n o (out : res NodeOutput) s r s' request :
  answered request (Returns out) -> (record_stuck_turn c n o;; mret out) s = (r, s') -> answered request r.
Proof.
  intros Ha. unfold record_stuck_turn. destruct (tn_repair_ledger c); by intros [= <- <-].
Qed.

Lemma restrict_panic r (env : E) allow : forall seen selected p,
  restrict r env allow seen selected = Panics p -> p <> no_result_missing.
Proof.
  induction allow as [|name allow IH]; intros seen selected p; cbn [restrict]; [done|].
  destruct (decide (name ∈ seen)); [done|]. destruct (registry_get r env name) as [t|]; [|done].
  unfold register_shared. repeat case_match; intros Hp; try (by apply IH in Hp); simplify_eq; done.
Qed.

Lemma register_each_panic r (env : E) wrap names : forall out p,
  register_each r env wrap names out = Panics p -> p <> no_result_missing.
Proof.
  induction names as [|name names IH]; intros out p; cbn [register_each]; [done|].
  destruct (registry_get r env name) as [t|]; [|by intros [= <-]].
  destruct (wrap name t) as [[w|]|e]; [|by apply IH|done].
  unfold register_shared. repeat case_match; intros Hp; try (by apply IH in Hp); simplify_eq; done.
Qed.

Lemma evidence_tools_panic c (env : E) p : evidence_tools c env = Panics p -> p <> no_result_missing.
Proof.
  unfold evidence_tools, invocation_tools. destruct (extra c TOOL_ALLOWLIST_KEY) as [v|].
  - destruct (strings_from_value v) as [l|]; [|done].
    destruct (restricted_to (tn_registry c) env l) as [[r|e]|q] eqn:Er; [|done|].
    + repeat case_match; try done. intros [= <-]. by eapply register_each_panic.
    + intros [= <-]. by eapply restrict_panic.
  - repeat case_match; try done. intros [= <-]. by eapply register_each_panic.
Qed.

Lemma run_batch_answered c x order messages request s out s' :
  let env := lv_env (ds_live s) in
  order ≡ₚ seq 0 (length (to_run_of c env messages (cm_tool_calls request))) ->
  run_batch c x order (cm_tool_calls request) (denied_of c env messages (cm_tool_calls request)) s = (out, s') ->
  answered request out.
Proof.
  intros env Ho Hr. unfold run_batch in Hr.
  apply bind_cases in Hr as [(found & s1 & Hf & Hr)|(p & Hf & _)]; [|done].
  unfold reads in Hf. injection Hf as _ <-.
  destruct found as [[|n ns]|]; [|by injection Hr as <- <-|by injection Hr as <- <-].
  apply bind_cases in Hr as [(ran & s1 & Hx & Hr)|(p & Hx & _)].
  2: { unfold acts in Hx. destruct (execute_batch x order _ s); done. }
  unfold acts in Hx. destruct (execute_batch x order _ s) as [ms s2] eqn:Eb. injection Hx as -> ->.
  apply execute_batch_answers in Eb; [|done]. apply merge_answers in Eb as (results & Hm & Hres).
  rewrite Hm in Hr. injection Hr as <- <-. simpl. eauto.
Qed.

Lemma tools_node_answered c order s out s' :
  schedule_ok c s order -> tools_node c order s = (out, s') ->
  forall messages request, read_messages (tn_state c) = Ok messages -> last messages = Some request ->
  answered request out.
Proof.
  unfold tools_node. intros Ho Hr messages request Em El. specialize (Ho _ _ Em El). rewrite Em, El in Hr.
  destruct (negb (has_tool_calls request)); [by injection Hr as <- <-|].
  destruct (_ <=? _)%nat; [by eapply stuck_answered; [|exact Hr]|].
  destruct (forallb _ (refusals_of _ _ _ _)).
  { injection Hr as <- <-. simpl. eexists. split; [reflexivity|].
    apply (refusals_answers (fun r => match r with Some f => refusal_text f | None => EmptyString end)).
    unfold refusals_of. by rewrite length_map. }
  destruct (_ && _); [destruct (refused_for_nothing_new_since_last_fact messages);
    (eapply stuck_answered; [|exact Hr]); simpl; eauto using notices_answers|].
  destruct (1 <=? _)%nat; [(eapply stuck_answered; [|exact Hr]); simpl; eauto using notices_answers|].
  unfold dispatch_batch in Hr.
  destruct (evidence_tools c (lv_env (ds_live s))) as [[[r parent]|e]|p] eqn:Ee.
  - by eapply run_batch_answered.
  - by injection Hr as <- <-.
  - injection Hr as <- <-. simpl. by eapply evidence_tools_panic.
Qed.
End Answers.

(** C34: the tools node answers every call. Whenever it returns an update,
    through a refusal, a notice or the batch, the update is one tool message
    per requested call, in the order requested and under the call's own id;
    and the results of a batch never run short. *)
Theorem tools_node_answers `{Codec} {E : Type} (c : ToolsContext E) (order : list nat) (s : Dispatch E)
    (out : Unwind (res NodeOutput)) (s' : Dispatch E) (messages : list ChatMessage) (request : ChatMessage) :
  schedule_ok c s order -> tools_node c order s = (out, s') ->
  read_messages (tn_state c) = Ok messages -> last messages = Some request ->
  match out with
  | Returns (Ok o) => exists results, o = messages_update results /\ Forall2 answers (cm_tool_calls request) results
  | Panics p => p <> PayloadStr "one result per call that ran"
  | _ => True
  end.
Proof. intros Ho Hr. by apply (tools_node_answered c order s out s' Ho Hr). Qed.

(** ** Concrete turns of the tools node

    Conversations at the sample codec: a batch with an approved payment, a
    pause; and where the loop departs from its comments: a notice from an
    earlier turn ends a later one, an opaque failure is called a repeat, the
    one safe re-send is not counted. *)

From S2P Require Import SampleReader ToolFacts ProgressFacts.

Module NodeExamples.
Import Reader ToolExamples.

Definition asks (calls : list ToolCall) : ChatMessage := assistant_tool_calls calls.

Definition query (id q : string) : ToolCall := mkToolCall id "search" (jobj [("to", Str q)]).

Definition thread_of (ms : list ChatMessage) : State :=
  mkState [("messages", Array (map chat_message_value ms))].

(** The node over a conversation, recording, on a run that declared its
    parent event. *)
Definition node_over (ms : list ChatMessage) : ToolsContext nat :=
  mkToolsContext (registry_of [pay; search]) EvidenceRecord (thread_of ms)
    (mkNodeConfig "thread" 3 None [("rusty.parent_event", Str "run:0")]) [] [] None None.

Definition outcome (ms : list ChatMessage) (order : list nat) : Unwind (res NodeOutput) * Dispatch nat :=
  tools_node (node_over ms) order start_state.

(** A payment that holds its approval, beside a read. *)
Definition approved_turn : list ChatMessage :=
  [msg_user "pay ada"; asks [call "c1" "pay"; query "c3" "ada"]].


(** Without the approval the same batch pauses before the read runs. *)
Example unapproved_batch_pauses :
  let '(out, s') := tools_node (node_over approved_turn) [1; 0] (mkDispatch live (Some (context_new "thread")) []) in
  match out with Returns (Err (EInterrupt _)) => true | _ => false end = true /\ ds_ran s' = [].
Proof. vm_compute. split; reflexivity. Qed.

Lemma approved_turn_read :
  read_messages (thread_of approved_turn) = Ok approved_turn.
Proof. vm_compute. reflexivity. Qed.

Lemma tools_node_answers_witness :
  exists results, (outcome approved_turn [1; 0]).1 = Returns (Ok (messages_update results))
    /\ Forall2 answers [call "c1" "pay"; query "c3" "ada"] results.
Proof.
  assert (Hs : schedule_ok (node_over approved_turn) start_state [1; 0]).
  { intros messages request Hm Hl. simpl tn_state in Hm. rewrite approved_turn_read in Hm.
    injection Hm as <-. injection Hl as <-.
    apply (bool_decide_unpack _). vm_compute. exact I. }
  pose proof (tools_node_answers (node_over approved_turn) [1; 0] start_state _ _ approved_turn
                (asks [call "c1" "pay"; query "c3" "ada"]) Hs (surjective_pairing _)
                approved_turn_read eq_refl) as Ha.
  fold (outcome approved_turn [1; 0]) in Ha.
  destruct (outcome approved_turn [1; 0]) as [[[o|e]|p] s'] eqn:Eo.
  - destruct Ha as (results & -> & Hf). exists results. split; [reflexivity|exact Hf].
  - exfalso. apply (f_equal (fun q => match q.1 with Returns (Ok _) => true | _ => false end)) in Eo.
    vm_compute in Eo. discriminate Eo.
  - exfalso. apply (f_equal (fun q => match q.1 with Returns (Ok _) => true | _ => false end)) in Eo.
    vm_compute in Eo. discriminate Eo.
Defined.

(** ** The failure policy *)

Definition effects (name : string) : option Effect :=
  if String.eqb name "pay" then Some NonIdempotent else if String.eqb name "search" then Some ReadOnly else None.

Definition lost_answer (retry_safe : bool) : string :=
  "ERROR: tool error: " ++ failure_text (failure_new "unknown_outcome" "pay" "timed out" true retry_safe "check").

(** A lost payment, then a read. *)
Definition reconciled : list ChatMessage :=
  [asks [call "c1" "pay"]; tool_result "c1" (lost_answer false);
   asks [query "c2" "ada"]; tool_result "c2" "balance 7"].

Lemma failure_policy_admits_witness :
  failures_of reconciled (call "c9" "pay") < FAILURE_BOUND
  /\ exists j, 0 < j /\ reads_only (effects "search") = true.
Proof.
  destruct (failure_policy_admits effects reconciled (call "c9" "pay")) as [Hb Hr].
  - vm_compute. reflexivity.
  - split; [exact Hb|]. destruct (Hr eq_refl 0) as [(j & tc & text & Hj & _)|(j & _ & Hl)].
    + exists (call "c1" "pay"), (lost_answer false), (failure_new "unknown_outcome" "pay" "timed out" true false "check").
      split; [|split_and!; vm_compute; reflexivity]. vm_compute. left.
    + exists j. split; [exact Hj|reflexivity].
    + exfalso. apply lost_spec in Hl. vm_compute in Hl.
      apply elem_of_cons in Hl as [Hl|Hl]; [discriminate Hl|by apply not_elem_of_nil in Hl].
Defined.

Example lost_write_held_back :
  tf_class <$> failure_policy effects (take 2 reconciled) (call "c9" "pay") = Some "reconcile_first".
Proof. vm_compute. reflexivity. Qed.

(** After a lost answer known safe to repeat, the write is let through again
    and again, whatever was re-sent since. *)
Definition resent_twice : list ChatMessage :=
  [asks [call "c1" "pay"]; tool_result "c1" (lost_answer true);
   asks [call "c2" "pay"]; tool_result "c2" "paid"; asks [call "c3" "pay"]; tool_result "c3" "paid"].

Theorem safe_resend_uncounted :
  uncertain resent_twice (call "c9" "pay") = Some (0, true)
  /\ resent_since resent_twice (call "c9" "pay") 0 = true
  /\ failure_policy effects resent_twice (call "c9" "pay") = None.
Proof. split_and!; vm_compute; reflexivity. Qed.

(** ** An opaque failure is called a repeat *)

(** The first write failed with a plain error. The policy would let it try
    once more, but the loop answers that it already ran and its result is
    above. *)
Definition opaque_failure : list ChatMessage :=
  [msg_user "pay ada"; asks [call "c1" "pay"]; tool_result "c1" "ERROR: tool error: connection refused";
   asks [call "c2" "pay"]].

Theorem opaque_failure_called_repeat :
  failure_policy effects opaque_failure (call "c2" "pay") = None
  /\ world_failed "ERROR: tool error: connection refused" = true
  /\ (outcome opaque_failure []).1 = Returns (Ok (notices [call "c2" "pay"] REPEATED_CALL_NOTICE)).
Proof. split_and!; vm_compute; reflexivity. Qed.

(** ** A notice of an earlier turn ends a later one *)

(** The first turn was refused a read; the second one finds something new,
    then reads it three times over. Its first refusal is the end of the run,
    without the notice. *)
Definition read_once (id q answer : string) : list ChatMessage :=
  [asks [query id q]; tool_result id answer].

Definition later_turn : list ChatMessage :=
  (msg_user "a" :: read_once "c1" "one" "old" ++ read_once "c2" "two" NO_NEW_FACT_NOTICE
   ++ msg_user "b" :: read_once "c3" "three" "fresh" ++ read_once "c4" "four" "fresh"
   ++ read_once "c5" "five" "fresh" ++ read_once "c6" "six" "fresh" ++ [asks [query "c7" "seven"]])%list.

Theorem earlier_notice_ends_run :
  stale_results_in_a_row later_turn = 3
  /\ match (outcome later_turn [0]).1 with Returns (Err (ENode _)) => true | _ => false end = true
  /\ (outcome (List.filter (fun m => negb (bool_decide (cm_content m = Some NO_NEW_FACT_NOTICE))) later_turn) [0]).1
     = Returns (Ok (notices [query "c7" "seven"] NO_NEW_FACT_NOTICE)).
Proof. split_and!; vm_compute; reflexivity. Qed.
End NodeExamples.
