(* ===== verification/Order.v ===== *)
(** * Comparators

    Rust orders values with three-way comparators chained by [then_with] and
    turned around by swapping the arguments. A comparator is lawful when
    swapping its arguments mirrors the answer, equal elements compare alike
    with everything, and it is transitive; the combinators keep that, so a
    sort by a chain of keys is a sort by a total preorder. *)

From Stdlib Require Import String.
From S2P Require Import Prelude Containers.

Class Comparator {A : Type} (cmp : A -> A -> comparison) : Prop := {
  cmp_mirror (x y : A) : cmp y x = CompOpp (cmp x y);
  cmp_congr (x y z : A) : cmp x y = Eq -> cmp x z = cmp y z;
  cmp_lt_trans (x y z : A) : cmp x y = Lt -> cmp y z = Lt -> cmp x z = Lt;
}.

#[export] Hint Mode Comparator + ! : typeclass_instances.

(** [Ordering::then_with]. *)
Definition then_with (c d : comparison) : comparison := match c with Eq => d | _ => c end.

(** Sorting by a comparator. *)
Definition cmp_leb {A : Type} (cmp : A -> A -> comparison) (x y : A) : bool :=
  match cmp x y with Gt => false | _ => true end.

#[export] Instance comparator_Z : Comparator Z.compare.
Proof.
  split; intros *.
  - apply Z.compare_antisym.
  - by intros ->%Z.compare_eq.
  - rewrite !Z.compare_lt_iff. lia.
Qed.

#[export] Instance comparator_string : Comparator String.compare.
Proof.
  split; intros *.
  - apply String.compare_antisym.
  - by intros ->%str_compare_eq.
  - apply str_lt_trans.
Qed.

(** The three combinators: by a key, in reverse, and one after the other. *)
Lemma comparator_on {A B : Type} (f : A -> B) (cmp : B -> B -> comparison) :
  Comparator cmp -> Comparator (fun x y => cmp (f x) (f y)).
Proof.
  intros [Hm Hc Ht]. split; intros *; [apply Hm|apply Hc|apply Ht].
Qed.

Lemma comparator_rev {A : Type} (cmp : A -> A -> comparison) :
  Comparator cmp -> Comparator (fun x y => cmp y x).
Proof.
  intros [Hm Hc Ht]. split; intros *.
  - apply Hm.
  - intros Hyx. rewrite (Hm x z), (Hm y z). f_equal. symmetry. by apply Hc.
  - intros H1 H2. by apply (Ht z y x).
Qed.

Lemma comparator_then {A : Type} (c d : A -> A -> comparison) :
  Comparator c -> Comparator d -> Comparator (fun x y => then_with (c x y) (d x y)).
Proof.
  intros [Hm Hc Ht] [Hm' Hc' Ht']. split; intros *.
  - rewrite Hm, Hm'. by destruct (c x y).
  - destruct (c x y) eqn:E; try done. simpl. intros Hd. by rewrite (Hc x y z), (Hc' x y z).
  - destruct (c x y) eqn:E1; simpl; try done.
    + rewrite (Hc x y z) by done. intros Hd. destruct (c y z); simpl; try done. by apply Ht'.
    + intros _. destruct (c y z) eqn:E2; simpl; try done; intros _.
      * assert (c x z = Lt) as ->; [|done]. rewrite (Hm z x), (Hc z y), <- Hm; [done|].
        by rewrite Hm, E2.
      * by rewrite (Ht x y z).
Qed.

Section Sorting.
Context {A : Type} (cmp : A -> A -> comparison) `{!Comparator cmp}.

Lemma cmp_congr_r (x y z : A) : cmp x y = Eq -> cmp z x = cmp z y.
Proof. intros He. by rewrite (cmp_mirror x z), (cmp_mirror y z), (cmp_congr x y). Qed.

Lemma cmp_leb_total (x y : A) : cmp_leb cmp x y = true \/ cmp_leb cmp y x = true.
Proof. unfold cmp_leb. rewrite (cmp_mirror x y). destruct (cmp x y); auto. Qed.

Lemma cmp_leb_trans (x y z : A) :
  cmp_leb cmp x y = true -> cmp_leb cmp y z = true -> cmp_leb cmp x z = true.
Proof.
  unfold cmp_leb. destruct (cmp x y) eqn:E1; try done; intros _.
  - by rewrite (cmp_congr x y z).
  - destruct (cmp y z) eqn:E2; try done; intros _.
    + rewrite (cmp_mirror z x), (cmp_congr z y), <- cmp_mirror, E1; [done|].
      by rewrite cmp_mirror, E2.
    + by rewrite (cmp_lt_trans x y z).
Qed.

Lemma cmp_leb_both (x y : A) : cmp_leb cmp x y = true -> cmp_leb cmp y x = true -> cmp x y = Eq.
Proof. unfold cmp_leb. rewrite (cmp_mirror x y). by destruct (cmp x y). Qed.

(** A sort by a lawful comparator is sorted; when elements that compare equal
    are equal it depends on the elements only. *)
Lemma sort_cmp_sorted (l : list A) : LebSorted (cmp_leb cmp) (sort_by (cmp_leb cmp) l).
Proof. apply sort_by_sorted; [apply cmp_leb_total|apply cmp_leb_trans]. Qed.

Lemma sort_cmp_unique (l l' : list A) :
  l ≡ₚ l' -> (forall x y, x ∈ l -> y ∈ l -> cmp x y = Eq -> x = y) ->
  sort_by (cmp_leb cmp) l = sort_by (cmp_leb cmp) l'.
Proof.
  intros Hp Heq. apply sort_by_unique; [apply cmp_leb_total|apply cmp_leb_trans|done|].
  intros x y Hx Hy H1 H2. apply Heq; [done..|]. by apply cmp_leb_both.
Qed.
End Sorting.

(** The last key decides when the ones before it tie. *)
Lemma then_with_eq (c d : comparison) : then_with c d = Eq <-> c = Eq /\ d = Eq.
Proof. destruct c; simpl; split; intros H; try done; by destruct H. Qed.
