(* ===== verification/Memory.v ===== *)
(** * Governed memory ([rusty-core/src/memory.rs])

    Content-addressed, immutable, scoped and attributed records: the record
    model with its JSON, the structured query, ranking and packing under an
    estimated-token budget. Forgetting, conflicts and consolidation are in
    [MemoryPlans], the store and the journaled seam in [MemoryStore]. *)

From Stdlib Require Import String Floats.SpecFloat.
From S2P Require Import Prelude Containers Json Error Record Meter Declaration Effects Invariant Text Order.
Local Open Scope string_scope.

Definition MEMORY_SCHEMA_VERSION : string := "memory-v1".
Definition TOKEN_BYTES_PER_ESTIMATE : N := 4.
Definition DEFAULT_TOKEN_MARGIN_PERCENT : N := 20.
Definition u32_max : N := 4294967295%N.

(** [u32::saturating_add] and [saturating_sub]. *)
Definition u32_add (a b : N) : N := N.min (a + b) u32_max.
Definition u32_sub (a b : N) : N := (a - b)%N.

(** ** The record model *)

(** [MemoryKind]. *)
Inductive MemoryKind : Type := KindFact | KindPreference | KindExample | KindSummary.

#[export] Instance MemoryKind_eq_dec : EqDecision MemoryKind.
Proof. solve_decision. Defined.

Definition memory_kind_name (k : MemoryKind) : string :=
  match k with
  | KindFact => "fact" | KindPreference => "preference"
  | KindExample => "example" | KindSummary => "summary"
  end.

(** [Candidacy]. *)
Inductive Candidacy : Type := CandidatePending.

#[export] Instance Candidacy_eq_dec : EqDecision Candidacy.
Proof. solve_decision. Defined.

(** [MemoryScope], [StateScope] and the mapping between them. *)
Inductive MemoryScope : Type := ScopeRun | ScopeAgent | ScopeTeam | ScopeUser | ScopeTenant.

#[export] Instance MemoryScope_eq_dec : EqDecision MemoryScope.
Proof. solve_decision. Defined.

Inductive StateScope : Type := StatePrivate | StateTeam | StateUser | StateTenant.

Definition from_state_scope (s : StateScope) : option MemoryScope :=
  Some match s with
       | StatePrivate => ScopeAgent | StateTeam => ScopeTeam
       | StateUser => ScopeUser | StateTenant => ScopeTenant
       end.

Definition to_state_scope (s : MemoryScope) : option StateScope :=
  match s with
  | ScopeRun => None
  | ScopeAgent => Some StatePrivate
  | ScopeTeam => Some StateTeam
  | ScopeUser => Some StateUser
  | ScopeTenant => Some StateTenant
  end.

Definition scope_name (s : MemoryScope) : string :=
  match s with
  | ScopeRun => "run" | ScopeAgent => "agent" | ScopeTeam => "team"
  | ScopeUser => "user" | ScopeTenant => "tenant"
  end.

(** [ScopeAddress] and [as_address]. *)
Record ScopeAddress : Type := mkScope { sa_scope : MemoryScope; sa_id : string }.

#[export] Instance ScopeAddress_eq_dec : EqDecision ScopeAddress.
Proof. solve_decision. Defined.

Definition as_address (s : ScopeAddress) : string := scope_name (sa_scope s) ++ ":" ++ sa_id s.

Definition scope_value (s : ScopeAddress) : Value :=
  jobj [("scope", Str (scope_name (sa_scope s))); ("id", Str (sa_id s))].

(** [ProvenanceAuthor] and [as_id_string]. *)
Inductive ProvenanceAuthor : Type :=
| ByAgent (agent_id : string)
| ByHuman (human_id : string)
| ByDistiller (name : string)
| BySystem.

#[export] Instance ProvenanceAuthor_eq_dec : EqDecision ProvenanceAuthor.
Proof. solve_decision. Defined.

Definition as_id_string (a : ProvenanceAuthor) : string :=
  match a with
  | ByAgent id => "agent:" ++ id
  | ByHuman id => "human:" ++ id
  | ByDistiller name => "distiller:" ++ name
  | BySystem => "system"
  end.

Definition author_value (a : ProvenanceAuthor) : Value :=
  match a with
  | ByAgent id => jobj [("type", Str "agent"); ("agent_id", Str id)]
  | ByHuman id => jobj [("type", Str "human"); ("human_id", Str id)]
  | ByDistiller name => jobj [("type", Str "distiller"); ("name", Str name)]
  | BySystem => jobj [("type", Str "system")]
  end.

(** [MemoryEvidence] and [is_empty]. *)
Record MemoryEvidence : Type := mkEvidence {
  me_run_id : option string;
  me_event_ids : list string;
  me_correction_id : option string;
  me_candidate_id : option string;
  me_source_memory_ids : list string;
}.

Definition no_evidence : MemoryEvidence := mkEvidence None [] None None [].

Definition is_nil {A : Type} (l : list A) : bool := match l with [] => true | _ => false end.
Definition is_none {A : Type} (o : option A) : bool := match o with None => true | _ => false end.

Definition evidence_is_empty (e : MemoryEvidence) : bool :=
  is_none (me_run_id e) && is_nil (me_event_ids e) && is_none (me_correction_id e)
  && is_none (me_candidate_id e) && is_nil (me_source_memory_ids e).

(** A list under [skip_serializing_if = "Vec::is_empty"], a member under
    [skip_serializing_if] of any other predicate. *)
Definition jskip (k : string) (skip : bool) (v : Value) : list (string * Value) :=
  if skip then [] else [(k, v)].

Definition jlist_skip (k : string) (l : list string) : list (string * Value) :=
  jskip k (is_nil l) (jstrs l).

Definition evidence_value (e : MemoryEvidence) : Value :=
  jobj (jopt "run_id" (Str <$> me_run_id e) ++ jlist_skip "event_ids" (me_event_ids e)
        ++ jopt "correction_id" (Str <$> me_correction_id e)
        ++ jopt "candidate_id" (Str <$> me_candidate_id e)
        ++ jlist_skip "source_memory_ids" (me_source_memory_ids e))%list.

(** [MemoryProvenance]. *)
Record MemoryProvenance : Type := mkProvenance {
  mp_author : ProvenanceAuthor;
  mp_evidence : MemoryEvidence;
  mp_written_at : DateTime;
}.

(** [ValidityWindow], [starting] and [contains]. *)
Record ValidityWindow : Type := mkWindow { vw_from : DateTime; vw_until : option DateTime }.

#[export] Instance ValidityWindow_eq_dec : EqDecision ValidityWindow.
Proof. solve_decision. Defined.

Definition window_starting (from : DateTime) : ValidityWindow := mkWindow from None.

Definition window_contains (w : ValidityWindow) (t : DateTime) : bool :=
  (vw_from w <=? t)%Z && match vw_until w with None => true | Some u => (t <? u)%Z end.

(** [MemoryRecord]. *)
Record MemoryRecord : Type := mkMemory {
  mr_memory_id : string;
  mr_kind : MemoryKind;
  mr_scope : ScopeAddress;
  mr_key : option string;
  mr_tags : list string;
  mr_priority : Z;
  mr_provenance : MemoryProvenance;
  mr_confidence : Float64;
  mr_validity : ValidityWindow;
  mr_created_at : DateTime;
  mr_expires_at : option DateTime;
  mr_supersedes : option string;
  mr_candidacy : option Candidacy;
  mr_content : PayloadRef;
  mr_embedding : option Value;
}.

(** The builder methods. *)
Definition with_key (key : string) (r : MemoryRecord) : MemoryRecord :=
  mkMemory (mr_memory_id r) (mr_kind r) (mr_scope r) (Some key) (mr_tags r) (mr_priority r)
    (mr_provenance r) (mr_confidence r) (mr_validity r) (mr_created_at r) (mr_expires_at r)
    (mr_supersedes r) (mr_candidacy r) (mr_content r) (mr_embedding r).

Definition with_tags (tags : list string) (r : MemoryRecord) : MemoryRecord :=
  mkMemory (mr_memory_id r) (mr_kind r) (mr_scope r) (mr_key r) tags (mr_priority r)
    (mr_provenance r) (mr_confidence r) (mr_validity r) (mr_created_at r) (mr_expires_at r)
    (mr_supersedes r) (mr_candidacy r) (mr_content r) (mr_embedding r).

Definition with_priority (priority : Z) (r : MemoryRecord) : MemoryRecord :=
  mkMemory (mr_memory_id r) (mr_kind r) (mr_scope r) (mr_key r) (mr_tags r) priority
    (mr_provenance r) (mr_confidence r) (mr_validity r) (mr_created_at r) (mr_expires_at r)
    (mr_supersedes r) (mr_candidacy r) (mr_content r) (mr_embedding r).

Definition with_expires_at (t : DateTime) (r : MemoryRecord) : MemoryRecord :=
  mkMemory (mr_memory_id r) (mr_kind r) (mr_scope r) (mr_key r) (mr_tags r) (mr_priority r)
    (mr_provenance r) (mr_confidence r) (mr_validity r) (mr_created_at r) (Some t)
    (mr_supersedes r) (mr_candidacy r) (mr_content r) (mr_embedding r).

Definition with_supersedes (id : string) (r : MemoryRecord) : MemoryRecord :=
  mkMemory (mr_memory_id r) (mr_kind r) (mr_scope r) (mr_key r) (mr_tags r) (mr_priority r)
    (mr_provenance r) (mr_confidence r) (mr_validity r) (mr_created_at r) (mr_expires_at r)
    (Some id) (mr_candidacy r) (mr_content r) (mr_embedding r).

Definition with_candidacy (c : Candidacy) (r : MemoryRecord) : MemoryRecord :=
  mkMemory (mr_memory_id r) (mr_kind r) (mr_scope r) (mr_key r) (mr_tags r) (mr_priority r)
    (mr_provenance r) (mr_confidence r) (mr_validity r) (mr_created_at r) (mr_expires_at r)
    (mr_supersedes r) (Some c) (mr_content r) (mr_embedding r).

(** [memory.rs]'s [invalid]. *)
Definition invalid (msg : string) : RustyError := EInvalidUpdate msg.

Section Records.
Context `{Codec}.

Definition time_value (t : DateTime) : Value := Str (time_text t).

Definition provenance_value (p : MemoryProvenance) : Value :=
  jobj (("author", author_value (mp_author p))
        :: jskip "evidence" (evidence_is_empty (mp_evidence p)) (evidence_value (mp_evidence p))
        ++ [("written_at", time_value (mp_written_at p))])%list.

Definition window_value (w : ValidityWindow) : Value :=
  jobj (("valid_from", time_value (vw_from w)) :: jopt "valid_until" (time_value <$> vw_until w)).

Definition candidacy_value (c : Candidacy) : Value := let 'CandidatePending := c in Str "pending".

Definition record_value (r : MemoryRecord) : Value :=
  jobj ([("memory_id", Str (mr_memory_id r)); ("kind", Str (memory_kind_name (mr_kind r)));
         ("scope", scope_value (mr_scope r))]
        ++ jopt "key" (Str <$> mr_key r) ++ jlist_skip "tags" (mr_tags r)
        ++ jskip "priority" (mr_priority r =? 0)%Z (jZ (mr_priority r))
        ++ [("provenance", provenance_value (mr_provenance r));
            ("confidence", Num (Float (mr_confidence r)));
            ("validity", window_value (mr_validity r));
            ("created_at", time_value (mr_created_at r))]
        ++ jopt "expires_at" (time_value <$> mr_expires_at r)
        ++ jopt "supersedes" (Str <$> mr_supersedes r)
        ++ jopt "candidacy" (candidacy_value <$> mr_candidacy r)
        ++ [("content", payload_value (mr_content r))]
        ++ jopt "embedding" (mr_embedding r))%list.

(** [content_ref_of]. *)
Definition content_ref_of (content : Value) : PayloadRef :=
  match to_vec content with
  | None => Inline content
  | Some bytes =>
      if (String.length bytes <=? INLINE_PAYLOAD_MAX_BYTES)%nat then Inline content
      else Artifact (mkArtifactRef (sha256_hex bytes) (N.of_nat (String.length bytes)))
  end.

(** [derive_memory_id]; a [Value] that does not serialize is an error. *)
Definition serialized {A : Type} (o : option A) : res A := ok_or o (ESerialization "value").

Definition derive_memory_id (content : PayloadRef) (p : MemoryProvenance) : res string :=
  hash ← serialized (content_hash content);
  bytes ← serialized (to_vec (jobj [("content", Str hash); ("provenance", provenance_value p)]));
  Ok (sha256_hex bytes).

(** [MemoryRecord::new]; [f64_text] is [Display for f64]. *)
Definition f64_zero : spec_float := S754_zero false.
Definition f64_unit : spec_float := f64_of_N 1.

Definition record_new (f64_text : spec_float -> string) (kind : MemoryKind) (scope : ScopeAddress)
    (provenance : MemoryProvenance) (confidence : spec_float) (validity : ValidityWindow)
    (created_at : DateTime) (content : Value) : res MemoryRecord :=
  match (if SFltb f64_zero confidence && SFleb confidence f64_unit
         then finite_f64 confidence else None) with
  | None =>
      Err (invalid ("memory confidence must be in (0, 1], got " ++ f64_text confidence
             ++ " — confidence is a writer-declared claim, and a value outside the interval is not "
             ++ "a claim at all"))
  | Some c =>
      let content_ref := content_ref_of content in
      memory_id ← derive_memory_id content_ref provenance;
      Ok (mkMemory memory_id kind scope None [] 0 provenance c validity created_at None None None
            content_ref None)
  end.

(** [content_bytes]. *)
Definition content_bytes (r : MemoryRecord) : N :=
  match mr_content r with
  | Inline v => match to_vec v with Some b => N.of_nat (String.length b) | None => 0%N end
  | Artifact a => ar_bytes a
  end.
End Records.

(** ** Queries *)

(** [MemoryQuery]. *)
Record MemoryQuery : Type := mkQuery {
  mq_scope : option ScopeAddress;
  mq_kinds : list MemoryKind;
  mq_key : option string;
  mq_tags : list string;
  mq_valid_at : option DateTime;
  mq_min_confidence : option spec_float;
  mq_include_expired : bool;
  mq_include_superseded : bool;
  mq_authored_by : option ProvenanceAuthor;
  mq_candidates_only : bool;
  mq_include_candidates : bool;
  mq_as_of : option DateTime;
  mq_text : option string;
  mq_utility_stamp : option DateTime;
}.

(** [MemoryQuery::default]. *)
Definition any_memory : MemoryQuery :=
  mkQuery None [] None [] None None false false None false false None None None.

Definition with_as_of (t : DateTime) (q : MemoryQuery) : MemoryQuery :=
  mkQuery (mq_scope q) (mq_kinds q) (mq_key q) (mq_tags q) (mq_valid_at q) (mq_min_confidence q)
    (mq_include_expired q) (mq_include_superseded q) (mq_authored_by q) (mq_candidates_only q)
    (mq_include_candidates q) (Some t) (mq_text q) (mq_utility_stamp q).

Definition with_text (text : string) (q : MemoryQuery) : MemoryQuery :=
  mkQuery (mq_scope q) (mq_kinds q) (mq_key q) (mq_tags q) (mq_valid_at q) (mq_min_confidence q)
    (mq_include_expired q) (mq_include_superseded q) (mq_authored_by q) (mq_candidates_only q)
    (mq_include_candidates q) (mq_as_of q) (Some text) (mq_utility_stamp q).

(** An [f64] in JSON; a non-finite one is [null]. *)
Definition jf64 (x : spec_float) : Value :=
  match finite_f64 x with Some f => Num (Float f) | None => Null end.

Definition query_value `{Codec} (q : MemoryQuery) : Value :=
  jobj (jopt "scope" (scope_value <$> mq_scope q)
        ++ jlist_skip "kinds" (map memory_kind_name (mq_kinds q))
        ++ jopt "key" (Str <$> mq_key q) ++ jlist_skip "tags" (mq_tags q)
        ++ jopt "valid_at" (time_value <$> mq_valid_at q)
        ++ jopt "min_confidence" (jf64 <$> mq_min_confidence q)
        ++ jskip "include_expired" (negb (mq_include_expired q)) (Bool true)
        ++ jskip "include_superseded" (negb (mq_include_superseded q)) (Bool true)
        ++ jopt "authored_by" (author_value <$> mq_authored_by q)
        ++ jskip "candidates_only" (negb (mq_candidates_only q)) (Bool true)
        ++ jskip "include_candidates" (negb (mq_include_candidates q)) (Bool true)
        ++ jopt "as_of" (time_value <$> mq_as_of q) ++ jopt "text" (Str <$> mq_text q)
        ++ jopt "utility_stamp" (time_value <$> mq_utility_stamp q))%list.

(** ** Recall *)
Section Recall.
Context `{Codec, Unicode}.

(** [f64::powf] of the platform's math library. *)
Context (powf : spec_float -> spec_float -> spec_float).

Definition NEUTRAL_UTILITY_BPS : N := 5000.
Definition RECALL_HALF_LIFE_DAYS : spec_float := f64_of_N 30.

(** [Vec::dedup]. *)
Fixpoint dedup_adjacent (l : list string) : list string :=
  match l with
  | [] => []
  | x :: rest =>
      match dedup_adjacent rest with
      | y :: rest' => if String.eqb x y then y :: rest' else x :: y :: rest'
      | [] => [x]
      end
  end.

(** [recall_terms]. *)
Definition recall_terms (text : string) : list string :=
  dedup_adjacent (sort_by str_leb
    (map to_lowercase
      (List.filter (fun w => (4 <=? chars_count w)%nat)
        (split_by (fun c => negb (char_alphanumeric c)) text)))).

(** [trigger_hit]. *)
Definition trigger_hit (r : MemoryRecord) (text : string) : bool :=
  let lowered := to_lowercase text in
  existsb (fun phrase => negb (String.eqb phrase EmptyString) && str_contains phrase lowered)
    (omap (strip_prefix "trigger:") (mr_tags r)).

(** [recall_score]. *)
Definition recall_score (r : MemoryRecord) (text : string) (now : DateTime) : spec_float :=
  let terms := recall_terms text in
  let body := to_lowercase (value_text (payload_value (mr_content r))) in
  let matched := length (List.filter (fun t => str_contains t body) terms) in
  let lexical :=
    if trigger_hit r text then f64_unit
    else match terms with
         | [] => f64_zero
         | _ => f64_div (f64_of_N (N.of_nat matched)) (f64_of_N (N.of_nat (length terms)))
         end in
  if SFeqb lexical f64_zero then f64_zero
  else
    let importance :=
      f64_add (f64_div (f64_of_N 1) (f64_of_N 2))
        (f64_div (f64_of_N (Z.to_N (Z.max 0 (Z.min (mr_priority r) 10)))) (f64_of_N 20)) in
    let age_days :=
      f64_div (f64_of_N (Z.to_N (Z.max (Z.quot (now - mr_created_at r) 1000) 0))) (f64_of_N 86400) in
    let recency := powf (f64_div (f64_of_N 1) (f64_of_N 2)) (f64_div age_days RECALL_HALF_LIFE_DAYS) in
    f64_times (f64_times lexical importance) recency.

(** [MemoryQuery::matches]. *)
Definition is_human (a : ProvenanceAuthor) : bool := match a with ByHuman _ => true | _ => false end.

Definition query_matches (q : MemoryQuery) (r : MemoryRecord) (superseded : bool) (now : DateTime) :
    bool :=
  match mq_scope q with Some s => bool_decide (mr_scope r = s) | None => true end
  && (is_nil (mq_kinds q) || bool_decide (mr_kind r ∈ mq_kinds q))
  && match mq_key q with Some k => bool_decide (mr_key r = Some k) | None => true end
  && forallb (fun tag => bool_decide (tag ∈ mr_tags r)) (mq_tags q)
  && match mq_valid_at q with Some t => window_contains (mr_validity r) t | None => true end
  && match mq_min_confidence q with Some m => negb (SFltb (f64_of (mr_confidence r)) m) | None => true end
  && (mq_include_expired q || match mr_expires_at r with Some e => negb (e <=? now)%Z | None => true end)
  && (mq_include_superseded q || negb superseded)
  && match mq_authored_by q with Some a => bool_decide (mp_author (mr_provenance r) = a) | None => true end
  && (negb (mq_candidates_only q) || negb (is_none (mr_candidacy r)))
  && (is_none (mr_candidacy r) || is_human (mp_author (mr_provenance r)) || mq_candidates_only q
      || mq_include_candidates q)
  && match mq_text q with Some text => negb (SFeqb (recall_score r text now) f64_zero) | None => true end.

(** [superseded_set] as the list of its members, and [apply_query]. *)
Definition superseded_set (universe : list MemoryRecord) : list string :=
  (omap mr_supersedes universe
   ++ concat (map (fun r => me_source_memory_ids (mp_evidence (mr_provenance r)))
        (List.filter (fun r => bool_decide (mr_kind r = KindSummary)) universe)))%list.

Definition apply_query (universe : list MemoryRecord) (q : MemoryQuery) (now : DateTime) :
    list MemoryRecord :=
  List.filter (fun r => query_matches q r (bool_decide (mr_memory_id r ∈ superseded_set universe)) now)
    universe.
End Recall.

(** ** Budgets *)

(** [BudgetOverflow], [ContextBudget] and its builders. *)
Inductive BudgetOverflow : Type := OverflowTruncate | OverflowFail.

#[export] Instance BudgetOverflow_eq_dec : EqDecision BudgetOverflow.
Proof. solve_decision. Defined.

Record ContextBudget : Type := mkContextBudget {
  cb_max_tokens : N;
  cb_margin_percent : N;
  cb_overflow : BudgetOverflow;
}.

Definition budget_new (max_tokens : N) : ContextBudget :=
  mkContextBudget max_tokens DEFAULT_TOKEN_MARGIN_PERCENT OverflowTruncate.
Definition with_margin_percent (m : N) (b : ContextBudget) : ContextBudget :=
  mkContextBudget (cb_max_tokens b) m (cb_overflow b).
Definition with_overflow (o : BudgetOverflow) (b : ContextBudget) : ContextBudget :=
  mkContextBudget (cb_max_tokens b) (cb_margin_percent b) o.

Definition overflow_name (o : BudgetOverflow) : string :=
  match o with OverflowTruncate => "truncate" | OverflowFail => "fail" end.

Definition context_budget_value (b : ContextBudget) : Value :=
  jobj (("max_tokens", jN (cb_max_tokens b))
        :: jskip "margin_percent" (cb_margin_percent b =? DEFAULT_TOKEN_MARGIN_PERCENT)%N
             (jN (cb_margin_percent b))
        ++ [("overflow", Str (overflow_name (cb_overflow b)))])%list.

(** [estimated_tokens]. *)
Definition estimated_tokens (bytes margin_percent : N) : N :=
  let base := ((bytes + (TOKEN_BYTES_PER_ESTIMATE - 1)) / TOKEN_BYTES_PER_ESTIMATE)%N in
  N.min (base * (100 + margin_percent) / 100) u32_max.

(** [TokenAccounting] and [MemoryAssembly]. *)
Record TokenAccounting : Type := mkAccounting {
  ta_bytes_per_token : N;
  ta_margin_percent : N;
  ta_budget_tokens : N;
  ta_used_tokens : N;
}.

Record MemoryAssembly : Type := mkAssembly {
  ma_memory_ids : list string;
  ma_records : list MemoryRecord;
  ma_token_accounting : TokenAccounting;
  ma_truncated : bool;
  ma_omitted : nat;
}.

Definition accounting_value (t : TokenAccounting) : Value :=
  jobj [("bytes_per_token", jN (ta_bytes_per_token t)); ("margin_percent", jN (ta_margin_percent t));
        ("budget_tokens", jN (ta_budget_tokens t)); ("used_tokens", jN (ta_used_tokens t))].

Definition assembly_value `{Codec} (a : MemoryAssembly) : Value :=
  jobj ([("memory_ids", jstrs (ma_memory_ids a)); ("records", Array (map record_value (ma_records a)));
         ("token_accounting", accounting_value (ma_token_accounting a));
         ("truncated", Bool (ma_truncated a))]
        ++ jskip "omitted" (ma_omitted a =? 0)%nat (jnat (ma_omitted a)))%list.

(** ** Ranking and packing *)

(** [f64::total_cmp]; the model's one NaN is above everything. *)
Definition magnitude_cmp (x y : positive * Z) : comparison :=
  then_with (Z.compare x.2 y.2) (Pos.compare x.1 y.1).

Definition f64_class (x : spec_float) : Z :=
  match x with
  | S754_infinity true => 0 | S754_finite true _ _ => 1 | S754_zero true => 2
  | S754_zero false => 3 | S754_finite false _ _ => 4 | S754_infinity false => 5
  | S754_nan => 6
  end%Z.

Definition total_cmp (x y : spec_float) : comparison :=
  then_with (Z.compare (f64_class x) (f64_class y))
    match x, y with
    | S754_finite false m e, S754_finite false n f => magnitude_cmp (m, e) (n, f)
    | S754_finite true m e, S754_finite true n f => magnitude_cmp (n, f) (m, e)
    | _, _ => Eq
    end.

(** The declared order: priority, confidence and recency descending, then the
    content address. *)
Definition declared_cmp (a b : MemoryRecord) : comparison :=
  then_with (Z.compare (mr_priority b) (mr_priority a))
    (then_with (total_cmp (f64_of (mr_confidence b)) (f64_of (mr_confidence a)))
      (then_with (Z.compare (mr_created_at b) (mr_created_at a))
        (String.compare (mr_memory_id a) (mr_memory_id b)))).

Section Packing.
Context `{Codec}.

Definition record_cost (b : ContextBudget) (r : MemoryRecord) : N :=
  estimated_tokens (content_bytes r) (cb_margin_percent b).

(** The loop of [pack_ranked]: the records packed, the tokens used, and
    whether the budget cut the list. *)
Fixpoint pack_loop (b : ContextBudget) (ranked : list MemoryRecord) (used : N)
    (packed : list MemoryRecord) : res (list MemoryRecord * N * bool) :=
  match ranked with
  | [] => Ok (packed, used, false)
  | r :: rest =>
      let cost := record_cost b r in
      if (cb_max_tokens b <? u32_add used cost)%N
      then
        match cb_overflow b with
        | OverflowTruncate => Ok (packed, used, true)
        | OverflowFail =>
            Err (invalid ("memory assembly exceeds the context budget: record `" ++ mr_memory_id r
                   ++ "` costs an estimated " ++ pretty cost ++ " tokens with " ++ pretty used
                   ++ " of " ++ pretty (cb_max_tokens b)
                   ++ " already used — the filtered set does not fit, and the budget was declared hard"))
        end
      else pack_loop b rest (u32_add used cost) (packed ++ [r])
  end.

(** [pack_ranked]. *)
Definition pack_ranked (ranked : list MemoryRecord) (b : ContextBudget) : res MemoryAssembly :=
  p ← pack_loop b ranked 0 [];
  let '(packed, used, truncated) := p in
  Ok (mkAssembly (map mr_memory_id packed) packed
        (mkAccounting TOKEN_BYTES_PER_ESTIMATE (cb_margin_percent b) (cb_max_tokens b) used)
        truncated (length ranked - length packed)).

(** [assemble]. *)
Definition assemble (records : list MemoryRecord) (b : ContextBudget) : res MemoryAssembly :=
  pack_ranked (sort_by (cmp_leb declared_cmp) records) b.

(** [assemble_for]: by recall score, weighed with the utility index, when
    the query carries a text. *)
Definition weigh `{Unicode} (powf : spec_float -> spec_float -> spec_float) (q : MemoryQuery)
    (text : string) (now : DateTime) (utility_bps : string -> option N) (r : MemoryRecord) :
    spec_float :=
  let base := recall_score powf r text now in
  if is_none (mq_utility_stamp q) || SFeqb base f64_zero then base
  else
    let bps := default NEUTRAL_UTILITY_BPS (utility_bps (mr_memory_id r)) in
    f64_times base (f64_div (f64_of_N bps) (f64_of_N NEUTRAL_UTILITY_BPS)).

Definition assemble_for `{Unicode} (powf : spec_float -> spec_float -> spec_float)
    (records : list MemoryRecord) (q : MemoryQuery) (now : DateTime) (b : ContextBudget)
    (utility_bps : string -> option N) : res MemoryAssembly :=
  match mq_text q with
  | None => assemble records b
  | Some text =>
      let w := weigh powf q text now utility_bps in
      pack_ranked
        (sort_by (cmp_leb (fun a c => then_with (total_cmp (w c) (w a)) (declared_cmp a c))) records) b
  end.
End Packing.
