(* ===== verification/MemoryPlans.v ===== *)
(** * Forgetting, conflicts, consolidation, corrections and rewrites
    ([rusty-core/src/memory.rs])

    The pure functions the governed store plans with: what a forgetting
    takes with it, which live records contradict each other, the summary a
    consolidation writes and when a pass is due, the loss bound of a curated
    rewrite, and the credential check. A [HashSet] whose members are sorted
    afterwards is a list without repetitions. *)

From Stdlib Require Import String Floats.SpecFloat.
From S2P Require Import Prelude Containers Json Error Record Meter Effects Replay Invariant Text Order Memory.
Local Open Scope string_scope.

(** ** Forgetting *)

(** [ForgetReason], [MemoryForgetTombstone], [memory_forget_effect_key]. *)
Inductive ForgetReason : Type := ForgetExpired | ForgetRetracted | ForgetErasure.

Record MemoryForgetTombstone : Type := mkTombstone {
  ft_memory_id : string;
  ft_scope : ScopeAddress;
  ft_reason : ForgetReason;
  ft_invalidated : list string;
}.

Definition forget_reason_name (r : ForgetReason) : string :=
  match r with
  | ForgetExpired => "expired" | ForgetRetracted => "retracted" | ForgetErasure => "erasure_request"
  end.

Definition tombstone_value (t : MemoryForgetTombstone) : Value :=
  jobj ([("memory_id", Str (ft_memory_id t)); ("scope", scope_value (ft_scope t));
         ("reason", Str (forget_reason_name (ft_reason t)))]
        ++ jlist_skip "invalidated" (ft_invalidated t))%list.

Definition memory_forget_effect_key (s : ScopeAddress) (memory_id : string) : string :=
  "memory_forget:" ++ as_address s ++ ":" ++ memory_id.

(** [ForgetPlan]. *)
Record ForgetPlan : Type := mkForget { fp_forgotten : list string; fp_invalidated : list string }.

(** [HashSet::insert]. *)
Definition set_insert (x : string) (s : list string) : list string :=
  if decide (x ∈ s) then s else (s ++ [x])%list.

Definition sources_of (r : MemoryRecord) : list string :=
  me_source_memory_ids (mp_evidence (mr_provenance r)).

(** One record of a pass: a summary that names a removed record joins. *)
Definition falls (removed : list string) (r : MemoryRecord) : bool :=
  bool_decide (mr_kind r = KindSummary) && negb (bool_decide (mr_memory_id r ∈ removed))
  && existsb (fun s => bool_decide (s ∈ removed)) (sources_of r).

Fixpoint forget_pass (universe : list MemoryRecord) (removed : list string) (grew : bool) :
    list string * bool :=
  match universe with
  | [] => (removed, grew)
  | r :: rest =>
      if falls removed r then forget_pass rest (set_insert (mr_memory_id r) removed) true
      else forget_pass rest removed grew
  end.

(** The fixpoint loop. A pass that grows adds a record of the universe, so
    there is one more pass at most than there are records. *)
Fixpoint forget_loop (fuel : nat) (universe : list MemoryRecord) (removed : list string) : list string :=
  match fuel with
  | O => removed
  | S fuel' =>
      let '(removed', grew) := forget_pass universe removed false in
      if grew then forget_loop fuel' universe removed' else removed'
  end.

(** [plan_forget]. *)
Definition targeted (targets : list string) (universe : list MemoryRecord) : list string :=
  fold_left (fun s r => set_insert (mr_memory_id r) s)
    (List.filter (fun r => bool_decide (mr_memory_id r ∈ targets)) universe) [].

Definition plan_forget (universe : list MemoryRecord) (targets : list string) : ForgetPlan :=
  let removed := forget_loop (S (length universe)) universe (targeted targets universe) in
  let forgotten := sort_by str_leb (List.filter (fun id => bool_decide (id ∈ targets)) removed) in
  let invalidated := sort_by str_leb (List.filter (fun id => negb (bool_decide (id ∈ forgotten))) removed) in
  mkForget forgotten invalidated.

(** ** Conflicts *)

(** [validity_overlap]. *)
Definition validity_overlap (a b : ValidityWindow) : option ValidityWindow :=
  let from := Z.max (vw_from a) (vw_from b) in
  let until :=
    match vw_until a, vw_until b with
    | Some x, Some y => Some (Z.min x y)
    | Some x, None => Some x
    | None, y => y
    end in
  match until with
  | Some u => if (u <=? from)%Z then None else Some (mkWindow from until)
  | None => Some (mkWindow from until)
  end.

(** [MemoryConflict]. *)
Record MemoryConflict : Type := mkConflict {
  mc_scope : ScopeAddress;
  mc_key : string;
  mc_memory_ids : list string;
  mc_overlap : ValidityWindow;
}.

(** [Ord for Vec<String>]. *)
Fixpoint strings_cmp (a b : list string) : comparison :=
  match a, b with
  | [], [] => Eq
  | [], _ => Lt
  | _, [] => Gt
  | x :: a', y :: b' => then_with (String.compare x y) (strings_cmp a' b')
  end.

Definition conflict_cmp (a b : MemoryConflict) : comparison :=
  then_with (String.compare (as_address (mc_scope a)) (as_address (mc_scope b)))
    (then_with (String.compare (mc_key a) (mc_key b)) (strings_cmp (mc_memory_ids a) (mc_memory_ids b))).

(** The [BTreeMap] of groups, by scope address and key. *)
Definition group_cmp (a b : string * string) : comparison :=
  then_with (String.compare a.1 b.1) (String.compare a.2 b.2).

Fixpoint group_push (k : string * string) (r : MemoryRecord)
    (groups : list ((string * string) * list MemoryRecord)) : list ((string * string) * list MemoryRecord) :=
  match groups with
  | [] => [(k, [r])]
  | (k', rs) :: rest =>
      match group_cmp k k' with
      | Lt => (k, [r]) :: (k', rs) :: rest
      | Eq => (k', (rs ++ [r])%list) :: rest
      | Gt => (k', rs) :: group_push k r rest
      end
  end.

Section Conflicts.
Context `{Codec}.

(** [same_content]. *)
Definition same_content (a b : MemoryRecord) : bool :=
  match content_hash (mr_content a), content_hash (mr_content b) with
  | Some x, Some y => String.eqb x y
  | _, _ => payload_eqb (mr_content a) (mr_content b)
  end.

(** Whether a pair is flagged, and how. *)
Definition conflict_of (key : string) (a b : MemoryRecord) : option MemoryConflict :=
  if bool_decide (mr_supersedes a = Some (mr_memory_id b))
     || bool_decide (mr_supersedes b = Some (mr_memory_id a)) then None
  else
    overlap ← validity_overlap (mr_validity a) (mr_validity b);
    if same_content a b then None
    else Some (mkConflict (mr_scope a) key [mr_memory_id a; mr_memory_id b] overlap).

(** The pairs of a sorted group. *)
Fixpoint group_conflicts (key : string) (group : list MemoryRecord) : list MemoryConflict :=
  match group with
  | [] => []
  | a :: rest => (omap (conflict_of key a) rest ++ group_conflicts key rest)%list
  end.

Definition id_leb (a b : MemoryRecord) : bool := str_leb (mr_memory_id a) (mr_memory_id b).

Definition live_record_at (universe : list MemoryRecord) (now : DateTime) (r : MemoryRecord) : bool :=
  negb (bool_decide (mr_memory_id r ∈ superseded_set universe))
  && match mr_expires_at r with None => true | Some e => (now <? e)%Z end.

Definition groups_of (records : list MemoryRecord) : list ((string * string) * list MemoryRecord) :=
  fold_left (fun gs r =>
    match mr_key r with
    | Some key => group_push (as_address (mr_scope r), key) r gs
    | None => gs
    end) records [].

(** [detect_conflicts]. *)
Definition detect_conflicts (universe : list MemoryRecord) (now : DateTime) : list MemoryConflict :=
  sort_by (cmp_leb conflict_cmp)
    (concat (map (fun g => group_conflicts g.1.2 (sort_by id_leb g.2))
       (groups_of (List.filter (live_record_at universe now) universe)))).
End Conflicts.

(** ** Corrections *)

(** [CorrectionTarget], [Correction]; the identities are checked where the
    contract is parsed. *)
Inductive CorrectionTarget : Type :=
| TargetRunEvent (run_id event_id : string)
| TargetMemory (memory_id : string)
| TargetPrompt (prompt_hash : string).

Record Correction : Type := mkCorrection {
  co_correction_id : string;
  co_author : string;
  co_target : CorrectionTarget;
  co_corrected : Value;
  co_scope : ScopeAddress;
  co_rationale : option string;
}.

(** [deserialize_non_empty_id]. *)
Definition non_empty_id (s : string) : result string string :=
  if String.eqb (str_trim s) EmptyString
  then Err "identity must be non-empty — attribution is mandatory" else Ok s.

Definition author_as_provenance (c : Correction) : ProvenanceAuthor := ByHuman (co_author c).

Definition attribution (c : Correction) : string :=
  "human:" ++ co_author c ++ " via correction:" ++ co_correction_id c.

Definition correction_evidence (c : Correction) : MemoryEvidence :=
  let '(run_id, event_ids) :=
    match co_target c with
    | TargetRunEvent run event => (Some run, [event])
    | _ => (None, [])
    end in
  mkEvidence run_id event_ids (Some (co_correction_id c)) None [].

Definition is_candidate (c : Correction) : bool := negb (bool_decide (sa_scope (co_scope c) = ScopeRun)).

(** ** Consolidation *)

(** [ConsolidationCadence], [ConsolidationState], [new], [advance]. *)
Record ConsolidationCadence : Type := mkCadence { cc_min_turns : N; cc_max_interval_ms : option N }.

Record ConsolidationState : Type := mkConsolidation {
  cs_high_water_mark : N;
  cs_last_run_at : DateTime;
  cs_turns_since_last : N;
}.

Definition consolidation_new (now : DateTime) : ConsolidationState := mkConsolidation 0 now 0.
Definition consolidation_advance (new_mark : N) (now : DateTime) (s : ConsolidationState) :
    ConsolidationState := mkConsolidation new_mark now 0.

Definition CONSOLIDATION_STATE_KEY : string := "_rusty_consolidation_state".

(** [frequency_gate] and [frequency_gate_reason]. *)
Definition elapsed_ms (s : ConsolidationState) (now : DateTime) : N :=
  Z.to_N (Z.max (now - cs_last_run_at s) 0).

Definition too_few_turns (s : ConsolidationState) (c : ConsolidationCadence) : bool :=
  (cs_turns_since_last s <? cc_min_turns c)%N.

Definition too_soon (s : ConsolidationState) (c : ConsolidationCadence) (now : DateTime) : bool :=
  match cc_max_interval_ms c with Some ms => (elapsed_ms s now <? ms)%N | None => false end.

Definition frequency_gate (s : ConsolidationState) (c : ConsolidationCadence) (now : DateTime) : res bool :=
  if too_few_turns s c then Ok false else if too_soon s c now then Ok false else Ok true.

Definition frequency_gate_reason (s : ConsolidationState) (c : ConsolidationCadence) (now : DateTime) :
    string :=
  let parts :=
    ((if too_few_turns s c
      then [("turns " ++ pretty (cs_turns_since_last s) ++ " < " ++ pretty (cc_min_turns c))%string] else [])
     ++ match cc_max_interval_ms c with
        | Some ms =>
            if too_soon s c now
            then [("elapsed " ++ pretty (elapsed_ms s now) ++ " ms < " ++ pretty ms ++ " ms")%string] else []
        | None => []
        end)%list in
  if is_nil parts then "gate would pass" else "frequency gate blocked: " ++ String.concat ", " parts.

(** [exclude_recall_injected]. *)
Definition exclude_recall_injected (records : list MemoryRecord) (injected_run_ids : list string) :
    list MemoryRecord :=
  List.filter (fun r =>
    negb match me_run_id (mp_evidence (mr_provenance r)) with
         | Some run => bool_decide (run ∈ injected_run_ids)
         | None => false
         end
    && negb (bool_decide ("recall_injected" ∈ mr_tags r))) records.

(** [f64::min] of two confidences (no NaN among them). *)
Definition f64_min (a b : spec_float) : spec_float := if SFltb b a then b else a.

(** [Iterator::min] and [max] over instants. *)
Definition least (l : list DateTime) : option DateTime :=
  match l with [] => None | x :: rest => Some (fold_left Z.min rest x) end.
Definition greatest (l : list DateTime) : option DateTime :=
  match l with [] => None | x :: rest => Some (fold_left Z.max rest x) end.

(** [consolidation_summary]. *)
Definition consolidation_summary `{Codec} (f64_text : spec_float -> string) (scope : ScopeAddress)
    (distiller : string) (sources : list MemoryRecord) (content : Value) (now : DateTime) :
    res MemoryRecord :=
  match least (map (fun r => vw_from (mr_validity r)) sources) with
  | None =>
      Err (invalid ("consolidation needs at least one source record — a summary that names no "
             ++ "sources is not a consolidation, and an unnamed derivation can neither be audited nor "
             ++ "forgotten correctly"))
  | Some valid_from =>
      let confidence :=
        fold_left f64_min (map (fun r => f64_of (mr_confidence r)) sources) (S754_infinity false) in
      let valid_until := mapM (fun r => vw_until (mr_validity r)) sources ≫= greatest in
      record_new f64_text KindSummary scope
        (mkProvenance (ByDistiller distiller)
           (mkEvidence None [] None None (sort_by str_leb (map mr_memory_id sources))) now)
        confidence (mkWindow valid_from valid_until) now content
  end.

(** ** Curated rewrites *)

Record RewriteProposal : Type := mkProposal {
  rw_expected_pre_image_hash : string;
  rw_proposed_content : Value;
  rw_justifications : list string;
  rw_loss_bound_fraction : spec_float;
}.

Record RewriteValidation : Type := mkRewriteValidation {
  rv_passed : bool;
  rv_pre_image_hash : string;
  rv_post_image_hash : string;
  rv_fact_count_before : nat;
  rv_fact_count_after : nat;
  rv_removed_facts : list string;
  rv_diff_summary : string;
  rv_refusal_reason : option string;
}.

Section Rewrites.
Context `{Codec, Unicode}.

(** [format!("{:.1}", x)]. *)
Context (fixed1 : spec_float -> string).

(** [canonical_fact_key]. *)
Definition canonical_fact_key (fact : Value) : string :=
  match fact with
  | Str s => to_lowercase (str_trim s)
  | _ => match to_vec (canonicalize_value fact) with Some t => t | None => "???" end
  end.

(** [str::lines], up to the empty ones. *)
Definition text_lines (s : string) : list string :=
  split_by (fun c => String.eqb c (bytes [10])) s.

(** [count_facts]. *)
Definition count_facts (content : Value) : list string :=
  match content with
  | Array items => map canonical_fact_key items
  | Object [(_, Array items)] => map canonical_fact_key items
  | Object m => map (fun kv => kv.1 ++ ": " ++ canonical_fact_key kv.2) m
  | Str s =>
      map to_lowercase
        (List.filter (fun line => negb (String.eqb line EmptyString)) (map str_trim (text_lines s)))
  | _ => [canonical_fact_key content]
  end.

(** [compute_removed_facts]. *)
Definition compute_removed_facts (pre_image post_image : Value) : list string :=
  let after := count_facts post_image in
  sort_by str_leb (fold_left (fun s x => if decide (x ∈ after) then s else set_insert x s)
    (count_facts pre_image) []).

(** The fraction of facts lost: the drop of the number of facts. *)
Definition loss_fraction (before after : nat) : spec_float :=
  match before with
  | O => f64_zero
  | _ => f64_div (f64_of_N (N.of_nat (before - after))) (f64_of_N (N.of_nat before))
  end.

Definition percent (x : spec_float) : string := fixed1 (f64_times x (f64_of_N 100)).

(** [validate_rewrite]. *)
Definition validate_rewrite (pre_image : MemoryRecord) (p : RewriteProposal) : res RewriteValidation :=
  pre_hash ← serialized (content_hash (mr_content pre_image));
  post_hash ← serialized (content_hash (content_ref_of (rw_proposed_content p)));
  if negb (String.eqb pre_hash (rw_expected_pre_image_hash p))
  then
    Ok (mkRewriteValidation false pre_hash post_hash 0 0 []
          ("hash mismatch: expected " ++ rw_expected_pre_image_hash p ++ ", stored record hashes to "
           ++ pre_hash)
          (Some "pre-image hash mismatch — the record changed since the proposal was built"))
  else
    match mr_content pre_image with
    | Artifact r =>
        Err (invalid ("rewrite validation for artifact-referenced payload `" ++ ar_sha256 r
               ++ "` requires artifact resolution — not supported in R0.8"))
    | Inline content =>
        let before := length (count_facts content) in
        let after := length (count_facts (rw_proposed_content p)) in
        let removed := compute_removed_facts content (rw_proposed_content p) in
        let loss := loss_fraction before after in
        let within_bound := SFleb loss (rw_loss_bound_fraction p) in
        let justified :=
          negb (is_nil removed) && (length removed <=? length (rw_justifications p))%nat in
        let passed := within_bound || justified in
        Ok (mkRewriteValidation passed pre_hash post_hash before after removed
              ("facts: " ++ pretty before ++ " → " ++ pretty after ++ " (" ++ pretty (length removed)
               ++ " removed, " ++ percent loss ++ "% loss)"
               ++ (if passed then EmptyString else " — exceeds bound"))
              (if passed then None
               else Some ("loss bound exceeded: " ++ percent loss ++ "% > "
                      ++ percent (rw_loss_bound_fraction p) ++ "% (" ++ pretty (length removed)
                      ++ " facts removed, " ++ pretty (length (rw_justifications p))
                      ++ " justifications provided); each removal must be enumerated with a "
                      ++ "justification")))
    end.
End Rewrites.

(** ** Credentials *)
Section Secrets.
Context `{Unicode}.

Definition secret_prefixes : list (string * string) :=
  [("sk-", "an API key"); ("sk_live_", "an API key"); ("sk_test_", "an API key");
   ("akia", "an AWS access key"); ("ghp_", "a GitHub token"); ("gho_", "a GitHub token");
   ("github_pat_", "a GitHub token"); ("xoxb-", "a Slack token"); ("xoxp-", "a Slack token");
   ("xoxa-", "a Slack token"); ("eyj", "a signed token")].

Definition one_of (l : list string) (c : string) : bool := existsb (String.eqb c) l.

Definition token_break (c : string) : bool :=
  is_whitespace c || one_of [bytes [34]; "'"; "`"; "("; ")"; ","; ";"; ":"; "="] c.

Definition prefixed_token (prefix lower : string) : bool :=
  existsb (fun w => starts_with prefix w && (String.length prefix + 12 <=? String.length w)%nat)
    (split_by token_break lower).

Fixpoint first_prefix (ps : list (string * string)) (lower : string) : option string :=
  match ps with
  | [] => None
  | (prefix, what) :: rest => if prefixed_token prefix lower then Some what else first_prefix rest lower
  end.

(** [str::trim_start_matches] and [trim_matches] of a set of characters. *)
Fixpoint drop_chars (p : string -> bool) (cs : list string) : list string :=
  match cs with c :: cs' => if p c then drop_chars p cs' else cs | [] => [] end.

Definition trim_start_matches (p : string -> bool) (s : string) : string :=
  String.concat EmptyString (drop_chars p (chars s)).
Definition trim_matches (p : string -> bool) (s : string) : string :=
  String.concat EmptyString (reverse (drop_chars p (reverse (drop_chars p (chars s))))).

Definition has_byte (p : nat -> bool) (s : string) : bool :=
  existsb (fun c => p (Ascii.nat_of_ascii c)) (String.list_ascii_of_string s).
Definition is_digit_byte (n : nat) : bool := (48 <=? n)%nat && (n <=? 57)%nat.
Definition is_letter_byte (n : nat) : bool :=
  (65 <=? n)%nat && (n <=? 90)%nat || (97 <=? n)%nat && (n <=? 122)%nat.

(** The value after a word that announces one. *)
Definition value_after (word lower : string) : option string :=
  rest ← find_after word lower;
  let after := trim_start_matches (one_of [":"; "="; " "]) (str_trim_start rest) in
  let after := default after (strip_prefix "is " after) in
  Some (trim_matches (one_of [bytes [34]; "'"; "`"; ","; "."; ";"])
          (default EmptyString (head (split_whitespace after)))).

Definition credential (value : string) : bool :=
  (8 <=? String.length value)%nat && has_byte is_digit_byte value && has_byte is_letter_byte value
  && has_byte (fun n => negb (is_letter_byte n)) value.

Fixpoint first_word (words : list string) (lower : string) : option string :=
  match words with
  | [] => None
  | word :: rest =>
      match value_after word lower with
      | Some value =>
          if credential value
          then Some (if str_contains "pass" word then "a password" else "a secret")
          else first_word rest lower
      | None => first_word rest lower
      end
  end.

(** [split("bearer ").nth(1)] ends before the next occurrence. *)
Definition bearer_token (lower : string) : bool :=
  match find_after "bearer " lower with
  | Some rest =>
      match head (split_whitespace (find_before "bearer " rest)) with
      | Some t => (16 <=? String.length t)%nat
      | None => false
      end
  | None => false
  end.

(** [looks_like_secret] and [secret_in]. *)
Definition looks_like_secret (text : string) : option string :=
  let lower := to_lowercase text in
  match first_prefix secret_prefixes lower with
  | Some what => Some what
  | None =>
      if str_contains "-----begin" lower && str_contains "private key" lower then Some "a private key"
      else if bearer_token lower then Some "a bearer token"
      else first_word ["password"; "passwd"; "secret"; "api key"; "api_key"; "apikey"; "token"] lower
  end.

Fixpoint secret_in (content : Value) : option string :=
  match content with
  | Str s => looks_like_secret s
  | Array items =>
      (fix go l := match l with
                   | [] => None
                   | v :: l' => match secret_in v with Some w => Some w | None => go l' end
                   end) items
  | Object m =>
      (fix go (l : list (string * Value)) :=
         match l with
         | [] => None
         | (_, v) :: l' => match secret_in v with Some w => Some w | None => go l' end
         end) m
  | _ => None
  end.
End Secrets.

Definition ORIGIN_UNTRUSTED_TAG : string := "origin:untrusted".
Definition is_untrusted (r : MemoryRecord) : bool := bool_decide (ORIGIN_UNTRUSTED_TAG ∈ mr_tags r).
