(* ===== verification/MemoryStore.v ===== *)
(** * The memory store and the journaled seam ([rusty-core/src/memory.rs])

    The [MemoryStore] contract with its in-memory implementation, the
    consolidation state kept in it, and [JournaledMemory]: reads and writes
    that journal what they did, or are served from a recorded journal. The
    store acts on an environment of its own; the journal and the clocks are
    the run's. *)

From Stdlib Require Import String Floats.SpecFloat.
From S2P Require Import Prelude Containers Json Error Record Journal Meter Replay Text Order Memory MemoryPlans.
Local Open Scope string_scope.

(** ** The contract *)

(** The [MemoryStore] trait. *)
Record MemoryStore (E : Type) : Type := mkMemoryStore {
  ms_put : MemoryRecord -> E -> res bool * E;
  ms_get : string -> E -> res (option MemoryRecord) * E;
  ms_all : E -> res (list MemoryRecord) * E;
  ms_remove : string -> E -> res bool * E;
  ms_utility_bps : E -> string -> option N;
  ms_query : MemoryQuery -> DateTime -> E -> res (list MemoryRecord) * E;
}.
Arguments mkMemoryStore {E} _ _ _ _ _ _.
Arguments ms_put {E} _ _ _.
Arguments ms_get {E} _ _ _.
Arguments ms_all {E} _ _.
Arguments ms_remove {E} _ _ _.
Arguments ms_utility_bps {E} _ _ _.
Arguments ms_query {E} _ _ _ _.

(** [MemoryReplaySource]: the recorded reads, the artifacts, the cursor. *)
Record MemoryReplay : Type := mkMemoryReplay {
  mrp_servable : list RunEvent;
  mrp_artifacts : list (string * Value);
  mrp_cursor : nat;
}.

(** What a handle reaches besides the run: the store's world and the replay
    source. *)
Record MemoryWorld (E : Type) : Type := mkMemoryWorld { mw_env : E; mw_replay : MemoryReplay }.
Arguments mkMemoryWorld {E} _ _.
Arguments mw_env {E} _.
Arguments mw_replay {E} _.

(** [MemorySource]. *)
Inductive MemorySource (E : Type) : Type :=
| SourceStore (store : MemoryStore E)
| SourceReplay.
Arguments SourceStore {E} _.
Arguments SourceReplay {E}.

Section Stores.
Context `{Codec, Unicode} (powf : spec_float -> spec_float -> spec_float).

(** The default [query]: scan and filter. *)
Definition default_query {E : Type} (all : E -> res (list MemoryRecord) * E) (q : MemoryQuery)
    (now : DateTime) (env : E) : res (list MemoryRecord) * E :=
  let '(records, env') := all env in
  (records ← records; Ok (apply_query powf records q now), env').

(** [InMemoryMemoryStore]: one map keyed by content address. *)
Definition MemoryMap : Type := list (string * MemoryRecord).

Definition map_put (r : MemoryRecord) (m : MemoryMap) : res bool * MemoryMap :=
  if BTree.contains_key (mr_memory_id r) m then (Ok false, m)
  else (Ok true, BTree.insert (mr_memory_id r) r m).

Definition map_get (id : string) (m : MemoryMap) : res (option MemoryRecord) * MemoryMap :=
  (Ok (BTree.get id m), m).

Definition map_all (m : MemoryMap) : res (list MemoryRecord) * MemoryMap := (Ok (map snd m), m).

Definition map_remove (id : string) (m : MemoryMap) : res bool * MemoryMap :=
  (Ok (BTree.contains_key id m), BTree.remove id m).

Definition in_memory_store : MemoryStore MemoryMap :=
  mkMemoryStore map_put map_get map_all map_remove (fun _ _ => None) (default_query map_all).

(** ** The consolidation state *)

Definition state_value (s : ConsolidationState) : Value :=
  jobj [("high_water_mark", jN (cs_high_water_mark s)); ("last_run_at", time_value (cs_last_run_at s));
        ("turns_since_last", jN (cs_turns_since_last s))].

(** [load_consolidation_state]; the derived deserializer is an argument. *)
Definition state_query (scope : ScopeAddress) : MemoryQuery :=
  mkQuery (Some scope) [] (Some CONSOLIDATION_STATE_KEY) [] None None false false None false false
    None None None.

Definition load_consolidation_state {E : Type} (from_value : Value -> result string ConsolidationState)
    (store : MemoryStore E) (scope : ScopeAddress) (now : DateTime) (env : E) :
    res ConsolidationState * E :=
  let '(records, env') := ms_query store (state_query scope) now env in
  (records ← records;
   match records with
   | [] => Ok (consolidation_new now)
   | r :: _ =>
       match mr_content r with
       | Inline v =>
           match from_value v with
           | Ok s => Ok s
           | Err e => Err (invalid ("corrupt consolidation state: " ++ e))
           end
       | Artifact _ =>
           Err (invalid "consolidation state must be inline — artifact reference is unsupported")
       end
   end, env').

(** [persist_consolidation_state]. *)
Definition persist_consolidation_state {E : Type} (f64_text : spec_float -> string)
    (store : MemoryStore E) (scope : ScopeAddress) (s : ConsolidationState)
    (provenance : MemoryProvenance) (env : E) : res string * E :=
  match record_new f64_text KindFact scope provenance f64_unit (window_starting (cs_last_run_at s))
          (cs_last_run_at s) (state_value s) with
  | Err e => (Err e, env)
  | Ok r =>
      let r := with_key CONSOLIDATION_STATE_KEY r in
      let '(out, env') := ms_put store r env in
      (_ ← out; Ok (mr_memory_id r), env')
  end.

(** ** The journaled seam *)

(** [memory_read_request], [memory_effect_key]. *)
Definition memory_read_request (q : MemoryQuery) (b : ContextBudget) : Value :=
  jobj [("query", query_value q); ("budget", context_budget_value b)].

Definition memory_effect_key (s : ScopeAddress) (memory_id : string) : string :=
  "memory:" ++ as_address s ++ ":" ++ memory_id.

(** [MemoryReplaySource::new]. *)
Definition memory_replay_new (s : JournalSnapshot) : MemoryReplay :=
  mkMemoryReplay (List.filter (fun e => bool_decide (ev_kind e = KMemoryRead)) (js_events s))
    (js_artifacts s) 0.

Definition payload_of (artifacts : list (string * Value)) (p : option PayloadRef) : option Value :=
  match p with
  | Some (Inline v) => Some v
  | Some (Artifact r) => BTree.get (ar_sha256 r) artifacts
  | None => None
  end.

(** [MemoryReplaySource::serve]. *)
Definition memory_serve (request : Value) (m : MemoryReplay) : res ServedEffect * MemoryReplay :=
  let out :=
    issued ← request_hash request;
    event ← ok_or (mrp_servable m !! mrp_cursor m)
      (EReplay ("replay exhaustion: the run issued a memory read (request hash " ++ issued
         ++ "), but the journal holds no further recorded memory reads to serve — the replayed run is "
         ++ "doing more work than the recorded one"));
    input ← ok_or (payload_of (mrp_artifacts m) (ev_input event))
      (EReplay ("recorded memory read at seq " ++ pretty (ev_seq event)
         ++ " has no input payload to match against"));
    recorded ← request_hash input;
    if String.eqb recorded issued
    then Ok (mkServed event (Some input) (payload_of (mrp_artifacts m) (ev_output event)) [])
    else Err (EReplay ("replay divergence at recorded seq " ++ pretty (ev_seq event)
           ++ " (memory read): the run issued a request whose canonical hash is " ++ issued
           ++ ", but the journaled request hashes to " ++ recorded
           ++ " — the replayed run has diverged from its evidence")) in
  (out, match out with
        | Ok _ => mkMemoryReplay (mrp_servable m) (mrp_artifacts m) (S (mrp_cursor m))
        | Err _ => m
        end).

Definition memory_is_exhausted (m : MemoryReplay) : bool :=
  (mrp_cursor m =? length (mrp_servable m))%nat.

Section Seam.
Context {E : Type} (assembly_from_value : Value -> result string MemoryAssembly).
Implicit Types s : Live (MemoryWorld E).

Definition set_env (env : E) s : Live (MemoryWorld E) :=
  mkLive (lv_clocks s) (lv_journal s) (mkMemoryWorld env (mw_replay (lv_env s))).
Definition set_replay (m : MemoryReplay) s : Live (MemoryWorld E) :=
  mkLive (lv_clocks s) (lv_journal s) (mkMemoryWorld (mw_env (lv_env s)) m).

Definition parent_opt (parent : option string) (d : EventDraft) : EventDraft :=
  match parent with Some p => with_parent p d | None => d end.

(** The instant a read is resolved at: declared, or one reading of the
    run's clock. *)
Definition resolve_as_of (q : MemoryQuery) s : DateTime * Live (MemoryWorld E) :=
  match mq_as_of q with Some t => (t, s) | None => live_now s end.

Definition read_draft (request : Value) (a : MemoryAssembly) (latency_ms : N) (parent : option string) :
    EventDraft :=
  parent_opt parent
    (with_latency_ms latency_ms
      (with_output (assembly_value a) (with_input request (draft_new KMemoryRead ReadOnly)))).

(** A live read: query the store between two readings of the clock, assemble,
    journal. *)
Definition read_live (store : MemoryStore E) (resolved : MemoryQuery) (as_of : DateTime)
    (b : ContextBudget) (parent : option string) s : res MemoryAssembly * Live (MemoryWorld E) :=
  let request := memory_read_request resolved b in
  let '(started, s1) := live_now s in
  let '(records, env) := ms_query store resolved as_of (mw_env (lv_env s1)) in
  let s2 := set_env env s1 in
  match records with
  | Err e => (Err e, s2)
  | Ok records =>
      let '(ended, s3) := live_now s2 in
      match assemble_for powf records resolved as_of b (ms_utility_bps store (mw_env (lv_env s3))) with
      | Err e => (Err e, s3)
      | Ok a => (Ok a, (live_record (read_draft request a (latency started ended) parent) s3).2)
      end
  end.

(** A replayed read: serve, read the clock as the recording did, re-journal. *)
Definition read_replay (resolved : MemoryQuery) (b : ContextBudget) (parent : option string) s :
    res MemoryAssembly * Live (MemoryWorld E) :=
  let '(served, m) := memory_serve (memory_read_request resolved b) (mw_replay (lv_env s)) in
  let s1 := set_replay m s in
  match served with
  | Err e => (Err e, s1)
  | Ok served =>
      let s2 := (live_now (live_now s1).2).2 in
      let parent := match parent with
                    | Some p => p
                    | None => default EmptyString (ev_parent (sv_event served))
                    end in
      let s3 := (live_record (with_parent parent (recorded_draft served)) s2).2 in
      (match sv_output served with
       | None => Err (EReplay ("recorded memory read at seq " ++ pretty (ev_seq (sv_event served))
                        ++ " carries no assembly payload — the journal is inconsistent"))
       | Some v => match assembly_from_value v with Ok a => Ok a | Err e => Err (ESerialization e) end
       end, s3)
  end.

(** [JournaledMemory::read]. *)
Definition memory_read (source : MemorySource E) (q : MemoryQuery) (b : ContextBudget)
    (parent : option string) s : res MemoryAssembly * Live (MemoryWorld E) :=
  let '(as_of, s1) := resolve_as_of q s in
  let resolved := with_as_of as_of q in
  match source with
  | SourceStore store => read_live store resolved as_of b parent s1
  | SourceReplay => read_replay resolved b parent s1
  end.

(** [JournaledMemory::write]. *)
Definition memory_write (source : MemorySource E) (r : MemoryRecord) (parent : option string) s :
    res string * Live (MemoryWorld E) :=
  match source with
  | SourceStore store =>
      let '(out, env) := ms_put store r (mw_env (lv_env s)) in
      let s1 := set_env env s in
      match out with
      | Err e => (Err e, s1)
      | Ok _ =>
          let draft :=
            with_output (record_value r)
              (with_input (jobj [("effect_key", Str (memory_effect_key (mr_scope r) (mr_memory_id r)));
                                 ("memory_id", Str (mr_memory_id r))])
                (draft_new KMemoryWrite Idempotent)) in
          (Ok (mr_memory_id r), (live_record (parent_opt parent draft) s1).2)
      end
  | SourceReplay =>
      (Err (EReplay ("memory writes are not served during replay: the run issued a write the recorded "
              ++ "evidence does not contain — the replayed run has diverged from its evidence")), s)
  end.
End Seam.
End Stores.
