(* ===== verification/MemoryFacts.v ===== *)
(** * Properties of governed memory *)

From Stdlib Require Import String Floats.SpecFloat.
From S2P Require Import Prelude Containers Json Error Record Meter Effects Replay Text Order Memory MemoryPlans.
Local Open Scope string_scope.

(** ** Ranking *)

#[export] Instance comparator_magnitude : Comparator magnitude_cmp.
Proof.
  unfold magnitude_cmp. apply (comparator_then (fun x y => Z.compare x.2 y.2)); [apply comparator_on, _|].
  apply (comparator_on fst). split; intros *.
  - apply Pos.compare_antisym.
  - by intros ->%Pos.compare_eq.
  - rewrite !Pos.compare_lt_iff. lia.
Qed.

#[export] Instance comparator_total_cmp : Comparator total_cmp.
Proof.
  unfold total_cmp. split.
  - intros x y. rewrite (cmp_mirror (f64_class x)). destruct (Z.compare_spec (f64_class x) (f64_class y)) as [E| |]; [|done..].
    destruct x as [[]|[]| |[] m e], y as [[]|[]| |[] n f]; try done; cbn [then_with CompOpp]; apply cmp_mirror.
  - intros x y z. destruct (Z.compare_spec (f64_class x) (f64_class y)) as [E| |]; [|done..]. rewrite E.
    destruct (Z.compare_spec (f64_class y) (f64_class z)) as [E'| |]; [|done..].
    destruct x as [[]|[]| |[] m e], y as [[]|[]| |[] n f], z as [[]|[]| |[] k g]; try done; cbn [then_with].
    + rewrite (cmp_mirror (m, e) (k, g)), (cmp_mirror (n, f) (k, g)), (cmp_mirror (m, e) (n, f)).
      intros Hc. by rewrite (cmp_congr (m, e) (n, f)) by (by destruct (magnitude_cmp (m, e) (n, f))).
    + apply cmp_congr.
  - intros x y z.
    destruct (Z.compare_spec (f64_class x) (f64_class y)) as [E|L|]; [| |done];
      destruct (Z.compare_spec (f64_class y) (f64_class z)) as [E'|L'|]; try done.
    + rewrite E, E', Z.compare_refl.
      destruct x as [[]|[]| |[] m e], y as [[]|[]| |[] n f], z as [[]|[]| |[] k g]; try done; cbn [then_with].
      * intros H1 H2. by apply (cmp_lt_trans _ (n, f)).
      * apply cmp_lt_trans.
    + intros _ _. by rewrite E, (proj2 (Z.compare_lt_iff _ _) L').
    + intros _ _. by rewrite <- E', (proj2 (Z.compare_lt_iff _ _) L).
    + intros _ _. assert (f64_class x < f64_class z)%Z as ->%Z.compare_lt_iff by lia. done.
Qed.

#[export] Instance comparator_declared : Comparator declared_cmp.
Proof.
  unfold declared_cmp.
  apply comparator_then; [apply (comparator_rev (fun a b => Z.compare (mr_priority a) (mr_priority b))), comparator_on, _|].
  apply comparator_then;
    [apply (comparator_rev (fun a b => total_cmp (f64_of (mr_confidence a)) (f64_of (mr_confidence b))));
     apply (comparator_on (fun r => f64_of (mr_confidence r))), _|].
  apply comparator_then; [apply (comparator_rev (fun a b => Z.compare (mr_created_at a) (mr_created_at b)))|];
    apply comparator_on, _.
Qed.

Section Assembly.
Context `{Codec, Unicode} (powf : spec_float -> spec_float -> spec_float).

(** The order an assembly packs in. *)
Definition rank_cmp (q : MemoryQuery) (now : DateTime) (utility : string -> option N) :
    MemoryRecord -> MemoryRecord -> comparison :=
  match mq_text q with
  | None => declared_cmp
  | Some text =>
      let w := weigh powf q text now utility in
      fun a c => then_with (total_cmp (w c) (w a)) (declared_cmp a c)
  end.

#[export] Instance comparator_rank q now utility : Comparator (rank_cmp q now utility).
Proof.
  unfold rank_cmp. destruct (mq_text q) as [text|]; [|apply _].
  apply comparator_then; [|apply _].
  apply (comparator_rev (fun a c => total_cmp (weigh powf q text now utility a) (weigh powf q text now utility c))).
  apply comparator_on, _.
Qed.

Lemma assemble_for_unfold records q now b utility :
  assemble_for powf records q now b utility
  = pack_ranked (sort_by (cmp_leb (rank_cmp q now utility)) records) b.
Proof. unfold assemble_for, rank_cmp. by destruct (mq_text q). Qed.

Lemma rank_same_id q now utility a c :
  rank_cmp q now utility a c = Eq -> mr_memory_id a = mr_memory_id c.
Proof.
  unfold rank_cmp. destruct (mq_text q); rewrite ?then_with_eq; unfold declared_cmp;
    rewrite !then_with_eq, str_compare_eq; tauto.
Qed.

Lemma distinct_same (l : list MemoryRecord) a c :
  NoDup (map mr_memory_id l) -> a ∈ l -> c ∈ l -> mr_memory_id a = mr_memory_id c -> a = c.
Proof.
  induction l as [|x l IH]; simpl; [by intros _ ?%not_elem_of_nil|].
  rewrite NoDup_cons, !elem_of_cons. intros [Hx Hl] [->|Ha] [->|Hc] He; [done| | |by apply IH];
    destruct Hx; [rewrite He|rewrite <- He]; by apply list_elem_of_fmap_2.
Qed.

(** ** Packing *)
Definition cost_sum (b : ContextBudget) (l : list MemoryRecord) : N :=
  foldr (fun r n => record_cost b r + n)%N 0%N l.

Lemma u32_add_exact (a b max : N) :
  (max < u32_max)%N -> (u32_add a b <= max)%N -> u32_add a b = (a + b)%N.
Proof. unfold u32_add. lia. Qed.

Lemma pack_loop_spec (b : ContextBudget) (ranked : list MemoryRecord) :
  (cb_max_tokens b < u32_max)%N ->
  forall used packed, (used <= cb_max_tokens b)%N ->
  match pack_loop b ranked used packed with
  | Ok (out, used', truncated) =>
      exists taken rest, ranked = (taken ++ rest)%list /\ out = (packed ++ taken)%list
        /\ used' = (used + cost_sum b taken)%N /\ (used' <= cb_max_tokens b)%N
        /\ truncated = negb (is_nil rest) /\ (cb_overflow b = OverflowFail -> rest = [])
        /\ (forall r rest', rest = r :: rest' -> cb_max_tokens b < u32_add used' (record_cost b r))%N
  | Err _ => cb_overflow b = OverflowFail /\ (cb_max_tokens b < used + cost_sum b ranked)%N
  end.
Proof.
  intros Hmax. induction ranked as [|r ranked IH]; intros used packed Hu; simpl.
  - exists [], []. rewrite !app_nil_r. split_and!; try done. by unfold cost_sum; simpl; rewrite N.add_0_r.
  - destruct (N.ltb_spec (cb_max_tokens b) (u32_add used (record_cost b r))) as [Hlt|Hge].
    + destruct (cb_overflow b) eqn:Eo.
      * exists [], (r :: ranked). rewrite !app_nil_r. unfold cost_sum; simpl; rewrite N.add_0_r. split_and!; try done.
        intros ? ? [= <- <-]. done.
      * split; [done|]. unfold u32_add in Hlt. lia.
    + rewrite (u32_add_exact _ _ _ Hmax Hge) in Hge |- *.
      specialize (IH (used + record_cost b r)%N (packed ++ [r])%list Hge).
      destruct (pack_loop b ranked _ _) as [[[out used'] tr]|e].
      * destruct IH as (taken & rest & -> & -> & -> & Hle & -> & Hf & Hn).
        exists (r :: taken), rest. simpl. rewrite N.add_assoc, <- app_assoc. split_and!; try done.
      * destruct IH as [? ?]. split; [done|lia].
Qed.

(** What an assembly promises of the records it was given. *)
Definition packs (b : ContextBudget) (cmp : MemoryRecord -> MemoryRecord -> comparison)
    (records : list MemoryRecord) (a : MemoryAssembly) : Prop :=
  exists rest, records ≡ₚ (ma_records a ++ rest)%list
    /\ LebSorted (cmp_leb cmp) (ma_records a ++ rest)
    /\ ma_memory_ids a = map mr_memory_id (ma_records a)
    /\ ta_used_tokens (ma_token_accounting a) = cost_sum b (ma_records a)
    /\ (cost_sum b (ma_records a) <= cb_max_tokens b)%N
    /\ ma_omitted a = length rest /\ (cb_overflow b = OverflowFail -> rest = []) /\ ma_truncated a = negb (is_nil rest)
    /\ (forall r rest', rest = r :: rest' -> cb_max_tokens b < cost_sum b (ma_records a) + record_cost b r)%N.

Lemma pack_ranked_packs (b : ContextBudget) (cmp : MemoryRecord -> MemoryRecord -> comparison)
    `{!Comparator cmp} (records : list MemoryRecord) :
  (cb_max_tokens b < u32_max)%N ->
  match pack_ranked (sort_by (cmp_leb cmp) records) b with
  | Ok a => packs b cmp records a
  | Err _ => cb_overflow b = OverflowFail
             /\ (cb_max_tokens b < cost_sum b (sort_by (cmp_leb cmp) records))%N
  end.
Proof.
  intros Hmax. unfold pack_ranked.
  pose proof (pack_loop_spec b (sort_by (cmp_leb cmp) records) Hmax 0 [] (N.le_0_l _)) as Hp.
  destruct (pack_loop b _ 0 []) as [[[out used] tr]|e]; simpl; [|by rewrite N.add_0_l in Hp].
  destruct Hp as (taken & rest & Hr & -> & -> & Hle & -> & Hf & Hn). rewrite N.add_0_l in *.
  exists rest. simpl. rewrite <- Hr. split_and!; try done.
  - by rewrite sort_by_perm.
  - apply sort_cmp_sorted, _.
  - rewrite Hr, length_app. lia.
  - intros r rest' He. specialize (Hn r rest' He). unfold u32_add in Hn. lia.
Qed.

Lemma cost_sum_perm (b : ContextBudget) : Proper ((≡ₚ) ==> (=)) (cost_sum b).
Proof. intros l l' Hp. induction Hp; simpl; lia. Qed.
End Assembly.

(** C21: an assembly packs the ranked records. Under a budget, the records
    of distinct ids split into a packed part and an omitted rest that
    together are the given records in rank order; the packed ids, tokens,
    count and truncation flag say exactly that, within the budget, and the
    first omitted record would not have fit; a hard budget fails exactly when
    the records do not all fit. The order the store returns them in changes
    nothing. *)
Theorem assembly_exact `{Codec, Unicode} (powf : spec_float -> spec_float -> spec_float)
    (records : list MemoryRecord) (q : MemoryQuery) (now : DateTime) (b : ContextBudget)
    (utility : string -> option N) :
  (cb_max_tokens b < u32_max)%N -> NoDup (map mr_memory_id records) ->
  match assemble_for powf records q now b utility with
  | Ok a => packs b (rank_cmp powf q now utility) records a
  | Err _ => cb_overflow b = OverflowFail /\ (cb_max_tokens b < cost_sum b records)%N
  end
  /\ forall records', records ≡ₚ records' ->
       assemble_for powf records' q now b utility = assemble_for powf records q now b utility.
Proof.
  intros Hmax Hnd. split.
  - rewrite assemble_for_unfold.
    pose proof (pack_ranked_packs b (rank_cmp powf q now utility) records Hmax) as Hp.
    destruct (pack_ranked _ b); [done|]. by rewrite (cost_sum_perm b _ _ (sort_by_perm _ records)) in Hp.
  - intros records' Hp. rewrite !assemble_for_unfold. f_equal. symmetry.
    apply sort_cmp_unique; [apply _|done|]. intros x y Hx Hy He%rank_same_id. by eapply distinct_same.
Qed.
