(* ===== verification/MemoryPlansFacts.v ===== *)
(** * Properties of forgetting, conflicts and consolidation *)

From Stdlib Require Import String Floats.SpecFloat.
From S2P Require Import Prelude Containers Json Error Record Meter Declaration Effects Replay Text Order Memory MemoryPlans MemoryFacts.
Local Open Scope string_scope.

(** ** Forgetting *)
Section Forgetting.
Context (universe : list MemoryRecord) (targets : list string).

(** What a forgetting takes with it: the targets, and every summary that
    names something taken. *)
Inductive doomed : string -> Prop :=
| doomed_target r : r ∈ universe -> mr_memory_id r ∈ targets -> doomed (mr_memory_id r)
| doomed_summary r s : r ∈ universe -> mr_kind r = KindSummary -> s ∈ sources_of r -> doomed s ->
    doomed (mr_memory_id r).

Lemma set_insert_elem (x y : string) (s : list string) : y ∈ set_insert x s <-> y = x \/ y ∈ s.
Proof.
  unfold set_insert. destruct (decide (x ∈ s)); [|rewrite elem_of_app, list_elem_of_singleton; tauto].
  split; [by right|]. by intros [->|?].
Qed.

Lemma set_insert_NoDup (x : string) (s : list string) : NoDup s -> NoDup (set_insert x s).
Proof.
  unfold set_insert. destruct (decide (x ∈ s)); [done|]. intros Hs. apply NoDup_app.
  split_and!; [done| |apply NoDup_singleton]. by intros y Hy ->%list_elem_of_singleton.
Qed.

Lemma falls_spec (removed : list string) (r : MemoryRecord) :
  falls removed r = true <->
  mr_kind r = KindSummary /\ (mr_memory_id r ∉ removed) /\ exists s, s ∈ sources_of r /\ s ∈ removed.
Proof.
  unfold falls. rewrite !andb_true_iff, negb_true_iff, bool_decide_eq_true, bool_decide_eq_false.
  rewrite existsb_exists. setoid_rewrite bool_decide_eq_true. setoid_rewrite <- list_elem_of_In. tauto.
Qed.

(** What a pass keeps of the set, and what it says when it did not grow. *)
Record passed (records : list MemoryRecord) (grew : bool) (s s' : list string) (grew' : bool) : Prop := {
  pa_sub : s ⊆ s';
  pa_nodup : NoDup s -> NoDup s';
  pa_doomed : records ⊆ universe -> Forall doomed s -> Forall doomed s';
  pa_ids : forall x, x ∈ s' -> x ∈ s \/ x ∈ map mr_memory_id records;
  pa_more : grew = false -> grew' = true -> length s < length s';
  pa_still : grew' = false -> grew = false /\ s' = s /\ Forall (fun r => falls s r = false) records;
}.

Lemma forget_pass_passes (records : list MemoryRecord) :
  forall s grew s' grew', forget_pass records s grew = (s', grew') -> passed records grew s s' grew'.
Proof.
  induction records as [|r records IH]; intros s grew s' grew'; simpl.
  - intros [= <- <-]. split; try done; [auto|congruence].
  - destruct (falls s r) eqn:Ef; intros Hp.
    + destruct (IH _ _ _ _ Hp) as [Hsub Hnd Hd Hids _ Hst]. apply falls_spec in Ef as (Hk & Hn & x & Hx & Hxs).
      assert (set_insert (mr_memory_id r) s = (s ++ [mr_memory_id r])%list) as Hi
        by (unfold set_insert; by rewrite decide_False).
      split.
      * intros y Hy. apply Hsub, set_insert_elem. by right.
      * intros Hs. by apply Hnd, set_insert_NoDup.
      * intros Hu Hall. apply Hd; [set_solver|]. rewrite Hi, Forall_app, Forall_singleton.
        split; [done|]. eapply doomed_summary; [set_solver|done..|]. by eapply Forall_forall in Hall.
      * intros y [Hy|Hy]%Hids; [apply set_insert_elem in Hy as [->|?]|]; [|by left|]; right; set_solver.
      * intros _ Hg. assert (length (s ++ [mr_memory_id r]) <= length s') as Hl; [|rewrite length_app in Hl; simpl in Hl; lia].
        rewrite <- Hi. clear -Hp. revert Hp. generalize (set_insert (mr_memory_id r) s), true.
        induction records as [|q l IHl]; intros t b; simpl; [by intros [= -> ->]|].
        destruct (falls t q) eqn:Ef; [|apply IHl]. intros Hl%IHl. etrans; [|exact Hl].
        unfold set_insert. destruct (decide _); [done|]. rewrite length_app. simpl. lia.
      * intros Hg. by destruct (Hst Hg) as [? _].
    + destruct (IH _ _ _ _ Hp) as [Hsub Hnd Hd Hids Hm Hst]. split; try done.
      * intros Hu. apply Hd. set_solver.
      * intros y [Hy|Hy]%Hids; [by left|]. right. set_solver.
      * intros Hg. destruct (Hst Hg) as (? & ? & ?). split_and!; [done..|]. by constructor.
Qed.

(** The loop reaches a set no summary outside it depends on. *)
Lemma forget_loop_closes (fuel : nat) (s : list string) :
  NoDup s -> s ⊆ map mr_memory_id universe -> Forall doomed s ->
  length universe < fuel + length s ->
  let s' := forget_loop fuel universe s in
  NoDup s' /\ s ⊆ s' /\ Forall doomed s' /\ Forall (fun r => falls s' r = false) universe.
Proof.
  revert s. induction fuel as [|fuel IH]; intros s Hnd Hsub Hd Hlen; simpl.
  - exfalso. assert (length s <= length (map mr_memory_id universe)) as Hl.
    { apply submseteq_length, NoDup_submseteq; [done|]. intros x Hx. by apply Hsub. }
    rewrite length_map in Hl. lia.
  - destruct (forget_pass universe s false) as [s1 grew] eqn:Ep.
    destruct (forget_pass_passes _ _ _ _ _ Ep) as [H1 H2 H3 H4 H5 H6]. destruct grew.
    + destruct (IH s1) as (?&?&?&?); [auto|intros x [?|?]%H4; auto|by apply H3| |].
      * specialize (H5 eq_refl eq_refl). lia.
      * split_and!; [done| |done..]. by etrans.
    + destruct (H6 eq_refl) as (_ & -> & ?). done.
Qed.

Lemma targeted_spec :
  NoDup (targeted targets universe)
  /\ forall x, x ∈ targeted targets universe <-> x ∈ targets /\ x ∈ map mr_memory_id universe.
Proof.
  unfold targeted. set (l := List.filter _ universe).
  assert (forall s, NoDup s -> NoDup (fold_left (fun s r => set_insert (mr_memory_id r) s) l s)
     /\ forall x, x ∈ fold_left (fun s r => set_insert (mr_memory_id r) s) l s
                  <-> x ∈ s \/ x ∈ map mr_memory_id l) as Hf.
  { clearbody l. induction l as [|r l IH]; intros s Hs; simpl; [split; [done|]; set_solver|].
    destruct (IH (set_insert (mr_memory_id r) s)) as [H1 H2]; [by apply set_insert_NoDup|].
    split; [done|]. intros x. rewrite H2, set_insert_elem, elem_of_cons. tauto. }
  destruct (Hf []) as [H1 H2]; [constructor|]. split; [done|]. intros x. rewrite H2.
  subst l. rewrite !list_elem_of_fmap. setoid_rewrite list_elem_of_In. setoid_rewrite List.filter_In.
  setoid_rewrite bool_decide_eq_true. split.
  - intros [[]|(r & -> & ? & ?)]. split; [by rewrite <- list_elem_of_In|]. eauto.
  - rewrite <- list_elem_of_In. intros [? (r & -> & ?)]. right. eauto.
Qed.

Definition erased : list string := forget_loop (S (length universe)) universe (targeted targets universe).

Lemma erased_spec :
  NoDup erased /\ (forall x, x ∈ erased <-> doomed x) /\ Forall (fun r => falls erased r = false) universe.
Proof.
  destruct targeted_spec as [Hnd Ht].
  destruct (forget_loop_closes (S (length universe)) (targeted targets universe)) as (H1 & H2 & H3 & H4).
  - done.
  - intros x Hx. by apply Ht.
  - apply Forall_forall. intros x [Hx (r & -> & Hr)%list_elem_of_fmap]%Ht. by apply doomed_target.
  - lia.
  - split_and!; [done| |done]. intros x. split; [by apply (proj1 (Forall_forall _ _) H3)|].
    induction 1 as [r Hr Hin|r s Hr Hk Hs _ IH].
    + apply H2, Ht. split; [done|]. by apply list_elem_of_fmap_2.
    + destruct (decide (mr_memory_id r ∈ erased)) as [|Hn]; [done|]. exfalso.
      apply (proj1 (Forall_forall _ _) H4) in Hr as Hf. apply not_true_iff_false in Hf. apply Hf.
      apply falls_spec. eauto.
Qed.

Lemma doomed_present (x : string) : doomed x -> x ∈ map mr_memory_id universe.
Proof. destruct 1; by apply list_elem_of_fmap_2. Qed.

Lemma filtered_sorted (p : string -> bool) (l : list string) :
  NoDup l -> let l' := sort_by str_leb (List.filter p l) in
  LebSorted str_leb l' /\ NoDup l' /\ forall x, x ∈ l' <-> x ∈ l /\ p x = true.
Proof.
  intros Hnd. simpl. split_and!.
  - apply sort_by_sorted; [apply str_leb_total|apply str_leb_trans].
  - rewrite sort_by_perm. apply NoDup_ListNoDup, List.NoDup_filter, NoDup_ListNoDup, Hnd.
  - intros x. by rewrite sort_by_elem, !list_elem_of_In, List.filter_In.
Qed.
End Forgetting.

(** C22: planning a forgetting. The plan's two lists are sorted and without
    repetitions; the forgotten ids are the targets that exist, the
    invalidated ones exactly the summaries that depend on them through any
    chain of named sources; and afterwards no remaining summary names
    anything erased. *)
Theorem plan_forget_exact (universe : list MemoryRecord) (targets : list string) :
  let p := plan_forget universe targets in
  LebSorted str_leb (fp_forgotten p) /\ NoDup (fp_forgotten p)
  /\ LebSorted str_leb (fp_invalidated p) /\ NoDup (fp_invalidated p)
  /\ (forall x, x ∈ fp_forgotten p <-> x ∈ targets /\ x ∈ map mr_memory_id universe)
  /\ (forall x, x ∈ fp_invalidated p <-> doomed universe targets x /\ x ∉ targets)
  /\ forall r s, r ∈ universe -> mr_kind r = KindSummary -> s ∈ sources_of r ->
       s ∈ (fp_forgotten p ++ fp_invalidated p)%list ->
       mr_memory_id r ∈ (fp_forgotten p ++ fp_invalidated p)%list.
Proof.
  simpl. fold (erased universe targets).
  destruct (erased_spec universe targets) as (Hnd & Hd & _).
  destruct (filtered_sorted (fun id => bool_decide (id ∈ targets)) _ Hnd) as (Hs & Hn & Hf).
  set (forgotten := sort_by str_leb (List.filter (fun id => bool_decide (id ∈ targets)) (erased universe targets))) in *.
  destruct (filtered_sorted (fun id => negb (bool_decide (id ∈ forgotten))) _ Hnd) as (Hs' & Hn' & Hi).
  set (invalidated := sort_by str_leb (List.filter (fun id => negb (bool_decide (id ∈ forgotten))) (erased universe targets))) in *.
  assert (forall x, x ∈ forgotten <-> x ∈ targets /\ x ∈ map mr_memory_id universe) as Hf'.
  { intros x. rewrite Hf, Hd, bool_decide_eq_true. split; [by intros [?%doomed_present ?]|].
    intros [? (r & -> & ?)%list_elem_of_fmap]. split; [by apply doomed_target|done]. }
  assert (forall x, x ∈ invalidated <-> doomed universe targets x /\ x ∉ targets) as Hi'.
  { intros x. rewrite Hi, Hd, negb_true_iff, bool_decide_eq_false, Hf'. split; intros [Hx Hn0];
      (split; [done|]); [|tauto]. intros Ht. apply Hn0. split; [done|]. by eapply doomed_present. }
  split_and!; [done..|]. intros r s Hr Hk Hsr Hse. rewrite elem_of_app in Hse |- *.
  assert (doomed universe targets s) as Hds
    by (destruct Hse as [[? ?]%Hf|[? ?]%Hi']; [by apply Hd|done]).
  assert (doomed universe targets (mr_memory_id r)) as Hdr by by eapply doomed_summary.
  destruct (decide (mr_memory_id r ∈ targets)).
  - left. apply Hf'. split; [done|]. by apply list_elem_of_fmap_2.
  - right. by apply Hi'.
Qed.

(** ** Conflicts *)

Lemma append_inj (p a b : string) : p ++ a = p ++ b -> a = b.
Proof. induction p as [|c p IH]; [done|]. intros [= H]. auto. Qed.

Lemma as_address_inj (a b : ScopeAddress) : as_address a = as_address b -> a = b.
Proof.
  destruct a as [sa a], b as [sb b]. unfold as_address. cbn [sa_scope sa_id]. intros He.
  assert (sa = sb) as ->. { destruct sa, sb; try done; discriminate He. }
  apply append_inj, append_inj in He. by subst.
Qed.

#[export] Instance comparator_group : Comparator group_cmp.
Proof. apply comparator_then; apply comparator_on, _. Qed.

#[export] Instance comparator_strings : Comparator strings_cmp.
Proof.
  split.
  - intros x. induction x as [|a x IH]; intros [|b y]; try done. simpl.
    rewrite IH, (cmp_mirror (cmp := String.compare) a b). by destruct (String.compare a b).
  - intros x. induction x as [|a x IH]; intros [|b y] z; try done. simpl.
    rewrite then_with_eq. intros [Hab Hxy]. destruct z as [|c z]; [done|].
    by rewrite (cmp_congr (cmp := String.compare) a b c), (IH y z).
  - intros x. induction x as [|a x IH]; intros [|b y] [|c z]; try done. simpl.
    destruct (String.compare a b) eqn:E1; simpl; try done.
    + rewrite (cmp_congr (cmp := String.compare) a b c) by done. intros Hxy. destruct (String.compare b c); try done. by apply IH.
    + intros _. destruct (String.compare b c) eqn:E2; simpl; try done; intros _.
      * apply str_compare_eq in E2 as <-. by rewrite E1.
      * by rewrite (cmp_lt_trans (cmp := String.compare) a b c).
Qed.

#[export] Instance comparator_conflict : Comparator conflict_cmp.
Proof.
  apply comparator_then; [apply (comparator_on (fun c => as_address (mc_scope c))), _|].
  apply comparator_then; apply comparator_on, _.
Qed.

Lemma group_cmp_eq (a b : string * string) : group_cmp a b = Eq <-> a = b.
Proof.
  unfold group_cmp. rewrite then_with_eq, !str_compare_eq. destruct a, b; simpl.
  split; [by intros [-> ->]|by intros [= -> ->]].
Qed.

Section Groups.
Definition Groups : Type := list ((string * string) * list MemoryRecord).
Implicit Types gs : Groups.

Definition grouped_order gs : Prop := StronglySorted (fun x y => group_cmp x.1 y.1 = Lt) gs.

Lemma group_push_keys k r gs x : x ∈ map fst (group_push k r gs) <-> x = k \/ x ∈ map fst gs.
Proof.
  induction gs as [|[k' rs] gs IH]; simpl; [set_solver|].
  destruct (group_cmp k k') eqn:E; simpl; rewrite ?elem_of_cons, ?IH; [|set_solver..].
  apply group_cmp_eq in E as ->. set_solver.
Qed.

Lemma group_push_order k r gs : grouped_order gs -> grouped_order (group_push k r gs).
Proof.
  unfold grouped_order. induction 1 as [|[k' rs] gs Hs IH Hall]; simpl; [by repeat constructor|].
  destruct (group_cmp k k') eqn:E; constructor; try done.
  - by constructor.
  - constructor; [done|]. eapply Forall_impl; [exact Hall|]. simpl. intros y. by apply cmp_lt_trans.
  - apply Forall_forall. intros [y ys] Hy. simpl.
    assert (y = k \/ y ∈ map fst gs) as [->|Hin].
    { apply (group_push_keys k r). by apply (list_elem_of_fmap_2 fst) in Hy. }
    + by rewrite (cmp_mirror k k'), E.
    + apply list_elem_of_fmap in Hin as ([y' ys'] & -> & Hin). by eapply Forall_forall in Hall.
Qed.

(** The members of the group under a key. *)
Definition members gs (k : string * string) (r : MemoryRecord) : Prop :=
  exists rs, (k, rs) ∈ gs /\ r ∈ rs.

Lemma group_push_members k r gs k' r' :
  members (group_push k r gs) k' r' <-> members gs k' r' \/ k' = k /\ r' = r.
Proof.
  unfold members. induction gs as [|[k1 rs1] gs IH]; simpl.
  - split.
    + intros (rs & [= -> ->]%list_elem_of_singleton & ->%list_elem_of_singleton). by right.
    + intros [(rs & []%not_elem_of_nil & _)|[-> ->]]. exists [r]. set_solver.
  - destruct (group_cmp k k1) eqn:E.
    + apply group_cmp_eq in E as <-. setoid_rewrite elem_of_cons. split.
      * intros (rs & [[= -> ->]|Hin] & Hr); [|left; eauto].
        apply elem_of_app in Hr as [Hr| ->%list_elem_of_singleton]; [left; eauto|by right].
      * intros [(rs & [[= -> ->]|Hin] & Hr)|[-> ->]]; [|by eauto|]; eexists; (split; [by left|]); set_solver.
    + setoid_rewrite (elem_of_cons ((k1, rs1) :: gs)). split.
      * intros (rs & [[= -> ->]|Hin] & Hr); [apply list_elem_of_singleton in Hr as ->; by right|left; eauto].
      * intros [(rs & Hin & Hr)|[-> ->]]; [eauto|]. exists [r]. set_solver.
    + setoid_rewrite elem_of_cons. split.
      * intros (rs & [[= -> ->]|Hin] & Hr); [left; eauto|].
        destruct (proj1 IH) as [(rs' & ? & ?)|?]; [by eauto|left; eauto|by right].
      * intros [(rs & [[= -> ->]|Hin] & Hr)|He]; [eauto| |];
          (destruct (proj2 IH) as (rs' & ? & ?); [by eauto|eauto]).
Qed.

Definition group_key (r : MemoryRecord) : option (string * string) :=
  (fun key => (as_address (mr_scope r), key)) <$> mr_key r.

Lemma groups_of_spec (l : list MemoryRecord) :
  grouped_order (groups_of l)
  /\ forall k r, members (groups_of l) k r <-> r ∈ l /\ group_key r = Some k.
Proof.
  unfold groups_of.
  assert (forall gs, grouped_order gs ->
    let gs' := fold_left (fun gs r => match mr_key r with
                | Some key => group_push (as_address (mr_scope r), key) r gs | None => gs end) l gs in
    grouped_order gs' /\ forall k r, members gs' k r <-> members gs k r \/ r ∈ l /\ group_key r = Some k) as Hf.
  { induction l as [|r l IH]; intros gs Hgs; simpl; [split; [done|]; intros; rewrite elem_of_nil; tauto|].
    unfold group_key. destruct (mr_key r) as [key|] eqn:Ek.
    - destruct (IH _ (group_push_order (as_address (mr_scope r), key) r gs Hgs)) as [Ho Hm].
      split; [done|]. intros k r'. rewrite Hm, group_push_members, elem_of_cons. unfold group_key.
      split; [intros [[?|[-> ->]]|[? ?]]|intros [?|[[->|?] Hk]]]; try tauto.
      + right. split; [by left|]. by rewrite Ek.
      + rewrite Ek in Hk. simpl in Hk. injection Hk as <-. tauto.
    - destruct (IH _ Hgs) as [Ho Hm]. split; [done|]. intros k r'. rewrite Hm, elem_of_cons.
      unfold group_key. split; [tauto|]. intros [?|[[->|?] Hk]]; try tauto. by rewrite Ek in Hk. }
  destruct (Hf []) as [Ho Hm]; [constructor|]. split; [done|]. intros k r. rewrite Hm.
  split; [intros [(rs & []%not_elem_of_nil & _)|?]; done|by right].
Qed.

Lemma elem_of_concat {A : Type} (x : A) (ls : list (list A)) :
  x ∈ concat ls <-> exists l, x ∈ l /\ l ∈ ls.
Proof.
  rewrite list_elem_of_In, in_concat. setoid_rewrite <- list_elem_of_In. split; intros (l & ? & ?); eauto.
Qed.

Lemma list_filter_sublist {A : Type} (f : A -> bool) (l : list A) : sublist (List.filter f l) l.
Proof. induction l as [|x l IH]; simpl; [done|]. destruct (f x); by constructor. Qed.

Lemma group_push_sublist (p : list MemoryRecord) k r gs :
  Forall (fun g => sublist g.2 p) gs -> Forall (fun g => sublist g.2 (p ++ [r])%list) (group_push k r gs).
Proof.
  assert (forall rs, sublist rs p -> sublist rs (p ++ [r])%list) as Hw by (intros rs ?; by apply sublist_inserts_r).
  assert (forall gs, Forall (fun g => sublist g.2 p) gs -> Forall (fun g => sublist g.2 (p ++ [r])%list) gs) as Hws.
  { intros gs' H. eapply Forall_impl; [exact H|]. simpl. auto. }
  assert (sublist [r] (p ++ [r])%list) by (by apply (sublist_inserts_l _ [r] [r])).
  induction 1 as [|[k' rs] gs Hrs Hgs IH]; simpl; [by repeat constructor|].
  destruct (group_cmp k k'); repeat constructor; simpl; auto. by apply sublist_app.
Qed.

Lemma groups_sublist (l : list MemoryRecord) : Forall (fun g => sublist g.2 l) (groups_of l).
Proof.
  unfold groups_of.
  assert (forall p gs, Forall (fun g => sublist g.2 p) gs ->
    Forall (fun g => sublist g.2 (p ++ l)%list)
      (fold_left (fun gs r => match mr_key r with
         | Some key => group_push (as_address (mr_scope r), key) r gs | None => gs end) l gs)) as Hf;
    [|apply (Hf [] []); constructor].
  induction l as [|r l IH]; intros p gs Hgs; simpl; [by rewrite app_nil_r|].
  rewrite (cons_middle r p l), app_assoc. destruct (mr_key r) as [key|]; apply IH; [by apply group_push_sublist|].
  eapply Forall_impl; [exact Hgs|]. simpl. intros g ?. by apply sublist_inserts_r.
Qed.

Lemma grouped_once gs k rs rs' :
  grouped_order gs -> (k, rs) ∈ gs -> (k, rs') ∈ gs -> rs = rs'.
Proof.
  unfold grouped_order. induction 1 as [|[k1 rs1] gs Hs IH Hall]; [by intros ?%not_elem_of_nil|].
  assert (forall k' ys, (k', ys) ∈ gs -> k' <> k1) as Hne.
  { intros k' ys Hin ->. eapply Forall_forall in Hall; [|exact Hin]. simpl in Hall.
    assert (group_cmp k1 k1 = Eq) by (by apply group_cmp_eq). congruence. }
  rewrite !elem_of_cons. intros [H1|H1] [H2|H2]; [by simplify_eq|..|by auto].
  - injection H1 as -> ->. by apply Hne in H2.
  - injection H2 as -> ->. by apply Hne in H1.
Qed.
End Groups.

Section ConflictPairs.
Context `{Codec}.

(** The pairs of a sorted group without repeated ids, in id order. *)
Lemma group_conflicts_elem (key : string) (l : list MemoryRecord) (c : MemoryConflict) :
  LebSorted id_leb l -> NoDup (map mr_memory_id l) ->
  c ∈ group_conflicts key l <->
  exists a b, a ∈ l /\ b ∈ l /\ str_lt (mr_memory_id a) (mr_memory_id b) /\ conflict_of key a b = Some c.
Proof.
  unfold LebSorted. induction 1 as [|a l Hs IH Hall]; simpl.
  { intros _. split; [by intros ?%not_elem_of_nil|]. by intros (? & ? & ?%not_elem_of_nil & _). }
  rewrite NoDup_cons. intros [Hn Hnd]. rewrite elem_of_app, list_elem_of_omap, (IH Hnd).
  assert (forall b, b ∈ l -> str_lt (mr_memory_id a) (mr_memory_id b)) as Hlt.
  { intros b Hb. eapply Forall_forall in Hall; [|exact Hb]. unfold id_leb in Hall.
    apply str_leb_spec in Hall as [?|He]; [done|]. destruct Hn. rewrite He. by apply list_elem_of_fmap_2. }
  setoid_rewrite elem_of_cons. split.
  - intros [(b & Hb & Hc)|(x & y & Hx & Hy & ? & ?)]; [exists a, b|exists x, y]; auto.
  - intros (x & y & [->|Hx] & [->|Hy] & Hxy & Hc).
    + by apply str_lt_irrefl in Hxy.
    + left. eauto.
    + apply Hlt in Hx. exfalso. eapply str_lt_irrefl, str_lt_trans; eauto.
    + right. eauto 6.
Qed.

(** Two live records of one scope and key that claim different things over
    one interval. *)
Definition contradict (universe : list MemoryRecord) (now : DateTime) (a b : MemoryRecord)
    (key : string) (o : ValidityWindow) : Prop :=
  a ∈ universe /\ b ∈ universe /\ live_record_at universe now a = true
  /\ live_record_at universe now b = true /\ mr_scope a = mr_scope b
  /\ mr_key a = Some key /\ mr_key b = Some key
  /\ str_lt (mr_memory_id a) (mr_memory_id b)
  /\ validity_overlap (mr_validity a) (mr_validity b) = Some o /\ same_content a b = false.

Lemma live_not_superseded universe now a b :
  b ∈ universe -> live_record_at universe now a = true ->
  bool_decide (mr_supersedes b = Some (mr_memory_id a)) = false.
Proof.
  unfold live_record_at. rewrite andb_true_iff, negb_true_iff, bool_decide_eq_false. intros Hb [Ha _].
  apply bool_decide_eq_false. intros Hs. apply Ha. unfold superseded_set. rewrite elem_of_app. left.
  apply list_elem_of_omap. eauto.
Qed.

Lemma conflict_of_live universe now key a b c :
  a ∈ universe -> b ∈ universe -> live_record_at universe now a = true -> live_record_at universe now b = true ->
  conflict_of key a b = Some c <->
  exists o, validity_overlap (mr_validity a) (mr_validity b) = Some o /\ same_content a b = false
            /\ c = mkConflict (mr_scope a) key [mr_memory_id a; mr_memory_id b] o.
Proof.
  intros Ha Hb La Lb. unfold conflict_of.
  rewrite (live_not_superseded universe now b a), (live_not_superseded universe now a b) by done. simpl.
  destruct (validity_overlap _ _) as [o|]; simpl; [|split; [done|by intros (? & ? & _)]].
  destruct (same_content a b); (split; [|by intros (? & [= <-] & ? & ->)]); [done|]. intros [= <-]. eauto.
Qed.
End ConflictPairs.

(** Conflicts are flagged exactly. Over records of distinct ids the
    review items are, in their declared order, precisely the pairs of live
    records (neither superseded nor expired) of one scope and one key whose
    validity overlaps and whose canonical content differs, each once under
    its ids in order and with the overlap. *)
Theorem conflicts_exact `{Codec} (universe : list MemoryRecord) (now : DateTime) :
  NoDup (map mr_memory_id universe) ->
  LebSorted (cmp_leb conflict_cmp) (detect_conflicts universe now)
  /\ forall c, c ∈ detect_conflicts universe now <->
       exists a b key o, contradict universe now a b key o
         /\ c = mkConflict (mr_scope a) key [mr_memory_id a; mr_memory_id b] o.
Proof.
  intros Hnd. split; [apply sort_cmp_sorted, _|]. intros c. unfold detect_conflicts.
  set (live := List.filter (live_record_at universe now) universe).
  assert (forall r, r ∈ live <-> r ∈ universe /\ live_record_at universe now r = true) as Hlive.
  { intros r. subst live. by rewrite !list_elem_of_In, List.filter_In. }
  destruct (groups_of_spec live) as [Ho Hm].
  assert (forall k rs, (k, rs) ∈ groups_of live -> forall r, r ∈ rs <-> r ∈ live /\ group_key r = Some k) as Hg.
  { intros k rs Hin r. rewrite <- Hm. split; [by exists rs|]. intros (rs' & Hin' & Hr).
    by rewrite (grouped_once _ _ _ _ Ho Hin Hin'). }
  assert (forall k rs, (k, rs) ∈ groups_of live -> NoDup (map mr_memory_id (sort_by id_leb rs))) as Hids.
  { intros k rs Hin. rewrite sort_by_perm. pose proof (groups_sublist live) as Hsub.
    eapply Forall_forall in Hsub; [|exact Hin]. simpl in Hsub.
    eapply sublist_NoDup; [exact Hnd|]. apply fmap_sublist. etrans; [exact Hsub|].
    apply list_filter_sublist. }
  rewrite sort_by_elem, elem_of_concat. split.
  - intros (cs & Hc & ([[addr key] rs] & -> & Hin)%list_elem_of_fmap). simpl in Hc. specialize (Hg _ _ Hin).
    apply group_conflicts_elem in Hc as (a & b & Ha & Hb & Hlt & Hc).
    + rewrite sort_by_elem, Hg in Ha, Hb. destruct Ha as [[Ha La]%Hlive Ka], Hb as [[Hb Lb]%Hlive Kb].
      apply (conflict_of_live universe now) in Hc as (o & Hv & Hs & ->); [|done..].
      exists a, b, key, o. split; [|done]. unfold group_key in Ka, Kb.
      destruct (mr_key a) eqn:Ea, (mr_key b) eqn:Eb; try done. simpl in *. simplify_eq.
      unfold contradict. split_and!; try done. by apply as_address_inj.
    + apply sort_by_sorted; unfold id_leb; eauto using str_leb_total, str_leb_trans.
    + by eapply Hids.
  - intros (a & b & key & o & (Ha & Hb & La & Lb & Hsc & Ka & Kb & Hlt & Hv & Hs) & ->).
    assert (members (groups_of live) (as_address (mr_scope a), key) a) as (rs & Hin & Har).
    { apply Hm. split; [by apply Hlive|]. unfold group_key. by rewrite Ka. }
    exists (group_conflicts key (sort_by id_leb rs)). split.
    + apply group_conflicts_elem; [apply sort_by_sorted; unfold id_leb; eauto using str_leb_total, str_leb_trans|by eapply Hids|].
      exists a, b. rewrite !sort_by_elem. split_and!; [done| |done|].
      * apply (Hg _ _ Hin). split; [by apply Hlive|]. unfold group_key. by rewrite Kb, Hsc.
      * apply (conflict_of_live universe now); eauto.
    + apply list_elem_of_fmap. by exists ((as_address (mr_scope a), key), rs).
Qed.

(** ** Consolidation *)

(** A confidence a record can be built with. *)
Definition claims (c : Float64) : bool := SFltb f64_zero (f64_of c) && SFleb (f64_of c) f64_unit.

Lemma claims_positive (c : Float64) : claims c = true -> exists m e, c = FFinite false m e.
Proof. destruct c as [[]|[] m e]; try done. eauto. Qed.

Lemma ltb_magnitude (m : positive) (e : Z) (n : positive) (f : Z) :
  SFltb (S754_finite false m e) (S754_finite false n f) = true <-> magnitude_cmp (m, e) (n, f) = Lt.
Proof.
  unfold SFltb, SFcompare, magnitude_cmp. simpl. change (Pos.compare_cont Eq m n) with (Pos.compare m n).
  destruct (Z.compare e f); simpl; [|done..]. by destruct (Pos.compare m n).
Qed.

(** The minimum of claims is one of them, and none is below it. *)
Lemma min_claim (l : list Float64) (m : positive) (e : Z) :
  Forall (fun c => claims c = true) l ->
  exists n f, fold_left f64_min (map f64_of l) (S754_finite false m e) = S754_finite false n f
    /\ FFinite false n f ∈ FFinite false m e :: l
    /\ Forall (fun c => SFltb (f64_of c) (S754_finite false n f) = false) (FFinite false m e :: l).
Proof.
  revert m e. induction l as [|c l IH]; intros m e Hl; simpl.
  - exists m, e. split_and!; [done|set_solver|]. constructor; [|constructor].
    apply not_true_iff_false. cbn [f64_of]. rewrite ltb_magnitude. intros Hlt.
    pose proof (cmp_mirror (cmp := magnitude_cmp) (m, e) (m, e)) as Hm. by rewrite Hlt in Hm.
  - apply Forall_cons in Hl as [(k & g & ->)%claims_positive Hl]. cbn [f64_of]. unfold f64_min at 2.
    destruct (SFltb _ _) eqn:E.
    + destruct (IH k g Hl) as (n & f & -> & Hin & Hall). exists n, f. split_and!; [done|set_solver|].
      inversion_clear Hall as [|? ? H1 H2]. constructor; [|by constructor]. cbn [f64_of] in *.
      apply not_true_iff_false. rewrite ltb_magnitude. intros Hlt. apply not_true_iff_false in H1.
      apply H1, ltb_magnitude. eapply cmp_lt_trans; [|exact Hlt]. by apply ltb_magnitude.
    + destruct (IH m e Hl) as (n & f & -> & Hin & Hall). exists n, f. split_and!; [done|set_solver|].
      inversion_clear Hall as [|? ? H1 H2]. constructor; [done|]. constructor; [|done]. cbn [f64_of] in *.
      apply not_true_iff_false. rewrite ltb_magnitude. intros Hlt.
      apply not_true_iff_false in H1, E. rewrite ltb_magnitude in H1, E.
      destruct (magnitude_cmp (n, f) (m, e)) eqn:Enm.
      * apply E. by rewrite <- (cmp_congr_r magnitude_cmp (n, f) (m, e)).
      * apply E. by eapply cmp_lt_trans.
      * apply H1. by rewrite (cmp_mirror (cmp := magnitude_cmp) (n, f) (m, e)), Enm.
Qed.

Lemma fold_min_spec (l : list Z) (x : Z) :
  (fold_left Z.min l x <= x)%Z /\ Forall (fun y => fold_left Z.min l x <= y)%Z l.
Proof.
  revert x. induction l as [|y l IH]; intros x; simpl; [split; [lia|constructor]|].
  destruct (IH (Z.min x y)) as [H1 H2]. split; [lia|]. constructor; [lia|done].
Qed.

Lemma fold_max_spec (l : list Z) (x : Z) :
  (x <= fold_left Z.max l x)%Z /\ Forall (fun y => y <= fold_left Z.max l x)%Z l.
Proof.
  revert x. induction l as [|y l IH]; intros x; simpl; [split; [lia|constructor]|].
  destruct (IH (Z.max x y)) as [H1 H2]. split; [lia|]. constructor; [lia|done].
Qed.

Lemma least_le (l : list Z) (x y : Z) : least l = Some x -> y ∈ l -> (x <= y)%Z.
Proof.
  destruct l as [|z l]; [done|]. simpl. intros [= <-]. destruct (fold_min_spec l z) as [H1 H2].
  rewrite elem_of_cons. intros [->|Hy]; [done|]. by eapply Forall_forall in H2.
Qed.

Lemma greatest_ge (l : list Z) (x y : Z) : greatest l = Some x -> y ∈ l -> (y <= x)%Z.
Proof.
  destruct l as [|z l]; [done|]. simpl. intros [= <-]. destruct (fold_max_spec l z) as [H1 H2].
  rewrite elem_of_cons. intros [->|Hy]; [done|]. by eapply Forall_forall in H2.
Qed.

(** The summary's window spans the sources'. *)
Definition spanning (sources : list MemoryRecord) (from : DateTime) : ValidityWindow :=
  mkWindow from (mapM (fun r => vw_until (mr_validity r)) sources ≫= greatest).

Lemma spanning_contains (sources : list MemoryRecord) (from t : DateTime) (r : MemoryRecord) :
  least (map (fun r => vw_from (mr_validity r)) sources) = Some from ->
  r ∈ sources -> window_contains (mr_validity r) t = true -> window_contains (spanning sources from) t = true.
Proof.
  intros Hl Hr. unfold window_contains. rewrite !andb_true_iff, !Z.leb_le. intros [Hf Hu]. simpl. split.
  - assert (from <= vw_from (mr_validity r))%Z; [|lia]. eapply least_le; [exact Hl|].
    by apply (list_elem_of_fmap_2 (fun r => vw_from (mr_validity r))).
  - destruct (mapM _ sources) as [us|] eqn:Em; [|done]. simpl. destruct (greatest us) as [u|] eqn:Eg; [|done].
    apply mapM_Some in Em. apply list_elem_of_lookup in Hr as [i Hi].
    destruct (Forall2_lookup_l _ _ _ _ _ Em Hi) as (v & Hv & Hrv). simpl in Hrv. rewrite Hrv in Hu.
    apply Z.ltb_lt in Hu. apply Z.ltb_lt. assert (v <= u)%Z; [|lia].
    eapply greatest_ge; [exact Eg|]. by eapply list_elem_of_lookup_2.
Qed.

(** What a consolidation writes. *)
Definition distills (sources : list MemoryRecord) (s : MemoryRecord) : Prop :=
  mr_kind s = KindSummary /\ sources_of s = sort_by str_leb (map mr_memory_id sources)
  /\ (exists r, r ∈ sources /\ mr_confidence s = mr_confidence r)
  /\ Forall (fun r => SFltb (f64_of (mr_confidence r)) (f64_of (mr_confidence s)) = false) sources
  /\ forall t, Exists (fun r => window_contains (mr_validity r) t = true) sources ->
       window_contains (mr_validity s) t = true.

Lemma derive_memory_id_total `{Codec} `{!CodecLaws} (content : PayloadRef) (p : MemoryProvenance) :
  exists id, derive_memory_id content p = Ok id.
Proof.
  unfold derive_memory_id. assert (exists h, content_hash content = Some h) as [h ->].
  { destruct content as [v|r]; simpl; [|eauto]. destruct (to_vec_total (canonicalize_value v)) as [b ->]. simpl. eauto. }
  cbn [serialized ok_or mbind result_bind].
  match goal with |- context [to_vec ?v] => destruct (to_vec_total v) as [b ->] end. eexists. reflexivity.
Qed.

(** A record of lawful confidence can be built. *)
Lemma record_new_Ok `{Codec} `{!CodecLaws} (f64_text : spec_float -> string) (kind : MemoryKind)
    (scope : ScopeAddress) (p : MemoryProvenance) (c : Float64) (w : ValidityWindow) (t : DateTime)
    (content : Value) :
  claims c = true ->
  exists r, record_new f64_text kind scope p (f64_of c) w t content = Ok r
    /\ mr_kind r = kind /\ mr_provenance r = p /\ mr_confidence r = c /\ mr_validity r = w.
Proof.
  intros Hc. unfold record_new. unfold claims in Hc. rewrite Hc.
  assert (finite_f64 (f64_of c) = Some c) as -> by by destruct c.
  destruct (derive_memory_id_total (content_ref_of content) p) as [id ->].
  eexists. split; [reflexivity|done].
Qed.

(** Consolidating. Distilling at least one record of lawful confidence
    succeeds with a summary that names its sources, is as confident as the
    least confident of them and is valid whenever one of them is; and
    wherever the summary is stored, no query that leaves superseded records
    out serves a source any more. *)
Theorem consolidation_supersedes `{Codec} `{!CodecLaws} `{Unicode} (powf : spec_float -> spec_float -> spec_float)
    (f64_text : spec_float -> string) (scope : ScopeAddress) (distiller : string)
    (sources : list MemoryRecord) (content : Value) (now : DateTime) :
  sources <> [] -> Forall (fun r => claims (mr_confidence r) = true) sources ->
  exists s, consolidation_summary f64_text scope distiller sources content now = Ok s
    /\ distills sources s
    /\ forall universe q t, s ∈ universe -> mq_include_superseded q = false ->
         Forall (fun r => mr_memory_id r ∉ map mr_memory_id sources) (apply_query powf universe q t).
Proof.
  intros Hne Hcl. unfold consolidation_summary. destruct sources as [|r1 rest]; [done|]. clear Hne.
  destruct (least _) as [from|] eqn:El; [|done].
  apply Forall_cons in Hcl as Hcl'. destruct Hcl' as [Hc1 Hcr].
  destruct (claims_positive _ Hc1) as (m & e & Em).
  assert (exists c, fold_left f64_min (map (fun r => f64_of (mr_confidence r)) (r1 :: rest)) (S754_infinity false)
                    = f64_of c /\ claims c = true /\ (exists r, r ∈ r1 :: rest /\ c = mr_confidence r)
                    /\ Forall (fun r => SFltb (f64_of (mr_confidence r)) (f64_of c) = false) (r1 :: rest))
    as (c & -> & Hc & Hex & Hmin).
  { cbn [map fold_left]. rewrite Em. change (f64_min (S754_infinity false) _) with (S754_finite false m e).
    destruct (min_claim (map mr_confidence rest) m e) as (n & f & Hf & Hin & Hall); [by apply Forall_fmap|].
    rewrite map_map in Hf. rewrite Hf. rewrite <- Em in Hin, Hall.
    change (mr_confidence r1 :: map mr_confidence rest) with (map mr_confidence (r1 :: rest)) in Hin, Hall.
    exists (FFinite false n f). apply list_elem_of_fmap in Hin as (r & He & Hr). split_and!; [done| |by eauto|].
    - rewrite He. by eapply (proj1 (Forall_forall _ _) Hcl).
    - by apply Forall_fmap in Hall. }
  match goal with |- context [record_new _ _ _ ?p _ ?w _ _] =>
    destruct (record_new_Ok f64_text KindSummary scope p c w now content Hc) as (s & -> & Hk & Hp & Hcs & Hw) end.
  exists s. split; [done|]. assert (sources_of s = sort_by str_leb (map mr_memory_id (r1 :: rest))) as Hsrc
    by (unfold sources_of; by rewrite Hp). split.
  - unfold distills. rewrite Hcs, Hw. split_and!; try done.
    intros t (r & Hr & Ht)%Exists_exists. by eapply spanning_contains.
  - intros universe q t Hs Hq. apply Forall_forall. intros r Hr Hin. unfold apply_query in Hr.
    rewrite list_elem_of_In, List.filter_In in Hr. destruct Hr as [_ Hm]. unfold query_matches in Hm.
    rewrite !andb_true_iff, Hq in Hm. destruct Hm as [[[[[_ Hsup] _] _] _] _]. simpl in Hsup.
    rewrite negb_true_iff, bool_decide_eq_false in Hsup. apply Hsup. unfold superseded_set.
    rewrite elem_of_app. right. apply elem_of_concat. exists (sources_of s). split.
    + rewrite Hsrc. by apply sort_by_elem.
    + apply (list_elem_of_fmap_2 sources_of), list_elem_of_In, List.filter_In.
      rewrite <- list_elem_of_In, bool_decide_eq_true. done.
Qed.
