(* ===== verification/MemoryReplayFacts.v ===== *)
(** * Memory reads replay

    Code that reads memory through [JournaledMemory], run once against a live
    store and once against the journal it left. The handle's source is the
    only difference. *)

From Stdlib Require Import String Floats.SpecFloat.
From S2P Require Import Prelude Containers Json Error Record Journal JournalFacts Meter Chat Declaration Replay ReplayFacts RecordReplay Text Order Memory MemoryPlans MemoryStore.
Local Open Scope string_scope.

(** ** Reading code *)
Section Reader.
Context `{Codec, Unicode} {E A : Type} (powf : spec_float -> spec_float -> spec_float)
  (decode : Value -> result string MemoryAssembly).

(** Deterministic code that journals events of its own and reads memory. *)
Inductive Reader : Type :=
| RReturn (a : A)
| RNote (d : EventDraft) (k : string -> Reader)
| RRead (q : MemoryQuery) (b : ContextBudget) (parent : string) (k : res MemoryAssembly -> Reader).

Fixpoint run_reader (source : MemorySource E) (c : Reader) (s : Live (MemoryWorld E)) :
    A * Live (MemoryWorld E) :=
  match c with
  | RReturn a => (a, s)
  | RNote d k => let '(id, s') := live_record d s in run_reader source (k id) s'
  | RRead q b parent k =>
      let '(r, s') := memory_read powf decode source q b (Some parent) s in
      run_reader source (k r) s'
  end.

(** What a live read journals. *)
Definition read_events (store : MemoryStore E) (q : MemoryQuery) (b : ContextBudget) (parent : string)
    (s : Live (MemoryWorld E)) : list Value :=
  let '(as_of, s1) := resolve_as_of q s in
  match memory_read powf decode (SourceStore store) q b (Some parent) s with
  | (Ok a, _) => [memory_read_request (with_as_of as_of q) b; assembly_value a]
  | (Err _, _) => []
  end.

Fixpoint reader_values (store : MemoryStore E) (c : Reader) (s : Live (MemoryWorld E)) : list Value :=
  match c with
  | RReturn _ => []
  | RNote d k => let '(id, s') := live_record d s in (draft_values d ++ reader_values store (k id) s')%list
  | RRead q b parent k =>
      (read_events store q b parent s
       ++ let '(r, s') := memory_read powf decode (SourceStore store) q b (Some parent) s in
          reader_values store (k r) s')%list
  end.

(** Every live read succeeds with an assembly its JSON reads back to, and
    the code journals no memory read by itself. *)
Fixpoint answered (store : MemoryStore E) (c : Reader) (s : Live (MemoryWorld E)) : Prop :=
  match c with
  | RReturn _ => True
  | RNote d k => d_kind d <> KMemoryRead /\ answered store (k (live_record d s).1) (live_record d s).2
  | RRead q b parent k =>
      let '(r, s') := memory_read powf decode (SourceStore store) q b (Some parent) s in
      match r with
      | Ok a => decode (assembly_value a) = Ok a
      | Err _ => False
      end /\ answered store (k r) s'
  end.
End Reader.
Arguments Reader : clear implicits.
Arguments RReturn {_} _.
Arguments RNote {_} _ _.
Arguments RRead {_} _ _ _ _.

(** ** One read *)

Definition recorded_reads (es : list RunEvent) : list RunEvent :=
  List.filter (fun e => bool_decide (ev_kind e = KMemoryRead)) es.

(** The replay source over the journal [J], after the reads of [j]. *)
Definition reads_at (J j : Journal) : MemoryReplay :=
  mkMemoryReplay (recorded_reads (j_events J)) (j_artifacts J) (length (recorded_reads (j_events j))).

Lemma payload_of_resolve (artifacts : list (string * Value)) (p : option PayloadRef) :
  payload_of artifacts p = resolve_opt artifacts p.
Proof. by destruct p as [[v|r]|]. Qed.

Section Reads.
Context `{Codec, !CodecLaws, Unicode} {E : Type} (powf : spec_float -> spec_float -> spec_float)
  (decode : Value -> result string MemoryAssembly).
Variable L : list Value.
Hypothesis HL : distinct_digests L.

Lemma reads_at_same (J j j' : Journal) (e : RunEvent) :
  j_events j' = (j_events j ++ [e])%list -> ev_kind e <> KMemoryRead -> reads_at J j' = reads_at J j.
Proof.
  intros Hev He. unfold reads_at. f_equal. rewrite Hev. unfold recorded_reads.
  rewrite List.filter_app. simpl. by rewrite bool_decide_eq_false_2, app_nil_r.
Qed.

Lemma reads_at_next (J j j' : Journal) (e : RunEvent) :
  j_events j' = (j_events j ++ [e])%list -> ev_kind e = KMemoryRead ->
  mkMemoryReplay (mrp_servable (reads_at J j)) (mrp_artifacts (reads_at J j)) (S (mrp_cursor (reads_at J j)))
  = reads_at J j'.
Proof.
  intros Hev He. unfold reads_at. cbn. f_equal. rewrite Hev. unfold recorded_reads.
  rewrite List.filter_app, length_app. simpl. rewrite bool_decide_eq_true_2 by done. simpl. lia.
Qed.

(** Appending an event of the run. *)
Lemma append_exact (d : EventDraft) (cs cs' : Clocks) (j j' : Journal) (id : string) :
  record d cs j = (id, cs', j') -> journal_ok j -> within L (j_artifacts j) ->
  (forall v, v ∈ draft_values d -> v ∈ L) ->
  journal_ok j' /\ within L (j_artifacts j') /\ extends j j'.
Proof.
  intros Hrec Hok Hw Hd.
  destruct (record_exact L HL _ _ _ _ _ _ Hrec Hok Hw Hd) as (Hw' & Hg & Hr & Ht & e & Hev & _).
  split_and!; [by eapply record_ok|done|]. split_and!; [by exists [e]|done..].
Qed.

(** A served read is the recorded one. *)
Lemma memory_serve_ok (J j : Journal) (e : RunEvent) (request : Value) (output : option Value) :
  mrp_servable (reads_at J j) !! mrp_cursor (reads_at J j) = Some e ->
  resolve_opt (j_artifacts J) (ev_input e) = Some request ->
  resolve_opt (j_artifacts J) (ev_output e) = output ->
  memory_serve request (reads_at J j)
  = (Ok (mkServed e (Some request) output []),
     mkMemoryReplay (mrp_servable (reads_at J j)) (mrp_artifacts (reads_at J j))
       (S (mrp_cursor (reads_at J j)))).
Proof.
  intros Hat Hi Ho. unfold memory_serve. destruct (request_hash_total request) as (h & _ & Hh). rewrite Hh.
  cbn [mbind result_bind]. rewrite Hat. cbn [ok_or mbind result_bind].
  rewrite (payload_of_resolve _ (ev_input e)), (payload_of_resolve _ (ev_output e)). change (mrp_artifacts (reads_at J j)) with (j_artifacts J). rewrite Hi. cbn [ok_or mbind result_bind].
  rewrite Hh. cbn [mbind result_bind]. rewrite String.eqb_refl. by rewrite Ho.
Qed.

(** A live read that answered, from both sides. *)
Lemma read_replays (store : MemoryStore E) (q : MemoryQuery) (as_of : DateTime) (b : ContextBudget)
    (parent : string) (s s' : Live (MemoryWorld E)) (a : MemoryAssembly) :
  read_live powf store q as_of b (Some parent) s = (Ok a, s') ->
  journal_ok (lv_journal s) -> within L (j_artifacts (lv_journal s)) ->
  memory_read_request q b ∈ L -> assembly_value a ∈ L -> decode (assembly_value a) = Ok a ->
  (journal_ok (lv_journal s') /\ within L (j_artifacts (lv_journal s'))
   /\ extends (lv_journal s) (lv_journal s'))
  /\ forall J env, extends (lv_journal s') J ->
     read_replay decode q b (Some parent)
       (mkLive (lv_clocks s) (lv_journal s) (mkMemoryWorld env (reads_at J (lv_journal s))))
     = (Ok a, mkLive (lv_clocks s') (lv_journal s') (mkMemoryWorld env (reads_at J (lv_journal s'))) : Live (MemoryWorld E)).
Proof.
  unfold read_live. destruct (live_now s) as [started s1] eqn:E1.
  destruct (ms_query store q as_of _) as [records env1] eqn:Eq. destruct records as [records|]; [|done].
  destruct (live_now (set_env env1 s1)) as [ended s3] eqn:E3.
  destruct (assemble_for _ _ _ _ _ _) as [a'|]; [|done].
  destruct (live_record _ s3) as [id s4] eqn:E4. intros [= -> <-] Hok Hw Hreq Hval Hdec.
  assert (lv_journal s3 = lv_journal s /\ lv_clocks s3 = read_twice (j_clock (lv_journal s)) (lv_clocks s))
    as [Hj Hc].
  { unfold live_now in E1, E3. unfold read_twice.
    destruct (read_clock _ (lv_clocks s)) as [t1 cs1] eqn:R1. injection E1 as <- <-.
    unfold set_env in E3. cbn [lv_journal lv_clocks lv_env] in E3. cbn [snd].
    destruct (read_clock (j_clock (lv_journal s)) cs1) as [t2 cs2]. by injection E3 as <- <-. }
  apply live_record_inv in E4. rewrite Hj, Hc in E4. cbn [snd].
  set (d := read_draft _ a _ (Some parent)) in E4.
  assert (Hd : forall v, v ∈ draft_values d -> v ∈ L).
  { intros v. unfold draft_values. simpl. set_solver. }
  split; [by eapply append_exact|]. intros J env ([more Hmore] & Hgrow & _ & _).
  destruct (record_exact L HL _ _ _ _ _ _ E4 Hok Hw Hd)
    as (_ & _ & _ & _ & e & Hev & Ek & Ee & En & El & Et & Ec & Es & Pi & Po & Ri & Ro).
  assert (Hri : resolve_opt (j_artifacts J) (ev_input e) = d_input d) by (by eapply resolve_opt_grow_opt).
  assert (Hro : resolve_opt (j_artifacts J) (ev_output e) = d_output d) by (by eapply resolve_opt_grow_opt).
  unfold read_replay. cbn [lv_env mw_replay].
  rewrite (memory_serve_ok J (lv_journal s) e (memory_read_request q b) (Some (assembly_value a))); [|..|done|done].
  - cbn [fst snd]. rewrite (reads_at_next J _ _ e Hev Ek).
    assert (with_parent parent (recorded_draft (mkServed e (Some (memory_read_request q b)) (Some (assembly_value a)) [])) = d)
      as -> by (by apply (redraft d e [] parent)).
    cbn [sv_output sv_event]. rewrite Hdec. unfold live_record, live_now, set_replay. cbn.
    destruct (read_clock (j_clock (lv_journal s)) (lv_clocks s)) as [t1 cs1] eqn:R1. cbn.
    destruct (read_clock (j_clock (lv_journal s)) cs1) as [t2 cs2] eqn:R2. cbn.
    unfold read_twice in E4. rewrite R1 in E4. cbn in E4. rewrite R2 in E4. cbn in E4. by rewrite E4.
  - unfold reads_at. cbn [mrp_servable mrp_cursor]. rewrite Hmore, Hev. unfold recorded_reads.
    rewrite !List.filter_app, <- app_assoc, lookup_app_r, Nat.sub_diag by done. simpl.
    by rewrite bool_decide_eq_true_2.
Qed.

(** A whole program: what the live run ended in, the replay ends in. *)
Lemma reader_replays {A : Type} (store : MemoryStore E) (c : Reader A) :
  forall s sf a, run_reader powf decode (SourceStore store) c s = (a, sf) ->
  answered powf decode store c s -> journal_ok (lv_journal s) -> within L (j_artifacts (lv_journal s)) ->
  (forall v, v ∈ reader_values powf decode store c s -> v ∈ L) ->
  extends (lv_journal s) (lv_journal sf)
  /\ forall J (env : E), extends (lv_journal sf) J ->
     run_reader powf decode SourceReplay c
       (mkLive (lv_clocks s) (lv_journal s) (mkMemoryWorld env (reads_at J (lv_journal s))))
     = (a, mkLive (lv_clocks sf) (lv_journal sf) (mkMemoryWorld env (reads_at J (lv_journal sf)))).
Proof.
  induction c as [a'|d k IH|q b parent k IH]; intros s sf a Hrun Han Hok Hw HV; simpl in Hrun, Han, HV.
  - injection Hrun as <- <-. split; [apply extends_refl|done].
  - destruct Han as [Hk Han]. destruct (live_record d s) as [id s1] eqn:Hrec. simpl in Han.
    apply live_record_inv in Hrec.
    assert (Hd : forall v, v ∈ draft_values d -> v ∈ L) by (intros; apply HV, elem_of_app; by left).
    destruct (append_exact _ _ _ _ _ _ Hrec Hok Hw Hd) as (Hok1 & Hw1 & Hex1).
    destruct (IH id s1 sf a Hrun Han Hok1 Hw1) as [Hex Hrep].
    { intros v Hv. apply HV, elem_of_app. by right. }
    split; [by eapply extends_trans|]. intros J env HJ. simpl. unfold live_record.
    cbn [lv_clocks lv_journal lv_env]. rewrite Hrec.
    destruct (record_exact L HL _ _ _ _ _ _ Hrec Hok Hw Hd) as (_ & _ & _ & _ & e & Hev & Hke & _).
    rewrite <- (reads_at_same J _ _ e Hev) by (by rewrite Hke). by apply Hrep.
  - unfold read_events in HV. unfold memory_read in Hrun, Han, HV |- *.
    destruct (resolve_as_of q s) as [as_of s0] eqn:Ea.
    assert (lv_journal s0 = lv_journal s
            /\ forall (env : E) (m : MemoryReplay), resolve_as_of q (mkLive (lv_clocks s) (lv_journal s) (mkMemoryWorld env m))
                 = (as_of, mkLive (lv_clocks s0) (lv_journal s0) (mkMemoryWorld env m))) as [Hj0 Hres].
    { unfold resolve_as_of in *. destruct (mq_as_of q); [by injection Ea as <- <-|].
      unfold live_now in *. cbn [lv_clocks lv_journal lv_env].
      destruct (read_clock _ (lv_clocks s)) as [t cs]. by injection Ea as <- <-. }
    destruct (read_live powf store _ _ _ _ s0) as [[r|e] s1] eqn:Er; [|by destruct Han].
    destruct Han as [Hdec Han]. rewrite <- Hj0 in Hok, Hw.
    destruct (read_replays store _ as_of b parent s0 s1 r Er Hok Hw) as [(Hok1 & Hw1 & Hex1) Hrd].
    { apply HV. set_solver. } { apply HV. set_solver. } { done. }
    destruct (IH (Ok r) s1 sf a Hrun Han Hok1 Hw1) as [Hex Hrep].
    { intros v Hv. apply HV. set_solver. }
    rewrite <- Hj0. split; [by eapply extends_trans|]. intros J env HJ. simpl. unfold memory_read.
    rewrite Hj0, Hres, <- Hj0.
    rewrite Hrd by (by eapply extends_trans). by apply Hrep.
Qed.
End Reads.

