(* ===== verification/MemoryExamples.v ===== *)
(** * Memory on concrete records

    Records, queries and handles at the sample codec: what the theorems say
    of them, and where the code departs from its documentation. *)

From Stdlib Require Import String Floats.SpecFloat.
From S2P Require Import Prelude Containers Json Error Record SampleCodec SampleReader Journal JournalFacts Meter Chat Declaration Replay ReplayFacts RecordReplay Effects Text Order Memory MemoryPlans MemoryStore MemoryFacts MemoryPlansFacts MemoryReplayFacts.
Local Open Scope string_scope.

Module MemoryExamples.
Import Reader.
#[local] Existing Instance ascii_tables.

(** A power that is one at every exponent: nothing ages. *)
Definition ageless (base exponent : spec_float) : spec_float := f64_unit.
Definition no_text (x : spec_float) : string := "x".

Definition ada : ScopeAddress := mkScope ScopeUser "ada".
Definition by_bot (t : DateTime) : MemoryProvenance := mkProvenance (ByAgent "bot") no_evidence t.
Definition one : Float64 := FFinite false 4503599627370496 (-52).

(** [MemoryRecord::new] of a fact, with a fallback that is never taken. *)
Definition blank : MemoryRecord :=
  mkMemory "blank" KindFact ada None [] 0 (by_bot 0) one (window_starting 0) 0 None None None
    (Inline Null) None.

Definition fact (t : DateTime) (content : Value) : MemoryRecord :=
  match record_new no_text KindFact ada (by_bot t) f64_unit (window_starting 0) t content with
  | Ok r => r | Err _ => blank
  end.

Definition tea : MemoryRecord := with_key "drink" (fact 1 (Str "ada drinks green tea")).
Definition coffee : MemoryRecord := with_key "drink" (with_priority 5 (fact 2 (Str "ada drinks coffee"))).
Definition likes : list MemoryRecord := [tea; coffee].

Definition digest_of (sources : list MemoryRecord) : MemoryRecord :=
  match consolidation_summary no_text ada "nightly" sources (Str "ada drinks") 9 with
  | Ok r => r | Err _ => blank
  end.

(** The store with the records, and a run at its start. *)
Definition stored (rs : list MemoryRecord) : MemoryMap := fold_left (fun m r => (map_put r m).2) rs [].
Definition no_replay : MemoryReplay := mkMemoryReplay [] [] 0.
Definition at_start : Live (MemoryWorld MemoryMap) :=
  mkLive [Logical 1000 5] (journal_new "run" "thread" 0) (mkMemoryWorld (stored likes) no_replay).

(** ** The theorems at these records *)

Lemma assembly_exact_witness :
  match assemble_for ageless likes (with_text "green tea please" any_memory) 10 (budget_new 9) (fun _ => None) with
  | Ok a => packs (budget_new 9) (rank_cmp ageless (with_text "green tea please" any_memory) 10 (fun _ => None)) likes a
            /\ ma_memory_ids a = [mr_memory_id tea] /\ ma_truncated a = true
  | Err _ => False
  end.
Proof.
  destruct (assembly_exact ageless likes (with_text "green tea please" any_memory) 10 (budget_new 9) (fun _ => None))
    as [Hp _]; [done|apply (bool_decide_unpack _); vm_compute; exact I|].
  destruct (assemble_for _ _ _ _ _ _) as [a|e] eqn:He.
  - split; [exact Hp|]. vm_compute in He. injection He as <-. split; vm_compute; reflexivity.
  - vm_compute in He. discriminate He.
Defined.

Lemma conflicts_exact_witness :
  (forall c, c ∈ detect_conflicts likes 10 ->
     exists a b key o, contradict likes 10 a b key o
       /\ c = mkConflict (mr_scope a) key [mr_memory_id a; mr_memory_id b] o)
  /\ length (detect_conflicts likes 10) = 1%nat.
Proof.
  split; [|vm_compute; reflexivity]. intros c Hc.
  destruct (conflicts_exact likes 10) as [_ H]; [apply (bool_decide_unpack _); vm_compute; exact I|].
  by apply H.
Defined.

Lemma consolidation_supersedes_witness :
  exists s, consolidation_summary no_text ada "nightly" likes (Str "ada drinks") 9 = Ok s
    /\ distills likes s
    /\ apply_query ageless (s :: likes) any_memory 10 = [s].
Proof.
  destruct (consolidation_supersedes ageless no_text ada "nightly" likes (Str "ada drinks") 9)
    as (s & Hs & Hd & _); [done|repeat constructor|].
  exists s. split; [exact Hs|]. split; [exact Hd|]. vm_compute in Hs. injection Hs as <-.
  vm_compute. reflexivity.
Defined.

(** A program that asks, notes and asks again; the deserializer of the two
    assemblies it is served. *)
Definition asks : Reader (list string) :=
  RRead any_memory (budget_new 100) "event-0" (fun first =>
  RNote (draft_new KToolCall ReadOnly) (fun _ =>
  RRead (with_text "coffee" any_memory) (budget_new 100) "event-1" (fun second =>
  RReturn (match first, second with
           | Ok a, Ok b => (ma_memory_ids a ++ ma_memory_ids b)%list
           | _, _ => []
           end)))).

Definition served (q : MemoryQuery) : option MemoryAssembly :=
  match assemble_for ageless (apply_query ageless likes q 1000) q 1000 (budget_new 100) (fun _ => None) with
  | Ok a => Some a | Err _ => None
  end.

Definition decode (v : Value) : result string MemoryAssembly :=
  match List.find (fun a => value_eqb (assembly_value a) v)
          (omap served [any_memory; with_text "coffee" any_memory]) with
  | Some a => Ok a
  | None => Err "missing field"
  end.


(** ** Where the code departs from its documentation *)

(** [validate_rewrite] bounds the drop of the number of facts, so a rewrite
    that replaces every one of them by another passes without a
    justification under a bound of zero: the documentation bounds the
    fraction of retained facts that dropped. *)
Theorem rewrite_swaps_all_facts :
  let pre := fact 1 (Array [Str "ada drinks tea"; Str "ada lives in york"]) in
  exists v, validate_rewrite no_text pre
      (mkProposal (default EmptyString (content_hash (mr_content pre)))
         (Array [Str "bob drinks gin"; Str "bob lives in rome"]) [] f64_zero) = Ok v
    /\ rv_passed v = true /\ length (rv_removed_facts v) = 2%nat.
Proof. eexists. split; [vm_compute; reflexivity|split; reflexivity]. Qed.

(** Persisting the consolidation state supersedes nothing and loading takes
    the first record, which is the first by content address: a pass that
    advanced the mark can be read back as the state before it. *)
Definition mark (n : N) : ConsolidationState := mkConsolidation n 5 0.

Definition state_from (v : Value) : result string ConsolidationState :=
  match List.find (fun s => value_eqb (state_value s) v) (map mark [1; 2; 3; 4; 5; 6; 7; 8; 9]%N) with
  | Some s => Ok s | None => Err "missing field"
  end.

Definition persisted (marks : list N) : MemoryMap :=
  fold_left (fun m n => (persist_consolidation_state no_text (in_memory_store ageless) ada (mark n) (by_bot 5) m).2)
    marks [].

Theorem stale_consolidation_state :
  exists first later, (first < later)%N
    /\ (load_consolidation_state state_from (in_memory_store ageless) ada 6 (persisted [first; later])).1
       = Ok (mark first).
Proof. exists 1%N, 4%N. split; [lia|vm_compute; reflexivity]. Qed.

(** A correction supersedes the record it corrects. Forgetting it plans
    nothing for that record, which is served again: the record's
    documentation says forgetting walks [supersedes] in reverse. *)
Theorem forget_revives_superseded :
  let fix_ := with_supersedes (mr_memory_id tea) (fact 3 (Str "ada drinks mate")) in
  let universe := [tea; fix_] in
  apply_query ageless universe any_memory 10 = [fix_]
  /\ plan_forget universe [mr_memory_id fix_] = mkForget [mr_memory_id fix_] []
  /\ apply_query ageless [tea] any_memory 10 = [tea].
Proof. split_and!; vm_compute; reflexivity. Qed.

(** The "maximum interval between passes" holds a pass back: with turns
    enough it is refused until the interval is over, and never forced. *)
Theorem interval_is_a_minimum :
  frequency_gate (mkConsolidation 0 0 50) (mkCadence 10 (Some 1000%N)) 999 = Ok false
  /\ frequency_gate (mkConsolidation 0 0 9) (mkCadence 10 (Some 1000%N)) 5000 = Ok false.
Proof. split; reflexivity. Qed.

(** Only the first occurrence of a word that announces a credential is
    looked at. *)
Theorem second_password_missed :
  looks_like_secret "the password is hunter2x9" = Some "a password"
  /\ looks_like_secret "the password changed: password is hunter2x9" = None.
Proof. split; vm_compute; reflexivity. Qed.

(** A read without a parent is journaled without one and re-journaled under
    the empty parent: the replay ends with another journal. *)
Theorem parentless_read_unverifiable :
  let live := (memory_read ageless decode (SourceStore (in_memory_store ageless)) any_memory (budget_new 100) None at_start).2 in
  let replayed :=
    (memory_read ageless decode SourceReplay any_memory (budget_new 100) None
       (mkLive [Logical 1000 5] (journal_new "run" "thread" 0)
          (mkMemoryWorld (stored []) (memory_replay_new (snapshot (lv_journal live)))))).2 in
  map ev_parent (j_events (lv_journal live)) = [None]
  /\ map ev_parent (j_events (lv_journal replayed)) = [Some EmptyString].
Proof. split; vm_compute; reflexivity. Qed.

(** A live read that fails on a hard budget journals nothing, so its replay
    has no recorded read to serve and fails with another error. *)
Theorem failed_read_diverges :
  let b := with_overflow OverflowFail (budget_new 1) in
  let '(r, live) := memory_read ageless decode (SourceStore (in_memory_store ageless)) any_memory b (Some "p") at_start in
  let '(r', _) :=
    memory_read ageless decode SourceReplay any_memory b (Some "p")
       (mkLive [Logical 1000 5] (journal_new "run" "thread" 0)
          (mkMemoryWorld (stored []) (memory_replay_new (snapshot (lv_journal live))))) in
  match r, r' with Err (EInvalidUpdate _), Err (EReplay _) => j_events (lv_journal live) = [] | _, _ => False end.
Proof. vm_compute. reflexivity. Qed.
End MemoryExamples.
