(* ===== verification/ContextHistory.v ===== *)
(** * The history section ([rusty-core/src/context.rs])

    The pipeline and its item counting, fitting of text sections, compaction
    of the history behind a summary, clipping of tool results, and the packing
    of the history under a budget. The summarizer and the memory handle act on
    a state of the caller's ([Live] when they record). *)

From Stdlib Require Import String.
From S2P Require Import Prelude Containers Json Error Record Chat Text Middleware ToolSelect Memory Context.
Local Open Scope string_scope.

(** ** Code that may fail or panic *)

Definition Try (A : Type) : Type := Unwind (res A).

#[export] Instance try_ret : MRet Try := fun A a => Returns (Ok a).

#[export] Instance try_bind : MBind Try := fun A B f m =>
  match m with
  | Returns (Ok a) => f a
  | Returns (Err e) => Returns (Err e)
  | Panics p => Panics p
  end.

Definition of_res {A : Type} (r : res A) : Try A := Returns r.

(** The same, on a state. *)
Definition Code (S A : Type) : Type := S -> Try A * S.

#[export] Instance code_ret (S : Type) : MRet (Code S) := fun A a s => (mret a, s).

#[export] Instance code_bind (S : Type) : MBind (Code S) := fun A B f m s =>
  match m s with
  | (Returns (Ok a), s') => f a s'
  | (Returns (Err e), s') => (Returns (Err e), s')
  | (Panics p, s') => (Panics p, s')
  end.

Definition of_try {S A : Type} (t : Try A) : Code S A := fun s => (t, s).
Definition of_call {S A : Type} (f : S -> res A * S) : Code S A := fun s =>
  let '(r, s') := f s in (Returns r, s').

(** ** The pipeline *)

(** [PolicyPin], [CompactionReport]. *)
Record PolicyPin : Type := mkPin {
  pin_name : string;
  pin_candidate_id : option string;
  pin_content_hash : option string;
}.

Record CompactionReport : Type := mkCompactionReport {
  cpr_watermark : nat;
  cpr_reused_summary : bool;
  cpr_delta_from : option nat;
  cpr_summary_tokens : N;
  cpr_summary_truncated : bool;
  cpr_question_kept : bool;
}.

(** [ContextPipeline]; the summarizer is its [chat]. *)
Record ContextPipeline (W : Type) : Type := mkPipeline {
  pl_policy : ContextPolicy;
  pl_counter : TokenCounter;
  pl_model_id : string;
  pl_policy_pin : PolicyPin;
  pl_summarizer : option (list ChatMessage -> list Value -> W -> res ChatResponse * W);
  pl_prior_summary : option StoredSummary;
}.
Arguments mkPipeline {W} _ _ _ _ _ _.
Arguments pl_policy {W} _.
Arguments pl_counter {W} _.
Arguments pl_model_id {W} _.
Arguments pl_policy_pin {W} _.
Arguments pl_summarizer {W} _.
Arguments pl_prior_summary {W} _.

(** [check_counter_pin], [new], [with_token_counter] and the other builders. *)
Definition check_counter_pin {W : Type} (p : ContextPipeline W) : res unit :=
  if String.eqb (tk_id (pl_counter p)) (cx_tokenizer (pl_policy p)) then Ok ()
  else
    Err (invalid ("context policy pins counter `" ++ cx_tokenizer (pl_policy p)
           ++ "` but the pipeline was given `" ++ tk_id (pl_counter p)
           ++ "` — the pin is what makes assembly deterministic under a promoted policy")).

Definition pipeline_new `{Codec} {W : Type} (policy : ContextPolicy) : res (ContextPipeline W) :=
  let p := mkPipeline policy (estimated_counter (cb_margin_percent (cx_budget policy))) EmptyString
             (mkPin "inline" None None) None None in
  _ ← check_counter_pin p; Ok p.

Definition with_token_counter {W : Type} (c : TokenCounter) (p : ContextPipeline W) :
    res (ContextPipeline W) :=
  let p' := mkPipeline (pl_policy p) c (pl_model_id p) (pl_policy_pin p) (pl_summarizer p)
              (pl_prior_summary p) in
  _ ← check_counter_pin p'; Ok p'.

Definition with_prior_summary {W : Type} (prior : StoredSummary) (p : ContextPipeline W) :
    ContextPipeline W :=
  mkPipeline (pl_policy p) (pl_counter p) (pl_model_id p) (pl_policy_pin p) (pl_summarizer p) (Some prior).

Definition for_model {W : Type} (id : string) (p : ContextPipeline W) : ContextPipeline W :=
  mkPipeline (pl_policy p) (pl_counter p) id (pl_policy_pin p) (pl_summarizer p) (pl_prior_summary p).

Definition with_policy_pin {W : Type} (name : string) (candidate hash : option string)
    (p : ContextPipeline W) : ContextPipeline W :=
  mkPipeline (pl_policy p) (pl_counter p) (pl_model_id p) (mkPin name candidate hash) (pl_summarizer p)
    (pl_prior_summary p).

Definition with_summarizer {W : Type} (f : list ChatMessage -> list Value -> W -> res ChatResponse * W)
    (p : ContextPipeline W) : ContextPipeline W :=
  mkPipeline (pl_policy p) (pl_counter p) (pl_model_id p) (pl_policy_pin p) (Some f) (pl_prior_summary p).

Section Pipeline.
Context `{Codec} {W : Type} (p : ContextPipeline W).

Definition margin : N := cb_margin_percent (cx_budget (pl_policy p)).

(** [count_item], [count_schema]. *)
Definition count_item (m : ChatMessage) : N := tk_count (pl_counter p) [m] (pl_model_id p).
Definition count_schema (schema : Value) : N :=
  count_item (msg_system (default EmptyString (to_vec schema))).

(** ** Text sections *)

(** The halving loop of [fit_text_section], and the check after it. *)
Fixpoint fit_loop (n : nat) (kind : SectionKind) (text : string) (bytes budget : N) :
    res (ChatMessage * N * bool) :=
  let message := msg_system (truncate_to_byte_budget text bytes) in
  let cost := count_item message in
  match n with
  | O =>
      if (budget <? cost)%N
      then Err (invalid ("the " ++ section_name kind ++ " section cannot be truncated into its budget of "
                  ++ pretty budget ++ " tokens — the section framing alone costs " ++ pretty cost))
      else Ok (message, cost, true)
  | S n' =>
      if (cost <=? budget)%N then Ok (message, cost, true)
      else fit_loop n' kind text (bytes / 2) budget
  end.

(** [fit_text_section]. *)
Definition fit_text_section (kind : SectionKind) (text : string) (budget : N) (o : BudgetOverflow) :
    res (ChatMessage * N * bool) :=
  let message := msg_system text in
  let cost := count_item message in
  if (cost <=? budget)%N then Ok (message, cost, false)
  else
    match o with
    | OverflowFail =>
        Err (invalid ("the " ++ section_name kind ++ " section does not fit its budget: an estimated "
               ++ pretty cost ++ " tokens against " ++ pretty budget ++ " declared — a "
               ++ section_name kind ++ " that does not fit is a configuration error, not a truncation"))
    | OverflowTruncate => fit_loop 32 kind text (byte_budget_for_tokens budget margin) budget
    end.

(** ** Clipping tool results *)

Definition with_content (text : string) (m : ChatMessage) : ChatMessage :=
  mkChat (cm_role m) (Some text) (cm_tool_calls m) (cm_tool_call_id m) (cm_name m).

Fixpoint clip_loop (n : nat) (content notice : string) (cap bytes : N) (cut : ChatMessage) : ChatMessage :=
  match n with
  | O => cut
  | S n' =>
      let cut' := with_content (truncate_to_byte_budget content bytes ++ notice) cut in
      if (count_item cut' <=? cap)%N then cut' else clip_loop n' content notice cap (bytes / 2) cut'
  end.

Definition clips (cap : N) (m : ChatMessage) : bool := is_tool m && negb (count_item m <=? cap)%N.

Definition clip_result (cap : N) (m : ChatMessage) : ChatMessage :=
  if clips cap m
  then
    let content := default EmptyString (cm_content m) in
    clip_loop 32 content (tool_result_clipped_notice (String.length content)) cap
      (byte_budget_for_tokens cap margin) m
  else m.

(** [clip_tool_results]. *)
Definition clip_tool_results (items : list ChatMessage) (cap : N) : list ChatMessage * nat :=
  (map (clip_result cap) items, length (List.filter (clips cap) items)).

(** ** Compaction *)

(** [fit_watermark]. *)
Fixpoint fit_from (rev : list ChatMessage) (room used : N) : nat :=
  match rev with
  | [] => 0
  | m :: older =>
      let total := u32_wrap (used + count_item m) in
      if (room <? total)%N then S (length older) else fit_from older room total
  end.

Definition fit_watermark (history : list ChatMessage) (room : N) : nat :=
  back_to_step history (Nat.min (fit_from (reverse history) room 0) (length history - 1)).

(** [Iterator::rposition]. *)
Definition last_position (f : ChatMessage -> bool) (l : list ChatMessage) : option nat :=
  let fix go (rev : list ChatMessage) : option nat :=
    match rev with
    | [] => None
    | m :: older => if f m then Some (length older) else go older
    end in
  go (reverse l).

(** The person's latest message, clipped to a quarter of the history. *)
Definition question_of (history : list ChatMessage) (budget : option N) : option ChatMessage :=
  at_ ← last_position is_user history;
  m ← history !! at_;
  let quarter := match budget with Some b => N.max (b / 4) 128 | None => u32_max end in
  Some (msg_user (truncate_to_byte_budget (default EmptyString (cm_content m))
                    (byte_budget_for_tokens quarter margin))).

(** The stored summary, when it still describes the history. *)
Definition usable_prior (history : list ChatMessage) (watermark : nat) : option StoredSummary :=
  s ← pl_prior_summary p;
  if (0 <? sts_watermark s)%nat && (sts_watermark s <=? watermark)%nat
     && String.eqb (sts_prefix_hash s) (prefix_hash (take (sts_watermark s) history))
  then Some s else None.

(** The summarizer's request and its call. *)
Definition summarizer_request (c : CompactionPolicy) (history : list ChatMessage) (watermark : nat)
    (prior : option StoredSummary) : list ChatMessage :=
  let cap := match cx_history (pl_policy p) with
             | Some h => N.max (sec_budget h / 2) 256
             | None => u32_max
             end in
  let transcript :=
    match prior with
    | Some s =>
        delta_rendering (sts_summary s) (sts_watermark s)
          (clip_tool_results (drop (sts_watermark s) (take watermark history)) cap).1 watermark
          (cpt_summary_max_tokens c)
    | None => compaction_rendering (clip_tool_results (take watermark history) cap).1
    end in
  [msg_system (cpt_prompt c); msg_user transcript].

Definition no_summarizer : RustyError :=
  invalid ("the compaction trigger fired but the pipeline has no summarizer — the per-mode "
    ++ "summarizer slot (recording / replaying over the run's journal, or bare) is construction-time wiring; "
    ++ "a policy that declares compaction without one would silently drop history").

Definition summarize (c : CompactionPolicy) (history : list ChatMessage) (watermark : nat) :
    Code W (string * bool * option nat) :=
  let prior := usable_prior history watermark in
  match (s ← prior; if (sts_watermark s =? watermark)%nat then Some s else None) with
  | Some s => mret (sts_summary s, true, None)
  | None =>
      match pl_summarizer p with
      | None => of_try (of_res (Err no_summarizer))
      | Some chat =>
          response ← of_call (chat (summarizer_request c history watermark prior) []);
          mret (default EmptyString (cm_content (cr_message response)), false, sts_watermark <$> prior)
      end
  end.

(** Cutting an over-long summary until its message fits the bound. *)
Fixpoint clip_summary (n watermark : nat) (bound bytes : N) (summary : string) : string :=
  match n with
  | O => summary
  | S n' =>
      let cut := truncate_to_byte_budget summary bytes in
      if (count_item (summary_message watermark cut true) <=? bound)%N then cut
      else clip_summary n' watermark bound (bytes / 2) cut
  end.

Definition bounded_summary (c : CompactionPolicy) (watermark : nat) (text : string) : string * bool :=
  let bound := cpt_summary_max_tokens c in
  if (bound <? count_item (summary_message watermark text false))%N
  then (clip_summary 32 watermark bound (byte_budget_for_tokens bound margin) text, true)
  else (text, false).

(** The history behind its summary, once the watermark is chosen. *)
Definition compacted (c : CompactionPolicy) (history : list ChatMessage) (watermark : nat)
    (question : option ChatMessage) (text : string) (reused : bool) (delta_from : option nat) :
    res (list ChatMessage * option CompactionReport * option StoredSummary) :=
  let stored :=
    mkStored watermark
      (truncate_to_byte_budget text
         (byte_budget_for_tokens (u32_wrap (cpt_summary_max_tokens c * 2)) margin))
      (prefix_hash (take watermark history)) in
  let '(summary, truncated) := bounded_summary c watermark text in
  let message := summary_message watermark summary truncated in
  let summary_tokens := count_item message in
  if (cpt_summary_max_tokens c <? summary_tokens)%N
  then
    Err (invalid ("the compaction summary bound of " ++ pretty (cpt_summary_max_tokens c)
           ++ " tokens is unenforceable: the generated-marker framing alone costs an estimated "
           ++ pretty summary_tokens ++ " — raise `summary_max_tokens`; an unenforceable bound is a "
           ++ "configuration error, not a truncation"))
  else
    let kept := match last_position is_user history with Some at_ => (at_ <? watermark)%nat | None => false end in
    Ok ((message :: (if kept then match question with Some q => [q] | None => [] end else [])
           ++ drop watermark history)%list,
        Some (mkCompactionReport watermark reused delta_from summary_tokens truncated kept),
        Some stored).

(** [compact_history]. *)
Definition chosen_watermark (c : CompactionPolicy) (history : list ChatMessage) (watermark : nat)
    (question : option ChatMessage) : nat :=
  match cx_history (pl_policy p) with
  | Some h =>
      let cost := match question with Some q => count_item q | None => 0%N end in
      Nat.max watermark
        (fit_watermark history (u32_sub (u32_sub (sec_budget h) (cpt_summary_max_tokens c)) cost))
  | None => watermark
  end.

Definition compact_history (history : list ChatMessage) (c : CompactionPolicy) :
    Code W (list ChatMessage * option CompactionReport * option StoredSummary) :=
  let tokens := u32_wrap (foldr (fun m n => count_item m + n)%N 0%N history) in
  if (tokens <=? cpt_trigger_tokens c)%N then mret (history, None, None)
  else
    match compaction_watermark history c with
    | Panics payload => of_try (Panics payload)
    | Returns None => mret (history, None, None)
    | Returns (Some w) =>
        let question := question_of history (sec_budget <$> cx_history (pl_policy p)) in
        let watermark := chosen_watermark c history w question in
        t ← summarize c history watermark;
        let '(text, reused, delta_from) := t : string * bool * option nat in
        of_try (of_res (compacted c history watermark question text reused delta_from))
    end.

(** ** Packing *)

(** The loop of [pack_history], newest first; the pinned message's room is
    already taken. *)
Fixpoint pack_tail (rev : list ChatMessage) (latest : option nat) (budget used : N)
    (kept : list ChatMessage) (in_place : bool) : list ChatMessage * N * bool * bool :=
  match rev with
  | [] => (kept, used, false, in_place)
  | m :: older =>
      if bool_decide (latest = Some (length older))
      then pack_tail older latest budget used (m :: kept) true
      else if (budget <? u32_add used (count_item m))%N then (kept, used, true, in_place)
      else pack_tail older latest budget (u32_add used (count_item m)) (m :: kept) in_place
  end.

(** The leading tool results of a step the budget cut into. *)
Fixpoint drop_results (kept : list ChatMessage) (used : N) : list ChatMessage * N * bool :=
  match kept with
  | m :: rest =>
      if is_tool m
      then let '(kept', used', _) := drop_results rest (u32_sub used (count_item m)) in (kept', used', true)
      else (kept, used, false)
  | [] => ([], used, false)
  end.

Definition pinned_fits (budget summary_cost : N) (q : ChatMessage) : bool :=
  (u32_add summary_cost (count_item q) <=? budget)%N.

(** The pinned message: the kept question, or the latest user message of the
    tail where it stands. *)
Definition pin_question (tail : list ChatMessage) (kept_question : option ChatMessage)
    (budget summary_cost : N) : option ChatMessage * option nat :=
  match (q ← kept_question; if pinned_fits budget summary_cost q then Some q else None) with
  | Some q => (Some q, None)
  | None =>
      match last_position is_user tail with
      | Some at_ =>
          match tail !! at_ with
          | Some m => if pinned_fits budget summary_cost m then (Some m, Some at_) else (None, None)
          | None => (None, None)
          end
      | None => (None, None)
      end
  end.

Definition pack_steps (tail : list ChatMessage) (kept_question : option ChatMessage)
    (budget summary_cost : N) : list ChatMessage * N * bool :=
  let '(pinned, latest) := pin_question tail kept_question budget summary_cost in
  let start := (summary_cost + match pinned with Some q => count_item q | None => 0 end)%N in
  let '(kept, used, truncated, in_place) := pack_tail (reverse tail) latest budget start [] false in
  let lead := if in_place && match kept with m :: _ => is_user m | [] => false end then 1%nat else 0%nat in
  let '(rest, used', dropped) := drop_results (drop lead kept) used in
  let moved := match pinned with Some q => if in_place then [] else [q] | None => [] end in
  ((moved ++ take lead kept ++ rest)%list, used', truncated || dropped).

(** [pack_history]. *)
Definition pack_history (items : list ChatMessage) (budget : N) (report : option CompactionReport) :
    Try (list ChatMessage * N * bool) :=
  match report with
  | None => mret (pack_steps items None budget 0)
  | Some r =>
      match items with
      | [] => Panics (out_of_bounds 0 0)
      | summary :: tail =>
          let cost := count_item summary in
          if (budget <? cost)%N
          then
            of_res (Err (invalid ("the compaction summary costs an estimated " ++ pretty cost
                      ++ " tokens against a history budget of " ++ pretty budget
                      ++ " — raise the history budget or lower `summary_max_tokens`; dropping the summary "
                      ++ "would silently lose the compacted span")))
          else
            let '(question, steps) :=
              match tail with
              | q :: steps => if cpr_question_kept r then (Some q, steps) else (None, tail)
              | [] => (None, tail)
              end in
            let '(packed, used, truncated) := pack_steps steps question budget cost in
            mret ((summary :: packed)%list, used, truncated)
      end
  end.
End Pipeline.
