(* ===== verification/ContextAssembly.v ===== *)
(** * Context assembly ([rusty-core/src/context.rs])

    One packing pass over the sections, the manifest that reports it and
    counts itself, the absorption loop that shrinks history and memory until
    the total fits, and the model wrapper that assembles every call. *)

From Stdlib Require Import String.
From S2P Require Import Prelude Containers Json Error Record Chat Text Middleware ToolSelect Memory MemoryPlans Context ContextHistory.
Local Open Scope string_scope.

(** ** Inputs and outcomes *)

(** [ContextInputs]. *)
Record ContextInputs : Type := mkInputs {
  ci_identity : option string;
  ci_task : option string;
  ci_skills : list SkillSectionEntry;
  ci_tools : list Value;
  ci_tool_manifests : list ToolManifest;
  ci_task_tags : list string;
  ci_tool_outcomes : list (string * ToolOutcomeStats);
  ci_effect_ceiling : option Effect;
  ci_history : list ChatMessage;
}.

(** [PackedSection], [PackedSections]. *)
Record PackedSection (T : Type) : Type := mkPacked {
  pk_content : T;
  pk_used : N;
  pk_truncated : bool;
  pk_budget : N;
  pk_effective_budget : N;
  pk_ids : list string;
  pk_shortlist : option ToolShortlist;
  pk_clipped_tool_results : nat;
  pk_skill_bodies_omitted : nat;
  pk_tools_shortened : nat;
}.
Arguments mkPacked {T} _ _ _ _ _ _ _ _ _ _.
Arguments pk_content {T} _.
Arguments pk_used {T} _.
Arguments pk_truncated {T} _.
Arguments pk_budget {T} _.
Arguments pk_effective_budget {T} _.
Arguments pk_ids {T} _.
Arguments pk_shortlist {T} _.
Arguments pk_clipped_tool_results {T} _.
Arguments pk_skill_bodies_omitted {T} _.
Arguments pk_tools_shortened {T} _.

Record PackedSections : Type := mkPackedSections {
  ps_identity : option (PackedSection ChatMessage);
  ps_task : option (PackedSection ChatMessage);
  ps_skills : option (PackedSection ChatMessage);
  ps_tools : option (PackedSection (list Value));
  ps_memory : option (PackedSection ChatMessage);
  ps_history : option (PackedSection (list ChatMessage));
  ps_recall : option (PackedSection ChatMessage);
}.

(** [SectionReport], [SectionManifest], [ContextAssembly]. *)
Record SectionReport : Type := mkReport {
  sr_kind : SectionKind;
  sr_budget_tokens : N;
  sr_effective_budget_tokens : option N;
  sr_used_tokens : N;
  sr_truncated : bool;
  sr_ids : list string;
  sr_compaction : option CompactionReport;
  sr_clipped_tool_results : nat;
  sr_skill_bodies_omitted : nat;
  sr_tools_shortened : nat;
  sr_shortlist : option ToolShortlist;
}.

Record SectionManifest : Type := mkManifest {
  mf_format : string;
  mf_policy : PolicyPin;
  mf_counter : string;
  mf_budget_tokens : N;
  mf_manifest_tokens : N;
  mf_sections : list SectionReport;
}.

Record ContextAssembly : Type := mkContextAssembly {
  ca_stored_summary : option StoredSummary;
  ca_messages : list ChatMessage;
  ca_tools : list Value;
  ca_manifest : SectionManifest;
}.

(** [PackedSection::new] with its identifiers. *)
Definition packed_new {T : Type} (content : T) (used : N) (truncated : bool) (budget : N) (ids : list string) :
    PackedSection T := mkPacked content used truncated budget budget ids None 0 0 0.

(** [PackedSection::report], [PackedSections::section_reports]. *)
Definition packed_report {T : Type} (kind : SectionKind) (compaction : option CompactionReport)
    (s : PackedSection T) : SectionReport :=
  mkReport kind (pk_budget s)
    (if (pk_effective_budget s =? pk_budget s)%N then None else Some (pk_effective_budget s))
    (pk_used s) (pk_truncated s) (pk_ids s) compaction (pk_clipped_tool_results s)
    (pk_skill_bodies_omitted s) (pk_tools_shortened s) (pk_shortlist s).

Definition opt_list {A B : Type} (f : A -> B) (o : option A) : list B :=
  match o with Some a => [f a] | None => [] end.

Definition section_reports (compaction : option CompactionReport) (ps : PackedSections) : list SectionReport :=
  (opt_list (packed_report SecIdentity None) (ps_identity ps)
   ++ opt_list (packed_report SecTask None) (ps_task ps)
   ++ opt_list (packed_report SecSkills None) (ps_skills ps)
   ++ opt_list (packed_report SecTools None) (ps_tools ps)
   ++ opt_list (packed_report SecMemory None) (ps_memory ps)
   ++ opt_list (packed_report SecHistory compaction) (ps_history ps)
   ++ opt_list (packed_report SecRecall None) (ps_recall ps))%list.

(** ** The manifest's JSON *)

Definition ranked_value (r : RankedManifest) : Value :=
  jobj ([("name", Str (rm_name r)); ("score", jN (rm_score r))]
        ++ jlist_skip "matched_tags" (rm_matched_tags r))%list.

Definition excluded_value (x : ExcludedManifest) : Value :=
  jobj [("name", Str (xm_name x));
        ("reason", match xm_reason x with
                   | EffectAboveCeiling => jobj [("kind", Str "effect_above_ceiling")]
                   | UnsatisfiedPrerequisites missing =>
                       jobj [("kind", Str "unsatisfied_prerequisites"); ("missing", jstrs missing)]
                   end)].

Definition shortlist_value (s : ToolShortlist) : Value :=
  jobj ([("selected", Array (map ranked_value (sl_selected s)));
         ("ranking", Array (map ranked_value (sl_ranking s)))]
        ++ jskip "excluded" (is_nil (sl_excluded s)) (Array (map excluded_value (sl_excluded s))))%list.

Definition compaction_report_value (r : CompactionReport) : Value :=
  jobj ([("watermark", jnat (cpr_watermark r))]
        ++ jskip "reused_summary" (negb (cpr_reused_summary r)) (Bool true)
        ++ jopt "delta_from" (jnat <$> cpr_delta_from r)
        ++ [("summary_tokens", jN (cpr_summary_tokens r))]
        ++ jskip "summary_truncated" (negb (cpr_summary_truncated r)) (Bool true)
        ++ jskip "question_kept" (negb (cpr_question_kept r)) (Bool true))%list.

Definition report_value (r : SectionReport) : Value :=
  jobj ([("kind", Str (section_name (sr_kind r))); ("budget_tokens", jN (sr_budget_tokens r))]
        ++ jopt "effective_budget_tokens" (jN <$> sr_effective_budget_tokens r)
        ++ [("used_tokens", jN (sr_used_tokens r)); ("truncated", Bool (sr_truncated r))]
        ++ jlist_skip "ids" (sr_ids r) ++ jopt "compaction" (compaction_report_value <$> sr_compaction r)
        ++ jskip "clipped_tool_results" (sr_clipped_tool_results r =? 0)%nat (jnat (sr_clipped_tool_results r))
        ++ jskip "skill_bodies_omitted" (sr_skill_bodies_omitted r =? 0)%nat (jnat (sr_skill_bodies_omitted r))
        ++ jskip "tools_shortened" (sr_tools_shortened r =? 0)%nat (jnat (sr_tools_shortened r))
        ++ jopt "shortlist" (shortlist_value <$> sr_shortlist r))%list.

Definition pin_value (p : PolicyPin) : Value :=
  jobj (("name", Str (pin_name p))
        :: jopt "candidate_id" (Str <$> pin_candidate_id p)
        ++ jopt "content_hash" (Str <$> pin_content_hash p))%list.

Definition section_manifest_value (m : SectionManifest) : Value :=
  jobj [("format", Str (mf_format m)); ("policy", pin_value (mf_policy m)); ("counter", Str (mf_counter m));
        ("budget_tokens", jN (mf_budget_tokens m)); ("manifest_tokens", jN (mf_manifest_tokens m));
        ("sections", Array (map report_value (mf_sections m)))].

(** [get_mut] and an update; an absent member stays absent. *)
Definition update_member (k : string) (f : Value -> Value) (v : Value) : Value :=
  match v with
  | Object m => match BTree.get k m with Some x => Object (BTree.insert k (f x) m) | None => v end
  | _ => v
  end.

Definition update_items (f : Value -> Value) (v : Value) : Value :=
  match v with Array l => Array (map f l) | _ => v end.

Definition remove_member (k : string) (v : Value) : Value :=
  match v with Object m => Object (BTree.remove k m) | _ => v end.

(** The manifest without the shortlist's scores. *)
Definition without_scores (entry : Value) : Value := remove_member "features" (remove_member "score" entry).

Definition visible_shortlist (shortlist : Value) : Value :=
  fold_left (fun v key => update_member key (update_items without_scores) v)
    ["selected"; "ranking"; "excluded"] shortlist.

Definition visible_value (m : SectionManifest) : Value :=
  update_member "sections" (update_items (update_member "shortlist" visible_shortlist))
    (section_manifest_value m).

Section Assembly.
Context `{Codec, Unicode} {W : Type} (day_text : DateTime -> string) (p : ContextPipeline W).
#[local] Abbreviation policy := (pl_policy p).

(** ** The sections of one pass *)

Definition pack_recall (records : list MemoryRecord) : option (PackedSection ChatMessage) :=
  match cx_recall policy, records with
  | Some recall, _ :: _ =>
      let message := msg_system (recall_body day_text records) in
      Some (packed_new message (count_item p message) false (rc_budget recall) (map mr_memory_id records))
  | _, _ => None
  end.

(** The identity and task sections. *)
Definition pack_text (kind : SectionKind) (section : option SectionPolicy) (text : option string) :
    res (option (PackedSection ChatMessage)) :=
  match section with
  | None => Ok None
  | Some s =>
      f ← fit_text_section p kind (default EmptyString text) (sec_budget s)
            (resolved_overflow (sec_overflow s) kind);
      let '(message, cost, truncated) := f : ChatMessage * N * bool in
      Ok (Some (packed_new message cost truncated (sec_budget s) []))
  end.

(** The procedures this run read, newest first, as many as fit whole. *)
Definition select_read (skills : list SkillSectionEntry) (history : list ChatMessage) (budget : N) :
    list string :=
  fold_left (fun selected name =>
    if existsb (fun s => String.eqb (sk_name s) name && has_body s) skills
    then
      let trial := (selected ++ [name])%list in
      if (count_item p (msg_system (skills_body_selected skills trial)) <=? budget)%N then trial else selected
    else selected) (skills_read_in history) [].

Definition skill_id (s : SkillSectionEntry) : string :=
  sk_name s ++ "@" ++ sk_revision s ++ ":" ++ sk_content_hash s.

Definition pack_skills (inputs : ContextInputs) : res (option (PackedSection ChatMessage)) :=
  match cx_skills policy, ci_skills inputs with
  | Some s, (_ :: _) as skills =>
      let full := skills_body skills true in
      let '(body, omitted) :=
        if (count_item p (msg_system full) <=? sec_budget s)%N then (full, 0%nat)
        else
          let selected := select_read skills (ci_history inputs) (sec_budget s) in
          (skills_body_selected skills selected,
           (length (List.filter has_body skills) - length selected)%nat) in
      f ← fit_text_section p SecSkills body (sec_budget s) (resolved_overflow (sec_overflow s) SecSkills);
      let '(message, cost, truncated) := f : ChatMessage * N * bool in
      Ok (Some (mkPacked message cost truncated (sec_budget s) (sec_budget s) (map skill_id skills) None 0
                  omitted 0))
  | _, _ => Ok None
  end.

(** Packing schemas in order: one that does not fit is left out or fails the
    section. *)
Definition tools_overflow (name : string) (cost used budget : N) : RustyError :=
  invalid ("the tools section does not fit its budget: schema `" ++ name ++ "` costs an estimated "
    ++ pretty cost ++ " tokens with " ++ pretty used ++ " of " ++ pretty budget
    ++ " already used — the shortlist is too wide for the declared budget").

Definition not_handed (name : string) : RustyError :=
  invalid ("the shortlist selected `" ++ name ++ "`, which is not among the input manifests — "
    ++ "selection must draw from the handed set").

Fixpoint pack_schemas (o : BudgetOverflow) (budget : N) (schemas : list (string * option Value)) (used : N)
    (kept : list (string * Value)) (truncated : bool) : res (list (string * Value) * N * bool) :=
  match schemas with
  | [] => Ok (kept, used, truncated)
  | (name, None) :: _ => Err (not_handed name)
  | (name, Some schema) :: rest =>
      let cost := count_schema p schema in
      if (budget <? u32_add used cost)%N
      then match o with
           | OverflowTruncate => pack_schemas o budget rest used kept true
           | OverflowFail => Err (tools_overflow name cost used budget)
           end
      else pack_schemas o budget rest (u32_add used cost) (kept ++ [(name, schema)]) truncated
  end.

(** Whether every tool rides in its short form. *)
Definition shortens (o : BudgetOverflow) (budget : N) (schemas : list Value) : bool :=
  (budget <? foldl u32_add 0 (map (count_schema p) schemas))%N && bool_decide (o = OverflowTruncate).

Definition schema_leb (a b : string * Value) : bool := str_leb a.1 b.1.

(** The governed path: the shortlist's schemas, then in name order. *)
Definition pack_shortlist (section : ToolsSectionPolicy) (inputs : ContextInputs) (sl : ToolShortlist) :
    res (PackedSection (list Value)) :=
  let o := resolved_overflow (tsec_overflow section) SecTools in
  let manifest r := BTree.get (rm_name r) (by_name (ci_tool_manifests inputs)) in
  let shorten := shortens o (tsec_budget section) (map manifest_schema (omap manifest (sl_selected sl))) in
  let schema m := if shorten then short_schema (manifest_schema m) else manifest_schema m in
  f ← pack_schemas o (tsec_budget section) (map (fun r => (rm_name r, schema <$> manifest r)) (sl_selected sl))
        0 [] false;
  let '(kept, used, truncated) := f : list (string * Value) * N * bool in
  let ordered := sort_by schema_leb kept in
  Ok (mkPacked (map snd ordered) used truncated (tsec_budget section) (tsec_budget section)
        (map fst ordered) (Some sl) 0 0 (if shorten then length ordered else 0)).

(** The fallback path: the schemas as handed. *)
Definition pack_handed (section : ToolsSectionPolicy) (tools : list Value) : res (PackedSection (list Value)) :=
  let o := resolved_overflow (tsec_overflow section) SecTools in
  let shorten := shortens o (tsec_budget section) tools in
  let schema t := if shorten then short_schema t else t in
  let named t := (match schema_name t with Ok n => n | Err _ => "<unnamed>" end, Some t) in
  f ← pack_schemas o (tsec_budget section) (map (fun t => named (schema t)) tools) 0 [] false;
  let '(kept, used, truncated) := f : list (string * Value) * N * bool in
  ids ← mapM (fun kv => schema_name kv.2) kept;
  Ok (mkPacked (map snd kept) used truncated (tsec_budget section) (tsec_budget section) ids None 0 0
        (if shorten then length kept else 0)).

Definition pack_tools (inputs : ContextInputs) : Try (option (PackedSection (list Value))) :=
  match cx_tools policy with
  | None => mret None
  | Some section =>
      match ci_tool_manifests inputs with
      | [] => of_res (s ← pack_handed section (ci_tools inputs); Ok (Some s))
      | manifests =>
          let features :=
            mkFeatures (ci_task_tags inputs) (default NonIdempotent (ci_effect_ceiling inputs))
              (ci_tool_outcomes inputs) in
          match shortlist features manifests (tsec_selection section) with
          | Some sl => of_res (s ← pack_shortlist section inputs sl; Ok (Some s))
          | None => Panics PayloadOther
          end
      end
  end.

(** The records a memory budget carries, line by line. *)
Fixpoint pack_lines (o : BudgetOverflow) (budget : N) (records : list MemoryRecord) (used : N)
    (kept : list MemoryRecord) : res (list MemoryRecord * N * bool) :=
  match records with
  | [] => Ok (kept, used, false)
  | r :: rest =>
      let cost := count_item p (msg_system (memory_line r)) in
      if (budget <? u32_add used cost)%N
      then match o with
           | OverflowTruncate => Ok (kept, used, true)
           | OverflowFail =>
               Err (invalid ("the memory section does not fit its budget: record `" ++ mr_memory_id r
                      ++ "` costs an estimated " ++ pretty cost ++ " tokens with " ++ pretty used ++ " of "
                      ++ pretty budget ++ " already used"))
           end
      else pack_lines o budget rest (u32_add used cost) (kept ++ [r])
  end.

Definition pack_memory (records : list MemoryRecord) (memory_omitted : nat) (budget : N) :
    res (option (PackedSection ChatMessage)) :=
  match cx_memory policy, records with
  | Some section, _ :: _ =>
      f ← pack_lines (resolved_overflow (msec_overflow section) SecMemory) budget records
            (count_item p (msg_system "# Memory")) [];
      let '(kept, used, truncated) := f : list MemoryRecord * N * bool in
      match kept with
      | [] => Ok None
      | _ =>
          let omitted := (memory_omitted + (length records - length kept))%nat in
          let used' :=
            if (omitted =? 0)%nat then used
            else u32_add used (count_item p (msg_system (memory_omitted_line omitted))) in
          Ok (Some (mkPacked (msg_system (memory_body kept omitted)) used' truncated (msec_budget section)
                      budget (map mr_memory_id kept) None 0 0 0))
      end
  | _, _ => Ok None
  end.

Definition pack_history_section (items : list ChatMessage) (report : option CompactionReport) (clipped : nat)
    (budget : N) : Try (option (PackedSection (list ChatMessage))) :=
  match cx_history policy, items with
  | Some section, _ :: _ =>
      f ← pack_history p items budget report;
      let '(messages, used, truncated) := f : list ChatMessage * N * bool in
      match messages with
      | [] => mret None
      | _ => mret (Some (mkPacked messages used truncated (sec_budget section) budget [] None clipped 0 0))
      end
  | _, _ => mret None
  end.

(** What an assembly gathered before packing. *)
Record Gathered : Type := mkGathered {
  ga_memory : list MemoryRecord;
  ga_omitted : nat;
  ga_recall : list MemoryRecord;
  ga_history : list ChatMessage;
  ga_compaction : option CompactionReport;
  ga_clipped : nat;
}.

(** [pack_sections]. *)
Definition pack_sections (inputs : ContextInputs) (g : Gathered) (history_budget memory_budget : N) :
    Try PackedSections :=
  let recall := pack_recall (ga_recall g) in
  identity ← of_res (pack_text SecIdentity (cx_identity policy) (ci_identity inputs));
  task ← of_res (pack_text SecTask (cx_task policy) (ci_task inputs));
  skills ← of_res (pack_skills inputs);
  tools ← pack_tools inputs;
  memory ← of_res (pack_memory (ga_memory g) (ga_omitted g) memory_budget);
  history ← pack_history_section (ga_history g) (ga_compaction g) (ga_clipped g) history_budget;
  mret (mkPackedSections identity task skills tools memory history recall).

(** ** The manifest *)

Definition manifest_of (ps : PackedSections) (compaction : option CompactionReport) (tokens : N) :
    SectionManifest :=
  mkManifest MANIFEST_FORMAT_VERSION (pl_policy_pin p) (tk_id (pl_counter p))
    (cb_max_tokens (cx_budget policy)) tokens (section_reports compaction ps).

Definition manifest_message (m : SectionManifest) : ChatMessage :=
  mkChat RoleSystem (Some (MANIFEST_FORMAT_VERSION ++ nl ++ default EmptyString (to_vec (visible_value m))))
    [] None (Some MANIFEST_MESSAGE_NAME).

(** [render_manifest]: the count of a manifest that carries its own count. *)
Fixpoint render_loop (n : nat) (ps : PackedSections) (compaction : option CompactionReport) (tokens : N) :
    res (SectionManifest * ChatMessage) :=
  match n with
  | O =>
      Err (invalid ("the manifest's token line did not converge — the count is a step function of the digits, "
             ++ "so this is unreachable; if it fires, the counter is pathological"))
  | S n' =>
      let manifest := manifest_of ps compaction tokens in
      let message := manifest_message manifest in
      let cost := count_item p message in
      if (cost =? tokens)%N then Ok (manifest, message) else render_loop n' ps compaction cost
  end.

Definition render_manifest (ps : PackedSections) (compaction : option CompactionReport) :
    res (SectionManifest * ChatMessage) := render_loop 8 ps compaction 0.

(** [finish]. *)
Definition finish_assembly (ps : PackedSections) (manifest : SectionManifest) (message : ChatMessage)
    (inputs : ContextInputs) (stored : option StoredSummary) : ContextAssembly :=
  mkContextAssembly stored
    (opt_list pk_content (ps_identity ps) ++ opt_list pk_content (ps_task ps)
     ++ opt_list pk_content (ps_skills ps) ++ opt_list pk_content (ps_memory ps)
     ++ match ps_history ps with Some s => pk_content s | None => [] end
     ++ opt_list pk_content (ps_recall ps) ++ [message])%list
    match ps_tools ps with Some s => pk_content s | None => ci_tools inputs end manifest.

(** ** Absorption *)

Definition used_total (m : SectionManifest) : N :=
  u32_add (mf_manifest_tokens m) (u32_wrap (foldr (fun r n => sr_used_tokens r + n)%N 0%N (mf_sections m))).

Fixpoint absorb (n : nat) (inputs : ContextInputs) (g : Gathered) (stored : option StoredSummary)
    (history_budget memory_budget : N) : Try ContextAssembly :=
  match n with
  | O =>
      of_res (Err (invalid ("total-budget absorption did not converge — budgets shrink monotonically, so this is "
                ++ "unreachable; if it fires, the policy is pathological")))
  | S n' =>
      ps ← pack_sections inputs g history_budget memory_budget;
      rendered ← of_res (render_manifest ps (ga_compaction g));
      let '(manifest, message) := rendered : SectionManifest * ChatMessage in
      let total := used_total manifest in
      let max := cb_max_tokens (cx_budget policy) in
      if (total <=? max)%N then mret (finish_assembly ps manifest message inputs stored)
      else if negb (is_none (cx_history policy)) && negb (is_nil (ga_history g)) && (0 <? history_budget)%N
      then absorb n' inputs g stored (u32_sub history_budget (total - max)) memory_budget
      else if negb (is_none (cx_memory policy)) && negb (is_nil (ga_memory g)) && (0 <? memory_budget)%N
      then absorb n' inputs g stored history_budget (u32_sub memory_budget (total - max))
      else
        of_res (Err (invalid ("the assembly exceeds the total budget: " ++ pretty total
                  ++ " estimated tokens against " ++ pretty max
                  ++ " declared, with the truncatable sections already absorbed — the policy's budget split "
                  ++ "does not compose")))
  end.

(** ** The assembly *)

(** [JournaledMemory::read] of the handle. *)
Context (read : option (MemoryQuery -> ContextBudget -> option string -> W -> res MemoryAssembly * W)).

Definition check_inputs (inputs : ContextInputs) : res unit :=
  if negb (is_none (cx_identity policy)) && is_none (ci_identity inputs)
  then Err (invalid ("the policy enables the identity section but the inputs carry no identity text — identity is "
              ++ "pinned at admission; a run without it is a wiring bug"))
  else if negb (is_none (cx_task policy)) && is_none (ci_task inputs)
  then Err (invalid "the policy enables the task section but the inputs carry no task text")
  else if negb (is_none (cx_memory policy)) && is_none read
  then Err (invalid ("the policy enables the memory section but no JournaledMemory handle was supplied — the memory "
              ++ "section is queried per assembly through the journaled seam, never from a raw store"))
  else Ok ().

Definition section_read_budget (tokens : N) (o : BudgetOverflow) : ContextBudget :=
  with_overflow o (with_margin_percent (margin p) (budget_new tokens)).

(** The one journaled read, and the one of lane-one recall. *)
Definition read_memory : Code W (list MemoryRecord * nat) :=
  match cx_memory policy, read with
  | Some section, Some read =>
      a ← of_call (read (msec_query section)
            (section_read_budget (msec_budget section) (resolved_overflow (msec_overflow section) SecMemory))
            (Some CONTEXT_PIPELINE_PARENT));
      mret (ma_records a, ma_omitted a)
  | _, _ => mret ([], 0%nat)
  end.

Definition recall_text (history : list ChatMessage) : option string :=
  m ← List.find is_user (reverse history);
  text ← cm_content m;
  if String.eqb (str_trim text) EmptyString then None else Some (str_trim text).

Definition read_recall (history : list ChatMessage) : Code W (list MemoryRecord) :=
  match cx_recall policy, cx_memory policy, read with
  | Some recall, Some section, Some read =>
      match recall_text history with
      | Some text =>
          a ← of_call (read (with_text text (msec_query section))
                (section_read_budget (rc_budget recall) OverflowTruncate) (Some CONTEXT_PIPELINE_PARENT));
          mret (take (rc_top_k recall) (ma_records a))
      | None => mret []
      end
  | _, _, _ => mret []
  end.

(** The history, compacted and clipped. *)
Definition gather_history (history : list ChatMessage) :
    Code W (list ChatMessage * option CompactionReport * option StoredSummary * nat) :=
  match cx_history policy with
  | None => mret ([], None, None, 0%nat)
  | Some section =>
      h ← match cx_compaction policy with
          | Some c => compact_history p history c
          | None => mret (history, None, None)
          end;
      let '(items, report, stored) := h : list ChatMessage * option CompactionReport * option StoredSummary in
      let '(clipped, count) := clip_tool_results p items (N.max (sec_budget section / 2) 256) in
      mret (clipped, report, stored, count)
  end.

(** [ContextPipeline::assemble]. *)
Definition context_assemble (inputs : ContextInputs) : Code W ContextAssembly :=
  _ ← of_try (of_res (check_inputs inputs));
  m ← read_memory;
  let '(memory, omitted) := m : list MemoryRecord * nat in
  recall ← read_recall (ci_history inputs);
  h ← gather_history (ci_history inputs);
  let '(items, report, stored, clipped) :=
    h : list ChatMessage * option CompactionReport * option StoredSummary * nat in
  of_try (absorb 16 inputs (mkGathered memory omitted recall items report clipped) stored
            (match cx_history policy with Some s => sec_budget s | None => 0%N end)
            (match cx_memory policy with Some s => msec_budget s | None => 0%N end)).

(** ** The assembling model *)

(** [AssemblingChatModel], its construction-time inputs. *)
Record Assembler : Type := mkAssembler {
  as_identity : option string;
  as_identity_from_history : bool;
  as_task : option string;
  as_skills : list SkillSectionEntry;
  as_tool_manifests : list ToolManifest;
  as_task_tags : list string;
  as_tool_outcomes : list (string * ToolOutcomeStats);
  as_effect_ceiling : option Effect;
  as_frozen_prefix : option FrozenPrefix;
}.

(** [AssemblingChatModel::assemble]. *)
Definition lift_identity (a : Assembler) (messages : list ChatMessage) : option string * list ChatMessage :=
  match messages with
  | first :: rest =>
      if as_identity_from_history a && is_none (as_identity a) && is_none (as_frozen_prefix a)
         && has_role RoleSystem first
      then (Some (default EmptyString (cm_content first)), rest)
      else (as_identity a, messages)
  | [] => (as_identity a, messages)
  end.

Definition call_inputs (a : Assembler) (messages : list ChatMessage) (tools : list Value) : ContextInputs :=
  let '(identity, history) := lift_identity a messages in
  mkInputs (if is_none (as_frozen_prefix a) then identity else None) (as_task a) (as_skills a)
    (match as_tool_manifests a with [] => tools | _ => [] end) (as_tool_manifests a) (as_task_tags a)
    (as_tool_outcomes a) (as_effect_ceiling a) history.

Definition assembler_assemble (a : Assembler) (messages : list ChatMessage) (tools : list Value) :
    Code W ContextAssembly :=
  c ← context_assemble (call_inputs a messages tools);
  mret match as_frozen_prefix a with
       | Some f => mkContextAssembly (ca_stored_summary c) (msg_system (fz_text f) :: ca_messages c)
                     (ca_tools c) (ca_manifest c)
       | None => c
       end.

(** [AssemblingChatModel::chat], and [chat_stream] with the inner model's
    stream for [inner]; the slot of the stored summary beside the state. *)
Definition assembling_chat (inner : list ChatMessage -> list Value -> W -> res ChatResponse * W)
    (a : Assembler) (messages : list ChatMessage) (tools : list Value) (slot : option StoredSummary) :
    W -> Try ChatResponse * option StoredSummary * W :=
  fun w =>
    match assembler_assemble a messages tools w with
    | (Returns (Ok c), w') =>
        let verified :=
          match as_frozen_prefix a with
          | Some f => verify_prefix f (default EmptyString (head (ca_messages c) ≫= cm_content))
          | None => Returns (Ok ())
          end in
        match verified with
        | Returns (Ok _) =>
            let '(r, w'') := inner (ca_messages c) (ca_tools c) w' in
            (Returns r, ca_stored_summary c, w'')
        | Returns (Err e) => (Returns (Err e), ca_stored_summary c, w')
        | Panics payload => (Panics payload, ca_stored_summary c, w')
        end
    | (Returns (Err e), w') => (Returns (Err e), slot, w')
    | (Panics payload, w') => (Panics payload, slot, w')
    end.
End Assembly.
