(* ===== verification/ContextHistoryFacts.v ===== *)
(** * The history section keeps its promises

    What packing and compaction do to a history: exact accounting within the
    budget, whole steps, the question kept, a bounded summary. *)

From Stdlib Require Import String.
From S2P Require Import Prelude Containers Json Error Record Chat Declaration Text Middleware ToolSelect Memory Context ContextHistory.
Local Open Scope string_scope.

(** Every tool result follows, over results only, the assistant message of
    its step; [open] says whether one is just before. *)
Fixpoint whole (open : bool) (l : list ChatMessage) : bool :=
  match l with
  | [] => true
  | m :: l' =>
      match cm_role m with
      | RoleTool => open && whole true l'
      | RoleAssistant => whole true l'
      | _ => whole false l'
      end
  end.

Lemma whole_open (b : bool) (l : list ChatMessage) : whole false l = true -> whole b l = true.
Proof. destruct l as [|m l]; [done|]. simpl. by destruct (cm_role m). Qed.

Lemma whole_app (b : bool) (x y : list ChatMessage) :
  whole b (x ++ y)%list = true -> exists b', whole b' y = true.
Proof.
  revert b. induction x as [|m x IH]; intros b; simpl; [eauto|].
  destruct (cm_role m); try apply IH. intros [_ Hw]%andb_true_iff. by eapply IH.
Qed.

Lemma whole_roles (b : bool) (l : list ChatMessage) (f : ChatMessage -> ChatMessage) :
  (forall m, cm_role (f m) = cm_role m) -> whole b (map f l) = whole b l.
Proof.
  intros Hf. revert b. induction l as [|m l IH]; intros b; simpl; [done|].
  rewrite Hf. by destruct (cm_role m); rewrite IH.
Qed.

Definition head_is_tool (l : list ChatMessage) : bool := match l with m :: _ => is_tool m | [] => false end.

Lemma whole_shut (b : bool) (l : list ChatMessage) :
  whole b l = true -> head_is_tool l = false -> whole false l = true.
Proof.
  destruct l as [|m l]; [done|]. simpl. unfold is_tool, has_role.
  by destruct (cm_role m).
Qed.

Lemma whole_suffix (b : bool) (x y : list ChatMessage) :
  whole b (x ++ y)%list = true -> head_is_tool y = false -> whole false y = true.
Proof. intros [b' Hy]%whole_app Hh. by eapply whole_shut. Qed.

Lemma whole_cons_quiet (m : ChatMessage) (b : bool) (l : list ChatMessage) :
  is_tool m = false -> whole false l = true -> whole b (m :: l) = true.
Proof.
  unfold is_tool, has_role. simpl. destruct (cm_role m); try done.
  intros _. apply whole_open.
Qed.

Section Packing.
Context `{Codec} {W : Type} (p : ContextPipeline W).

(** What the counter charges for a list of messages, one by one. *)
Definition cost_of (l : list ChatMessage) : N := foldr (fun m n => count_item p m + n)%N 0%N l.

Lemma cost_of_app (x y : list ChatMessage) : cost_of (x ++ y)%list = (cost_of x + cost_of y)%N.
Proof. induction x as [|m x IH]; simpl; [done|]. rewrite IH. lia. Qed.

Lemma cost_of_reverse (x : list ChatMessage) : cost_of (reverse x) = cost_of x.
Proof. induction x as [|m x IH]; [done|]. rewrite reverse_cons, cost_of_app, IH. simpl. lia. Qed.

Lemma drop_results_spec (l : list ChatMessage) (used : N) :
  exists ts, let '(l', used', d) := drop_results p l used in
    l = (ts ++ l')%list /\ Forall (fun m => is_tool m = true) ts /\ head_is_tool l' = false
    /\ used' = (used - cost_of ts)%N /\ d = negb (is_nil ts).
Proof.
  revert used. induction l as [|m l IH]; intros used; [exists []; simpl; split_and!; try done; lia|]. simpl.
  destruct (is_tool m) eqn:Em.
  - destruct (IH (u32_sub used (count_item p m))) as [ts Hts]. exists (m :: ts).
    destruct (drop_results p l _) as [[l' used'] d]. destruct Hts as (-> & Hf & Hh & -> & ->).
    unfold u32_sub. simpl. split_and!; try done; [by constructor|lia].
  - exists []. simpl. split_and!; try done. lia.
Qed.

(** The newest messages that fit; the pinned one is free. *)
Lemma pack_tail_spec (rev : list ChatMessage) (latest : option nat) (budget used : N)
    (kept : list ChatMessage) (in_place : bool) :
  (used <= budget)%N -> (budget < u32_max)%N ->
  exists a b, let '(kept', used', truncated, in_place') := pack_tail p rev latest budget used kept in_place in
    rev = (a ++ b)%list /\ kept' = (reverse a ++ kept)%list /\ truncated = negb (is_nil b)
    /\ (used' <= budget)%N
    /\ match latest with
       | Some i =>
           if (length b <=? i)%nat && (i <? length rev)%nat
           then in_place' = true
                /\ exists m, rev !! (length rev - 1 - i)%nat = Some m
                     /\ used' = (used + cost_of a - count_item p m)%N /\ (count_item p m <= cost_of a)%N
                     /\ m ∈ a
           else in_place' = in_place /\ used' = (used + cost_of a)%N
       | None => in_place' = in_place /\ used' = (used + cost_of a)%N
       end.
Proof.
  intros Hu Hb. revert used kept in_place Hu. induction rev as [|m older IH]; intros used kept in_place Hu; simpl.
  - exists [], []. simpl. split_and!; try done. destruct latest; simpl; split; (done || lia).
  - case_bool_decide as Hl.
    + destruct (IH used (m :: kept) true Hu) as (a & b & Hab). exists (m :: a), b.
      destruct (pack_tail p older _ _ _ _ _) as [[[kept' used'] truncated] in_place'].
      destruct Hab as (-> & -> & -> & Hle & Hrest). subst latest.
      rewrite length_app in *. replace (_ && (length a + length b <? _)%nat)%bool with false in Hrest.
      2:{ symmetry. apply andb_false_iff. right. apply Nat.ltb_irrefl. }
      destruct Hrest as [-> ->].
      split_and!; [done|by rewrite reverse_cons, <- app_assoc|done|done|].
      replace ((length b <=? length a + length b)%nat && (length a + length b <? S (length a + length b))%nat)
        with true.
      2:{ symmetry. apply andb_true_iff. split; [apply Nat.leb_le|apply Nat.ltb_lt]; lia. }
      split; [done|]. exists m. split_and!; [|simpl; lia|simpl; lia|by left].
      by replace (length a + length b - 0 - (length a + length b))%nat with 0%nat by lia.
    + destruct (N.ltb_spec budget (u32_add used (count_item p m))) as [Hgt|Hle].
      * exists [], (m :: older). split_and!; try done. cbn [length cost_of foldr].
        destruct latest as [i|]; [|split; (done || lia)].
        replace ((S (length older) <=? i)%nat && (i <? S (length older))%nat) with false; [cbn; split; (done || lia)|].
        symmetry. apply andb_false_iff. destruct (Nat.leb_spec (S (length older)) i); [right|by left].
        apply Nat.ltb_ge. lia.
      * assert (u32_add used (count_item p m) = used + count_item p m)%N as Hadd.
        { unfold u32_add in *. lia. }
        rewrite Hadd in *. destruct (IH (used + count_item p m)%N (m :: kept) in_place Hle) as (a & b & Hab).
        exists (m :: a), b. destruct (pack_tail p older _ _ _ _ _) as [[[kept' used'] truncated] in_place'].
        destruct Hab as (-> & -> & -> & Hle' & Hrest).
        split_and!; [done|by rewrite reverse_cons, <- app_assoc|done|done|].
        destruct latest as [i|]; [|destruct Hrest as [-> ->]; split; [done|simpl; lia]].
        rewrite length_app in *.
        assert (i <> length a + length b)%nat as Hi by congruence.
        replace (i <? S (length a + length b))%nat with (i <? length a + length b)%nat.
        2:{ destruct (Nat.ltb_spec i (length a + length b)), (Nat.ltb_spec i (S (length a + length b))); lia. }
        destruct ((length b <=? i)%nat && _) eqn:Hin; [|destruct Hrest as [-> ->]; split; [done|simpl; lia]].
        apply andb_true_iff in Hin as [Hi1%Nat.leb_le Hi2%Nat.ltb_lt].
        destruct Hrest as (-> & m' & Hm' & -> & Hc & Hin). split; [done|]. exists m'. split_and!; [|simpl; lia..|by right].
        replace (length a + length b - 0 - i)%nat with (S (length a + length b - 1 - i)) by lia. done.
Qed.

(** ** Positions *)

Lemma last_position_spec (f : ChatMessage -> bool) (l : list ChatMessage) :
  match last_position f l with
  | Some i => exists m, l !! i = Some m /\ f m = true /\ forall j m', (i < j)%nat -> l !! j = Some m' -> f m' = false
  | None => Forall (fun m => f m = false) l
  end.
Proof.
  unfold last_position. induction l as [|x l IH] using rev_ind; [by constructor|].
  rewrite reverse_app. simpl. rewrite length_reverse. destruct (f x) eqn:Ex.
  - exists x. split_and!; [by rewrite list_lookup_middle|done|]. intros j m' Hj Hm.
    apply lookup_lt_Some in Hm. rewrite length_app in Hm. simpl in Hm. lia.
  - match goal with |- match ?o with _ => _ end => destruct o as [i|] end.
    + destruct IH as (m & Hm & Hf & Hlast). exists m. split_and!; [by apply lookup_app_l_Some|done|].
      intros j m' Hj Hm'. apply lookup_app_Some in Hm' as [Hm'|[Hlen Hm']]; [by eapply Hlast|].
      by destruct (j - length l)%nat; simpl in Hm'; simplify_eq.
    + apply Forall_app. split; [done|by constructor].
Qed.

Definition olist {A : Type} (o : option A) : list A := match o with Some a => [a] | None => [] end.

(** The message this turn answers: the question compaction kept, or the
    latest one of the person's. *)
Definition latest_user (l : list ChatMessage) : option ChatMessage := i ← last_position is_user l; l !! i.

Definition kept_fits (kq : option ChatMessage) (budget cost : N) : option ChatMessage :=
  q ← kq; if pinned_fits p budget cost q then Some q else None.

Lemma pin_question_spec (tail : list ChatMessage) (kq : option ChatMessage) (budget cost : N) :
  let '(pinned, latest) := pin_question p tail kq budget cost in
  match latest with
  | Some i => kept_fits kq budget cost = None
              /\ exists m, pinned = Some m /\ tail !! i = Some m /\ is_user m = true
                   /\ latest_user tail = Some m /\ pinned_fits p budget cost m = true
  | None => pinned = kept_fits kq budget cost
            /\ (pinned = None -> forall m, latest_user tail = Some m -> pinned_fits p budget cost m = false)
  end.
Proof.
  unfold pin_question. fold (kept_fits kq budget cost).
  destruct (kept_fits kq budget cost) as [q|] eqn:Ek; [done|]. unfold latest_user.
  pose proof (last_position_spec is_user tail) as Hl.
  destruct (last_position is_user tail) as [i|]; [|by split].
  destruct Hl as (m & Hm & Hu & _). rewrite Hm. simpl. rewrite Hm.
  destruct (pinned_fits p budget cost m) eqn:Ef; [by eauto 10|].
  split; [done|]. intros _ m' [= <-]. done.
Qed.

Lemma pinned_fits_le (budget cost : N) (q : ChatMessage) :
  (budget < u32_max)%N -> pinned_fits p budget cost q = true -> (cost + count_item p q <= budget)%N.
Proof. unfold pinned_fits, u32_add. intros Hb. rewrite N.leb_le. lia. Qed.

(** ** Steps under a budget *)

(** What packing the steps behind a summary of cost [cost] gives. *)
Definition steps_packed (tail : list ChatMessage) (kq : option ChatMessage) (budget cost : N)
    (packed : list ChatMessage) (used : N) (truncated : bool) : Prop :=
  used = (cost + cost_of packed)%N /\ (used <= budget)%N
  /\ packed `sublist_of` (olist kq ++ tail)%list
  /\ (whole false tail = true -> (forall q, kq = Some q -> is_tool q = false) -> whole false packed = true)
  /\ (forall q, or_else (kept_fits kq budget cost) (latest_user tail) = Some q ->
        pinned_fits p budget cost q = true -> q ∈ packed)
  /\ (truncated = false -> packed = (olist (kept_fits kq budget cost) ++ tail)%list).

Lemma user_not_tool (m : ChatMessage) : is_user m = true -> is_tool m = false.
Proof. unfold is_user, is_tool, has_role. by destruct (cm_role m). Qed.

(** Dropping the leading results of a suffix, from position [lead]. *)
Lemma cut_results (x y : list ChatMessage) (lead : nat) (used : N) :
  (lead = 0 \/ lead = 1 /\ match y with m :: _ => is_user m = true | [] => False end) ->
  exists ts, let '(rest, used', dropped) := drop_results p (drop lead y) used in
    let out := (take lead y ++ rest)%list in
    y = (take lead y ++ ts ++ rest)%list /\ used' = (used - cost_of ts)%N /\ dropped = negb (is_nil ts)
    /\ (cost_of out + cost_of ts = cost_of y)%N /\ out `sublist_of` y
    /\ (whole false (x ++ y)%list = true -> whole false out = true)
    /\ forall m, is_user m = true -> m ∈ y -> m ∈ out.
Proof.
  intros Hlead. destruct (drop_results_spec (drop lead y) used) as [ts Hts]. exists ts.
  destruct (drop_results p _ _) as [[rest used'] dropped]. destruct Hts as (Hd & Htools & Hh & -> & ->).
  assert (y = take lead y ++ ts ++ rest)%list as Hy by by rewrite <- Hd, take_drop.
  split_and!; try done.
  - rewrite Hy at 2. rewrite !cost_of_app. lia.
  - rewrite Hy at 2. apply sublist_app; [done|]. by apply sublist_inserts_l.
  - intros Hw. rewrite Hy, app_assoc, app_assoc in Hw.
    pose proof (whole_suffix false _ rest Hw Hh) as Hr.
    destruct Hlead as [->|[-> Hu]]; [by rewrite take_0|]. destruct y as [|m y]; [done|].
    apply (whole_cons_quiet m); [by apply user_not_tool|done].
  - intros m Hm. rewrite Hy at 1. rewrite !elem_of_app. intros [?|[Ht|?]]; auto.
    rewrite Forall_forall in Htools. apply Htools in Ht. by rewrite user_not_tool in Ht.
Qed.

Lemma pack_steps_packed (tail : list ChatMessage) (kq : option ChatMessage) (budget cost : N) :
  (cost <= budget)%N -> (budget < u32_max)%N ->
  let '(packed, used, truncated) := pack_steps p tail kq budget cost in
  steps_packed tail kq budget cost packed used truncated.
Proof.
  intros Hc Hb. unfold pack_steps. pose proof (pin_question_spec tail kq budget cost) as Hpin.
  destruct (pin_question p tail kq budget cost) as [pinned latest].
  set (start := (cost + match pinned with Some q => count_item p q | None => 0 end)%N).
  assert (start <= budget)%N as Hst.
  { subst start. destruct latest as [i|].
    - destruct Hpin as (_ & m & -> & _ & _ & _ & Hf). by apply pinned_fits_le.
    - destruct Hpin as [-> _]. destruct (kept_fits kq budget cost) as [q|] eqn:Ek; [|lia].
      unfold kept_fits in Ek. destruct kq as [q'|]; [|done]. simpl in Ek.
      destruct (pinned_fits p budget cost q') eqn:Ef; [|done]. injection Ek as <-. by apply pinned_fits_le. }
  destruct (pack_tail_spec (reverse tail) latest budget start [] false Hst Hb) as (a & b & Hab).
  destruct (pack_tail p _ _ _ _ _ _) as [[[kept used] truncated] in_place].
  destruct Hab as (Hrev & -> & -> & Hle & Hpl). rewrite app_nil_r.
  assert (tail = reverse b ++ reverse a)%list as Htail.
  { by rewrite <- reverse_app, <- Hrev, reverse_involutive. }
  set (x := reverse b) in *. set (y := reverse a) in *. rewrite length_reverse in Hpl.
  assert (length b = length x) as Hlb by (subst x; by rewrite length_reverse).
  assert (cost_of a = cost_of y) as Hca by (subst y; by rewrite cost_of_reverse).
  destruct in_place.
  - (* the pinned message stands where it stood *)
    destruct latest as [i|]; [|by destruct Hpl].
    destruct ((length b <=? i)%nat && (i <? length tail)%nat) eqn:Hi; [|by destruct Hpl].
    destruct Hpl as (_ & m' & Hm' & Hused & Hcm & Hin).
    destruct Hpin as (Hkf & m & Hpm & Hti & Hum & Hlu & Hfit). subst pinned.
    apply andb_true_iff in Hi as [Hi1%Nat.leb_le Hi2%Nat.ltb_lt].
    assert (m' = m) as ->.
    { rewrite reverse_lookup in Hm' by lia. replace (length tail - S (length tail - 1 - i))%nat with i in Hm' by lia.
      congruence. }
    assert (m ∈ y) as Hmy by (subst y; by rewrite elem_of_reverse).
    set (lead := if true && _ then _ else _).
    destruct (cut_results x y lead used) as [ts Hts].
    { subst lead. destruct y as [|u y']; [by left|]. simpl. destruct (is_user u) eqn:Eu; [by right|by left]. }
    destruct (drop_results p (drop lead y) used) as [[rest used'] dropped]. simpl in Hts.
    destruct Hts as (Hy & -> & -> & Hcost & Hsub & Hwh & Hkeep).
    subst start. unfold steps_packed. simpl app. rewrite Hkf. split_and!.
    + lia.
    + lia.
    + rewrite Htail, app_assoc. by apply sublist_inserts_l.
    + intros Hw _. apply Hwh. by rewrite <- Htail.
    + intros q Hq _. simpl in Hq. rewrite Hlu in Hq. injection Hq as <-. by apply Hkeep.
    + intros [Hnb Hnt]%orb_false_iff. destruct b; [|done]. destruct ts; [|done].
      subst x. simpl in Hy, Htail. by rewrite <- Hy, Htail.
  - (* it is cut off, or there is none *)
    assert (used = start + cost_of y)%N as ->.
    { rewrite <- Hca. destruct latest as [i|]; [|by destruct Hpl]. by destruct (_ && _); destruct Hpl. }
    simpl (false && _).
    destruct (cut_results x y 0 (start + cost_of y)) as [ts Hts]; [by left|].
    destruct (drop_results p (drop 0 y) _) as [[rest used'] dropped]. simpl in Hts.
    destruct Hts as (Hy & -> & -> & Hcost & Hsub & Hwh & Hkeep).
    assert ((exists m, pinned = Some m /\ m ∈ x /\ is_user m = true /\ kept_fits kq budget cost = None
               /\ latest_user tail = Some m)
            \/ pinned = kept_fits kq budget cost
               /\ (pinned = None -> forall m, latest_user tail = Some m -> pinned_fits p budget cost m = false))
      as Hcases.
    { destruct latest as [i|]; [left|by right]. destruct Hpin as (Hkf & m & -> & Hti & Hum & Hlu & _).
      exists m. split_and!; try done. apply lookup_lt_Some in Hti as Hlt.
      destruct ((length b <=? i)%nat && _) eqn:Hi; [by destruct Hpl|].
      apply andb_false_iff in Hi as [Hi%Nat.leb_gt|Hi%Nat.ltb_ge]; [|lia].
      rewrite Htail, lookup_app_l in Hti by lia. by eapply list_elem_of_lookup_2. }
    assert (cost_of (olist pinned) = match pinned with Some q => count_item p q | None => 0 end)%N as Hcp
      by (destruct pinned; simpl; lia).
    cbn [andb]. rewrite take_0, app_nil_l. change (match pinned with Some q => [q] | None => [] end) with (olist pinned).
    unfold steps_packed. subst start. rewrite cost_of_app, Hcp. split_and!.
    + lia.
    + lia.
    + rewrite Htail, app_assoc. apply sublist_app; [|done].
      destruct Hcases as [(m & -> & Hm & _)|[-> _]].
      * apply sublist_inserts_l. by apply singleton_sublist_l.
      * apply sublist_inserts_r. unfold kept_fits. destruct kq as [q|]; simpl; [|done]. destruct (pinned_fits _ _ _ _); simpl;
          [done|apply sublist_nil_l].
    + intros Hw Hkq. assert (whole false rest = true) as Hr by (apply Hwh; by rewrite <- Htail).
      destruct pinned as [q|]; [|done]. apply whole_cons_quiet; [|done].
      destruct Hcases as [(m & [= ->] & _ & Hu & _)|[Hk _]]; [by apply user_not_tool|].
      unfold kept_fits in Hk. destruct kq as [q'|]; [|done]. simpl in Hk. case_match; [|done].
      injection Hk as ->. by apply Hkq.
    + intros q Hq Hf. apply elem_of_app. left. destruct Hcases as [(m & -> & _ & _ & Hk & Hlu)|[-> Hno]].
      * rewrite Hk in Hq. simpl in Hq. rewrite Hlu in Hq. injection Hq as <-. by left.
      * destruct (kept_fits kq budget cost) as [q'|] eqn:Ek; simpl in Hq; [injection Hq as ->; by left|].
        by rewrite (Hno eq_refl q Hq) in Hf.
    + intros [Hnb Hnt]%orb_false_iff. destruct b; [|done]. destruct ts; [|done]. subst x. simpl in Hy, Htail, Hcases.
      destruct Hcases as [(m & _ & Hm & _)|[-> _]]; [by apply elem_of_nil in Hm|]. by rewrite <- Hy, Htail.
Qed.

(** The same for [pack_history]: the summary stays in front. *)
Definition history_packed (items : list ChatMessage) (report : option CompactionReport) (budget : N)
    (packed : list ChatMessage) (used : N) (truncated : bool) : Prop :=
  match report with
  | None => steps_packed items None budget 0 packed used truncated
  | Some r =>
      exists s kq tail packed', items = (s :: olist kq ++ tail)%list /\ packed = s :: packed'
        /\ (forall q, kq = Some q -> cpr_question_kept r = true)
        /\ steps_packed tail kq budget (count_item p s) packed' used truncated
  end.

Lemma history_packed_cost items report budget packed used truncated :
  history_packed items report budget packed used truncated ->
  used = cost_of packed /\ (used <= budget)%N /\ packed `sublist_of` items.
Proof.
  destruct report as [r|]; [|intros (-> & ? & ? & _); split_and!; [lia|done|done]].
  intros (s & kq & tail & packed' & -> & -> & _ & -> & ? & ? & _).
  split_and!; [done|done|by apply sublist_skip].
Qed.

(** The items of a compacted history: the summary, then the question if it
    was kept. *)
Definition summary_first (report : option CompactionReport) (items : list ChatMessage) : Prop :=
  match report, items with
  | Some r, s :: rest =>
      cm_role s = RoleSystem
      /\ (cpr_question_kept r = true -> match rest with q :: _ => is_user q = true | [] => True end)
  | _, _ => True
  end.

Lemma whole_after_user (b : bool) (q : ChatMessage) (l : list ChatMessage) :
  is_user q = true -> whole b (q :: l) = whole false l.
Proof. unfold is_user, has_role. simpl. by destruct (cm_role q). Qed.

Lemma history_packed_whole items report budget packed used truncated :
  history_packed items report budget packed used truncated -> summary_first report items ->
  whole false items = true -> whole false packed = true.
Proof.
  destruct report as [r|]; [|intros (_ & _ & _ & Hw & _) _ Hi; by apply Hw].
  intros (s & kq & tail & packed' & -> & -> & Hkq & _ & _ & _ & Hw & _) [Hs Hq] Hi. simpl in Hi. simpl.
  rewrite Hs in *. destruct kq as [q|]; simpl in Hi, Hq; [|by apply Hw].
  specialize (Hq (Hkq q eq_refl)). apply Hw.
  - by rewrite <- (whole_after_user false q).
  - intros q' [= <-]. by apply user_not_tool.
Qed.

(** Packing a history: the accounting is exact and within the budget, the
    packed messages are the items in order, whole steps stay whole, the
    message the turn answers stays when it fits; only a summary that does not
    fit fails. *)
Lemma pack_history_packed (items : list ChatMessage) (budget : N) (report : option CompactionReport) :
  (budget < u32_max)%N ->
  match pack_history p items budget report with
  | Returns (Ok (packed, used, truncated)) => history_packed items report budget packed used truncated
  | Returns (Err _) => exists r s tail, report = Some r /\ items = s :: tail /\ (budget < count_item p s)%N
  | Panics _ => report <> None /\ items = []
  end.
Proof.
  intros Hb. unfold pack_history. destruct report as [r|]; simpl.
  - destruct items as [|s tail]; [done|]. destruct (N.ltb_spec budget (count_item p s)) as [Hlt|Hle]; [simpl; by eauto 6|].
    set (split := match tail with [] => _ | _ => _ end).
    assert (exists kq steps, split = (kq, steps) /\ tail = (olist kq ++ steps)%list
              /\ forall q, kq = Some q -> cpr_question_kept r = true) as (kq & steps & -> & -> & Hkq).
    { subst split. destruct tail as [|q steps]; [by exists None, []|].
      destruct (cpr_question_kept r); [by exists (Some q), steps|by exists None, (q :: steps)]. }
    pose proof (pack_steps_packed steps kq budget (count_item p s) Hle Hb) as Hp.
    destruct (pack_steps p steps kq budget (count_item p s)) as [[packed used] truncated]. simpl. by exists s, kq, steps, packed.
  - pose proof (pack_steps_packed items None budget 0) as Hp.
    destruct (pack_steps p items None budget 0) as [[packed used] truncated]. apply Hp; [lia|done].
Qed.
End Packing.

(** ** Compaction *)

(** A step of the history begins here. *)
Definition step_at (history : list ChatMessage) (k : nat) : Prop :=
  exists m, history !! k = Some m /\ is_tool m = false.

Lemma back_to_step_spec (history : list ChatMessage) (k : nat) :
  (k < length history)%nat ->
  (back_to_step history k <= k)%nat
  /\ (back_to_step history k = 0%nat \/ step_at history (back_to_step history k)).
Proof.
  induction k as [|k IH]; intros Hk; [simpl; auto|]. cbn [back_to_step].
  destruct (lookup_lt_is_Some_2 history (S k) Hk) as [m Hm]. rewrite Hm.
  destruct (is_tool m) eqn:Et; [destruct IH as [IH1 IH2]; [lia|split; [lia|done]]|].
  split; [lia|]. right. by exists m.
Qed.

Lemma step_start_lt (steps : nat) (rev : list ChatMessage) :
  rev <> [] -> (0 < steps)%nat -> (step_start steps rev < length rev)%nat.
Proof.
  intros Hne. revert steps. induction rev as [|m older IH]; intros steps Hs; [done|]. simpl.
  assert (forall k, (0 < k)%nat -> (step_start k older < S (length older))%nat) as Holder.
  { intros k Hk. destruct older as [|m' older']; [simpl; lia|].
    assert (step_start k (m' :: older') < length (m' :: older'))%nat by (by apply IH). lia. }
  destruct (is_tool m); [by apply Holder|]. destruct steps as [|[|steps]]; [lia..|]. apply Holder. lia.
Qed.

(** The watermark is a step strictly inside; only a policy that keeps
    nothing panics. *)
Lemma compaction_watermark_spec (history : list ChatMessage) (c : CompactionPolicy) :
  match compaction_watermark history c with
  | Returns (Some w) => (0 < w < length history)%nat /\ step_at history w
  | Returns None => True
  | Panics _ => (cpt_keep_recent_messages c + cpt_keep_recent_steps c = 0)%nat
  end.
Proof.
  unfold compaction_watermark. destruct (Nat.leb_spec (length history) (cpt_keep_recent_messages c)) as [|Hlt]; [done|].
  set (w := match cpt_keep_recent_steps c with O => _ | _ => _ end).
  assert (cpt_keep_recent_messages c + cpt_keep_recent_steps c = 0 \/ w < length history)%nat as Hw.
  { subst w. destruct (cpt_keep_recent_steps c) as [|steps] eqn:Es; [lia|]. right.
    assert (step_start (S steps) (reverse history) < length (reverse history))%nat as Hst.
    { apply step_start_lt; [|lia]. intros Hn. apply (f_equal length) in Hn. rewrite length_reverse in Hn. simpl in Hn. lia. }
    rewrite length_reverse in Hst. lia. }
  destruct (Nat.ltb_spec w (length history)) as [Hlw|]; [|lia].
  destruct (back_to_step_spec history w Hlw) as [Hle Hstep].
  destruct (back_to_step history w) as [|k] eqn:Ek; [done|]. destruct Hstep as [|Hstep]; [done|]. split; [lia|done].
Qed.

Section Compaction.
Context `{Codec} {W : Type} (p : ContextPipeline W).

Lemma fit_watermark_spec (history : list ChatMessage) (room : N) :
  history <> [] ->
  (fit_watermark p history room < length history)%nat
  /\ (fit_watermark p history room = 0%nat \/ step_at history (fit_watermark p history room)).
Proof.
  intros Hne. unfold fit_watermark. assert (0 < length history)%nat by (destruct history; simpl in *; [done|lia]).
  destruct (back_to_step_spec history (Nat.min (fit_from p (reverse history) room 0) (length history - 1))) as [Hle Hs];
    [lia|]. split; [lia|done].
Qed.

Lemma chosen_watermark_spec (c : CompactionPolicy) (history : list ChatMessage) (w : nat) (q : option ChatMessage) :
  (0 < w < length history)%nat -> step_at history w ->
  let k := chosen_watermark p c history w q in (0 < k < length history)%nat /\ step_at history k.
Proof.
  intros Hw Hs. unfold chosen_watermark. destruct (cx_history (pl_policy p)) as [h|]; [|done]. cbv zeta.
  set (room := u32_sub _ _). destruct (fit_watermark_spec history room) as [Hlt Hst]; [by destruct history; simpl in *; [lia|]|].
  destruct (Nat.max_spec w (fit_watermark p history room)) as [[Hlt' ->]|[Hle ->]]; [|done].
  split; [lia|]. destruct Hst as [Hz|Hst]; [lia|done].
Qed.

(** The items of a compaction at watermark [k]. *)
Definition compacts (c : CompactionPolicy) (history items : list ChatMessage) (r : CompactionReport)
    (stored : option StoredSummary) : Prop :=
  let k := cpr_watermark r in
  (0 < k < length history)%nat /\ step_at history k
  /\ (exists text, let s := summary_message k text (cpr_summary_truncated r) in
       items = (s :: (if cpr_question_kept r
                      then olist (question_of p history (sec_budget <$> cx_history (pl_policy p))) else [])
                  ++ drop k history)%list
       /\ cpr_summary_tokens r = count_item p s /\ (count_item p s <= cpt_summary_max_tokens c)%N)
  /\ (cpr_question_kept r = true <-> exists i, last_position is_user history = Some i /\ (i < k)%nat)
  /\ (exists st, stored = Some st /\ sts_watermark st = k /\ sts_prefix_hash st = prefix_hash (take k history)).

(** The person's latest message is never lost, whole or clipped. *)
Lemma compacts_question (c : CompactionPolicy) history items r stored (m : ChatMessage) :
  compacts c history items r stored -> latest_user history = Some m ->
  m ∈ items \/ exists bytes, msg_user (truncate_to_byte_budget (default EmptyString (cm_content m)) bytes) ∈ items.
Proof.
  intros (Hk & _ & (text & -> & _) & Hq & _) Hm. unfold latest_user in Hm.
  destruct (last_position is_user history) as [i|] eqn:El; [|done]. simpl in Hm.
  destruct (decide (i < cpr_watermark r)%nat) as [Hi|Hi].
  - right. rewrite (proj2 Hq) by eauto. unfold question_of. rewrite El. simpl. rewrite Hm. simpl.
    eexists. right. left.
  - left. right. apply elem_of_app. right. apply list_elem_of_lookup. exists (i - cpr_watermark r)%nat.
    rewrite lookup_drop. by replace (cpr_watermark r + (i - cpr_watermark r))%nat with i by lia.
Qed.

Lemma question_is_user history b q : question_of p history b = Some q -> is_user q = true.
Proof.
  unfold question_of. destruct (last_position _ _) as [i|]; [|done]. simpl. destruct (history !! i); [|done].
  simpl. by intros [= <-].
Qed.

Lemma compacts_first (c : CompactionPolicy) history items r stored :
  compacts c history items r stored -> summary_first (Some r) items.
Proof.
  intros (_ & _ & (text & -> & _) & Hq & _). split; [done|]. intros Hk. rewrite Hk.
  apply Hq in Hk as (i & Hi & _). unfold question_of. rewrite Hi. simpl.
  pose proof (last_position_spec is_user history) as Hl. rewrite Hi in Hl. destruct Hl as (m & -> & _). done.
Qed.

(** The verbatim tail begins at a step, so whole steps stay whole. *)
Lemma compacts_whole (c : CompactionPolicy) history items r stored :
  compacts c history items r stored -> whole false history = true -> whole false items = true.
Proof.
  intros (Hk & (m & Hm & Ht) & (text & -> & _) & _) Hw. simpl.
  assert (whole false (drop (cpr_watermark r) history) = true) as Hd.
  { rewrite <- (take_drop (cpr_watermark r) history) in Hw. eapply whole_suffix; [exact Hw|].
    by rewrite (drop_S _ m _ Hm). }
  destruct (cpr_question_kept r); [|done].
  destruct (question_of p history _) as [q|] eqn:Eq; [|done]. simpl app.
  by rewrite whole_after_user by (by eapply question_is_user).
Qed.

Lemma compacted_spec (c : CompactionPolicy) history k q text reused delta :
  q = question_of p history (sec_budget <$> cx_history (pl_policy p)) ->
  (0 < k < length history)%nat -> step_at history k ->
  match compacted p c history k q text reused delta with
  | Ok (items, Some r, stored) => compacts c history items r stored /\ cpr_reused_summary r = reused
  | Ok (_, None, _) => False
  | Err _ => exists text b, (cpt_summary_max_tokens c < count_item p (summary_message k text b))%N
  end.
Proof.
  intros -> Hk Hs. unfold compacted. destruct (bounded_summary p c k text) as [summary truncated].
  destruct (N.ltb_spec (cpt_summary_max_tokens c) (count_item p (summary_message k summary truncated))) as [|Hle];
    [by eauto|]. split; [|done]. unfold compacts. cbn [cpr_watermark cpr_summary_truncated cpr_question_kept cpr_summary_tokens].
  split_and!; try done; try lia.
  - exists summary. split_and!; done.
  - destruct (last_position is_user history) as [i|]; [|by split; [|intros (? & ? & _)]].
    rewrite Nat.ltb_lt. split; [by eauto|]. by intros (? & [= <-] & ?).
  - by eexists.
Qed.
End Compaction.

Section Summaries.
Context `{Codec} {W : Type} (p : ContextPipeline W).

(** Why a compaction can fail. *)
Definition compaction_fails (c : CompactionPolicy) (e : RustyError) (w : W) : Prop :=
  e = no_summarizer
  \/ (exists chat request w', pl_summarizer p = Some chat /\ chat request [] w = (Err e, w'))
  \/ exists k text b, (cpt_summary_max_tokens c < count_item p (summary_message k text b))%N.

Lemma summarize_spec (c : CompactionPolicy) (history : list ChatMessage) (k : nat) (w : W) :
  match summarize p c history k w with
  | (Returns (Ok (text, reused, delta)), w') => reused = true -> w' = w
  | (Returns (Err e), _) => compaction_fails c e w
  | (Panics _, _) => False
  end.
Proof.
  unfold summarize. destruct (mbind _ (usable_prior p history k)) as [s|]; [done|]. destruct (pl_summarizer p) as [chat|] eqn:Ec; [|by left].
  unfold mbind, code_bind, of_call. destruct (chat _ [] w) as [[r|e] w'] eqn:Ecall; [done|].
  right. left. by eauto.
Qed.

(** What compacting promises, whatever the summarizer does. *)
Lemma compact_history_spec (history : list ChatMessage) (c : CompactionPolicy) (w : W) :
  match compact_history p history c w with
  | (Returns (Ok (items, None, stored)), w') =>
      items = history /\ stored = None /\ w' = w
      /\ ((u32_wrap (cost_of p history) <= cpt_trigger_tokens c)%N \/ compaction_watermark history c = Returns None)
  | (Returns (Ok (items, Some r, stored)), w') =>
      compacts p c history items r stored /\ (cpr_reused_summary r = true -> w' = w)
  | (Returns (Err e), _) => compaction_fails c e w
  | (Panics _, _) => (cpt_keep_recent_messages c + cpt_keep_recent_steps c = 0)%nat
  end.
Proof.
  unfold compact_history. fold (cost_of p history).
  destruct (N.leb_spec (u32_wrap (cost_of p history)) (cpt_trigger_tokens c)); [simpl; auto|].
  pose proof (compaction_watermark_spec history c) as Hw.
  destruct (compaction_watermark history c) as [[k0|]|]; [|simpl; auto|done]. destruct Hw as [Hk0 Hs0].
  set (q := question_of p history _). set (k := chosen_watermark p c history k0 q).
  destruct (chosen_watermark_spec p c history k0 q Hk0 Hs0) as [Hk Hs]. fold k in Hk, Hs.
  unfold mbind, code_bind. pose proof (summarize_spec c history k w) as Hsum.
  destruct (summarize p c history k w) as [[[[[text reused] delta]|e]|] w']; [|done..].
  unfold of_try, of_res. pose proof (compacted_spec p c history k q text reused delta eq_refl Hk Hs) as Hc.
  destruct (compacted p c history k q text reused delta) as [[[items [r|]] stored]|e]; [|done|].
  - destruct Hc as [Hc <-]. by split.
  - destruct Hc as (text' & b & Hlt). right. right. eauto.
Qed.
End Summaries.


