(* ===== verification/ContextFacts.v ===== *)
(** * An assembly composes

    The sections of an assembled context are accounted exactly and within
    their budgets, the manifest counts itself and the total stays within the
    policy's; and the policies a deployment runs by default declare budgets
    that add up. *)

From Stdlib Require Import String.
From S2P Require Import Prelude Containers Json Error Record Chat Declaration Text Middleware ToolSelect Memory MemoryPlans Context ContextHistory ContextHistoryFacts ContextAssembly.
Local Open Scope string_scope.

Section Sections.
Context `{Codec, Unicode} {W : Type} (day_text : DateTime -> string) (p : ContextPipeline W).

(** A section of one message, charged for what it says. *)
Definition charged (s : PackedSection ChatMessage) : Prop := pk_used s = count_item p (pk_content s).
Definition fits_text (s : PackedSection ChatMessage) : Prop :=
  charged s /\ (pk_used s <= pk_effective_budget s)%N /\ pk_effective_budget s = pk_budget s.

Definition schemas_cost (l : list Value) : N := foldr (fun v n => count_schema p v + n)%N 0%N l.

Definition fits_tools (s : PackedSection (list Value)) : Prop :=
  pk_used s = schemas_cost (pk_content s) /\ (pk_used s <= pk_effective_budget s)%N
  /\ pk_effective_budget s = pk_budget s.

Definition fits_history (history : list ChatMessage) (s : PackedSection (list ChatMessage)) : Prop :=
  pk_used s = cost_of p (pk_content s) /\ (pk_used s <= pk_effective_budget s)%N
  /\ (pk_effective_budget s <= pk_budget s)%N
  /\ (whole false history = true -> whole false (pk_content s) = true).

Definition on_section {T : Type} (P : PackedSection T -> Prop) (o : option (PackedSection T)) : Prop :=
  match o with Some s => P s | None => True end.

(** The sections of one pass, each as it is reported. *)
Definition accounted (history : list ChatMessage) (ps : PackedSections) : Prop :=
  on_section fits_text (ps_identity ps) /\ on_section fits_text (ps_task ps)
  /\ on_section fits_text (ps_skills ps) /\ on_section fits_tools (ps_tools ps)
  /\ on_section (fits_history history) (ps_history ps) /\ on_section charged (ps_recall ps).

Lemma fit_loop_Ok (n : nat) (kind : SectionKind) (text : string) (bytes budget : N) m cost t :
  fit_loop p n kind text bytes budget = Ok (m, cost, t) -> cost = count_item p m /\ (cost <= budget)%N.
Proof.
  revert bytes. induction n as [|n IH]; intros bytes; simpl.
  - destruct (N.ltb_spec budget (count_item p (msg_system (truncate_to_byte_budget text bytes)))); [done|].
    by intros [= <- <- <-].
  - destruct (N.leb_spec (count_item p (msg_system (truncate_to_byte_budget text bytes))) budget);
      [by intros [= <- <- <-]|apply IH].
Qed.

Lemma fit_text_Ok (kind : SectionKind) (text : string) (budget : N) (o : BudgetOverflow) m cost t :
  fit_text_section p kind text budget o = Ok (m, cost, t) -> cost = count_item p m /\ (cost <= budget)%N.
Proof.
  unfold fit_text_section. destruct (N.leb_spec (count_item p (msg_system text)) budget);
    [by intros [= <- <- <-]|]. destruct o; [apply fit_loop_Ok|done].
Qed.

Lemma pack_text_fits kind section text o :
  pack_text p kind section text = Ok o -> on_section fits_text o.
Proof.
  unfold pack_text. destruct section as [s|]; [|by intros [= <-]].
  destruct (fit_text_section p _ _ _ _) as [[[m cost] t]|] eqn:Ef; [|done]. intros [= <-].
  apply fit_text_Ok in Ef as [-> Hle]. split_and!; done.
Qed.

Lemma pack_skills_fits inputs o : pack_skills p inputs = Ok o -> on_section fits_text o.
Proof.
  unfold pack_skills. destruct (cx_skills (pl_policy p)) as [s|]; [|by intros [= <-]].
  destruct (ci_skills inputs) as [|k skills]; [by intros [= <-]|]. case_match.
  destruct (fit_text_section p _ _ _ _) as [[[m cost] t]|] eqn:Ef; [|done]. intros [= <-].
  apply fit_text_Ok in Ef as [-> Hle]. split_and!; done.
Qed.

Lemma schemas_cost_app (x y : list Value) : schemas_cost (x ++ y)%list = (schemas_cost x + schemas_cost y)%N.
Proof. induction x as [|v x IH]; simpl; [done|]. rewrite IH. lia. Qed.

Lemma schemas_cost_perm (x y : list Value) : x ≡ₚ y -> schemas_cost x = schemas_cost y.
Proof. intros Hp. induction Hp; simpl; lia. Qed.

Lemma pack_schemas_Ok (o : BudgetOverflow) (budget : N) schemas used kept truncated kept' used' truncated' :
  (budget < u32_max)%N -> (used <= budget)%N -> used = schemas_cost (map snd kept) ->
  pack_schemas p o budget schemas used kept truncated = Ok (kept', used', truncated') ->
  used' = schemas_cost (map snd kept') /\ (used' <= budget)%N.
Proof.
  intros Hb. revert used kept truncated. induction schemas as [|[name [v|]] schemas IH]; intros used kept truncated Hu Hk.
  - simpl. by intros [= <- <- <-].
  - simpl. destruct (N.ltb_spec budget (u32_add used (count_schema p v))) as [Hlt|Hle].
    + destruct o; [by apply IH|done].
    + apply IH; [done|]. rewrite map_app, schemas_cost_app. simpl. unfold u32_add in *. lia.
  - done.
Qed.

Lemma pack_tools_fits inputs o :
  (forall s, cx_tools (pl_policy p) = Some s -> (tsec_budget s < u32_max)%N) ->
  pack_tools p inputs = Returns (Ok o) -> on_section fits_tools o.
Proof.
  intros Hb. unfold pack_tools. destruct (cx_tools (pl_policy p)) as [s|]; [|by intros [= <-]].
  specialize (Hb s eq_refl). destruct (ci_tool_manifests inputs) as [|m ms].
  - unfold of_res. intros [= Hp]. unfold pack_handed in Hp.
    destruct (pack_schemas p _ _ _ _ _ _) as [[[kept used] t]|] eqn:Ep; [|done]. simpl in Hp.
    destruct (mapM _ kept) as [ids|]; [|done]. injection Hp as <-.
    apply pack_schemas_Ok in Ep as [-> Hle]; [|done|simpl; lia|done]. split_and!; done.
  - destruct (shortlist _ _ _) as [sl|]; [|done]. unfold of_res. intros [= Hp]. unfold pack_shortlist in Hp.
    destruct (pack_schemas p _ _ _ _ _ _) as [[[kept used] t]|] eqn:Ep; [|done]. injection Hp as <-.
    apply pack_schemas_Ok in Ep as [-> Hle]; [|done|simpl; lia|done]. split_and!; try done. simpl.
    apply schemas_cost_perm. by rewrite sort_by_perm.
Qed.

Lemma clip_result_role (cap : N) (m : ChatMessage) : cm_role (clip_result p cap m) = cm_role m.
Proof.
  unfold clip_result. destruct (clips p cap m); [|done].
  assert (forall n content notice c bytes cut, cm_role (clip_loop p n content notice c bytes cut) = cm_role cut) as Hl.
  { induction n as [|n IH]; intros; simpl; [done|]. destruct (_ <=? _)%N; [done|]. by rewrite IH. }
  apply Hl.
Qed.

(** The gathered history: a summary in front when it was compacted, and
    whole steps stay whole. *)
Definition gathered (history : list ChatMessage) (g : Gathered) : Prop :=
  summary_first (ga_compaction g) (ga_history g)
  /\ (whole false history = true -> whole false (ga_history g) = true).

Lemma summary_first_clip (cap : N) (report : option CompactionReport) (items : list ChatMessage) :
  summary_first report items -> summary_first report (map (clip_result p cap) items).
Proof.
  destruct report as [r|]; [|done]. destruct items as [|s rest]; [done|]. intros [Hs Hq]. simpl.
  rewrite clip_result_role. split; [done|]. intros Hk. specialize (Hq Hk). destruct rest as [|q rest]; [done|]. simpl.
  unfold is_user, has_role in *. by rewrite clip_result_role.
Qed.

Lemma gather_history_spec (history : list ChatMessage) (w w' : W) items report stored n :
  gather_history p history w = (Returns (Ok (items, report, stored, n)), w') ->
  summary_first report items /\ (whole false history = true -> whole false items = true).
Proof.
  unfold gather_history. destruct (cx_history (pl_policy p)) as [section|]; [|by intros [= <- <- <- <- <-]].
  unfold mbind, code_bind. set (compacting := match cx_compaction (pl_policy p) with Some _ => _ | None => _ end).
  assert (match compacting w with
          | (Returns (Ok (items, report, _)), _) =>
              summary_first report items /\ (whole false history = true -> whole false items = true)
          | _ => True
          end) as Hc.
  { subst compacting. destruct (cx_compaction (pl_policy p)) as [c|]; [|done].
    pose proof (compact_history_spec p history c w) as Hc.
    destruct (compact_history p history c w) as [[[[[items' [r|]] stored']|e]|] w1]; [| |done..].
    - destruct Hc as [Hc _]. split; [by eapply compacts_first|by apply (compacts_whole p _ _ _ _ _ Hc)].
    - by destruct Hc as (-> & _). }
  destruct (compacting w) as [[[[[items' report'] stored']|e]|] w1]; [|done..]. simpl. intros [= <- <- <- <- <-].
  destruct Hc as [Hf Hw]. split; [by apply summary_first_clip|]. intros Hh.
  rewrite whole_roles; [by apply Hw|apply clip_result_role].
Qed.

Lemma pack_history_section_fits (history : list ChatMessage) (g : Gathered) (budget : N) o :
  gathered history g ->
  (forall s, cx_history (pl_policy p) = Some s -> (budget <= sec_budget s)%N /\ (sec_budget s < u32_max)%N) ->
  pack_history_section p (ga_history g) (ga_compaction g) (ga_clipped g) budget = Returns (Ok o) ->
  on_section (fits_history history) o.
Proof.
  intros [Hf Hw] Hb. unfold pack_history_section. destruct (cx_history (pl_policy p)) as [s|]; [|by intros [= <-]].
  destruct (Hb s eq_refl) as [Hle Hlt]. destruct (ga_history g) as [|m items] eqn:Ei; [by intros [= <-]|].
  pose proof (pack_history_packed p (m :: items) budget (ga_compaction g)) as Hp. unfold mbind, try_bind.
  destruct (pack_history p (m :: items) budget (ga_compaction g)) as [[[[packed used] t]|e]|]; [|done..].
  specialize (Hp ltac:(lia)). destruct (history_packed_cost p _ _ _ _ _ _ Hp) as (Hu & Hub & _).
  assert (whole false history = true -> whole false packed = true) as Hwp.
  { intros Hh. eapply history_packed_whole; eauto. }
  destruct packed; intros [= <-]; [done|]. split_and!; done.
Qed.

(** The policy's budgets leave saturation room. *)
Definition sized (policy : ContextPolicy) : Prop :=
  (cb_max_tokens (cx_budget policy) < u32_max)%N
  /\ (forall s, cx_tools policy = Some s -> (tsec_budget s < u32_max)%N)
  /\ (forall s, cx_history policy = Some s -> (sec_budget s < u32_max)%N).

Lemma pack_sections_accounted (inputs : ContextInputs) (g : Gathered) (history : list ChatMessage) hb mb ps :
  sized (pl_policy p) -> gathered history g ->
  (forall s, cx_history (pl_policy p) = Some s -> (hb <= sec_budget s)%N) ->
  pack_sections day_text p inputs g hb mb = Returns (Ok ps) -> accounted history ps.
Proof.
  intros (_ & Ht & Hh) Hg Hhb. unfold pack_sections, of_res, mbind, try_bind.
  destruct (pack_text p SecIdentity _ _) as [identity|] eqn:E1; [|done].
  destruct (pack_text p SecTask _ _) as [task|] eqn:E2; [|done].
  destruct (pack_skills p inputs) as [skills|] eqn:E3; [|done].
  destruct (pack_tools p inputs) as [[tools|]|] eqn:E4; [|done..].
  destruct (pack_memory p _ _ _) as [memory|] eqn:E5; [|done].
  destruct (pack_history_section p _ _ _ _) as [[hist|]|] eqn:E6; [|done..]. intros [= <-].
  unfold accounted. simpl. split_and!.
  - by eapply pack_text_fits.
  - by eapply pack_text_fits.
  - by eapply pack_skills_fits.
  - by eapply pack_tools_fits.
  - eapply pack_history_section_fits; [done| |done]. eauto.
  - unfold pack_recall. by destruct (cx_recall (pl_policy p)), (ga_recall g).
Qed.

(** The manifest says how much its own message costs. *)
Lemma render_loop_Ok (n : nat) ps report tokens manifest message :
  render_loop p n ps report tokens = Ok (manifest, message) ->
  message = manifest_message manifest /\ mf_manifest_tokens manifest = count_item p message
  /\ mf_sections manifest = section_reports report ps.
Proof.
  revert tokens. induction n as [|n IH]; intros tokens; cbn [render_loop]; [done|]. cbv zeta.
  destruct (N.eqb_spec (count_item p (manifest_message (manifest_of p ps report tokens))) tokens) as [He|_];
    [|apply IH]. intros [= <- <-]. by split_and!.
Qed.

Definition reported (m : SectionManifest) : N := foldr (fun r n => sr_used_tokens r + n)%N 0%N (mf_sections m).

(** What an assembly is made of. *)
Definition composed (inputs : ContextInputs) (history : list ChatMessage) (c : ContextAssembly) : Prop :=
  exists ps report, let message := manifest_message (ca_manifest c) in
    c = finish_assembly ps (ca_manifest c) message inputs (ca_stored_summary c)
    /\ accounted history ps
    /\ mf_sections (ca_manifest c) = section_reports report ps
    /\ mf_manifest_tokens (ca_manifest c) = count_item p message
    /\ (reported (ca_manifest c) < 4294967296 ->
         mf_manifest_tokens (ca_manifest c) + reported (ca_manifest c) <= cb_max_tokens (cx_budget (pl_policy p)))%N.

Lemma absorb_composed (n : nat) (inputs : ContextInputs) (g : Gathered) (stored : option StoredSummary)
    (history : list ChatMessage) (hb mb : N) (c : ContextAssembly) :
  sized (pl_policy p) -> gathered history g ->
  (forall s, cx_history (pl_policy p) = Some s -> (hb <= sec_budget s)%N) ->
  absorb day_text p n inputs g stored hb mb = Returns (Ok c) -> composed inputs history c.
Proof.
  intros Hs Hg. revert hb mb. induction n as [|n IH]; intros hb mb Hhb; [done|]. cbn [absorb].
  unfold mbind, try_bind, of_res.
  destruct (pack_sections day_text p inputs g hb mb) as [[ps|]|] eqn:Ep; [|done..].
  destruct (render_manifest p ps (ga_compaction g)) as [[manifest message]|] eqn:Er; [|done]. cbv zeta.
  destruct (N.leb_spec (used_total manifest) (cb_max_tokens (cx_budget (pl_policy p)))) as [Hle|_].
  - intros [= <-]. apply render_loop_Ok in Er as (-> & Ht & Hr). exists ps, (ga_compaction g). simpl.
    split_and!; try done; [by eapply pack_sections_accounted|]. intros Hsum. destruct Hs as (Hmax & _).
    unfold used_total in Hle. fold (reported manifest) in Hle. unfold u32_wrap in Hle.
    rewrite N.mod_small in Hle by done. unfold u32_add in Hle. lia.
  - destruct (_ && _ && _); [apply IH; intros s Hs'; specialize (Hhb s Hs'); unfold u32_sub; lia|].
    destruct (_ && _ && _); [by apply IH|done].
Qed.
End Sections.


(** ** Budgets that add up *)

(** What the sections of a policy declare together. *)
Definition declared (policy : ContextPolicy) : N :=
  let of_section (o : option SectionPolicy) := match o with Some s => sec_budget s | None => 0%N end in
  (of_section (cx_identity policy) + of_section (cx_task policy) + of_section (cx_skills policy)
   + match cx_tools policy with Some s => tsec_budget s | None => 0 end
   + match cx_memory policy with Some s => msec_budget s | None => 0 end
   + of_section (cx_history policy)
   + match cx_recall policy with Some r => rc_budget r | None => 0 end)%N.

Definition history_share (policy : ContextPolicy) : N :=
  match cx_history policy with Some s => sec_budget s | None => 0%N end.

(** Compaction fires before the history's share is spent, and leaves room
    for its summary. *)
Definition compacts_in_time (policy : ContextPolicy) : Prop :=
  match cx_compaction policy with
  | Some c => (cpt_trigger_tokens c < history_share policy)%N
              /\ (2 * cpt_summary_max_tokens c <= history_share policy)%N
              /\ (0 < cpt_keep_recent_messages c)%nat
  | None => False
  end.

Lemma rebalanced_in_time (h : N) (c : CompactionPolicy) :
  (1024 <= h)%N ->
  (cpt_trigger_tokens (rebalance h c) < h /\ 2 * cpt_summary_max_tokens (rebalance h c) <= h)%N.
Proof.
  intros Hh. simpl. unfold clamp.
  pose proof (N.Div0.mul_div_le h 10). pose proof (N.Div0.mul_div_le h 4). lia.
Qed.

(** A memory or recall section comes out of the history's share. *)
Lemma with_memory_section_shares (memory : N) (policy : ContextPolicy) (h : SectionPolicy) (c : CompactionPolicy) :
  cx_history policy = Some h -> cx_compaction policy = Some c -> cx_memory policy = None ->
  let h' := shrink_history memory h in
  let policy' := with_memory_section memory policy in
  cx_history policy' = Some h' /\ cx_compaction policy' = Some (rebalance (sec_budget h') c)
  /\ cx_recall policy' = cx_recall policy
  /\ (declared policy' + sec_budget h = declared policy + memory + sec_budget h')%N.
Proof.
  intros Hh Hc Hm. unfold with_memory_section, rebalance_compaction, declared. rewrite Hh, Hc, Hm. simpl.
  split_and!; try done. lia.
Qed.

Lemma with_recall_shares (recall : N) (top_k : nat) (policy : ContextPolicy) (h : SectionPolicy) (c : CompactionPolicy) :
  cx_history policy = Some h -> cx_compaction policy = Some c -> cx_recall policy = None ->
  let h' := shrink_history recall h in
  let policy' := with_recall recall top_k policy in
  cx_history policy' = Some h' /\ cx_compaction policy' = Some (rebalance (sec_budget h') c)
  /\ (declared policy' + sec_budget h = declared policy + recall + sec_budget h')%N.
Proof.
  intros Hh Hc Hr. unfold with_recall, rebalance_compaction, declared. rewrite Hh, Hc, Hr. simpl.
  split_and!; try done. lia.
Qed.

(** The standard policy's shares. *)
Lemma standard_shares (budget : N) :
  let base := standard budget in
  exists h c, cx_history base = Some h /\ cx_compaction base = Some (rebalance (sec_budget h) c)
    /\ (0 < cpt_keep_recent_messages c)%nat /\ (1024 <= sec_budget h)%N
    /\ cx_memory base = None /\ cx_recall base = None
    /\ (declared base + 384 <= cb_max_tokens (cx_budget base))%N.
Proof.
  unfold declared, standard. simpl. set (total := N.max budget 4096).
  eexists _, (mkCompaction 0 8 4 0 STANDARD_COMPACTION_PROMPT).
  split; [reflexivity|]. split; [reflexivity|]. split; [simpl; lia|]. cbn [sec_budget section_new].
  split; [apply N.le_max_r|]. split; [reflexivity|]. split; [reflexivity|].
  unfold clamp, u32_sub. assert (4096 <= total)%N as Ht by (subst total; lia).
  pose proof (N.Div0.mul_div_le total 8). pose proof (N.Div0.mul_div_le total 4).
  pose proof (N.Div0.mul_div_le total 64). clearbody total.
  generalize dependent (total / 8)%N. generalize dependent (total / 4)%N. generalize dependent (total / 64)%N. lia.
Qed.

Lemma in_time (policy : ContextPolicy) (h : SectionPolicy) (c : CompactionPolicy) :
  cx_history policy = Some h -> cx_compaction policy = Some (rebalance (sec_budget h) c) ->
  (1024 <= sec_budget h)%N -> (0 < cpt_keep_recent_messages c)%nat -> compacts_in_time policy.
Proof.
  intros Hh Hc Hle Hk. unfold compacts_in_time, history_share. rewrite Hh, Hc.
  destruct (rebalanced_in_time (sec_budget h) c Hle). by split_and!.
Qed.

(** The default policies add up. For every budget the sections of the
    standard policy leave at least 384 tokens of the total for the manifest;
    compaction fires before the history's share is spent and its summary takes
    at most half of it; and memory and recall sections come out of the
    history's share as long as it keeps its floor of 1,024, with compaction
    still in time whatever they take. *)
Theorem standard_composes (budget memory recall : N) (top_k : nat) :
  let base := standard budget in
  let full := with_recall recall top_k (with_memory_section memory base) in
  (declared base + 384 <= cb_max_tokens (cx_budget base))%N
  /\ compacts_in_time base /\ compacts_in_time full
  /\ (memory + recall + 1024 <= history_share base -> declared full = declared base)%N
  /\ (declared full <= declared base + memory + recall)%N.
Proof.
  cbv zeta. destruct (standard_shares budget) as (h & c & Hh & Hc & Hk & Hle & Hm & Hr & Hd).
  generalize dependent (standard budget). intros base Hh Hc Hm Hr Hd.
  destruct (with_memory_section_shares memory base h _ Hh Hc Hm) as (Hh1 & Hc1 & Hr1 & Hd1). rewrite Hr in Hr1.
  destruct (with_recall_shares recall top_k _ _ _ Hh1 Hc1 Hr1) as (Hh2 & Hc2 & Hd2).
  set (full := with_recall recall top_k _) in *. unfold history_share. rewrite Hh.
  cbn [shrink_history sec_budget] in Hd1, Hd2. unfold u32_sub in Hd1, Hd2.
  split_and!; [done|by eapply in_time| |lia|lia].
  apply (in_time full _ _ Hh2 Hc2); [apply N.le_max_r|done].
Qed.

(** ** Context assembly on concrete runs

    A pipeline at the sample codec: what the theorems say of it, and where the
    code departs from its documentation. *)

From Stdlib Require Import Floats.SpecFloat.
From S2P Require Import SampleCodec SampleReader.

Module ContextExamples.
Import Reader.
#[local] Existing Instance ascii_tables.

Definition day (t : DateTime) : string := "2026-09-13".

(** The world counts the summarizer's calls. *)
Definition summarizer (answer : string) (messages : list ChatMessage) (tools : list Value) (calls : nat) :
    res ChatResponse * nat := (Ok (mkResponse (msg_assistant answer) None None), S calls).

Definition pipeline (policy : ContextPolicy) : ContextPipeline nat :=
  mkPipeline policy (estimated_counter (cb_margin_percent (cx_budget policy))) EmptyString (mkPin "inline" None None)
    (Some (summarizer "they said hello")) None.

(** A history of one question and two tool-using steps. *)
Definition lookup (id : string) : ChatMessage := assistant_tool_calls [mkToolCall id "search" (jobj [("q", Str "tea")])].
Definition history : list ChatMessage :=
  [msg_user "which tea did ada order last week?"; lookup "c1"; tool_result "c1" "green tea, on monday";
   lookup "c2"; tool_result "c2" "black tea, on friday"; msg_assistant "black tea"].

(** A policy of a history section alone. *)
Definition history_policy (total budget trigger : N) (keep steps : nat) : ContextPolicy :=
  mkPolicy CONTEXT_POLICY_SCHEMA_VERSION (with_margin_percent 0 (budget_new total)) ESTIMATED_COUNTER_ID None None None
    None None (Some (section_new budget)) (Some (mkCompaction trigger keep steps 60 "summarize")) None.

Definition inputs_of (history : list ChatMessage) : ContextInputs :=
  mkInputs (Some "you are ada's assistant") (Some "today is sunday") [] [] [] [] [] None history.

(** ** The theorems at these runs *)



(** A compacted run: the summary, the question, the last step. *)
Example compaction_keeps_question :
  let '(out, calls) := compact_history (pipeline (history_policy 1000 200 30 2 1)) history (mkCompaction 30 2 1 60 "summarize") 0%nat in
  match out with
  | Returns (Ok (items, Some r, Some st)) =>
      map cm_role items = [RoleSystem; RoleUser; RoleAssistant; RoleTool; RoleAssistant]
      /\ cpr_watermark r = 3%nat /\ cpr_question_kept r = true /\ calls = 1%nat
      /\ (compact_history (with_prior_summary st (pipeline (history_policy 1000 200 30 2 1))) history
            (mkCompaction 30 2 1 60 "summarize") 0%nat).2 = 0%nat
  | _ => False
  end.
Proof. vm_compute. repeat split. Qed.

(** ** Where the code departs from its documentation *)

Definition is_panic {A : Type} (t : Unwind A) : bool := match t with Panics _ => true | Returns _ => false end.

(** A policy may keep no message and no step; its first compaction indexes
    the history at its length. *)
Theorem keeping_nothing_panics :
  is_panic (compact_history (pipeline (history_policy 1000 200 30 0 0)) history (mkCompaction 30 0 0 60 "summarize") 0%nat).1
  = true.
Proof. vm_compute. reflexivity. Qed.

(** Absorption takes the overflow out of the declared budget, not out of what
    the history uses: with a history far below its budget sixteen rounds do
    not reach it, and the error called unreachable is returned. *)
Definition generous : ContextPolicy :=
  mkPolicy CONTEXT_POLICY_SCHEMA_VERSION (with_margin_percent 0 (budget_new 200)) ESTIMATED_COUNTER_ID None None None
    None None (Some (section_new 100000)) None None.

Theorem absorption_gives_up :
  match context_assemble day (pipeline generous) None (inputs_of history) 0%nat with
  | (Returns (Err (EInvalidUpdate e)), _) => starts_with "total-budget absorption did not converge" e = true
  | _ => False
  end.
Proof. vm_compute. reflexivity. Qed.

(** The memory section is charged for the header "# Memory" and its lines;
    the body it carries opens with a longer one, and the line that counts the
    omitted notes is charged without a check: the section costs more than it
    reports, and reports more than its budget. *)
Definition note : MemoryRecord :=
  mkMemory "m1" KindFact (mkScope ScopeUser "ada") None [] 0 (mkProvenance (ByHuman "ada") no_evidence 0)
    (FFinite false 4503599627370496 (-52)) (window_starting 0) 0 None None None (Inline (Str "green tea")) None.

Definition memory_policy : ContextPolicy :=
  with_recall 30 3 (with_memory_section 60 (history_policy 2000 2000 2000 2 1)).

Theorem memory_section_undercounted :
  match pack_memory (pipeline memory_policy) [note; note] 5 60 with
  | Ok (Some s) =>
      (pk_used s < count_item (pipeline memory_policy) (pk_content s))%N
      /\ (pk_effective_budget s < pk_used s)%N /\ pk_effective_budget s = 60%N
  | _ => False
  end.
Proof. vm_compute. repeat split. Qed.

(** Lane-one recall renders every note read under its budget without
    counting the rendering: a note of eleven bytes takes more than the
    recall's tokens and is not reported as truncated. *)
Theorem recall_exceeds_its_budget :
  match pack_recall day (pipeline memory_policy) [note] with
  | Some s => (content_bytes note <= 11)%N /\ (pk_budget s < pk_used s)%N /\ pk_truncated s = false
  | None => False
  end.
Proof. vm_compute. repeat split; discriminate. Qed.

(** A kept question that does not fit beside the summary is dropped and the
    section is not reported as truncated. *)
Theorem dropped_question_unreported :
  let p := pipeline (history_policy 1000 200 30 2 1) in
  let summary := summary_message 3 "hello" false in
  let report := mkCompactionReport 3 false None 0 false true in
  pack_history p [summary; msg_user "which tea did ada order last week?"] 32 (Some report)
  = Returns (Ok ([summary], count_item p summary, false)).
Proof. vm_compute. reflexivity. Qed.

(** A memory section larger than the history can give up is declared on top
    of the window, against the sections that "still sum within" it. *)
Theorem memory_section_overflows_window :
  let policy := with_memory_section 1024 (standard 4096) in
  (cb_max_tokens (cx_budget policy) < declared policy)%N.
Proof. vm_compute. reflexivity. Qed.

(** A frozen prefix takes the identity text out of the inputs; under any
    policy with an identity section, the standard one too, every call fails. *)
Definition frozen : FrozenPrefix := assemble_frozen_prefix (mkTiers "you are ada's assistant. " "workspace: tea. " "skills: none.").

Theorem frozen_prefix_never_assembles :
  match assembler_assemble day (pipeline (standard 4096)) None
          (mkAssembler (Some "you are ada's assistant") false (Some "today is sunday") [] [] [] [] None (Some frozen))
          history [] 0%nat with
  | (Returns (Err (EInvalidUpdate e)), _) => starts_with "the policy enables the identity section" e = true
  | _ => False
  end.
Proof. vm_compute. reflexivity. Qed.

(** Without an identity section the prefix is put in front after the budget
    was checked: the request exceeds the total. *)
Theorem frozen_prefix_uncounted :
  let p := pipeline (history_policy 300 200 1000 2 1) in
  let long := assemble_frozen_prefix (mkTiers (String.concat " " (List.repeat "standing guidance" 60)) EmptyString EmptyString) in
  match assembler_assemble day p None (mkAssembler None false None [] [] [] [] None (Some long)) history [] 0%nat with
  | (Returns (Ok c), _) => (300 < cost_of p (ca_messages c))%N
  | _ => False
  end.
Proof. vm_compute. reflexivity. Qed.

(** Verification slices the actual text at the recorded lengths and panics
    inside a character instead of naming the tier. *)
Theorem frozen_verify_panics :
  is_panic (verify_prefix (assemble_frozen_prefix (mkTiers "ab" "cd" "ef")) "aécdef") = true.
Proof. vm_compute. reflexivity. Qed.

(** The short form drops every member called "examples", a parameter of
    that name too, and still requires it: the model is told to give an
    argument it is not shown. *)
Definition train : Value :=
  jobj [("type", Str "function");
        ("function", jobj [("name", Str "train"); ("description", Str "Trains a model. Slow.");
          ("parameters", jobj [("type", Str "object");
             ("properties", jobj [("examples", jobj [("type", Str "array")]); ("name", jobj [("type", Str "string")])]);
             ("required", jstrs ["examples"])])])].

Theorem short_schema_drops_parameter :
  let properties v := f ← vget "function" v; q ← vget "parameters" f; vget "properties" q in
  let required v := f ← vget "function" v; q ← vget "parameters" f; vget "required" q in
  (properties train ≫= vget "examples") <> None
  /\ (properties (short_schema train) ≫= vget "examples") = None
  /\ required (short_schema train) = Some (jstrs ["examples"]).
Proof. vm_compute. repeat split. discriminate. Qed.
End ContextExamples.
