(* ===== verification/Learn.v ===== *)
(** * Candidates and the promotion gate ([rusty-core/src/learn.rs])

    The contract of the learning plane: content-addressed candidates and the
    surfaces they change, environment tags, effect keys, the evaluation
    evidence, the read lens a [memory_set] candidate is evaluated through,
    the promotion envelope with its gate, the candidate lifecycle and the
    version pointer with its seeded canary draw. The store and the routes
    that drive it are in [LearnRoutes]. *)

From Stdlib Require Import String Ascii Floats.SpecFloat.
From S2P Require Import Prelude Containers Json Error Graph Record Meter Durable Effects Text ToolSelect ToolWrappers Memory MemoryStore.
Local Open Scope string_scope.

(** ** The candidate contract *)

(** [CandidateId], [SurfaceKey], [EnvironmentTag]: transparent newtypes. *)
Definition CandidateId : Type := string.
Definition SurfaceKey : Type := string.
Definition EnvironmentTag : Type := string.

(** [CandidateKind] and [as_str]. *)
Inductive CandidateKind : Type :=
| CkPrompt | CkPolicy | CkMemorySet | CkToolPermission | CkToolContract | CkModelSettings
| CkMemoryConfiguration | CkMiddlewareComposition | CkContextPolicy | CkSkill.

#[export] Instance CandidateKind_eq_dec : EqDecision CandidateKind.
Proof. solve_decision. Defined.

Definition candidate_kind_name (k : CandidateKind) : string :=
  match k with
  | CkPrompt => "prompt" | CkPolicy => "policy" | CkMemorySet => "memory_set"
  | CkToolPermission => "tool_permission" | CkToolContract => "tool_contract"
  | CkModelSettings => "model_settings" | CkMemoryConfiguration => "memory_configuration"
  | CkMiddlewareComposition => "middleware_composition" | CkContextPolicy => "context_policy"
  | CkSkill => "skill"
  end.

(** [GrantDirection], [MiddlewareLayerConfig], [RankPolicy],
    [ConsolidationPolicy], [SkillBinding]: what the contents carry. *)
Inductive GrantDirection : Type := GrantNarrow | GrantWiden.

Record MiddlewareLayerConfig : Type := mkLayerConfig { lc_layer : string; lc_config : option Value }.

Record RankPolicy : Type := mkRank { rp_utility_weight : N; rp_over_fetch_percent : N }.

Record ConsolidationPolicy : Type := mkConsolidation {
  cn_scope : MemoryScope;
  cn_key_domain : string;
  cn_max_records : option N;
  cn_max_tokens : option N;
  cn_max_age_ms : option N;
  cn_distiller : string;
}.

Record SkillBinding : Type := mkBinding {
  sb_trigger_tags : list string;
  sb_task_shape : option string;
  sb_cost_class : option CostClass;
  sb_tools : list string;
}.

(** [CandidateContent]. *)
Inductive CandidateContent : Type :=
| CcPrompt (name prompt : string)
| CcPolicy (family : DecisionFamily) (parameters : Value)
| CcMemorySet (scope : ScopeAddress) (adds : list MemoryRecord) (supersedes : list string)
| CcToolPermission (tool : string) (direction : GrantDirection)
| CcToolContract (tool : string) (schema : Value) (selection : option ToolSelectionOverlay)
| CcModelSettings (name model : string) (parameters : Value)
| CcMemoryConfiguration (name : string) (budget : ContextBudget) (default_filters : MemoryQuery)
    (schema_version : string) (rank : option RankPolicy) (maintenance : list ConsolidationPolicy)
| CcMiddlewareComposition (name : string) (layers : list MiddlewareLayerConfig)
| CcContextPolicy (name : string) (policy : Value)
| CcSkill (name content_hash : string) (binding : option SkillBinding).

(** [EvidenceSpan] and [is_empty]. *)
Record EvidenceSpan : Type := mkSpan {
  es_run_ids : list string;
  es_correction_ids : list string;
  es_memory_ids : list string;
}.

Definition span_is_empty (e : EvidenceSpan) : bool :=
  is_nil (es_run_ids e) && is_nil (es_correction_ids e) && is_nil (es_memory_ids e).

(** [Candidate]. *)
Record Candidate : Type := mkCandidate {
  cd_candidate_id : CandidateId;
  cd_content : CandidateContent;
  cd_distilled_by : ProvenanceAuthor;
  cd_evidence : EvidenceSpan;
  cd_created_at : DateTime;
}.

(** [Candidate::kind]. *)
Definition content_kind (c : CandidateContent) : CandidateKind :=
  match c with
  | CcPrompt _ _ => CkPrompt | CcPolicy _ _ => CkPolicy | CcMemorySet _ _ _ => CkMemorySet
  | CcToolPermission _ _ => CkToolPermission | CcToolContract _ _ _ => CkToolContract
  | CcModelSettings _ _ _ => CkModelSettings
  | CcMemoryConfiguration _ _ _ _ _ _ => CkMemoryConfiguration
  | CcMiddlewareComposition _ _ => CkMiddlewareComposition | CcContextPolicy _ _ => CkContextPolicy
  | CcSkill _ _ _ => CkSkill
  end.

Definition candidate_kind (c : Candidate) : CandidateKind := content_kind (cd_content c).

(** [surface_for_kind]. *)
Definition surface_prefix (k : CandidateKind) : string :=
  match k with
  | CkPrompt => "prompt" | CkPolicy => "policy" | CkMemorySet => "memory"
  | CkToolPermission => "tool" | CkToolContract => "tool_contract"
  | CkModelSettings => "model_settings" | CkMemoryConfiguration => "memory_config"
  | CkMiddlewareComposition => "middleware" | CkContextPolicy => "context" | CkSkill => "skill"
  end.

Definition surface_for_kind (k : CandidateKind) (name : string) : SurfaceKey :=
  surface_prefix k ++ ":" ++ name.

(** The wire name of a [DecisionFamily]. *)
Definition family_name (f : DecisionFamily) : string :=
  match f with
  | FRetry => "retry" | FTimeout => "timeout" | FWorkerPlacement => "worker_placement"
  | FConcurrency => "concurrency" | FCheckpointPlacement => "checkpoint_placement"
  end.

(** [Candidate::surface]. *)
Definition content_name (c : CandidateContent) : string :=
  match c with
  | CcPrompt name _ => name
  | CcPolicy family _ => family_name family
  | CcMemorySet scope _ _ => as_address scope
  | CcToolPermission tool _ | CcToolContract tool _ _ => tool
  | CcModelSettings name _ _ | CcMemoryConfiguration name _ _ _ _ _
  | CcMiddlewareComposition name _ | CcContextPolicy name _ | CcSkill name _ _ => name
  end.

Definition surface (c : Candidate) : SurfaceKey :=
  surface_for_kind (candidate_kind c) (content_name (cd_content c)).

(** ** Environment tags *)

Definition SURFACE_TAG_SEPARATOR : Ascii.ascii := "@"%char.
Definition TAG_MAX_LEN : nat := 64.

(** [EnvironmentTag::new]. *)
Definition tag_char_refused (c : string) : bool :=
  is_whitespace c || has_control c || String.eqb c (String SURFACE_TAG_SEPARATOR EmptyString)
  || String.eqb c "/".

Definition tag_new (tag : string) : res EnvironmentTag :=
  let refuse reason := Err (invalid ("invalid environment tag " ++ debug_str tag ++ ": " ++ reason)) in
  if String.eqb tag EmptyString
  then refuse "empty — an absent tag is the untagged surface, spelled `None`"
  else if (TAG_MAX_LEN <? String.length tag)%nat then refuse "over 64 bytes"
  else if existsb tag_char_refused (chars tag)
  then refuse ("carries whitespace, a control character, `@`, or `/` — the first two have no "
               ++ "business in a key, the last two are the tag and tenant separators")
  else Ok tag.

(** [SurfaceKey::tagged]. *)
Definition tagged (s : SurfaceKey) (tag : EnvironmentTag) : SurfaceKey :=
  s ++ String SURFACE_TAG_SEPARATOR tag.

(** [str::rfind] of the separator, as the texts before and after it. *)
Fixpoint rsplit_tag (s : string) : option (string * string) :=
  match s with
  | EmptyString => None
  | String c s' =>
      match rsplit_tag s' with
      | Some (before, after) => Some (String c before, after)
      | None => if Ascii.eqb c SURFACE_TAG_SEPARATOR then Some (EmptyString, s') else None
      end
  end.

(** [SurfaceKey::split_tag]. *)
Definition split_tag (s : SurfaceKey) : SurfaceKey * option EnvironmentTag :=
  match rsplit_tag s with
  | Some (base, tag) => (base, Some tag)
  | None => (s, None)
  end.

(** ** Effect keys *)

Definition candidate_effect_key (id : CandidateId) : string := "candidate:" ++ id.
Definition evaluation_effect_key (id : CandidateId) (dataset_version : string) : string :=
  "evaluation:" ++ id ++ ":" ++ dataset_version.
Definition promotion_effect_key (id : CandidateId) : string := "promotion:" ++ id.
Definition rollback_effect_key (s : SurfaceKey) (id : CandidateId) : string :=
  "rollback:" ++ s ++ ":" ++ id.
Definition PROMOTION_EFFECT_KIND : string := "candidate_promotion".

(** ** Evaluation evidence *)

(** [EvaluationThresholds], [EvaluationVerdict], [ReplayDivergence],
    [ReplaySummary], [CandidateEvaluation]. *)
Record EvaluationThresholds : Type := mkThresholds {
  et_max_pass_rate_drop : spec_float;
  et_max_latency_p95_ratio : spec_float;
}.

Record EvaluationVerdict : Type := mkVerdict {
  vd_regressed : bool;
  vd_target_metric : string;
  vd_baseline : option spec_float;
  vd_candidate : option spec_float;
  vd_delta : option spec_float;
}.

Record ReplayDivergence : Type := mkDivergence { rd_fixture_id : string; rd_detail : string }.

Record ReplaySummary : Type := mkReplaySummary {
  rs_fixture_ids : list string;
  rs_matched : N;
  rs_divergences : list ReplayDivergence;
}.

(** [ReplaySummary::is_clean]. *)
Definition is_clean (r : ReplaySummary) : bool :=
  is_nil (rs_divergences r) && (rs_matched r =? N.of_nat (length (rs_fixture_ids r)))%N.

Record CandidateEvaluation : Type := mkEvaluation {
  ce_candidate_id : CandidateId;
  ce_dataset_version : string;
  ce_replay : ReplaySummary;
  ce_baseline_report : Value;
  ce_candidate_report : Value;
  ce_verdict : EvaluationVerdict;
  ce_thresholds : EvaluationThresholds;
  ce_evaluated_by : ProvenanceAuthor;
  ce_evaluated_at : DateTime;
}.

(** ** The envelope *)

(** [AutoPromotion], [EnvelopeRule], [PromotionEnvelope]. *)
Record AutoPromotion : Type := mkAuto {
  ap_dataset_version : option string;
  ap_min_improvement : spec_float;
  ap_scopes : list MemoryScope;
}.

Inductive EnvelopeRule : Type :=
| RuleAuto (auto : AutoPromotion)
| RuleApproval
| RuleCanary (fraction : spec_float) (auto : AutoPromotion).

Record PromotionEnvelope : Type := mkEnvelope {
  pe_envelope_version : string;
  pe_prompt : EnvelopeRule;
  pe_policy : EnvelopeRule;
  pe_memory_set : EnvelopeRule;
  pe_tool_permission : EnvelopeRule;
  pe_tool_contract : EnvelopeRule;
  pe_model_settings : EnvelopeRule;
  pe_memory_configuration : EnvelopeRule;
  pe_middleware_composition : EnvelopeRule;
}.

Definition CONTEXT_POLICY_ENVELOPE_RULE : EnvelopeRule := RuleApproval.
Definition SKILL_ENVELOPE_RULE : EnvelopeRule := RuleApproval.

(** [PromotionEnvelope::r08_default]. *)
Definition r08_default : PromotionEnvelope :=
  mkEnvelope "r0.8-default" RuleApproval RuleApproval
    (RuleAuto (mkAuto None f64_zero [ScopeRun; ScopeAgent]))
    RuleApproval RuleApproval RuleApproval RuleApproval RuleApproval.

(** [PromotionEnvelope::rule_for]. *)
Definition rule_for (e : PromotionEnvelope) (k : CandidateKind) : EnvelopeRule :=
  match k with
  | CkPrompt => pe_prompt e | CkPolicy => pe_policy e | CkMemorySet => pe_memory_set e
  | CkToolPermission => pe_tool_permission e | CkToolContract => pe_tool_contract e
  | CkModelSettings => pe_model_settings e | CkMemoryConfiguration => pe_memory_configuration e
  | CkMiddlewareComposition => pe_middleware_composition e
  | CkContextPolicy => CONTEXT_POLICY_ENVELOPE_RULE | CkSkill => SKILL_ENVELOPE_RULE
  end.

(** [f64::is_finite]. *)
Definition f64_is_finite (x : spec_float) : bool :=
  match x with S754_zero _ | S754_finite _ _ _ => true | _ => false end.

(** [check_auto] and [PromotionEnvelope::validate]. *)
Section Validate.
Context (f64_text : spec_float -> string).

Definition check_auto (a : AutoPromotion) : res unit :=
  if f64_is_finite (ap_min_improvement a) && SFleb f64_zero (ap_min_improvement a) then Ok ()
  else Err (invalid ("min_improvement must be finite and non-negative, got "
         ++ f64_text (ap_min_improvement a) ++ " — a negative bar would auto-promote regressions, "
         ++ "which is the one outcome the gate exists to refuse")).

Definition check_rule (r : EnvelopeRule) : res unit :=
  match r with
  | RuleAuto a => check_auto a
  | RuleCanary fraction a =>
      if f64_is_finite fraction && SFltb f64_zero fraction && SFleb fraction f64_unit
      then check_auto a
      else Err (invalid ("canary fraction must be in (0, 1], got " ++ f64_text fraction
             ++ " — a fraction outside the interval binds nothing or everything, and both are "
             ++ "silent full promotions or silent no-ops"))
  | RuleApproval => Ok ()
  end.

Definition envelope_validate (e : PromotionEnvelope) : res unit :=
  check_rule (pe_prompt e);; check_rule (pe_policy e);; check_rule (pe_memory_set e);;
  check_rule (pe_tool_permission e);; check_rule (pe_tool_contract e);;
  check_rule (pe_model_settings e);; check_rule (pe_memory_configuration e);;
  check_rule (pe_middleware_composition e).
End Validate.

(** ** Decisions, receipts, errors *)

(** [CanaryBinding], [PromotionAuthority], [PromotionDecision],
    [PromotionReceipt], [RollbackReceipt]. *)
Record CanaryBinding : Type := mkCanary { cy_candidate_id : CandidateId; cy_fraction : spec_float }.

Inductive PromotionAuthority : Type :=
| AuthorityEnvelope (envelope_version : string)
| AuthorityApproval (approved_by : string).

Record PromotionDecision : Type := mkDecision {
  pd_authority : PromotionAuthority;
  pd_canary : option CanaryBinding;
}.

Record PromotionReceipt : Type := mkPromotion {
  pr_candidate_id : CandidateId;
  pr_surface : SurfaceKey;
  pr_previous : option CandidateId;
  pr_decision : PromotionDecision;
  pr_promoted_at : DateTime;
}.

Record RollbackReceipt : Type := mkRollback {
  rr_surface : SurfaceKey;
  rr_from : CandidateId;
  rr_to : option CandidateId;
  rr_cause : string;
  rr_rolled_back_at : DateTime;
}.

(** [CandidateStatus]. *)
Inductive CandidateStatus : Type :=
| StatusCreated | StatusEvaluated | StatusPromoted | StatusRolledBack.

#[export] Instance CandidateStatus_eq_dec : EqDecision CandidateStatus.
Proof. solve_decision. Defined.

(** [PromotionRefusal], [LearnError]. *)
Inductive PromotionRefusal : Type :=
| NotEvaluated (candidate_id : CandidateId)
| EvaluationMismatch (candidate_id evaluation : CandidateId)
| ReplayDiverged (candidate_id : CandidateId) (divergences : nat)
| EvaluationRegressed (candidate_id : CandidateId)
| DatasetVersionMismatch (required evaluated : string)
| ScopeNotAutoPromotable (scope : MemoryScope)
| InsufficientImprovement (delta : option spec_float) (required : spec_float)
| RequiresApproval (effect_id : EffectId)
| ApprovalMismatch (required presented : EffectId).

Inductive LearnError : Type :=
| AddressMismatch (claimed derived : CandidateId)
| UnaddressableContent (detail : string)
| InvalidTransition (from : CandidateStatus) (action : string)
| ReceiptMismatch (candidate_id named : CandidateId)
| Refused (refusal : PromotionRefusal).

(** ** The lifecycle record *)

(** [CandidateRecord], [CandidateRecord::new], [candidate_id]. *)
Record CandidateRecord : Type := mkCandidateRecord {
  cr_candidate : Candidate;
  cr_status : CandidateStatus;
  cr_evaluation : option CandidateEvaluation;
  cr_promotion : option PromotionReceipt;
  cr_rollback : option RollbackReceipt;
}.

Definition candidate_record_new (c : Candidate) : CandidateRecord :=
  mkCandidateRecord c StatusCreated None None None.

Definition record_id (r : CandidateRecord) : CandidateId := cd_candidate_id (cr_candidate r).

(** [apply_evaluation], [apply_promotion], [apply_rollback]. *)
Definition apply_evaluation (e : CandidateEvaluation) (r : CandidateRecord) :
    result LearnError CandidateRecord :=
  match cr_status r with
  | StatusCreated | StatusEvaluated =>
      if String.eqb (ce_candidate_id e) (record_id r)
      then Ok (mkCandidateRecord (cr_candidate r) StatusEvaluated (Some e) (cr_promotion r)
                 (cr_rollback r))
      else Err (Refused (EvaluationMismatch (record_id r) (ce_candidate_id e)))
  | other => Err (InvalidTransition other "evaluate")
  end.

Definition apply_promotion (p : PromotionReceipt) (r : CandidateRecord) :
    result LearnError CandidateRecord :=
  if bool_decide (cr_status r = StatusEvaluated)
  then
    if String.eqb (pr_candidate_id p) (record_id r)
    then Ok (mkCandidateRecord (cr_candidate r) StatusPromoted (cr_evaluation r) (Some p)
               (cr_rollback r))
    else Err (ReceiptMismatch (record_id r) (pr_candidate_id p))
  else Err (InvalidTransition (cr_status r) "promote").

Definition apply_rollback (b : RollbackReceipt) (r : CandidateRecord) :
    result LearnError CandidateRecord :=
  if bool_decide (cr_status r = StatusPromoted)
  then
    if String.eqb (rr_from b) (record_id r)
    then Ok (mkCandidateRecord (cr_candidate r) StatusRolledBack (cr_evaluation r) (cr_promotion r)
               (Some b))
    else Err (ReceiptMismatch (record_id r) (rr_from b))
  else Err (InvalidTransition (cr_status r) "roll back").

(** ** The version pointer *)

(** [VersionPointer], [new], [promoted], [rolled_back]. *)
Record VersionPointer : Type := mkPointer {
  vp_surface : SurfaceKey;
  vp_active : option CandidateId;
  vp_canary : option CanaryBinding;
}.

Definition pointer_new (s : SurfaceKey) : VersionPointer := mkPointer s None None.

Definition promoted (p : VersionPointer) (r : PromotionReceipt) : VersionPointer :=
  match pd_canary (pr_decision r) with
  | Some binding => mkPointer (vp_surface p) (vp_active p) (Some binding)
  | None => mkPointer (vp_surface p) (Some (pr_candidate_id r)) None
  end.

(** Whether a slot of the pointer serves a candidate. *)
Definition serves_active (p : VersionPointer) (id : CandidateId) : bool :=
  bool_decide (vp_active p = Some id).
Definition serves_canary (p : VersionPointer) (id : CandidateId) : bool :=
  match vp_canary p with Some b => String.eqb (cy_candidate_id b) id | None => false end.

Definition rolled_back (p : VersionPointer) (r : RollbackReceipt) : VersionPointer :=
  mkPointer (vp_surface p)
    (if serves_active p (rr_from r) then rr_to r else vp_active p)
    (if serves_canary p (rr_from r) then None else vp_canary p).

(** ** Contents as JSON, addresses and the gate *)
Section Gate.
Context `{Codec}.

Definition cost_class_name (c : CostClass) : string :=
  match c with CostLow => "low" | CostMedium => "medium" | CostHigh => "high" end.

Definition selection_value (o : ToolSelectionOverlay) : Value :=
  jobj (jlist_skip "tags" (ov_tags o) ++ jopt "when_to_use" (Str <$> ov_when_to_use o)
        ++ jopt "cost_class" ((fun c => Str (cost_class_name c)) <$> ov_cost_class o)
        ++ jopt "parallel_safe" (Bool <$> ov_parallel_safe o)
        ++ jopt "batchable" (Bool <$> ov_batchable o)
        ++ jlist_skip "prerequisites" (ov_prerequisites o))%list.

Definition rank_value (r : RankPolicy) : Value :=
  jobj [("utility_weight", jN (rp_utility_weight r));
        ("over_fetch_percent", jN (rp_over_fetch_percent r))].

Definition maintenance_value (c : ConsolidationPolicy) : Value :=
  jobj ([("scope", Str (scope_name (cn_scope c))); ("key_domain", Str (cn_key_domain c))]
        ++ jopt "max_records" (jN <$> cn_max_records c) ++ jopt "max_tokens" (jN <$> cn_max_tokens c)
        ++ jopt "max_age_ms" (jN <$> cn_max_age_ms c) ++ [("distiller", Str (cn_distiller c))])%list.

Definition layer_value (l : MiddlewareLayerConfig) : Value :=
  jobj (("layer", Str (lc_layer l)) :: jopt "config" (lc_config l)).

Definition binding_value (b : SkillBinding) : Value :=
  jobj (jlist_skip "trigger_tags" (sb_trigger_tags b) ++ jopt "task_shape" (Str <$> sb_task_shape b)
        ++ jopt "cost_class" ((fun c => Str (cost_class_name c)) <$> sb_cost_class b)
        ++ jlist_skip "tools" (sb_tools b))%list.

(** The derived serializer of [CandidateContent], the kind as its tag. *)
Definition content_members (c : CandidateContent) : list (string * Value) :=
  match c with
  | CcPrompt name prompt => [("name", Str name); ("prompt", Str prompt)]
  | CcPolicy family parameters => [("family", Str (family_name family)); ("parameters", parameters)]
  | CcMemorySet scope adds supersedes =>
      ([("scope", scope_value scope); ("adds", Array (map record_value adds))]
       ++ jlist_skip "supersedes" supersedes)%list
  | CcToolPermission tool direction =>
      [("tool", Str tool);
       ("direction", Str match direction with GrantNarrow => "narrow" | GrantWiden => "widen" end)]
  | CcToolContract tool schema selection =>
      ([("tool", Str tool); ("schema", schema)] ++ jopt "selection" (selection_value <$> selection))%list
  | CcModelSettings name model parameters =>
      [("name", Str name); ("model", Str model); ("parameters", parameters)]
  | CcMemoryConfiguration name budget filters version rank maintenance =>
      ([("name", Str name); ("budget", context_budget_value budget);
        ("default_filters", query_value filters); ("schema_version", Str version)]
       ++ jopt "rank" (rank_value <$> rank)
       ++ jskip "maintenance" (is_nil maintenance) (Array (map maintenance_value maintenance)))%list
  | CcMiddlewareComposition name layers =>
      [("name", Str name); ("layers", Array (map layer_value layers))]
  | CcContextPolicy name policy => [("name", Str name); ("policy", policy)]
  | CcSkill name content_hash binding =>
      ([("name", Str name); ("content_hash", Str content_hash)]
       ++ jopt "binding" (binding_value <$> binding))%list
  end.

Definition content_value (c : CandidateContent) : Value :=
  jobj (("kind", Str (candidate_kind_name (content_kind c))) :: content_members c).

(** [derive_candidate_id]; [None] is a serialization error. *)
Definition derive_candidate_id (c : CandidateContent) : option CandidateId :=
  sha256_hex <$> to_vec (content_value c).

(** [Candidate::new]. *)
Definition candidate_new (content : CandidateContent) (distilled_by : ProvenanceAuthor)
    (evidence : EvidenceSpan) (created_at : DateTime) : res Candidate :=
  id ← serialized (derive_candidate_id content);
  Ok (mkCandidate id content distilled_by evidence created_at).

(** [Candidate::verify_address]. *)
Definition verify_address (c : Candidate) : result LearnError unit :=
  match derive_candidate_id (cd_content c) with
  | None => Err (UnaddressableContent (error_text (ESerialization "value")))
  | Some derived =>
      if String.eqb derived (cd_candidate_id c) then Ok ()
      else Err (AddressMismatch (cd_candidate_id c) derived)
  end.

(** [Candidate::apply_to_manifest]. *)
Definition apply_to_manifest (c : Candidate) (m : RunManifest) : res RunManifest :=
  match cd_content c with
  | CcPrompt name prompt =>
      Ok (mkManifest (BTree.insert name (sha256_hex prompt) (rm_prompts m)) (rm_tool_schemas m)
            (rm_model m) (rm_model_params m) (rm_memory_schema m) (rm_capsules m) (rm_middleware m)
            (rm_capability_set m))
  | content =>
      Err (invalid ("only a `prompt` candidate applies to a run manifest; `"
             ++ candidate_kind_name (content_kind content) ++ "` candidates apply to their own surfaces"))
  end.

(** [promotion_effect_id]. *)
Definition promotion_effect_id (c : Candidate) : EffectId :=
  derive_effect_id (surface c) PROMOTION_EFFECT_KIND (cd_candidate_id c)
    (Some (promotion_effect_key (cd_candidate_id c))).

(** [check_evidence_bar]. *)
Definition check_evidence_bar (a : AutoPromotion) (c : Candidate) (e : CandidateEvaluation) :
    result LearnError unit :=
  if negb (is_clean (ce_replay e))
  then Err (Refused (ReplayDiverged (cd_candidate_id c) (length (rs_divergences (ce_replay e)))))
  else if vd_regressed (ce_verdict e)
  then Err (Refused (EvaluationRegressed (cd_candidate_id c)))
  else
    match ap_dataset_version a with
    | Some required =>
        if String.eqb required (ce_dataset_version e) then Ok ()
        else Err (Refused (DatasetVersionMismatch required (ce_dataset_version e)))
    | None => Ok ()
    end;;
    match cd_content c with
    | CcMemorySet scope _ _ =>
        if is_nil (ap_scopes a) || bool_decide (sa_scope scope ∈ ap_scopes a) then Ok ()
        else Err (Refused (ScopeNotAutoPromotable (sa_scope scope)))
    | _ => Ok ()
    end;;
    if match vd_delta (ce_verdict e) with
       | Some delta => SFltb (ap_min_improvement a) delta
       | None => false
       end
    then Ok ()
    else Err (Refused (InsufficientImprovement (vd_delta (ce_verdict e)) (ap_min_improvement a))).

(** [admit_promotion]. *)
Definition admit_promotion (envelope : PromotionEnvelope) (c : Candidate)
    (evaluation : option CandidateEvaluation) (approval : option ApprovalToken) :
    result LearnError PromotionDecision :=
  verify_address c;;
  evaluation ← ok_or evaluation (Refused (NotEvaluated (cd_candidate_id c)));
  if String.eqb (ce_candidate_id evaluation) (cd_candidate_id c)
  then
    match rule_for envelope (candidate_kind c) with
    | RuleAuto auto =>
        check_evidence_bar auto c evaluation;;
        Ok (mkDecision (AuthorityEnvelope (pe_envelope_version envelope)) None)
    | RuleCanary fraction auto =>
        check_evidence_bar auto c evaluation;;
        Ok (mkDecision (AuthorityEnvelope (pe_envelope_version envelope))
              (Some (mkCanary (cd_candidate_id c) fraction)))
    | RuleApproval =>
        let required := promotion_effect_id c in
        token ← ok_or approval (Refused (RequiresApproval required));
        if admits token required
        then Ok (mkDecision (AuthorityApproval (tk_approved_by token)) None)
        else Err (Refused (ApprovalMismatch required (tk_effect_id token)))
    end
  else Err (Refused (EvaluationMismatch (cd_candidate_id c) (ce_candidate_id evaluation))).

(** [canary_admits]: the first eight bytes of the digest, big-endian, are
    the first sixteen of its hexadecimal digits. *)
Definition CANARY_DRAW_DOMAIN : string := "rusty/canary-draw/v1".

Definition hex_value (c : Ascii.ascii) : N :=
  let n := Ascii.N_of_ascii c in
  if (n <? 58)%N then (n - 48)%N else (n - 87)%N.

Fixpoint hex_number (digits : nat) (acc : N) (s : string) : N :=
  match digits, s with
  | S d, String c s' => hex_number d (acc * 16 + hex_value c)%N s'
  | _, _ => acc
  end.

Definition canary_draw (b : CanaryBinding) (s : SurfaceKey) (run_id : string) : N :=
  hex_number 16 0 (sha256_hex (String.concat newline
    [CANARY_DRAW_DOMAIN; s; cy_candidate_id b; run_id])).

Definition canary_admits (b : CanaryBinding) (s : SurfaceKey) (run_id : string) : bool :=
  if SFleb f64_unit (cy_fraction b) then true
  else SFltb (f64_of_N (canary_draw b s run_id))
         (f64_times (cy_fraction b) (f64_of_N 18446744073709551615)).
End Gate.

(** ** The memory overlay *)
Section Overlay.
Context `{Codec, Unicode} (powf : spec_float -> spec_float -> spec_float) {E : Type}.

(** [CandidateOverlay]. *)
Record CandidateOverlay : Type := mkCandidateOverlay {
  co_base : MemoryStore E;
  co_adds : list MemoryRecord;
  co_supersedes : list string;
}.

(** [CandidateOverlay::new]. *)
Definition overlay_new (base : MemoryStore E) (c : Candidate) : res CandidateOverlay :=
  match cd_content c with
  | CcMemorySet _ adds supersedes => Ok (mkCandidateOverlay base adds supersedes)
  | content =>
      Err (invalid ("only a `memory_set` candidate applies as a memory overlay; `"
             ++ candidate_kind_name (content_kind content) ++ "` candidates apply to their own surfaces"))
  end.

(** [impl MemoryStore for CandidateOverlay]; [utility_bps] is the trait's
    default. *)
Definition overlay_put (_ : CandidateOverlay) (_ : MemoryRecord) (env : E) : res bool * E :=
  (Err (invalid ("the candidate overlay is a read lens: writes through it would mutate production "
     ++ "memory mid-evaluation — the silent-rewrite pattern the candidate pipeline exists to forbid")),
   env).

Definition overlay_get (o : CandidateOverlay) (id : string) (env : E) :
    res (option MemoryRecord) * E :=
  match List.find (fun r => String.eqb (mr_memory_id r) id) (co_adds o) with
  | Some r => (Ok (Some r), env)
  | None => ms_get (co_base o) id env
  end.

Definition merged (base adds : list MemoryRecord) : list MemoryRecord :=
  (List.filter (fun r =>
     negb (existsb (fun add => String.eqb (mr_memory_id add) (mr_memory_id r)) adds)) base ++ adds)%list.

Definition overlay_all (o : CandidateOverlay) (env : E) : res (list MemoryRecord) * E :=
  let '(base, env') := ms_all (co_base o) env in
  (base ← base; Ok (merged base (co_adds o)), env').

Definition overlay_remove (_ : CandidateOverlay) (_ : string) (env : E) : res bool * E :=
  (Err (invalid ("the candidate overlay is a read lens: deletion through it would mutate production "
     ++ "memory mid-evaluation")), env).

Definition overlay_query (o : CandidateOverlay) (q : MemoryQuery) (now : DateTime) (env : E) :
    res (list MemoryRecord) * E :=
  let '(all, env') := overlay_all o env in
  (all ← all;
   let matched := apply_query powf all q now in
   if mq_include_superseded q || is_nil (co_supersedes o) then Ok matched
   else Ok (List.filter (fun r => negb (bool_decide (mr_memory_id r ∈ co_supersedes o))) matched),
   env').

Definition overlay_store (o : CandidateOverlay) : MemoryStore E :=
  mkMemoryStore (overlay_put o) (overlay_get o) (overlay_all o) (overlay_remove o)
    (fun _ _ => None) (overlay_query o).
End Overlay.
Arguments CandidateOverlay : clear implicits.
