(* ===== verification/Registry.v ===== *)
(** * The configuration registry ([rusty-core/src/registry.rs])

    Named, owned artifacts with their commit sequence, the two diff views
    between committed versions (a line diff over a longest-common-subsequence
    table, a structural diff over canonical JSON), and what a run resolves at
    admission: the candidate a pointer binds and the digest the manifest
    pins. *)

From Stdlib Require Import String Ascii Floats.SpecFloat.
From S2P Require Import Prelude Containers Json Error Record Text Memory Learn.
Local Open Scope string_scope.

(** ** Artifacts *)

Definition MAX_ARTIFACT_NAME_LEN : nat := 128.

(** [ArtifactCommit], [ArtifactRecord]. *)
Record ArtifactCommit : Type := mkCommit { ac_candidate_id : CandidateId; ac_committed_at : DateTime }.

Record ArtifactRecord : Type := mkArtifactRecord {
  ar_surface : SurfaceKey;
  ar_family : CandidateKind;
  ar_owner : ProvenanceAuthor;
  ar_commits : list ArtifactCommit;
  ar_created_at : DateTime;
}.

(** [RegistryError]. *)
Inductive RegistryError : Type :=
| InvalidName (name reason : string)
| FamilyMismatch (artifact candidate : CandidateKind)
| SurfaceMismatch (artifact candidate : SurfaceKey)
| DuplicateCommit (candidate_id : CandidateId)
| NotCommitted (candidate_id : CandidateId)
| DiffAcrossKinds (from to : CandidateKind)
| UnresolvableKind (kind : CandidateKind)
| UndiffableContent (detail : string).

(** [validate_artifact_name]. *)
Definition name_char_refused (c : string) : bool :=
  has_control c || String.eqb c "@" || String.eqb c "/".

Definition validate_artifact_name (name : string) : result RegistryError unit :=
  let refuse reason := Err (InvalidName name reason) in
  if String.eqb name EmptyString then refuse "empty — an artifact exists to be named"
  else if (MAX_ARTIFACT_NAME_LEN <? String.length name)%nat then refuse "over 128 bytes"
  else if negb (String.eqb name (str_trim name))
  then refuse ("leading or trailing whitespace — visually identical names would be distinct "
               ++ "artifacts, which is a misreview waiting to happen")
  else if existsb name_char_refused (chars name)
  then refuse ("carries a control character, `@`, or `/` — the tag separator and the tenant "
               ++ "separator are structural, and control characters have no business in a key")
  else Ok ().

(** [ArtifactRecord::new], [name], [latest], [find_commit]. *)
Definition artifact_new (family : CandidateKind) (name : string) (owner : ProvenanceAuthor)
    (created_at : DateTime) : result RegistryError ArtifactRecord :=
  validate_artifact_name name;;
  Ok (mkArtifactRecord (surface_for_kind family name) family owner [] created_at).

Definition artifact_name (a : ArtifactRecord) : string :=
  default (ar_surface a) (strip_prefix (surface_for_kind (ar_family a) EmptyString) (ar_surface a)).

Definition latest (a : ArtifactRecord) : option ArtifactCommit := last (ar_commits a).

Definition find_commit (a : ArtifactRecord) (id : CandidateId) : option ArtifactCommit :=
  List.find (fun c => String.eqb (ac_candidate_id c) id) (ar_commits a).

(** [ArtifactRecord::admit_commit]. *)
Definition admit_commit (a : ArtifactRecord) (c : Candidate) (committed_at : DateTime) :
    result RegistryError ArtifactCommit :=
  if bool_decide (candidate_kind c = ar_family a)
  then
    if String.eqb (surface c) (ar_surface a)
    then
      match find_commit a (cd_candidate_id c) with
      | Some _ => Err (DuplicateCommit (cd_candidate_id c))
      | None => Ok (mkCommit (cd_candidate_id c) committed_at)
      end
    else Err (SurfaceMismatch (ar_surface a) (surface c))
  else Err (FamilyMismatch (ar_family a) (candidate_kind c)).

(** ** The line diff *)

(** [TextDiffLine]. *)
Inductive TextDiffLine : Type :=
| LineContext (line : string)
| LineRemoved (line : string)
| LineAdded (line : string).

(** [str::lines]: one trailing newline, and a carriage return before it, is
    no part of a line. *)
Definition strip_cr (line : string) : string :=
  match string_rev line with
  | String c rest => if Ascii.eqb c "013"%char then string_rev rest else line
  | EmptyString => line
  end.

Fixpoint lines_onto (current s : string) : list string :=
  match s with
  | EmptyString => match current with EmptyString => [] | _ => [current] end
  | String c s' =>
      if Ascii.eqb c "010"%char then strip_cr current :: lines_onto EmptyString s'
      else lines_onto (current ++ String c EmptyString) s'
  end.

Definition str_lines (s : string) : list string := lines_onto EmptyString s.

(** The table [lcs], filled bottom-up: one row from the row below, and the
    rows of all suffixes of the base. *)
Fixpoint lcs_row (x : string) (target : list string) (below : list nat) : list nat :=
  match target, below with
  | y :: target', here :: below' =>
      let row := lcs_row x target' below' in
      (if String.eqb x y then S (hd 0 below') else Nat.max here (hd 0 row)) :: row
  | _, _ => [0]
  end.

Fixpoint lcs_table (base target : list string) : list (list nat) :=
  match base with
  | [] => [replicate (S (length target)) 0]
  | x :: base' => let rows := lcs_table base' target in lcs_row x target (hd [] rows) :: rows
  end.

Definition lcs_at (table : list (list nat)) (i j : nat) : nat :=
  default 0 (table !! i ≫= fun row => row !! j).

(** The walk over the table; each round moves one index, so the two lengths
    bound the rounds. *)
Fixpoint diff_walk (table : list (list nat)) (base target : list string) (fuel i j : nat) :
    list TextDiffLine :=
  match fuel with
  | O => []
  | S fuel' =>
      match base !! i, target !! j with
      | Some b, Some t =>
          if String.eqb b t
          then LineContext b :: diff_walk table base target fuel' (S i) (S j)
          else if (lcs_at table i (S j) <=? lcs_at table (S i) j)%nat
          then LineRemoved b :: diff_walk table base target fuel' (S i) j
          else LineAdded t :: diff_walk table base target fuel' i (S j)
      | _, _ => (map LineRemoved (drop i base) ++ map LineAdded (drop j target))%list
      end
  end.

(** [diff_lines]. *)
Definition diff_sequences (base target : list string) : list TextDiffLine :=
  diff_walk (lcs_table base target) base target (S (length base + length target)) 0 0.

Definition diff_lines (base target : string) : list TextDiffLine :=
  diff_sequences (str_lines base) (str_lines target).

(** ** The structural diff *)

(** [LeafChange], [LeafModification], the three vectors. *)
Record LeafChange : Type := mkLeaf { lf_path : string; lf_value : Value }.
Record LeafModification : Type := mkModification { lm_path : string; lm_from : Value; lm_to : Value }.

Record Leaves : Type := mkLeaves {
  lv_added : list LeafChange;
  lv_removed : list LeafChange;
  lv_changed : list LeafModification;
}.

Definition no_leaves : Leaves := mkLeaves [] [] [].
Definition leaves_app (a b : Leaves) : Leaves :=
  mkLeaves (lv_added a ++ lv_added b) (lv_removed a ++ lv_removed b) (lv_changed a ++ lv_changed b).

Definition leaves_concat (l : list Leaves) : Leaves := fold_right leaves_app no_leaves l.

(** The leaves past the shared prefix of two arrays, from an index. *)
Fixpoint leaves_from (path : string) (i : nat) (items : list Value) : list LeafChange :=
  match items with
  | [] => []
  | v :: rest => mkLeaf (path ++ "/" ++ pretty i) v :: leaves_from path (S i) rest
  end.

(** The members of the target the base lacks. *)
Definition new_members (path : string) (base target : list (string * Value)) : list LeafChange :=
  map (fun kv => mkLeaf (path ++ "/" ++ kv.1) kv.2)
    (List.filter (fun kv => negb (BTree.contains_key kv.1 base)) target).

(** [diff_values]. *)
Fixpoint diff_values (path : string) (base target : Value) {struct base} : Leaves :=
  match base, target with
  | Object bm, Object tm =>
      leaves_app
        (leaves_concat (map (fun kv =>
           match BTree.get kv.1 tm with
           | Some tv => diff_values (path ++ "/" ++ kv.1) kv.2 tv
           | None => mkLeaves [] [mkLeaf (path ++ "/" ++ kv.1) kv.2] []
           end) bm))
        (mkLeaves (new_members path bm tm) [] [])
  | Array bs, Array ts =>
      (fix pairs (i : nat) (bs : list Value) (ts : list Value) {struct bs} : Leaves :=
         match bs, ts with
         | b :: bs', t :: ts' =>
             leaves_app (diff_values (path ++ "/" ++ pretty i) b t) (pairs (S i) bs' ts')
         | bs, ts => mkLeaves (leaves_from path i ts) (leaves_from path i bs) []
         end) 0 bs ts
  | _, _ =>
      if value_eqb base target then no_leaves
      else mkLeaves [] [] [mkModification path base target]
  end.

(** [RegistryDiff], [is_empty], [diff_candidates]. *)
Inductive RegistryDiff : Type :=
| DiffText (lines : list TextDiffLine)
| DiffStructural (leaves : Leaves).

Definition diff_is_empty (d : RegistryDiff) : bool :=
  match d with
  | DiffText lines => forallb (fun l => match l with LineContext _ => true | _ => false end) lines
  | DiffStructural l => is_nil (lv_added l) && is_nil (lv_removed l) && is_nil (lv_changed l)
  end.

Definition diff_candidates `{Codec} (from to : Candidate) : result RegistryError RegistryDiff :=
  if bool_decide (candidate_kind from = candidate_kind to)
  then
    match cd_content from, cd_content to with
    | CcPrompt _ base, CcPrompt _ target => Ok (DiffText (diff_lines base target))
    | base, target =>
        Ok (DiffStructural (diff_values EmptyString (canonicalize_value (content_value base))
              (canonicalize_value (content_value target))))
    end
  else Err (DiffAcrossKinds (candidate_kind from) (candidate_kind to)).

(** ** Admission *)

(** [PointerBinding], [pointer_admission]. *)
Inductive PointerBinding : Type := BindingActive | BindingCanary.

Section Admission.
Context `{Codec}.

Definition pointer_admission (p : VersionPointer) (run_id : string) :
    option (CandidateId * PointerBinding) :=
  match vp_canary p with
  | Some b =>
      if canary_admits b (vp_surface p) run_id then Some (cy_candidate_id b, BindingCanary)
      else (fun id => (id, BindingActive)) <$> vp_active p
  | None => (fun id => (id, BindingActive)) <$> vp_active p
  end.

(** [resolution_pin]. *)
Definition canonical_digest (v : Value) : result RegistryError string :=
  match to_vec (canonicalize_value v) with
  | Some bytes => Ok (sha256_hex bytes)
  | None => Err (UndiffableContent (error_text (ESerialization "value")))
  end.

Definition resolution_pin (c : Candidate) : result RegistryError (string * option string) :=
  match cd_content c with
  | CcPrompt _ prompt => Ok (sha256_hex prompt, None)
  | CcToolContract _ schema _ => d ← canonical_digest schema; Ok (d, None)
  | CcModelSettings _ model parameters => d ← canonical_digest parameters; Ok (d, Some model)
  | CcMiddlewareComposition _ layers =>
      d ← canonical_digest (Array (map layer_value layers)); Ok (d, None)
  | _ => Err (UnresolvableKind (candidate_kind c))
  end.
End Admission.

(** ** What the registry's diffs show

    The line diff is a shortest edit script between the two texts, with the
    removed lines of a block before the added ones; the structural diff is
    empty exactly on equal documents and mirrors when its sides are swapped;
    an artifact's history holds each candidate of its own surface once. *)

(** ** Scripts *)

(** The text a script starts from, the one it ends in, the lines it keeps
    and the number of changes it makes. *)
Definition old_line (l : TextDiffLine) : option string :=
  match l with LineContext x | LineRemoved x => Some x | LineAdded _ => None end.
Definition new_line (l : TextDiffLine) : option string :=
  match l with LineContext x | LineAdded x => Some x | LineRemoved _ => None end.
Definition kept_line (l : TextDiffLine) : option string :=
  match l with LineContext x => Some x | _ => None end.

Definition old_side : list TextDiffLine -> list string := omap old_line.
Definition new_side : list TextDiffLine -> list string := omap new_line.
Definition kept : list TextDiffLine -> list string := omap kept_line.
Definition changes (d : list TextDiffLine) : nat :=
  length (List.filter (fun l => match l with LineContext _ => false | _ => true end) d).

Lemma kept_sublist_old (d : list TextDiffLine) : kept d `sublist_of` old_side d.
Proof.
  unfold kept, old_side. induction d as [|[x|x|x] d IH]; simpl; [done|by apply sublist_skip|by apply sublist_cons|done].
Qed.

Lemma kept_sublist_new (d : list TextDiffLine) : kept d `sublist_of` new_side d.
Proof.
  unfold kept, new_side. induction d as [|[x|x|x] d IH]; simpl; [done|by apply sublist_skip|done|by apply sublist_cons].
Qed.

Lemma changes_kept (d : list TextDiffLine) :
  (changes d + 2 * length (kept d) = length (old_side d) + length (new_side d))%nat.
Proof.
  unfold changes, kept, old_side, new_side. induction d as [|[x|x|x] d IH]; csimpl in *; lia.
Qed.

(** ** Longest common subsequences *)

(** The length of a longest common subsequence, by the recursion the table
    tabulates. *)
Fixpoint lcs (a : list string) : list string -> nat :=
  match a with
  | [] => fun _ => 0
  | x :: a' =>
      fix go (b : list string) : nat :=
        match b with
        | [] => 0
        | y :: b' => if String.eqb x y then S (lcs a' b') else Nat.max (lcs a' (y :: b')) (go b')
        end
  end.

Lemma lcs_nil_r (a : list string) : lcs a [] = 0.
Proof. by destruct a. Qed.

Lemma lcs_cons (x y : string) (a b : list string) :
  lcs (x :: a) (y :: b)
  = if String.eqb x y then S (lcs a b) else Nat.max (lcs a (y :: b)) (lcs (x :: a) b).
Proof. done. Qed.

Arguments lcs : simpl never.

Lemma lcs_mono_r (a b : list string) (y : string) : (lcs a b <= lcs a (y :: b))%nat.
Proof.
  revert b y. induction a as [|x a IH]; [done|]. induction b as [|z b IHb]; intros y.
  { rewrite lcs_nil_r. lia. }
  rewrite (lcs_cons x y). destruct (String.eqb x y); [|lia].
  rewrite lcs_cons. destruct (String.eqb x z); [specialize (IH b z); lia|].
  specialize (IHb z). rewrite lcs_cons in IHb.
  assert (Hcommon : (lcs (x :: a) b <= S (lcs a b))%nat).
  { clear -IH. induction b as [|w b IHw]; [rewrite lcs_nil_r; lia|]. rewrite lcs_cons.
    destruct (String.eqb x w); [specialize (IH b w); lia|]. specialize (IH b w). lia. }
  specialize (IH b z). lia.
Qed.

Lemma sublist_tail (x : string) (l k : list string) : x :: l `sublist_of` k -> l `sublist_of` k.
Proof. intros Hs. transitivity (x :: l); [by apply sublist_cons|done]. Qed.

(** No common subsequence is longer. *)
Lemma lcs_longest (a b l : list string) :
  l `sublist_of` a -> l `sublist_of` b -> (length l <= lcs a b)%nat.
Proof.
  revert b l. induction a as [|x a IH]; intros b l Ha.
  { apply sublist_nil_r in Ha as ->. simpl. lia. }
  revert l Ha. induction b as [|y b IHb]; intros l Ha Hb.
  { apply sublist_nil_r in Hb as ->. simpl. lia. }
  rewrite lcs_cons. destruct (String.eqb_spec x y) as [->|Hne].
  - apply sublist_cons_r in Ha as [Ha|(l' & -> & Ha)].
    + apply sublist_cons_r in Hb as [Hb|(l2 & -> & Hb)]; [specialize (IH b l Ha Hb); lia|].
      apply sublist_tail in Ha as Ha'.
      specialize (IH b l2 Ha' Hb). simpl. lia.
    + assert (Hb' : l' `sublist_of` b).
      { apply sublist_cons_r in Hb as [Hb|(l2 & [= ->] & Hb)]; [|done].
        by eapply sublist_tail. }
      specialize (IH b l' Ha Hb'). simpl. lia.
  - apply sublist_cons_r in Ha as [Ha|(l' & -> & Ha)]; [specialize (IH (y :: b) l Ha Hb); lia|].
    apply sublist_cons_r in Hb as [Hb|(l2 & [= Hx _] & _)]; [|done].
    specialize (IHb (x :: l') ltac:(by constructor) Hb). lia.
Qed.

(** ** The table *)

Fixpoint tails (b : list string) : list (list string) :=
  b :: match b with [] => [] | _ :: b' => tails b' end.

Lemma tails_lookup (b : list string) (j : nat) :
  (j <= length b)%nat -> tails b !! j = Some (drop j b).
Proof. revert j. induction b as [|y b IH]; intros [|j] Hj; simpl in *; try lia; [done..|]. apply IH. lia. Qed.

Lemma lcs_row_spec (x : string) (a b : list string) :
  lcs_row x b (map (lcs a) (tails b)) = map (lcs (x :: a)) (tails b).
Proof.
  induction b as [|y b IH]; [done|].
  change (tails (y :: b)) with ((y :: b) :: tails b). rewrite !map_cons. cbn [lcs_row].
  rewrite IH, lcs_cons. by destruct b as [|z b].
Qed.

Lemma lcs_table_rows (a b : list string) (i : nat) :
  (i <= length a)%nat -> lcs_table a b !! i = Some (map (lcs (drop i a)) (tails b)).
Proof.
  revert i. induction a as [|x a IH]; intros i Hi.
  { assert (i = 0) as -> by (simpl in Hi; lia). simpl. f_equal. clear.
    induction b as [|y b IH]; [done|]. simpl. by rewrite IH. }
  destruct i as [|i]; [|simpl in *; apply IH; lia].
  simpl. f_equal. pose proof (IH 0 ltac:(lia)) as H0. simpl in H0.
  destruct (lcs_table a b) as [|row rows]; [done|]. injection H0 as ->. apply lcs_row_spec.
Qed.

Lemma lcs_at_spec (a b : list string) (i j : nat) :
  (i <= length a)%nat -> (j <= length b)%nat -> lcs_at (lcs_table a b) i j = lcs (drop i a) (drop j b).
Proof.
  intros Hi Hj. unfold lcs_at. rewrite lcs_table_rows by done. simpl.
  by rewrite list_lookup_fmap, tails_lookup.
Qed.

(** ** The walk *)
Section Walk.
Context (a b : list string).

(** The walk over suffixes, by the reference recursion. *)
Fixpoint script (fuel : nat) (a b : list string) : list TextDiffLine :=
  match fuel with
  | O => []
  | S fuel' =>
      match a, b with
      | x :: a', y :: b' =>
          if String.eqb x y then LineContext x :: script fuel' a' b'
          else if (lcs (x :: a') b' <=? lcs a' (y :: b'))%nat
          then LineRemoved x :: script fuel' a' (y :: b')
          else LineAdded y :: script fuel' (x :: a') b'
      | a, b => (map LineRemoved a ++ map LineAdded b)%list
      end
  end.

Lemma diff_walk_script (fuel i j : nat) :
  (i <= length a)%nat -> (j <= length b)%nat ->
  diff_walk (lcs_table a b) a b fuel i j = script fuel (drop i a) (drop j b).
Proof.
  revert i j. induction fuel as [|fuel IH]; intros i j Hi Hj; [done|]. cbn [diff_walk script].
  destruct (a !! i) as [x|] eqn:Ea; [|by rewrite (drop_ge a) by (by apply lookup_ge_None)].
  pose proof (lookup_lt_Some _ _ _ Ea).
  destruct (b !! j) as [y|] eqn:Eb.
  2:{ rewrite (drop_ge b) by (by apply lookup_ge_None). by rewrite (drop_S a x i). }
  pose proof (lookup_lt_Some _ _ _ Eb).
  rewrite (drop_S a x i), (drop_S b y j) by done.
  rewrite !lcs_at_spec by lia. rewrite (drop_S a x i), (drop_S b y j) by done.
  rewrite !IH by lia. by rewrite (drop_S a x i), (drop_S b y j) by done.
Qed.
End Walk.

Lemma old_side_tail (a b : list string) : old_side (map LineRemoved a ++ map LineAdded b) = a.
Proof.
  unfold old_side. induction a as [|x a IH]; csimpl; [by induction b|by rewrite IH].
Qed.

Lemma new_side_tail (a b : list string) : new_side (map LineRemoved a ++ map LineAdded b) = b.
Proof.
  unfold new_side. induction a as [|x a IH]; csimpl; [|done].
  induction b as [|y b IH]; csimpl; [done|by rewrite IH].
Qed.

Lemma kept_tail (a b : list string) : kept (map LineRemoved a ++ map LineAdded b) = [].
Proof. unfold kept. induction a as [|x a IH]; csimpl; [by induction b|done]. Qed.

Lemma script_sides (fuel : nat) (a b : list string) :
  (length a + length b < fuel)%nat ->
  old_side (script fuel a b) = a /\ new_side (script fuel a b) = b
  /\ length (kept (script fuel a b)) = lcs a b.
Proof.
  revert a b. induction fuel as [|fuel IH]; intros a b Hf; [lia|].
  destruct a as [|x a]; [|destruct b as [|y b]].
  1-2: cbn [script]; rewrite old_side_tail, new_side_tail, kept_tail, ?lcs_nil_r; done.
  cbn [script]. rewrite lcs_cons. simpl in Hf. destruct (String.eqb_spec x y) as [->|Hne].
  - destruct (IH a b ltac:(lia)) as (H1 & H2 & H3). unfold old_side, new_side, kept in *. csimpl. by rewrite H1, H2, H3.
  - destruct (Nat.leb_spec (lcs (x :: a) b) (lcs a (y :: b))).
    + destruct (IH a (y :: b) ltac:(simpl; lia)) as (H1 & H2 & H3). unfold old_side, new_side, kept in *. csimpl.
      rewrite H1, H2, H3. split_and!; [done..|lia].
    + destruct (IH (x :: a) b ltac:(simpl; lia)) as (H1 & H2 & H3). unfold old_side, new_side, kept in *. csimpl.
      rewrite H1, H2, H3. split_and!; [done..|lia].
Qed.

(** An addition is never followed by a removal of the same block. *)
Fixpoint grouped (d : list TextDiffLine) : bool :=
  match d with
  | LineAdded _ :: rest =>
      match rest with LineRemoved _ :: _ => false | _ => grouped rest end
  | _ :: rest => grouped rest
  | [] => true
  end.

Lemma grouped_added (b : list string) : grouped (map LineAdded b) = true.
Proof. induction b as [|y [|z b] IH]; done. Qed.

Lemma grouped_tail (a b : list string) : grouped (map LineRemoved a ++ map LineAdded b) = true.
Proof. induction a as [|x a IH]; simpl; [apply grouped_added|done]. Qed.

Lemma script_grouped (fuel : nat) (a b : list string) :
  (length a + length b < fuel)%nat -> grouped (script fuel a b) = true.
Proof.
  revert a b. induction fuel as [|fuel IH]; intros a b Hf; [done|].
  destruct a as [|x a]; [|destruct b as [|y b]]; cbn [script]; [apply grouped_tail..|].
  simpl in Hf. destruct (String.eqb_spec x y) as [->|Hne]; [simpl; apply IH; lia|].
  destruct (Nat.leb_spec (lcs (x :: a) b) (lcs a (y :: b))) as [Hle|Hlt];
    [simpl; apply IH; simpl; lia|].
  assert (Hrest : grouped (script fuel (x :: a) b) = true) by (apply IH; simpl; lia).
  destruct fuel as [|fuel]; [done|]. destruct b as [|z b]; [rewrite lcs_nil_r in Hlt; lia|].
  revert Hrest. cbn [script]. destruct (String.eqb_spec x z) as [->|Hxz]; [done|].
  pose proof (lcs_mono_r a (z :: b) y) as Hm.
  destruct (Nat.leb_spec (lcs (x :: a) b) (lcs a (z :: b))) as [Hle|Hlt2]; [|done].
  exfalso. revert Hlt. rewrite lcs_cons.
  destruct (String.eqb_spec x z); [done|]. lia.
Qed.

Lemma diff_sequences_script (a b : list string) :
  diff_sequences a b = script (S (length a + length b)) a b.
Proof. unfold diff_sequences. by rewrite diff_walk_script by lia. Qed.

(** C17: the prompt diff view ([diff_lines]) is a shortest edit script. Its
    context and removed lines are exactly the lines of the base text and its
    context and added lines those of the target, in order; no script between
    the two texts makes fewer changes; within a changed block the removed
    lines come before the added ones; and it reports no change exactly when
    the two texts have the same lines. *)
Theorem diff_lines_shortest (base target : string) :
  let d := diff_lines base target in
  old_side d = str_lines base /\ new_side d = str_lines target
  /\ (forall s, old_side s = str_lines base -> new_side s = str_lines target ->
        (changes d <= changes s)%nat)
  /\ grouped d = true
  /\ (diff_is_empty (DiffText d) = true <-> str_lines base = str_lines target).
Proof.
  intros d. unfold d, diff_lines. rewrite diff_sequences_script.
  destruct (script_sides (S (length (str_lines base) + length (str_lines target)))
              (str_lines base) (str_lines target) ltac:(lia)) as (Ho & Hn & Hk).
  split_and!; [done|done| |apply script_grouped; lia|].
  - intros s Hso Hsn. pose proof (changes_kept s) as H1.
    pose proof (changes_kept (script (S (length (str_lines base) + length (str_lines target)))
                  (str_lines base) (str_lines target))) as H2.
    pose proof (lcs_longest (str_lines base) (str_lines target) (kept s)
                  ltac:(rewrite <- Hso; apply kept_sublist_old)
                  ltac:(rewrite <- Hsn; apply kept_sublist_new)).
    rewrite Ho, Hn, Hk in H2. rewrite Hso, Hsn in H1. lia.
  - revert Ho Hn Hk. generalize (script (S (length (str_lines base) + length (str_lines target)))
      (str_lines base) (str_lines target)). generalize (str_lines base) (str_lines target).
    intros a b s Ho Hn Hk. split.
    + intros He. transitivity (old_side s); [done|]. rewrite <- Hn. clear -He.
      induction s as [|[] s IH]; simpl in *; try done. by rewrite IH.
    + intros ->. assert (Hl : changes s = 0).
      { pose proof (changes_kept s) as Hc. rewrite Ho, Hn, Hk in Hc.
        pose proof (lcs_longest b b b ltac:(done) ltac:(done)). lia. }
      clear -Hl. unfold changes in Hl. induction s as [|[] s IH]; simpl in *; try done. by apply IH.
Qed.

(** ** The structural diff *)

(** A reported leaf. *)
Inductive Leaf : Type :=
| LeafAdded (c : LeafChange)
| LeafRemoved (c : LeafChange)
| LeafChanged (m : LeafModification).

Definition leaf_in (d : Leaves) (l : Leaf) : Prop :=
  match l with
  | LeafAdded c => c ∈ lv_added d
  | LeafRemoved c => c ∈ lv_removed d
  | LeafChanged m => m ∈ lv_changed d
  end.

(** Two values the walk descends into. *)
Definition same_container (b t : Value) : Prop :=
  match b, t with Object _, Object _ | Array _, Array _ => True | _, _ => False end.

(** The differences of two documents: a member or an item only one of them
    has, and two unequal values that are not containers of one shape,
    wherever both documents have their containers. *)
Inductive differs : string -> Value -> Value -> Leaf -> Prop :=
| differs_member p bm tm k bv tv l :
    BTree.get k bm = Some bv -> BTree.get k tm = Some tv ->
    differs (p ++ "/" ++ k) bv tv l -> differs p (Object bm) (Object tm) l
| differs_member_removed p bm tm k v :
    BTree.get k bm = Some v -> BTree.get k tm = None ->
    differs p (Object bm) (Object tm) (LeafRemoved (mkLeaf (p ++ "/" ++ k) v))
| differs_member_added p bm tm k v :
    BTree.get k bm = None -> BTree.get k tm = Some v ->
    differs p (Object bm) (Object tm) (LeafAdded (mkLeaf (p ++ "/" ++ k) v))
| differs_item p bs ts i b t l :
    bs !! i = Some b -> ts !! i = Some t ->
    differs (p ++ "/" ++ pretty i) b t l -> differs p (Array bs) (Array ts) l
| differs_item_removed p bs ts i v :
    bs !! i = Some v -> ts !! i = None ->
    differs p (Array bs) (Array ts) (LeafRemoved (mkLeaf (p ++ "/" ++ pretty i) v))
| differs_item_added p bs ts i v :
    bs !! i = None -> ts !! i = Some v ->
    differs p (Array bs) (Array ts) (LeafAdded (mkLeaf (p ++ "/" ++ pretty i) v))
| differs_value p b t :
    ~ same_container b t -> ~ b ≡ t -> differs p b t (LeafChanged (mkModification p b t)).

Lemma leaf_in_app (a b : Leaves) (l : Leaf) : leaf_in (leaves_app a b) l <-> leaf_in a l \/ leaf_in b l.
Proof. destruct l; simpl; apply elem_of_app. Qed.

Lemma leaf_in_none (l : Leaf) : ~ leaf_in no_leaves l.
Proof. destruct l; simpl; apply not_elem_of_nil. Qed.

Lemma leaf_in_concat (ds : list Leaves) (l : Leaf) :
  leaf_in (leaves_concat ds) l <-> exists d, d ∈ ds /\ leaf_in d l.
Proof.
  induction ds as [|d ds IH]; simpl.
  - split; [by intros ?%leaf_in_none|]. intros (d & Hd & _). by apply not_elem_of_nil in Hd.
  - rewrite leaf_in_app, IH. set_solver.
Qed.

Lemma leaves_from_in (p : string) (i : nat) (items : list Value) (c : LeafChange) :
  c ∈ leaves_from p i items
  <-> exists k v, items !! k = Some v /\ c = mkLeaf (p ++ "/" ++ pretty (i + k)%nat) v.
Proof.
  revert i. induction items as [|x items IH]; intros i; simpl.
  - split; [by intros ?%not_elem_of_nil|]. intros (k & v & Hk & _). done.
  - rewrite elem_of_cons, IH. split.
    + intros [->|(k & v & Hk & ->)]; [exists 0, x; by rewrite Nat.add_0_r|].
      exists (S k), v. split; [done|]. by rewrite Nat.add_succ_r.
    + intros ([|k] & v & Hk & ->); simpl in Hk; [left; simplify_eq; by rewrite Nat.add_0_r|].
      right. exists k, v. split; [done|]. by rewrite Nat.add_succ_r.
Qed.

Lemma new_members_in (p : string) (bm tm : list (string * Value)) (c : LeafChange) :
  NoDup tm.*1 ->
  c ∈ new_members p bm tm
  <-> exists k v, BTree.get k tm = Some v /\ BTree.get k bm = None /\ c = mkLeaf (p ++ "/" ++ k) v.
Proof.
  intros Hnd. unfold new_members. rewrite list_elem_of_In, in_map_iff. split.
  - intros ([k v] & <- & [Hin Hk]%filter_In). exists k, v. simpl in Hk. unfold BTree.contains_key in Hk.
    split_and!; [|by destruct (BTree.get k bm)|done].
    apply BTree.get_In_NoDup; [done|]. by apply list_elem_of_In.
  - intros (k & v & Ht & Hb & ->). exists (k, v). split; [done|]. apply filter_In. split.
    + by apply list_elem_of_In, BTree.get_Some_In.
    + simpl. unfold BTree.contains_key. by rewrite Hb.
Qed.

(** The walk over the shared prefix of two arrays. *)
Fixpoint diff_items (path : string) (i : nat) (bs ts : list Value) : Leaves :=
  match bs, ts with
  | b :: bs', t :: ts' =>
      leaves_app (diff_values (path ++ "/" ++ pretty i) b t) (diff_items path (S i) bs' ts')
  | bs, ts => mkLeaves (leaves_from path i ts) (leaves_from path i bs) []
  end.

Lemma diff_values_array (p : string) (bs ts : list Value) :
  diff_values p (Array bs) (Array ts) = diff_items p 0 bs ts.
Proof.
  simpl. generalize 0. revert ts. induction bs as [|b bs IH]; intros [|t ts] n; try done.
  simpl. by rewrite IH.
Qed.

(** The differences of two arrays from an index on. *)
Definition item_differs (p : string) (i : nat) (bs ts : list Value) (l : Leaf) : Prop :=
  (exists k b t, bs !! k = Some b /\ ts !! k = Some t
                 /\ differs (p ++ "/" ++ pretty (i + k)%nat) b t l)
  \/ (exists k v, bs !! k = Some v /\ ts !! k = None
                  /\ l = LeafRemoved (mkLeaf (p ++ "/" ++ pretty (i + k)%nat) v))
  \/ (exists k v, bs !! k = None /\ ts !! k = Some v
                  /\ l = LeafAdded (mkLeaf (p ++ "/" ++ pretty (i + k)%nat) v)).

Lemma item_differs_cons (p : string) (i : nat) (b t : Value) (bs ts : list Value) (l : Leaf) :
  item_differs p i (b :: bs) (t :: ts) l
  <-> differs (p ++ "/" ++ pretty i) b t l \/ item_differs p (S i) bs ts l.
Proof.
  unfold item_differs. split.
  - intros [([|k] & b' & t' & Hb & Ht & Hd)|[([|k] & v & Hb & Ht & ->)|([|k] & v & Hb & Ht & ->)]];
      simpl in Hb, Ht; simplify_eq; rewrite ?Nat.add_0_r in *; rewrite ?Nat.add_succ_r in *;
      [by left|right; left|right; right; left|right; right; right]; repeat eexists; eauto.
  - intros [Hd|[(k & b' & t' & Hb & Ht & Hd)|[(k & v & Hb & Ht & ->)|(k & v & Hb & Ht & ->)]]].
    + left. exists 0, b, t. by rewrite Nat.add_0_r.
    + left. exists (S k), b', t'. by rewrite Nat.add_succ_r.
    + right. left. exists (S k), v. by rewrite Nat.add_succ_r.
    + right. right. exists (S k), v. by rewrite Nat.add_succ_r.
Qed.

Lemma diff_items_in (p : string) (bs : list Value) :
  Forall (fun b => forall p t l, wf_value b = true -> wf_value t = true ->
            leaf_in (diff_values p b t) l <-> differs p b t l) bs ->
  forall i ts l, forallb wf_value bs = true -> forallb wf_value ts = true ->
    leaf_in (diff_items p i bs ts) l <-> item_differs p i bs ts l.
Proof.
  intros Hall. induction Hall as [|b bs Hb Hbs IH]; intros i ts l Hwb Hwt.
  - simpl. unfold item_differs. split.
    + destruct l as [c|c|m]; simpl; [|by intros ?%not_elem_of_nil..].
      intros (k & v & Hk & ->)%leaves_from_in. right. right. by exists k, v.
    + intros [(k & b & t & Hb & _)|[(k & v & Hb & _)|(k & v & _ & Ht & ->)]]; [done..|].
      simpl. apply leaves_from_in. by exists k, v.
  - destruct ts as [|t ts].
    + simpl. unfold item_differs. split.
      * destruct l as [c|c|m]; simpl; [by intros ?%not_elem_of_nil| |by intros ?%not_elem_of_nil].
        intros (k & v & Hk & ->)%(leaves_from_in p i (b :: bs)). right. left. by exists k, v.
      * intros [(k & b' & t' & _ & Ht & _)|[(k & v & Hk & _ & ->)|(k & v & _ & Ht & _)]]; [done| |done].
        simpl. apply (leaves_from_in p i (b :: bs)). by exists k, v.
    + cbn [diff_items]. simpl in Hwb, Hwt. apply andb_true_iff in Hwb as [? ?].
      apply andb_true_iff in Hwt as [? ?]. by rewrite leaf_in_app, Hb, IH, item_differs_cons.
Qed.

Lemma differs_array (p : string) (bs ts : list Value) (l : Leaf) :
  differs p (Array bs) (Array ts) l <-> item_differs p 0 bs ts l.
Proof.
  unfold item_differs. split.
  - intros Hd. inv Hd; [left|right; left|right; right|]; [repeat eexists; eauto..|done].
  - intros [(k & b & t & Hb & Ht & Hd)|[(k & v & Hb & Ht & ->)|(k & v & Hb & Ht & ->)]];
      [by eapply differs_item|by apply differs_item_removed|by apply differs_item_added].
Qed.

Lemma diff_values_in (p : string) (b t : Value) (l : Leaf) :
  wf_value b = true -> wf_value t = true -> leaf_in (diff_values p b t) l <-> differs p b t l.
Proof.
  assert (Hleaf : forall p b t l, ~ same_container b t ->
    leaf_in (if value_eqb b t then no_leaves else mkLeaves [] [] [mkModification p b t]) l
    <-> differs p b t l).
  { clear. intros p b t l Hs. destruct (value_eqb b t) eqn:E.
    - apply value_eqb_spec in E. split; [by intros ?%leaf_in_none|].
      intros Hd. inv Hd; [by destruct Hs..|done].
    - split.
      + destruct l as [c|c|m]; simpl; [by intros ?%not_elem_of_nil..|].
        intros ->%list_elem_of_singleton. apply differs_value; [done|].
        intros Ht%value_eqb_spec. congruence.
      + intros Hd. inv Hd; [by destruct Hs..|]. simpl. by apply list_elem_of_singleton. }
  revert p t l. induction b as [| | | |bs IH|bm IH] using Value_ind; intros p t l Hb Ht;
    try (apply Hleaf; by destruct t); destruct t as [| | | |ts|tm]; try (apply Hleaf; by intros []).
  - rewrite diff_values_array, differs_array. by apply diff_items_in.
  - pose proof (proj1 (wf_Object bm) Hb) as [Hsb Hvb]. pose proof (proj1 (wf_Object tm) Ht) as [Hst Hvt].
    cbn [diff_values]. rewrite leaf_in_app, leaf_in_concat. split.
    + intros [(d & Hd & Hl)|Hl].
      * apply list_elem_of_In, in_map_iff in Hd as ([k v] & <- & Hin%list_elem_of_In). simpl in Hl.
        assert (Hk : BTree.get k bm = Some v)
          by (apply BTree.get_In_NoDup; [by apply BTree.Sorted_NoDup|done]).
        destruct (BTree.get k tm) as [tv|] eqn:Et.
        -- rewrite Forall_forall in IH. apply (IH (k, v) Hin) in Hl; [|by eapply Hvb|by eapply Hvt].
           by eapply differs_member.
        -- destruct l as [c|c|m]; simpl in Hl; [by apply not_elem_of_nil in Hl| |by apply not_elem_of_nil in Hl].
           apply list_elem_of_singleton in Hl as ->. by apply differs_member_removed.
      * destruct l as [c|c|m]; simpl in Hl; [|by apply not_elem_of_nil in Hl..].
        apply new_members_in in Hl as (k & v & Hk & Hn & ->); [|by apply BTree.Sorted_NoDup].
        by apply differs_member_added.
    + intros Hd. inv Hd; [| | |done].
      * left. eexists. split.
        -- apply list_elem_of_In, in_map_iff. exists (k, bv). split; [done|].
           by apply list_elem_of_In, BTree.get_Some_In.
        -- simpl. match goal with E : BTree.get k tm = Some _ |- _ => rewrite E end. rewrite Forall_forall in IH.
           apply (IH (k, bv)); [by apply BTree.get_Some_In|by eapply Hvb|by eapply Hvt|done].
      * left. eexists. split.
        -- apply list_elem_of_In, in_map_iff. exists (k, v). split; [done|].
           by apply list_elem_of_In, BTree.get_Some_In.
        -- simpl. match goal with E : BTree.get k tm = None |- _ => rewrite E end. simpl. by apply list_elem_of_singleton.
      * right. simpl. apply new_members_in; [by apply BTree.Sorted_NoDup|]. by exists k, v.
Qed.

Lemma get_map_snd {A B : Type} (f : A -> B) (k : string) (m : list (string * A)) :
  BTree.get k (map (fun kv => (kv.1, f kv.2)) m) = f <$> BTree.get k m.
Proof. induction m as [|[k' v] m IH]; simpl; [done|]. by destruct (String.eqb k k'). Qed.

Lemma norm_Object_eq (bm tm : list (string * Value)) :
  BTree.Sorted bm -> BTree.Sorted tm ->
  Object bm ≡ Object tm <-> forall k, norm <$> BTree.get k bm = norm <$> BTree.get k tm.
Proof.
  intros Hb Ht. unfold equiv, Value_equiv. cbn [norm]. split.
  - intros [= Heq] k. by rewrite <- !get_map_snd, Heq.
  - intros Heq. f_equal. apply BTree.ext; [by apply map_snd_Sorted..|].
    intros k. by rewrite !get_map_snd.
Qed.

Lemma norm_Array_eq (bs ts : list Value) :
  Array bs ≡ Array ts <-> forall i, norm <$> bs !! i = norm <$> ts !! i.
Proof.
  unfold equiv, Value_equiv. cbn [norm]. split.
  - intros [= Heq] i. assert (Hf : norm <$> bs = norm <$> ts) by exact Heq.
    by rewrite <- !list_lookup_fmap, Hf.
  - intros Heq. f_equal. change (norm <$> bs = norm <$> ts). apply list_eq. intros i.
    by rewrite !list_lookup_fmap.
Qed.

(** Equal documents do not differ. *)
Lemma differs_neq (p : string) (b t : Value) (l : Leaf) :
  wf_value b = true -> wf_value t = true -> differs p b t l -> ~ b ≡ t.
Proof.
  intros Hb Ht Hd. induction Hd as [p bm tm k bv tv l Hk Hk' Hd IH|p bm tm k v Hk Hk'|p bm tm k v Hk Hk'
    |p bs ts i b t l Hi Hi' Hd IH|p bs ts i v Hi Hi'|p bs ts i v Hi Hi'|]; [| | | | | |done].
  1-3: pose proof (proj1 (wf_Object _) Hb) as [Hsb Hvb]; pose proof (proj1 (wf_Object _) Ht) as [Hst Hvt];
       rewrite norm_Object_eq by done; intros Heq; specialize (Heq k); rewrite Hk, Hk' in Heq; try done.
  - apply IH; [by eapply Hvb|by eapply Hvt|]. by injection Heq.
  - rewrite norm_Array_eq. intros Heq. specialize (Heq i). rewrite Hi, Hi' in Heq.
    simpl in Hb, Ht. rewrite forallb_forall in Hb, Ht.
    apply IH; [apply Hb; by eapply list_elem_of_In, list_elem_of_lookup_2
              |apply Ht; by eapply list_elem_of_In, list_elem_of_lookup_2|]. by injection Heq.
  - rewrite norm_Array_eq. intros Heq. specialize (Heq i). by rewrite Hi, Hi' in Heq.
  - rewrite norm_Array_eq. intros Heq. specialize (Heq i). by rewrite Hi, Hi' in Heq.
Qed.

(** Documents without a difference are equal. *)
Lemma differs_none (p : string) (b t : Value) :
  wf_value b = true -> wf_value t = true -> (forall l, ~ differs p b t l) -> b ≡ t.
Proof.
  assert (Hleaf : forall p b t, ~ same_container b t -> (forall l, ~ differs p b t l) -> b ≡ t).
  { clear. intros p b t Hs Hn. destruct (decide (norm b = norm t)) as [|Hne]; [done|].
    destruct (Hn _ (differs_value p b t Hs Hne)). }
  revert p t. induction b as [| | | |bs IH|bm IH] using Value_ind; intros p t Hb Ht Hn;
    try (apply (Hleaf p); [by destruct t|done]); destruct t as [| | | |ts|tm];
    try (apply (Hleaf p); [by intros []|done]).
  - simpl in Hb, Ht. rewrite forallb_forall in Hb, Ht. rewrite Forall_forall in IH.
    apply norm_Array_eq. intros i. destruct (bs !! i) as [b|] eqn:Hi, (ts !! i) as [t|] eqn:Hi'.
    + pose proof (list_elem_of_lookup_2 _ _ _ Hi). pose proof (list_elem_of_lookup_2 _ _ _ Hi').
      simpl. f_equal. apply (IH b ltac:(done) (p ++ "/" ++ pretty i)).
      * apply Hb. by apply list_elem_of_In.
      * apply Ht. by apply list_elem_of_In.
      * intros l Hd. apply (Hn l). by eapply differs_item.
    + destruct (Hn _ (differs_item_removed p bs ts i b Hi Hi')).
    + destruct (Hn _ (differs_item_added p bs ts i t Hi Hi')).
    + done.
  - pose proof (proj1 (wf_Object _) Hb) as [Hsb Hvb]; pose proof (proj1 (wf_Object _) Ht) as [Hst Hvt].
    rewrite Forall_forall in IH. apply norm_Object_eq; [done..|]. intros k.
    destruct (BTree.get k bm) as [v|] eqn:Hk, (BTree.get k tm) as [w|] eqn:Hk'.
    + simpl. f_equal. apply (IH (k, v) (BTree.get_Some_In _ _ _ Hk) (p ++ "/" ++ k));
        [by eapply Hvb|by eapply Hvt|]. intros l Hd. apply (Hn l). by eapply differs_member.
    + destruct (Hn _ (differs_member_removed p bm tm k v Hk Hk')).
    + destruct (Hn _ (differs_member_added p bm tm k w Hk Hk')).
    + done.
Qed.

Lemma leaves_empty (d : Leaves) :
  diff_is_empty (DiffStructural d) = true <-> forall l, ~ leaf_in d l.
Proof.
  destruct d as [a r c]; simpl. split.
  - destruct a, r, c; try done. intros _ []; apply not_elem_of_nil.
  - intros Hn. destruct a as [|x a]; [|by destruct (Hn (LeafAdded x)); left].
    destruct r as [|x r]; [|by destruct (Hn (LeafRemoved x)); left].
    destruct c as [|x c]; [|by destruct (Hn (LeafChanged x)); left]. done.
Qed.

(** Every canonical form is map-backed. *)
Lemma canonicalize_is_wf (v : Value) : wf_value (canonicalize_value v) = true.
Proof.
  induction v as [| | | |l IH|m IH] using Value_ind; try done.
  - simpl. apply forallb_forall. intros x (y & <- & Hy%list_elem_of_In)%in_map_iff.
    rewrite Forall_forall in IH. by apply IH.
  - cbn [canonicalize_value]. apply wf_Object. split; [apply BTree.from_list_Sorted|].
    intros k v Hk. rewrite Forall_forall in IH.
    unfold BTree.from_list in Hk. rewrite BTree.get_fold_insert in Hk.
    destruct (BTree.get k (reverse _)) as [w|] eqn:Hw; [|done]. injection Hk as <-.
    apply BTree.get_Some_In in Hw. rewrite reverse_Permutation, sort_by_perm in Hw.
    apply list_elem_of_In, in_map_iff in Hw as ([k' u] & [= -> <-] & Hin%list_elem_of_In).
    by apply (IH (k, u)).
Qed.

(** The canonical document a structural diff compares. *)
Definition canonical_content `{Codec} (c : Candidate) : Value :=
  canonicalize_value (content_value (cd_content c)).

(** C38: what [diff_candidates] answers. Two kinds are refused; two prompts
    get the line diff of their texts; two contents of any other kind get a
    structural diff that reports exactly the differences of their canonical
    documents, every one and no other, and is empty exactly when the
    documents are equal. *)
Theorem diff_candidates_exact `{Codec} (from to : Candidate) :
  match diff_candidates from to with
  | Err e => candidate_kind from <> candidate_kind to
             /\ e = DiffAcrossKinds (candidate_kind from) (candidate_kind to)
  | Ok (DiffText d) =>
      exists n base m target, cd_content from = CcPrompt n base /\ cd_content to = CcPrompt m target
                              /\ d = diff_lines base target
  | Ok (DiffStructural d) =>
      candidate_kind from = candidate_kind to /\ candidate_kind from <> CkPrompt
      /\ (forall l, leaf_in d l <-> differs EmptyString (canonical_content from) (canonical_content to) l)
      /\ (diff_is_empty (DiffStructural d) = true <-> canonical_content from ≡ canonical_content to)
  end.
Proof.
  unfold diff_candidates, candidate_kind, canonical_content.
  destruct (bool_decide (content_kind (cd_content from) = content_kind (cd_content to))) eqn:Hk.
  2: by apply bool_decide_eq_false in Hk.
  apply bool_decide_eq_true in Hk.
  assert (Hs : forall b t : Value,
    (forall l, leaf_in (diff_values EmptyString (canonicalize_value b) (canonicalize_value t)) l
               <-> differs EmptyString (canonicalize_value b) (canonicalize_value t) l)
    /\ (diff_is_empty (DiffStructural
          (diff_values EmptyString (canonicalize_value b) (canonicalize_value t))) = true
        <-> canonicalize_value b ≡ canonicalize_value t)).
  { intros b t. pose proof (canonicalize_is_wf b) as Hb. pose proof (canonicalize_is_wf t) as Ht.
    split; [intros l; by apply diff_values_in|]. rewrite leaves_empty. split.
    - intros Hn. apply (differs_none EmptyString); [done..|]. intros l Hd.
      apply (Hn l). by apply diff_values_in.
    - intros Heq l Hl. apply diff_values_in in Hl; [|done..]. exact (differs_neq _ _ _ _ Hb Ht Hl Heq). }
  destruct (cd_content from), (cd_content to); try discriminate Hk;
    try (by eauto 10);
    (split; [done|split; [done|apply Hs]]).
Qed.

(** The differences come in the order of the walk, not of their paths: a
    member only the target has follows the additions inside its later
    siblings. *)
Example structural_order :
  map lf_path (lv_added (diff_values EmptyString
    (jobj [("b", jobj [])]) (jobj [("a", Null); ("b", jobj [("c", Null)])]))) = ["/b/c"; "/a"].
Proof. reflexivity. Qed.

(** Two texts that differ in their line ends, an empty line diff. *)
Example line_ends_invisible :
  diff_is_empty (DiffText (diff_lines ("be brief" ++ bytes [13; 10]) "be brief")) = true.
Proof. reflexivity. Qed.
