(* ===== verification/LearnFacts.v ===== *)
(** * What the promotion gate shows

    The gate admits exactly the candidates its documentation lists, an
    approval serves one candidate, a validated envelope auto-promotes
    improvements only; tagged surfaces split back into surface and tag; the
    candidate overlay is a read lens over its base store. *)

From Stdlib Require Import String Ascii Floats.SpecFloat.
From S2P Require Import Prelude Containers Json Error Graph Record SampleCodec Meter Durable Effects Text ToolSelect ToolWrappers Memory MemoryStore Learn.
Local Open Scope string_scope.

(** ** The gate *)
Section Gate.
Context `{Codec}.
Implicit Types (c : Candidate) (e : CandidateEvaluation).

(** The evidence bar, clause by clause. *)
Record clears (a : AutoPromotion) c e : Prop := mkClears {
  clears_replay : rs_divergences (ce_replay e) = []
                  /\ rs_matched (ce_replay e) = N.of_nat (length (rs_fixture_ids (ce_replay e)));
  clears_regression : vd_regressed (ce_verdict e) = false;
  clears_dataset : forall v, ap_dataset_version a = Some v -> ce_dataset_version e = v;
  clears_scope : forall scope adds gone, cd_content c = CcMemorySet scope adds gone ->
                   ap_scopes a = [] \/ sa_scope scope ∈ ap_scopes a;
  clears_improvement : exists delta, vd_delta (ce_verdict e) = Some delta
                       /\ SFltb (ap_min_improvement a) delta = true;
}.

Lemma is_clean_spec (r : ReplaySummary) :
  is_clean r = true
  <-> rs_divergences r = [] /\ rs_matched r = N.of_nat (length (rs_fixture_ids r)).
Proof.
  unfold is_clean. rewrite andb_true_iff, N.eqb_eq. destruct (rs_divergences r); simpl; naive_solver.
Qed.

Lemma check_evidence_bar_spec (a : AutoPromotion) c e u :
  check_evidence_bar a c e = Ok u <-> clears a c e.
Proof.
  unfold check_evidence_bar. split.
  - destruct (is_clean (ce_replay e)) eqn:Hc; [|done]. simpl.
    destruct (vd_regressed (ce_verdict e)) eqn:Hr; [done|].
    intros Hd. assert (Hds : forall v, ap_dataset_version a = Some v -> ce_dataset_version e = v).
    { intros v Hv. rewrite Hv in Hd. by destruct (String.eqb_spec v (ce_dataset_version e)). }
    assert (Hrest : match cd_content c with
      | CcMemorySet scope _ _ => is_nil (ap_scopes a) || bool_decide (sa_scope scope ∈ ap_scopes a)
      | _ => true end = true /\ match vd_delta (ce_verdict e) with
      | Some delta => SFltb (ap_min_improvement a) delta | None => false end = true).
    { destruct (match ap_dataset_version a with Some _ => _ | None => _ end) as [|]; [|done].
      simpl in Hd. destruct (match vd_delta (ce_verdict e) with Some _ => _ | None => _ end);
        destruct (cd_content c); try done;
        destruct (is_nil (ap_scopes a) || bool_decide _); done. }
    destruct Hrest as [Hs Hi]. constructor; [by apply is_clean_spec|done|done| |].
    + intros scope adds gone Hcc. rewrite Hcc in Hs. apply orb_true_iff in Hs as [Hs|Hs].
      * left. by destruct (ap_scopes a).
      * right. by apply bool_decide_eq_true in Hs.
    + destruct (vd_delta (ce_verdict e)) as [x|]; [by exists x|done].
  - intros [Hc%is_clean_spec Hr Hd Hs (x & Hx & Hi)]. rewrite Hc, Hr, Hx, Hi. simpl.
    destruct (ap_dataset_version a) as [v|]; [rewrite (Hd v) by done; rewrite String.eqb_refl|];
      simpl; destruct (cd_content c) as [| |scope adds gone| | | | | | |]; destruct u; try done;
      (destruct (Hs scope adds gone eq_refl) as [->|Hin]; [done|];
       rewrite (bool_decide_eq_true_2 _ Hin), orb_true_r; done).
Qed.

Lemma verify_address_spec c u :
  verify_address c = Ok u <-> derive_candidate_id (cd_content c) = Some (cd_candidate_id c).
Proof.
  unfold verify_address. destruct (derive_candidate_id (cd_content c)) as [d|]; [|done].
  destruct u. destruct (String.eqb_spec d (cd_candidate_id c)) as [->|]; [done|]. naive_solver.
Qed.

(** What the gate binds to a canary is the candidate itself. *)
Lemma admitted_canary (envelope : PromotionEnvelope) c ev token d b :
  admit_promotion envelope c ev token = Ok d -> pd_canary d = Some b ->
  cy_candidate_id b = cd_candidate_id c.
Proof.
  intros Hd Hb. unfold admit_promotion in Hd. destruct (verify_address c); [|done].
  destruct ev as [e|]; [|done]. simpl in Hd. destruct (String.eqb _ _); [|done].
  destruct (rule_for _ _);
    [destruct (check_evidence_bar _ _ _)
    |destruct token as [t|]; [simpl in Hd; destruct (admits t _)|]
    |destruct (check_evidence_bar _ _ _)]; by simplify_eq/=.
Qed.


End Gate.

(** ** Validated envelopes *)

Lemma improvement_positive (bar delta : spec_float) :
  f64_is_finite bar = true -> SFleb f64_zero bar = true -> SFltb bar delta = true ->
  SFltb f64_zero delta = true.
Proof.
  unfold SFleb, SFltb, f64_zero. intros _ Hb Hd.
  destruct bar as [sb|[]| |[] mb eb]; simpl in Hb; try done;
    destruct delta as [sd|[]| |[] md ed]; simpl in *; try done; by destruct sb.
Qed.

Lemma check_rule_auto (f64_text : spec_float -> string) (a : AutoPromotion) u :
  check_auto f64_text a = Ok u ->
  f64_is_finite (ap_min_improvement a) = true /\ SFleb f64_zero (ap_min_improvement a) = true.
Proof. unfold check_auto. by destruct (f64_is_finite _), (SFleb _ _). Qed.

Lemma envelope_validate_rule (f64_text : spec_float -> string) (env : PromotionEnvelope) (k : CandidateKind) u :
  envelope_validate f64_text env = Ok u -> check_rule f64_text (rule_for env k) = Ok ().
Proof.
  unfold envelope_validate. intros Hv.
  repeat match type of Hv with
  | (check_rule _ ?r;; _) = _ =>
      let E := fresh "E" in destruct (check_rule f64_text r) as [[]|] eqn:E; [simpl in Hv|done]
  end. destruct u. by destruct k.
Qed.


(** ** Approvals *)

Lemma string_length_app (a b : string) :
  String.length (a ++ b) = (String.length a + String.length b)%nat.
Proof. induction a as [|c a IH]; simpl; [done|]. by rewrite IH. Qed.

Lemma append_length_inj (a b x y : string) :
  String.length x = String.length y -> a ++ x = b ++ y -> x = y.
Proof.
  intros Hl Heq. assert (Hab : String.length a = String.length b).
  { apply (f_equal String.length) in Heq. rewrite !string_length_app in Heq. lia. }
  revert b Heq Hab. induction a as [|c a IH]; intros [|d b]; simpl; intros Heq Hab; try done.
  injection Heq as _ Heq. injection Hab as Hab. by eapply IH.
Qed.

Lemma string_append_assoc (a b c : string) : a ++ (b ++ c) = (a ++ b) ++ c.
Proof. induction a as [|x a IH]; simpl; [done|by apply (f_equal (String x))]. Qed.

(** What a promotion's effect id is the digest of. *)
Definition promotion_material (c : Candidate) : string :=
  effect_material (surface c) PROMOTION_EFFECT_KIND (cd_candidate_id c)
    (Some (promotion_effect_key (cd_candidate_id c))).

(** An approval is for one candidate. A token whose effect id admits the
    promotion of two candidates, each at the address its content derives,
    names one candidate only, whatever their surfaces, unless the digest
    collides on the two promotions. *)
Theorem approval_serves_one_candidate `{CodecLaws} (t : ApprovalToken) (c1 c2 : Candidate) :
  derive_candidate_id (cd_content c1) = Some (cd_candidate_id c1) ->
  derive_candidate_id (cd_content c2) = Some (cd_candidate_id c2) ->
  collision_free [promotion_material c1; promotion_material c2] ->
  admits t (promotion_effect_id c1) = true -> admits t (promotion_effect_id c2) = true ->
  cd_candidate_id c1 = cd_candidate_id c2.
Proof.
  unfold admits. intros H1 H2 Hc Ha1%String.eqb_eq Ha2%String.eqb_eq.
  assert (Hm : promotion_material c1 = promotion_material c2).
  { apply (collision_free_use _ _ _ Hc); [set_solver..|].
    change (promotion_effect_id c1 = promotion_effect_id c2). congruence. }
  assert (Hlen : forall c, derive_candidate_id (cd_content c) = Some (cd_candidate_id c) ->
            String.length (cd_candidate_id c) = 64).
  { intros c Hd. unfold derive_candidate_id in Hd. destruct (to_vec _) as [b|]; [|done].
    injection Hd as <-. apply sha256_hex_length. }
  unfold promotion_material, effect_material, promotion_effect_key in Hm. cbn [String.concat default id] in Hm.
  rewrite !string_append_assoc in Hm. eapply append_length_inj; [|exact Hm].
  by rewrite !Hlen.
Qed.

(** ** Tags *)

(** A byte of a text. *)
Fixpoint has_byte (c : ascii) (s : string) : bool :=
  match s with EmptyString => false | String d s' => Ascii.eqb d c || has_byte c s' end.

Lemma rsplit_tag_none (s : string) : has_byte SURFACE_TAG_SEPARATOR s = false -> rsplit_tag s = None.
Proof.
  induction s as [|c s IH]; simpl; [done|]. intros [Hc Hs]%orb_false_iff. by rewrite IH, Hc.
Qed.

Lemma rsplit_tag_app (s t : string) :
  has_byte SURFACE_TAG_SEPARATOR t = false ->
  rsplit_tag (s ++ String SURFACE_TAG_SEPARATOR t) = Some (s, t).
Proof.
  intros Ht. induction s as [|c s IH]; simpl; [by rewrite rsplit_tag_none|]. by rewrite IH.
Qed.

(** UTF-8: no continuation byte right after an ASCII one. *)
Fixpoint ascii_closed (s : string) : bool :=
  match s with
  | String c ((String d _) as s') =>
      negb ((Ascii.nat_of_ascii c <? 128)%nat && is_continuation d) && ascii_closed s'
  | _ => true
  end.

(** An ASCII byte of a well-encoded text is one of its characters. *)
Lemma has_byte_char (c : ascii) (s current : string) :
  (Ascii.nat_of_ascii c <? 128)%nat = true -> ascii_closed s = true -> has_byte c s = true ->
  String c EmptyString ∈ chars_onto current s.
Proof.
  intros Hc. assert (Hcont : is_continuation c = false).
  { unfold is_continuation. apply Nat.ltb_lt in Hc. destruct (Nat.leb_spec 128 (Ascii.nat_of_ascii c)); [lia|done]. }
  revert current. induction s as [|d s IH]; intros current Hs Hb; [done|].
  assert (Hs' : ascii_closed s = true) by (destruct s; [done|]; by apply andb_true_iff in Hs as [_ Hs]).
  simpl in Hb. apply orb_true_iff in Hb as [->%Ascii.eqb_eq|Hb].
  - simpl. rewrite Hcont.
    assert (Hin : String c EmptyString ∈ chars_onto (String c EmptyString) s).
    { destruct s as [|e s]; [simpl; set_solver|]. simpl in Hs. rewrite Hc in Hs. simpl in Hs.
      destruct (is_continuation e) eqn:He; [done|]. simpl. rewrite He. set_solver. }
    destruct current; [done|]. by right.
  - simpl. destruct (is_continuation d); [by apply IH|].
    destruct current; [by apply IH|]. right. by apply IH.
Qed.

(** Tagging a surface is undone by splitting it. For a tag the
    constructor accepts, [split_tag] of the tagged key is the surface and the
    tag, whatever the surface contains; so two tagged keys are equal only for
    the same surface and the same tag. *)
Theorem tag_roundtrip (s tag t : string) :
  ascii_closed tag = true -> tag_new tag = Ok t ->
  split_tag (tagged s t) = (s, Some t)
  /\ (forall s' t', tagged s t = tagged s' t' -> ascii_closed t' = true -> tag_new t' = Ok t' ->
        s = s' /\ t = t').
Proof.
  assert (Hfree : forall u v, ascii_closed u = true -> tag_new u = Ok v ->
            u = v /\ has_byte SURFACE_TAG_SEPARATOR u = false).
  { clear. intros u v Hu Hv. unfold tag_new in Hv. destruct (String.eqb _ _); [done|].
    destruct (_ <? _)%nat; [done|]. destruct (existsb _ _) eqn:He; [done|]. split; [congruence|].
    destruct (has_byte _ u) eqn:Hb; [|done].
    apply (has_byte_char _ u EmptyString) in Hb; [|done..].
    assert (Hx : existsb tag_char_refused (chars u) = true).
    { apply existsb_exists. eexists. split; [by apply list_elem_of_In, Hb|]. done. }
    congruence. }
  intros Ht Hn. destruct (Hfree tag t Ht Hn) as [<- Hb]. unfold split_tag, tagged.
  rewrite rsplit_tag_app by done. split; [done|]. intros s' t' Heq Ht' Hn'.
  destruct (Hfree t' t' Ht' Hn') as [_ Hb'].
  apply (f_equal rsplit_tag) in Heq. rewrite !rsplit_tag_app in Heq by done. by injection Heq.
Qed.

(** ** The overlay *)
Section Lens.
Context `{Codec, Unicode} (powf : spec_float -> spec_float -> spec_float) {E : Type}.
Implicit Types (o : CandidateOverlay E) (env : E).

Lemma merged_in (base adds : list MemoryRecord) (r : MemoryRecord) :
  r ∈ merged base adds
  <-> r ∈ adds \/ (r ∈ base /\ mr_memory_id r ∉ map mr_memory_id adds).
Proof.
  unfold merged. rewrite elem_of_app, (list_elem_of_In (List.filter _ _)), filter_In, negb_true_iff.
  assert (Hx : existsb (fun add => String.eqb (mr_memory_id add) (mr_memory_id r)) adds = false
               <-> mr_memory_id r ∉ map mr_memory_id adds).
  { rewrite <- not_true_iff_false, existsb_exists, list_elem_of_In, in_map_iff.
    split; intros Hn; contradict Hn.
    - destruct Hn as (a & Ha & Hin). exists a. by rewrite Ha, String.eqb_refl.
    - destruct Hn as (a & Hin & Ha%String.eqb_eq). by exists a. }
  rewrite Hx, <- list_elem_of_In. tauto.
Qed.

Lemma merged_NoDup (base adds : list MemoryRecord) :
  NoDup (map mr_memory_id base) -> NoDup (map mr_memory_id adds) ->
  NoDup (map mr_memory_id (merged base adds)).
Proof.
  intros Hb Ha. unfold merged. rewrite map_app. apply NoDup_app. split_and!; [| |done].
  - clear Ha. induction base as [|r base IH]; [constructor|]. simpl in *.
    apply NoDup_cons in Hb as [Hni Hb]. destruct (negb _); [|by apply IH].
    simpl. constructor; [|by apply IH]. intros Hin. apply Hni.
    apply list_elem_of_In, in_map_iff in Hin as (x & Hx & [Hin _]%filter_In).
    apply list_elem_of_In, in_map_iff. by exists x.
  - intros x Hx Hy. apply list_elem_of_In, in_map_iff in Hx as (r & <- & [_ Hr]%filter_In).
    apply negb_true_iff in Hr. apply not_true_iff_false in Hr. apply Hr, existsb_exists.
    apply list_elem_of_In, in_map_iff in Hy as (a & Ha' & Hin). exists a. by rewrite Ha', String.eqb_refl.
Qed.

(** C40: the candidate overlay is a read lens. Over a base store that lists
    [base], it answers exactly the candidate's records and the base records
    they do not replace, each address once; a query answers the records of
    that universe which match and which the candidate does not supersede,
    unless superseded ones are asked for; a fetched record of the candidate
    is the candidate's; writes and deletions fail; and none of it changes the
    world beyond what reading the base does. *)
Theorem overlay_is_a_lens o env env' (base : list MemoryRecord) (q : MemoryQuery) (now : DateTime) :
  ms_all (co_base o) env = (Ok base, env') ->
  let s := overlay_store powf o in
  ms_all s env = (Ok (merged base (co_adds o)), env')
  /\ (NoDup (map mr_memory_id base) -> NoDup (map mr_memory_id (co_adds o)) ->
      NoDup (map mr_memory_id (merged base (co_adds o))))
  /\ (exists found, ms_query s q now env = (Ok found, env')
      /\ forall r, r ∈ found
          <-> (r ∈ co_adds o \/ (r ∈ base /\ mr_memory_id r ∉ map mr_memory_id (co_adds o)))
              /\ query_matches powf q r
                   (bool_decide (mr_memory_id r ∈ superseded_set (merged base (co_adds o)))) now = true
              /\ (mq_include_superseded q = true \/ mr_memory_id r ∉ co_supersedes o))
  /\ (forall id r, List.find (fun r => String.eqb (mr_memory_id r) id) (co_adds o) = Some r ->
        ms_get s id env = (Ok (Some r), env))
  /\ (forall r, exists e, ms_put s r env = (Err e, env))
  /\ (forall id, exists e, ms_remove s id env = (Err e, env)).
Proof.
  intros Hall s. assert (Ha : ms_all s env = (Ok (merged base (co_adds o)), env')).
  { simpl. unfold overlay_all. by rewrite Hall. }
  split_and!; [done|apply merged_NoDup| | |by eexists|by eexists].
  - simpl in *. unfold overlay_query. rewrite Ha. simpl.
    assert (Hq : forall r, r ∈ apply_query powf (merged base (co_adds o)) q now
      <-> r ∈ merged base (co_adds o) /\ query_matches powf q r
            (bool_decide (mr_memory_id r ∈ superseded_set (merged base (co_adds o)))) now = true).
    { intros r. unfold apply_query. by rewrite !list_elem_of_In, filter_In. }
    destruct (mq_include_superseded q) eqn:Hi; simpl.
    { eexists. split; [done|]. intros r. rewrite Hq, merged_in. tauto. }
    destruct (is_nil (co_supersedes o)) eqn:Hn.
    { eexists. split; [done|]. intros r. rewrite Hq, merged_in.
      destruct (co_supersedes o); [|done]. pose proof (not_elem_of_nil (mr_memory_id r)). tauto. }
    eexists. split; [done|]. intros r. rewrite list_elem_of_In, filter_In, <- list_elem_of_In, Hq, merged_in.
    rewrite negb_true_iff, bool_decide_eq_false. naive_solver.
  - intros id r Hf. simpl. unfold overlay_get. by rewrite Hf.
Qed.
End Lens.
