(* ===== verification/LearnRoutes.v ===== *)
(** * The candidate routes and their store

    The lifecycle handlers of [rusty-server/src/routes.rs] ([create_candidate],
    [evaluate_candidate], [promote_candidate], [rollback_candidate]) over the
    candidate and version-pointer half of the file store
    ([server_store.rs], [rusty-server/src/learn.rs]), for one tenant. A handler
    reads the store at its [await]s, journals, and commits one transition; the
    reads are arguments of its plan, so that other requests may run between
    them and the commit. A store write may fail, and a restart reloads the
    indexes from the files. What follows a committed promotion or rollback (gap
    closure, activation of an executor policy) acts on other stores, touches
    neither candidates nor pointers, and is not modelled. *)

From Stdlib Require Import String Ascii Floats.SpecFloat.
From S2P Require Import Prelude Containers Json Error Record Meter Journal Effects Text Memory Learn.
Local Open Scope string_scope.

(** ** API errors *)

(** [ApiError]: the constructors the routes use. *)
Inductive ApiError : Type :=
| ApiNotFound (message : string)
| ApiConflict (message : string)
| ApiForbidden (message : string)
| ApiUnprocessable (message : string)
| ApiInternal (message : string).

(** [Debug] of a status and of a memory scope, [status_wire]. *)
Definition status_debug (s : CandidateStatus) : string :=
  match s with
  | StatusCreated => "Created" | StatusEvaluated => "Evaluated" | StatusPromoted => "Promoted"
  | StatusRolledBack => "RolledBack"
  end.

Definition status_wire (s : CandidateStatus) : string :=
  match s with
  | StatusCreated => "created" | StatusEvaluated => "evaluated" | StatusPromoted => "promoted"
  | StatusRolledBack => "rolled_back"
  end.

Definition scope_debug (s : MemoryScope) : string :=
  match s with
  | ScopeRun => "Run" | ScopeAgent => "Agent" | ScopeTeam => "Team" | ScopeUser => "User"
  | ScopeTenant => "Tenant"
  end.

Section Texts.
(** [Display] and [Debug] of an [f64]. *)
Context (f64_text f64_debug : spec_float -> string).

Definition delta_debug (d : option spec_float) : string :=
  match d with None => "None" | Some x => "Some(" ++ f64_debug x ++ ")" end.

(** [Display for PromotionRefusal]. *)
Definition promotion_refusal_text (r : PromotionRefusal) : string :=
  match r with
  | NotEvaluated id =>
      "candidate `" ++ id ++ "` has no journaled evaluation: promotion is gated on evidence — a human "
      ++ "approves reviewed evidence, never a blank check"
  | EvaluationMismatch id evaluation =>
      "evaluation names candidate `" ++ evaluation ++ "` but promotion was requested for `" ++ id
      ++ "` — the evidence must be the candidate's own"
  | ReplayDiverged id n =>
      "candidate `" ++ id ++ "` diverged under replay (" ++ pretty n ++ " fixture(s)): a candidate that "
      ++ "cannot reproduce its evidence never auto-promotes"
  | EvaluationRegressed id =>
      "candidate `" ++ id ++ "` regressed against its baseline: the auto-promotion bar is no regression "
      ++ "AND improvement — the evidence failed the first half"
  | DatasetVersionMismatch required evaluated =>
      "envelope requires a clean verdict over dataset `" ++ required ++ "` but the evaluation ran `"
      ++ evaluated ++ "` — the promotion bar names its evidence exactly"
  | ScopeNotAutoPromotable scope =>
      "memory_set candidates at `" ++ scope_debug scope ++ "` scope do not auto-promote under this "
      ++ "envelope — the R0.8 default covers run and agent scope; wider scopes require an approval"
  | InsufficientImprovement delta required =>
      "target metric moved by " ++ delta_debug delta ++ " but the envelope requires improvement past "
      ++ f64_text required ++ " — parity is not improvement, and the auto bar does not clear on it"
  | RequiresApproval id =>
      "this promotion is outside the envelope: present an approval token scoped to effect id " ++ id
      ++ " — the scope check makes an approval for one candidate non-transferable to another"
  | ApprovalMismatch required presented =>
      "approval token for " ++ presented ++ " does not admit this promotion (" ++ required
      ++ ") — an approval is scoped to exactly one candidate's promotion and is not transferable"
  end.

(** [Display for LearnError]. *)
Definition learn_error_text (e : LearnError) : string :=
  match e with
  | AddressMismatch claimed derived =>
      "candidate address mismatch: id " ++ claimed ++ " does not re-derive from the content (derived "
      ++ derived ++ ") — identity is integrity, and a tampered candidate fails its own address"
  | UnaddressableContent d => "candidate content could not be addressed: " ++ d
  | InvalidTransition from action =>
      "invalid candidate transition: cannot " ++ action ++ " from status `" ++ status_debug from
      ++ "` — refused transitions are errors, not silent no-ops"
  | ReceiptMismatch id named =>
      "receipt names candidate `" ++ named ++ "` but the record is `" ++ id
      ++ "` — a receipt applies to the candidate it was minted for, never to another"
  | Refused r => promotion_refusal_text r
  end.

(** [refusal_error], [learn_error]. *)
Definition refusal_error (r : PromotionRefusal) : ApiError :=
  match r with
  | RequiresApproval _ | ApprovalMismatch _ _ => ApiForbidden (promotion_refusal_text r)
  | _ => ApiUnprocessable (promotion_refusal_text r)
  end.

Definition learn_error (e : LearnError) : ApiError :=
  match e with
  | InvalidTransition _ _ => ApiConflict (learn_error_text e)
  | Refused r => refusal_error r
  | _ => ApiUnprocessable (learn_error_text e)
  end.
End Texts.

(** [journal_gate_error]. *)
Definition journal_gate_error (e : string) : ApiError :=
  if str_contains "no persisted journal" e || str_contains "does not resolve" e
  then ApiNotFound e else ApiUnprocessable e.

Definition candidate_not_found (id : string) : ApiError :=
  ApiNotFound ("candidate `" ++ id ++ "` not found").

(** ** The store *)

(** [CandidateTransition], [transition_outcome]. *)
Inductive CandidateTransition : Type :=
| TransitionApplied | TransitionUnknown | TransitionConflict (live : CandidateStatus).

Definition transition_outcome (o : CandidateTransition) (id : string) : result ApiError unit :=
  match o with
  | TransitionApplied => Ok ()
  | TransitionUnknown => Err (candidate_not_found id)
  | TransitionConflict live =>
      Err (ApiConflict ("candidate `" ++ id ++ "` is `" ++ status_wire live
             ++ "` — a concurrent transition won the race; retry against the settled state"))
  end.

(** [scope_id], [strip_owned]. *)
Definition DEFAULT_TENANT : string := "default".

Definition scope_id (tenant id : string) : string :=
  if String.eqb tenant DEFAULT_TENANT then id else tenant ++ "/" ++ id.

Definition strip_owned (tenant internal_id : string) : option string :=
  if String.eqb tenant DEFAULT_TENANT
  then if str_contains "/" internal_id then None else Some internal_id
  else rest ← strip_prefix tenant internal_id; strip_prefix "/" rest.

(** The candidate and version half of the file store: each index, the files
    behind it (a version file carries its key, its name is the key's digest),
    and the drafts the journal seam appended, with their run. *)
Record LearnState : Type := mkLearnState {
  ls_candidates : gmap string CandidateRecord;
  ls_versions : gmap string VersionPointer;
  ls_candidate_files : gmap string CandidateRecord;
  ls_version_files : gmap string (string * VersionPointer);
  ls_journaled : list (string * EventDraft);
}.

Definition learn_init : LearnState := mkLearnState ∅ ∅ ∅ ∅ [].

(** Which file write of a request fails, with its message. *)
Inductive DiskFault : Type :=
| NoFault | CandidateFault (message : string) | VersionFault (message : string).

Section Store.
Context `{Codec} (tenant : string).

Definition version_file_name (scoped_surface : string) : string := sha256_hex scoped_surface.

(** [get_candidate], [get_version_pointer], [list_candidates],
    [list_version_pointers]. *)
Definition get_candidate (id : string) (s : LearnState) : option CandidateRecord :=
  ls_candidates s !! scope_id tenant id.

Definition get_version_pointer (surface : string) (s : LearnState) : option VersionPointer :=
  ls_versions s !! scope_id tenant surface.

Definition owned {A : Type} (m : gmap string A) : list A :=
  map snd (List.filter (fun kv => match strip_owned tenant kv.1 with Some _ => true | None => false end)
             (map_to_list m)).

Definition list_candidates (s : LearnState) : list CandidateRecord := owned (ls_candidates s).
Definition list_version_pointers (s : LearnState) : list VersionPointer := owned (ls_versions s).

(** [put_candidate]. *)
Definition put_candidate (r : CandidateRecord) (fault : DiskFault) (s : LearnState) :
    result string bool * LearnState :=
  let scoped := scope_id tenant (record_id r) in
  match ls_candidates s !! scoped with
  | Some _ => (Ok false, s)
  | None =>
      match fault with
      | CandidateFault e => (Err ("persist candidate: " ++ e), s)
      | _ =>
          (Ok true, mkLearnState (<[scoped := r]> (ls_candidates s)) (ls_versions s)
                      (<[scoped := r]> (ls_candidate_files s)) (ls_version_files s) (ls_journaled s))
      end
  end.

(** [transition_candidate]: the candidate file, then the version file with
    its index, then the candidate index. *)
Definition transition_candidate (id : string) (expect : CandidateStatus) (next : CandidateRecord)
    (pointer : option VersionPointer) (fault : DiskFault) (s : LearnState) :
    result string CandidateTransition * LearnState :=
  let scoped := scope_id tenant id in
  match ls_candidates s !! scoped with
  | None => (Ok TransitionUnknown, s)
  | Some current =>
      if bool_decide (cr_status current = expect)
      then
        match fault with
        | CandidateFault e => (Err ("persist candidate: " ++ e), s)
        | _ =>
            let files := <[scoped := next]> (ls_candidate_files s) in
            match pointer with
            | None =>
                (Ok TransitionApplied,
                 mkLearnState (<[scoped := next]> (ls_candidates s)) (ls_versions s) files
                   (ls_version_files s) (ls_journaled s))
            | Some p =>
                let key := scope_id tenant (vp_surface p) in
                match fault with
                | VersionFault e =>
                    (Err ("persist version pointer: " ++ e),
                     mkLearnState (ls_candidates s) (ls_versions s) files (ls_version_files s)
                       (ls_journaled s))
                | _ =>
                    (Ok TransitionApplied,
                     mkLearnState (<[scoped := next]> (ls_candidates s)) (<[key := p]> (ls_versions s))
                       files (<[version_file_name key := (key, p)]> (ls_version_files s))
                       (ls_journaled s))
                end
            end
        end
      else (Ok (TransitionConflict (cr_status current)), s)
  end.

(** A restart: [load_candidates], [load_versions]. *)
Definition load_versions (files : gmap string (string * VersionPointer)) : gmap string VersionPointer :=
  list_to_map (map snd (List.filter (fun kf => String.eqb kf.1 (version_file_name kf.2.1))
    (map_to_list files))).

Definition restart (s : LearnState) : LearnState :=
  mkLearnState (ls_candidate_files s) (load_versions (ls_version_files s)) (ls_candidate_files s)
    (ls_version_files s) (ls_journaled s).
End Store.

(** ** The handlers *)

(** [EvaluationRequest]. *)
Record EvaluationRequest : Type := mkEvaluationRequest {
  eq_dataset_version : string;
  eq_target_metric : string;
  eq_thresholds : EvaluationThresholds;
  eq_replay_evidence : list JournalSnapshot;
}.

(** What a handler decided to commit: the candidate, the status the store
    must still find, the record and the pointer to install, and the draft to
    journal first. *)
Record Commitment : Type := mkCommitment {
  cm_candidate_id : string;
  cm_expect : CandidateStatus;
  cm_next : CandidateRecord;
  cm_pointer : option VersionPointer;
  cm_draft : EventDraft;
}.

Section Routes.
Context `{Codec} (f64_text f64_debug : spec_float -> string).
Context (tenant : string) (envelope : PromotionEnvelope).

(** The serialized payloads. *)
Definition span_value (e : EvidenceSpan) : Value :=
  jobj (jlist_skip "run_ids" (es_run_ids e) ++ jlist_skip "correction_ids" (es_correction_ids e)
        ++ jlist_skip "memory_ids" (es_memory_ids e))%list.

Definition candidate_value (c : Candidate) : Value :=
  jobj ([("candidate_id", Str (cd_candidate_id c)); ("content", content_value (cd_content c));
         ("distilled_by", author_value (cd_distilled_by c))]
        ++ jskip "evidence" (span_is_empty (cd_evidence c)) (span_value (cd_evidence c))
        ++ [("created_at", time_value (cd_created_at c))])%list.

Definition verdict_value (v : EvaluationVerdict) : Value :=
  jobj ([("regressed", Bool (vd_regressed v)); ("target_metric", Str (vd_target_metric v))]
        ++ jopt "baseline" (jf64 <$> vd_baseline v) ++ jopt "candidate" (jf64 <$> vd_candidate v)
        ++ jopt "delta" (jf64 <$> vd_delta v))%list.

Definition replay_summary_value (r : ReplaySummary) : Value :=
  jobj ([("fixture_ids", jstrs (rs_fixture_ids r)); ("matched", jN (rs_matched r))]
        ++ jskip "divergences" (is_nil (rs_divergences r))
             (Array (map (fun d => jobj [("fixture_id", Str (rd_fixture_id d));
                                         ("detail", Str (rd_detail d))]) (rs_divergences r))))%list.

Definition evaluation_value (e : CandidateEvaluation) : Value :=
  jobj [("candidate_id", Str (ce_candidate_id e)); ("dataset_version", Str (ce_dataset_version e));
        ("replay", replay_summary_value (ce_replay e)); ("baseline_report", ce_baseline_report e);
        ("candidate_report", ce_candidate_report e); ("verdict", verdict_value (ce_verdict e));
        ("thresholds", jobj [("max_pass_rate_drop", jf64 (et_max_pass_rate_drop (ce_thresholds e)));
                             ("max_latency_p95_ratio",
                              jf64 (et_max_latency_p95_ratio (ce_thresholds e)))]);
        ("evaluated_by", author_value (ce_evaluated_by e));
        ("evaluated_at", time_value (ce_evaluated_at e))].

Definition authority_value (a : PromotionAuthority) : Value :=
  match a with
  | AuthorityEnvelope v => jobj [("authority", Str "envelope"); ("envelope_version", Str v)]
  | AuthorityApproval who => jobj [("authority", Str "approval"); ("approved_by", Str who)]
  end.

Definition promotion_decision_value (d : PromotionDecision) : Value :=
  jobj (("authority", authority_value (pd_authority d))
        :: jopt "canary" ((fun b => jobj [("candidate_id", Str (cy_candidate_id b));
                                          ("fraction", jf64 (cy_fraction b))]) <$> pd_canary d)).

Definition promotion_receipt_value (r : PromotionReceipt) : Value :=
  jobj ([("candidate_id", Str (pr_candidate_id r)); ("surface", Str (pr_surface r))]
        ++ jopt "previous" (Str <$> pr_previous r)
        ++ [("decision", promotion_decision_value (pr_decision r));
            ("promoted_at", time_value (pr_promoted_at r))])%list.

Definition rollback_receipt_value (r : RollbackReceipt) : Value :=
  jobj ([("surface", Str (rr_surface r)); ("from", Str (rr_from r))] ++ jopt "to" (Str <$> rr_to r)
        ++ [("cause", Str (rr_cause r)); ("rolled_back_at", time_value (rr_rolled_back_at r))])%list.

Definition lifecycle_draft (kind : RunEventKind) (effect_key id : string) (output : Value) :
    EventDraft :=
  with_output output
    (with_input (jobj [("effect_key", Str effect_key); ("candidate_id", Str id)])
       (draft_new kind Idempotent)).

(** A [LearnError] at the boundary of a handler. *)
Definition learn_result {A : Type} (r : result LearnError A) : result ApiError A :=
  match r with Ok a => Ok a | Err e => Err (learn_error f64_text f64_debug e) end.

(** The surface a request targets. *)
Definition target_surface (c : Candidate) (tag : option EnvironmentTag) : SurfaceKey :=
  match tag with Some t => tagged (surface c) t | None => surface c end.

(** [evaluate_candidate] up to the journal: the record read, the evaluator
    and its contract, the transition. *)
Definition evaluate_plan (id : string)
    (evaluator : option (Candidate -> EvaluationRequest -> res CandidateEvaluation))
    (request : EvaluationRequest) (read : LearnState) : result ApiError Commitment :=
  record ← ok_or (get_candidate tenant id read) (candidate_not_found id);
  evaluate ← ok_or evaluator
    (ApiConflict ("no candidate evaluator is configured on this server — promotion is gated on "
       ++ "evidence, and evidence requires an evaluator (`ServerConfig::with_candidate_evaluator`)"));
  match evaluate (cr_candidate record) request with
  | Err e => Err (ApiUnprocessable ("candidate evaluation failed: " ++ error_text e))
  | Ok evaluation =>
      if String.eqb (ce_candidate_id evaluation) (record_id record)
         && String.eqb (ce_dataset_version evaluation) (eq_dataset_version request)
      then
        next ← learn_result (apply_evaluation evaluation record);
        Ok (mkCommitment id (cr_status record) next None
              (lifecycle_draft KCandidateEvaluated
                 (evaluation_effect_key (record_id record) (ce_dataset_version evaluation)) id
                 (evaluation_value evaluation)))
      else Err (ApiUnprocessable ("the evaluator returned an evaluation naming a different candidate or "
             ++ "dataset version — the CandidateEvaluator contract requires both to match the request"))
  end.

(** [promote_candidate] up to the journal; the record and the pointer are
    two reads. *)
Definition promote_plan (id : string) (approval : option ApprovalToken) (tag : option EnvironmentTag)
    (now : DateTime) (read read' : LearnState) : result ApiError Commitment :=
  record ← ok_or (get_candidate tenant id read) (candidate_not_found id);
  decision ← learn_result
    (admit_promotion envelope (cr_candidate record) (cr_evaluation record) approval);
  let target := target_surface (cr_candidate record) tag in
  let pointer := default (pointer_new target) (get_version_pointer tenant target read') in
  let receipt := mkPromotion (record_id record) target (vp_active pointer) decision now in
  next ← learn_result (apply_promotion receipt record);
  Ok (mkCommitment id StatusEvaluated next (Some (promoted pointer receipt))
        (lifecycle_draft KCandidatePromoted (promotion_effect_key (record_id record)) id
           (promotion_receipt_value receipt))).

(** [rollback_candidate] up to the journal. *)
Definition rollback_plan (id cause : string) (tag : option EnvironmentTag) (now : DateTime)
    (read read' : LearnState) : result ApiError Commitment :=
  record ← ok_or (get_candidate tenant id read) (candidate_not_found id);
  if bool_decide (cr_status record = StatusPromoted)
  then
    let target := target_surface (cr_candidate record) tag in
    pointer ← ok_or (get_version_pointer tenant target read')
      (ApiConflict ("surface `" ++ target
         ++ "` has no version pointer — the candidate is not serving"));
    let active := serves_active pointer (record_id record) in
    let canary := serves_canary pointer (record_id record) in
    if negb active && negb canary
    then Err (ApiConflict ("candidate `" ++ id ++ "` is marked promoted but surface `" ++ target
           ++ "` does not serve it — the pointer moved on; roll back what serves"))
    else
      let to := if active then cr_promotion record ≫= pr_previous else None in
      let receipt := mkRollback target (record_id record) to cause now in
      next ← learn_result (apply_rollback receipt record);
      Ok (mkCommitment id StatusPromoted next (Some (rolled_back pointer receipt))
            (lifecycle_draft KCandidateRolledBack (rollback_effect_key target (record_id record)) id
               (rollback_receipt_value receipt)))
  else Err (ApiConflict ("candidate `" ++ id ++ "` is `" ++ status_wire (cr_status record)
         ++ "` — only a promoted candidate can roll back")).

(** The journal seam: what it answered decides whether the draft is there. *)
Definition journal_event (run_id : string) (d : EventDraft) (answer : result string unit)
    (s : LearnState) : result ApiError unit * LearnState :=
  match answer with
  | Err e => (Err (journal_gate_error e), s)
  | Ok _ =>
      (Ok (), mkLearnState (ls_candidates s) (ls_versions s) (ls_candidate_files s)
                (ls_version_files s) (ls_journaled s ++ [(run_id, d)]))
  end.

(** The second half of the three transitions: journal, then the store. *)
Definition commit (c : Commitment) (run_id : string) (answer : result string unit)
    (fault : DiskFault) (s : LearnState) : result ApiError unit * LearnState :=
  match journal_event run_id (cm_draft c) answer s with
  | (Err e, s1) => (Err e, s1)
  | (Ok _, s1) =>
      match transition_candidate tenant (cm_candidate_id c) (cm_expect c) (cm_next c) (cm_pointer c)
              fault s1 with
      | (Err e, s2) => (Err (ApiInternal e), s2)
      | (Ok o, s2) => (transition_outcome o (cm_candidate_id c), s2)
      end
  end.

(** A request: its plan, from what it read, then its commit. *)
Definition settle_request (plan : result ApiError Commitment) (run_id : string) (answer : result string unit)
    (fault : DiskFault) (s : LearnState) : result ApiError Commitment * LearnState :=
  match plan with
  | Err e => (Err e, s)
  | Ok c =>
      match commit c run_id answer fault s with
      | (Ok _, s') => (Ok c, s')
      | (Err e, s') => (Err e, s')
      end
  end.

Definition evaluate_candidate (id : string)
    (evaluator : option (Candidate -> EvaluationRequest -> res CandidateEvaluation))
    (request : EvaluationRequest) (run_id : string) (answer : result string unit)
    (fault : DiskFault) (s : LearnState) : result ApiError Commitment * LearnState :=
  settle_request (evaluate_plan id evaluator request s) run_id answer fault s.

Definition promote_candidate (id : string) (approval : option ApprovalToken)
    (tag : option EnvironmentTag) (now : DateTime) (run_id : string) (answer : result string unit)
    (fault : DiskFault) (s : LearnState) : result ApiError Commitment * LearnState :=
  settle_request (promote_plan id approval tag now s s) run_id answer fault s.

Definition rollback_candidate (id cause : string) (tag : option EnvironmentTag) (now : DateTime)
    (run_id : string) (answer : result string unit) (fault : DiskFault) (s : LearnState) :
    result ApiError Commitment * LearnState :=
  settle_request (rollback_plan id cause tag now s s) run_id answer fault s.

(** [create_candidate]: verified, read, journaled, put; the answer is the
    status and the record. *)
Definition create_candidate (c : Candidate) (run_id : string) (answer : result string unit)
    (fault : DiskFault) (read s : LearnState) : result ApiError (bool * CandidateRecord) * LearnState :=
  match learn_result (verify_address c) with
  | Err e => (Err e, s)
  | Ok _ =>
      match get_candidate tenant (cd_candidate_id c) read with
      | Some existing => (Ok (false, existing), s)
      | None =>
          match journal_event run_id
                  (lifecycle_draft KCandidateCreated (candidate_effect_key (cd_candidate_id c))
                     (cd_candidate_id c) (candidate_value c)) answer s with
          | (Err e, s1) => (Err e, s1)
          | (Ok _, s1) =>
              let record := candidate_record_new c in
              match put_candidate tenant record fault s1 with
              | (Err e, s2) => (Err (ApiInternal e), s2)
              | (Ok _, s2) => (Ok (true, record), s2)
              end
          end
      end
  end.
End Routes.
