(* ===== verification/LearnRoutesFacts.v ===== *)
(** * What the candidate routes keep

    Under any interleaving of requests, any failed file write and any
    restart: records only move forward, a promoted record keeps the evidence
    it was promoted on, and whatever a version pointer serves went through
    the promotion gate for that very surface. When requests do not overlap,
    each surface is a stack: promotion pushes, rollback pops. *)

From Stdlib Require Import String Ascii Floats.SpecFloat.
From S2P Require Import Prelude Containers Json Error Record Meter Journal Effects Text Memory Learn LearnFacts LearnRoutes.
Local Open Scope string_scope.

Lemma append_inv_l (p a b : string) : p ++ a = p ++ b -> a = b.
Proof. induction p as [|c p IH]; simpl; [done|]. intros [= Heq]. auto. Qed.

Lemma scope_id_inj (tenant a b : string) : scope_id tenant a = scope_id tenant b -> a = b.
Proof.
  unfold scope_id. destruct (String.eqb tenant DEFAULT_TENANT); [done|].
  intros H%append_inv_l. by apply append_inv_l in H.
Qed.

(** ** Records over time *)

Definition rank (s : CandidateStatus) : nat :=
  match s with StatusCreated => 0 | StatusEvaluated => 1 | StatusPromoted => 2 | StatusRolledBack => 3 end.

Lemma rank_inj (a b : CandidateStatus) : rank a = rank b -> a = b.
Proof. by destruct a, b. Qed.

(** A later state of a record: the same candidate, no earlier status, once
    promoted the same evidence and receipt, once rolled back unchanged. *)
Definition evolves (r r' : CandidateRecord) : Prop :=
  cr_candidate r' = cr_candidate r /\ (rank (cr_status r) <= rank (cr_status r'))%nat
  /\ (2 <= rank (cr_status r) -> cr_evaluation r' = cr_evaluation r /\ cr_promotion r' = cr_promotion r)%nat
  /\ (3 <= rank (cr_status r) -> r' = r)%nat.

#[export] Instance evolves_preorder : PreOrder evolves.
Proof.
  split; [by repeat split|]. intros a b c (H1 & H2 & H3 & H4) (K1 & K2 & K3 & K4). split_and!.
  - congruence.
  - lia.
  - intros Hr. destruct (H3 Hr) as [<- <-]. apply K3. lia.
  - intros Hr. rewrite <- (H4 Hr) at 1. apply K4. lia.
Qed.

(** A later state of an index. *)
Definition extends (m m' : gmap string CandidateRecord) : Prop :=
  forall k r, m !! k = Some r -> exists r', m' !! k = Some r' /\ evolves r r'.

#[export] Instance extends_preorder : PreOrder extends.
Proof.
  split; [intros m k r Hk; by exists r|]. intros a b c Hab Hbc k r Hk.
  destruct (Hab k r Hk) as (r' & Hr' & He). destruct (Hbc k r' Hr') as (r'' & Hr'' & He').
  exists r''. split; [done|]. by trans r'.
Qed.

Lemma extends_insert (m : gmap string CandidateRecord) (k : string) (r : CandidateRecord) :
  (forall r0, m !! k = Some r0 -> evolves r0 r) -> extends m (<[k := r]> m).
Proof.
  intros Hr k' r0 Hk. destruct (decide (k = k')) as [<-|Hne].
  - exists r. rewrite lookup_insert_eq. auto.
  - exists r0. by rewrite lookup_insert_ne.
Qed.

Section Facts.
Context `{Codec} (f64_text f64_debug : spec_float -> string).
Context (tenant : string) (envelope : PromotionEnvelope).
Abbreviation key := (scope_id tenant).
Implicit Types (m : gmap string CandidateRecord) (r : CandidateRecord) (s : LearnState).

(** The gate cleared a receipt on the evidence its record carries. *)
Definition gated r (p : PromotionReceipt) : Prop :=
  exists e token, cr_evaluation r = Some e /\ ce_candidate_id e = record_id r
    /\ admit_promotion envelope (cr_candidate r) (Some e) token = Ok (pr_decision p)
    /\ pr_candidate_id p = record_id r.

(** A record and its status agree. *)
Definition record_ok r : Prop :=
  verify_address (cr_candidate r) = Ok ()
  /\ match cr_status r with
     | StatusCreated => cr_evaluation r = None /\ cr_promotion r = None /\ cr_rollback r = None
     | StatusEvaluated =>
         (exists e, cr_evaluation r = Some e /\ ce_candidate_id e = record_id r)
         /\ cr_promotion r = None /\ cr_rollback r = None
     | StatusPromoted =>
         (exists p, cr_promotion r = Some p /\ gated r p) /\ cr_rollback r = None
     | StatusRolledBack =>
         (exists p, cr_promotion r = Some p /\ gated r p)
         /\ exists b, cr_rollback r = Some b /\ rr_from b = record_id r
     end.

Definition candidates_ok m : Prop :=
  forall k r, m !! k = Some r -> k = key (record_id r) /\ record_ok r.

Lemma promotion_rank r p : record_ok r -> cr_promotion r = Some p -> (2 <= rank (cr_status r))%nat /\ gated r p.
Proof.
  intros [_ Hr] Hp. destruct (cr_status r); simpl; destruct Hr as [H1 H2]; try lia.
  1-2: destruct H2 as [H2 _]; congruence.
  all: destruct H1 as (p' & Hp' & Hg); split; [lia|congruence].
Qed.

(** A candidate promoted on a surface, fully or into a canary slot. *)
Definition holds m (surface : SurfaceKey) (slot : option CanaryBinding) (id : CandidateId) : Prop :=
  exists r p, m !! key id = Some r /\ cr_promotion r = Some p /\ pr_surface p = surface
              /\ pd_canary (pr_decision p) = slot.

Lemma holds_extends m m' surface slot id :
  candidates_ok m -> extends m m' -> holds m surface slot id -> holds m' surface slot id.
Proof.
  intros Hm He (r & p & Hk & Hp & Hs & Hc). destruct (He _ _ Hk) as (r' & Hk' & _ & _ & Hev & _).
  destruct (Hm _ _ Hk) as [_ Hr]. destruct (promotion_rank r p Hr Hp) as [Hrank _].
  exists r', p. destruct (Hev Hrank) as [_ ->]. done.
Qed.

(** Both slots of a pointer. *)
Definition pointer_ok m (p : VersionPointer) : Prop :=
  (forall id, vp_active p = Some id -> holds m (vp_surface p) None id)
  /\ (forall b, vp_canary p = Some b -> holds m (vp_surface p) (Some b) (cy_candidate_id b)).

Lemma pointer_extends m m' p : candidates_ok m -> extends m m' -> pointer_ok m p -> pointer_ok m' p.
Proof. intros Hm He [Ha Hc]. split; intros ? Hx; eapply holds_extends; eauto. Qed.

Definition versions_ok m (v : gmap string VersionPointer) : Prop :=
  forall k p, v !! k = Some p -> k = key (vp_surface p) /\ pointer_ok m p.

(** What the receipts of [d] displaced was promoted on the same surface. *)
Definition previous_ok m (d : gmap string CandidateRecord) : Prop :=
  forall k r p q, d !! k = Some r -> cr_promotion r = Some p -> pr_previous p = Some q ->
    holds m (pr_surface p) None q.

(** The store's invariant: the indexes, and the files a restart would load. *)
Record Inv s : Prop := mkInv {
  inv_candidates : candidates_ok (ls_candidates s);
  inv_versions : versions_ok (ls_candidates s) (ls_versions s);
  inv_previous : previous_ok (ls_candidates s) (ls_candidates s);
  inv_files : candidates_ok (ls_candidate_files s);
  inv_files_extend : extends (ls_candidates s) (ls_candidate_files s);
  inv_files_known : forall k, is_Some (ls_candidate_files s !! k) -> is_Some (ls_candidates s !! k);
  inv_files_previous : previous_ok (ls_candidates s) (ls_candidate_files s);
  inv_version_files : forall name k p, ls_version_files s !! name = Some (k, p) ->
    name = version_file_name k -> ls_versions s !! k = Some p;
}.

(** ** What a plan is *)

Lemma evaluate_plan_inv id ev rq s0 c :
  evaluate_plan f64_text f64_debug tenant id ev rq s0 = Ok c ->
  exists r e d, get_candidate tenant id s0 = Some r /\ ce_candidate_id e = record_id r
    /\ (rank (cr_status r) <= 1)%nat
    /\ c = mkCommitment id (cr_status r)
             (mkCandidateRecord (cr_candidate r) StatusEvaluated (Some e) (cr_promotion r) (cr_rollback r))
             None d.
Proof.
  unfold evaluate_plan. intros Hp. destruct (get_candidate tenant id s0) as [r|]; [|done]. simpl in Hp.
  destruct ev as [ev|]; [|done]. simpl in Hp. destruct (ev (cr_candidate r) rq) as [e|?]; [|done].
  destruct (String.eqb_spec (ce_candidate_id e) (record_id r)) as [Hid|]; [|done]. simpl in Hp.
  destruct (String.eqb _ _); [|done]. unfold apply_evaluation in Hp. rewrite Hid, String.eqb_refl in Hp.
  exists r, e. destruct (cr_status r); simplify_eq/=; eexists; (split_and!; [done|done|lia|done]).
Qed.

(** The receipt of a promotion read from [s0] and [s1]. *)
Definition promotion_of (r : CandidateRecord) (S : SurfaceKey) (d : PromotionDecision) (now : DateTime) s1 :
    PromotionReceipt :=
  mkPromotion (record_id r) S (vp_active (default (pointer_new S) (get_version_pointer tenant S s1))) d now.

Lemma promote_plan_inv id token tag now s0 s1 c :
  promote_plan f64_text f64_debug tenant envelope id token tag now s0 s1 = Ok c ->
  exists r d draft, get_candidate tenant id s0 = Some r /\ cr_status r = StatusEvaluated
    /\ admit_promotion envelope (cr_candidate r) (cr_evaluation r) token = Ok d
    /\ let S := target_surface (cr_candidate r) tag in
       let receipt := promotion_of r S d now s1 in
       c = mkCommitment id StatusEvaluated
             (mkCandidateRecord (cr_candidate r) StatusPromoted (cr_evaluation r) (Some receipt)
                (cr_rollback r))
             (Some (promoted (default (pointer_new S) (get_version_pointer tenant S s1)) receipt)) draft.
Proof.
  unfold promote_plan. intros Hp. destruct (get_candidate tenant id s0) as [r|]; [|done]. simpl in Hp.
  destruct (admit_promotion envelope _ _ token) as [d|] eqn:Hd; [|done]. simpl in Hp.
  unfold apply_promotion in Hp. case_bool_decide as Hev; [|done]. simpl in Hp.
  rewrite String.eqb_refl in Hp. simpl in Hp. injection Hp as <-. exists r, d. eexists. by split_and!.
Qed.

(** The receipt of a rollback of [r] from the pointer it read. *)
Definition rollback_of (r : CandidateRecord) (S : SurfaceKey) (ptr : VersionPointer) (cause : string)
    (now : DateTime) : RollbackReceipt :=
  mkRollback S (record_id r)
    (if serves_active ptr (record_id r) then cr_promotion r ≫= pr_previous else None) cause now.

Lemma rollback_plan_inv id cause tag now s0 s1 c :
  rollback_plan f64_text f64_debug tenant id cause tag now s0 s1 = Ok c ->
  exists r ptr draft, get_candidate tenant id s0 = Some r /\ cr_status r = StatusPromoted
    /\ let S := target_surface (cr_candidate r) tag in
       get_version_pointer tenant S s1 = Some ptr
       /\ serves_active ptr (record_id r) || serves_canary ptr (record_id r) = true
       /\ c = mkCommitment id StatusPromoted
               (mkCandidateRecord (cr_candidate r) StatusRolledBack (cr_evaluation r) (cr_promotion r)
                  (Some (rollback_of r S ptr cause now)))
               (Some (rolled_back ptr (rollback_of r S ptr cause now))) draft.
Proof.
  unfold rollback_plan. intros Hp. destruct (get_candidate tenant id s0) as [r|]; [|done]. simpl in Hp.
  case_bool_decide as Hpr; [|done].
  destruct (get_version_pointer tenant _ s1) as [ptr|] eqn:Hptr; [|done]. simpl in Hp.
  destruct (negb (serves_active ptr (record_id r)) && negb (serves_canary ptr (record_id r))) eqn:Hs; [done|].
  unfold apply_rollback in Hp. rewrite (bool_decide_eq_true_2 _ Hpr) in Hp. simpl in Hp.
  rewrite String.eqb_refl in Hp. simpl in Hp. injection Hp as <-. exists r, ptr. eexists.
  split_and!; try done. by destruct (serves_active _ _), (serves_canary _ _).
Qed.

(** ** What a plan commits *)

Definition commit_ok m (c : Commitment) : Prop :=
  forall current, m !! key (cm_candidate_id c) = Some current -> cr_status current = cm_expect c ->
    evolves current (cm_next c) /\ record_ok (cm_next c) /\ record_id (cm_next c) = cm_candidate_id c
    /\ (forall p q, cr_promotion (cm_next c) = Some p -> pr_previous p = Some q ->
          holds m (pr_surface p) None q)
    /\ (forall p, cm_pointer c = Some p ->
          pointer_ok (<[key (cm_candidate_id c) := cm_next c]> m) p).

(** The state a plan read is an earlier one of the state it commits to. *)
Definition earlier s0 m : Prop := Inv s0 /\ extends (ls_candidates s0) m.

Lemma read_record s0 m id r current :
  earlier s0 m -> get_candidate tenant id s0 = Some r -> m !! key id = Some current ->
  evolves r current /\ record_ok r /\ record_id r = id.
Proof.
  intros [Hi He] Hr Hc. destruct (He _ _ Hr) as (r' & Hr' & Hev). rewrite Hc in Hr'.
  injection Hr' as <-. destruct (inv_candidates _ Hi _ _ Hr) as [Hk Hok].
  split; [done|]. split; [done|]. symmetry. by eapply scope_id_inj.
Qed.

Lemma evaluate_commit_ok s0 m id ev rq c :
  earlier s0 m -> evaluate_plan f64_text f64_debug tenant id ev rq s0 = Ok c -> commit_ok m c.
Proof.
  intros He (r & e & d & Hr & Hid & Hrank & ->)%evaluate_plan_inv current Hcur Hst. simpl in *.
  destruct (read_record s0 m id r current He Hr Hcur) as ((Hcand & _) & [Hv Hok] & Hrid).
  assert (Hnone : cr_promotion r = None /\ cr_rollback r = None)
    by (destruct (cr_status r); simpl in Hrank; try lia; naive_solver).
  destruct Hnone as [Hpn Hrn]. split_and!; [|split|done|by rewrite Hpn|done].
  - unfold evolves. simpl. rewrite Hst, Hcand. split_and!; [done|lia..].
  - done.
  - simpl. rewrite Hpn, Hrn. split_and!; [|done..]. by exists e.
Qed.

Lemma read_pointer s0 m S :
  earlier s0 m ->
  let p := default (pointer_new S) (get_version_pointer tenant S s0) in
  vp_surface p = S /\ pointer_ok m p.
Proof.
  intros [Hi He]. destruct (get_version_pointer tenant S s0) as [p|] eqn:Hp; simpl.
  - destruct (inv_versions _ Hi _ _ Hp) as [Hk Hok]. split.
    + symmetry. by eapply scope_id_inj.
    + eapply pointer_extends; [by apply inv_candidates|done|done].
  - done.
Qed.

(** The insertion a commit makes is an extension. *)
Lemma next_extends m k current next :
  m !! k = Some current -> evolves current next -> extends m (<[k := next]> m).
Proof. intros Hk He. apply extends_insert. intros r0 Hr. rewrite Hk in Hr. by injection Hr as <-. Qed.

Lemma promote_commit_ok s0 s1 m id token tag now c :
  candidates_ok m -> earlier s0 m -> earlier s1 m ->
  promote_plan f64_text f64_debug tenant envelope id token tag now s0 s1 = Ok c -> commit_ok m c.
Proof.
  intros Hm He He1 (r & d & draft & Hr & Hev & Hd & ->)%promote_plan_inv current Hcur Hst. simpl in *.
  set (S := target_surface (cr_candidate r) tag) in *.
  pose proof (read_pointer s1 m S He1) as [Hsurf Hptr]. cbv zeta in Hsurf, Hptr.
  set (receipt := promotion_of r S d now s1) in *.
  set (ptr := default (pointer_new S) (get_version_pointer tenant S s1)) in *.
  destruct (read_record s0 m id r current He Hr Hcur) as ((Hcand & _) & [Hv Hok] & Hrid).
  rewrite Hev in Hok. destruct Hok as ((e & He0 & Hid) & _ & Hrn).
  set (next := mkCandidateRecord (cr_candidate r) StatusPromoted (cr_evaluation r) (Some receipt)
                 (cr_rollback r)).
  assert (Hevolves : evolves current next).
  { unfold evolves. rewrite Hst. simpl. by rewrite Hcand; split_and!; [done|lia..]. }
  split_and!; [done| |done| |].
  - split; [done|]. simpl. split; [|done]. exists receipt. split; [done|]. exists e, token.
    rewrite He0 in Hd. split_and!; [exact He0|exact Hid|exact Hd|done].
  - intros p q [= <-] Hq. simpl in *. rewrite <- Hsurf. by apply Hptr.
  - intros p [= <-]. pose proof (next_extends m (key id) current next Hcur Hevolves) as Hext.
    destruct (pointer_extends _ _ _ Hm Hext Hptr) as [Ha Hc].
    assert (Hself : holds (<[key id := next]> m) S (pd_canary d) id).
    { exists next, receipt. by rewrite lookup_insert_eq. }
    unfold promoted. simpl. destruct (pd_canary d) as [b|] eqn:Hb; split; simpl; rewrite ?Hsurf in *; try done.
    + intros b' [= <-]. pose proof (admitted_canary _ _ _ _ _ _ Hd Hb) as Hcb.
      change (cd_candidate_id (cr_candidate r)) with (record_id r) in Hcb. by rewrite Hcb, Hrid.
    + intros id' [= <-]. by rewrite Hrid.
Qed.

Lemma rollback_commit_ok s0 s1 m id cause tag now c :
  candidates_ok m -> previous_ok m m -> earlier s0 m -> earlier s1 m ->
  rollback_plan f64_text f64_debug tenant id cause tag now s0 s1 = Ok c -> commit_ok m c.
Proof.
  intros Hm Hprev He He1 (r & ptr & draft & Hr & Hpr & Hptr & _ & ->)%rollback_plan_inv current Hcur Hst.
  simpl in *. set (S := target_surface (cr_candidate r) tag) in *.
  pose proof (read_pointer s1 m S He1) as Hread. rewrite Hptr in Hread.
  destruct Hread as [Hsurf Hpok]. simpl in Hsurf, Hpok. set (receipt := rollback_of r S ptr cause now) in *.
  destruct (read_record s0 m id r current He Hr Hcur) as ((Hcand & _ & Hkeep & _) & [Hv Hok] & Hrid).
  rewrite Hpr in Hok, Hkeep. destruct Hok as ((p & Hp & Hg) & Hrn).
  destruct (Hkeep ltac:(simpl; lia)) as [Hke Hkp].
  set (next := mkCandidateRecord (cr_candidate r) StatusRolledBack (cr_evaluation r) (cr_promotion r)
                 (Some receipt)).
  assert (Hevolves : evolves current next).
  { unfold evolves. rewrite Hst. simpl. split_and!; [done|lia|done|lia]. }
  assert (Hback : forall q, pr_previous p = Some q -> holds m (pr_surface p) None q).
  { intros q Hq. apply (Hprev _ _ p q Hcur); [|done]. congruence. }
  split_and!; [done| |done| |].
  - split; [done|]. simpl. split; [by exists p|by exists receipt].
  - simpl. intros p' q Hp' Hq. rewrite Hp in Hp'. injection Hp' as <-. by apply Hback.
  - intros p' [= <-]. pose proof (next_extends m (key id) current next Hcur Hevolves) as Hext.
    destruct (pointer_extends _ _ _ Hm Hext Hpok) as [Ha Hc]. unfold rolled_back. split; simpl.
    + intros q. destruct (serves_active ptr (record_id r)) eqn:Hsa; [|apply Ha].
      rewrite Hp. simpl. intros Hq. eapply holds_extends; [done|done|].
      apply bool_decide_eq_true in Hsa. destruct Hpok as [Hact _].
      destruct (Hact _ Hsa) as (r1 & p1 & Hr1 & Hp1 & Hs1 & _). rewrite Hrid, Hcur in Hr1.
      assert (p1 = p) as -> by congruence. rewrite <- Hs1. by apply Hback.
    + intros b Hb. apply Hc. by destruct (serves_canary ptr (record_id r)).
Qed.

(** ** Steps keep the invariant *)

Lemma init_inv : Inv learn_init.
Proof.
  split; simpl; try (by intros k x Hk; rewrite lookup_empty in Hk).
  - by intros k r p q Hk; rewrite lookup_empty in Hk.
  - intros k [x Hk]. by rewrite lookup_empty in Hk.
  - by intros k r p q Hk; rewrite lookup_empty in Hk.
  - by intros name k p Hk; rewrite lookup_empty in Hk.
Qed.

Lemma journal_inv s run d answer : Inv s -> Inv (journal_event run d answer s).2.
Proof. intros Hi. destruct answer; simpl; [|done]. by destruct Hi; split. Qed.

Lemma journal_indexes s run d answer :
  ls_candidates (journal_event run d answer s).2 = ls_candidates s.
Proof. by destruct answer. Qed.

Lemma candidates_insert m k r :
  candidates_ok m -> k = key (record_id r) -> record_ok r -> candidates_ok (<[k := r]> m).
Proof.
  intros Hm Hk Hr k' r' Hl. destruct (decide (k = k')) as [<-|Hne].
  - rewrite lookup_insert_eq in Hl. by injection Hl as <-.
  - rewrite lookup_insert_ne in Hl by done. by apply Hm.
Qed.

Lemma previous_extends m m' d : candidates_ok m -> extends m m' -> previous_ok m d -> previous_ok m' d.
Proof. intros Hm He Hp k r p q Hk Hr Hq. eapply holds_extends; eauto. Qed.

Lemma previous_insert m d k r :
  previous_ok m d ->
  (forall p q, cr_promotion r = Some p -> pr_previous p = Some q -> holds m (pr_surface p) None q) ->
  previous_ok m (<[k := r]> d).
Proof.
  intros Hd Hr k' r' p q Hl. destruct (decide (k = k')) as [<-|Hne].
  - rewrite lookup_insert_eq in Hl. injection Hl as <-. auto.
  - rewrite lookup_insert_ne in Hl by done. eauto.
Qed.

Lemma versions_extends m m' v : candidates_ok m -> extends m m' -> versions_ok m v -> versions_ok m' v.
Proof. intros Hm He Hv k p Hk. destruct (Hv k p Hk) as [-> Hp]. split; [done|]. by eapply pointer_extends. Qed.

Lemma extends_insert_both m d k r :
  extends m d -> extends (<[k := r]> m) (<[k := r]> d).
Proof.
  intros He k' r0 Hk. destruct (decide (k = k')) as [<-|Hne].
  - rewrite lookup_insert_eq in Hk. injection Hk as <-. exists r. by rewrite lookup_insert_eq.
  - rewrite lookup_insert_ne in Hk by done. rewrite lookup_insert_ne by done. eauto.
Qed.

Lemma extends_insert_r m d k r :
  extends m d -> (forall r0, m !! k = Some r0 -> evolves r0 r) -> extends m (<[k := r]> d).
Proof.
  intros He Hr k' r0 Hk. destruct (decide (k = k')) as [<-|Hne].
  - exists r. rewrite lookup_insert_eq. auto.
  - rewrite lookup_insert_ne by done. eauto.
Qed.

(** The candidate file alone is written: the version write failed. *)
Lemma file_only_inv s c current :
  Inv s -> commit_ok (ls_candidates s) c -> ls_candidates s !! key (cm_candidate_id c) = Some current ->
  cr_status current = cm_expect c ->
  Inv (mkLearnState (ls_candidates s) (ls_versions s)
         (<[key (cm_candidate_id c) := cm_next c]> (ls_candidate_files s)) (ls_version_files s)
         (ls_journaled s)).
Proof.
  intros Hi Hc Hk Hst. destruct (Hc current Hk Hst) as (Hev & Hok & Hid & Hprev & _).
  destruct Hi as [H1 H2 H3 H4 H5 H6 H7 H8]. split; simpl; try done.
  - apply candidates_insert; [done|by rewrite Hid|done].
  - apply extends_insert_r; [done|]. intros r0 Hr. rewrite Hk in Hr. by injection Hr as <-.
  - intros k. destruct (decide (key (cm_candidate_id c) = k)) as [<-|Hne]; [by rewrite Hk|].
    rewrite lookup_insert_ne by done. apply H6.
  - by apply previous_insert.
Qed.

(** Both files and both indexes are written. *)
Lemma applied_inv s c current v vf :
  Inv s -> commit_ok (ls_candidates s) c -> ls_candidates s !! key (cm_candidate_id c) = Some current ->
  cr_status current = cm_expect c ->
  versions_ok (<[key (cm_candidate_id c) := cm_next c]> (ls_candidates s)) v ->
  (forall name k p, vf !! name = Some (k, p) -> name = version_file_name k -> v !! k = Some p) ->
  Inv (mkLearnState (<[key (cm_candidate_id c) := cm_next c]> (ls_candidates s)) v
         (<[key (cm_candidate_id c) := cm_next c]> (ls_candidate_files s)) vf (ls_journaled s)).
Proof.
  intros Hi Hc Hk Hst Hv Hvf. destruct (Hc current Hk Hst) as (Hev & Hok & Hid & Hprev & _).
  pose proof (next_extends _ _ _ _ Hk Hev) as Hext.
  destruct Hi as [H1 H2 H3 H4 H5 H6 H7 H8]. split; simpl; try done.
  - apply candidates_insert; [done|by rewrite Hid|done].
  - eapply previous_extends; [exact H1|done|]. by apply previous_insert.
  - apply candidates_insert; [done|by rewrite Hid|done].
  - by apply extends_insert_both.
  - intros k. destruct (decide (key (cm_candidate_id c) = k)) as [<-|Hne].
    + by rewrite !lookup_insert_eq.
    + rewrite !lookup_insert_ne by done. apply H6.
  - eapply previous_extends; [exact H1|done|]. by apply previous_insert.
Qed.

Lemma transition_inv s c fault :
  Inv s -> commit_ok (ls_candidates s) c ->
  let s' := (transition_candidate tenant (cm_candidate_id c) (cm_expect c) (cm_next c) (cm_pointer c)
               fault s).2 in
  Inv s' /\ extends (ls_candidates s) (ls_candidates s').
Proof.
  intros Hi Hc s'. unfold s', transition_candidate.
  destruct (ls_candidates s !! key (cm_candidate_id c)) as [current|] eqn:Hk; [|done].
  case_bool_decide as Hst; [|done].
  destruct (Hc current Hk Hst) as (Hev & _ & _ & _ & Hptr).
  pose proof (next_extends _ _ _ _ Hk Hev) as Hext.
  assert (Hv : versions_ok (<[key (cm_candidate_id c) := cm_next c]> (ls_candidates s)) (ls_versions s))
    by (eapply versions_extends; [by apply inv_candidates|done|by apply inv_versions]).
  assert (Hmove : forall p, cm_pointer c = Some p ->
    Inv (mkLearnState (<[key (cm_candidate_id c) := cm_next c]> (ls_candidates s))
           (<[key (vp_surface p) := p]> (ls_versions s))
           (<[key (cm_candidate_id c) := cm_next c]> (ls_candidate_files s))
           (<[version_file_name (key (vp_surface p)) := (key (vp_surface p), p)]> (ls_version_files s))
           (ls_journaled s))).
  { intros p Hp. eapply applied_inv; try done.
    - intros k p'. destruct (decide (key (vp_surface p) = k)) as [<-|Hne].
      + rewrite lookup_insert_eq. intros [= <-]. split; [done|]. by apply Hptr.
      + rewrite lookup_insert_ne by done. apply Hv.
    - intros name k p'. destruct (decide (version_file_name (key (vp_surface p)) = name)) as [<-|Hne].
      + rewrite lookup_insert_eq. intros [= <- <-] _. by rewrite lookup_insert_eq.
      + rewrite lookup_insert_ne by done. intros Hf Hn. rewrite lookup_insert_ne by congruence.
        exact (inv_version_files _ Hi _ _ _ Hf Hn). }
  destruct fault as [|e|e]; [|done|]; (destruct (cm_pointer c) as [p|] eqn:Hp; simpl).
  - split; [by apply Hmove|done].
  - split; [|done]. eapply applied_inv; try done. by apply inv_version_files.
  - split; [by eapply file_only_inv|done].
  - split; [|done]. eapply applied_inv; try done. by apply inv_version_files.
Qed.

Lemma commit_inv s c run answer fault :
  Inv s -> commit_ok (ls_candidates s) c ->
  let s' := (commit tenant c run answer fault s).2 in
  Inv s' /\ extends (ls_candidates s) (ls_candidates s').
Proof.
  intros Hi Hc s'. unfold s', commit. pose proof (journal_inv s run (cm_draft c) answer Hi) as Hj.
  pose proof (journal_indexes s run (cm_draft c) answer) as Hx.
  destruct (journal_event run (cm_draft c) answer s) as [[u|e] s1]; simpl in *.
  - rewrite <- Hx in Hc |- *. pose proof (transition_inv s1 c fault Hj Hc) as Ht. cbv zeta in Ht.
    by destruct (transition_candidate _ _ _ _ _ _ _) as [[]].
  - by rewrite Hx.
Qed.

Lemma settle_inv s plan run answer fault :
  Inv s -> (forall c, plan = Ok c -> commit_ok (ls_candidates s) c) ->
  let s' := (settle_request tenant plan run answer fault s).2 in
  Inv s' /\ extends (ls_candidates s) (ls_candidates s').
Proof.
  intros Hi Hp s'. unfold s', settle_request. destruct plan as [c|e]; [|done].
  pose proof (commit_inv s c run answer fault Hi (Hp c eq_refl)) as Hc. cbv zeta in Hc.
  by destruct (commit _ _ _ _ _ _) as [[]].
Qed.

Lemma create_inv s c run answer fault read :
  Inv s ->
  let s' := (create_candidate f64_text f64_debug tenant c run answer fault read s).2 in
  Inv s' /\ extends (ls_candidates s) (ls_candidates s').
Proof.
  intros Hi s'. unfold s', create_candidate.
  destruct (verify_address c) as [[]|] eqn:Hv; [|done]. simpl.
  destruct (get_candidate tenant _ read); [done|].
  match goal with |- context [journal_event run ?d answer s] =>
    pose proof (journal_inv s run d answer Hi) as Hj; pose proof (journal_indexes s run d answer) as Hx;
    destruct (journal_event run d answer s) as [[u|e] s1] end; simpl in *; [|by rewrite Hx].
  rewrite <- Hx. clear Hx Hi. unfold put_candidate. simpl.
  destruct (ls_candidates s1 !! _) as [r0|] eqn:Hk; [done|].
  set (k := scope_id tenant (record_id (candidate_record_new c))) in *.
  assert (Hnew : record_ok (candidate_record_new c)) by (split; done).
  assert (Hext : extends (ls_candidates s1) (<[k := candidate_record_new c]> (ls_candidates s1)))
    by (apply extends_insert; intros r0 Hr; by rewrite Hk in Hr).
  assert (Hput : Inv (mkLearnState (<[k := candidate_record_new c]> (ls_candidates s1)) (ls_versions s1)
    (<[k := candidate_record_new c]> (ls_candidate_files s1)) (ls_version_files s1) (ls_journaled s1))).
  { destruct Hj as [H1 H2 H3 H4 H5 H6 H7 H8]. split; simpl; try done.
    - by apply candidates_insert.
    - exact (versions_extends _ _ _ H1 Hext H2).
    - eapply previous_extends; [exact H1|done|]. by apply previous_insert.
    - by apply candidates_insert.
    - by apply extends_insert_both.
    - intros k'. destruct (decide (k = k')) as [<-|Hne]; [by rewrite !lookup_insert_eq|].
      rewrite !lookup_insert_ne by done. apply H6.
    - eapply previous_extends; [exact H1|done|]. by apply previous_insert. }
  by destruct fault.
Qed.

Lemma load_versions_lookup (files : gmap string (string * VersionPointer)) k p :
  load_versions files !! k = Some p ->
  exists name, files !! name = Some (k, p) /\ name = version_file_name k.
Proof.
  unfold load_versions. intros Hk%elem_of_list_to_map_2.
  apply list_elem_of_In, in_map_iff in Hk as ([name [k' p']] & [= -> ->] & [Hin Hn]%filter_In).
  exists name. split; [|by apply String.eqb_eq in Hn].
  by apply elem_of_map_to_list, list_elem_of_In.
Qed.

Lemma restart_inv s : Inv s -> Inv (restart s).
Proof.
  intros [H1 H2 H3 H4 H5 H6 H7 H8]. split; simpl; try done.
  - intros k p (name & Hf & Hn)%load_versions_lookup. pose proof (H8 _ _ _ Hf Hn) as Hk.
    destruct (H2 _ _ Hk) as [-> Hp]. split; [done|]. exact (pointer_extends _ _ _ H1 H5 Hp).
  - exact (previous_extends _ _ _ H1 H5 H7).
  - exact (previous_extends _ _ _ H1 H5 H7).
  - intros name k p Hf Hn. destruct (load_versions (ls_version_files s) !! k) as [p'|] eqn:Hl.
    + apply load_versions_lookup in Hl as (name' & Hf' & ->). rewrite <- Hn, Hf in Hf'. by injection Hf' as <-.
    + exfalso. unfold load_versions in Hl. apply not_elem_of_list_to_map in Hl. apply Hl.
      apply list_elem_of_fmap. exists (k, p). split; [done|].
      apply list_elem_of_In, in_map_iff. exists (name, (k, p)). split; [done|]. apply filter_In. split.
      * by apply list_elem_of_In, elem_of_map_to_list.
      * simpl. apply String.eqb_eq. done.
Qed.

(** ** Histories *)

(** The states of a server since it last started, newest first, and the one
    it is in: each request commits to the newest state what it planned from
    states it read at any time since. *)
Inductive history : list LearnState -> LearnState -> Prop :=
| history_init : history [] learn_init
| history_create past s c run answer fault read :
    history past s -> read ∈ s :: past ->
    history (s :: past) (create_candidate f64_text f64_debug tenant c run answer fault read s).2
| history_evaluate past s id ev rq run answer fault read :
    history past s -> read ∈ s :: past ->
    history (s :: past)
      (settle_request tenant (evaluate_plan f64_text f64_debug tenant id ev rq read) run answer fault s).2
| history_promote past s id token tag now run answer fault read read' :
    history past s -> read ∈ s :: past -> read' ∈ s :: past ->
    history (s :: past)
      (settle_request tenant (promote_plan f64_text f64_debug tenant envelope id token tag now read read')
         run answer fault s).2
| history_rollback past s id cause tag now run answer fault read read' :
    history past s -> read ∈ s :: past -> read' ∈ s :: past ->
    history (s :: past)
      (settle_request tenant (rollback_plan f64_text f64_debug tenant id cause tag now read read')
         run answer fault s).2
| history_restart past s : history past s -> history [] (restart s).

Lemma earlier_refl s : Inv s -> earlier s (ls_candidates s).
Proof. by split. Qed.

Lemma history_inv past s :
  history past s -> Inv s /\ Forall (fun s0 => earlier s0 (ls_candidates s)) past.
Proof.
  assert (Hstep : forall past s s', Inv s -> Forall (fun s0 => earlier s0 (ls_candidates s)) past ->
    Inv s' /\ extends (ls_candidates s) (ls_candidates s') ->
    Inv s' /\ Forall (fun s0 => earlier s0 (ls_candidates s')) (s :: past)).
  { clear. intros past s s' Hi Hall [Hi' He]. split; [done|]. constructor; [by split|].
    eapply Forall_impl; [exact Hall|]. intros s0 [H0 He0]. split; [done|]. by trans (ls_candidates s). }
  assert (Hread : forall past s read, Inv s -> Forall (fun s0 => earlier s0 (ls_candidates s)) past ->
    read ∈ s :: past -> earlier read (ls_candidates s)).
  { clear. intros past s read Hi Hall [->|Hin]%elem_of_cons; [by apply earlier_refl|].
    rewrite Forall_forall in Hall. auto. }
  induction 1 as [|past s c run answer fault read Hh [Hi Hall] Hr|past s id ev rq run answer fault read Hh [Hi Hall] Hr
    |past s id token tag now run answer fault read read' Hh [Hi Hall] Hr Hr'
    |past s id cause tag now run answer fault read read' Hh [Hi Hall] Hr Hr'|past s Hh [Hi Hall]].
  - split; [apply init_inv|constructor].
  - apply Hstep; [done..|]. by apply create_inv.
  - apply Hstep; [done..|]. apply settle_inv; [done|]. intros c Hc.
    eapply evaluate_commit_ok; [|exact Hc]. by eapply Hread.
  - apply Hstep; [done..|]. apply settle_inv; [done|]. intros c Hc.
    eapply promote_commit_ok; [by apply inv_candidates|by eapply (Hread _ _ read)|by eapply (Hread _ _ read')|exact Hc].
  - apply Hstep; [done..|]. apply settle_inv; [done|]. intros c Hc.
    eapply rollback_commit_ok; [by apply inv_candidates|by apply inv_previous
      |by eapply (Hread _ _ read)|by eapply (Hread _ _ read')|exact Hc].
  - split; [by apply restart_inv|constructor].
Qed.


(** C39: records only move forward. Between any two states of one server run,
    with requests overlapping freely in between and writes failing, every
    candidate record of the earlier state is still there with the same
    candidate and no earlier status; a promoted one keeps its evaluation and
    its promotion receipt for good, and a rolled-back one never changes
    again. *)
Theorem lifecycle_forward past s s0 (id : CandidateId) r :
  history past s -> s0 ∈ past -> get_candidate tenant id s0 = Some r ->
  exists r', get_candidate tenant id s = Some r'
    /\ cr_candidate r' = cr_candidate r
    /\ (rank (cr_status r) <= rank (cr_status r'))%nat
    /\ (cr_status r = StatusPromoted ->
        cr_evaluation r' = cr_evaluation r /\ cr_promotion r' = cr_promotion r)
    /\ (cr_status r = StatusRolledBack -> r' = r).
Proof.
  intros [Hi Hall]%history_inv Hin Hr. rewrite Forall_forall in Hall. destruct (Hall s0 Hin) as [_ He].
  destruct (He _ _ Hr) as (r' & Hr' & Hc & Hrank & Hkeep & Hfinal). exists r'.
  split_and!; [done|done|done| |]; intros Hst; rewrite Hst in *; [apply Hkeep|apply Hfinal]; simpl; lia.
Qed.
End Facts.

(** ** Surfaces as stacks

    The abstract contract of promotion and rollback: a surface is a stack of
    promoted candidates and at most one canary; a full promotion pushes and
    ends the canary, a rollback of what serves pops, a canary promotion and
    its rollback bind and unbind. Requests that do not overlap refine it,
    whatever the journal seam answers and whichever writes fail. *)

(** ** The abstract surfaces *)

Record Slots : Type := mkSlots { sl_stack : list CandidateId; sl_canary : option CanaryBinding }.

Abbreviation Surfaces := (gmap string Slots).

Definition slots_of (a : Surfaces) (S : SurfaceKey) : Slots := default (mkSlots [] None) (a !! S).

(** What a request answered, as far as surfaces are concerned. *)
Inductive Outcome : Type :=
| DidNothing
| DidPromote (p : PromotionReceipt)
| DidRollback (b : RollbackReceipt).

Definition push_slots (p : PromotionReceipt) (sl : Slots) : Slots :=
  match pd_canary (pr_decision p) with
  | Some b => mkSlots (sl_stack sl) (Some b)
  | None => mkSlots (pr_candidate_id p :: sl_stack sl) None
  end.

Definition pop_slots (b : RollbackReceipt) (sl : Slots) : Slots :=
  mkSlots
    (match sl_stack sl with
     | id :: rest => if String.eqb id (rr_from b) then rest else id :: rest
     | [] => []
     end)
    (match sl_canary sl with
     | Some c => if String.eqb (cy_candidate_id c) (rr_from b) then None else Some c
     | None => None
     end).

Definition abs_step (a : Surfaces) (o : Outcome) : Surfaces :=
  match o with
  | DidNothing => a
  | DidPromote p => <[pr_surface p := push_slots p (slots_of a (pr_surface p))]> a
  | DidRollback b => <[rr_surface b := pop_slots b (slots_of a (rr_surface b))]> a
  end.

(** ** Requests one after the other *)

Inductive Call : Type :=
| CallCreate (c : Candidate)
| CallEvaluate (id : string)
    (evaluator : option (Candidate -> EvaluationRequest -> res CandidateEvaluation))
    (request : EvaluationRequest)
| CallPromote (id : string) (approval : option ApprovalToken) (tag : option EnvironmentTag) (now : DateTime)
| CallRollback (id cause : string) (tag : option EnvironmentTag) (now : DateTime).

Section Stacks.
Context `{Codec} (f64_text f64_debug : spec_float -> string).
Context (tenant : string) (envelope : PromotionEnvelope).
Abbreviation key := (scope_id tenant).
Implicit Types (m : gmap string CandidateRecord) (r : CandidateRecord) (s : LearnState) (a : Surfaces).

Definition receipt_outcome (r : result ApiError Commitment) (f : CandidateRecord -> Outcome) : Outcome :=
  match r with Ok c => f (cm_next c) | Err _ => DidNothing end.

Definition promote_outcome (next : CandidateRecord) : Outcome :=
  match cr_promotion next with Some p => DidPromote p | None => DidNothing end.
Definition rollback_outcome (next : CandidateRecord) : Outcome :=
  match cr_rollback next with Some b => DidRollback b | None => DidNothing end.

(** One request, with its run, the journal's answer and the failing write. *)
Definition run_call (call : Call) (run : string) (answer : result string unit) (fault : DiskFault) s :
    Outcome * LearnState :=
  match call with
  | CallCreate c =>
      (DidNothing, (create_candidate f64_text f64_debug tenant c run answer fault s s).2)
  | CallEvaluate id ev rq =>
      (DidNothing, (evaluate_candidate f64_text f64_debug tenant id ev rq run answer fault s).2)
  | CallPromote id token tag now =>
      let '(out, s') :=
        promote_candidate f64_text f64_debug tenant envelope id token tag now run answer fault s in
      (receipt_outcome out promote_outcome, s')
  | CallRollback id cause tag now =>
      let '(out, s') :=
        rollback_candidate f64_text f64_debug tenant id cause tag now run answer fault s in
      (receipt_outcome out rollback_outcome, s')
  end.

Fixpoint run_calls (calls : list (Call * string * result string unit * DiskFault)) s a :
    LearnState * Surfaces :=
  match calls with
  | [] => (s, a)
  | (call, run, answer, fault) :: rest =>
      let '(o, s') := run_call call run answer fault s in run_calls rest s' (abs_step a o)
  end.

(** ** The simulation relation *)

(** A candidate that serves, with what its promotion recorded. *)
Definition stands m (S : SurfaceKey) (slot : option CanaryBinding) (previous : option (option CandidateId))
    (id : CandidateId) : Prop :=
  exists r p, m !! key id = Some r /\ cr_status r = StatusPromoted /\ cr_promotion r = Some p
    /\ pr_surface p = S /\ pd_canary (pr_decision p) = slot
    /\ (forall q, previous = Some q -> pr_previous p = q).

(** Each member of the stack displaced the next one. *)
Fixpoint chain m (S : SurfaceKey) (stack : list CandidateId) : Prop :=
  match stack with
  | [] => True
  | id :: rest => stands m S None (Some (head rest)) id /\ (id ∉ rest) /\ chain m S rest
  end.

Definition pointer_slots s (S : SurfaceKey) : option CandidateId * option CanaryBinding :=
  match get_version_pointer tenant S s with Some p => (vp_active p, vp_canary p) | None => (None, None) end.

Definition simulates s a : Prop :=
  forall S, pointer_slots s S = (head (sl_stack (slots_of a S)), sl_canary (slots_of a S))
    /\ chain (ls_candidates s) S (sl_stack (slots_of a S))
    /\ (forall b, sl_canary (slots_of a S) = Some b ->
          stands (ls_candidates s) S (Some b) None (cy_candidate_id b)).

(** Records that stand are not touched by writing another record. *)
Lemma stands_insert m k next S slot prev id :
  (forall r, m !! k = Some r -> cr_status r = StatusPromoted ->
     forall p, cr_promotion r = Some p -> pr_surface p = S -> pd_canary (pr_decision p) = slot -> k <> key id) ->
  stands m S slot prev id -> stands (<[k := next]> m) S slot prev id.
Proof.
  intros Hne (r & p & Hr & Hst & Hp & Hs & Hc & Hq). exists r, p. split_and!; try done.
  rewrite lookup_insert_ne; [done|]. intros ->. by eapply Hne.
Qed.

Lemma chain_insert m k next S stack :
  (forall id, id ∈ stack -> k <> key id) -> chain m S stack -> chain (<[k := next]> m) S stack.
Proof.
  induction stack as [|id rest IH]; [done|]. intros Hne (Hs & Hni & Hc). split_and!; [|done|].
  - eapply stands_insert; [|done]. intros. apply Hne. by left.
  - apply IH; [|done]. intros id' Hin. apply Hne. by right.
Qed.

Lemma chain_stands m S stack id : chain m S stack -> id ∈ stack -> stands m S None None id.
Proof.
  induction stack as [|x rest IH]; [by intros _ ?%not_elem_of_nil|].
  intros ((r & p & ? & ? & ? & ? & ? & _) & _ & Hc) [->|Hin]%elem_of_cons; [|by apply IH].
  exists r, p. by split_and!.
Qed.

Lemma chain_NoDup m S stack : chain m S stack -> NoDup stack.
Proof. induction stack as [|id rest IH]; [constructor|]. intros (_ & Hni & Hc). constructor; auto. Qed.

(** ** What a settled request did *)

Lemma settle_ok plan run answer fault s s' c :
  settle_request tenant plan run answer fault s = (Ok c, s') ->
  plan = Ok c /\ exists current, ls_candidates s !! key (cm_candidate_id c) = Some current
    /\ cr_status current = cm_expect c
    /\ ls_candidates s' = <[key (cm_candidate_id c) := cm_next c]> (ls_candidates s)
    /\ ls_versions s' = match cm_pointer c with
                        | Some p => <[key (vp_surface p) := p]> (ls_versions s)
                        | None => ls_versions s
                        end.
Proof.
  unfold settle_request, commit, journal_event, transition_candidate. destruct plan as [c0|]; [|done].
  destruct answer as [u|e]; [|done]. simpl.
  destruct (ls_candidates s !! key (cm_candidate_id c0)) as [current|] eqn:Hk; [|done].
  case_bool_decide as Hst; [|done].
  destruct fault, (cm_pointer c0) eqn:Hp; simpl; intros [= <- <-]; simpl; rewrite Hp;
    (split; [done|]; exists current; by split_and!).
Qed.

Lemma settle_err plan run answer fault s s' e :
  settle_request tenant plan run answer fault s = (Err e, s') ->
  ls_candidates s' = ls_candidates s /\ ls_versions s' = ls_versions s.
Proof.
  unfold settle_request, commit, journal_event, transition_candidate. destruct plan as [c|]; [|by intros [= _ <-]].
  destruct answer as [u|e']; [|by intros [= _ <-]]. simpl.
  destruct (ls_candidates s !! key (cm_candidate_id c)) as [current|]; [|by intros [= _ <-]].
  case_bool_decide; [|by intros [= _ <-]].
  destruct fault, (cm_pointer c); simpl; by intros [= _ <-].
Qed.

Lemma simulates_same s s' a :
  ls_candidates s' = ls_candidates s -> ls_versions s' = ls_versions s -> simulates s a -> simulates s' a.
Proof.
  intros Hc Hv Hs S. destruct (Hs S) as (H1 & H2 & H3). unfold pointer_slots, get_version_pointer in *.
  rewrite Hc, Hv. done.
Qed.

(** A record that is not promoted is written: no surface notices. *)
Lemma simulates_write s s' a k next :
  ls_candidates s' = <[k := next]> (ls_candidates s) -> ls_versions s' = ls_versions s ->
  (forall r, ls_candidates s !! k = Some r -> cr_status r <> StatusPromoted) ->
  simulates s a -> simulates s' a.
Proof.
  intros Hc Hv Hk Hs S. destruct (Hs S) as (H1 & H2 & H3). unfold pointer_slots, get_version_pointer in *.
  rewrite Hc, Hv. split_and!; [done| |].
  - apply chain_insert; [|done]. intros id Hin ->.
    destruct (chain_stands _ _ _ _ H2 Hin) as (r & p & Hr & Hst & _). by eapply Hk.
  - intros b Hb. eapply stands_insert; [|by apply H3]. intros r Hr Hst. by destruct (Hk r Hr).
Qed.

(** ** The simulation *)

Lemma slots_insert a (S S' : string) sl : slots_of (<[S := sl]> a) S' = if decide (S = S') then sl else slots_of a S'.
Proof.
  unfold slots_of. destruct (decide (S = S')) as [->|Hne]; [by rewrite lookup_insert_eq|].
  by rewrite lookup_insert_ne.
Qed.

Lemma pointer_slots_insert s s' (S S' : string) p :
  ls_versions s' = <[key S := p]> (ls_versions s) ->
  pointer_slots s' S' = if decide (S = S') then (vp_active p, vp_canary p) else pointer_slots s S'.
Proof.
  intros Hv. unfold pointer_slots, get_version_pointer. rewrite Hv.
  destruct (decide (S = S')) as [->|Hne]; [by rewrite lookup_insert_eq|].
  rewrite lookup_insert_ne; [done|]. by intros ?%scope_id_inj.
Qed.

(** The pointer a request reads. *)
Lemma pointer_default s S :
  Inv tenant envelope s ->
  let p := default (pointer_new S) (get_version_pointer tenant S s) in
  vp_surface p = S /\ (vp_active p, vp_canary p) = pointer_slots s S.
Proof.
  intros Hi. unfold pointer_slots. destruct (get_version_pointer tenant S s) as [p|] eqn:Hp; [|done].
  simpl. split; [|done]. destruct (inv_versions _ _ _ Hi _ _ Hp) as [Hk _]. symmetry.
  by eapply scope_id_inj.
Qed.

(** The record of a standing candidate tells which surface and slot. *)
Lemma stands_record m S slot prev id r p :
  stands m S slot prev id -> m !! key id = Some r -> cr_promotion r = Some p ->
  pr_surface p = S /\ pd_canary (pr_decision p) = slot /\ (forall q, prev = Some q -> pr_previous p = q).
Proof.
  intros (r' & p' & Hr' & _ & Hp' & Hs & Hc & Hq) Hr Hp. rewrite Hr in Hr'. injection Hr' as <-.
  rewrite Hp in Hp'. injection Hp' as <-. by split_and!.
Qed.

Lemma stands_promoted m S slot prev id r :
  stands m S slot prev id -> m !! key id = Some r -> cr_status r = StatusPromoted.
Proof. intros (r' & p' & Hr' & Hst & _) Hr. rewrite Hr in Hr'. by injection Hr' as <-. Qed.

Lemma promote_simulates s s' a id token tag now run answer fault out :
  Inv tenant envelope s -> simulates s a ->
  promote_candidate f64_text f64_debug tenant envelope id token tag now run answer fault s = (out, s') ->
  simulates s' (abs_step a (receipt_outcome out promote_outcome)).
Proof.
  intros Hi Hs Hset. unfold promote_candidate in Hset. destruct out as [c|e].
  2:{ apply settle_err in Hset as [? ?]. by eapply simulates_same. }
  apply settle_ok in Hset as (Hplan & current & Hcur & Hst & Hc & Hv).
  apply promote_plan_inv in Hplan as (r & d & draft & Hr & Hev & Hd & ->).
  simpl in Hcur, Hst, Hc, Hv |- *. set (S0 := target_surface (cr_candidate r) tag) in *.
  destruct (pointer_default s S0 Hi) as [Hsurf Hslots]. set (receipt := promotion_of tenant r S0 d now s) in *.
  set (ptr := default (pointer_new S0) (get_version_pointer tenant S0 s)) in *.
  destruct (inv_candidates _ _ _ Hi _ _ Hr) as [Hk _]. apply scope_id_inj in Hk as Hid.
  unfold get_candidate in Hr. rewrite Hr in Hcur. injection Hcur as <-.
  assert (Hps : vp_surface (promoted ptr receipt) = S0)
    by (unfold promoted; by destruct (pd_canary (pr_decision receipt))).
  rewrite Hps in Hv. set (next := mkCandidateRecord _ _ _ _ _) in Hc.
  destruct (Hs S0) as (Hp0 & Hch0 & Hcan0). rewrite Hp0 in Hslots. injection Hslots as Hact Hcan.
  assert (Hfresh : forall S slot prev id', stands (ls_candidates s) S slot prev id' -> key id <> key id').
  { intros S slot prev id' Hsd Heq%scope_id_inj. subst id'.
    pose proof (stands_promoted _ _ _ _ _ _ Hsd Hr). congruence. }
  assert (Hchain : forall S, chain (ls_candidates s') S (sl_stack (slots_of a S))).
  { intros S. rewrite Hc. apply chain_insert; [|by apply Hs]. intros id' Hin.
    eapply Hfresh, chain_stands; [by apply Hs|done]. }
  assert (Hself : stands (ls_candidates s') S0 (pd_canary d) (Some (vp_active ptr)) id).
  { exists next, receipt. rewrite Hc, lookup_insert_eq. split_and!; try done. by intros q [= <-]. }
  intros S. rewrite (pointer_slots_insert s s' S0 S _ Hv), slots_insert. simpl.
  case_decide as Hne; [subst S|].
  2:{ destruct (Hs S) as (H1 & _ & H3). split_and!; [done|apply Hchain|]. intros b Hb. rewrite Hc.
      eapply stands_insert; [|by apply H3]. intros _ _ _ _ _ _ _. by eapply Hfresh, H3. }
  unfold promoted, push_slots. simpl. destruct (pd_canary d) as [b|] eqn:Hb; simpl.
  - split_and!; [by rewrite Hact|apply Hchain|]. intros b' [= <-].
    pose proof (admitted_canary _ _ _ _ _ _ Hd Hb) as Hcb.
    change (cd_candidate_id (cr_candidate r)) with (record_id r) in Hcb.
    rewrite Hcb, <- Hid. destruct Hself as (r1 & p1 & ? & ? & ? & ? & ? & _). by exists r1, p1.
  - change (pr_candidate_id receipt) with (record_id r). rewrite <- Hid.
    split_and!; [done| | |apply Hchain|done]; [by rewrite <- Hact|].
    intros Hin. exact (Hfresh _ _ _ _ (chain_stands _ _ _ _ Hch0 Hin) eq_refl).
Qed.

(** What a rollback writes away: a candidate that stands on its surface, on
    top of the stack or in the canary slot. *)
Lemma served_stands s a S ptr id :
  simulates s a -> (vp_active ptr, vp_canary ptr) = pointer_slots s S ->
  serves_active ptr id || serves_canary ptr id = true ->
  (exists rest, sl_stack (slots_of a S) = id :: rest)
  \/ (exists b, sl_canary (slots_of a S) = Some b /\ cy_candidate_id b = id).
Proof.
  intros Hs Hslots Hserve. destruct (Hs S) as (Hp & _). rewrite Hp in Hslots. injection Hslots as Ha Hc.
  unfold serves_active, serves_canary in Hserve. rewrite Ha, Hc in Hserve.
  apply orb_true_iff in Hserve as [Hx%bool_decide_eq_true|Hx].
  - left. destruct (sl_stack (slots_of a S)) as [|x rest]; [done|]. injection Hx as ->. by exists rest.
  - right. destruct (sl_canary (slots_of a S)) as [b|]; [|done]. exists b. split; [done|].
    by apply String.eqb_eq.
Qed.

Lemma rollback_simulates s s' a id cause tag now run answer fault out :
  Inv tenant envelope s -> simulates s a ->
  rollback_candidate f64_text f64_debug tenant id cause tag now run answer fault s = (out, s') ->
  simulates s' (abs_step a (receipt_outcome out rollback_outcome)).
Proof.
  intros Hi Hs Hset. unfold rollback_candidate in Hset. destruct out as [c|e].
  2:{ apply settle_err in Hset as [? ?]. by eapply simulates_same. }
  apply settle_ok in Hset as (Hplan & current & Hcur & Hst & Hc & Hv).
  apply rollback_plan_inv in Hplan as (r & ptr & draft & Hr & Hpr & Hptr & Hserve & ->).
  simpl in Hcur, Hst, Hc, Hv |- *. set (S0 := target_surface (cr_candidate r) tag) in *.
  destruct (pointer_default s S0 Hi) as [Hsurf Hslots]. rewrite Hptr in Hsurf, Hslots.
  simpl in Hsurf, Hslots. set (receipt := rollback_of r S0 ptr cause now) in *.
  destruct (inv_candidates _ _ _ Hi _ _ Hr) as [Hk Hok]. apply scope_id_inj in Hk as Hid.
  unfold get_candidate in Hr. rewrite Hr in Hcur. injection Hcur as <-. rewrite <- Hid in Hserve.
  destruct Hok as [_ Hok]. rewrite Hpr in Hok. destruct Hok as [(p & Hp & _) _]. rewrite Hsurf in Hv.
  assert (Hwrite : forall S slot prev id', stands (ls_candidates s) S slot prev id' ->
    (S <> S0 \/ slot <> pd_canary (pr_decision p) \/ id' <> id) ->
    key id <> key id' /\ stands (ls_candidates s') S slot prev id').
  { intros S slot prev id' Hsd Hor. assert (key id <> key id') as Hne.
    { intros Heq%scope_id_inj. subst id'. destruct (stands_record _ _ _ _ _ _ _ Hsd Hr Hp) as (? & ? & _).
      destruct (served_stands s a S0 ptr id Hs Hslots Hserve) as [[rest Hst0]|(b & Hb & Hbid)].
      - destruct (Hs S0) as (_ & Hch & _). rewrite Hst0 in Hch. destruct Hch as [Htop _].
        destruct (stands_record _ _ _ _ _ _ _ Htop Hr Hp) as (? & ? & _). naive_solver.
      - destruct (Hs S0) as (_ & _ & Hcan). specialize (Hcan b Hb). rewrite Hbid in Hcan.
        destruct (stands_record _ _ _ _ _ _ _ Hcan Hr Hp) as (? & ? & _). naive_solver. }
    split; [done|]. rewrite Hc. eapply stands_insert; [|done]. by intros. }
  assert (Hrest : forall S stack, chain (ls_candidates s) S stack ->
    (S <> S0 \/ pd_canary (pr_decision p) <> None \/ id ∉ stack) -> chain (ls_candidates s') S stack).
  { intros S stack Hch Hor. rewrite Hc. apply chain_insert; [|done]. intros id' Hin.
    apply (Hwrite S None None id'); [by eapply chain_stands|]. destruct Hor as [?|[?|Hni]]; [auto|auto|].
    right. right. by intros ->. }
  intros S. rewrite (pointer_slots_insert s s' S0 S _ Hv), slots_insert. simpl.
  case_decide as Hne; [subst S|].
  2:{ destruct (Hs S) as (H1 & H2 & H3). split_and!; [done|apply Hrest; auto|].
      intros b Hb. apply Hwrite; [by apply H3|auto]. }
  destruct (Hs S0) as (Hp0 & Hch0 & Hcan0). rewrite Hp0 in Hslots. injection Hslots as Hact Hcan.
  unfold pop_slots. change (rr_from receipt) with (record_id r). rewrite <- Hid.
  unfold serves_active, serves_canary. rewrite Hact, Hcan. split_and!.
  - f_equal; [|by destruct (sl_canary _) as [b|]; [destruct (String.eqb _ _)|]].
    unfold receipt, rollback_of. simpl. rewrite Hp.
    destruct (sl_stack (slots_of a S0)) as [|top rest]; simpl; [done|].
    destruct (String.eqb_spec top id) as [->|Hne]; [|by rewrite bool_decide_eq_false_2 by congruence].
    rewrite bool_decide_eq_true_2 by done. destruct Hch0 as [Htop _]. simpl.
    destruct (stands_record _ _ _ _ _ _ _ Htop Hr Hp) as (_ & _ & Hq). by apply Hq.
  - simpl. destruct (sl_stack (slots_of a S0)) as [|top rest] eqn:Hstk; [done|].
    destruct (String.eqb_spec top id) as [->|Hne].
    + destruct Hch0 as (_ & Hni & Hch). apply Hrest; auto.
    + apply Hrest; [done|]. right. left.
      destruct (served_stands s a S0 ptr id Hs ltac:(by rewrite Hp0, Hact, Hcan) Hserve)
        as [[rest' Hst0]|(b & Hb & Hbid)]; [congruence|].
      specialize (Hcan0 b Hb). rewrite Hbid in Hcan0.
      destruct (stands_record _ _ _ _ _ _ _ Hcan0 Hr Hp) as (_ & -> & _). done.
  - simpl. intros b. destruct (sl_canary (slots_of a S0)) as [b0|]; [|done].
    destruct (String.eqb_spec (cy_candidate_id b0) id) as [|Hne]; [done|]. intros [= <-].
    apply Hwrite; [by apply Hcan0|auto].
Qed.

Lemma run_call_simulates call run answer fault s a :
  Inv tenant envelope s -> simulates s a ->
  let '(o, s') := run_call call run answer fault s in
  Inv tenant envelope s' /\ simulates s' (abs_step a o).
Proof.
  intros Hi Hs. pose proof (earlier_refl tenant envelope s Hi) as He. destruct call; simpl.
  - split; [by apply create_inv|]. unfold create_candidate.
    destruct (learn_result _ _ (verify_address c)); [|done].
    destruct (get_candidate tenant (cd_candidate_id c) s) eqn:Hg; [done|].
    destruct answer as [u|e]; [|done]. simpl. unfold put_candidate. simpl.
    unfold get_candidate in Hg. change (record_id (candidate_record_new c)) with (cd_candidate_id c).
    rewrite Hg.
    destruct fault; [|done|]; (eapply simulates_write; [done|done| |done]); intros r Hr; by rewrite Hg in Hr.
  - split.
    + apply settle_inv; [done|]. intros c Hc. by eapply evaluate_commit_ok.
    + unfold evaluate_candidate. destruct (settle_request _ _ _ _ _ _) as [[c|e] s'] eqn:Hset.
      2:{ apply settle_err in Hset as [? ?]. by eapply simulates_same. }
      apply settle_ok in Hset as (Hplan & current & Hcur & Hst & Hc & Hv).
      apply evaluate_plan_inv in Hplan as (r & e & d & _ & _ & Hrank & ->). simpl in *.
      eapply simulates_write; [exact Hc|exact Hv| |done].
      intros r' Hr. rewrite Hcur in Hr. injection Hr as <-. rewrite Hst. by destruct (cr_status r); simpl in Hrank; [..|lia|lia].
  - destruct (promote_candidate _ _ _ _ _ _ _ _ _ _ _ _) as [out s'] eqn:Hset. split.
    + pose proof (settle_inv tenant envelope s (promote_plan f64_text f64_debug tenant envelope id
        approval tag now s s) run answer fault Hi) as Hinv. unfold promote_candidate in Hset.
      rewrite Hset in Hinv. apply Hinv. intros c Hc.
      eapply promote_commit_ok; [by apply inv_candidates|done|done|exact Hc].
    + by eapply promote_simulates.
  - destruct (rollback_candidate _ _ _ _ _ _ _ _ _ _ _) as [out s'] eqn:Hset. split.
    + pose proof (settle_inv tenant envelope s (rollback_plan f64_text f64_debug tenant id
        cause tag now s s) run answer fault Hi) as Hinv. unfold rollback_candidate in Hset.
      rewrite Hset in Hinv. apply Hinv. intros c Hc.
      eapply (rollback_commit_ok f64_text f64_debug tenant envelope);
        [by apply inv_candidates|by apply (inv_previous tenant envelope)|done|done|exact Hc].
    + by eapply rollback_simulates.
Qed.

Lemma run_calls_simulates calls s a :
  Inv tenant envelope s -> simulates s a ->
  simulates (run_calls calls s a).1 (run_calls calls s a).2.
Proof.
  revert s a. induction calls as [|[[[call run] answer] fault] calls IH]; intros s a Hi Hs; [done|].
  simpl. pose proof (run_call_simulates call run answer fault s a Hi Hs) as Hstep.
  destruct (run_call call run answer fault s) as [o s']. destruct Hstep. by apply IH.
Qed.

(** C15: a surface is a stack. After any sequence of requests that do not
    overlap, whatever the journal seam answered and whichever writes failed,
    the version pointer of every surface is what the receipts spell: its
    active slot is the top of the stack in which each full promotion pushed
    its candidate and each rollback of the serving one popped it, its canary
    slot the binding last declared and not since cleared. So a rollback
    re-points the surface to exactly what its promotion displaced. Every
    candidate on the stack occurs once and is on record as promoted, fully,
    on that surface. *)
Theorem surfaces_are_stacks calls (S : SurfaceKey) :
  let '(s, a) := run_calls calls learn_init ∅ in
  let sl := slots_of a S in
  pointer_slots s S = (head (sl_stack sl), sl_canary sl)
  /\ NoDup (sl_stack sl)
  /\ forall id, id ∈ sl_stack sl ->
       exists r p, get_candidate tenant id s = Some r /\ cr_status r = StatusPromoted
         /\ cr_promotion r = Some p /\ pr_surface p = S /\ pd_canary (pr_decision p) = None.
Proof.
  pose proof (run_calls_simulates calls learn_init ∅ (init_inv tenant envelope)) as Hsim.
  destruct (run_calls calls learn_init ∅) as [s a]. simpl in Hsim.
  destruct (Hsim) with (S := S) as (H1 & H2 & H3).
  { intros S'. unfold pointer_slots, get_version_pointer, slots_of. simpl. by rewrite !lookup_empty. }
  split_and!; [done|by eapply chain_NoDup|]. intros id Hin.
  destruct (chain_stands _ _ _ _ H2 Hin) as (r & p & ? & ? & ? & ? & ? & _). exists r, p. by split_and!.
Qed.
End Stacks.
