(* ===== verification/LearnExamples.v ===== *)
(** * The learning plane on concrete inputs

    Witnesses of the theorems on the gate, the overlay, the routes and the
    stacks, and the corners the source's comments do not mention: a memory
    set whose records leave its declared scope, an approval that serves every
    environment, a canary that cannot graduate, requests that overlap, a
    restart after a half-written transition. *)

From Stdlib Require Import String Ascii Floats.SpecFloat.
From S2P Require Import Prelude Containers Json Error Record SampleCodec Meter Journal Durable Effects Text Memory MemoryStore Learn LearnFacts Registry LearnRoutes LearnRoutesFacts.
Local Open Scope string_scope.

Module LearnExamples.
Import Sample.

Definition shown (_ : spec_float) : string := "x".
#[local] Existing Instance ascii_tables.

(** ** Candidates and evidence *)

Definition author : ProvenanceAuthor := ByDistiller "night".
Definition made (c : CandidateContent) : Candidate :=
  mkCandidate (default EmptyString (derive_candidate_id c)) c author (mkSpan [] [] []) 0.

Definition note (id : string) (scope : MemoryScope) : MemoryRecord :=
  mkMemory id KindFact (mkScope scope "t1") None [] 0 (mkProvenance author no_evidence 0)
    (FFinite false 1 (-1)) (window_starting 0) 0 None None None (Inline (Str "fact")) None.

(** A set at run scope, and one whose record is the tenant's. *)
Definition run_set : Candidate := made (CcMemorySet (mkScope ScopeRun "r1") [note "m1" ScopeRun] []).
Definition leaking_set : Candidate := made (CcMemorySet (mkScope ScopeRun "r1") [note "m2" ScopeTenant] ["m1"]).
Definition prompt_a : Candidate := made (CcPrompt "system" "be brief").
Definition prompt_b : Candidate := made (CcPrompt "system" "be thorough").

Definition half : spec_float := f64_div (f64_of_N 1) (f64_of_N 2).

Definition improved (c : Candidate) : CandidateEvaluation :=
  mkEvaluation (cd_candidate_id c) "v1" (mkReplaySummary ["run-1"] 1 []) Null Null
    (mkVerdict false "run_pass_rate" (Some f64_zero) (Some half) (Some half))
    (mkThresholds half half) author 0.

Definition approved (c : Candidate) : option ApprovalToken :=
  Some (approve (promotion_effect_id c) "ops").

(** ** Witnesses of the gate *)


Lemma approval_serves_one_candidate_witness :
  cd_candidate_id prompt_a
  = cd_candidate_id (mkCandidate (cd_candidate_id prompt_a) (cd_content prompt_a) BySystem (mkSpan ["r9"] [] []) 7).
Proof.
  apply (approval_serves_one_candidate (approve (promotion_effect_id prompt_a) "ops"));
    [vm_compute; reflexivity..| |vm_compute; reflexivity|vm_compute; reflexivity].
  apply (bool_decide_unpack _). vm_compute. exact I.
Defined.

Lemma tag_roundtrip_witness : split_tag (tagged "prompt:system" "prod") = ("prompt:system", Some "prod").
Proof. apply (tag_roundtrip "prompt:system" "prod" "prod"); vm_compute; reflexivity. Defined.

Definition keep (x _ : spec_float) : spec_float := x.
Definition base_map : MemoryMap := [("m1", note "m1" ScopeRun)].
Definition lens : CandidateOverlay MemoryMap :=
  mkCandidateOverlay (in_memory_store keep) [note "m2" ScopeTenant] ["m1"].

Lemma overlay_is_a_lens_witness :
  ms_all (overlay_store keep lens) base_map = (Ok [note "m1" ScopeRun; note "m2" ScopeTenant], base_map).
Proof.
  apply (overlay_is_a_lens keep lens base_map base_map [note "m1" ScopeRun] any_memory 0).
  vm_compute. reflexivity.
Defined.

(** ** The routes on one tenant *)

Definition tenant : string := "default".
Definition evaluator : option (Candidate -> EvaluationRequest -> res CandidateEvaluation) :=
  Some (fun c _ => Ok (improved c)).
Definition request : EvaluationRequest := mkEvaluationRequest "v1" "run_pass_rate" (mkThresholds half half) [].

Definition creating (c : Candidate) : Call * string * result string unit * DiskFault :=
  (CallCreate c, "run", Ok (), NoFault).
Definition evaluating (c : Candidate) : Call * string * result string unit * DiskFault :=
  (CallEvaluate (cd_candidate_id c) evaluator request, "run", Ok (), NoFault).
Definition promoting (c : Candidate) : Call * string * result string unit * DiskFault :=
  (CallPromote (cd_candidate_id c) (approved c) None 1, "run", Ok (), NoFault).
Definition rolling (c : Candidate) : Call * string * result string unit * DiskFault :=
  (CallRollback (cd_candidate_id c) "drift" None 2, "run", Ok (), NoFault).

Definition after (calls : list (Call * string * result string unit * DiskFault)) : LearnState :=
  (run_calls shown shown tenant r08_default calls learn_init ∅).1.

Definition serving (s : LearnState) (surface : string) : option CandidateId :=
  get_version_pointer tenant surface s ≫= vp_active.
Definition status_of (s : LearnState) (c : Candidate) : option CandidateStatus :=
  cr_status <$> get_candidate tenant (cd_candidate_id c) s.

(** Two promotions and one rollback: the first serves again. *)
Example rollback_pops :
  serving (after [creating prompt_a; creating prompt_b; evaluating prompt_a; evaluating prompt_b;
                  promoting prompt_a; promoting prompt_b; rolling prompt_b]) "prompt:system"
  = Some (cd_candidate_id prompt_a).
Proof. vm_compute. reflexivity. Qed.

(** One candidate's way to the active slot, as a history. *)
Definition s1 : LearnState := (create_candidate shown shown tenant run_set "run" (Ok ()) NoFault learn_init learn_init).2.
Definition s2 : LearnState :=
  (settle_request tenant (evaluate_plan shown shown tenant (cd_candidate_id run_set) evaluator request s1) "run" (Ok ()) NoFault s1).2.
Definition s3 : LearnState :=
  (settle_request tenant (promote_plan shown shown tenant r08_default (cd_candidate_id run_set) None None 1 s2 s2)
     "run" (Ok ()) NoFault s2).2.

Lemma history_s3 : history shown shown tenant r08_default [s2; s1; learn_init] s3.
Proof.
  exact (history_promote shown shown tenant r08_default [s1; learn_init] s2 (cd_candidate_id run_set) None None 1
    "run" (Ok ()) NoFault s2 s2
    (history_evaluate shown shown tenant r08_default [learn_init] s1 (cd_candidate_id run_set) evaluator request
      "run" (Ok ()) NoFault s1
      (history_create shown shown tenant r08_default [] learn_init run_set "run" (Ok ()) NoFault learn_init
        (history_init shown shown tenant r08_default) (list_elem_of_here _ _)) (list_elem_of_here _ _))
    (list_elem_of_here _ _) (list_elem_of_here _ _)).
Qed.


Lemma lifecycle_forward_witness :
  exists r', get_candidate tenant (cd_candidate_id run_set) s3 = Some r' /\ cr_candidate r' = run_set.
Proof.
  destruct (lifecycle_forward shown shown tenant r08_default _ s3 s1 (cd_candidate_id run_set)
              (candidate_record_new run_set) history_s3) as (r' & Hr' & Hc & _);
    [right; left|vm_compute; reflexivity|]. exists r'. split; [exact Hr'|exact Hc].
Defined.

(** ** Where the comments and the code part *)

(** The gate reads the declared scope only: a set declared at run scope
    auto-promotes under the default envelope with a record of the tenant, and
    its lens answers that record at the tenant's scope. *)
Theorem scope_bar_reads_the_declaration :
  admit_promotion r08_default leaking_set (Some (improved leaking_set)) None
  = Ok (mkDecision (AuthorityEnvelope "r0.8-default") None)
  /\ (ms_query (overlay_store keep lens)
        (mkQuery (Some (mkScope ScopeTenant "t1")) [] None [] None None false false None false false None None None)
        0 base_map).1 = Ok [note "m2" ScopeTenant].
Proof. split; vm_compute; reflexivity. Qed.

(** One approval promotes at every tag: the effect id it is scoped to names
    the untagged surface. *)
Definition ready : LearnState := after [creating prompt_a; evaluating prompt_a].

Definition target_of (plan : result ApiError Commitment) : option SurfaceKey :=
  match plan with Ok c => vp_surface <$> cm_pointer c | Err _ => None end.

Theorem approval_serves_every_tag :
  map (fun tag => target_of (promote_plan shown shown tenant r08_default (cd_candidate_id prompt_a)
                               (approved prompt_a) tag 1 ready ready)) [None; Some "staging"; Some "prod"]
  = [Some "prompt:system"; Some "prompt:system@staging"; Some "prompt:system@prod"].
Proof. vm_compute. reflexivity. Qed.

(** A promoted candidate is never promoted again: neither from a canary to
    full traffic, nor from one environment to the next; and creating the same
    content again answers the settled record. *)
Definition conflicts {A : Type} (r : result ApiError A) : bool :=
  match r with Err (ApiConflict _) => true | _ => false end.

Definition canary_envelope : PromotionEnvelope :=
  mkEnvelope "canary" RuleApproval RuleApproval (RuleCanary half (mkAuto None f64_zero []))
    RuleApproval RuleApproval RuleApproval RuleApproval RuleApproval.

Definition canaried : LearnState :=
  (run_calls shown shown tenant canary_envelope
     [creating run_set; evaluating run_set;
      (CallPromote (cd_candidate_id run_set) None None 1, "run", Ok (), NoFault)] learn_init ∅).1.

Theorem canary_never_graduates :
  (get_version_pointer tenant "memory:run:r1" canaried ≫= vp_canary)
    = Some (mkCanary (cd_candidate_id run_set) half)
  /\ conflicts (promote_plan shown shown tenant r08_default (cd_candidate_id run_set) None None 2 canaried canaried) = true
  /\ conflicts (promote_plan shown shown tenant r08_default (cd_candidate_id run_set) None (Some "prod") 2
                  canaried canaried) = true
  /\ match (create_candidate shown shown tenant run_set "run" (Ok ()) NoFault canaried canaried).1 with
     | Ok (created, r) => created = false /\ cr_status r = StatusPromoted
     | Err _ => False
     end.
Proof. split_and!; [vm_compute; reflexivity..|]. vm_compute. by split. Qed.

(** Two overlapping requests: [prompt_b]'s promotion reads the pointer, then
    [prompt_a] is rolled back, then the promotion commits. Rolling [prompt_b]
    back re-points the surface to the rolled-back [prompt_a]. *)
Definition active_a : LearnState :=
  after [creating prompt_a; creating prompt_b; evaluating prompt_a; evaluating prompt_b; promoting prompt_a].
Definition plan_b : result ApiError Commitment :=
  promote_plan shown shown tenant r08_default (cd_candidate_id prompt_b) (approved prompt_b) None 3 active_a active_a.
Definition rolled_a : LearnState :=
  (rollback_candidate shown shown tenant (cd_candidate_id prompt_a) "drift" None 4 "run" (Ok ()) NoFault active_a).2.
Definition overlapped : LearnState := (settle_request tenant plan_b "run" (Ok ()) NoFault rolled_a).2.
Definition back_again : LearnState :=
  (rollback_candidate shown shown tenant (cd_candidate_id prompt_b) "drift" None 5 "run" (Ok ()) NoFault overlapped).2.

Theorem overlap_serves_rolled_back :
  serving back_again "prompt:system" = Some (cd_candidate_id prompt_a)
  /\ status_of back_again prompt_a = Some StatusRolledBack.
Proof. split; vm_compute; reflexivity. Qed.

(** The same plan after another promotion committed: the later commit
    overwrites the pointer without noticing it. *)
Definition prompt_c : Candidate := made (CcPrompt "system" "be kind").
Definition both_ready : LearnState :=
  after [creating prompt_a; creating prompt_b; creating prompt_c; evaluating prompt_a; evaluating prompt_b;
         evaluating prompt_c; promoting prompt_a].
Definition plan_c : result ApiError Commitment :=
  promote_plan shown shown tenant r08_default (cd_candidate_id prompt_c) (approved prompt_c) None 3 both_ready both_ready.
Definition b_first : LearnState :=
  (promote_candidate shown shown tenant r08_default (cd_candidate_id prompt_b) (approved prompt_b) None 3 "run" (Ok ())
     NoFault both_ready).2.
Definition c_second : LearnState := (settle_request tenant plan_c "run" (Ok ()) NoFault b_first).2.
Definition c_back : LearnState :=
  (rollback_candidate shown shown tenant (cd_candidate_id prompt_c) "drift" None 5 "run" (Ok ()) NoFault c_second).2.

Theorem overlap_loses_promotion :
  serving b_first "prompt:system" = Some (cd_candidate_id prompt_b)
  /\ serving c_second "prompt:system" = Some (cd_candidate_id prompt_c)
  /\ serving c_back "prompt:system" = Some (cd_candidate_id prompt_a)
  /\ status_of c_back prompt_b = Some StatusPromoted
  /\ conflicts (rollback_plan shown shown tenant (cd_candidate_id prompt_b) "lost" None 6 c_back c_back) = true.
Proof. split_and!; vm_compute; reflexivity. Qed.

(** The version file's write fails after the candidate's: the request
    answers an error, and after a restart the candidate is promoted, serves
    nothing, and can be neither promoted nor rolled back. *)
Definition half_written : LearnState :=
  restart (promote_candidate shown shown tenant r08_default (cd_candidate_id prompt_a) (approved prompt_a) None 1
             "run" (Ok ()) (VersionFault "disk full") ready).2.

Theorem half_written_is_stuck :
  status_of half_written prompt_a = Some StatusPromoted
  /\ serving half_written "prompt:system" = None
  /\ conflicts (promote_plan shown shown tenant r08_default (cd_candidate_id prompt_a) (approved prompt_a) None 2
                  half_written half_written) = true
  /\ conflicts (rollback_plan shown shown tenant (cd_candidate_id prompt_a) "x" None 2
                  half_written half_written) = true.
Proof. split_and!; vm_compute; reflexivity. Qed.

(** An untagged surface may contain the separator: its last part is taken
    for a tag, one the tag constructor would refuse. *)
Theorem split_invents_a_tag :
  split_tag (surface (made (CcMemorySet (mkScope ScopeUser "ada@home office") [] [])))
  = ("memory:user:ada", Some "home office")
  /\ match tag_new "home office" with Ok _ => False | Err _ => True end.
Proof. split; vm_compute; done. Qed.

(** The address of a candidate is the digest of its content as it stands:
    where a map keeps its insertion order, two orders of one document are two
    candidates, though their diff is empty. *)
Definition settings (members : list (string * Value)) : Candidate :=
  made (CcModelSettings "primary" "model-1" (Object members)).

Theorem address_sees_member_order :
  let one := settings [("a", Null); ("b", Null)] in
  let two := settings [("b", Null); ("a", Null)] in
  cd_candidate_id one <> cd_candidate_id two
  /\ match diff_candidates one two with Ok d => diff_is_empty d = true | Err _ => False end.
Proof. split; [by vm_compute|vm_compute; reflexivity]. Qed.

(** A base store's utility signal does not pass through the lens. *)
Theorem lens_drops_utility {E : Type} (o : CandidateOverlay E) (env : E) (id : string) :
  ms_utility_bps (overlay_store keep o) env id = None.
Proof. reflexivity. Qed.

(** The default tenant's listing leaves out a surface with a slash. *)
Definition slashed : Candidate := made (CcPrompt "support/eu" "be brief").

Theorem listing_skips_slashes :
  let s := after [creating slashed; evaluating slashed; promoting slashed] in
  serving s "prompt:support/eu" = Some (cd_candidate_id slashed) /\ list_version_pointers tenant s = [].
Proof. split; vm_compute; reflexivity. Qed.
End LearnExamples.
